(* ===== verification/_CoqProject ===== *)
-Q . S2P
Prelude.v
GoFloat.v
Text.v
Address.v
Mux.v
Keyframe.v
Heap.v
DynamicDelay.v
Buffer.v
Relay.v
PacketBuffer.v
Config.v
Recovery.v
Peer.v
Whep.v
Whip.v
Stats.v
Pipeline.v
Guard.v
Daemon.v
Transport.v
Settings.v
Autostart.v
Reach.v
Control.v
Signal.v
Link.v
Engine.v
Lifecycle.v
Routes.v
Tools.v
