(* ===== verification/Prelude.v ===== *)
(** * wagaStrim: a verification library

    wagaStrim receives cameras over WebRTC (WHIP), holds each track back by a
    delay that adapts to the network, and serves it to viewers (WHEP).  This
    library models the program, from the datagram to the shutdown, and proves what
    makes its parts correct.

    ** The program and its model

    Media arrives on one UDP socket per interface.  The recovery layer sees each
    datagram first: it keeps a history, rebuilds lost packets from parity, asks
    for repairs and acknowledges arrivals.  Datagrams then wait in a receive
    buffer, become RTP packets of the WebRTC library, and are pushed into the
    delay buffer of their track.  The relay owns the buffers of all cameras,
    aligns the clocks of a camera's tracks and lets viewers ask for keyframes.
    The configuration holds the cameras, their keys and delays.  A public
    listener takes the offers of publishers (WHIP) and viewers (WHEP) to two
    servers, each with its table of sessions; a settings page on loopback and a
    control API with a token change the configuration, and two hooks of [main]
    carry what changed to the running cameras.  [main] builds the media engine,
    starts the listeners, and closes everything in order when one of them fails or
    a signal arrives.

    - [Prelude]: Go's fixed-width integers, durations and times, big-endian
      words, string functions, field assignment, generic lemmas and tactics.
    - [GoFloat]: [float64], as executable IEEE 754 arithmetic.
    - [Text], [Address], [Mux]: what the sources use of Go's string, path, address
      and HTTP routing packages, executable, with the lemmas on it; [Mux] shows that
      the route chosen is the most specific one.
    - [Keyframe] ([relay/keyframe.go]): whether a payload starts a keyframe.
    - [Heap] ([packetHeap] of [relay/delay.go]): the playout queue.
    - [DynamicDelay] ([dynamicdelay/delay.go], [status.go]): the controller whose
      piecewise linear curve is the delay of a camera.
    - [Buffer] ([Buffer] of [relay/delay.go], with its methods in [clock.go] and
      [playback.go]): the delay buffer of a track, over [Heap] and
      [DynamicDelay].
    - [Relay] ([relay/relay.go], [clock.go], [stats.go], [playback.go]): the
      store of streams and buffers; a goroutine is the list of calls it still has to
      make, one that holds a stream's lock while it takes those of its buffers is a
      [holder], and [step] interleaves them section by section.
    - [PacketBuffer] ([ingest/packet_buffer.go]): the receive ring.
    - [Config] ([config/]): the configuration, its setters and its file.
    - [Recovery] ([ingest/recovery.go], [recovery_mux.go], [delivery.go]): the
      recovery layer.
    - [Peer] ([peer/peer.go]): the SDP exchange and the direction of an offer.
    - [Whep] ([egress/whep.go]): subscribers; [step] interleaves their
      reservations, negotiations and closings; the requests viewers send back.
    - [Whip] ([ingest/whip.go]): publishers; a goroutine is the list of actions it
      still has to take, [exec] takes one, [step] interleaves goroutines,
      [sync.Once] and waiting included.
    - [Stats] ([stats/stats.go]): the counters behind the dashboard.
    - [Pipeline] (the loop of [drain] and [drainRTCP] of [ingest/whip.go], [Feed] of
      [relay/relay.go]): the goroutines that carry packets from a publisher's track
      through its [Buffer] to the viewers' track, and everything a session tells
      [Stats] ([watch], [watchPath], [watchPairs] and [stopSession] included).
    - [Guard] ([listen/guard.go]): the request limits, over the interface
      [Limiter].
    - [Daemon] ([cmd/wagastrim/main.go]): the interface [Hooks] between settings
      and running cameras with its laws, an instance over [Relay] and the tables of
      the two servers, and the lemmas on changing one camera of the configuration.
    - [Transport] ([config/transport.go]): transport checks and links.
    - [Settings] ([ui/ui.go]): the settings page, against [Hooks].
    - [Autostart] ([autostart/], with its handlers in [ui/ui.go]): the entry started at
      login; the interface [Login] with its laws, and one instance per system.
    - [Reach] ([reach/], [ingest/sockbuf_unix.go], with their handlers in [ui/ui.go]):
      the reachability report and the socket note.
    - [Control] ([control/]): the control API, against [Hooks], and runs of both
      listeners with negotiations under way ([moves]: a key is resolved in one step and
      the session gets its place in a later one).
    - [Signal] ([signal/server.go]): the public listener, over [Whip] and [Whep].
    - [Link] ([arrival_feedback.go], [paths.go], [path_failover.go],
      [playout.go], parts of [whip.go] and [engine.go] of [ingest]): what is known
      of a publisher's network path.
    - [Engine] ([ingest/engine.go], [buildAPI] and [watchPath] of [whip.go]): building
      the media stack, in an error monad that writes the calls down.
    - [Lifecycle] ([listen/listen.go], [run] of [main.go], [tray/]): starting, serving
      and shutting down, as a step relation over listeners, main and tray.
    - [Routes] ([New] of [signal], [control] and [ui]): the three route tables, and a
      request from [Guard] and its path to [Signal], [Control] or [Settings].
    - [Tools] ([scripts/tools.go]): the release check, the license notices and the
      duplicate finder.

    ** How code becomes definitions

    A struct is a record with the fields of the source, a method is a function
    from the state to the state and its results, named as in the source.  Code
    under a mutex runs as one transition; where a method releases the lock or
    waits, the model has one definition per critical section (a goroutine that keeps
    one lock while it takes and releases others has a section for each), and a step relation
    ([Relay.step], [PacketBuffer.sys_step], [Recovery.section], [Whep.step],
    [Whip.step], [Pipeline.step], [Lifecycle.step]) lets sections interleave in any
    order.  Objects shared by reference live in a store.

    A run-time panic is [None] of an [option]: an index or slice out of range, a
    division by zero.  Errors are values.  Integers wrap at their width.  What the
    code reads from outside is an argument: clock readings (of the goroutines of the
    relay in no order), random bytes, results of system calls, the order of a map iteration where it
    can be seen.  Third-party code is a parameter: outbound tracks, the STUN
    decoder, SHA-256, the rate limiter, [net.ParseIP], the Go parser; peer
    connections, service managers and the WebRTC engine are what they answered.
    In [Control] the handlers of the two settings listeners, and the start of a track,
    run one after another, with the calls they make of the relay.

    Loops that are not structural run on fuel, and running out is [None]: the
    payload length for the aggregation walks, the number of slots for the heap,
    the length of the order queue for evictions.  Matching a path recurs on its
    segments and walking a directory on its tree.  Theorems that give a result
    therefore show that the fuel is enough.

    ** What the theorems show

    - Nothing is lost or played early: [Buffer.buffer_conserves_packets],
      [Buffer.pop_delivers_due], [Heap.heap_refines_sorted_queue],
      [PacketBuffer.packet_buffer_refines_queue], [PacketBuffer.no_lost_wakeup];
      and from the publisher's track to the viewers', with all goroutines running:
      [Pipeline.pipeline_conserves].
    - Time: [Buffer.playout_follows_sender_clock], [Buffer.reanchor_keeps_schedule],
      [Buffer.SetTarget_shifts_uniformly], [Buffer.jump_lands],
      [Buffer.frame_fits_interval], [Buffer.SenderReport_detects_reset],
      [Relay.aligned_tracks_share_timeline], [Relay.correction_moves_deep_tracks].
    - The delay: [DynamicDelay.reachable_delay_bounded],
      [DynamicDelay.Step_continuous], [DynamicDelay.quiet_delay_returns],
      [DynamicDelay.Normalize_bounds_idempotent].
    - The relay as a whole: [Relay.relay_stays_consistent],
      [Relay.keyframe_requests_throttled], [Whep.feedback_is_keyframes],
      [Relay.Untrack_keeps_totals],
      [Relay.ConfigureDelay_reaches_tracks], [Relay.ConfigureDelay_settles].
    - Keyframes: [Keyframe.isKeyframe_packetised], [Keyframe.isKeyframe_returns].
    - Recovery: lost packets are rebuilt byte for byte
      ([Recovery.parity_rebuilds_missing], [Recovery.waiting_group_completes]);
      gaps, requests and receipts are exact ([Recovery.gap_tracked_exactly],
      [Recovery.repairs_complete_and_paced], [Recovery.request_decodes],
      [Recovery.receipts_acknowledge_in_order]); hostile input neither panics nor
      grows memory ([Recovery.reading_never_panics],
      [Recovery.recovery_stays_bounded]); a revoked peer leaves nothing
      ([Recovery.revoked_peer_forgotten]).
    - Settings: [Config.setters_transactional], [Config.save_crash_safe],
      [Config.config_always_valid], [Config.replaced_keys_resolve],
      [Config.stale_cameras_exact], [Config.sync_group_shares_delay],
      [Config.validKey_exact].
    - Sessions: one publisher per camera, which alone feeds the relay and the
      dashboard ([Whip.publisher_owns_camera]), clean replacements
      ([Whip.replacement_starts_clean]), no deadlock and no goroutine left behind
      ([Whip.goroutines_finish]: a measure bounds every run); subscribers are
      bounded ([Whep.subscriber_capacity]), none outlives the closing of its
      camera ([Whep.closed_camera_keeps_no_subscriber]), no connection is lost
      sight of ([Whep.connections_accounted]).
    - Settings and running cameras together: [Control.cameras_follow_configuration].
    - Access: [Routes.control_admission], [Signal.unknown_key_learns_nothing],
      [Signal.two_ways_in], [Guard.clients_isolated], [Guard.guard_bounds],
      [Routes.settings_change_by_post], [Routes.profiling_stays_local]; the links the
      program hands out come back to the camera they are for:
      [Routes.links_reach_camera].
    - Starting and stopping: the media stack is complete or refused
      ([Engine.media_stack_complete]), the advertised addresses are those configured
      ([Engine.public_addresses_advertised]); media is closed behind the listeners
      ([Lifecycle.shutdown_drains_listeners]) and a failure or a signal brings
      everything down in boundedly many steps ([Lifecycle.shutdown_completes]).
    - The desktop: [Autostart.autostart_follows_request] for every system,
      [Reach.reachability_honest].
    - Releases: [Tools.release_exact], [Tools.notices_complete],
      [Tools.duplicates_exact].
    - The dashboard and the link: [Stats.samples_bounded],
      [Stats.switches_count_changes], [Pipeline.totals_in_order],
      [Transport.links_agree],
      [Link.arrival_lifecycle], [Link.failover_needs_silence],
      [Link.payload_types_distinct], [Link.packetsLost_exact].
    - Where the code does not do what it means to:
      [Control.removal_leaves_group_behind] (removing the slowest camera of a sync
      group on the settings page), [Whip.closing_misses_negotiation] and
      [Control.negotiation_outlives_reset] (closing a camera during a negotiation), [Stats.reconnect_revives_old_trouble] (advice
      after a reconnect), [Config.loaded_keys_resolve_as_written] (loading does not
      check keys, so a file edited by hand can hold a camera that an empty credential
      opens), [Lifecycle.menu_quit_hangs] (quitting from the tray's menu),
      [Autostart.moved_binary_unnoticed], [Autostart.refused_unit_shown_on] and
      [Autostart.barred_removal_answered] (what the login toggle shows), [Reach.linux_clamp_hidden] (the socket note on Linux),
      [Routes.control_port_tells_routes] (what the control port reveals),
      [Whep.failed_connection_stays_open], [Transport.capital_scheme],
      [Link.packetsLost_wraps].

    ** What is not modelled

    The WebRTC library itself: ICE, DTLS, SRTP and the interceptors are seen
    through the calls made to them and what they answered.  The waking of a buffer's
    reader is a round of [Pop] that may come at any time.  JSON and HTML templates
    are seen through the values they decode to or are given, and embedded assets
    are not looked into.  Of [http.Server] the model has the listener's life, the
    limits of [Guard] and the routing; timeouts and TLS are its own.  What a service
    manager or a desktop does with an entry or an address it was given is its
    business.  Log lines are left out. *)

From stdpp Require Export base tactics numbers list strings gmap sorting.
From Stdlib Require Export ZArith Lia.

Declare Scope go_scope.
Delimit Scope go_scope with go.
Global Open Scope Z_scope.

(** ** Fixed-width integers

    A Go unsigned integer of width [w] is a [Z] in [[0, 2^w)]; its arithmetic
    is arithmetic of [Z] followed by the wrap-around below.  [i64] is the two's
    complement reading of a 64-bit word; it is the width of [int] and of
    [time.Duration]. *)
Definition u8 (z : Z) : Z := z mod 256.

Definition u16 (z : Z) : Z := z mod 65536.

Definition u32 (z : Z) : Z := z mod 4294967296.

Definition u64 (z : Z) : Z := z mod 18446744073709551616.

Definition i64 (z : Z) : Z :=
  (z + 9223372036854775808) mod 18446744073709551616 - 9223372036854775808.

Notation "'maxInt32'" := 2147483647 (only parsing) : go_scope.
Notation "'maxInt64'" := 9223372036854775807 (only parsing) : go_scope.
Notation "'minInt64'" := (-9223372036854775808) (only parsing) : go_scope.
Notation "'maxUint32'" := 4294967295 (only parsing) : go_scope.

(** ** [time.Duration] and [time.Time]

    A duration is an [int64] number of nanoseconds; sums, differences and
    products wrap, division truncates towards zero.  A time is the number of
    nanoseconds since Go's zero time (January 1 of year 1), so that
    [time.Time{}] is [0].  [Time.Add] is exact over the range in use;
    [Time.Sub] saturates at the two extreme durations, which is what the code
    meets whenever it subtracts a zero time from the wall clock. *)
Abbreviation time := Z (only parsing).
Abbreviation duration := Z (only parsing).

Definition Microsecond : duration := 1000.
Definition Millisecond : duration := 1000000.
Definition Second : duration := 1000000000.
Definition Minute : duration := 60000000000.

Definition dadd (a b : duration) : duration := i64 (a + b).
Definition dsub (a b : duration) : duration := i64 (a - b).
Definition dmul (a b : duration) : duration := i64 (a * b).
Definition dquot (a b : duration) : duration := i64 (Z.quot a b).

Definition dabs (d : duration) : duration :=
  if 0 <=? d then d
  else if d =? -9223372036854775808 then 9223372036854775807
  else - d.

Definition zeroTime : time := 0.
Definition IsZero (t : time) : bool := t =? 0.
Definition Before (t u : time) : bool := t <? u.
Definition After (t u : time) : bool := u <? t.
Definition tadd (t : time) (d : duration) : time := t + d.
Definition tsub (t u : time) : duration :=
  Z.max (-9223372036854775808) (Z.min 9223372036854775807 (t - u)).

(** ** Big-endian fields of a datagram ([encoding/binary]) *)
Definition be16 (hi lo : Z) : Z := hi * 256 + lo.

Definition be32 (b3 b2 b1 b0 : Z) : Z := ((b3 * 256 + b2) * 256 + b1) * 256 + b0.

Definition put16 (v : Z) : list Z := [u8 (Z.shiftr v 8); u8 v].

Definition put32 (v : Z) : list Z :=
  [u8 (Z.shiftr v 24); u8 (Z.shiftr v 16); u8 (Z.shiftr v 8); u8 v].

Definition is_byte (b : Z) : Prop := 0 <= b < 256.
Definition is_u16 (z : Z) : Prop := 0 <= z < 65536.
Definition is_u32 (z : Z) : Prop := 0 <= z < 4294967296.
Definition is_u64 (z : Z) : Prop := 0 <= z < 18446744073709551616.
Definition is_i64 (z : Z) : Prop := -9223372036854775808 <= z <= 9223372036854775807.

(** ** Strings: what the sources use of package [strings]

    Lower-casing is on ASCII letters, which is exact for the ASCII constants
    the code compares with. *)
Definition lower_ascii (c : Ascii.ascii) : Ascii.ascii :=
  let n := Ascii.N_of_ascii c in
  if ((65 <=? n) && (n <=? 90))%N then Ascii.ascii_of_N (n + 32)%N else c.

Fixpoint ToLower (s : string) : string :=
  match s with
  | EmptyString => EmptyString
  | String c r => String (lower_ascii c) (ToLower r)
  end.

Definition EqualFold (s t : string) : bool := String.eqb (ToLower s) (ToLower t).

Definition HasPrefix (s p : string) : bool := String.prefix p s.

(** [strings.CutPrefix]: the rest of [s] after [p], when [s] starts with [p]. *)
Fixpoint CutPrefix (s p : string) : option string :=
  match p, s with
  | EmptyString, _ => Some s
  | String a p', String b s' => if Ascii.eqb a b then CutPrefix s' p' else None
  | String _ _, EmptyString => None
  end.

(** [strings.Cut] with a one-byte separator: what precedes it, and what follows
    it when the separator occurs. *)
Fixpoint Cut (s : string) (sep : Ascii.ascii) : string * option string :=
  match s with
  | EmptyString => (EmptyString, None)
  | String c r =>
      if Ascii.eqb c sep then (EmptyString, Some r)
      else let '(a, b) := Cut r sep in (String c a, b)
  end.

(** ** Assignments to one field of a struct

    [b <| f := v |>] is the record [b] with its field [f] set to [v].  A record
    type supports it through an [Eta] instance, the record rebuilt from its
    projections; the setter of a field is found from it by abstracting the
    projection. *)
Class Eta (R : Type) := eta_expr : R -> R.

Class Setter {R T : Type} (field : R -> T) := set_field : T -> R -> R.

Ltac solve_setter :=
  match goal with
  | |- @Setter ?R ?T ?field =>
      let body := constr:(@eta_expr R _) in
      let body := eval hnf in body in
      let shape := eval pattern field in body in
      match shape with
      | ?build field => let f := eval cbv beta in (fun (v : T) (r : R) => build (fun _ => v) r) in exact f
      end
  end.

#[export] Hint Extern 1 (Setter _) => solve_setter : typeclass_instances.

Notation "r <| f := v |>" := (set_field (field := f) v r)
  (at level 1, left associativity, format "r  <| f  :=  v |>") : go_scope.
Global Open Scope go_scope.

(** ** Automation *)
Create HintDb go discriminated.

Ltac cases_if :=
  repeat match goal with
  | |- context [if ?b then _ else _] => destruct b eqn:?
  | H : context [if ?b then _ else _] |- _ => destruct b eqn:?
  end.

Ltac bool_hyps :=
  repeat match goal with
  | H : _ && _ = true |- _ => apply andb_true_iff in H; destruct H
  | H : _ || _ = false |- _ => apply orb_false_iff in H; destruct H
  | H : negb _ = true |- _ => apply negb_true_iff in H
  | H : negb _ = false |- _ => apply negb_false_iff in H
  | H : String.eqb _ _ = true |- _ => apply String.eqb_eq in H
  | H : String.eqb _ _ = false |- _ => apply String.eqb_neq in H
  end.

(** One step of the [option] monad, leaving everything else alone. *)
Ltac obind := cbn [mbind option_bind].

Ltac unfold_go :=
  unfold dadd, dsub, dmul, dquot, dabs, tadd, tsub, i64, u8, u16, u32, u64,
    is_byte, is_u16, is_u32, is_u64, is_i64, Before, After, IsZero in *.

(** [lia] after the wrap-arounds have been turned into linear facts. *)
Ltac golia := unfold_go; Z.div_mod_to_equations; lia.

(** ** Lemmas on integers *)
Lemma u16_range z : is_u16 (u16 z).
Proof. unfold is_u16, u16. apply Z.mod_pos_bound. lia. Qed.

Lemma u32_range z : is_u32 (u32 z).
Proof. unfold is_u32, u32. apply Z.mod_pos_bound. lia. Qed.

Lemma u64_range z : is_u64 (u64 z).
Proof. unfold is_u64, u64. apply Z.mod_pos_bound. lia. Qed.

Lemma u16_small z : is_u16 z -> u16 z = z.
Proof. unfold is_u16, u16. apply Z.mod_small. Qed.

Lemma u32_small z : is_u32 z -> u32 z = z.
Proof. unfold is_u32, u32. apply Z.mod_small. Qed.

Lemma u64_small z : is_u64 z -> u64 z = z.
Proof. unfold is_u64, u64. apply Z.mod_small. Qed.

Lemma i64_range z : is_i64 (i64 z).
Proof. golia. Qed.

Lemma i64_small z : is_i64 z -> i64 z = z.
Proof. intros. unfold i64. rewrite Z.mod_small by (unfold is_i64 in *; lia). lia. Qed.

Lemma i64_idem z : i64 (i64 z) = i64 z.
Proof. apply i64_small, i64_range. Qed.

Lemma tsub_range t u : is_i64 (tsub t u).
Proof. unfold is_i64, tsub. lia. Qed.

Lemma tsub_exact t u : is_i64 (t - u) -> tsub t u = t - u.
Proof. unfold is_i64, tsub. lia. Qed.

Lemma dabs_nonneg d : is_i64 d -> 0 <= dabs d <= 9223372036854775807.
Proof. unfold is_i64, dabs. intros. cases_if; lia. Qed.

Lemma is_byte_u8 z : is_byte (u8 z).
Proof. unfold is_byte, u8. apply Z.mod_pos_bound. lia. Qed.

Lemma be16_range hi lo : is_byte hi -> is_byte lo -> is_u16 (be16 hi lo).
Proof. unfold is_byte, is_u16, be16. lia. Qed.

Lemma be16_put16 v : is_u16 v -> be16 (u8 (Z.shiftr v 8)) (u8 v) = v.
Proof.
  unfold is_u16, be16, u8. intros. rewrite Z.shiftr_div_pow2 by lia.
  change (2 ^ 8) with 256. Z.div_mod_to_equations. lia.
Qed.

(** [int(hi)<<8 | int(lo)] is the big-endian value of the two bytes. *)
Lemma lor_be16 hi lo : is_byte lo -> Z.lor (Z.shiftl hi 8) lo = be16 hi lo.
Proof.
  intros Hlo. unfold be16. assert (Hland : Z.land (Z.shiftl hi 8) lo = 0).
  - apply Z.bits_inj'. intros i Hi. rewrite Z.land_spec, Z.bits_0.
    destruct (Z.lt_ge_cases i 8); [by rewrite Z.shiftl_spec_low by lia|].
    rewrite (Z.bits_above_log2 lo); [apply andb_false_r|unfold is_byte in Hlo; lia|].
    destruct (decide (lo = 0)) as [->|]; [simpl; lia|].
    assert (Z.log2 lo < 8); [|lia]. apply Z.log2_lt_pow2; unfold is_byte in Hlo; lia.
  - pose proof (Z.add_lor_land (Z.shiftl hi 8) lo) as E. rewrite Hland in E.
    rewrite Z.shiftl_mul_pow2 in * by lia. change (2 ^ 8) with 256 in *. lia.
Qed.

Lemma be32_put32 v :
  is_u32 v ->
  be32 (u8 (Z.shiftr v 24)) (u8 (Z.shiftr v 16)) (u8 (Z.shiftr v 8)) (u8 v) = v.
Proof.
  unfold is_u32, be32, u8. intros. rewrite !Z.shiftr_div_pow2 by lia.
  change (2 ^ 8) with 256. change (2 ^ 16) with (256 * 256).
  change (2 ^ 24) with (256 * 256 * 256). rewrite <-!Z.div_div by lia.
  Z.div_mod_to_equations. lia.
Qed.

#[export] Hint Resolve u16_range u32_range u64_range i64_range tsub_range is_byte_u8 : go.
#[export] Hint Resolve u16_small u32_small u64_small i64_small : go.

(** ** Lemmas on strings *)
Lemma string_app_nil_l s : "" +:+ s = s.
Proof. done. Qed.

Lemma string_app_cons c p s : String c p +:+ s = String c (p +:+ s).
Proof. done. Qed.

Lemma HasPrefix_app p s : HasPrefix (p +:+ s) p = true.
Proof. unfold HasPrefix. induction p as [|c p IH]; simpl; [by destruct s|]. by destruct (Ascii.ascii_dec c c). Qed.

Lemma HasPrefix_CutPrefix s p : HasPrefix s p = true <-> is_Some (CutPrefix s p).
Proof.
  unfold HasPrefix. revert s. induction p as [|a p IH]; intros [|b s]; simpl.
  - naive_solver.
  - naive_solver.
  - split; [done|]. intros [? ?]. done.
  - destruct (Ascii.ascii_dec a b) as [->|Hne].
    + by rewrite Ascii.eqb_refl.
    + apply Ascii.eqb_neq in Hne. rewrite Hne. split; [done|]. intros [? ?]. done.
Qed.

Lemma CutPrefix_app s p r : CutPrefix s p = Some r <-> s = p +:+ r.
Proof.
  revert s. induction p as [|a p IH]; intros [|b s]; simpl;
    rewrite ?string_app_nil_l, ?string_app_cons.
  - split; congruence.
  - split; congruence.
  - done.
  - destruct (Ascii.eqb_spec a b) as [->|Hne]; [rewrite IH|]; split; congruence.
Qed.

Lemma HasPrefix_spec s p : HasPrefix s p = true <-> exists r, s = p +:+ r.
Proof.
  rewrite HasPrefix_CutPrefix. unfold is_Some.
  split; intros [r Hr]; exists r; by apply CutPrefix_app.
Qed.

Lemma ToLower_idem s : ToLower (ToLower s) = ToLower s.
Proof.
  induction s as [|c s IH]; [done|]. simpl. rewrite IH. f_equal.
  destruct c as [[] [] [] [] [] [] [] []]; reflexivity.
Qed.

Lemma EqualFold_refl s : EqualFold s s = true.
Proof. apply String.eqb_refl. Qed.
