(* ===== verification/GoFloat.v ===== *)
(** * Go's [float64]

    IEEE 754 binary64 with round to nearest even, as the executable
    [SpecFloat] of the standard library at precision 53 and exponent range
    1024: the arithmetic of [float64] on a platform that does not fuse
    multiply and add.  Converting a float that no [int64] can hold is
    implementation defined in Go; it is [minInt64] here, what amd64 returns. *)

From Corelib Require Import SpecFloat.
From S2P Require Import Prelude.

Module F64.

Abbreviation float64 := spec_float.

(** [float64(z)] of an integer *)
Definition of_Z (z : Z) : float64 := binary_normalize 53 1024 z 0 false.

Definition add : float64 -> float64 -> float64 := SFadd 53 1024.
Definition sub : float64 -> float64 -> float64 := SFsub 53 1024.
Definition mul : float64 -> float64 -> float64 := SFmul 53 1024.
Definition div : float64 -> float64 -> float64 := SFdiv 53 1024.

(** The integer part of a finite float, towards zero. *)
Definition trunc (f : float64) : option Z :=
  match f with
  | S754_zero _ => Some 0
  | S754_finite s m e =>
      let a := if 0 <=? e then Z.pos m * 2 ^ e else Z.pos m / 2 ^ (- e) in
      Some (if s then - a else a)
  | _ => None
  end.

(** [int64(f)] and [time.Duration(f)] *)
Definition to_i64 (f : float64) : Z :=
  match trunc f with
  | Some z => if (-9223372036854775808 <=? z) && (z <=? 9223372036854775807) then z
              else -9223372036854775808
  | None => -9223372036854775808
  end.

Lemma to_i64_range f : is_i64 (to_i64 f).
Proof.
  unfold to_i64, is_i64. destruct (trunc f); [|lia]. destruct (_ && _) eqn:E; [bool_hyps|]; lia.
Qed.

End F64.

#[export] Hint Resolve F64.to_i64_range : go.
