(* ===== verification/Text.v ===== *)
(** * Strings and paths: what the sources use of [strings], [bytes] and [path]

    Executable versions of the library functions several components call, with
    the lemmas on them.  White space is ASCII white space, and upper case is on
    ASCII letters, as for [ToLower] of [Prelude]. *)

From S2P Require Import Prelude.
From Stdlib Require Import Ascii.

Module Text.

(** ** [strings] *)

(** [strings.Contains], [bytes.Contains] *)
Fixpoint Contains (s sub : string) : bool :=
  String.prefix sub s || match s with EmptyString => false | String _ r => Contains r sub end.

Fixpoint HasSuffix (s suffix : string) : bool :=
  String.eqb s suffix || match s with EmptyString => false | String _ r => HasSuffix r suffix end.

Definition TrimPrefix (s p : string) : string := default s (CutPrefix s p).

(** [strings.Split] with a one-byte separator *)
Fixpoint Split (s : string) (sep : Ascii.ascii) : list string :=
  match s with
  | EmptyString => [""]
  | String a r =>
      if Ascii.eqb a sep then "" :: Split r sep
      else match Split r sep with [] => [String a ""] | x :: l => String a x :: l end
  end.

Definition isSpace (c : Ascii.ascii) : bool :=
  let n := Ascii.N_of_ascii c in ((n =? 32) || ((9 <=? n) && (n <=? 13)))%N.

(** [strings.Fields]: the maximal runs of other characters, in order.  [run] is the
    run being read. *)
Fixpoint fields (s run : string) : list string :=
  match s with
  | EmptyString => if String.eqb run "" then [] else [run]
  | String c r =>
      if isSpace c then (if String.eqb run "" then fields r "" else run :: fields r "")
      else fields r (run +:+ String c "")
  end.

Definition Fields (s : string) : list string := fields s "".

Definition upper_ascii (c : Ascii.ascii) : Ascii.ascii :=
  let n := Ascii.N_of_ascii c in
  if ((97 <=? n) && (n <=? 122))%N then Ascii.ascii_of_N (n - 32)%N else c.

Fixpoint ToUpper (s : string) : string :=
  match s with EmptyString => EmptyString | String c r => String (upper_ascii c) (ToUpper r) end.

(** [bytes.ReplaceAll] for a non-empty [old]; [skip] bytes of a replaced occurrence
    are still to be passed over. *)
Fixpoint replace (skip : nat) (s old new : string) : string :=
  match s with
  | EmptyString => EmptyString
  | String c r =>
      match skip with
      | S skip => replace skip r old new
      | O => if String.prefix old s then new +:+ replace (String.length old - 1) r old new else String c (replace 0 r old new)
      end
  end.

Definition ReplaceAll (s old new : string) : string := replace 0 s old new.

(** ** [path] and [filepath] on Unix *)

(** The elements of a path so far, the last first, with one more element. *)
Definition cleanStep (rooted : bool) (acc : list string) (seg : string) : list string :=
  if String.eqb seg "" || String.eqb seg "." then acc
  else if String.eqb seg ".." then
    match acc with
    | x :: rest => if String.eqb x ".." then ".." :: acc else rest
    | [] => if rooted then [] else [".."]
    end
  else seg :: acc.

Definition cleanSegments (rooted : bool) (segs : list string) : list string :=
  rev (fold_left (cleanStep rooted) segs []).

Definition Clean (p : string) : string :=
  let rooted := HasPrefix p "/" in
  let segs := cleanSegments rooted (Split p "/"%char) in
  if rooted then "/" +:+ String.concat "/" segs
  else match segs with [] => "." | _ => String.concat "/" segs end.

Fixpoint Join (elems : list string) : string :=
  match elems with
  | [] => ""
  | e :: rest => if String.eqb e "" then Join rest else Clean (String.concat "/" elems)
  end.

(** ** Lemmas *)
Lemma string_app_nil_r s : s +:+ "" = s.
Proof. induction s as [|c s IH]; [done|]. change (String c (s +:+ "") = String c s). by rewrite IH. Qed.

Lemma string_app_assoc a b c : (a +:+ b) +:+ c = a +:+ (b +:+ c).
Proof. induction a as [|x a IH]; [done|]. change (String x ((a +:+ b) +:+ c) = String x (a +:+ (b +:+ c))). by rewrite IH. Qed.

Lemma prefix_exact p s : String.prefix p s = true <-> exists r, s = p +:+ r.
Proof.
  revert s. induction p as [|c p IH]; intros s; [split; [intros _; by exists s|intros _; by destruct s]|].
  destruct s as [|d s]; [split; [done|intros [r Hr]; done]|]. cbn. destruct (ascii_dec c d) as [->|Hn].
  - rewrite IH. split; intros [r Hr]; exists r; [by rewrite Hr, string_app_cons|]. rewrite string_app_cons in Hr. by injection Hr.
  - split; [done|]. intros [r Hr]. rewrite string_app_cons in Hr. injection Hr. congruence.
Qed.

Lemma Contains_exact s sub : Contains s sub = true <-> exists a b, s = a +:+ sub +:+ b.
Proof.
  induction s as [|c s IH]; cbn [Contains]; rewrite orb_true_iff, prefix_exact.
  - split; [|intros (a & b & Hab); left].
    + intros [[r Hr]|]; [|done]. by exists "", r.
    + destruct a; [by exists b|done].
  - rewrite IH. split.
    + intros [[r Hr]|(a & b & ->)]; [by exists "", r|]. exists (String c a), b. done.
    + intros (a & b & Hab). destruct a as [|d a]; [left; by exists b|right]. rewrite string_app_cons in Hab. injection Hab as -> ->. by exists a, b.
Qed.

Lemma Contains_app a sub b : Contains (a +:+ sub +:+ b) sub = true.
Proof. apply Contains_exact. by exists a, b. Qed.

Lemma Contains_trans s t u : Contains s t = true -> Contains t u = true -> Contains s u = true.
Proof.
  rewrite !Contains_exact. intros (a & b & ->) (c & d & ->). exists (a +:+ c), (d +:+ b). by rewrite !string_app_assoc.
Qed.

Lemma string_app_eq_nil a b : a +:+ b = "" -> a = "" /\ b = "".
Proof. destruct a; [done|]. rewrite string_app_cons. done. Qed.

Lemma Split_nonempty s sep : Split s sep <> [].
Proof. destruct s as [|c s]; [done|]. cbn. destruct (Ascii.eqb c sep); [done|]. by destruct (Split s sep). Qed.

(** [Join] undoes [Split]. *)
Lemma concat_Split s sep : String.concat (String sep "") (Split s sep) = s.
Proof.
  induction s as [|c s IH]; [done|]. cbn [Split]. pose proof (Split_nonempty s sep) as Hne.
  destruct (Ascii.eqb_spec c sep) as [->|Hn].
  - destruct (Split s sep) as [|x l] eqn:E; [done|]. change (String.concat (String sep "") ("" :: x :: l)) with (String sep (String.concat (String sep "") (x :: l))).
    by rewrite IH.
  - destruct (Split s sep) as [|x l]; [done|]. rewrite <-IH. by destruct l.
Qed.

End Text.
