(* ===== verification/Address.v ===== *)
(** * IP addresses: what the code uses of [net] and [net/netip]

    The classes of addresses that decide who may use the control API, how a path
    is labelled and which hosts are offered on the local network. *)

From S2P Require Import Prelude.
From stdpp Require Import pretty.
Local Open Scope Z_scope.

Module Address.

(** An IPv4 address is its 32 bits, an IPv6 address its 128 bits. *)
Inductive Addr := V4 (a : Z) | V6 (a : Z).

(** An IPv4-mapped IPv6 address, [::ffff:a.b.c.d], is the IPv4 address. *)
Definition Unmap (x : Addr) : Addr :=
  match x with
  | V6 a => if Z.shiftr a 32 =? 65535 then V4 (Z.land a 4294967295) else x
  | V4 _ => x
  end.

(** The first [n] bits of an address of [w] bits. *)
Definition prefix (w n a : Z) : Z := Z.shiftr a (w - n).

Definition IsLoopback (x : Addr) : bool :=
  match x with V4 a => prefix 32 8 a =? 127 | V6 a => a =? 1 end.

Definition IsPrivate (x : Addr) : bool :=
  match x with
  | V4 a => (prefix 32 8 a =? 10) || (prefix 32 12 a =? 172 * 16 + 1) || (prefix 32 16 a =? 192 * 256 + 168)
  | V6 a => prefix 128 7 a =? 126
  end.

Definition IsLinkLocalUnicast (x : Addr) : bool :=
  match x with V4 a => prefix 32 16 a =? 169 * 256 + 254 | V6 a => prefix 128 10 a =? 1018 end.

Definition IsMulticast (x : Addr) : bool :=
  match x with V4 a => prefix 32 4 a =? 14 | V6 a => prefix 128 8 a =? 255 end.

Definition IsGlobalUnicast (x : Addr) : bool :=
  match x with
  | V4 a => negb ((a =? 0) || (a =? 4294967295)) && negb (IsLoopback x) && negb (IsMulticast x) && negb (IsLinkLocalUnicast x)
  | V6 a => negb (a =? 0) && negb (IsLoopback x) && negb (IsMulticast x) && negb (IsLinkLocalUnicast x)
  end.

(** [net.IP.String] of an IPv4 address *)
Definition dotted (a : Z) : string :=
  pretty (Z.land (Z.shiftr a 24) 255) +:+ "." +:+ pretty (Z.land (Z.shiftr a 16) 255)
  +:+ "." +:+ pretty (Z.land (Z.shiftr a 8) 255) +:+ "." +:+ pretty (Z.land a 255).

#[export] Instance Addr_eq_dec : EqDecision Addr.
Proof. solve_decision. Defined.

End Address.
