(* ===== verification/Mux.v ===== *)
(** * Routing: [http.ServeMux] as the three listeners use it

    The patterns of Go 1.22 and later, without hosts: a method, literal segments,
    wildcards of one segment, [{$}] and a trailing slash.  [matchPath] descends the
    routing tree as [net/http] does, the tree given as the list of what is left of
    each pattern; [dispatch] is the whole decision, with the cleaning of paths,
    the redirect to a trailing slash and the answer to a wrong method. *)

From S2P Require Import Prelude.
From S2P Require Import Text.
From Stdlib Require Import Ascii.

Local Open Scope Z_scope.

Module Mux.

(** ** Patterns *)

(** A literal segment, a wildcard, [{$}], and a trailing slash, which stands for
    the rest of the path. *)
Inductive segment := Lit (s : string) | Wild (name : string) | End | Multi.

Record pattern := mkPattern { method : string; segments : list segment }.

Definition parseSegment (last : bool) (s : string) : segment :=
  if String.eqb s "" && last then Multi
  else if String.eqb s "{$}" then End
  else
    match CutPrefix s "{" with
    | Some rest => Wild (Cut rest "}"%char).1
    | None => Lit s
    end.

Fixpoint parseSegments (l : list string) : list segment :=
  match l with
  | [] => []
  | [s] => [parseSegment true s]
  | s :: l => parseSegment false s :: parseSegments l
  end.

(** ["METHOD /path"], as the sources write their patterns. *)
Definition parsePattern (s : string) : pattern :=
  match Cut s " "%char with
  | (m, Some path) => mkPattern m (parseSegments (Text.Split (Text.TrimPrefix path "/") "/"%char))
  | (path, None) => mkPattern "" (parseSegments (Text.Split (Text.TrimPrefix path "/") "/"%char))
  end.

Definition wildcards (p : pattern) : list string :=
  omap (λ s, match s with Wild n => Some n | _ => None end) (segments p).

(** ** Paths *)
Definition hexDigit (c : ascii) : option N :=
  let n := N_of_ascii c in
  if ((48 <=? n) && (n <=? 57))%N then Some (n - 48)%N
  else if ((97 <=? n) && (n <=? 102))%N then Some (n - 87)%N
  else if ((65 <=? n) && (n <=? 70))%N then Some (n - 55)%N
  else None.

(** [url.PathUnescape] *)
Fixpoint unescape (s : string) : option string :=
  match s with
  | EmptyString => Some ""
  | String c r =>
      if Ascii.eqb c "%" then
        match r with
        | String a (String b r) =>
            match hexDigit a, hexDigit b, unescape r with
            | Some x, Some y, Some t => Some (String (ascii_of_N (x * 16 + y)) t)
            | _, _, _ => None
            end
        | _ => None
        end
      else match unescape r with Some t => Some (String c t) | None => None end
  end.

Definition pathUnescape (s : string) : string := default s (unescape s).

(** The segments of a clean path as [firstSegment] yields them, a trailing slash
    being the segment ["/"]. *)
Fixpoint trailing (l : list string) : list string :=
  match l with
  | [] => []
  | [s] => if String.eqb s "" then ["/"] else [pathUnescape s]
  | s :: l => pathUnescape s :: trailing l
  end.

Definition pathSegments (path : string) : list string :=
  match CutPrefix path "/" with Some rest => trailing (Text.Split rest "/"%char) | None => [] end.

(** [cleanPath] *)
Definition cleanPath (p : string) : string :=
  if String.eqb p "" then "/"
  else
    let p := if HasPrefix p "/" then p else "/" +:+ p in
    let np := Text.Clean p in
    if Text.HasSuffix p "/" && negb (String.eqb np "/") then np +:+ "/" else np.

(** ** The tree *)
Section tree.
Context {R : Type}.

(** A node: what is left of the patterns below it, and where they lead. *)
Abbreviation node := (list (list segment * R)).

Definition leaf (n : node) : option R :=
  head (omap (λ '(segs, r), match segs with [] => Some r | _ => None end) n).

(** [findChild]: below the literal [seg], the trailing slash being [{$}]. *)
Definition literalChild (seg : string) (n : node) : node :=
  omap (λ '(segs, r),
    match segs with
    | Lit s :: rest => if String.eqb s seg then Some (rest, r) else None
    | End :: rest => if String.eqb seg "/" then Some (rest, r) else None
    | _ => None
    end) n.

Definition emptyChild (n : node) : node :=
  omap (λ '(segs, r), match segs with Wild _ :: rest => Some (rest, r) | _ => None end) n.

Definition multiChild (n : node) : option R :=
  head (omap (λ '(segs, r), match segs with Multi :: _ => Some r | _ => None end) n).

Fixpoint matchPath (n : node) (path : list string) : option (R * list string) :=
  match path with
  | [] => r ← leaf n; Some (r, [])
  | seg :: rest =>
      match matchPath (literalChild seg n) rest with
      | Some m => Some m
      | None =>
          match (if String.eqb seg "/" then None else matchPath (emptyChild n) rest) with
          | Some (r, matches) => Some (r, seg :: matches)
          | None => r ← multiChild n; Some (r, [])
          end
      end
  end.

(** Whether a pattern matches a path, by itself. *)
Fixpoint covers (segs : list segment) (path : list string) : bool :=
  match segs, path with
  | [], [] => true
  | Lit s :: segs, seg :: path => String.eqb s seg && covers segs path
  | End :: segs, seg :: path => String.eqb seg "/" && covers segs path
  | Wild _ :: segs, seg :: path => negb (String.eqb seg "/") && covers segs path
  | Multi :: _, _ :: _ => true
  | _, _ => false
  end.

(** [segs] matches whatever [segs'] does. *)
Definition wider (segs segs' : list segment) : Prop := forall path, covers segs' path = true -> covers segs path = true.

End tree.

(** ** The decision *)
Record route (H : Type) := mkRoute { pat : pattern; handler : H }.
Arguments mkRoute {H} _ _.
Arguments pat {H} _.
Arguments handler {H} _.

Inductive outcome (H : Type) :=
  | Handle (h : H) (values : list (string * string))
  | RedirectTo (path : string)
  | MethodNotAllowed (allow : list string)
  | NotFound.
Arguments Handle {H} _ _.
Arguments RedirectTo {H} _.
Arguments MethodNotAllowed {H} _.
Arguments NotFound {H}.

Section mux.
Context {H : Type}.

Definition nodeFor (m : string) (table : list (route H)) : list (list segment * route H) :=
  omap (λ r, if String.eqb (method (pat r)) m then Some (segments (pat r), r) else None) table.

(** [matchMethodAndPath]: the method itself, [GET] for [HEAD], then patterns without
    a method. *)
Definition matchMethod (table : list (route H)) (m : string) (path : list string) : option (route H * list string) :=
  match matchPath (nodeFor m table) path with
  | Some r => Some r
  | None =>
      match (if String.eqb m "HEAD" then matchPath (nodeFor "GET" table) path else None) with
      | Some r => Some r
      | None => matchPath (nodeFor "" table) path
      end
  end.

Definition endsMulti (p : pattern) : bool :=
  match last (segments p) with Some Multi => true | _ => false end.

(** [strings.Count(path, "/")] *)
Fixpoint slashes (s : string) : nat :=
  match s with EmptyString => 0 | String c r => (if Ascii.eqb c "/" then 1 else 0) + slashes r end.

Definition exactMatch (m : option (route H * list string)) (path : string) : bool :=
  match m with
  | None => false
  | Some (r, _) =>
      if negb (endsMulti (pat r)) then true
      else if negb (String.eqb path "") && negb (Text.HasSuffix path "/") then false
      else (length (segments (pat r)) =? slashes path)%nat
  end.

(** The methods with which the path, or the path with a slash, is a route, sorted. *)
Definition allowed (table : list (route H)) (path : string) : list string :=
  let hits m := bool_decide (is_Some (matchPath (nodeFor m table) (pathSegments path)))
                || bool_decide (is_Some (matchPath (nodeFor m table) (pathSegments (path +:+ "/")))) in
  filter (λ m, hits m = true \/ m = "HEAD" /\ hits "GET" = true) ["CONNECT"; "DELETE"; "GET"; "HEAD"; "OPTIONS"; "PATCH"; "POST"; "PUT"; "TRACE"].

(** [findHandler]: [escaped] is the path of the request line. *)
Definition dispatch (table : list (route H)) (m escaped : string) : outcome H :=
  let connect := String.eqb m "CONNECT" in
  let path := if connect then escaped else cleanPath escaped in
  let found := matchMethod table m (pathSegments path) in
  if negb connect && negb (exactMatch found path) && negb (Text.HasSuffix path "/")
     && exactMatch (matchMethod table m (pathSegments (path +:+ "/"))) (path +:+ "/")
  then RedirectTo (path +:+ "/")
  else if negb connect && negb (String.eqb path escaped) then RedirectTo path
  else
    match found with
    | Some (r, values) => Handle (handler r) (zip (wildcards (pat r)) values)
    | None => match allowed table path with [] => NotFound | l => MethodNotAllowed l end
    end.

End mux.

(** [Request.PathValue] *)
Fixpoint PathValue (values : list (string * string)) (name : string) : string :=
  match values with
  | [] => ""
  | (n, v) :: rest => if String.eqb n name then v else PathValue rest name
  end.

(** ** The descent finds the most specific pattern *)
Section descent.
Context {R : Type}.

(** A segment of a pattern that stands for the one segment [seg]. *)
Definition isLiteral (x : segment) (seg : string) : Prop := x = Lit seg \/ x = End /\ seg = "/".

Lemma covers_literal x seg segs y path :
  isLiteral x seg -> covers (x :: segs) (y :: path) = true <-> y = seg /\ covers segs path = true.
Proof.
  intros [->|[-> ->]]; cbn; rewrite andb_true_iff, String.eqb_eq; [split; intros [-> ?]|]; done.
Qed.

Lemma covers_wild name segs y path :
  covers (Wild name :: segs) (y :: path) = true <-> y <> "/" /\ covers segs path = true.
Proof. cbn. by rewrite andb_true_iff, negb_true_iff, String.eqb_neq. Qed.

Lemma covers_nil segs : covers segs [] = true -> segs = [].
Proof. by destruct segs as [|[]]. Qed.

(** How a pattern that matches a path begins. *)
Lemma covers_cases segs seg path :
  covers segs (seg :: path) = true ->
  (exists x rest, segs = x :: rest /\ isLiteral x seg /\ covers rest path = true)
  \/ (exists name rest, segs = Wild name :: rest /\ seg <> "/" /\ covers rest path = true)
  \/ exists rest, segs = Multi :: rest.
Proof.
  destruct segs as [|[s|name| |] rest]; cbn; try done; rewrite ?andb_true_iff, ?negb_true_iff, ?String.eqb_eq, ?String.eqb_neq.
  - intros [-> ?]. left. exists (Lit seg), rest. split_and!; auto. by left.
  - intros [? ?]. right. left. by exists name, rest.
  - intros [-> ?]. left. exists End, rest. split_and!; auto. by right.
  - intros _. right. right. by exists rest.
Qed.

Lemma literalChild_spec seg (n : list (list segment * R)) segs r :
  (segs, r) ∈ literalChild seg n <-> exists x, isLiteral x seg /\ (x :: segs, r) ∈ n.
Proof.
  unfold literalChild. rewrite list_elem_of_omap. split.
  - intros ([segs' r'] & Hin & Hx). destruct segs' as [|[s|name| |] rest]; try done.
    + destruct (String.eqb_spec s seg) as [->|]; [|done]. injection Hx as <- <-. exists (Lit seg). split; [by left|done].
    + destruct (String.eqb_spec seg "/") as [->|]; [|done]. injection Hx as <- <-. exists End. split; [by right|done].
  - intros (x & Hl & Hin). exists (x :: segs, r). split; [done|]. destruct Hl as [->|[-> ->]]; [by rewrite String.eqb_refl|done].
Qed.

Lemma emptyChild_spec (n : list (list segment * R)) segs r :
  (segs, r) ∈ emptyChild n <-> exists name, (Wild name :: segs, r) ∈ n.
Proof.
  unfold emptyChild. rewrite list_elem_of_omap. split.
  - intros ([[|[s|name| |] rest] r'] & Hin & Hx); try done. injection Hx as <- <-. by exists name.
  - intros [name Hin]. by exists (Wild name :: segs, r).
Qed.

Lemma head_omap {A B} (f : A -> option B) l :
  match head (omap f l) with
  | Some b => exists a, a ∈ l /\ f a = Some b
  | None => forall a, a ∈ l -> f a = None
  end.
Proof.
  induction l as [|a l IH]; cbn; [by intros a ?%elem_of_nil|]. destruct (f a) as [b|] eqn:E; [by exists a; split; [left|]|].
  cbn in IH. destruct (head (omap f l)) as [b|]; [destruct IH as (a' & ? & ?); exists a'; by split; [right|]|].
  intros a' [->|?]%elem_of_cons; auto.
Qed.

Lemma multiChild_spec (n : list (list segment * R)) :
  match multiChild n with
  | Some r => exists rest, (Multi :: rest, r) ∈ n
  | None => forall rest r, (Multi :: rest, r) ∉ n
  end.
Proof.
  unfold multiChild. match goal with |- context [head (omap ?f n)] => pose proof (head_omap f n) as Hh end. destruct (head _) as [r|].
  - destruct Hh as ([[|[] rest] r'] & Hin & Hx); try done. injection Hx as <-. by exists rest.
  - intros rest r Hin. by specialize (Hh _ Hin).
Qed.

Lemma leaf_spec (n : list (list segment * R)) :
  match leaf n with Some r => ([], r) ∈ n | None => forall r, ([], r) ∉ n end.
Proof.
  unfold leaf. match goal with |- context [head (omap ?f n)] => pose proof (head_omap f n) as Hh end. destruct (head _) as [r|].
  - destruct Hh as ([[|] r'] & Hin & Hx); try done. by injection Hx as <-.
  - intros r Hin. by specialize (Hh _ Hin).
Qed.

(** A segment other than [seg] and not a trailing slash. *)
Definition other (seg : string) : string := if String.eqb seg "a" then "b" else "a".

Lemma other_spec seg : other seg <> seg /\ other seg <> "/".
Proof. unfold other. destruct (String.eqb_spec seg "a") as [->|]; split; done || congruence. Qed.

(** A pattern with a literal here is narrower than one with a wildcard. *)
Lemma literal_not_wider x seg segs segs' path :
  isLiteral x seg -> (exists name rest, segs' = Wild name :: rest /\ covers rest path = true) \/ (exists rest, segs' = Multi :: rest) ->
  wider (x :: segs) segs' -> False.
Proof.
  intros Hl Hs Hw. destruct (other_spec seg) as [H1 H2].
  assert (Hc : covers segs' (other seg :: path) = true) by (destruct Hs as [(name & rest & -> & Hr)|[rest ->]]; [by apply covers_wild|done]).
  apply Hw, (covers_literal _ seg) in Hc as [? _]; done.
Qed.

Definition tightest (n : list (list segment * R)) (path : list string) (segs : list segment) : Prop :=
  forall segs' r', (segs', r') ∈ n -> covers segs' path = true -> wider segs segs' -> wider segs' segs.

Lemma tightest_literal n seg path x segs :
  isLiteral x seg -> tightest (literalChild seg n) path segs -> tightest n (seg :: path) (x :: segs).
Proof.
  intros Hl Ht segs' r' Hin Hc Hw. destruct (covers_cases _ _ _ Hc) as [(y & rest & -> & Hy & Hr)|[(name & rest & -> & _ & Hr)|[rest ->]]].
  - assert (Hwide : wider rest segs).
    { apply (Ht rest r'); [apply literalChild_spec; eauto|done|]. intros p Hp.
      apply (covers_literal x seg segs seg p Hl), Hw, (covers_literal y seg); auto. }
    intros [|z p] Hp; [by destruct x|]. apply (covers_literal x seg) in Hp as [-> Hp]; [|done]. apply (covers_literal y seg); auto.
  - exfalso. apply (literal_not_wider x seg segs (Wild name :: rest) path); eauto.
  - exfalso. apply (literal_not_wider x seg segs (Multi :: rest) path); eauto.
Qed.

Lemma no_literal (n : list (list segment * R)) seg path :
  (forall segs r, (segs, r) ∈ literalChild seg n -> covers segs path = false) ->
  forall x rest r, (x :: rest, r) ∈ n -> isLiteral x seg -> covers rest path = true -> False.
Proof. intros Hno x rest r Hin Hl Hc. rewrite (Hno rest r) in Hc; [done|]. apply literalChild_spec. eauto. Qed.

Lemma tightest_wild (n : list (list segment * R)) seg path name segs :
  seg <> "/" -> (forall segs r, (segs, r) ∈ literalChild seg n -> covers segs path = false) ->
  tightest (emptyChild n) path segs -> tightest n (seg :: path) (Wild name :: segs).
Proof.
  intros Hs Hno Ht segs' r' Hin Hc Hw. destruct (covers_cases _ _ _ Hc) as [(y & rest & -> & Hy & Hr)|[(name' & rest & -> & _ & Hr)|[rest ->]]].
  - exfalso. eapply (no_literal n seg path Hno); eauto.
  - assert (Hwide : wider rest segs).
    { apply (Ht rest r'); [apply emptyChild_spec; eauto|done|]. intros p Hp.
      assert (Hx : covers (Wild name :: segs) (seg :: p) = true) by (apply Hw; by apply covers_wild). apply covers_wild in Hx. by destruct Hx. }
    intros [|z p] Hp; [done|]. apply covers_wild in Hp as [? ?]. apply covers_wild; auto.
  - exfalso. assert (Hx : covers (Wild name :: segs) ["/"] = true) by (by apply Hw). apply covers_wild in Hx. by destruct Hx.
Qed.

Lemma matchPath_spec (n : list (list segment * R)) path :
  match matchPath n path with
  | Some (r, _) => exists segs, (segs, r) ∈ n /\ covers segs path = true /\ tightest n path segs
  | None => forall segs r, (segs, r) ∈ n -> covers segs path = false
  end.
Proof.
  revert n. induction path as [|seg path IH]; intros n; cbn [matchPath].
  - pose proof (leaf_spec n) as Hl. destruct (leaf n) as [r|]; cbn.
    + exists []. split_and!; auto. intros segs' r' _ ->%covers_nil _. by intros ? ?.
    + intros segs r Hin. destruct (covers segs []) eqn:Hc; [|done]. apply covers_nil in Hc as ->. by destruct (Hl r).
  - pose proof (IH (literalChild seg n)) as Hlit. destruct (matchPath (literalChild seg n) path) as [[r vs]|].
    { destruct Hlit as (segs & Hin & Hc & Ht). apply literalChild_spec in Hin as (x & Hx & Hin). exists (x :: segs).
      split_and!; [done|by apply (covers_literal x seg)|by apply tightest_literal]. }
    pose proof (IH (emptyChild n)) as Hwild. destruct (String.eqb_spec seg "/") as [Hs|Hs].
    2: destruct (matchPath (emptyChild n) path) as [[r vs]|].
    2: { destruct Hwild as (segs & Hin & Hc & Ht). apply emptyChild_spec in Hin as (name & Hin). exists (Wild name :: segs).
         split_and!; [done|by apply covers_wild|by apply tightest_wild]. }
    all: assert (Honly : forall segs r, (segs, r) ∈ n -> covers segs (seg :: path) = true -> exists rest, segs = Multi :: rest)
      by (intros segs r Hin Hc; destruct (covers_cases _ _ _ Hc) as [(y & rest & -> & Hy & Hr)|[(name & rest & -> & Hn & Hr)|?]];
          [exfalso; eapply (no_literal n seg path Hlit); eauto| |done]; exfalso; first [done|rewrite (Hwild rest r) in Hr; [done|]; apply emptyChild_spec; eauto]).
    all: pose proof (multiChild_spec n) as Hm; destruct (multiChild n) as [r|]; cbn;
      [destruct Hm as [rest Hin]; exists (Multi :: rest); split_and!; try done; intros segs' r' Hin' Hc' Hw;
       destruct (Honly _ _ Hin' Hc') as [rest' ->]; intros [|z p]; done
      |intros segs r Hin; destruct (covers segs (seg :: path)) eqn:Hc; [|done]; destruct (Honly _ _ Hin Hc) as [rest ->]; by destruct (Hm rest r)].
Qed.

End descent.

(** ** The decision, soundly *)
Section decision.
Context {H : Type}.

(** Whether a route is for the method. *)
Definition serves (m : string) (r : route H) : Prop :=
  method (pat r) = m \/ m = "HEAD" /\ method (pat r) = "GET" \/ method (pat r) = "".

Lemma nodeFor_spec m (table : list (route H)) segs r :
  (segs, r) ∈ nodeFor m table <-> r ∈ table /\ method (pat r) = m /\ segs = segments (pat r).
Proof.
  unfold nodeFor. rewrite list_elem_of_omap. split.
  - intros (r' & Hin & Hx). destruct (String.eqb_spec (method (pat r')) m); [|done]. by injection Hx as <- <-.
  - intros (Hin & <- & ->). exists r. by rewrite String.eqb_refl.
Qed.

(** The route found, the tightest of its method; or none of any method that serves. *)
Definition best (table : list (route H)) (path : list string) (r : route H) : Prop :=
  r ∈ table /\ covers (segments (pat r)) path = true
  /\ forall r', r' ∈ table -> method (pat r') = method (pat r) -> covers (segments (pat r')) path = true ->
       wider (segments (pat r)) (segments (pat r')) -> wider (segments (pat r')) (segments (pat r)).

Lemma matchPath_best m (table : list (route H)) path :
  match matchPath (nodeFor m table) path with
  | Some (r, _) => best table path r /\ method (pat r) = m
  | None => forall r, r ∈ table -> method (pat r) = m -> covers (segments (pat r)) path = false
  end.
Proof.
  pose proof (matchPath_spec (nodeFor m table) path) as Hs. destruct (matchPath _ _) as [[r vs]|].
  - destruct Hs as (segs & (Hin & Hm & ->)%nodeFor_spec & Hc & Ht). split; [|done]. split_and!; [done|done|].
    intros r' Hin' Hm' Hc' Hw. apply (Ht _ r'); [|done|done]. apply nodeFor_spec. by rewrite Hm', Hm.
  - intros r Hin Hm. apply (Hs _ r). by apply nodeFor_spec.
Qed.

Lemma matchMethod_best m (table : list (route H)) path :
  match matchMethod table m path with
  | Some (r, _) => best table path r /\ serves m r
  | None => forall r, r ∈ table -> serves m r -> covers (segments (pat r)) path = false
  end.
Proof.
  unfold matchMethod. pose proof (matchPath_best m table path) as H1. destruct (matchPath (nodeFor m table) path) as [[r vs]|].
  { destruct H1 as [? ?]. split; [done|by left]. }
  pose proof (matchPath_best "GET" table path) as H2. pose proof (matchPath_best "" table path) as H3.
  destruct (String.eqb_spec m "HEAD") as [Hm|Hm]; [destruct (matchPath (nodeFor "GET" table) path) as [[r vs]|]|].
  { destruct H2 as [? ?]. split; [done|right; left; by split]. }
  all: destruct (matchPath (nodeFor "" table) path) as [[r vs]|]; [destruct H3 as [? ?]; split; [done|by right; right]|].
  all: intros r Hin [?|[[? ?]|?]]; auto; done.
Qed.

(** What a decision means: a handled request went to the most specific route of its
    path, which was clean; a refused one has no route for its method. *)
Lemma dispatch_sound (table : list (route H)) m escaped :
  match dispatch table m escaped with
  | Handle h values =>
      exists r, handler r = h /\ best table (pathSegments escaped) r /\ serves m r /\ (m <> "CONNECT" -> cleanPath escaped = escaped)
  | MethodNotAllowed _ | NotFound =>
      forall r, r ∈ table -> serves m r -> covers (segments (pat r)) (pathSegments escaped) = false
  | RedirectTo _ => True
  end.
Proof.
  unfold dispatch. set (path := if String.eqb m "CONNECT" then _ else _). destruct (_ && _); [done|].
  destruct (negb (String.eqb m "CONNECT") && negb (String.eqb path escaped)) eqn:Ec; [done|].
  assert (Hpath : path = escaped).
  { subst path. destruct (String.eqb m "CONNECT"); [done|]. cbn in Ec. by apply negb_false_iff, String.eqb_eq in Ec. }
  pose proof (matchMethod_best m table (pathSegments path)) as Hm. rewrite Hpath in *.
  destruct (matchMethod table m (pathSegments escaped)) as [[r vs]|]; [|by destruct (allowed _ _)].
  destruct Hm as [Hb Hs]. exists r. split_and!; auto. intros Hn%String.eqb_neq. subst path. by rewrite Hn in Hpath.
Qed.

End decision.

(** ** Plain segments *)

(** A segment that means itself: no slash, no escape, not a relative element. *)
Fixpoint plainChars (s : string) : bool :=
  match s with
  | EmptyString => true
  | String c r => negb (Ascii.eqb c "/") && negb (Ascii.eqb c "%") && plainChars r
  end.

Definition plain (s : string) : bool :=
  plainChars s && negb (String.eqb s "") && negb (String.eqb s ".") && negb (String.eqb s "..").

Lemma plainChars_app a b : plainChars (a +:+ b) = plainChars a && plainChars b.
Proof. induction a as [|c a IH]; [done|]. rewrite string_app_cons. cbn [plainChars]. by rewrite IH, andb_assoc. Qed.

Lemma plain_Split s : plainChars s = true -> Text.Split s "/"%char = [s].
Proof.
  induction s as [|c s IH]; [done|]. cbn. rewrite !andb_true_iff, !negb_true_iff. intros [[-> _] Hs]. by rewrite IH.
Qed.

Lemma plain_unescape s : plainChars s = true -> pathUnescape s = s.
Proof.
  intros Hs. unfold pathUnescape. assert (E : unescape s = Some s); [|by rewrite E].
  induction s as [|c s IH]; [done|]. cbn in Hs |- *. rewrite !andb_true_iff, !negb_true_iff in Hs. destruct Hs as [[_ ->] Hs]. by rewrite IH.
Qed.

(** The path with the given segments. *)
Fixpoint joined (segs : list string) : string :=
  match segs with [] => "" | s :: rest => "/" +:+ s +:+ joined rest end.

Lemma Split_joined s segs :
  plainChars s = true -> forallb plainChars segs = true -> Text.Split (s +:+ joined segs) "/"%char = s :: segs.
Proof.
  revert s. induction segs as [|x segs IH]; intros s Hs Hall; [by rewrite Text.string_app_nil_r, plain_Split|].
  cbn in Hall. apply andb_true_iff in Hall as [Hx Hall]. specialize (IH x Hx Hall).
  induction s as [|c s IHs]; [change (Text.Split ("" +:+ joined (x :: segs)) "/"%char) with ("" :: Text.Split (x +:+ joined segs) "/"%char); by rewrite IH|].
  cbn in Hs. rewrite !andb_true_iff, !negb_true_iff in Hs. destruct Hs as [[Hc _] Hs].
  rewrite string_app_cons. cbn [Text.Split]. by rewrite Hc, IHs.
Qed.

Lemma plain_chars s : plain s = true -> plainChars s = true.
Proof. unfold plain. by rewrite !andb_true_iff; intros [[[? _] _] _]. Qed.

Lemma plain_all_chars segs : forallb plain segs = true -> forallb plainChars segs = true.
Proof.
  induction segs as [|s segs IH]; [done|]. cbn. rewrite !andb_true_iff. intros [Hs Hall]. split; [by apply plain_chars|auto].
Qed.

Lemma trailing_plain segs : forallb plain segs = true -> trailing segs = segs.
Proof.
  induction segs as [|s segs IH]; [done|]. cbn [forallb]. rewrite andb_true_iff. intros [Hs Hall].
  pose proof (plain_unescape s (plain_chars s Hs)) as Hu. destruct segs as [|x segs].
  - cbn. unfold plain in Hs. rewrite !andb_true_iff, !negb_true_iff in Hs. destruct Hs as [[[_ ->] _] _]. by rewrite Hu.
  - change (pathUnescape s :: trailing (x :: segs) = s :: x :: segs). by rewrite Hu, IH.
Qed.

Lemma pathSegments_joined segs : segs <> [] -> forallb plain segs = true -> pathSegments (joined segs) = segs.
Proof.
  intros Hne Hall. destruct segs as [|s segs]; [done|]. unfold pathSegments.
  assert (E : CutPrefix (joined (s :: segs)) "/" = Some (s +:+ joined segs)) by (by apply CutPrefix_app). rewrite E.
  pose proof (plain_all_chars _ Hall) as Hc. cbn in Hc. apply andb_true_iff in Hc as [Hs Hc]. rewrite Split_joined by done.
  by apply trailing_plain.
Qed.

Lemma cleanSegments_plain segs acc :
  forallb plain segs = true -> fold_left (Text.cleanStep true) segs acc = rev segs ++ acc.
Proof.
  revert acc. induction segs as [|s segs IH]; intros acc; [done|]. cbn [forallb fold_left]. rewrite andb_true_iff. intros [Hs Hall].
  assert (E : Text.cleanStep true acc s = s :: acc).
  { unfold plain in Hs. rewrite !andb_true_iff, !negb_true_iff in Hs. destruct Hs as [[[_ H1] H2] H3]. unfold Text.cleanStep. by rewrite H1, H2, H3. }
  rewrite E, IH by done. cbn. by rewrite <-app_assoc.
Qed.

Lemma concat_joined s segs : "/" +:+ String.concat "/" (s :: segs) = joined (s :: segs).
Proof.
  revert s. induction segs as [|x segs IH]; intros s; [cbn [joined String.concat]; by rewrite Text.string_app_nil_r|].
  change (String.concat "/" (s :: x :: segs)) with (s +:+ "/" +:+ String.concat "/" (x :: segs)).
  by rewrite IH.
Qed.

Lemma suffix_slash_app s t : t <> "" -> Text.HasSuffix (s +:+ t) "/" = Text.HasSuffix t "/".
Proof.
  intros Ht. induction s as [|c s IH]; [done|]. rewrite string_app_cons. cbn [Text.HasSuffix].
  destruct (String.eqb_spec (String c (s +:+ t)) "/") as [E|_]; [|done].
  injection E as -> E. apply Text.string_app_eq_nil in E as [_ ->]. done.
Qed.

Lemma plain_no_slash s : plain s = true -> Text.HasSuffix s "/" = false.
Proof.
  intros Hs%plain_chars. induction s as [|c s IH]; [done|]. cbn in Hs. rewrite !andb_true_iff, !negb_true_iff in Hs. destruct Hs as [[Hc _] Hs].
  cbn [Text.HasSuffix]. rewrite IH by done. rewrite orb_false_r. cbn. by rewrite Hc.
Qed.

Lemma joined_no_slash segs : segs <> [] -> forallb plain segs = true -> Text.HasSuffix (joined segs) "/" = false.
Proof.
  intros Hne Hall. induction segs as [|s segs IH]; [done|]. cbn [forallb] in Hall. apply andb_true_iff in Hall as [Hs Hall].
  assert (Hn : s <> "") by (intros ->; done). cbn [joined]. destruct segs as [|x segs].
  - cbn [joined]. rewrite Text.string_app_nil_r. change ("/" +:+ s) with (String "/" "" +:+ s). rewrite suffix_slash_app by done. by apply plain_no_slash.
  - assert (Hj : joined (x :: segs) <> "") by done. rewrite <-Text.string_app_assoc, suffix_slash_app by done. by apply IH.
Qed.

Lemma cleanPath_joined segs : segs <> [] -> forallb plain segs = true -> cleanPath (joined segs) = joined segs.
Proof.
  intros Hne Hall. pose proof (joined_no_slash segs Hne Hall) as Hs. destruct segs as [|s segs]; [done|]. unfold cleanPath.
  assert (E1 : String.eqb (joined (s :: segs)) "" = false) by done. assert (E2 : HasPrefix (joined (s :: segs)) "/" = true) by (by cbn; destruct (s +:+ joined segs)).
  rewrite E1, E2, Hs. cbn [andb]. unfold Text.Clean. rewrite E2.
  assert (E3 : Text.Split (joined (s :: segs)) "/"%char = "" :: s :: segs) by (apply (Split_joined "" (s :: segs)); [done|by apply plain_all_chars]).
  rewrite E3. unfold Text.cleanSegments. change (fold_left (Text.cleanStep true) ("" :: s :: segs) []) with (fold_left (Text.cleanStep true) (s :: segs) []).
  rewrite (cleanSegments_plain (s :: segs)) by done. rewrite app_nil_r, rev_involutive. apply concat_joined.
Qed.

(** A clean path of plain segments goes where the tree says. *)
Lemma dispatch_plain {H} (table : list (route H)) m segs r values :
  m <> "CONNECT" -> segs <> [] -> forallb plain segs = true -> matchMethod table m segs = Some (r, values) -> endsMulti (pat r) = false ->
  dispatch table m (joined segs) = Handle (handler r) (zip (wildcards (pat r)) values).
Proof.
  intros Hm Hne Hall Hf He. unfold dispatch. apply String.eqb_neq in Hm. rewrite Hm, cleanPath_joined, pathSegments_joined, Hf by done.
  unfold exactMatch. rewrite He. cbn [negb andb]. by rewrite String.eqb_refl.
Qed.

End Mux.
