(* ===== verification/Keyframe.v ===== *)
(** * Keyframe detection ([src/internal/relay/keyframe.go])

    The only place of the relay that looks inside a payload.  A payload is a
    list of bytes; reading past its end is a Go run-time panic, the [None] of
    the [option] every function here returns.  The two aggregation walks are
    loops over a byte offset: their fuel is the length of the payload plus one,
    and running out of it is also [None], so that the theorem that the result
    is never [None] states both that no index is out of range and that the
    loops end. *)

From S2P Require Import Prelude.

Module Keyframe.

Definition h264TypeMask : Z := 0x1F.
Definition h264IDR : Z := 5.
Definition h264SPS : Z := 7.
Definition h264STAPA : Z := 24.
Definition h264FUA : Z := 28.
Definition h264FUStartBit : Z := 0x80.

Definition h265TypeShift : Z := 1.
Definition h265TypeMask : Z := 0x3F.
Definition h265IRAPFirst : Z := 16.
Definition h265IRAPLast : Z := 23.
Definition h265VPS : Z := 32.
Definition h265PPS : Z := 34.
Definition h265AP : Z := 48.
Definition h265FU : Z := 49.
Definition h265FUStart : Z := 0x80.
Definition h265FUType : Z := 0x3F.

Definition av1NMask : Z := 8.

Definition h264_key_type (nalType : Z) : bool :=
  (nalType =? h264IDR) || (nalType =? h264SPS).

Definition h265_irap (nalType : Z) : bool :=
  (h265IRAPFirst <=? nalType) && (nalType <=? h265IRAPLast).

Definition h265_params (nalType : Z) : bool :=
  (h265VPS <=? nalType) && (nalType <=? h265PPS).

(** [int(payload[offset])<<8 | int(payload[offset+1])] *)
Definition unit_size (hi lo : Z) : nat := Z.to_nat (Z.lor (Z.shiftl hi 8) lo).

(** The loop of [stapaHasKeyframe], entered at [offset]. *)
Fixpoint stapa_walk (fuel : nat) (payload : list Z) (offset : nat) : option bool :=
  match fuel with
  | O => None
  | S fuel =>
      if (offset + 2 <=? length payload)%nat then
        hi ← payload !! offset;
        lo ← payload !! (offset + 1)%nat;
        let size := unit_size hi lo in
        let offset := (offset + 2)%nat in
        if (size =? 0)%nat || (length payload <? offset + size)%nat then Some false
        else
          b ← payload !! offset;
          if h264_key_type (Z.land b h264TypeMask) then Some true
          else stapa_walk fuel payload (offset + size)%nat
      else Some false
  end.

Definition stapaHasKeyframe (payload : list Z) : option bool :=
  stapa_walk (S (length payload)) payload 1.

Definition fuaStartsKeyframe (payload : list Z) : option bool :=
  if (length payload <? 2)%nat then Some false
  else
    b ← payload !! 1%nat;
    if Z.land b h264FUStartBit =? 0 then Some false
    else Some (Z.land b h264TypeMask =? h264IDR).

Definition h264Keyframe (payload : list Z) : option bool :=
  b ← payload !! 0%nat;
  let nalType := Z.land b h264TypeMask in
  if h264_key_type nalType then Some true
  else if nalType =? h264STAPA then stapaHasKeyframe payload
  else if nalType =? h264FUA then fuaStartsKeyframe payload
  else Some false.

(** The loop of [h265AggregationHasKeyframe], entered at [offset]. *)
Fixpoint h265_walk (fuel : nat) (payload : list Z) (offset : nat) : option bool :=
  match fuel with
  | O => None
  | S fuel =>
      if (offset + 2 <=? length payload)%nat then
        hi ← payload !! offset;
        lo ← payload !! (offset + 1)%nat;
        let size := unit_size hi lo in
        let offset := (offset + 2)%nat in
        if (size <? 2)%nat || (length payload <? offset + size)%nat then Some false
        else
          b ← payload !! offset;
          let nalType := Z.land (Z.shiftr b h265TypeShift) h265TypeMask in
          if h265_irap nalType || h265_params nalType then Some true
          else h265_walk fuel payload (offset + size)%nat
      else Some false
  end.

Definition h265AggregationHasKeyframe (payload : list Z) : option bool :=
  h265_walk (S (length payload)) payload 2.

Definition h265FragmentStartsKeyframe (payload : list Z) : option bool :=
  if (length payload <? 3)%nat then Some false
  else
    b ← payload !! 2%nat;
    if Z.land b h265FUStart =? 0 then Some false
    else Some (h265_irap (Z.land b h265FUType)).

Definition h265Keyframe (payload : list Z) : option bool :=
  b ← payload !! 0%nat;
  let nalType := Z.land (Z.shiftr b h265TypeShift) h265TypeMask in
  if h265_irap nalType then Some true
  else if h265_params nalType then Some true
  else if nalType =? h265AP then h265AggregationHasKeyframe payload
  else if nalType =? h265FU then h265FragmentStartsKeyframe payload
  else Some false.

Definition isKeyframe (mime : string) (payload : list Z) : option bool :=
  if (length payload =? 0)%nat then Some false
  else if EqualFold mime "video/H264" then h264Keyframe payload
  else if EqualFold mime "video/H265" then h265Keyframe payload
  else if EqualFold mime "video/AV1" then
    b ← payload !! 0%nat; Some (negb (Z.land b av1NMask =? 0))
  else Some true.

(** ** Reference: the packetisations of RFC 6184 and RFC 7798

    An aggregation packet is a header followed by the units, each prefixed with
    its 16-bit length; a fragmentation unit carries the start bit and the type
    of the fragmented unit in its fragmentation header. *)
Definition aggregate (units : list (list Z)) : list Z :=
  mjoin ((λ u, put16 (Z.of_nat (length u)) ++ u) <$> units).

Definition h264_unit_key (u : list Z) : bool :=
  match u with [] => false | b :: _ => h264_key_type (Z.land b h264TypeMask) end.

Definition h265_unit_key (u : list Z) : bool :=
  match u with
  | [] => false
  | b :: _ =>
      let t := Z.land (Z.shiftr b h265TypeShift) h265TypeMask in
      h265_irap t || h265_params t
  end.

Definition fu_header (first last : bool) (type : Z) : Z :=
  (if first then 128 else 0) + (if last then 64 else 0) + type.

Definition well_sized (lo : nat) (u : list Z) : Prop :=
  (lo <= length u)%nat /\ Z.of_nat (length u) < 65536.

(** ** Lemmas *)
Lemma lookup_get (l : list Z) (i : nat) : (i < length l)%nat -> exists b, l !! i = Some b.
Proof. intros H. apply lookup_lt_is_Some_2 in H as [b Hb]. eauto. Qed.

Ltac get l i :=
  let b := fresh "b" in let Hb := fresh "Hb" in
  destruct (lookup_get l i) as [b Hb]; [lia|rewrite Hb; simpl].

Lemma stapa_walk_total fuel payload offset :
  (length payload - offset < fuel)%nat ->
  is_Some (stapa_walk fuel payload offset).
Proof.
  revert offset. induction fuel as [|fuel IH]; intros offset Hf; simpl; [lia|].
  destruct (offset + 2 <=? length payload)%nat eqn:Hle; [|eauto].
  apply Nat.leb_le in Hle. get payload offset. get payload (offset + 1)%nat.
  destruct ((_ =? 0)%nat || _) eqn:Hs; [eauto|]. bool_hyps.
  apply Nat.eqb_neq in H. apply Nat.ltb_ge in H0.
  get payload (offset + 2)%nat. destruct (h264_key_type _); [eauto|]. apply IH. lia.
Qed.

Lemma h265_walk_total fuel payload offset :
  (length payload - offset < fuel)%nat ->
  is_Some (h265_walk fuel payload offset).
Proof.
  revert offset. induction fuel as [|fuel IH]; intros offset Hf; simpl; [lia|].
  destruct (offset + 2 <=? length payload)%nat eqn:Hle; [|eauto].
  apply Nat.leb_le in Hle. get payload offset. get payload (offset + 1)%nat.
  destruct ((_ <? 2)%nat || _) eqn:Hs; [eauto|]. bool_hyps.
  apply Nat.ltb_ge in H, H0.
  get payload (offset + 2)%nat. destruct (h265_irap _ || _); [eauto|]. apply IH. lia.
Qed.

Lemma unit_size_put16 n :
  (Z.of_nat n < 65536) ->
  unit_size (u8 (Z.shiftr (Z.of_nat n) 8)) (u8 (Z.of_nat n)) = n.
Proof.
  intros Hn. unfold unit_size. rewrite lor_be16 by apply is_byte_u8.
  rewrite be16_put16 by (unfold is_u16; lia). lia.
Qed.

Lemma aggregate_cons u us :
  aggregate (u :: us) = put16 (Z.of_nat (length u)) ++ u ++ aggregate us.
Proof. unfold aggregate. simpl. by rewrite <-?app_assoc. Qed.

Lemma lookup_unit pre u us :
  let payload := pre ++ aggregate (u :: us) in
  payload !! length pre = Some (u8 (Z.shiftr (Z.of_nat (length u)) 8))
  /\ payload !! (length pre + 1)%nat = Some (u8 (Z.of_nat (length u)))
  /\ (forall b v, u = b :: v -> payload !! (length pre + 2)%nat = Some b)
  /\ (length pre + 2 + length u <= length payload)%nat.
Proof.
  simpl. rewrite aggregate_cons. unfold put16. repeat split.
  - rewrite lookup_app_r, Nat.sub_diag by lia. done.
  - rewrite lookup_app_r by lia. replace (length pre + 1 - length pre)%nat with 1%nat by lia. done.
  - intros b v ->. rewrite lookup_app_r by lia.
    replace (length pre + 2 - length pre)%nat with 2%nat by lia. done.
  - rewrite !length_app. simpl. lia.
Qed.

Lemma app_aggregate_cons pre u us :
  pre ++ aggregate (u :: us)
  = (pre ++ put16 (Z.of_nat (length u)) ++ u) ++ aggregate us.
Proof. by rewrite aggregate_cons, <-!app_assoc. Qed.

Lemma stapa_walk_aggregate fuel pre us :
  (length us < fuel)%nat -> Forall (well_sized 1) us ->
  stapa_walk fuel (pre ++ aggregate us) (length pre) = Some (existsb h264_unit_key us).
Proof.
  revert fuel pre. induction us as [|u us IH]; intros [|fuel] pre Hf Hws; simpl in Hf; try lia.
  - simpl. rewrite app_nil_r. by rewrite (proj2 (Nat.leb_gt _ _)) by lia.
  - apply Forall_cons in Hws as [[Hlen Hmax] Hws].
    destruct u as [|b v]; [simpl in Hlen; lia|].
    destruct (lookup_unit pre (b :: v) us) as (Hhi & Hlo & Hb & Hend).
    cbn [stapa_walk]. rewrite (proj2 (Nat.leb_le _ _)) by lia.
    rewrite Hhi, Hlo. cbn [mbind option_bind]. rewrite unit_size_put16 by done.
    rewrite (proj2 (Nat.eqb_neq _ _)) by lia.
    rewrite (proj2 (Nat.ltb_ge _ _)) by lia.
    cbn [orb]. rewrite (Hb b v eq_refl). cbn [mbind option_bind existsb h264_unit_key].
    destruct (h264_key_type _); [done|]. cbn [orb].
    rewrite app_aggregate_cons. rewrite <-(IH fuel (pre ++ put16 (Z.of_nat (length (b :: v))) ++ b :: v)) by (done || lia).
    f_equal. rewrite !length_app. simpl. lia.
Qed.

Lemma h265_walk_aggregate fuel pre us :
  (length us < fuel)%nat -> Forall (well_sized 2) us ->
  h265_walk fuel (pre ++ aggregate us) (length pre) = Some (existsb h265_unit_key us).
Proof.
  revert fuel pre. induction us as [|u us IH]; intros [|fuel] pre Hf Hws; simpl in Hf; try lia.
  - simpl. rewrite app_nil_r. by rewrite (proj2 (Nat.leb_gt _ _)) by lia.
  - apply Forall_cons in Hws as [[Hlen Hmax] Hws].
    destruct u as [|b v]; [simpl in Hlen; lia|].
    destruct (lookup_unit pre (b :: v) us) as (Hhi & Hlo & Hb & Hend).
    cbn [h265_walk]. rewrite (proj2 (Nat.leb_le _ _)) by lia.
    rewrite Hhi, Hlo. cbn [mbind option_bind]. rewrite unit_size_put16 by done.
    rewrite (proj2 (Nat.ltb_ge _ 2)) by lia.
    rewrite (proj2 (Nat.ltb_ge _ _)) by lia.
    cbn [orb]. rewrite (Hb b v eq_refl). cbn [mbind option_bind existsb h265_unit_key].
    destruct (h265_irap _ || _); [done|]. cbn [orb].
    rewrite app_aggregate_cons. rewrite <-(IH fuel (pre ++ put16 (Z.of_nat (length (b :: v))) ++ b :: v)) by (done || lia).
    f_equal. rewrite !length_app. simpl. lia.
Qed.

Lemma aggregate_length us : (length us <= length (aggregate us))%nat.
Proof.
  induction us as [|u us IH]; [simpl; lia|]. rewrite aggregate_cons, !length_app. simpl. lia.
Qed.

(** A fragmentation header, decided over the 64 types it can carry. *)
Lemma header_check (P : Z -> bool) t :
  forallb P (seqZ 0 64) = true -> 0 <= t < 64 -> P t = true.
Proof. rewrite forallb_forall. intros H Ht. apply H, list_elem_of_In, elem_of_seqZ. lia. Qed.

Lemma fua_fragment ind first last t rest :
  0 <= t < 32 ->
  fuaStartsKeyframe (ind :: fu_header first last t :: rest) = Some (first && (t =? h264IDR)).
Proof.
  intros Ht. unfold fuaStartsKeyframe. simpl.
  pose proof (header_check (λ t, implb (t <? 32) (Bool.eqb
    (if Z.land (fu_header first last t) h264FUStartBit =? 0 then false
     else Z.land (fu_header first last t) h264TypeMask =? h264IDR)
    (first && (t =? h264IDR)))) t) as H.
  cbv beta in H. destruct first, last; specialize (H eq_refl ltac:(lia));
    rewrite (proj2 (Z.ltb_lt _ _)) in H by lia; apply Bool.eqb_prop in H;
    destruct (_ =? 0); congruence.
Qed.

Lemma h265_fragment b0 b1 first last t rest :
  0 <= t < 64 ->
  h265FragmentStartsKeyframe (b0 :: b1 :: fu_header first last t :: rest)
  = Some (first && h265_irap t).
Proof.
  intros Ht. unfold h265FragmentStartsKeyframe. simpl.
  pose proof (header_check (λ t, Bool.eqb
    (if Z.land (fu_header first last t) h265FUStart =? 0 then false
     else h265_irap (Z.land (fu_header first last t) h265FUType))
    (first && h265_irap t)) t) as H.
  cbv beta in H. destruct first, last; specialize (H eq_refl ltac:(lia));
    apply Bool.eqb_prop in H; destruct (_ =? 0); congruence.
Qed.

Lemma stapaHasKeyframe_total payload : is_Some (stapaHasKeyframe payload).
Proof. apply stapa_walk_total. lia. Qed.

Lemma h265AggregationHasKeyframe_total payload : is_Some (h265AggregationHasKeyframe payload).
Proof. apply h265_walk_total. lia. Qed.

Lemma fuaStartsKeyframe_total payload : is_Some (fuaStartsKeyframe payload).
Proof.
  unfold fuaStartsKeyframe. destruct (_ <? 2)%nat eqn:H; [eauto|]. apply Nat.ltb_ge in H.
  get payload 1%nat. cases_if; eauto.
Qed.

Lemma h265FragmentStartsKeyframe_total payload : is_Some (h265FragmentStartsKeyframe payload).
Proof.
  unfold h265FragmentStartsKeyframe. destruct (_ <? 3)%nat eqn:H; [eauto|]. apply Nat.ltb_ge in H.
  get payload 2%nat. cases_if; eauto.
Qed.

#[export] Hint Resolve stapaHasKeyframe_total h265AggregationHasKeyframe_total
  fuaStartsKeyframe_total h265FragmentStartsKeyframe_total : go.

Lemma isKeyframe_h264 mime p q :
  EqualFold mime "video/H264" = true -> isKeyframe mime (p :: q) = h264Keyframe (p :: q).
Proof. intros E. unfold isKeyframe. simpl. by rewrite E. Qed.

Lemma isKeyframe_h265 mime p q :
  EqualFold mime "video/H265" = true -> isKeyframe mime (p :: q) = h265Keyframe (p :: q).
Proof.
  intros E. unfold isKeyframe, EqualFold in *. apply String.eqb_eq in E. simpl. by rewrite E.
Qed.

Lemma h264Keyframe_type b p :
  h264Keyframe (b :: p) =
  let t := Z.land b h264TypeMask in
  if h264_key_type t then Some true
  else if t =? h264STAPA then stapaHasKeyframe (b :: p)
  else if t =? h264FUA then fuaStartsKeyframe (b :: p)
  else Some false.
Proof. done. Qed.

Lemma h265Keyframe_type b p :
  h265Keyframe (b :: p) =
  let t := Z.land (Z.shiftr b h265TypeShift) h265TypeMask in
  if h265_irap t then Some true
  else if h265_params t then Some true
  else if t =? h265AP then h265AggregationHasKeyframe (b :: p)
  else if t =? h265FU then h265FragmentStartsKeyframe (b :: p)
  else Some false.
Proof. done. Qed.

(** ** Properties *)

Lemma isKeyframe_total mime payload : is_Some (isKeyframe mime payload).
Proof.
  unfold isKeyframe. destruct (length payload =? 0)%nat eqn:H; [eauto|].
  apply Nat.eqb_neq in H. unfold h264Keyframe, h265Keyframe.
  get payload 0%nat. cases_if; eauto with go.
Qed.

(** Whatever the bytes of the payload and the codec name, [isKeyframe]
    returns: no index is out of range and neither aggregation walk runs
    forever. *)
Theorem isKeyframe_returns (mime : string) (payload : list Z) :
  is_Some (isKeyframe mime payload).
Proof. apply isKeyframe_total. Qed.

(** C38: an H.264 aggregation packet (STAP-A) is a keyframe exactly when one of
    the units it carries is an IDR picture or a sequence parameter set (a picture
    parameter set alone does not count), and an H.265 one (AP) exactly when one is
    an IRAP picture or a parameter set (VPS, SPS or PPS), for every list of units
    the format can carry; and of a fragmented unit only the fragment with the
    start bit is a keyframe, when the unit is an IDR (H.264) or an IRAP picture
    (H.265). *)
Theorem isKeyframe_packetised :
  (forall mime h us, EqualFold mime "video/H264" = true ->
     Z.land h h264TypeMask = h264STAPA -> Forall (well_sized 1) us ->
     isKeyframe mime (h :: aggregate us) = Some (existsb h264_unit_key us))
  /\ (forall mime h0 h1 us, EqualFold mime "video/H265" = true ->
     Z.land (Z.shiftr h0 h265TypeShift) h265TypeMask = h265AP -> Forall (well_sized 2) us ->
     isKeyframe mime (h0 :: h1 :: aggregate us) = Some (existsb h265_unit_key us))
  /\ (forall mime ind first last t rest, EqualFold mime "video/H264" = true ->
     Z.land ind h264TypeMask = h264FUA -> 0 <= t < 32 ->
     isKeyframe mime (ind :: fu_header first last t :: rest) = Some (first && (t =? h264IDR)))
  /\ (forall mime b0 b1 first last t rest, EqualFold mime "video/H265" = true ->
     Z.land (Z.shiftr b0 h265TypeShift) h265TypeMask = h265FU -> 0 <= t < 64 ->
     isKeyframe mime (b0 :: b1 :: fu_header first last t :: rest)
     = Some (first && h265_irap t)).
Proof.
  split_and!.
  - intros mime h us E Ht Hws. rewrite isKeyframe_h264, h264Keyframe_type, Ht by done.
    apply (stapa_walk_aggregate _ [h] us); [|done].
    pose proof (aggregate_length us). simpl. lia.
  - intros mime h0 h1 us E Ht Hws. rewrite isKeyframe_h265, h265Keyframe_type, Ht by done.
    apply (h265_walk_aggregate _ [h0; h1] us); [|done].
    pose proof (aggregate_length us). simpl. lia.
  - intros mime ind first last t rest E Ht Hr.
    rewrite isKeyframe_h264, h264Keyframe_type, Ht by done. by apply fua_fragment.
  - intros mime b0 b1 first last t rest E Ht Hr.
    rewrite isKeyframe_h265, h265Keyframe_type, Ht by done. by apply h265_fragment.
Qed.

(** A STAP-A packet with an access unit delimiter and an IDR slice, the second
    fragment of an IDR picture, and their H.265 counterparts. *)
Lemma isKeyframe_packetised_witness :
  isKeyframe "Video/h264" (24 :: aggregate [[9; 240]; [101; 136]]) = Some true
  /\ isKeyframe "video/H265" (96 :: 1 :: aggregate [[2; 1; 7]]) = Some false
  /\ isKeyframe "video/H264" [124; fu_header false true 5; 1] = Some false
  /\ isKeyframe "video/H265" [98; 1; fu_header true false 19; 1] = Some true.
Proof.
  destruct isKeyframe_packetised as (A & B & C & D). split_and!.
  - rewrite A; [reflexivity|reflexivity|reflexivity|repeat constructor; simpl; lia].
  - rewrite B; [reflexivity|reflexivity|reflexivity|repeat constructor; simpl; lia].
  - rewrite C; [reflexivity|reflexivity|reflexivity|lia].
  - rewrite D; [reflexivity|reflexivity|reflexivity|lia].
Defined.

End Keyframe.
