(* ===== verification/Heap.v ===== *)
(** * The playout queue ([packetHeap] of [src/internal/relay/delay.go])

    A binary heap in a slice, ordered by playout time and, among packets due
    together, by arrival.  The slice is a list; an index out of range is a Go
    panic, the [None] of [option].  [sift_up] and [sink] are loops: their fuel
    is the number of slots, and running out of it is also [None], so the
    theorems that give a result show that the loops end. *)

From S2P Require Import Prelude.

(** What the relay reads of an [rtp.Packet]; the packet is forwarded as it
    came. *)
Record Packet := mkPacket {
  SequenceNumber : Z;
  Timestamp : Z;
  Payload : list Z
}.

Module Heap.

Record buffered := Buffered { pkt : Packet; playAt : time; order : Z }.

Definition before (b other : buffered) : bool :=
  if playAt b =? playAt other then order b <? order other
  else Before (playAt b) (playAt other).

Definition parentOf (child : nat) : nat := ((child - 1) / 2)%nat.

(** The loop of [push]: [child] moves up while it is due before its parent. *)
Fixpoint sift_up (fuel : nat) (h : list buffered) (child : nat)
  : option (list buffered * nat) :=
  match fuel with
  | O => None
  | S fuel =>
      if (0 <? child)%nat then
        let parent := parentOf child in
        c ← h !! child;
        p ← h !! parent;
        if before c p then sift_up fuel (<[parent:=c]> (<[child:=p]> h)) parent
        else Some (h, child)
      else Some (h, child)
  end.

Definition push (h : list buffered) (item : buffered) : option (list buffered * bool) :=
  let h := h ++ [item] in
  '(h, child) ← sift_up (length h) h (length h - 1);
  Some (h, (child =? 0)%nat).

(** One comparison of [sink]: the smaller of [smallest] and the slot [idx]. *)
Definition smaller (h : list buffered) (idx smallest : nat) : option nat :=
  if (idx <? length h)%nat then
    a ← h !! idx;
    b ← h !! smallest;
    Some (if before a b then idx else smallest)
  else Some smallest.

Fixpoint sink (fuel : nat) (h : list buffered) (parent : nat) : option (list buffered) :=
  match fuel with
  | O => None
  | S fuel =>
      let left := (2 * parent + 1)%nat in
      smallest ← smaller h left parent;
      smallest ← smaller h (left + 1)%nat smallest;
      if (smallest =? parent)%nat then Some h
      else
        p ← h !! parent;
        s ← h !! smallest;
        sink fuel (<[smallest:=p]> (<[parent:=s]> h)) smallest
  end.

Definition pop (h : list buffered) : option (buffered * list buffered) :=
  top ← h !! 0%nat;
  let last := (length h - 1)%nat in
  l ← h !! last;
  let h := take last (<[0%nat:=l]> h) in
  h ← sink (S (length h)) h 0;
  Some (top, h).

(** ** Specification *)

(** [le a b]: [a] may leave the queue before [b]. *)
Definition le (a b : buffered) : Prop := before b a = false.

Definition heap_ok (h : list buffered) : Prop :=
  forall i c p, (0 < i)%nat -> h !! i = Some c -> h !! parentOf i = Some p -> le p c.

(** The heap property everywhere but between [k] and its parent. *)
Definition ok_but_up (h : list buffered) (k : nat) : Prop :=
  (forall i c p, (0 < i)%nat -> i <> k -> h !! i = Some c -> h !! parentOf i = Some p -> le p c)
  /\ (forall i c p, (0 < i)%nat -> (0 < k)%nat -> parentOf i = k ->
        h !! i = Some c -> h !! parentOf k = Some p -> le p c).

(** The heap property everywhere but between [k] and its children. *)
Definition ok_but_down (h : list buffered) (k : nat) : Prop :=
  (forall i c p, (0 < i)%nat -> parentOf i <> k -> h !! i = Some c -> h !! parentOf i = Some p -> le p c)
  /\ (forall i c p, (0 < i)%nat -> (0 < k)%nat -> parentOf i = k ->
        h !! i = Some c -> h !! parentOf k = Some p -> le p c).

Definition is_min (m : buffered) (h : list buffered) : Prop := Forall (le m) h.

(** The abstract queue: a list sorted by [le].  A push says whether the new
    item is now first, a pop returns the first item, if any. *)
Fixpoint insert_sorted (x : buffered) (q : list buffered) : list buffered :=
  match q with
  | [] => [x]
  | y :: q' => if before x y then x :: q else y :: insert_sorted x q'
  end.

Inductive op := Push (item : buffered) | Pop.
Inductive answer := Pushed (first : bool) | Popped (item : option buffered).

Definition spec_op (q : list buffered) (o : op) : list buffered * answer :=
  match o with
  | Push x =>
      (insert_sorted x q, Pushed (match q with [] => true | y :: _ => before x y end))
  | Pop => match q with [] => ([], Popped None) | y :: q' => (q', Popped (Some y)) end
  end.

Definition heap_op (h : list buffered) (o : op) : option (list buffered * answer) :=
  match o with
  | Push x => '(h, first) ← push h x; Some (h, Pushed first)
  | Pop =>
      if (length h =? 0)%nat then Some (h, Popped None)
      else '(top, h) ← pop h; Some (h, Popped (Some top))
  end.

Fixpoint run_spec (q : list buffered) (ops : list op) : list answer :=
  match ops with
  | [] => []
  | o :: ops => let '(q, a) := spec_op q o in a :: run_spec q ops
  end.

Fixpoint run_heap (h : list buffered) (ops : list op) : option (list answer) :=
  match ops with
  | [] => Some []
  | o :: ops => '(h, a) ← heap_op h o; r ← run_heap h ops; Some (a :: r)
  end.

Definition op_orders (ops : list op) : list Z :=
  omap (λ o, match o with Push x => Some (order x) | Pop => None end) ops.

(** Moving every deadline by the same amount, as [SetTarget] and
    [moveClockLocked] do in place. *)
Definition shift_item (d : duration) (b : buffered) : buffered :=
  Buffered (pkt b) (tadd (playAt b) d) (order b).

(** ** The order *)
Lemma before_spec a b :
  before a b = true <-> playAt a < playAt b \/ (playAt a = playAt b /\ order a < order b).
Proof. unfold before, Before. cases_if; lia. Qed.

Lemma le_spec a b :
  le a b <-> playAt a < playAt b \/ (playAt a = playAt b /\ order a <= order b).
Proof. unfold le, before, Before. cases_if; lia. Qed.

Lemma le_refl a : le a a.
Proof. rewrite le_spec. lia. Qed.

Lemma le_trans a b c : le a b -> le b c -> le a c.
Proof. rewrite !le_spec. lia. Qed.

Lemma before_le a b : before a b = true -> le a b.
Proof. rewrite before_spec, le_spec. lia. Qed.

Lemma le_total a b : le a b \/ le b a.
Proof. rewrite !le_spec. lia. Qed.

#[export] Hint Resolve le_refl before_le : go.

Lemma le_shift d a b : le (shift_item d a) (shift_item d b) <-> le a b.
Proof. rewrite !le_spec. unfold shift_item, tadd. simpl. lia. Qed.

(** ** Indices *)
Lemma parentOf_eq i : (0 < i)%nat -> (i = 2 * parentOf i + 1 \/ i = 2 * parentOf i + 2)%nat.
Proof.
  intros. unfold parentOf. pose proof (Nat.div_mod_eq (i - 1) 2).
  pose proof (Nat.mod_upper_bound (i - 1) 2). lia.
Qed.

Lemma parentOf_lt i : (0 < i)%nat -> (parentOf i < i)%nat.
Proof. intros H. pose proof (parentOf_eq i H). lia. Qed.

Lemma parentOf_child i k : (0 < i)%nat -> parentOf i = k <-> (i = 2 * k + 1 \/ i = 2 * k + 2)%nat.
Proof. intros H. pose proof (parentOf_eq i H). lia. Qed.

(** ** Swapping two slots *)
Section swap.
Context (h : list buffered) (i j : nat) (x y : buffered).
Hypothesis Hi : h !! i = Some x.
Hypothesis Hj : h !! j = Some y.

Lemma lookup_swap k :
  i <> j ->
  (<[j:=x]> (<[i:=y]> h)) !! k
  = if decide (k = i) then Some y else if decide (k = j) then Some x else h !! k.
Proof using Hi Hj.
  intros Hne. pose proof (lookup_lt_Some _ _ _ Hi). pose proof (lookup_lt_Some _ _ _ Hj).
  repeat case_decide; subst.
  - rewrite list_lookup_insert_ne by done. by rewrite list_lookup_insert_eq.
  - rewrite list_lookup_insert_eq; [done|]. by rewrite length_insert.
  - by rewrite !list_lookup_insert_ne.
Qed.

Lemma swap_perm : <[j:=x]> (<[i:=y]> h) ≡ₚ h.
Proof using Hi Hj. by apply Permutation_insert_swap. Qed.

End swap.

(** ** [push] *)
Lemma ok_but_up_root h : ok_but_up h 0 -> heap_ok h.
Proof. intros [H _] i c p Hi. apply H; lia. Qed.

Lemma ok_but_up_done h k c p :
  ok_but_up h k -> h !! k = Some c -> h !! parentOf k = Some p -> le p c -> heap_ok h.
Proof.
  intros [H _] Hc Hp Hle i c' p' Hi Hc' Hp'.
  destruct (decide (i = k)) as [->|Hne]; [congruence|eauto].
Qed.

Lemma ok_but_up_step h k c p :
  (0 < k)%nat -> ok_but_up h k ->
  h !! k = Some c -> h !! parentOf k = Some p -> le c p ->
  ok_but_up (<[parentOf k:=c]> (<[k:=p]> h)) (parentOf k).
Proof.
  intros Hk [H1 H2] Hc Hp Hle. pose proof (parentOf_lt k Hk).
  assert (Hne : k <> parentOf k) by lia.
  pose proof (lookup_swap h k (parentOf k) c p Hc Hp) as Hl.
  split.
  - intros i c' p' Hi Hik. rewrite !(Hl _ Hne). pose proof (parentOf_lt i Hi).
    repeat case_decide; intros; simplify_eq; try lia; eauto.
    eapply le_trans; [exact Hle|]. eapply (H1 i); eauto. congruence.
  - intros i c' p' Hi Hk' Hpar. rewrite !(Hl _ Hne).
    pose proof (parentOf_lt (parentOf k) Hk'). pose proof (parentOf_lt i Hi).
    repeat case_decide; intros; simplify_eq; try lia; eauto.
    apply (le_trans p' p); [eapply (H1 (parentOf k))|eapply (H1 i)]; eauto; try lia.
    by rewrite Hpar.
Qed.

Lemma sift_up_spec fuel h child :
  (child < fuel)%nat -> (child < length h)%nat -> ok_but_up h child ->
  exists h' k, sift_up fuel h child = Some (h', k)
    /\ heap_ok h' /\ h' ≡ₚ h /\ h' !! k = h !! child
    /\ (k = 0%nat \/ h' !! 0%nat = h !! 0%nat).
Proof.
  revert h child. induction fuel as [|fuel IH]; intros h child Hf Hlen Hok; [lia|].
  cbn [sift_up]. destruct (0 <? child)%nat eqn:Hpos.
  - apply Nat.ltb_lt in Hpos. pose proof (parentOf_lt child Hpos) as Hlt.
    destruct (lookup_lt_is_Some_2 h child Hlen) as [c Hc]. rewrite Hc.
    destruct (lookup_lt_is_Some_2 h (parentOf child)) as [p Hp]; [lia|]. rewrite Hp. obind.
    destruct (before c p) eqn:Hb.
    + destruct (IH (<[parentOf child:=c]> (<[child:=p]> h)) (parentOf child))
        as (h' & k & E & Hheap & Hperm & Hk & Hroot); [lia|by rewrite !length_insert; lia|..].
      { apply ok_but_up_step; auto with go. }
      rewrite E. exists h', k. split_and!; auto.
      * by rewrite Hperm, swap_perm.
      * rewrite Hk, (lookup_swap h child (parentOf child) c p Hc Hp) by lia.
        by rewrite decide_False, decide_True by lia.
      * destruct Hroot as [?|Hroot]; [auto|].
        rewrite (lookup_swap h child (parentOf child) c p Hc Hp) in Hroot by lia.
        destruct (decide (parentOf child = 0%nat)) as [E0|].
        -- left. rewrite E0 in *. destruct fuel; [lia|]. cbn in E. congruence.
        -- right. by rewrite !decide_False in Hroot by lia.
    + exists h, child. split_and!; auto. eapply ok_but_up_done; eauto.
  - apply Nat.ltb_ge in Hpos. assert (child = 0%nat) as -> by lia.
    exists h, 0%nat. split_and!; auto. by apply ok_but_up_root.
Qed.

Lemma heap_ok_snoc h x : heap_ok h -> ok_but_up (h ++ [x]) (length h).
Proof.
  intros Hok. split.
  - intros i c p Hi Hne Hc Hp. pose proof (parentOf_lt i Hi).
    assert (i < length h)%nat.
    { apply lookup_lt_Some in Hc. rewrite length_app in Hc. simpl in Hc. lia. }
    rewrite lookup_app_l in Hc, Hp by lia. eauto.
  - intros i c p Hi Hk Hpar Hc. pose proof (parentOf_lt i Hi).
    apply lookup_lt_Some in Hc. rewrite length_app in Hc. simpl in Hc. lia.
Qed.

Lemma push_spec h item :
  heap_ok h ->
  exists h' root, push h item = Some (h', root)
    /\ heap_ok h' /\ h' ≡ₚ item :: h
    /\ (if root then h' !! 0%nat = Some item else h' !! 0%nat = h !! 0%nat).
Proof.
  intros Hok. unfold push. rewrite length_app. simpl.
  replace (length h + 1 - 1)%nat with (length h) by lia.
  destruct (sift_up_spec (length h + 1) (h ++ [item]) (length h))
    as (h' & k & E & Hh & Hp & Hk & Hr); [lia|rewrite length_app; simpl; lia|by apply heap_ok_snoc|].
  rewrite E. obind. rewrite lookup_app_r, Nat.sub_diag in Hk by lia. cbn in Hk.
  exists h', (k =? 0)%nat. split_and!; auto.
  - rewrite Hp. by rewrite Permutation_app_comm.
  - destruct k as [|k]; [done|]. cbn. destruct Hr as [?|Hr]; [done|].
    rewrite Hr. destruct h; [|done]. cbn in *.
    apply Permutation_singleton_r in Hp. subst h'. done.
Qed.

(** ** [pop] *)
Lemma smaller_spec h idx s b :
  h !! s = Some b ->
  exists k c, smaller h idx s = Some k /\ h !! k = Some c /\ le c b
    /\ (k = s \/ k = idx) /\ (k <> s -> le c b /\ before c b = true)
    /\ (forall a, h !! idx = Some a -> le c a).
Proof.
  intros Hs. unfold smaller. destruct (idx <? length h)%nat eqn:Hlt.
  - apply Nat.ltb_lt in Hlt. destruct (lookup_lt_is_Some_2 h idx Hlt) as [a Ha].
    rewrite Ha, Hs. obind. destruct (before a b) eqn:Hb.
    + exists idx, a. split_and!; auto with go. intros ? [= <-]. auto with go.
    + exists s, b. split_and!; auto with go; try done. intros ? [= <-]. done.
  - apply Nat.ltb_ge in Hlt. exists s, b. split_and!; auto with go; try done.
    intros a Ha. apply lookup_lt_Some in Ha. lia.
Qed.

Lemma ok_but_down_done h k p :
  ok_but_down h k -> h !! k = Some p ->
  (forall i c, (0 < i)%nat -> parentOf i = k -> h !! i = Some c -> le p c) -> heap_ok h.
Proof.
  intros [H1 _] Hp Hle i c p' Hi Hc Hp'.
  destruct (decide (parentOf i = k)) as [E|Hne]; [|by eapply H1].
  assert (p' = p) as -> by congruence. by eapply Hle.
Qed.

Lemma ok_but_down_step h k s p sv :
  (0 < s)%nat -> parentOf s = k -> ok_but_down h k ->
  h !! k = Some p -> h !! s = Some sv -> le sv p ->
  (forall i c, (0 < i)%nat -> parentOf i = k -> h !! i = Some c -> le sv c) ->
  ok_but_down (<[s:=p]> (<[k:=sv]> h)) s.
Proof.
  intros Hs Hpar [H1 H2] Hp Hsv Hle Hmin. pose proof (parentOf_lt s Hs).
  assert (Hne : k <> s) by lia. pose proof (lookup_swap h k s p sv Hp Hsv) as Hl.
  split.
  - intros i c q Hi Hpi. rewrite !(Hl _ Hne). pose proof (parentOf_lt i Hi).
    repeat case_decide; intros; simplify_eq; try lia; try done; eauto.
  - intros i c q Hi _ Hpi. rewrite !(Hl _ Hne), Hpar. pose proof (parentOf_lt i Hi).
    repeat case_decide; intros; simplify_eq; try lia.
    eapply (H1 i); eauto; lia.
Qed.

Lemma sink_spec fuel h k :
  (length h - k < fuel)%nat -> (k < length h)%nat -> ok_but_down h k ->
  exists h', sink fuel h k = Some h' /\ heap_ok h' /\ h' ≡ₚ h.
Proof.
  revert h k. induction fuel as [|fuel IH]; intros h k Hf Hk Hok; [lia|].
  cbn [sink]. destruct (lookup_lt_is_Some_2 h k Hk) as [p Hp].
  destruct (smaller_spec h (2 * k + 1) k p Hp) as (s1 & c1 & E1 & Hc1 & Hle1 & Hor1 & _ & Hmin1).
  rewrite E1. obind.
  destruct (smaller_spec h (2 * k + 1 + 1) s1 c1 Hc1) as (s2 & c2 & E2 & Hc2 & Hle2 & Hor2 & _ & Hmin2).
  rewrite E2. obind.
  assert (Hmin : forall i c, (0 < i)%nat -> parentOf i = k -> h !! i = Some c -> le c2 c).
  { intros i c Hi Hpar Hc. apply parentOf_child in Hpar; [|done].
    destruct Hpar as [->| ->].
    - eapply le_trans; [exact Hle2|]. by apply Hmin1.
    - apply Hmin2. by rewrite <-Nat.add_assoc. }
  destruct (s2 =? k)%nat eqn:Heq.
  - apply Nat.eqb_eq in Heq. subst s2. assert (c2 = p) as -> by congruence.
    exists h. split_and!; auto. by eapply ok_but_down_done.
  - apply Nat.eqb_neq in Heq. rewrite Hp, Hc2. obind.
    assert (0 < s2)%nat by lia.
    assert (parentOf s2 = k) by (apply parentOf_child; lia).
    pose proof (parentOf_lt s2). pose proof (lookup_lt_Some _ _ _ Hc2).
    destruct (IH (<[s2:=p]> (<[k:=c2]> h)) s2) as (h' & E & Hh & Hperm);
      [rewrite !length_insert; lia|by rewrite !length_insert| |].
    { eapply ok_but_down_step; eauto. by eapply le_trans. }
    exists h'. split_and!; auto. rewrite Hperm. by apply swap_perm.
Qed.

Lemma heap_root_min h m : heap_ok h -> h !! 0%nat = Some m -> is_min m h.
Proof.
  intros Hok Hm. apply Forall_lookup. intros i. induction i as [i IH] using lt_wf_ind.
  intros x Hx. destruct (decide (i = 0%nat)) as [->|Hi].
  - assert (m = x) as -> by congruence. apply le_refl.
  - assert (Hi' : (0 < i)%nat) by lia. pose proof (parentOf_lt i Hi').
    destruct (lookup_lt_is_Some_2 h (parentOf i)) as [p Hp].
    { apply lookup_lt_Some in Hx. lia. }
    eapply le_trans; [by eapply IH|]. by eapply (Hok i).
Qed.

Lemma pop_nil : pop [] = None.
Proof. done. Qed.

Lemma take_insert_last (m l : buffered) h0 :
  take (length h0) (<[0%nat:=l]> (m :: h0)) = match h0 with [] => [] | _ => l :: take (length h0 - 1) h0 end.
Proof. destruct h0 as [|y h0]; [done|]. simpl. by rewrite Nat.sub_0_r. Qed.

Lemma heap_ok_replace_root h0 m l :
  heap_ok (m :: h0) -> last h0 = Some l -> ok_but_down (l :: take (length h0 - 1) h0) 0.
Proof.
  intros Hok Hl. split; [|lia]. intros i c p Hi Hpar Hc Hp.
  destruct i as [|i]; [lia|]. destruct (parentOf (S i)) as [|j] eqn:E; [done|].
  simpl in Hc, Hp. apply lookup_take_Some in Hc as [Hc _]. apply lookup_take_Some in Hp as [Hp _].
  eapply (Hok (S i)); [lia|done|]. by rewrite E.
Qed.

(** The heap's contract: on a non-empty heap [pop] returns the element due
    first and leaves a heap of the others. *)
Lemma pop_spec h :
  heap_ok h -> h <> [] ->
  exists top h', pop h = Some (top, h')
    /\ h !! 0%nat = Some top /\ is_min top h /\ h ≡ₚ top :: h' /\ heap_ok h'.
Proof.
  intros Hok Hne. destruct h as [|m h0]; [done|].
  assert (Hmin : is_min m (m :: h0)) by (by apply heap_root_min).
  unfold pop. cbn [lookup list_lookup]. obind.
  replace (length (m :: h0) - 1)%nat with (length h0) by (simpl; lia).
  destruct (lookup_lt_is_Some_2 (m :: h0) (length h0)) as [l Hl]; [simpl; lia|].
  rewrite Hl. obind. rewrite take_insert_last.
  destruct h0 as [|y h1]; [by exists m, []|]. set (h0 := y :: h1) in *.
  assert (Hlast : last h0 = Some l).
  { rewrite last_lookup. exact Hl. }
  assert (Hsplit : h0 ≡ₚ l :: take (length h0 - 1) h0).
  { apply last_Some in Hlast as [t Ht]. rewrite Ht, length_app. simpl.
    rewrite Nat.add_sub, take_app_length. by rewrite Permutation_app_comm. }
  destruct (sink_spec (S (length (l :: take (length h0 - 1) h0))) (l :: take (length h0 - 1) h0) 0)
    as (h' & E & Hh & Hperm); [lia|simpl; lia|by eapply heap_ok_replace_root|].
  rewrite E. obind. exists m, h'. split_and!; auto. by rewrite Hperm, <-Hsplit.
Qed.

Lemma heap_ok_nil : heap_ok [].
Proof. intros i c p _ Hc. by rewrite lookup_nil in Hc. Qed.

Lemma heap_ok_shift d h : heap_ok h -> heap_ok (shift_item d <$> h).
Proof.
  intros Hok i c p Hi. rewrite !list_lookup_fmap.
  destruct (h !! i) as [c0|] eqn:Ec; [|done]. destruct (h !! parentOf i) as [p0|] eqn:Ep; [|done].
  intros [= <-] [= <-]. apply le_shift. by eapply Hok.
Qed.

#[export] Hint Resolve heap_ok_nil heap_ok_shift : go.

(** ** Refinement: the heap implements the sorted queue *)

(** The heap and the sorted queue hold the same items, with distinct arrival
    numbers. *)
Definition related (h q : list buffered) : Prop :=
  heap_ok h /\ h ≡ₚ q /\ StronglySorted le q /\ NoDup (order <$> q).

Lemma le_antisym_order (l : list buffered) a b :
  NoDup (order <$> l) -> a ∈ l -> b ∈ l -> le a b -> le b a -> a = b.
Proof.
  intros Hnd Ha Hb Hab Hba. rewrite le_spec in *. assert (order a = order b) as E by lia.
  apply list_elem_of_lookup in Ha as [i Hi]. apply list_elem_of_lookup in Hb as [j Hj].
  assert (i = j) as ->; [|congruence].
  apply (NoDup_lookup (order <$> l) i j (order a) Hnd);
    rewrite list_lookup_fmap, ?Hi, ?Hj; simpl; congruence.
Qed.

Lemma insert_sorted_perm x q : insert_sorted x q ≡ₚ x :: q.
Proof.
  induction q as [|y q IH]; simpl; [done|]. destruct (before x y); [done|].
  rewrite IH. constructor.
Qed.

Lemma insert_sorted_sorted x q : StronglySorted le q -> StronglySorted le (insert_sorted x q).
Proof.
  induction 1 as [|y q Hs IH Hall]; simpl; [by repeat constructor|].
  destruct (before x y) eqn:E.
  - constructor; [by constructor|]. constructor; auto with go.
    eapply Forall_impl; [exact Hall|]. intros z Hz. apply (le_trans x y z); auto with go.
  - constructor; [done|]. rewrite insert_sorted_perm. by constructor.
Qed.

Lemma sorted_head_min y q x : StronglySorted le (y :: q) -> x ∈ y :: q -> le y x.
Proof.
  intros Hs Hx. inversion Hs as [|?? _ Hall]; subst. apply elem_of_cons in Hx as [->|Hx]; auto with go.
  rewrite Forall_forall in Hall. auto.
Qed.

Lemma push_related h q x :
  related h q -> order x ∉ order <$> q ->
  exists h' first, push h x = Some (h', first)
    /\ related h' (insert_sorted x q)
    /\ first = match q with [] => true | y :: _ => before x y end.
Proof.
  intros (Hok & Hp & Hs & Hnd) Hx. destruct (push_spec h x Hok) as (h' & first & E & Hok' & Hp' & Hroot).
  exists h', first. split; [done|]. split.
  - split_and!; auto using insert_sorted_sorted.
    + by rewrite Hp', Hp, insert_sorted_perm.
    + rewrite insert_sorted_perm. simpl. by constructor.
  - destruct q as [|y q].
    { apply Permutation_nil_r in Hp as ->. destruct first; [done|].
      apply Permutation_singleton_r in Hp'. by subst h'. }
    assert (Hy : h !! 0%nat = Some y).
    { destruct h as [|m h0]; [by apply Permutation_nil_cons in Hp|]. simpl. f_equal.
      assert (Hm : is_min m (m :: h0)) by (by apply heap_root_min).
      apply (le_antisym_order (y :: q)); auto.
      - rewrite <-Hp. constructor.
      - constructor.
      - eapply Forall_forall; [exact Hm|]. rewrite Hp. constructor.
      - eapply sorted_head_min; [done|]. rewrite <-Hp. constructor. }
    destruct h' as [|m' h0']; [by apply Permutation_nil_cons in Hp'|].
    assert (Hm' : is_min m' (m' :: h0')) by (by apply heap_root_min).
    destruct first; rewrite ?Hy in Hroot; simpl in Hroot; simplify_eq.
    + symmetry. destruct (before x y) eqn:Hb; [done|]. exfalso. apply Hx.
      assert (Hle : le x y).
      { eapply Forall_forall; [exact Hm'|]. rewrite Hp', Hp. set_solver. }
      change (le y x) in Hb. rewrite le_spec in Hle, Hb.
      rewrite fmap_cons. apply elem_of_cons. left. lia.
    + symmetry. eapply Forall_forall in Hm'; [exact Hm'|]. rewrite Hp'. constructor.
Qed.

Lemma pop_related h y q :
  related h (y :: q) -> exists h', pop h = Some (y, h') /\ related h' q.
Proof.
  intros (Hok & Hp & Hs & Hnd).
  destruct (pop_spec h Hok) as (top & h' & E & _ & Hmin & Hp' & Hok').
  { intros ->. by apply Permutation_nil_cons in Hp. }
  assert (top = y) as ->.
  { apply (le_antisym_order (y :: q)); auto.
    - rewrite <-Hp, Hp'. constructor.
    - constructor.
    - eapply Forall_forall; [exact Hmin|]. rewrite Hp. constructor.
    - eapply sorted_head_min; [done|]. rewrite <-Hp, Hp'. constructor. }
  exists h'. split; [done|]. inversion Hs; subst. split_and!; auto.
  - rewrite Hp' in Hp. by apply Permutation_cons_inv in Hp.
  - by apply NoDup_cons in Hnd as [_ ?].
Qed.

Lemma run_related ops h q :
  related h q -> NoDup ((order <$> q) ++ op_orders ops) ->
  run_heap h ops = Some (run_spec q ops).
Proof.
  revert h q. induction ops as [|[x|] ops IH]; intros h q Hr Hnd; [done|..].
  - cbn [run_heap heap_op run_spec spec_op]. cbn in Hnd.
    destruct (push_related h q x Hr) as (h' & first & E & Hr' & Hf).
    { apply NoDup_app in Hnd as (_ & Hd & _). intros Hx. apply (Hd _ Hx). constructor. }
    rewrite E. obind. rewrite (IH h' (insert_sorted x q)); [by subst first|done|].
    rewrite insert_sorted_perm. cbn. by rewrite (Permutation_middle (order <$> q)).
  - cbn [run_heap heap_op run_spec spec_op]. destruct q as [|y q].
    + assert (h = []) as -> by (destruct Hr as (_ & Hp & _); by apply Permutation_nil_r in Hp).
      cbn. by rewrite (IH [] []).
    + destruct (pop_related h y q Hr) as (h' & E & Hr').
      replace (length h =? 0)%nat with false.
      2:{ destruct h; [done|]. done. }
      rewrite E. obind. rewrite (IH h' q); [done|done|]. by apply NoDup_cons in Hnd as [_ ?].
Qed.

(** ** Properties *)

(** C16: the packet heap implements the queue sorted by playout time and then
    arrival: any sequence of pushes and pops gives the same answers as the
    sorted list (the item popped, and whether a pushed item is now the next
    one due, which is what wakes the reader), without an index out of range and
    with both loops ending, as long as arrival numbers are not reused. *)
Theorem heap_refines_sorted_queue (ops : list op) :
  NoDup (op_orders ops) -> run_heap [] ops = Some (run_spec [] ops).
Proof.
  intros Hnd. apply run_related; [|done].
  split_and!; [apply heap_ok_nil|done|constructor|constructor].
Qed.

(** Three packets, two of one frame, pushed out of order. *)
Lemma heap_refines_sorted_queue_witness :
  let p := mkPacket 1 0 [] in
  let ops := [Push (Buffered p 30 1); Push (Buffered p 10 2); Pop;
              Push (Buffered p 30 3); Pop; Pop; Pop] in
  NoDup (op_orders ops)
  /\ run_heap [] ops
     = Some [Pushed true; Pushed true; Popped (Some (Buffered p 10 2)); Pushed false;
             Popped (Some (Buffered p 30 1)); Popped (Some (Buffered p 30 3)); Popped None].
Proof.
  intros p ops. assert (Hnd : NoDup (op_orders ops)).
  { apply (bool_decide_eq_true_1 _). reflexivity. }
  split; [exact Hnd|]. rewrite heap_refines_sorted_queue; [reflexivity|exact Hnd].
Defined.

End Heap.
