(* ===== verification/DynamicDelay.v ===== *)
(** * The adaptive playout delay ([src/internal/dynamicdelay])

    One controller per camera holds the current delay curve, shared by its
    audio and video buffers.  [Controller.state] is an atomic pointer to an
    immutable [State]; the relay compares such pointers, so the model keeps the
    address of the last curve stored next to it.  The operations hold the
    controller's mutex throughout, so each is one state transition. *)

From S2P Require Import Prelude GoFloat.

Module DynamicDelay.

(** [MaximumMS] the constant, named apart from the field. *)
Definition MaximumMSLimit : Z := 10000.

Record Options := mkOptions {
  Enabled : bool;
  MaximumMS : Z;
  Jump : bool;
  CatchUpMSPerSecond : Z;
  AutoCatchUp : option bool
}.

#[export] Instance Options_eq_dec : EqDecision Options.
Proof. solve_decision. Defined.

(** The zero value of [Options]. *)
Definition zeroOptions : Options := mkOptions false 0 false 0 None.

Definition Normalize (o : Options) (baseMS : Z) : Options :=
  let '(maximum, jump) :=
    if MaximumMS o =? 0 then (MaximumMSLimit, true) else (MaximumMS o, Jump o) in
  let maximum := Z.max 1 (Z.max baseMS (Z.min MaximumMSLimit maximum)) in
  let catchUp := if CatchUpMSPerSecond o =? 0 then 10 else CatchUpMSPerSecond o in
  let catchUp := Z.max 1 (Z.min 200 catchUp) in
  let auto := match AutoCatchUp o with None => Some true | Some b => Some b end in
  mkOptions (Enabled o) maximum jump catchUp auto.

Definition Automatic (o : Options) : bool :=
  match AutoCatchUp o with None => true | Some b => b end.

Definition CatchUp (o : Options) (current base : duration) : duration :=
  if negb (Automatic o) then dmul (CatchUpMSPerSecond o) Millisecond
  else
    let span := Z.max Millisecond (dsub (dmul (MaximumMS o) Millisecond) base) in
    let speed :=
      Z.min 200 (i64 (10 + dquot (dmul 1900 (Z.max 0 (dsub current base))) (dmul 9 span))) in
    dmul speed Millisecond.

Record State := mkState {
  Start : time;
  From : duration;
  To : duration;
  Shift : duration;
  Cutoff : time;
  Pending : bool
}.

Definition Delay (s : State) (now : time) : duration :=
  let elapsed := Z.min Second (Z.max 0 (tsub now (Start s))) in
  dadd (From s) (dquot (dmul (dsub (To s) (From s)) elapsed) Second).

Record Controller := mkController {
  state : option State;
  addr : nat;          (* the address of the last [State] stored *)
  options : Options;
  base : duration;
  goal : duration;
  quietUntil : time;
  lastStep : time;
  shift : duration;
  cutoff : time
}.

(** The zero value of [Controller], as embedded in a new [Stream]. *)
Definition zeroController : Controller :=
  mkController None 0 zeroOptions 0 0 zeroTime zeroTime 0 zeroTime.

(** [c.state.Store(&s)]: a fresh address. *)
Definition store (c : Controller) (s : State) : Controller :=
  mkController (Some s) (S (addr c)) (options c) (base c) (goal c) (quietUntil c)
    (lastStep c) (shift c) (cutoff c).

(** Whether [State()] returns the same pointer for both controllers. *)
Definition same_state (c d : Controller) : bool :=
  match state c, state d with
  | None, None => true
  | Some _, Some _ => (addr c =? addr d)%nat
  | _, _ => false
  end.

Definition Configure (c : Controller) (newBase : duration) (opts : Options) (now : time)
  : Controller :=
  let opts := Normalize opts (dquot newBase Millisecond) in
  let previous := mkOptions (Enabled (options c)) (MaximumMS (options c)) (Jump (options c))
                    (CatchUpMSPerSecond opts) (AutoCatchUp opts) in
  if (base c =? newBase) && bool_decide (previous = opts) then
    mkController (state c) (addr c) opts (base c) (goal c) (quietUntil c) (lastStep c)
      (shift c) (cutoff c)
  else
    let c := mkController (state c) (addr c) opts newBase newBase (quietUntil c) (lastStep c)
               (shift c) (cutoff c) in
    match state c with
    | None =>
        if negb (Enabled opts) then c
        else store c (mkState now newBase newBase (shift c) (cutoff c) false)
    | Some s =>
        let current := if Enabled opts then Delay s now else newBase in
        store c (mkState now current current (shift c) (cutoff c) false)
    end.

(** [updateGoal]: the controller after it, and whether the wanted delay exceeds
    the maximum. *)
Definition updateGoal (c : Controller) (now : time) (current late : duration)
  : Controller * bool :=
  let maximum := dmul (MaximumMS (options c)) Millisecond in
  let wanted := if 0 <? late then dadd current (dadd late (100 * Millisecond)) else current in
  let '(goal, quiet) :=
    if 0 <? late then (Z.max (goal c) (Z.min maximum wanted), tadd now (5 * Second))
    else if After now (quietUntil c) then (base c, quietUntil c)
    else (goal c, quietUntil c) in
  (mkController (state c) (addr c) (options c) (base c) goal quiet (lastStep c)
     (shift c) (cutoff c),
   maximum <? wanted).

Definition setLastStep (c : Controller) (now : time) : Controller :=
  mkController (state c) (addr c) (options c) (base c) (goal c) (quietUntil c) now
    (shift c) (cutoff c).

(** [Step]: the controller after it and the curve it returns. *)
Definition Step (c : Controller) (now : time) (late : duration) : Controller * option State :=
  match state c with
  | None => (c, None)
  | Some st =>
      if Before now (Cutoff st) || (tsub now (lastStep c) <? Second) then (c, Some st)
      else
        let c := setLastStep c now in
        if negb (Enabled (options c)) then
          (mkController None (addr c) (options c) (base c) (goal c) (quietUntil c) (lastStep c)
             (shift c) (cutoff c), None)
        else
          let current := Delay st now in
          let '(c, exceeded) := updateGoal c now current late in
          let pending := Pending st || (Jump (options c) && exceeded) in
          let catchUp := CatchUp (options c) current (base c) in
          let to := Z.max (dsub current catchUp)
                      (Z.min (dadd current (50 * Millisecond)) (goal c)) in
          let next := mkState now current to (Shift st) (Cutoff st) pending in
          (store c next, Some next)
  end.

(** [Controller.Jump], named apart from the option. *)
Definition JumpTo (c : Controller) (now mediaTime : time) : Controller :=
  match state c with
  | None => c
  | Some st =>
      if negb (Pending st) then c
      else
        let next := mkState now (base c) (base c) (dadd (Shift st) (tsub now mediaTime)) now false in
        store (mkController (state c) (addr c) (options c) (base c) (base c)
                 (tadd now (5 * Second)) (lastStep c) (Shift next) (Cutoff next)) next
  end.

Record Status := mkStatus {
  StEnabled : bool;
  StDelayMS : Z;
  StCurrentDelayMS : F64.float64;
  StCatchUpMSPerSecond : F64.float64;
  StJumpPending : bool
}.

(** A duration in milliseconds, [float64(d) / float64(time.Millisecond)]. *)
Definition msOf (d : duration) : F64.float64 := F64.div (F64.of_Z d) (F64.of_Z Millisecond).

Definition StatusOf (c : Controller) (now : time) : Status :=
  let enabled := Enabled (options c) in
  let plain := mkStatus enabled (dquot (base c) Millisecond) (msOf (base c)) (F64.of_Z 0) false in
  match state c with
  | Some st =>
      if enabled then
        mkStatus enabled (StDelayMS plain) (msOf (Delay st now))
          (if negb (Before now (Start st)) && (tsub now (Start st) <? Second)
           then msOf (Z.max 0 (dsub (From st) (To st))) else F64.of_Z 0)
          (Pending st)
      else plain
  | None => plain
  end.

(** ** Specification *)

Definition tenSeconds : duration := 10 * Second.

(** What [Normalize] guarantees of the options of a camera. *)
Definition normalized (o : Options) : Prop :=
  1 <= MaximumMS o <= MaximumMSLimit /\ 1 <= CatchUpMSPerSecond o <= 200.

(** A curve moves by at most 50 ms up and 200 ms down, within ten seconds. *)
Definition curve_ok (s : State) : Prop :=
  0 <= From s <= tenSeconds /\ 0 <= To s <= tenSeconds
  /\ - (200 * Millisecond) <= To s - From s <= 50 * Millisecond.

Definition controller_ok (c : Controller) : Prop :=
  match state c with
  | None => True
  | Some s =>
      curve_ok s /\ normalized (options c) /\ 0 <= base c
      /\ base c <= goal c <= MaximumMS (options c) * Millisecond
  end.

(** The delay without the wrap-arounds of [int64]. *)
Definition elapsedOf (s : State) (now : time) : duration :=
  Z.min Second (Z.max 0 (now - Start s)).

Definition exactDelay (s : State) (now : time) : Z :=
  From s + Z.quot ((To s - From s) * elapsedOf s now) Second.

(** What the relay and the settings may do to a controller: configurations use a
    target of [0] to [10000] ms, lateness is any duration. *)
Inductive event :=
  | EConfigure (baseMS : Z) (o : Options) (now : time)
  | EStep (now : time) (late : duration)
  | EJump (now mediaTime : time).

Definition valid (e : event) : Prop :=
  match e with
  | EConfigure baseMS _ _ => 0 <= baseMS <= MaximumMSLimit
  | EStep _ late => is_i64 late
  | EJump _ _ => True
  end.

Definition apply_event (c : Controller) (e : event) : Controller :=
  match e with
  | EConfigure baseMS o now => Configure c (baseMS * Millisecond) o now
  | EStep now late => fst (Step c now late)
  | EJump now media => JumpTo c now media
  end.

Definition run (es : list event) : Controller := fold_left apply_event es zeroController.

(** When an event happens. *)
Definition at_time (e : event) : time :=
  match e with EConfigure _ _ now => now | EStep now _ => now | EJump now _ => now end.

(** The events that move the delay without a break: ticks, and configurations
    that leave the adaptive delay on.  Jumps break it on purpose. *)
Definition smooth (e : event) : Prop :=
  match e with
  | EConfigure _ o _ => Enabled o = true
  | EStep _ _ => True
  | EJump _ _ => False
  end.

(** The events happen one after the other between [t1] and [t2]. *)
Fixpoint ordered (t1 : time) (es : list event) (t2 : time) : Prop :=
  match es with
  | [] => t1 <= t2
  | e :: es => t1 <= at_time e /\ ordered (at_time e) es t2
  end.

(** The relay's tick with no late packet, once a second from [now]. *)
Fixpoint quiet_run (n : nat) (c : Controller) (now : time) : Controller :=
  match n with
  | O => c
  | S n => quiet_run n (fst (Step c now 0)) (now + Second)
  end.

(** ** Lemmas *)
Ltac dd_unfold :=
  unfold tenSeconds, Second, Millisecond, MaximumMSLimit in *.

(** Everything [Normalize] guarantees, in one place. *)
Lemma Normalize_facts o b :
  let n := Normalize o b in
  Normalize n b = n
  /\ Z.max 1 b <= MaximumMS n <= Z.max MaximumMSLimit b
  /\ 1 <= CatchUpMSPerSecond n <= 200
  /\ Enabled n = Enabled o
  /\ AutoCatchUp n = Some (Automatic o)
  /\ (MaximumMS o = 0 -> Jump n = true /\ MaximumMS n = Z.max MaximumMSLimit b).
Proof.
  unfold Normalize, Automatic. dd_unfold.
  destruct (MaximumMS o =? 0) eqn:E1, (CatchUpMSPerSecond o =? 0) eqn:E2, (AutoCatchUp o) as [[]|];
    simpl; rewrite !(proj2 (Z.eqb_neq _ 0)) by lia; split_and!; try lia; try done; f_equal; lia.
Qed.

Lemma Normalize_idem o b : Normalize (Normalize o b) b = Normalize o b.
Proof. apply Normalize_facts. Qed.

Lemma Normalize_normalized o b : b <= MaximumMSLimit -> normalized (Normalize o b).
Proof. unfold normalized, Normalize. dd_unfold. intros. destruct (MaximumMS o =? 0); simpl; lia. Qed.

Lemma Normalize_base o b : b <= MaximumMS (Normalize o b).
Proof. unfold Normalize. destruct (MaximumMS o =? 0); simpl; lia. Qed.

(** A fraction of a second of a movement stays within the movement. *)
Lemma scaled_bounds d e :
  0 <= e <= Second -> Z.min 0 d <= Z.quot (d * e) Second <= Z.max 0 d.
Proof.
  intros He. assert (Second > 0) by (dd_unfold; lia).
  destruct (Z.le_ge_cases 0 d).
  - rewrite Z.quot_div_nonneg by (dd_unfold; nia). split; [apply Z.le_trans with 0; [lia|apply Z.div_pos; nia]|].
    apply Z.le_trans with (d * Second / Second); [apply Z.div_le_mono; nia|].
    rewrite Z.div_mul by lia. lia.
  - replace (d * e) with (- (- d * e)) by lia. rewrite Z.quot_opp_l by lia.
    rewrite Z.quot_div_nonneg by (dd_unfold; nia).
    assert (0 <= - d * e / Second) by (apply Z.div_pos; nia).
    assert (- d * e / Second <= - d); [|lia].
    apply Z.le_trans with (- d * Second / Second); [apply Z.div_le_mono; nia|].
    rewrite Z.div_mul by lia. lia.
Qed.

Lemma elapsed_range s now : 0 <= elapsedOf s now <= Second.
Proof. unfold elapsedOf. dd_unfold. lia. Qed.

Lemma Delay_exact s now : curve_ok s -> Delay s now = exactDelay s now.
Proof.
  intros (Hf & Ht & Hd). unfold Delay, exactDelay.
  assert (Z.min Second (Z.max 0 (tsub now (Start s))) = elapsedOf s now) as ->.
  { unfold elapsedOf, tsub. dd_unfold. lia. }
  pose proof (elapsed_range s now) as He.
  pose proof (scaled_bounds (To s - From s) _ He) as Hq.
  unfold dsub. rewrite (i64_small (To s - From s)) by (unfold is_i64; dd_unfold; lia).
  unfold dmul. rewrite (i64_small (_ * _)) by (unfold is_i64; dd_unfold; nia).
  unfold dquot. rewrite (i64_small (Z.quot _ _)) by (unfold is_i64; dd_unfold; lia).
  apply i64_small. unfold is_i64; dd_unfold; lia.
Qed.

Lemma Delay_between s now :
  curve_ok s -> Z.min (From s) (To s) <= Delay s now <= Z.max (From s) (To s).
Proof.
  intros H. rewrite Delay_exact by done. unfold exactDelay.
  pose proof (scaled_bounds (To s - From s) _ (elapsed_range s now)). lia.
Qed.

Lemma Delay_range s now : curve_ok s -> 0 <= Delay s now <= tenSeconds.
Proof. intros H. pose proof (Delay_between s now H). destruct H. lia. Qed.

Lemma Delay_flat s now : From s = To s -> curve_ok s -> Delay s now = From s.
Proof. intros E H. pose proof (Delay_between s now H). lia. Qed.

Lemma Delay_start s : curve_ok s -> Delay s (Start s) = From s.
Proof.
  intros H. rewrite Delay_exact by done. unfold exactDelay, elapsedOf. rewrite Z.sub_diag.
  rewrite Z.max_id, Z.min_r, Z.mul_0_r by (dd_unfold; lia). rewrite Z.quot_0_l by done. lia.
Qed.

Lemma Delay_end s now : curve_ok s -> Start s + Second <= now -> Delay s now = To s.
Proof.
  intros H Hn. rewrite Delay_exact by done. unfold exactDelay, elapsedOf.
  rewrite Z.min_l by (dd_unfold; lia). rewrite Z.quot_mul by (dd_unfold; lia). lia.
Qed.

(** The catch-up speed of normalised options is 1 to 200 ms per second. *)
Lemma CatchUp_range o current b :
  normalized o -> 0 <= current <= tenSeconds -> 0 <= b <= tenSeconds ->
  Millisecond <= CatchUp o current b <= 200 * Millisecond.
Proof.
  intros [Hm Hc] Hcur Hb. unfold CatchUp. destruct (negb (Automatic o)).
  - unfold dmul. rewrite i64_small; unfold is_i64; dd_unfold; lia.
  - unfold dsub, dmul, dquot.
    rewrite (i64_small (MaximumMS o * _)) by (unfold is_i64; dd_unfold; lia).
    rewrite (i64_small (current - b)) by (unfold is_i64; dd_unfold; lia).
    rewrite (i64_small (MaximumMS o * Millisecond - b)) by (unfold is_i64; dd_unfold; lia).
    set (span := Z.max Millisecond _). assert (Millisecond <= span <= tenSeconds) by (unfold span; dd_unfold; lia).
    set (x := Z.max 0 (current - b)). assert (0 <= x <= tenSeconds) by (unfold x; dd_unfold; lia).
    rewrite (i64_small (9 * span)) by (unfold is_i64; dd_unfold; lia).
    rewrite (i64_small (1900 * x)) by (unfold is_i64; dd_unfold; lia).
    assert (0 <= Z.quot (1900 * x) (9 * span) <= 1900 * x).
    { rewrite Z.quot_div_nonneg by (dd_unfold; lia). split; [apply Z.div_pos; dd_unfold; lia|].
      apply Z.div_le_upper_bound; dd_unfold; nia. }
    rewrite (i64_small (Z.quot _ _)) by (unfold is_i64; dd_unfold; lia).
    rewrite (i64_small (10 + _)) by (unfold is_i64; dd_unfold; lia).
    rewrite i64_small; unfold is_i64; dd_unfold; lia.
Qed.

Lemma flat_curve_ok now d sh cut p :
  0 <= d <= tenSeconds -> curve_ok (mkState now d d sh cut p).
Proof. intros. unfold curve_ok. simpl. dd_unfold. lia. Qed.

Lemma baseMS_dquot b : 0 <= b <= MaximumMSLimit -> dquot (b * Millisecond) Millisecond = b.
Proof.
  intros. unfold dquot. rewrite Z.quot_mul by (dd_unfold; lia).
  apply i64_small. unfold is_i64. dd_unfold. lia.
Qed.

Lemma Configure_ok c b o now :
  0 <= b <= MaximumMSLimit -> controller_ok c -> controller_ok (Configure c (b * Millisecond) o now).
Proof.
  intros Hb Hc. unfold Configure. rewrite baseMS_dquot by done.
  set (o' := Normalize o b).
  assert (Hn : normalized o') by (apply Normalize_normalized; lia).
  assert (Hbase : b <= MaximumMS o') by apply Normalize_base.
  assert (Hb10 : 0 <= b * Millisecond <= tenSeconds) by (dd_unfold; lia).
  assert (Hgoal : b * Millisecond <= b * Millisecond <= MaximumMS o' * Millisecond) by (dd_unfold; lia).
  destruct ((base c =? _) && _) eqn:E.
  - bool_hyps. apply bool_decide_eq_true_1 in H0. unfold controller_ok in *. simpl.
    destruct (state c); [|done]. destruct Hc as (? & ? & ? & ?).
    assert (MaximumMS (options c) = MaximumMS o') by (by rewrite <-H0).
    split_and!; auto; lia.
  - simpl. unfold controller_ok in *. destruct (state c) as [s|].
    + destruct Hc as (Hs & _). simpl. split_and!; auto; try lia.
      apply flat_curve_ok. destruct (Enabled o'); [by apply Delay_range|lia].
    + destruct (negb (Enabled o')); [done|]. simpl. split_and!; auto; try lia. by apply flat_curve_ok.
Qed.

Lemma updateGoal_ok c now current late c' ex :
  updateGoal c now current late = (c', ex) ->
  base c <= goal c <= MaximumMS (options c) * Millisecond ->
  normalized (options c) ->
  options c' = options c /\ base c' = base c /\ state c' = state c
  /\ shift c' = shift c /\ cutoff c' = cutoff c /\ lastStep c' = lastStep c
  /\ base c' <= goal c' <= MaximumMS (options c) * Millisecond.
Proof.
  intros E Hg Hn. unfold updateGoal in E.
  assert (Hmax : dmul (MaximumMS (options c)) Millisecond = MaximumMS (options c) * Millisecond).
  { apply i64_small. destruct Hn. unfold is_i64. dd_unfold. lia. }
  rewrite Hmax in E.
  destruct (0 <? late); [|destruct (After now (quietUntil c))]; simplify_eq/=; split_and!; auto; lia.
Qed.

(** What a step that is not skipped does to an enabled controller. *)
Lemma Step_enabled c now late s :
  controller_ok c -> state c = Some s -> Enabled (options c) = true ->
  Before now (Cutoff s) = false -> Second <= tsub now (lastStep c) ->
  exists next c', Step c now late = (c', Some next)
    /\ state c' = Some next /\ options c' = options c /\ base c' = base c
    /\ shift c' = shift c /\ cutoff c' = cutoff c /\ lastStep c' = now
    /\ goal c' = goal (fst (updateGoal (setLastStep c now) now (Delay s now) late))
    /\ quietUntil c' = quietUntil (fst (updateGoal (setLastStep c now) now (Delay s now) late))
    /\ Start next = now /\ From next = Delay s now
    /\ Shift next = Shift s /\ Cutoff next = Cutoff s
    /\ To next = Z.max (Delay s now - CatchUp (options c) (Delay s now) (base c))
                   (Z.min (Delay s now + 50 * Millisecond) (goal c'))
    /\ base c' <= goal c' <= MaximumMS (options c) * Millisecond
    /\ Pending next = Pending s
         || (Jump (options c) && snd (updateGoal (setLastStep c now) now (Delay s now) late)).
Proof.
  intros Hok Hs Hen Hcut Hlast. unfold Step. rewrite Hs, Hcut.
  rewrite (proj2 (Z.ltb_ge _ _)) by lia. cbn [orb].
  unfold controller_ok in Hok. rewrite Hs in Hok. destruct Hok as (Hcurve & Hn & Hb & Hg).
  change (options (setLastStep c now)) with (options c). rewrite Hen. cbn [negb].
  destruct (updateGoal (setLastStep c now) now (Delay s now) late) as [c1 ex] eqn:E.
  destruct (updateGoal_ok _ _ _ _ _ _ E) as (Ho & Hb1 & Hs1 & Hsh & Hcu & Hls & Hg1); [done|done|].
  simpl in Ho, Hb1, Hs1, Hsh, Hcu, Hls, Hg1.
  pose proof (Delay_range s now Hcurve) as Hd.
  assert (Hmax : MaximumMS (options c) * Millisecond <= tenSeconds) by (destruct Hn; dd_unfold; lia).
  assert (Hcatch : Millisecond <= CatchUp (options c) (Delay s now) (base c) <= 200 * Millisecond)
    by (apply CatchUp_range; auto; lia).
  eexists _, _. split; [reflexivity|]. simpl. rewrite Ho, Hb1. split_and!; auto; try lia.
  unfold dsub, dadd. rewrite !i64_small by (unfold is_i64; dd_unfold; lia). done.
Qed.

Lemma Step_ok c now late : controller_ok c -> controller_ok (fst (Step c now late)).
Proof.
  intros Hok. destruct (state c) as [s|] eqn:Hs; [|by unfold Step; rewrite Hs].
  destruct (Before now (Cutoff s) || (tsub now (lastStep c) <? Second)) eqn:Hskip.
  { unfold Step. by rewrite Hs, Hskip. }
  bool_hyps. destruct (Enabled (options c)) eqn:Hen.
  - destruct (Step_enabled c now late s) as (next & c' & E & Hs' & Ho & Hb & _ & _ & _ & _ & _ & _ & Hf & _ & _ & Ht & Hg & _);
      auto; [apply Z.ltb_ge in H0; lia|].
    rewrite E. simpl. unfold controller_ok in *. rewrite Hs in Hok. rewrite Hs'.
    destruct Hok as (Hcurve & Hn & Hb0 & Hg0). rewrite Ho, Hb in *.
    pose proof (Delay_range s now Hcurve) as Hd.
    assert (Hmax : MaximumMS (options c) * Millisecond <= tenSeconds) by (destruct Hn; dd_unfold; lia).
    assert (Hcatch : Millisecond <= CatchUp (options c) (Delay s now) (base c) <= 200 * Millisecond)
      by (apply CatchUp_range; auto; lia).
    split_and!; auto; try lia. unfold curve_ok. rewrite Hf, Ht. dd_unfold. lia.
  - unfold Step. rewrite Hs, H, H0. cbn. by rewrite Hen.
Qed.

Lemma JumpTo_ok c now media : controller_ok c -> controller_ok (JumpTo c now media).
Proof.
  intros Hok. unfold JumpTo. destruct (state c) as [s|] eqn:Hs; [|done].
  destruct (negb (Pending s)); [done|]. unfold controller_ok in *. rewrite Hs in Hok. simpl.
  destruct Hok as (Hcurve & Hn & Hb & Hg). split_and!; auto; try lia.
  apply flat_curve_ok. destruct Hn. dd_unfold. lia.
Qed.

#[export] Hint Resolve Configure_ok Step_ok JumpTo_ok : go.

Lemma apply_event_ok c e : valid e -> controller_ok c -> controller_ok (apply_event c e).
Proof. destruct e; simpl; auto with go. Qed.

Lemma run_ok es : Forall valid es -> controller_ok (run es).
Proof.
  unfold run. assert (H0 : controller_ok zeroController) by done. revert H0.
  generalize zeroController. induction es as [|e es IH]; intros c Hc Hv; [done|].
  apply Forall_cons in Hv as [? ?]. simpl. auto using apply_event_ok.
Qed.

(** Over a curve, media time moves at 0.95 to 1.2 times real time, up to a
    nanosecond of rounding. *)
Lemma Delay_speed s t1 t2 :
  curve_ok s -> t1 <= t2 ->
  - ((t2 - t1) + 5) <= 5 * (Delay s t2 - Delay s t1)
  /\ 20 * (Delay s t2 - Delay s t1) <= (t2 - t1) + 20.
Proof.
  intros H Ht. rewrite !Delay_exact by done. unfold exactDelay.
  assert (He : 0 <= elapsedOf s t2 - elapsedOf s t1 <= t2 - t1) by (unfold elapsedOf; lia).
  destruct H as (_ & _ & Hd).
  pose proof (elapsed_range s t1) as R1. pose proof (elapsed_range s t2) as R2.
  set (d := To s - From s) in *. set (e1 := elapsedOf s t1) in *. set (e2 := elapsedOf s t2) in *.
  assert (Hdiff : (d * e2 - d * e1) - Second < Second * (Z.quot (d * e2) Second - Z.quot (d * e1) Second)
                  < (d * e2 - d * e1) + Second).
  { assert (Hsgn : (0 <= d * e1 /\ 0 <= d * e2) \/ (d * e1 <= 0 /\ d * e2 <= 0)).
    { destruct (Z.le_ge_cases 0 d); [left|right]; nia. }
    revert Hsgn. generalize (d * e1) (d * e2). intros x y Hsgn. unfold Second.
    Z.to_euclidean_division_equations. lia. }
  assert (d * e2 - d * e1 = d * (e2 - e1)) as Hfac by lia. rewrite Hfac in Hdiff.
  set (q := Z.quot (d * e2) Second - Z.quot (d * e1) Second) in *.
  replace (From s + Z.quot (d * e2) Second - (From s + Z.quot (d * e1) Second)) with q by (unfold q; lia).
  set (e := e2 - e1) in *. dd_unfold. nia.
Qed.

(** An enabled controller that carries a curve. *)
Definition carries (c : Controller) (s : State) : Prop :=
  controller_ok c /\ state c = Some s /\ Enabled (options c) = true.

Lemma carries_curve c s : carries c s -> curve_ok s.
Proof. intros (Hok & Hs & _). unfold controller_ok in Hok. rewrite Hs in Hok. apply Hok. Qed.

(** A tick or a configuration starts its curve at the delay of the moment. *)
Lemma smooth_event c s e :
  valid e -> smooth e -> carries c s ->
  exists s', carries (apply_event c e) s' /\ Delay s' (at_time e) = Delay s (at_time e).
Proof.
  intros Hv Hsm Hc. pose proof (carries_curve _ _ Hc) as Hcurve.
  pose proof (apply_event_ok c e Hv (proj1 Hc)) as Hok'.
  destruct Hc as (Hok & Hs & Hen). destruct e as [b o now|now late|]; [| |done]; simpl in *.
  - assert (En : Enabled (Normalize o (dquot (b * Millisecond) Millisecond)) = true)
      by (rewrite (proj1 (proj2 (proj2 (proj2 (Normalize_facts _ _))))); done).
    revert Hok'. unfold carries, Configure. destruct (_ && _); [intros; by exists s|].
    simpl. rewrite Hs, En. intros Hok'. eexists. split; [split_and!; [done|reflexivity|done]|].
    apply Delay_flat; [done|]. by apply flat_curve_ok, Delay_range.
  - destruct (Before now (Cutoff s) || (tsub now (lastStep c) <? Second)) eqn:Hskip.
    { unfold carries, Step in *. rewrite Hs, Hskip in *. simpl in *. by exists s. }
    bool_hyps. destruct (Step_enabled c now late s) as (next & c' & E & Hs' & Ho & _ & _ & _ & _ & _ & _ & Hst & Hf & _);
      auto; [apply Z.ltb_ge in H0; lia|].
    unfold carries. rewrite E in *. simpl in *. exists next. split; [split_and!; congruence|].
    rewrite <-Hf, <-Hst. apply Delay_start. unfold controller_ok in Hok'. rewrite Hs' in Hok'. apply Hok'.
Qed.

(** Across any number of such events the speed bound of a curve holds, with a
    nanosecond of rounding for each curve. *)
Lemma smooth_speed later c s t1 t2 :
  Forall valid later -> Forall smooth later -> carries c s -> ordered t1 later t2 ->
  exists s', carries (fold_left apply_event later c) s'
    /\ - ((t2 - t1) + 5 * (1 + Z.of_nat (length later))) <= 5 * (Delay s' t2 - Delay s t1)
    /\ 20 * (Delay s' t2 - Delay s t1) <= (t2 - t1) + 20 * (1 + Z.of_nat (length later)).
Proof.
  revert c s t1. induction later as [|e later IH]; intros c s t1 Hv Hsm Hc Ht.
  - exists s. split; [done|]. pose proof (Delay_speed s t1 t2 (carries_curve _ _ Hc) Ht). simpl. lia.
  - apply Forall_cons in Hv as [Hv Hvs]. apply Forall_cons in Hsm as [Hsm Hsms].
    destruct Ht as [Ht Hts].
    destruct (smooth_event c s e Hv Hsm Hc) as (s1 & Hc1 & Hcont).
    destruct (IH _ _ _ Hvs Hsms Hc1 Hts) as (s' & Hc' & Hlo & Hhi).
    pose proof (Delay_speed s t1 (at_time e) (carries_curve _ _ Hc) Ht).
    exists s'. split; [done|]. rewrite Hcont in *. simpl length. lia.
Qed.

Lemma ordered_le t1 es t2 : ordered t1 es t2 -> t1 <= t2.
Proof. revert t1. induction es as [|e es IH]; intros t1; simpl; [done|]. intros [? ?%IH]. lia. Qed.

(** A controller ready for a tick at [now], its quiet period over. *)
Definition ready (c : Controller) (s : State) (now : time) : Prop :=
  controller_ok c /\ state c = Some s /\ Enabled (options c) = true
  /\ Cutoff s <= now /\ quietUntil c < now /\ lastStep c + Second <= now.

Lemma quiet_step c s now :
  ready c s now ->
  exists s', ready (fst (Step c now 0)) s' (now + Second)
    /\ base (fst (Step c now 0)) = base c
    /\ Start s' = now /\ curve_ok s' /\ Delay s' (now + Second) = To s'
    /\ Z.abs (To s' - base c) <= Z.max 0 (Z.abs (Delay s now - base c) - Millisecond).
Proof.
  intros (Hok & Hs & Hen & Hcut & Hq & Hl).
  assert (Hcontrol : controller_ok (fst (Step c now 0))) by auto with go.
  destruct (Step_enabled c now 0 s) as (next & c' & E & Hs' & Ho & Hb & Hsh & Hcu & Hls & Hgo & Hqu & Hst & Hf & Hshn & Hcn & Ht & Hg & _);
    auto; [unfold Before; lia|unfold tsub; dd_unfold; lia|].
  rewrite E in *. simpl in *. unfold updateGoal, After in Hgo, Hqu. simpl in Hgo, Hqu.
  rewrite (proj2 (Z.ltb_lt _ _) Hq) in Hgo, Hqu. simpl in Hgo, Hqu.
  unfold controller_ok in Hcontrol. rewrite Hs' in Hcontrol. destruct Hcontrol as (Hcurve' & Hrest).
  exists next. split_and!; auto.
  - unfold ready, controller_ok. rewrite Hs', Ho, Hcn, Hqu, Hls. rewrite Ho in Hrest. dd_unfold. split_and!; auto; try lia. by destruct Hrest.
  - apply Delay_end; [done|lia].
  - unfold controller_ok in Hok. rewrite Hs in Hok. destruct Hok as (Hcurve & Hn & Hb0 & Hg0).
    pose proof (Delay_range s now Hcurve) as Hd.
    assert (Hmax : MaximumMS (options c) * Millisecond <= tenSeconds) by (destruct Hn; dd_unfold; lia).
    assert (Hcatch : Millisecond <= CatchUp (options c) (Delay s now) (base c) <= 200 * Millisecond)
      by (apply CatchUp_range; auto; lia).
    rewrite Ht, Hgo. dd_unfold. lia.
Qed.

Lemma quiet_run_converges n c s now :
  ready c s now ->
  exists s', state (quiet_run n c now) = Some s' /\ base (quiet_run n c now) = base c
    /\ (n = O \/ forall t, now + Z.of_nat n * Second <= t -> Delay s' t = To s')
    /\ Z.abs (Delay s' (now + Z.of_nat n * Second) - base c)
       <= Z.max 0 (Z.abs (Delay s now - base c) - Z.of_nat n * Millisecond).
Proof.
  revert c s now. induction n as [|n IH]; intros c s now Hr.
  - exists s. destruct Hr as (_ & Hs & _). simpl. rewrite !Z.add_0_r. split_and!; auto. lia.
  - destruct (quiet_step c s now Hr) as (s1 & Hr1 & Hb & Hst & Hcu & Hend & Habs).
    destruct (IH _ _ _ Hr1) as (s' & Hs' & Hb' & Hto & Hle). cbn [quiet_run]. exists s'.
    replace (now + Z.of_nat (S n) * Second) with (now + Second + Z.of_nat n * Second) by lia.
    rewrite Hb in *. rewrite Hend in Hle. split_and!; auto.
    + right. destruct Hto as [->|?]; [|done]. simpl in Hs'. rewrite !Z.add_0_r.
      destruct Hr1 as (_ & Hs1 & _). assert (s' = s1) as -> by congruence.
      intros t Ht. apply Delay_end; [done|lia].
    + dd_unfold. lia.
Qed.

(** ** Properties *)

(** Normalised options stay within their bounds (catch-up of 1 to 200 ms
    per second, a maximum of at least the normal delay and, for a delay the
    settings allow, at most ten seconds), an absent automatic flag becomes
    [true], and normalising again changes nothing. *)
Theorem Normalize_bounds_idempotent (o : Options) (b : Z) :
  let n := Normalize o b in
  Normalize n b = n
  /\ Z.max 1 b <= MaximumMS n <= Z.max MaximumMSLimit b
  /\ 1 <= CatchUpMSPerSecond n <= 200
  /\ Enabled n = Enabled o
  /\ AutoCatchUp n = Some (Automatic o)
  /\ (MaximumMS o = 0 -> Jump n = true /\ MaximumMS n = Z.max MaximumMSLimit b).
Proof. apply Normalize_facts. Qed.

(** C25: whatever configurations, ticks and jumps a controller has seen, the
    delay it plays at is between zero and ten seconds and its computation never
    overflows.  From then on, through any ticks and any reconfigurations that
    keep the adaptive delay on, happening one after the other between [t1] and
    [t2], the delay never leaps: it is the same just before and just after each
    of them, and media advances at 0.95 to 1.2 times real time from [t1] to
    [t2], up to a nanosecond of rounding for each curve.  Jumps, and switching
    the adaptive delay on or off, are excepted: they move the delay at once. *)
Theorem reachable_delay_bounded (es later : list event) (s : State) (t1 t2 : time) :
  Forall valid es -> state (run es) = Some s ->
  (forall t, 0 <= Delay s t <= tenSeconds /\ Delay s t = exactDelay s t)
  /\ (Forall valid later -> Forall smooth later -> Enabled (options (run es)) = true ->
      ordered t1 later t2 ->
      (forall before e after, later = before ++ e :: after ->
         exists old new, state (run (es ++ before)) = Some old
           /\ state (run (es ++ before ++ [e])) = Some new
           /\ Delay new (at_time e) = Delay old (at_time e))
      /\ exists s', state (run (es ++ later)) = Some s'
           /\ let media := (t2 - Delay s' t2) - (t1 - Delay s t1) in
              let rounding := 100 * (1 + Z.of_nat (length later)) in
              95 * (t2 - t1) - rounding <= 100 * media <= 120 * (t2 - t1) + rounding).
Proof.
  intros Hv Hs. pose proof (run_ok es Hv) as Hok.
  assert (Hcurve : curve_ok s) by (unfold controller_ok in Hok; rewrite Hs in Hok; apply Hok).
  split; [intros t; split; [by apply Delay_range|by apply Delay_exact]|].
  intros Hvl Hsm Hen Hord. assert (Hc : carries (run es) s) by done.
  unfold run in *. split.
  - intros pre e post ->. apply Forall_app in Hvl as [Hv1 [Hve _]%Forall_cons].
    apply Forall_app in Hsm as [Hs1 [Hse _]%Forall_cons].
    assert (exists old, carries (fold_left apply_event pre (fold_left apply_event es zeroController)) old)
      as (old & Hold).
    { clear Hord. revert Hc. generalize (fold_left apply_event es zeroController) s.
      induction pre as [|x pre IH]; intros c s0 Hc; [by exists s0|].
      apply Forall_cons in Hv1 as [? ?]. apply Forall_cons in Hs1 as [? ?].
      destruct (smooth_event c s0 x) as (? & ? & _); eauto. }
    destruct (smooth_event _ _ e Hve Hse Hold) as (new & Hnew & Hcont).
    exists old, new. rewrite !fold_left_app. split_and!; [apply Hold|apply Hnew|done].
  - destruct (smooth_speed later _ s t1 t2 Hvl Hsm Hc Hord) as (s' & Hc' & Hlo & Hhi).
    exists s'. rewrite fold_left_app. split; [apply Hc'|]. cbv zeta. lia.
Qed.

(** A camera that grows for one tick, is given a shorter normal delay half a
    second into it, and falls back from there. *)
Lemma reachable_delay_bounded_witness :
  let on := mkOptions true 0 false 0 None in
  let es := [EConfigure 2000 on 10] in
  let later := [EStep (3 * Second) (400 * Millisecond); EConfigure 1500 on (3500 * Millisecond);
                EStep (4 * Second) 0] in
  exists s s', state (run es) = Some s /\ state (run (es ++ later)) = Some s'
    /\ Delay s (2 * Second) = 2000 * Millisecond /\ Delay s' (5 * Second) < Delay s' (4 * Second)
    /\ let media := (5 * Second - Delay s' (5 * Second)) - (2 * Second - Delay s (2 * Second)) in
       95 * (3 * Second) - 400 <= 100 * media <= 120 * (3 * Second) + 400.
Proof.
  intros on es later.
  assert (Hs : exists s, state (run es) = Some s /\ Delay s (2 * Second) = 2000 * Millisecond)
    by (eexists; split; [vm_compute; reflexivity|vm_compute; reflexivity]).
  assert (Hfall : exists x, state (run (es ++ later)) = Some x
                            /\ Delay x (5 * Second) < Delay x (4 * Second))
    by (eexists; split; [vm_compute; reflexivity|vm_compute; reflexivity]).
  destruct Hs as (s & Hs & Hd).
  destruct (reachable_delay_bounded es later s (2 * Second) (5 * Second)) as (_ & H).
  { repeat constructor; vm_compute; intros; discriminate. }
  { exact Hs. }
  destruct H as (_ & s' & Hs' & Hm).
  - repeat constructor; vm_compute; intros; discriminate.
  - repeat constructor.
  - vm_compute. reflexivity.
  - simpl. unfold Second, Millisecond. lia.
  - exists s, s'. split_and!; [exact Hs|exact Hs'|exact Hd| |exact Hm].
    destruct Hfall as (x & Hx & Hlt). rewrite Hx in Hs'. injection Hs' as <-. exact Hlt.
Defined.

(** A tick never makes the delay jump (the new curve starts at the current
    delay), and over the following second it grows by at most 50 ms, falls by
    at most the catch-up speed, and does not grow past the camera's maximum. *)
Theorem Step_continuous (es : list event) (now : time) (late : duration) (s s' : State) :
  Forall valid es -> state (run es) = Some s ->
  snd (Step (run es) now late) = Some s' ->
  Delay s' now = Delay s now
  /\ (s' <> s -> forall t,
        Delay s now - CatchUp (options (run es)) (Delay s now) (base (run es)) <= Delay s' t
        <= Z.max (Delay s now)
             (Z.min (Delay s now + 50 * Millisecond)
                (MaximumMS (options (run es)) * Millisecond))).
Proof.
  intros Hv Hs Hstep. pose proof (run_ok es Hv) as Hok. set (c := run es) in *.
  assert (Hok' : controller_ok (fst (Step c now late))) by auto with go.
  destruct (Before now (Cutoff s) || (tsub now (lastStep c) <? Second)) eqn:Hskip.
  { unfold Step in Hstep. rewrite Hs, Hskip in Hstep. simpl in Hstep. split; congruence. }
  bool_hyps. destruct (Enabled (options c)) eqn:Hen.
  2:{ unfold Step in Hstep. rewrite Hs, H, H0 in Hstep. cbn in Hstep. by rewrite Hen in Hstep. }
  destruct (Step_enabled c now late s) as (next & c' & E & Hs' & Ho & Hb & _ & _ & _ & _ & _ & Hst & Hf & _ & _ & Ht & Hg & _);
    auto; [apply Z.ltb_ge in H0; lia|].
  rewrite E in Hstep, Hok'. simpl in Hstep, Hok'. assert (next = s') as -> by congruence.
  unfold controller_ok in Hok'. rewrite Hs' in Hok'. destruct Hok' as (Hcurve & _).
  split; [rewrite <-Hf, <-Hst; by apply Delay_start|]. intros _ t.
  pose proof (Delay_between s' t Hcurve) as Hbt. rewrite Hf, Ht in Hbt.
  unfold controller_ok in Hok. rewrite Hs in Hok. destruct Hok as (Hc & Hn & Hb0 & Hg0).
  pose proof (Delay_range s now Hc).
  assert (Hmax : MaximumMS (options c) * Millisecond <= tenSeconds) by (destruct Hn; dd_unfold; lia).
  assert (Hcatch : Millisecond <= CatchUp (options c) (Delay s now) (base c) <= 200 * Millisecond)
    by (apply CatchUp_range; auto; lia).
  dd_unfold. lia.
Qed.

Lemma Step_continuous_witness :
  let es := [EConfigure 2000 (mkOptions true 0 false 0 None) 10] in
  exists s s', state (run es) = Some s
    /\ snd (Step (run es) (3 * Second) (400 * Millisecond)) = Some s'
    /\ Delay s' (3 * Second) = Delay s (3 * Second) /\ s' <> s
    /\ Delay s' (9 * Second) = 2050 * Millisecond.
Proof.
  intros es. eexists _, _. split; [vm_compute; reflexivity|].
  split; [vm_compute; reflexivity|]. split; [|split; [discriminate|vm_compute; reflexivity]].
  apply (Step_continuous es (3 * Second) (400 * Millisecond) _ _).
  - repeat constructor; vm_compute; intros; discriminate.
  - vm_compute. reflexivity.
  - vm_compute. reflexivity.
Defined.

(** C37: once packets have stopped arriving late and the quiet period after
    the last late one (and after a jump) is over, ticks a second apart bring an
    enabled camera's delay back to its normal delay: after ten thousand ticks (a
    millisecond a tick, the slowest catch-up there is), or more, the delay is the
    normal delay from a second after the last tick on. *)
Theorem quiet_delay_returns (es : list event) (s : State) (now : time) (n : nat) :
  Forall valid es -> state (run es) = Some s -> Enabled (options (run es)) = true ->
  Cutoff s <= now -> quietUntil (run es) < now -> lastStep (run es) + Second <= now ->
  10000 <= Z.of_nat n ->
  exists s', state (quiet_run n (run es) now) = Some s'
    /\ forall t, now + Z.of_nat n * Second <= t -> Delay s' t = base (run es).
Proof.
  intros Hv Hs Hen Hcut Hq Hl Hn. pose proof (run_ok es Hv) as Hok.
  destruct (quiet_run_converges n (run es) s now) as (s' & Hs' & Hb & Hto & Hle).
  { split_and!; auto. }
  exists s'. split; [done|]. destruct Hto as [->|Hto]; [lia|]. intros t Ht.
  rewrite (Hto t Ht), <-(Hto _ (Z.le_refl _)).
  unfold controller_ok in Hok. rewrite Hs in Hok. destruct Hok as (Hc & Hnorm & Hb0 & Hg).
  pose proof (Delay_range s now Hc).
  assert (MaximumMS (options (run es)) * Millisecond <= tenSeconds) by (destruct Hnorm; dd_unfold; lia).
  dd_unfold. lia.
Qed.

Lemma quiet_delay_returns_witness :
  let es := [EConfigure 2000 (mkOptions true 0 false 0 None) 10; EStep (3 * Second) (400 * Millisecond)] in
  exists s', state (quiet_run (Z.to_nat 10000) (run es) (20 * Second)) = Some s'
    /\ forall t, 10020 * Second <= t -> Delay s' t = 2000 * Millisecond.
Proof.
  intros es.
  assert (Hs : exists s, state (run es) = Some s /\ Cutoff s = 0) by (eexists; vm_compute; split; reflexivity).
  destruct Hs as (s & Hs & Hcut).
  apply (quiet_delay_returns es s (20 * Second) (Z.to_nat 10000)).
  - repeat constructor; vm_compute; intros; discriminate.
  - exact Hs.
  - vm_compute. reflexivity.
  - rewrite Hcut. vm_compute. discriminate.
  - vm_compute. reflexivity.
  - vm_compute. discriminate.
  - lia.
Defined.

End DynamicDelay.
