(* ===== verification/Buffer.v ===== *)
(** * The playout buffer of one track
      ([src/internal/relay/delay.go], with the buffer's parts of [clock.go] and
      [playback.go])

    Every method holds the buffer's mutex from its first to its last statement,
    except that [Pop] releases it while it waits, so an operation is one
    transition of the [Buffer] record and [Pop] is one [pop_turn] per round of
    its loop.  The adaptive controller is shared by the tracks of a camera: it
    is an argument, and [Push], which may jump, returns it.  A reading of the
    clock is an argument too, one per call of [time.Now] or [time.Until], in
    program order.

    [None] is a Go panic: an index out of range of the queue, or a division by
    a clock rate of zero.  The condition variable and the timer are not state;
    [Push] returns whether it signals. *)

From S2P Require Import Prelude GoFloat Keyframe Heap DynamicDelay.

Module Buffer.
Import Heap.

Record Buffer := mkBuffer {
  queue : list buffered;
  closed : bool;
  target : duration;
  clockRate : Z;
  mime : string;
  based : bool;
  baseRTP : Z;
  baseWall : time;
  senderRTP : Z;
  senderNTP : Z;
  clockReset : bool;
  clockEpoch : Z;
  resetPending : bool;
  resetSequence : Z;
  correctionShift : duration;
  correctionRTP : Z;
  correctionMS : F64.float64;
  catchUp : bool;
  keyframe : bool;                (* whether a callback was given *)
  arrived : Z;
  group : time;
  groupGap : duration;
  frameGap : duration;
  nextSlot : time;
  late : Z;
  dropped : Z;
  dynamic : option nat;           (* the stream whose controller it follows *)
  stream : option nat;
  recoveryAt : time;
  shift : duration;
  cutoff : time;
  peakLate : duration
}.

#[export] Instance eta_Buffer : Eta Buffer := fun b =>
  mkBuffer (queue b) (closed b) (target b) (clockRate b) (mime b) (based b) (baseRTP b)
    (baseWall b) (senderRTP b) (senderNTP b) (clockReset b) (clockEpoch b) (resetPending b)
    (resetSequence b) (correctionShift b) (correctionRTP b) (correctionMS b) (catchUp b)
    (keyframe b) (arrived b) (group b) (groupGap b) (frameGap b) (nextSlot b) (late b)
    (dropped b) (dynamic b) (stream b) (recoveryAt b) (shift b) (cutoff b) (peakLate b).

Definition hysteresis : duration := 2 * Second.
Definition minMargin : duration := 250 * Millisecond.
Definition maxPaceLag : duration := 33 * Millisecond.

Definition correctionMargin (target : duration) : duration :=
  Z.min hysteresis (Z.max target minMargin).

Definition NewBuffer (target : duration) (clockRate : Z) (mime : string) (keyframe : bool) : Buffer :=
  mkBuffer [] false target clockRate mime false 0 zeroTime 0 0 false 0 false 0 0 0
    (F64.of_Z 0) false keyframe 0 zeroTime 0 0 zeroTime 0 0 None None zeroTime 0 zeroTime 0.

(** ** RTP clock *)

(** [^diff + 1] on [uint32] *)
Definition neg32 (diff : Z) : Z := u32 (4294967295 - diff + 1).

Definition rtpDelta (timestamp base : Z) : Z :=
  let diff := u32 (timestamp - base) in
  if 2147483647 <? diff then - neg32 diff else diff.

(** [time.Duration(ticks) * time.Second / time.Duration(rate)] *)
Definition ticksDuration (ticks rate : Z) : option duration :=
  if rate =? 0 then None else Some (dquot (dmul ticks Second) rate).

Definition playoutOf (b : Buffer) (timestamp : Z) : option time :=
  offset ← ticksDuration (rtpDelta timestamp (baseRTP b)) (clockRate b);
  Some (tadd (tadd (baseWall b) offset) (target b)).

(** ** Depth *)

(** [newestLocked]; [None] is the zero [buffered], whose packet is [nil]. *)
Definition newestLocked (b : Buffer) : option buffered :=
  fold_left (λ newest item,
    if After (playAt item) (match newest with Some n => playAt n | None => zeroTime end)
    then Some item else newest) (queue b) None.

(** [depthLocked]; [now] is the reading of [time.Until]. *)
Definition depthLocked (b : Buffer) (now : time) : duration :=
  Z.max 0 (tsub (match newestLocked b with Some n => playAt n | None => zeroTime end) now).

Definition dropAllLocked (b : Buffer) : Buffer :=
  b <| dropped := u64 (dropped b + Z.of_nat (length (queue b))) |> <| queue := [] |>.

(** ** The shared controller *)
Definition dynamicOffsetLocked (b : Buffer) (c : DynamicDelay.Controller) (now : time)
  : Buffer * duration :=
  match dynamic b, DynamicDelay.state c with
  | Some _, Some s =>
      let b :=
        if DynamicDelay.Cutoff s =? cutoff b then b
        else
          let b := b <| baseWall := tadd (baseWall b) (dsub (DynamicDelay.Shift s) (shift b)) |>
                     <| shift := DynamicDelay.Shift s |> <| cutoff := DynamicDelay.Cutoff s |> in
          (dropAllLocked b) <| group := zeroTime |> <| catchUp := false |> <| peakLate := 0 |> in
      (b, dsub (DynamicDelay.Delay s now) (target b))
  | _, _ => (b, 0)
  end.

Definition staleResetPacketLocked (b : Buffer) (sequence : Z) (playAt now : time)
    (offset : duration) : Buffer * bool :=
  if clockEpoch b =? 0 then (b, false)
  else if resetPending b || (32768 <=? u16 (sequence - resetSequence b)) then
    let margin := correctionMargin (target b) in
    (b, (dadd (target b) margin <? tsub playAt now)
        || (negb (resetPending b) && (margin <? tsub now (tadd playAt offset))))
  else (b <| resetSequence := sequence |>, false).

(** Whether a jump is due on this packet. *)
Definition jumpsAt (b : Buffer) (c : DynamicDelay.Controller) (pkt : Packet) : option bool :=
  if bool_decide (dynamic b <> None) && keyframe b then
    match DynamicDelay.state c with
    | Some s =>
        if DynamicDelay.Pending s then Keyframe.isKeyframe (mime b) (Payload pkt) else Some false
    | None => Some false
    end
  else Some false.

Definition dynamicArrivalLocked (b : Buffer) (c : DynamicDelay.Controller) (pkt : Packet) (now : time)
  : option (Buffer * DynamicDelay.Controller * time * duration * bool) :=
  let '(b, offset) := dynamicOffsetLocked b c now in
  playAt ← playoutOf b (Timestamp pkt);
  let '(b, stale) :=
    if Before (tadd playAt (dsub 0 (target b))) (cutoff b) then (b, true)
    else staleResetPacketLocked b (SequenceNumber pkt) playAt now offset in
  if stale then Some (b, c, playAt, offset, true)
  else
    jump ← jumpsAt b c pkt;
    if (jump : bool) then
      let c := DynamicDelay.JumpTo c now (tadd playAt (dsub 0 (target b))) in
      let '(b, offset) := dynamicOffsetLocked b c now in
      playAt ← playoutOf b (Timestamp pkt);
      Some (b, c, playAt, offset, false)
    else Some (b, c, playAt, offset, false).

(** ** [Push]

    [t0] and [t1] are the readings of the clock on the first packet, [now] the
    one every packet makes.  The result says whether the reader is signalled. *)

(** The anchor of the first packet of a track. *)
Definition anchor (b : Buffer) (c : DynamicDelay.Controller) (pkt : Packet) (t0 t1 : time) : Buffer :=
  if based b then b
  else
    let '(b, _) := dynamicOffsetLocked b c t0 in
    b <| baseRTP := Timestamp pkt |> <| baseWall := t1 |> <| based := true |>.

(** The end of [Push]: the anchor moves with a long stream, then the packet is
    queued. *)
Definition enqueue (b : Buffer) (pkt : Packet) (playAt : time) : option (Buffer * bool) :=
  let b :=
    if resetPending b then b <| resetPending := false |> <| resetSequence := SequenceNumber pkt |>
    else b in
  let b :=
    if clockRate b * 60 <? rtpDelta (Timestamp pkt) (baseRTP b)
    then b <| baseWall := tadd playAt (dsub 0 (target b)) |> <| baseRTP := Timestamp pkt |>
    else b in
  let b := b <| arrived := u64 (arrived b + 1) |> in
  '(q, first) ← push (queue b) (Buffered pkt playAt (arrived b));
  Some (b <| queue := q |>, first).

Definition Push (b : Buffer) (c : DynamicDelay.Controller) (pkt : Packet) (t0 t1 now : time)
  : option (Buffer * DynamicDelay.Controller * bool) :=
  if closed b then Some (b, c, false)
  else
    let b := anchor b c pkt t0 t1 in
    '(b, c, playAt, offset, stale) ← dynamicArrivalLocked b c pkt now;
    if (stale : bool) then Some (b <| dropped := u64 (dropped b + 1) |>, c, false)
    else
      let lateBy := tsub now (tadd playAt offset) in
      let b :=
        if 0 <? lateBy
        then b <| late := u64 (late b + 1) |> <| peakLate := Z.max (peakLate b) lateBy |>
        else b in
      key ← (if catchUp b then Keyframe.isKeyframe (mime b) (Payload pkt) else Some true);
      if catchUp b && negb key then Some (b <| dropped := u64 (dropped b + 1) |>, c, false)
      else
        let b := if catchUp b then dropAllLocked (b <| catchUp := false |>) else b in
        '(b, first) ← enqueue b pkt playAt;
        Some (b, c, first).

(** ** Pacing *)
Definition lateAllowanceLocked (b : Buffer) : duration :=
  if frameGap b <=? 0 then maxPaceLag else Z.min (frameGap b) maxPaceLag.

(** The number of queued packets due at [t]. *)
Definition dueAt (b : Buffer) (t : time) : Z :=
  Z.of_nat (length (filter (λ item, playAt item = t) (queue b))).

Definition startGroupLocked (b : Buffer) (now t : time) : Buffer :=
  let b :=
    if negb (IsZero (group b)) then
      let gap := tsub t (group b) in
      if (0 <? gap) && (gap <? Second) then
        b <| frameGap :=
               if frameGap b =? 0 then gap
               else dquot (dadd (dmul 3 (frameGap b)) gap) 4 |>
      else b
    else b in
  let packets := dueAt b t in
  let b := b <| group := t |> <| nextSlot := now |> <| groupGap := 0 |> in
  if (1 <? packets) && (0 <? frameGap b)
  then b <| groupGap := dquot (dquot (dmul (frameGap b) 4) 5) packets |>
  else b.

(** [paceHoldLocked]: the buffer after it and the wait. *)
Definition paceHoldLocked (b : Buffer) (now : time) (lateBy : duration) : option (Buffer * duration) :=
  head ← queue b !! 0%nat;
  let b := if playAt head =? group b then b else startGroupLocked b now (playAt head) in
  if lateAllowanceLocked b <? lateBy then Some (b <| nextSlot := now |>, 0)
  else
    let hold := tsub (nextSlot b) now in
    Some (b, if 0 <? hold then Z.min hold (lateAllowanceLocked b) else 0).

Definition chargePaceLocked (b : Buffer) (now : time) : Buffer :=
  if groupGap b <=? 0 then b
  else
    let b :=
      if Before (nextSlot b) (tadd now (dsub 0 (lateAllowanceLocked b)))
      then b <| nextSlot := now |> else b in
    b <| nextSlot := tadd (nextSlot b) (groupGap b) |>.

(** ** One round of the loop of [Pop] *)
Inductive turn :=
  | Ended                      (* closed and drained: [Pop] returns false *)
  | Sleep                      (* [ready.Wait()] on an empty queue *)
  | SleepFor (d : duration)    (* [waitUntilLocked] *)
  | Again                      (* a jump emptied the queue *)
  | Deliver (pkt : Packet).

Definition pop_turn (b : Buffer) (c : DynamicDelay.Controller) (now : time) : option (Buffer * turn) :=
  if closed b && (length (queue b) =? 0)%nat then Some (b, Ended)
  else if (length (queue b) =? 0)%nat then Some (b, Sleep)
  else
    let '(b, offset) := dynamicOffsetLocked b c now in
    if (length (queue b) =? 0)%nat then Some (b, Again)
    else
      head ← queue b !! 0%nat;
      let wait := tsub (tadd (playAt head) offset) now in
      if wait <=? 0 then
        '(b, hold) ← paceHoldLocked b now (dsub 0 wait);
        if 0 <? hold then Some (b, SleepFor hold)
        else
          '(top, q) ← pop (queue b);
          Some (chargePaceLocked (b <| queue := q |>) now, Deliver (pkt top))
      else Some (b, SleepFor wait).

(** ** The rest of the API *)
Definition Stats (b : Buffer) : Z * Z := (late b, dropped b).

(** [item.playAt = item.playAt.Add(d)] for every queued packet. *)
Definition shiftQueue (b : Buffer) (d : duration) : Buffer := b <| queue := shift_item d <$> queue b |>.

Definition SetTarget (b : Buffer) (newTarget : duration) : Buffer :=
  let d := dsub newTarget (target b) in
  shiftQueue (b <| target := newTarget |>) d.

(** [Close]; [now] is the reading of [time.Until]. *)
Definition Close (b : Buffer) (now : time) : Buffer :=
  let b := b <| closed := true |> in
  if correctionMargin (target b) <? dsub (depthLocked b now) (target b) then dropAllLocked b else b.

(** ** Sender reports *)
Definition SenderReport (b : Buffer) (timestamp ntp : Z) : option Buffer :=
  let delta := u64 (ntp - senderNTP b) in
  if (ntp =? 0) || (negb (senderNTP b =? 0) && ((delta =? 0) || (9223372036854775807 <? delta)))
  then Some b
  else
    let ticks := rtpDelta timestamp (senderRTP b) in
    let elapsed := dadd (dmul (Z.shiftr delta 32) Second)
                     (dquot (dmul (Z.land delta 4294967295) Second) 4294967296) in
    played ← ticksDuration ticks (clockRate b);
    let drift := dsub elapsed played in
    let b :=
      if negb (senderNTP b =? 0)
         && ((ticks <? 0) || (correctionMargin (target b) <? dabs drift))
      then b <| clockReset := true |> else b in
    Some (b <| senderRTP := timestamp |> <| senderNTP := ntp |>).

Definition senderTimeMS (b : Buffer) (timestamp : Z) : F64.float64 :=
  F64.add
    (F64.add (F64.mul (F64.of_Z (Z.shiftr (senderNTP b) 32)) (F64.of_Z 1000))
       (F64.div (F64.mul (F64.of_Z (Z.land (senderNTP b) 4294967295)) (F64.of_Z 1000))
          (F64.of_Z 4294967296)))
    (F64.div (F64.mul (F64.of_Z (rtpDelta timestamp (senderRTP b))) (F64.of_Z 1000))
       (F64.of_Z (clockRate b))).

(** [time.Duration(ms * float64(time.Millisecond))] *)
Definition durationOfMS (ms : F64.float64) : duration :=
  F64.to_i64 (F64.mul ms (F64.of_Z Millisecond)).

Definition senderCorrectionLocked (b : Buffer) : Buffer * duration :=
  if correctionShift b =? 0 then (b, 0)
  else
    let rollback := durationOfMS (F64.sub (correctionMS b) (senderTimeMS b (correctionRTP b))) in
    if correctionMargin (target b) <? rollback
    then (b <| correctionShift := 0 |>, Z.min rollback (correctionShift b))
    else if clockReset b || (0 <=? rtpDelta (senderRTP b) (correctionRTP b))
    then (b <| correctionShift := 0 |>, 0)
    else (b, 0).

Definition moveClockLocked (b : Buffer) (d : duration) (reset : bool) : Buffer :=
  let b := b <| baseWall := tadd (baseWall b) d |> in
  let b := if reset then (dropAllLocked b) <| catchUp := true |> else shiftQueue b d in
  b <| group := zeroTime |> <| peakLate := 0 |>.

Definition alignSenderClockLocked (b : Buffer) (base : time) (established : bool) : Buffer :=
  let d := tsub base (baseWall b) in
  if (dabs d <=? 50 * Millisecond) && negb (clockReset b) then b
  else
    let reset := clockReset b in
    let b := moveClockLocked b d
               (reset || (established && (correctionMargin (target b) <? dabs d))) in
    if reset
    then b <| clockEpoch := u64 (clockEpoch b + 1) |> <| clockReset := false |> <| resetPending := true |>
    else b.

(** [dynamicdelay.Clock] *)
Record Clock := mkClock {
  Kind : string; MIME : string; Rate : Z; ClockTimestamp : Z; ReferenceMS : F64.float64; Epoch : Z
}.

(** [Time.UnixMicro]; the Unix epoch is 62135596800 seconds after the zero time. *)
Definition UnixMicro (t : time) : Z := i64 ((t - 62135596800 * Second) / 1000).

Definition playbackClockLocked (b : Buffer) (senderClocks : bool) : option Clock :=
  let stamp := if senderClocks then senderRTP b else baseRTP b in
  let stamp := match queue b with item :: _ => Timestamp (pkt item) | [] => stamp end in
  let '(kind, _) := Cut (mime b) (Ascii.ascii_of_nat 47) (* '/' *) in
  referenceMS ←
    (if senderClocks then Some (senderTimeMS b stamp)
     else
       at_ ← playoutOf b stamp;
       let reference := tadd at_ (dsub (dsub 0 (target b)) (shift b)) in
       Some (F64.div (F64.of_Z (UnixMicro reference)) (F64.of_Z 1000)));
  Some (mkClock (ToLower kind) (mime b) (clockRate b) stamp referenceMS (clockEpoch b)).

(** ** Invariant *)

(** The heap is a heap, the clock rate is one a codec has, the target is one the
    settings allow, and the learned cadence is below a second. *)
Record buffer_ok (b : Buffer) : Prop := BufferOK {
  ok_heap : heap_ok (queue b);
  ok_rate : 0 < clockRate b < 4294967296;
  ok_target : 0 <= target b <= DynamicDelay.tenSeconds;
  ok_frame : 0 <= frameGap b < Second;
  ok_gap : 0 <= groupGap b < Second;
  ok_dropped : is_u64 (dropped b)
}.

(** Everything [buffer_ok] reads but the queue and the count of drops. *)
Definition same_frame (b b' : Buffer) : Prop :=
  clockRate b' = clockRate b /\ target b' = target b /\ frameGap b' = frameGap b
  /\ groupGap b' = groupGap b.

(** Two buffers that differ in nothing the invariant or the accounts read. *)
Definition quiet (b b' : Buffer) : Prop :=
  queue b' = queue b /\ dropped b' = dropped b /\ same_frame b b'.

(** Packets in [inn] come in, packets in [out] go out, and the rest of what was
    or came in is still queued or was counted as dropped. *)
Definition accounts (b b' : Buffer) (inn out : list Packet) : Prop :=
  exists gone, inn ++ (pkt <$> queue b) ≡ₚ out ++ (pkt <$> queue b') ++ gone
    /\ dropped b' = u64 (dropped b + Z.of_nat (length gone)).

(** ** What a sequence of calls can do to a buffer

    [OControl] stands for any change another track or the settings make to the
    shared controller, [OAttach] for the assignments of [Track] and
    [ConfigureDelay], [OMove] for [correctClocks]. *)
Inductive op :=
  | OPush (pkt : Packet) (t0 t1 now : time)
  | OPop (now : time)
  | OSetTarget (d : duration)
  | OClose (now : time)
  | OReport (timestamp ntp : Z)
  | OCorrection
  | OAlign (base : time) (established : bool)
  | OMove (d : duration) (reset : bool)
  | OSample (now : time)
  | OAttach (s : nat) (d : duration) (t : time)
  | OControl (c : DynamicDelay.Controller).

Definition valid (o : op) : Prop :=
  match o with OSetTarget d => 0 <= d <= DynamicDelay.tenSeconds | _ => True end.

(** One call: the buffer, the controller, and the packets that came in and went
    out. *)
Definition step (b : Buffer) (c : DynamicDelay.Controller) (o : op)
  : option (Buffer * DynamicDelay.Controller * list Packet * list Packet) :=
  match o with
  | OPush p t0 t1 now =>
      '(b', c', _) ← Push b c p t0 t1 now;
      Some (b', c', if closed b then [] else [p], [])
  | OPop now =>
      '(b', t) ← pop_turn b c now;
      Some (b', c, [], match t with Deliver p => [p] | _ => [] end)
  | OSetTarget d => Some (SetTarget b d, c, [], [])
  | OClose now => Some (Close b now, c, [], [])
  | OReport ts ntp => b' ← SenderReport b ts ntp; Some (b', c, [], [])
  | OCorrection => Some ((senderCorrectionLocked b).1, c, [], [])
  | OAlign base e => Some (alignSenderClockLocked b base e, c, [], [])
  | OMove d r => Some (moveClockLocked b d r, c, [], [])
  | OSample now => Some ((dynamicOffsetLocked b c now).1 <| peakLate := 0 |>, c, [], [])
  | OAttach s d t => Some (b <| dynamic := Some s |> <| shift := d |> <| cutoff := t |>, c, [], [])
  | OControl c' => Some (b, c', [], [])
  end.

Fixpoint run (b : Buffer) (c : DynamicDelay.Controller) (ops : list op)
  : option (Buffer * DynamicDelay.Controller * list Packet * list Packet) :=
  match ops with
  | [] => Some (b, c, [], [])
  | o :: ops =>
      '(b, c, inn, out) ← step b c o;
      '(b, c, ins, outs) ← run b c ops;
      Some (b, c, inn ++ ins, out ++ outs)
  end.

(** ** Lemmas: the RTP clock *)
Lemma rtpDelta_spec t s : -2147483648 <= rtpDelta t s < 2147483648 /\ u32 (rtpDelta t s) = u32 (t - s).
Proof.
  unfold rtpDelta, neg32. pose proof (u32_range (t - s)) as H. unfold is_u32 in H.
  destruct (2147483647 <? u32 (t - s)) eqn:E.
  - rewrite (u32_small (4294967295 - _ + 1)) by (unfold is_u32; lia). split; [lia|].
    unfold u32 in *. Z.div_mod_to_equations. lia.
  - split; [lia|]. apply u32_small. unfold is_u32. lia.
Qed.

Lemma rtpDelta_unique t s d :
  -2147483648 <= d < 2147483648 -> u32 d = u32 (t - s) -> rtpDelta t s = d.
Proof.
  pose proof (rtpDelta_spec t s) as [Hr He]. unfold u32 in *. intros Hd E.
  rewrite <-He in E. Z.div_mod_to_equations. lia.
Qed.

Lemma ticksDuration_exact ticks rate :
  0 < rate -> -4294967296 <= ticks <= 4294967296 ->
  ticksDuration ticks rate = Some (Z.quot (ticks * Second) rate)
  /\ -4294967296 * Second <= Z.quot (ticks * Second) rate <= 4294967296 * Second.
Proof.
  intros Hr Ht. unfold ticksDuration. destruct (Z.eqb_spec rate 0); [lia|].
  assert (Hb : -4294967296 * Second <= Z.quot (ticks * Second) rate <= 4294967296 * Second).
  { unfold Second in *. split.
    - apply Z.quot_le_lower_bound; [lia|]. nia.
    - apply Z.quot_le_upper_bound; [lia|]. nia. }
  split; [|done]. unfold dquot, dmul.
  rewrite (i64_small (ticks * Second)) by (unfold is_i64, Second in *; lia).
  rewrite i64_small; [done|]. unfold is_i64, Second in *. lia.
Qed.

(** The playout time of a timestamp on the buffer's current mapping. *)
Definition mediaAt (b : Buffer) (ts : Z) : time :=
  baseWall b + Z.quot (rtpDelta ts (baseRTP b) * Second) (clockRate b).

Lemma playoutOf_exact b ts : buffer_ok b -> playoutOf b ts = Some (mediaAt b ts + target b).
Proof.
  intros Hok. unfold playoutOf, mediaAt. pose proof (rtpDelta_spec ts (baseRTP b)) as [? _].
  destruct (ticksDuration_exact (rtpDelta ts (baseRTP b)) (clockRate b)) as [-> _];
    [apply Hok|lia|]. done.
Qed.

(** ** Lemmas: accounts *)
Lemma accounts_trans b1 b2 b3 i1 o1 i2 o2 :
  accounts b1 b2 i1 o1 -> accounts b2 b3 i2 o2 -> accounts b1 b3 (i1 ++ i2) (o1 ++ o2).
Proof.
  intros (g1 & P1 & D1) (g2 & P2 & D2). exists (g1 ++ g2). split.
  - trans (i2 ++ i1 ++ (pkt <$> queue b1)); [solve_Permutation|]. rewrite P1.
    trans ((i2 ++ (pkt <$> queue b2)) ++ o1 ++ g1); [solve_Permutation|].
    rewrite P2. solve_Permutation.
  - rewrite D2, D1, length_app. unfold u64. rewrite Zplus_mod_idemp_l. f_equal. lia.
Qed.

Lemma quiet_refl b : quiet b b.
Proof. by split_and!. Qed.

Lemma quiet_trans b b1 b2 : quiet b b1 -> quiet b1 b2 -> quiet b b2.
Proof. unfold quiet, same_frame. intros (?&?&?&?&?&?) (?&?&?&?&?&?). split_and!; congruence. Qed.

Lemma quiet_accounts b b' : buffer_ok b -> quiet b b' -> accounts b b' [] [].
Proof.
  intros Hok (Hq & Hd & _). exists []. rewrite Hq, Hd, app_nil_r. split; [done|].
  rewrite Z.add_0_r. symmetry. apply u64_small, Hok.
Qed.

Lemma quiet_ok b b' : buffer_ok b -> quiet b b' -> buffer_ok b'.
Proof.
  intros [] (Hq & Hd & Hr & Ht & Hf & Hg).
  by constructor; rewrite ?Hq, ?Hd, ?Hr, ?Ht, ?Hf, ?Hg.
Qed.

(** What an operation may do: keep the invariant and account for packets. *)
Definition fine (b b' : Buffer) (inn out : list Packet) : Prop :=
  buffer_ok b' /\ accounts b b' inn out.

Lemma fine_quiet b b' : buffer_ok b -> quiet b b' -> fine b b' [] [].
Proof. split; [by eapply quiet_ok|by apply quiet_accounts]. Qed.

Lemma fine_trans b1 b2 b3 i1 o1 i2 o2 :
  fine b1 b2 i1 o1 -> fine b2 b3 i2 o2 -> fine b1 b3 (i1 ++ i2) (o1 ++ o2).
Proof. intros [_ A1] [Ok A2]. split; [done|]. by eapply accounts_trans. Qed.

(** A quiet change after, or before, one that is accounted for. *)
Lemma fine_then b1 b2 b3 i o : fine b1 b2 i o -> quiet b2 b3 -> fine b1 b3 i o.
Proof.
  intros F Q. rewrite <-(app_nil_r i), <-(app_nil_r o).
  eapply fine_trans; [done|]. apply fine_quiet; [apply F|done].
Qed.

Lemma fine_after b1 b2 b3 i o : buffer_ok b1 -> quiet b1 b2 -> fine b2 b3 i o -> fine b1 b3 i o.
Proof. intros Ok Q F. apply (fine_trans b1 b2 b3 [] [] i o); [by apply fine_quiet|done]. Qed.

Lemma fine_dropAll b : buffer_ok b -> fine b (dropAllLocked b) [] [].
Proof.
  intros Hok. split.
  - destruct Hok. by constructor; cbn; auto with go.
  - exists (pkt <$> queue b). split; [done|]. cbn. by rewrite length_fmap.
Qed.

Lemma fine_shift b d : buffer_ok b -> fine b (shiftQueue b d) [] [].
Proof.
  intros Hok. split.
  - destruct Hok. by constructor; cbn; auto with go.
  - exists []. cbn. rewrite app_nil_r, <-list_fmap_compose. split; [done|].
    rewrite Z.add_0_r. symmetry. apply u64_small, Hok.
Qed.

(** A pushed heap is a heap. *)
Lemma push_heap h item h' first : push h item = Some (h', first) -> heap_ok h -> heap_ok h'.
Proof.
  intros E Hok. destruct (push_spec h item Hok) as (h1 & f & E' & Hh & _).
  rewrite E in E'. by simplify_eq.
Qed.

(** ** Lemmas: every operation *)
Ltac quiet := by split_and!.

Lemma fine_refl b : buffer_ok b -> fine b b [] [].
Proof. intros. apply fine_quiet; [done|apply quiet_refl]. Qed.

Lemma fine_dynamicOffset b c now : buffer_ok b -> fine b (dynamicOffsetLocked b c now).1 [] [].
Proof.
  intros Hok. unfold dynamicOffsetLocked. destruct (dynamic b), (DynamicDelay.state c) as [s|];
    simpl; try by apply fine_refl.
  destruct (_ =? _); [by apply fine_refl|].
  eapply fine_then; [eapply fine_after; [done| |apply fine_dropAll; eapply quiet_ok; [done|]]|]; quiet.
Qed.

Lemma fine_anchor b c p t0 t1 : buffer_ok b -> fine b (anchor b c p t0 t1) [] [].
Proof.
  intros Hok. unfold anchor. destruct (based b); [by apply fine_refl|].
  pose proof (fine_dynamicOffset b c t0 Hok). destruct (dynamicOffsetLocked b c t0).
  eapply fine_then; [done|]. quiet.
Qed.

Lemma quiet_staleReset b q t now o : quiet b (staleResetPacketLocked b q t now o).1.
Proof. unfold staleResetPacketLocked. cases_if; quiet. Qed.

Lemma jumpsAt_total b c p : is_Some (jumpsAt b c p).
Proof.
  unfold jumpsAt. destruct (_ && _); [|eauto]. destruct (DynamicDelay.state c) as [s|]; [|eauto].
  destruct (DynamicDelay.Pending s); [apply Keyframe.isKeyframe_total|eauto].
Qed.

Lemma dynamicArrival_total b c p now :
  buffer_ok b ->
  exists b' c' t o stale, dynamicArrivalLocked b c p now = Some (b', c', t, o, stale)
    /\ fine b b' [] [] /\ t = mediaAt b' (Timestamp p) + target b'.
Proof.
  intros Hok. unfold dynamicArrivalLocked. pose proof (fine_dynamicOffset b c now Hok) as F1.
  destruct (dynamicOffsetLocked b c now) as [b1 o1]. simpl in F1.
  rewrite (playoutOf_exact b1) by apply F1. obind.
  set (t := mediaAt b1 (Timestamp p) + target b1).
  set (r := if Before _ _ then _ else _).
  assert (Hq : quiet b1 r.1 /\ mediaAt r.1 = mediaAt b1).
  { subst r. destruct (Before _ _); [split; [apply quiet_refl|done]|].
    split; [apply quiet_staleReset|]. unfold staleResetPacketLocked. by cases_if. }
  destruct r as [b2 stale]. simpl in Hq. destruct Hq as [Q Hm].
  assert (F2 : fine b b2 [] []) by (by eapply fine_then).
  assert (Ht : t = mediaAt b2 (Timestamp p) + target b2).
  { rewrite Hm. destruct Q as (_ & _ & _ & -> & _). done. }
  destruct stale; [by eexists _, _, _, _, _|].
  destruct (jumpsAt_total b2 c p) as [[] ->]; obind; [|by eexists _, _, _, _, _].
  set (c2 := DynamicDelay.JumpTo _ _ _).
  pose proof (fine_dynamicOffset b2 c2 now (proj1 F2)) as F3.
  destruct (dynamicOffsetLocked b2 c2 now) as [b3 o3]. simpl in F3.
  rewrite (playoutOf_exact b3) by apply F3. obind. eexists _, _, _, _, _. split; [done|].
  split; [|done]. apply (fine_trans b b2 b3 [] [] [] []); done.
Qed.

Lemma enqueue_total b p t :
  buffer_ok b ->
  exists b' first, enqueue b p t = Some (b', first) /\ fine b b' [p] []
    /\ exists item, pkt item = p /\ playAt item = t /\ queue b' ≡ₚ item :: queue b
         /\ queue b' !! 0%nat = if first then Some item else queue b !! 0%nat.
Proof.
  intros Hok. unfold enqueue. set (b1 := if resetPending b then _ else _).
  assert (Q1 : quiet b b1) by (subst b1; destruct (resetPending b); quiet).
  set (b2 := if _ <? _ then _ else _).
  assert (Q2 : quiet b1 b2) by (subst b2; destruct (_ <? _); quiet).
  set (b3 := b2 <| arrived := _ |>). assert (Q3 : quiet b2 b3) by quiet.
  assert (Q : quiet b b3).
  { by eapply quiet_trans; [eapply quiet_trans|]. }
  clearbody b3. clear Q1 Q2 Q3. set (item := Buffered p t (arrived b3)).
  assert (Hok3 : buffer_ok b3) by (by eapply quiet_ok).
  destruct (push_spec (queue b3) item (ok_heap _ Hok3)) as (q & first & -> & Hh & Hp & Hroot).
  obind. destruct Q as (Hq & Hd & Hs). eexists _, _. split; [done|]. split.
  - split; [destruct Hok3; by constructor|]. exists []. cbn. rewrite Hp, Hq, app_nil_r. split; [done|].
    rewrite Hd, Z.add_0_r. symmetry. apply u64_small, Hok.
  - exists item. rewrite Hq in *. cbn. by destruct first.
Qed.

Lemma enqueue_frame b p t b' first :
  enqueue b p t = Some (b', first) ->
  dynamic b' = dynamic b /\ cutoff b' = cutoff b /\ target b' = target b.
Proof.
  unfold enqueue. destruct (push _ _) as [[q f]|]; [|done]. obind. intros [= <- _].
  by destruct (resetPending b), (_ <? _).
Qed.

Lemma fine_late b p n : buffer_ok b -> fine b (b <| late := n |> <| peakLate := p |>) [] [].
Proof. intros. apply fine_quiet; [done|quiet]. Qed.

Lemma fine_drop_one b p : buffer_ok b -> fine b (b <| dropped := u64 (dropped b + 1) |>) [p] [].
Proof.
  intros Hok. split; [destruct Hok; constructor; cbn; auto with go|].
  exists [p]. split; [|done]. cbn. by rewrite Permutation_app_comm.
Qed.

Lemma Push_total b c p t0 t1 now :
  buffer_ok b ->
  exists b' c' first, Push b c p t0 t1 now = Some (b', c', first)
    /\ fine b b' (if closed b then [] else [p]) [].
Proof.
  intros Hok. unfold Push. destruct (closed b); [eexists _, _, _; split; [done|by apply fine_refl]|].
  pose proof (fine_anchor b c p t0 t1 Hok) as F0. set (b0 := anchor b c p t0 t1) in *.
  destruct (dynamicArrival_total b0 c p now (proj1 F0)) as (b1 & c1 & t & o & stale & -> & F1 & _). obind.
  assert (F : fine b b1 [] []) by (apply (fine_trans b b0 b1 [] [] [] []); done).
  clearbody b0. clear F0 F1 b0.
  assert (Hone : forall b2, fine b b2 [] [] -> fine b (b2 <| dropped := u64 (dropped b2 + 1) |>) [p] []).
  { intros b2 F2. apply (fine_trans b b2 _ [] [] [p] []); [done|]. apply fine_drop_one, F2. }
  destruct stale; [eexists _, _, _; split; [done|auto]|].
  set (b2 := if 0 <? _ then _ else _).
  assert (F2 : fine b b2 [] []).
  { subst b2. destruct (0 <? _); [|done]. eapply fine_then; [done|quiet]. }
  clearbody b2. clear F b1.
  assert (is_Some (if catchUp b2 then Keyframe.isKeyframe (mime b2) (Payload p) else Some true)) as [key ->].
  { destruct (catchUp b2); [apply Keyframe.isKeyframe_total|eauto]. }
  obind. destruct (catchUp b2 && negb key); [eexists _, _, _; split; [done|auto]|].
  set (b3 := if catchUp b2 then _ else _).
  assert (F3 : fine b b3 [] []).
  { subst b3. destruct (catchUp b2); [|done].
    assert (F' : fine b (b2 <| catchUp := false |>) [] []) by (eapply fine_then; [done|quiet]).
    apply (fine_trans _ _ _ [] [] [] [] F'). apply fine_dropAll, F'. }
  destruct (enqueue_total b3 p t (proj1 F3)) as (b4 & first & -> & F4 & _). obind.
  eexists _, _, _. split; [done|]. apply (fine_trans b b3 b4 [] [] [p] []); done.
Qed.

(** ** Lemmas: pacing and [Pop] *)
Lemma lateAllowance_range b : 0 < lateAllowanceLocked b <= maxPaceLag.
Proof.
  unfold lateAllowanceLocked, maxPaceLag, Millisecond. destruct (frameGap b <=? 0) eqn:E; lia.
Qed.

(** A cadence below a second stays below a second when averaged. *)
Lemma average_exact f gap :
  0 <= f < Second -> 0 < gap < Second ->
  dquot (dadd (dmul 3 f) gap) 4 = (3 * f + gap) / 4 /\ 0 <= (3 * f + gap) / 4 < Second.
Proof.
  unfold Second. intros. unfold dquot, dadd, dmul.
  rewrite (i64_small (3 * f)) by (unfold is_i64; lia).
  rewrite (i64_small (3 * f + gap)) by (unfold is_i64; lia).
  rewrite Z.quot_div_nonneg by lia.
  assert (0 <= (3 * f + gap) / 4 < 1000000000) by (Z.div_mod_to_equations; lia).
  split; [|done]. apply i64_small. unfold is_i64. lia.
Qed.

Lemma spacing_exact f n :
  0 < f < Second -> 1 < n < 9223372036854775808 ->
  let g := dquot (dquot (dmul f 4) 5) n in 0 <= g < Second /\ n * g * 5 <= f * 4.
Proof.
  unfold Second. intros Hf Hn. unfold dquot, dmul.
  rewrite (i64_small (f * 4)) by (unfold is_i64; lia). rewrite (Z.quot_div_nonneg (f * 4)) by lia.
  assert (H4 : 0 <= f * 4 / 5 < 1000000000) by (Z.div_mod_to_equations; lia).
  rewrite (i64_small (f * 4 / 5)) by (unfold is_i64; lia). rewrite Z.quot_div_nonneg by lia.
  assert (Hg : 0 <= f * 4 / 5 / n <= f * 4 / 5) by (Z.div_mod_to_equations; nia).
  rewrite i64_small by (unfold is_i64; lia). cbv zeta. split; [lia|].
  pose proof (Z.mul_div_le (f * 4 / 5) n). pose proof (Z.mul_div_le (f * 4) 5). lia.
Qed.

Lemma startGroup_spec b now t :
  buffer_ok b -> dueAt b t < 9223372036854775808 ->
  let b' := startGroupLocked b now t in
  buffer_ok b' /\ queue b' = queue b /\ dropped b' = dropped b
  /\ group b' = t /\ nextSlot b' = now
  /\ (1 < dueAt b t -> dueAt b t * groupGap b' * 5 <= frameGap b' * 4)
  /\ (dueAt b t <= 1 -> groupGap b' = 0).
Proof.
  intros Hok Hn. unfold startGroupLocked. set (b1 := if negb _ then _ else _).
  assert (H1 : buffer_ok b1 /\ queue b1 = queue b /\ dropped b1 = dropped b).
  { subst b1. destruct (negb _); [|done]. destruct (_ && _) eqn:E; [|done]. bool_hyps.
    split; [|done]. destruct Hok. constructor; cbn; auto.
    destruct (frameGap b =? 0); [lia|].
    destruct (average_exact (frameGap b) (tsub t (group b))) as [-> ?]; [done|lia|done]. }
  destruct H1 as (Hok1 & Hq & Hd). clearbody b1.
  assert (Hdue : dueAt b1 t = dueAt b t) by (unfold dueAt; by rewrite Hq).
  rewrite Hdue. set (b2 := b1 <| group := t |> <| nextSlot := now |> <| groupGap := 0 |>).
  assert (Hok2 : buffer_ok b2).
  { destruct Hok1. constructor; cbn; auto. unfold Second. lia. }
  destruct (_ && _) eqn:E.
  - bool_hyps. destruct (spacing_exact (frameGap b2) (dueAt b t)) as [Hg Hs].
    { pose proof (ok_frame _ Hok2). lia. }
    { lia. }
    split; [destruct Hok2; constructor; cbn; auto|]. split_and!; auto; lia.
  - split; [done|]. split_and!; auto; cbn.
    pose proof (ok_frame _ Hok2). cbn in *. unfold Second in *. lia.
Qed.

(** The Go slice of packets has fewer than [2^63] elements. *)
Definition fits (b : Buffer) : Prop := Z.of_nat (length (queue b)) < 9223372036854775808.

Lemma dueAt_fits b t : fits b -> dueAt b t < 9223372036854775808.
Proof. unfold fits, dueAt. intros. eapply Z.le_lt_trans; [apply inj_le, length_filter|done]. Qed.

Lemma paceHold_spec b now lateBy head :
  buffer_ok b -> fits b -> queue b !! 0%nat = Some head ->
  exists b' hold, paceHoldLocked b now lateBy = Some (b', hold)
    /\ buffer_ok b' /\ queue b' = queue b /\ dropped b' = dropped b
    /\ 0 <= hold <= maxPaceLag /\ (maxPaceLag < lateBy -> hold = 0).
Proof.
  intros Hok Hfit Hh. unfold paceHoldLocked. rewrite Hh. obind.
  set (b1 := if _ =? _ then _ else _).
  assert (H1 : buffer_ok b1 /\ queue b1 = queue b /\ dropped b1 = dropped b).
  { subst b1. destruct (_ =? _); [done|].
    by destruct (startGroup_spec b now (playAt head) Hok (dueAt_fits _ _ Hfit)) as (? & ? & ? & _). }
  destruct H1 as (Hok1 & Hq & Hd). clearbody b1. pose proof (lateAllowance_range b1).
  destruct (_ <? lateBy) eqn:E; eexists _, _; (split; [done|]).
  - split_and!; auto; unfold maxPaceLag, Millisecond; try lia. by destruct Hok1; constructor.
  - split_and!; auto; destruct (0 <? _) eqn:Eh; unfold maxPaceLag, Millisecond in *; lia.
Qed.

Lemma chargePace_quiet b now : quiet b (chargePaceLocked b now).
Proof. unfold chargePaceLocked. cases_if; quiet. Qed.

(** What one round of the loop of [Pop] does.  [due] is the playout time a
    queued packet has under the controller's current curve. *)
Lemma pop_turn_spec b c now :
  buffer_ok b -> fits b ->
  let '(b1, offset) := dynamicOffsetLocked b c now in
  let due item := playAt item + offset in
  exists b' t, pop_turn b c now = Some (b', t)
    /\ fine b b' [] (match t with Deliver p => [p] | _ => [] end)
    /\ match t with
       | Ended => closed b = true /\ queue b = []
       | Sleep => closed b = false /\ queue b = []
       | Again => queue b <> [] /\ queue b1 = []
       | SleepFor d =>
           0 < d /\ exists item, item ∈ queue b1 /\ is_min item (queue b1)
           /\ (d = Z.min 9223372036854775807 (due item - now)
               \/ d <= maxPaceLag /\ due item <= now
                  /\ (now - due item <= 9223372036854775807 -> now - maxPaceLag <= due item))
       | Deliver p =>
           exists item, p = pkt item /\ queue b1 ≡ₚ item :: queue b' /\ is_min item (queue b1)
             /\ due item <= now
       end.
Proof.
  intros Hok Hfit. pose proof (fine_dynamicOffset b c now Hok) as F1. unfold pop_turn.
  destruct (dynamicOffsetLocked b c now) as [b1 offset] eqn:Eo. simpl in F1.
  destruct (queue b) as [|i0 q0] eqn:Eq.
  { destruct (closed b) eqn:Ec; simpl; eexists _, _; (split; [done|]); split; auto using fine_refl. }
  rewrite andb_false_r. cbn [length Nat.eqb].
  assert (Hfit1 : fits b1).
  { unfold fits in *. unfold dynamicOffsetLocked in Eo.
    destruct (dynamic b), (DynamicDelay.state c); simplify_eq; try done.
    destruct (_ =? _); [done|]. cbn. lia. }
  destruct (queue b1) as [|head q1] eqn:Eq1.
  { simpl. eexists _, _. split; [done|]. split; auto. }
  cbn [length Nat.eqb]. cbn [lookup list_lookup]. obind.
  assert (Hmin : is_min head (queue b1)).
  { apply heap_root_min; [apply F1|]. by rewrite Eq1. }
  assert (Hin : head ∈ queue b1) by (rewrite Eq1; constructor).
  rewrite <-Eq1. destruct (_ <=? 0) eqn:Ew.
  - destruct (paceHold_spec b1 now (dsub 0 (tsub (tadd (playAt head) offset) now)) head)
      as (b2 & hold & -> & Hok2 & Hq2 & Hd2 & Hh & Hlate); [apply F1|done|by rewrite Eq1|].
    obind.
    assert (F2 : fine b b2 [] []).
    { split; [done|]. destruct F1 as [_ (g & P & D)]. exists g. by rewrite Hq2, Hd2. }
    destruct (0 <? hold) eqn:Eh.
    + eexists _, _. split; [done|]. split; [done|]. split; [lia|]. exists head.
      split_and!; auto. right. split; [lia|]. split; [unfold tsub, tadd in Ew; lia|]. intros Hspan.
      assert (~ maxPaceLag < dsub 0 (tsub (tadd (playAt head) offset) now)) by lia.
      unfold maxPaceLag, Millisecond, dsub, tadd, tsub, i64 in *. Z.div_mod_to_equations. lia.
    + destruct (pop_spec (queue b2)) as (top & q & -> & Htop & Hm & Hp & Hh').
      { apply Hok2. } { rewrite Hq2, Eq1. done. }
      obind. assert (top = head) as -> by (rewrite Hq2, Eq1 in Htop; by injection Htop).
      eexists _, _. split; [done|].
      assert (Q := chargePace_quiet (b2 <| queue := q |>) now). split.
      * eapply fine_then; [|exact Q]. split; [destruct Hok2; by constructor|].
        destruct F2 as [_ (g & P & D)]. exists g. split; [|done].
        cbn. rewrite P. rewrite Hp. done.
      * exists head. destruct Q as (-> & _). cbn. split_and!; auto.
        -- by rewrite <-Hq2.
        -- unfold tsub, tadd in Ew. lia.
  - eexists _, _. split; [done|]. split; [done|]. split; [lia|]. exists head.
    split_and!; auto. left. unfold tsub, tadd in *. lia.
Qed.

Lemma fine_SetTarget b d :
  0 <= d <= DynamicDelay.tenSeconds -> buffer_ok b -> fine b (SetTarget b d) [] [].
Proof.
  intros Hd Hok. unfold SetTarget. set (b1 := b <| target := d |>).
  assert (Hok1 : buffer_ok b1) by (destruct Hok; by constructor).
  destruct (fine_shift b1 (dsub d (target b)) Hok1) as [Ok A]. by split.
Qed.

Lemma fine_Close b now : buffer_ok b -> fine b (Close b now) [] [].
Proof.
  intros Hok. unfold Close. set (b1 := b <| closed := true |>).
  assert (Q : quiet b b1) by quiet. destruct (_ <? _); [|by apply fine_quiet].
  eapply fine_after; [done|exact Q|]. by eapply fine_dropAll, quiet_ok.
Qed.

Lemma SenderReport_total b ts ntp :
  buffer_ok b -> exists b', SenderReport b ts ntp = Some b' /\ quiet b b'.
Proof.
  intros Hok. unfold SenderReport. destruct (_ || _); [eauto using quiet_refl|].
  pose proof (rtpDelta_spec ts (senderRTP b)) as [? _].
  destruct (ticksDuration_exact (rtpDelta ts (senderRTP b)) (clockRate b)) as [-> _];
    [apply Hok|lia|]. obind. eexists. split; [done|]. destruct (_ && _); quiet.
Qed.

Lemma senderCorrection_quiet b : quiet b (senderCorrectionLocked b).1.
Proof. unfold senderCorrectionLocked. cases_if; quiet. Qed.

Lemma fine_moveClock b d r : buffer_ok b -> fine b (moveClockLocked b d r) [] [].
Proof.
  intros Hok. unfold moveClockLocked. set (b1 := b <| baseWall := _ |>).
  assert (Q : quiet b b1) by quiet. assert (Hok1 : buffer_ok b1) by (by eapply quiet_ok).
  eapply fine_after; [done|exact Q|].
  destruct r; (eapply fine_then; [by apply fine_dropAll|quiet]) || (eapply fine_then; [by apply fine_shift|quiet]).
Qed.

Lemma fine_align b base e : buffer_ok b -> fine b (alignSenderClockLocked b base e) [] [].
Proof.
  intros Hok. unfold alignSenderClockLocked. destruct (_ && _); [by apply fine_refl|].
  match goal with |- context [moveClockLocked b ?d ?r] =>
    pose proof (fine_moveClock b d r Hok) as F; generalize dependent (moveClockLocked b d r) end.
  intros b1 F. destruct (clockReset b); [|done]. eapply fine_then; [exact F|quiet].
Qed.

Lemma step_fine b c o :
  buffer_ok b -> fits b -> valid o ->
  exists b' c' inn out, step b c o = Some (b', c', inn, out) /\ fine b b' inn out
    /\ (length inn <= 1)%nat.
Proof.
  intros Hok Hfit Hv. destruct o; cbn [step].
  - destruct (Push_total b c pkt0 t0 t1 now Hok) as (b' & c' & f & -> & F). obind.
    eexists _, _, _, _. split; [done|]. split; [done|]. destruct (closed b); simpl; lia.
  - pose proof (pop_turn_spec b c now Hok Hfit) as H. destruct (dynamicOffsetLocked b c now).
    destruct H as (b' & t & -> & F & _). obind. eexists _, _, _, _. split; [done|]. split; [done|simpl; lia].
  - eexists _, _, _, _. split; [done|]. split; [by apply fine_SetTarget|simpl; lia].
  - eexists _, _, _, _. split; [done|]. split; [by apply fine_Close|simpl; lia].
  - destruct (SenderReport_total b timestamp ntp Hok) as (b' & -> & Q). obind.
    eexists _, _, _, _. split; [done|]. split; [by apply fine_quiet|simpl; lia].
  - eexists _, _, _, _. split; [done|].
    split; [apply fine_quiet; [done|apply senderCorrection_quiet]|simpl; lia].
  - eexists _, _, _, _. split; [done|]. split; [by apply fine_align|simpl; lia].
  - eexists _, _, _, _. split; [done|]. split; [by apply fine_moveClock|simpl; lia].
  - eexists _, _, _, _. split; [done|].
    split; [eapply fine_then; [by apply fine_dynamicOffset|quiet]|simpl; lia].
  - eexists _, _, _, _. split; [done|]. split; [apply fine_quiet; [done|quiet]|simpl; lia].
  - eexists _, _, _, _. split; [done|]. split; [by apply fine_refl|simpl; lia].
Qed.

Lemma accounts_length b b' inn out :
  accounts b b' inn out -> (length (queue b') <= length inn + length (queue b))%nat.
Proof.
  intros (g & P & _). apply Permutation_length in P. rewrite !length_app, !length_fmap in P. lia.
Qed.

Lemma run_fine ops b c :
  buffer_ok b -> Forall valid ops ->
  Z.of_nat (length (queue b) + length ops) < 9223372036854775808 ->
  exists b' c' inn out, run b c ops = Some (b', c', inn, out) /\ fine b b' inn out
    /\ (length inn <= length ops)%nat.
Proof.
  revert b c. induction ops as [|o ops IH]; intros b c Hok Hv Hlen.
  { eexists _, _, _, _. split; [done|]. split; [by apply fine_refl|simpl; lia]. }
  apply Forall_cons in Hv as [Hvo Hv]. cbn in Hlen.
  destruct (step_fine b c o Hok) as (b1 & c1 & i1 & o1 & E1 & F1 & Hi); [unfold fits; lia|done|].
  pose proof (accounts_length _ _ _ _ (proj2 F1)).
  destruct (IH b1 c1 (proj1 F1) Hv) as (b2 & c2 & i2 & o2 & E2 & F2 & Hi2); [lia|].
  cbn [run]. rewrite E1. obind. rewrite E2. obind. eexists _, _, _, _. split; [done|].
  split; [by eapply fine_trans|]. rewrite length_app. cbn. lia.
Qed.

Lemma NewBuffer_ok t rate m k :
  0 <= t <= DynamicDelay.tenSeconds -> 0 < rate < 4294967296 -> buffer_ok (NewBuffer t rate m k).
Proof.
  intros. constructor; cbn; auto with go; unfold Second, is_u64; lia.
Qed.

Lemma rtpDelta_unwrapped T B : -2147483648 <= T - B < 2147483648 -> rtpDelta (u32 T) (u32 B) = T - B.
Proof. intros. apply rtpDelta_unique; [done|]. unfold u32. Z.div_mod_to_equations. lia. Qed.

Lemma quot_near x r : 0 < r -> - r < Z.quot x r * r - x < r.
Proof.
  intros. pose proof (Z.quot_rem x r). pose proof (Z.rem_bound_abs x r). lia.
Qed.

(** Truncating two parts of a sum loses at most one unit. *)
Lemma quot_add_near a c r :
  0 < r -> 0 <= a -> Z.abs (Z.quot a r + Z.quot c r - Z.quot (a + c) r) <= 1.
Proof.
  intros Hr Ha. pose proof (Z.quot_rem a r) as Ea. pose proof (Z.quot_rem c r) as Ec.
  pose proof (Z.quot_rem (a + c) r) as Es. pose proof (Z.rem_bound_pos a r Ha Hr).
  pose proof (Z.rem_bound_abs (a + c) r). set (k := _ + _ - _).
  assert (Hk : r * k = Z.rem (a + c) r - Z.rem a r - Z.rem c r) by (unfold k; lia).
  enough (- 2 * r < r * k < 2 * r) by nia. rewrite Hk. destruct (Z.le_gt_cases 0 c).
  - pose proof (Z.rem_bound_pos c r). pose proof (Z.rem_bound_pos (a + c) r). lia.
  - pose proof (Z.rem_bound_pos_neg c r). lia.
Qed.

Lemma mediaAt_unwrapped b T B :
  baseRTP b = u32 B -> -2147483648 <= T - B < 2147483648 ->
  mediaAt b (u32 T) = baseWall b + Z.quot ((T - B) * Second) (clockRate b).
Proof. intros HB HT. unfold mediaAt. by rewrite HB, rtpDelta_unwrapped. Qed.

Lemma dsub_target b : buffer_ok b -> dsub 0 (target b) = - target b.
Proof.
  intros Hok. pose proof (ok_target _ Hok). unfold dsub. apply i64_small.
  unfold DynamicDelay.tenSeconds, Second, is_i64 in *. lia.
Qed.

(** Reading the curve of an empty buffer leaves it empty. *)
Lemma offset_nil b c now : queue b = [] -> queue (dynamicOffsetLocked b c now).1 = [].
Proof.
  intros Hq. unfold dynamicOffsetLocked. destruct (dynamic b), (DynamicDelay.state c); simpl; auto.
  destruct (_ =? _); simpl; auto.
Qed.

Lemma playoutOf_SetTarget b d ts :
  buffer_ok b -> 0 <= d <= DynamicDelay.tenSeconds ->
  playoutOf (SetTarget b d) ts = Some (mediaAt b ts + d).
Proof. intros Hok Hd. rewrite (playoutOf_exact (SetTarget b d)); [done|]. by apply fine_SetTarget. Qed.

Lemma target_shift b d :
  buffer_ok b -> 0 <= d <= DynamicDelay.tenSeconds -> dsub d (target b) = d - target b.
Proof.
  intros Hok Hd. pose proof (ok_target _ Hok). unfold dsub. apply i64_small.
  unfold DynamicDelay.tenSeconds, Second, is_i64 in *. lia.
Qed.

(** Reading a curve that has not jumped since the last reading. *)
Lemma offset_steady b c s n now :
  dynamic b = Some n -> DynamicDelay.state c = Some s -> DynamicDelay.Cutoff s = cutoff b ->
  dynamicOffsetLocked b c now = (b, dsub (DynamicDelay.Delay s now) (target b)).
Proof. intros Hn Hs Hc. unfold dynamicOffsetLocked. by rewrite Hn, Hs, Hc, Z.eqb_refl. Qed.

(** Reading a curve that has jumped moves the clock by the jump, once. *)
Lemma offset_jumped b c s n now :
  dynamic b = Some n -> DynamicDelay.state c = Some s -> DynamicDelay.Cutoff s <> cutoff b ->
  let b' := (dynamicOffsetLocked b c now).1 in
  queue b' = [] /\ catchUp b' = false /\ cutoff b' = DynamicDelay.Cutoff s
  /\ shift b' = DynamicDelay.Shift s
  /\ baseWall b' = baseWall b + dsub (DynamicDelay.Shift s) (shift b)
  /\ baseRTP b' = baseRTP b /\ clockRate b' = clockRate b /\ target b' = target b
  /\ dynamic b' = dynamic b /\ resetPending b' = resetPending b
  /\ (dynamicOffsetLocked b c now).2 = dsub (DynamicDelay.Delay s now) (target b).
Proof.
  intros Hn Hs Hc. unfold dynamicOffsetLocked. rewrite Hn, Hs, (proj2 (Z.eqb_neq _ _) Hc). by split_and!.
Qed.

(** A keyframe on which a pending jump is taken. *)
Lemma dynamicArrival_jumps b c s n p now b2 o2 :
  let media := mediaAt b (Timestamp p) in
  buffer_ok b -> keyframe b = true -> clockEpoch b = 0 ->
  dynamic b = Some n -> DynamicDelay.state c = Some s -> DynamicDelay.Pending s = true ->
  DynamicDelay.Cutoff s = cutoff b -> Keyframe.isKeyframe (mime b) (Payload p) = Some true ->
  cutoff b <= media ->
  dynamicOffsetLocked b (DynamicDelay.JumpTo c now media) now = (b2, o2) ->
  playoutOf b2 (Timestamp p) = Some (now + target b) ->
  dynamicArrivalLocked b c p now
  = Some (b2, DynamicDelay.JumpTo c now media, now + target b, o2, false).
Proof.
  intros media Hok Hk He Hn Hs Hp Hcut Hkey Hmed E2 Hpl. unfold dynamicArrivalLocked.
  rewrite (offset_steady b c s n now), playoutOf_exact by done. obind. fold media.
  assert (Hmt : tadd (media + target b) (dsub 0 (target b)) = media)
    by (rewrite (dsub_target b Hok); unfold tadd; lia).
  assert (Hb : Before media (cutoff b) = false) by (unfold Before; lia).
  rewrite Hmt, Hb. unfold staleResetPacketLocked. rewrite He. cbn [Z.eqb]. cbv beta iota zeta.
  assert (jumpsAt b c p = Some true) as ->.
  { unfold jumpsAt. by rewrite Hk, Hs, Hp, Hkey, bool_decide_true by (by rewrite Hn). }
  obind. rewrite Hmt, E2. cbv beta iota zeta. by rewrite Hpl.
Qed.

(** The end of [Push] for a packet that is on time on an emptied buffer. *)
Lemma Push_arrived b c p t0 t1 now b2 c' t o :
  closed b = false -> based b = true ->
  dynamicArrivalLocked b c p now = Some (b2, c', t, o, false) ->
  buffer_ok b2 -> queue b2 = [] -> catchUp b2 = false -> tsub now (tadd t o) <= 0 ->
  exists b' item, Push b c p t0 t1 now = Some (b', c', true)
    /\ queue b' = [item] /\ pkt item = p /\ playAt item = t
    /\ dynamic b' = dynamic b2 /\ cutoff b' = cutoff b2 /\ target b' = target b2.
Proof.
  intros Hcl Hb Harr Hok Hq Hcu Hlate. unfold Push, anchor. rewrite Hcl, Hb, Harr. obind.
  rewrite (proj2 (Z.ltb_ge _ _) Hlate), Hcu. obind. cbn [andb].
  destruct (enqueue_total b2 p t Hok) as (b' & first & E & _ & item & Hp & Ht & Hperm & Hroot).
  rewrite E. obind. rewrite Hq in *. apply Permutation_singleton_r in Hperm.
  exists b', item. rewrite Hperm in Hroot. destruct first; [|done].
  split_and!; auto; by eapply enqueue_frame.
Qed.

(** ** Properties *)

(** C1: whatever is called on a track's buffer, in whatever order and with
    whatever clock readings, and whatever other tracks do to the shared
    controller: no call panics (the queue is never indexed out of range and
    the pacing and heap loops end), the invariant holds, and every packet is
    accounted for: the packets pushed into the open buffer are exactly those
    delivered, those still queued and those counted in the drop counter, each
    once. *)
Theorem buffer_conserves_packets t rate m k c (ops : list op) :
  0 <= t <= DynamicDelay.tenSeconds -> 0 < rate < 4294967296 ->
  Forall valid ops -> Z.of_nat (length ops) < 9223372036854775808 ->
  exists b c' pushed delivered gone,
    run (NewBuffer t rate m k) c ops = Some (b, c', pushed, delivered)
    /\ buffer_ok b
    /\ pushed ≡ₚ delivered ++ (pkt <$> queue b) ++ gone
    /\ dropped b = Z.of_nat (length gone).
Proof.
  intros Ht Hr Hv Hlen. pose proof (NewBuffer_ok t rate m k Ht Hr) as Hok.
  destruct (run_fine ops _ c Hok Hv) as (b & c' & i & o & E & (Hok' & g & P & D) & Hi); [simpl; lia|].
  exists b, c', i, o, g. cbn in P. rewrite app_nil_r in P. split_and!; auto. rewrite D.
  apply u64_small. apply Permutation_length in P. rewrite !length_app in P. unfold is_u64. cbn. lia.
Qed.

(** C18: one round of [Pop] on a buffer that satisfies the invariant always
    returns, and does what it should: it ends only when the buffer is closed
    and empty; it delivers only the packet due first (the earliest playout
    time, among equals the earliest arrival) and never before its time; it
    sleeps until that packet is due, or for pacing at most 33 ms; and a packet
    that is more than 33 ms late is never held back: such a round delivers. *)
Theorem pop_delivers_due b c now :
  buffer_ok b -> fits b ->
  let '(b1, offset) := dynamicOffsetLocked b c now in
  let due item := playAt item + offset in
  exists b' t, pop_turn b c now = Some (b', t)
    /\ match t with
       | Ended => closed b = true /\ queue b = []
       | Sleep => closed b = false /\ queue b = []
       | Again => queue b <> [] /\ queue b1 = []
       | SleepFor d =>
           0 < d /\ exists item, item ∈ queue b1 /\ is_min item (queue b1)
           /\ (d = Z.min 9223372036854775807 (due item - now)
               \/ d <= maxPaceLag /\ due item <= now
                  /\ (now - due item <= 9223372036854775807 -> now - maxPaceLag <= due item))
       | Deliver p =>
           exists item, p = pkt item /\ queue b1 ≡ₚ item :: queue b' /\ is_min item (queue b1)
             /\ due item <= now
       end
    /\ ((forall item, item ∈ queue b1 -> now - due item <= 9223372036854775807) ->
        (exists item, item ∈ queue b1 /\ maxPaceLag < now - due item) ->
        exists p, t = Deliver p).
Proof.
  intros Hok Hfit. pose proof (pop_turn_spec b c now Hok Hfit) as H.
  destruct (dynamicOffsetLocked b c now) as [b1 offset] eqn:Eo.
  destruct H as (b' & t & E & _ & Ht). exists b', t. split; [done|]. split; [done|].
  intros Hspan (item & Hin & Hlate). destruct t as [| |d| |p]; [| | | |eauto].
  - destruct Ht as [_ Hq]. pose proof (offset_nil b c now Hq) as Hn. rewrite Eo in Hn. simpl in Hn.
    rewrite Hn in Hin. by apply not_elem_of_nil in Hin.
  - destruct Ht as [_ Hq]. pose proof (offset_nil b c now Hq) as Hn. rewrite Eo in Hn. simpl in Hn.
    rewrite Hn in Hin. by apply not_elem_of_nil in Hin.
  - exfalso. destruct Ht as (Hd & m & Hm & Hmin & Hor). unfold is_min in Hmin.
    rewrite Forall_forall in Hmin. specialize (Hmin item Hin). rewrite le_spec in Hmin.
    pose proof (Hspan m Hm). unfold maxPaceLag, Millisecond in *. lia.
  - destruct Ht as [_ Hq]. rewrite Hq in Hin. by apply not_elem_of_nil in Hin.
Qed.

(** C22: packets play on the sender's clock, across the wrap of the 32-bit RTP
    counter.  For tick counts within half the counter range of the anchor, the
    playout time is the anchor's plus the elapsed ticks, truncated to a
    nanosecond; so a later tick never plays before an earlier one, equal ticks
    play together, and the spacing of two packets is that of their timestamps
    to within two nanoseconds. *)
Theorem playout_follows_sender_clock b B T1 T2 :
  buffer_ok b -> baseRTP b = u32 B -> T1 <= T2 ->
  -2147483648 <= T1 - B < 2147483648 -> -2147483648 <= T2 - B < 2147483648 ->
  exists p1 p2, playoutOf b (u32 T1) = Some p1 /\ playoutOf b (u32 T2) = Some p2
    /\ p1 = baseWall b + Z.quot ((T1 - B) * Second) (clockRate b) + target b
    /\ p1 <= p2 /\ (T1 = T2 -> p1 = p2)
    /\ Z.abs ((p2 - p1) * clockRate b - (T2 - T1) * Second) < 2 * clockRate b.
Proof.
  intros Hok HB Hle H1 H2. pose proof (ok_rate _ Hok) as Hr.
  eexists _, _. split; [by apply playoutOf_exact|]. split; [by apply playoutOf_exact|].
  rewrite !(mediaAt_unwrapped b _ B) by done. split; [done|].
  assert (Hm : Z.quot ((T1 - B) * Second) (clockRate b) <= Z.quot ((T2 - B) * Second) (clockRate b)).
  { apply Z.quot_le_mono; [lia|]. unfold Second. lia. }
  pose proof (quot_near ((T1 - B) * Second) (clockRate b)).
  pose proof (quot_near ((T2 - B) * Second) (clockRate b)).
  split; [lia|]. split; [by intros ->|]. nia.
Qed.

(** Moving the anchor of a long stream keeps the schedule: the packet that
    moves it keeps its playout time, any other timestamp is mapped to within a
    nanosecond of where it was, and the anchor is never more than a minute of
    ticks behind the newest packet. *)
Theorem reanchor_keeps_schedule b p b' first B P T :
  buffer_ok b -> baseRTP b = u32 B -> Timestamp p = u32 P ->
  -2147483648 <= P - B < 2147483648 -> -2147483648 <= T - B < 2147483648 ->
  -2147483648 <= T - P < 2147483648 ->
  enqueue b p (mediaAt b (Timestamp p) + target b) = Some (b', first) ->
  mediaAt b' (Timestamp p) = mediaAt b (Timestamp p)
  /\ Z.abs (mediaAt b' (u32 T) - mediaAt b (u32 T)) <= 1
  /\ target b' = target b
  /\ rtpDelta (Timestamp p) (baseRTP b') <= clockRate b * 60.
Proof.
  intros Hok HB HP H1 H2 H3. pose proof (ok_rate _ Hok) as Hr. unfold enqueue.
  set (b1 := if resetPending b then _ else _).
  assert (E1 : baseWall b1 = baseWall b /\ target b1 = target b /\ baseRTP b1 = baseRTP b
               /\ clockRate b1 = clockRate b) by (subst b1; by destruct (resetPending b)).
  destruct E1 as (Em & Et & Eb & Er). clearbody b1.
  destruct (push _ _) as [[q f]|]; [|done]. obind. intros [= <- _].
  rewrite Er, Eb, Et, (dsub_target b Hok). destruct (_ <? _) eqn:E; unfold mediaAt; cbn; rewrite ?Er, ?Eb, ?Et.
  - rewrite HP, HB, !rtpDelta_unwrapped by lia. rewrite Z.sub_diag, Z.mul_0_l, Z.quot_0_l by lia.
    split; [unfold tadd; lia|]. split; [|split; [done|lia]].
    pose proof (quot_add_near ((P - B) * Second) ((T - P) * Second) (clockRate b)) as Hn.
    replace ((P - B) * Second + (T - P) * Second) with ((T - B) * Second) in Hn by lia.
    rewrite HP, HB, rtpDelta_unwrapped in E by done.
    unfold tadd. unfold Second in *. lia.
  - rewrite Em. split_and!; [done|lia|done|]. lia.
Qed.

(** A change of target moves every scheduled packet by the same amount:
    those queued, and those still to come, so that no packet overtakes
    another; and under an attached controller, whose curve already says when
    media plays, it moves nothing. *)
Theorem SetTarget_shifts_uniformly b d :
  buffer_ok b -> 0 <= d <= DynamicDelay.tenSeconds ->
  let b' := SetTarget b d in
  queue b' = (shift_item (d - target b) <$> queue b)
  /\ (forall ts, exists p, playoutOf b ts = Some p /\ playoutOf b' ts = Some (p + (d - target b)))
  /\ (forall c s n now, dynamic b = Some n -> DynamicDelay.state c = Some s ->
        DynamicDelay.Cutoff s = cutoff b -> DynamicDelay.curve_ok s ->
        target b' + (dynamicOffsetLocked b' c now).2 = target b + (dynamicOffsetLocked b c now).2).
Proof.
  intros Hok Hd b'. split_and!.
  - unfold b', SetTarget. by rewrite target_shift.
  - intros ts. eexists. split; [by apply playoutOf_exact|].
    unfold b'. rewrite playoutOf_SetTarget by done. f_equal. lia.
  - intros c s n now Hn Hs Hc Hcurve.
    rewrite (offset_steady b c s n), (offset_steady b' c s n) by done. cbn.
    pose proof (DynamicDelay.Delay_range s now Hcurve). pose proof (ok_target _ Hok).
    unfold dsub. rewrite !i64_small;
      unfold DynamicDelay.tenSeconds, Second, is_i64 in *; lia.
Qed.

(** A jump takes effect at a keyframe and lands where it should.  When a
    jump is pending and a keyframe arrives on the video track, what was queued
    is dropped, the keyframe becomes the only queued packet, due exactly the
    normal delay from now, and the jump is no longer pending; any other track
    that follows the same controller, whenever it next looks, empties its
    queue and moves its clock by the same amount, and looking again changes
    nothing. *)
Theorem jump_lands b c s n p t0 t1 now :
  buffer_ok b -> closed b = false -> based b = true -> keyframe b = true -> clockEpoch b = 0 ->
  dynamic b = Some n -> DynamicDelay.state c = Some s -> DynamicDelay.Pending s = true ->
  DynamicDelay.Cutoff s = cutoff b -> DynamicDelay.Shift s = shift b ->
  0 <= DynamicDelay.base c <= DynamicDelay.tenSeconds ->
  Keyframe.isKeyframe (mime b) (Payload p) = Some true ->
  let media := mediaAt b (Timestamp p) in
  cutoff b <= media -> cutoff b <> now -> is_i64 (now - media) ->
  exists b' c' item, Push b c p t0 t1 now = Some (b', c', true)
    /\ queue b' = [item] /\ pkt item = p
    /\ playAt item + (dynamicOffsetLocked b' c' now).2 = now + DynamicDelay.base c
    /\ (exists s', DynamicDelay.state c' = Some s' /\ DynamicDelay.Pending s' = false)
    /\ forall a m later, dynamic a = Some m -> cutoff a = cutoff b -> shift a = shift b ->
         let a' := (dynamicOffsetLocked a c' later).1 in
         baseWall a' = baseWall a + (now - media) /\ queue a' = []
         /\ (dynamicOffsetLocked a' c' later).1 = a'.
Proof.
  intros Hok Hcl Hb Hk He Hn Hs Hp Hcut Hsh Hbase Hkey media Hmed Hne Hspan.
  set (c' := DynamicDelay.JumpTo c now media).
  set (s' := DynamicDelay.mkState now (DynamicDelay.base c) (DynamicDelay.base c)
               (dadd (DynamicDelay.Shift s) (tsub now media)) now false).
  assert (Hs' : DynamicDelay.state c' = Some s').
  { unfold c', DynamicDelay.JumpTo. by rewrite Hs, Hp. }
  assert (Hd : dsub (DynamicDelay.Shift s') (DynamicDelay.Shift s) = now - media).
  { cbn. rewrite tsub_exact by done. golia. }
  assert (Hdelay : DynamicDelay.Delay s' now = DynamicDelay.base c).
  { apply (DynamicDelay.Delay_flat s'); [done|]. split_and!; cbn; try lia;
      unfold Millisecond; lia. }
  destruct (offset_jumped b c' s' n now Hn Hs') as (Eq & Ecu & Ect & _ & Ew & Er & Ek & Et & Ed & _ & Eo);
    [cbn; congruence|]. rewrite <-Hsh, Hd in Ew. rewrite Hdelay, target_shift in Eo by done.
  pose proof (fine_dynamicOffset b c' now Hok) as F.
  destruct (dynamicOffsetLocked b c' now) as [b2 o2] eqn:E2. simpl in *.
  assert (Harr : dynamicArrivalLocked b c p now = Some (b2, c', now + target b, o2, false)).
  { eapply dynamicArrival_jumps; eauto. rewrite (playoutOf_exact b2) by apply F.
    unfold mediaAt in *. rewrite Ew, Er, Ek, Et. unfold media. f_equal. lia. }
  destruct (Push_arrived b c p t0 t1 now b2 c' (now + target b) o2) as (b' & item & -> & Hq & Hpk & Hpl & Hf); auto.
  { apply F. }
  { unfold tadd, tsub. lia. }
  exists b', c', item. destruct Hf as (Hd' & Hc' & Ht'). split_and!; auto.
  - rewrite (offset_steady b' c' s' n) by (rewrite ?Hd', ?Ed, ?Hc', ?Ect; done).
    cbn. rewrite Hdelay, Ht', Et, target_shift, Hpl by done. lia.
  - by exists s'.
  - intros a m later Ha Hac Has. set (a' := (dynamicOffsetLocked a c' later).1).
    destruct (offset_jumped a c' s' m later Ha Hs') as (Aq & _ & Act & Ash & Aw & _ & _ & At & Ad & _ & Ao);
      [cbn; congruence|]. fold a' in Aq, Act, Ash, Aw, At, Ad.
    cbn in Aw. rewrite Has, <-Hsh, Hd in Aw. split_and!; [done|done|].
    by rewrite (offset_steady a' c' s' m) by (rewrite ?Ad, ?Act; done).
Qed.


(** The packets of a frame are spread over at most four fifths of the
    learned frame interval, so they are out before the next frame is due: the
    spacing times the number of queued packets due together stays within it,
    the interval itself stays below a second, and a packet that is alone is
    not delayed. *)
Theorem frame_fits_interval b now t :
  buffer_ok b -> fits b ->
  let b' := startGroupLocked b now t in
  group b' = t /\ nextSlot b' = now /\ 0 <= frameGap b' < Second /\ 0 <= groupGap b'
  /\ dueAt b t * groupGap b' * 5 <= frameGap b' * 4
  /\ (dueAt b t <= 1 -> groupGap b' = 0).
Proof.
  intros Hok Hfit. destruct (startGroup_spec b now t Hok (dueAt_fits _ _ Hfit))
    as (Hok' & _ & _ & Hg & Hn & Hs & H0).
  pose proof (ok_frame _ Hok'). pose proof (ok_gap _ Hok').
  split_and!; auto; try lia.
Qed.

Lemma ntp_elapsed delta :
  is_u64 delta ->
  dadd (dmul (Z.shiftr delta 32) Second) (dquot (dmul (Z.land delta 4294967295) Second) 4294967296)
  = delta * Second / 4294967296
  /\ 0 <= delta * Second / 4294967296 <= 4294967296 * Second.
Proof.
  unfold is_u64. intros Hd. rewrite Z.shiftr_div_pow2 by lia.
  change 4294967295 with (Z.ones 32). rewrite Z.land_ones by lia. change (2 ^ 32) with 4294967296.
  pose proof (Z.div_mod delta 4294967296). pose proof (Z.mod_pos_bound delta 4294967296).
  assert (0 <= delta / 4294967296 < 4294967296) by (Z.div_mod_to_equations; lia).
  unfold dmul, dquot, dadd, Second in *.
  rewrite !(i64_small (_ * 1000000000)) by (unfold is_i64; lia). rewrite Z.quot_div_nonneg by lia.
  assert (0 <= delta mod 4294967296 * 1000000000 / 4294967296 < 1000000000).
  { split; [apply Z.div_pos; lia|apply Z.div_lt_upper_bound; lia]. }
  rewrite (i64_small (_ / _)) by (unfold is_i64; lia). rewrite i64_small by (unfold is_i64; lia).
  assert (E : delta * 1000000000 / 4294967296
              = delta / 4294967296 * 1000000000 + delta mod 4294967296 * 1000000000 / 4294967296).
  { rewrite H at 1 by lia.
    replace ((4294967296 * (delta / 4294967296) + delta mod 4294967296) * 1000000000)
      with (delta / 4294967296 * 1000000000 * 4294967296 + delta mod 4294967296 * 1000000000) by lia.
    rewrite Z.div_add_l by lia. done. }
  lia.
Qed.

(** Sender reports.  A report without a clock, a repeated one or one older
    than the last changes nothing.  Any other is recorded, and marks the
    sender's clock as reset exactly when it is not the first and the RTP
    counter ran backwards or the sender's wall clock and its RTP clock
    advanced by amounts that differ by more than the correction margin. *)
Theorem SenderReport_detects_reset b ts ntp :
  buffer_ok b -> is_u64 ntp -> is_u64 (senderNTP b) ->
  let delta := u64 (ntp - senderNTP b) in
  let ticks := rtpDelta ts (senderRTP b) in
  exists b', SenderReport b ts ntp = Some b'
    /\ (ntp = 0 \/ senderNTP b <> 0 /\ (delta = 0 \/ 9223372036854775808 <= delta) -> b' = b)
    /\ (ntp <> 0 -> senderNTP b = 0 \/ 0 < delta < 9223372036854775808 ->
        senderRTP b' = ts /\ senderNTP b' = ntp
        /\ (clockReset b' = true <-> clockReset b = true
            \/ senderNTP b <> 0
               /\ (ticks < 0 \/ correctionMargin (target b)
                     < Z.abs (delta * Second / 4294967296 - Z.quot (ticks * Second) (clockRate b))))).
Proof.
  intros Hok Hn Hs delta ticks. unfold SenderReport. fold delta ticks.
  pose proof (rtpDelta_spec ts (senderRTP b)) as [Ht _]. fold ticks in Ht.
  assert (Hdelta : is_u64 delta) by apply u64_range.
  destruct (ticksDuration_exact ticks (clockRate b)) as [Etd Htd]; [apply Hok|lia|].
  destruct (ntp_elapsed delta Hdelta) as [Eel Hel]. rewrite Eel, Etd.
  destruct (_ || _) eqn:Eg.
  { exists b. split; [done|]. split; [done|]. intros Hne Hd. unfold is_u64 in *. lia. }
  obind. eexists. split; [done|]. split; [unfold is_u64 in *; lia|]. intros Hne Hd.
  set (drift := delta * Second / 4294967296 - Z.quot (ticks * Second) (clockRate b)).
  assert (Edr : dsub (delta * Second / 4294967296) (Z.quot (ticks * Second) (clockRate b)) = drift).
  { unfold dsub. apply i64_small. unfold is_i64, Second in *. lia. }
  assert (Eab : dabs drift = Z.abs drift).
  { unfold dabs. cases_if; unfold drift, Second in *; lia. }
  rewrite Edr, Eab. destruct (_ && ((ticks <? 0) || _)) eqn:E; cbn; (split; [done|]); (split; [done|]).
  - split; [|done]. intros _. right. lia.
  - split; [intros ?; by left|]. intros [?|H]; [done|]. lia.
Qed.

(** ** Witnesses *)

(** An H.264 track with a two-second target that follows stream 0, anchored at
    a tick just below the wrap, with two packets of one frame queued. *)
Definition camTarget : duration := 2000 * Millisecond.

Definition exampleBuffer : Buffer :=
  (NewBuffer camTarget 90000 "video/H264" true)
    <| based := true |> <| baseRTP := 4294967290 |> <| baseWall := 100 * Second |>
    <| dynamic := Some 0%nat |>
    <| queue := [Buffered (mkPacket 1 4294967290 [101]) (102 * Second) 1;
                 Buffered (mkPacket 2 4294967290 [65]) (102 * Second) 2] |>
    <| arrived := 2 |>.

Lemma exampleBuffer_ok : buffer_ok exampleBuffer.
Proof.
  constructor; cbn; unfold is_u64, DynamicDelay.tenSeconds, camTarget, Millisecond, Second; try lia.
  eapply (push_heap [Buffered (mkPacket 1 4294967290 [101]) (102 * Second) 1]
            (Buffered (mkPacket 2 4294967290 [65]) (102 * Second) 2)); [reflexivity|].
  eapply (push_heap [] (Buffered (mkPacket 1 4294967290 [101]) (102 * Second) 1));
    [reflexivity|apply heap_ok_nil].
Qed.

(** A controller with a jump pending. *)
Definition pendingController : DynamicDelay.Controller :=
  DynamicDelay.mkController
    (Some (DynamicDelay.mkState zeroTime camTarget camTarget 0 zeroTime true)) 1
    (DynamicDelay.mkOptions true 10000 true 10 (Some true)) camTarget camTarget zeroTime zeroTime 0 zeroTime.

Lemma buffer_conserves_packets_witness :
  let p n := mkPacket n (n * 3000) [101] in
  let ops := [OPush (p 1) 5 6 7; OPush (p 2) 0 0 9; OPop 100; OPop (3 * Second); OSetTarget (5 * Second);
              OMove 5 true; OPush (p 3) 0 0 (4 * Second); OClose (4 * Second)] in
  exists b c' pushed delivered gone,
    run (NewBuffer camTarget 90000 "video/H264" true) DynamicDelay.zeroController ops
      = Some (b, c', pushed, delivered)
    /\ buffer_ok b /\ pushed ≡ₚ delivered ++ (pkt <$> queue b) ++ gone
    /\ dropped b = Z.of_nat (length gone)
    /\ (length pushed, length delivered, dropped b) = (3%nat, 1%nat, 1).
Proof.
  intros p ops. destruct (buffer_conserves_packets camTarget 90000 "video/H264" true
    DynamicDelay.zeroController ops) as (b & c' & i & o & g & E & Hok & P & D).
  - unfold camTarget, DynamicDelay.tenSeconds, Second, Millisecond. lia.
  - lia.
  - repeat constructor; cbn; unfold DynamicDelay.tenSeconds, Second; lia.
  - cbn. lia.
  - exists b, c', i, o, g. split_and!; auto. revert E. vm_compute. intros E. injection E as <- _ <- <-.
    reflexivity.
Defined.

Lemma pop_delivers_due_witness :
  let now := 103 * Second in
  exists b' t, pop_turn exampleBuffer DynamicDelay.zeroController now = Some (b', t)
    /\ exists p, t = Deliver p.
Proof.
  intros now. destruct (pop_delivers_due exampleBuffer DynamicDelay.zeroController now) as (b' & t & E & _ & H).
  - apply exampleBuffer_ok.
  - unfold fits. cbn. lia.
  - exists b', t. split; [exact E|]. apply H.
    + intros item Hin. assert (Hp : playAt item = 102 * Second) by set_solver.
      rewrite Hp. unfold now, Second. cbn. lia.
    + exists (Buffered (mkPacket 1 4294967290 [101]) (102 * Second) 1). split; [constructor|].
      cbn. unfold now, maxPaceLag, Second, Millisecond. lia.
Defined.

(** Ticks 4294967290 and 4294970290: the counter wraps in between. *)
Lemma playout_follows_sender_clock_witness :
  playoutOf exampleBuffer (u32 4294967290) = Some (102 * Second)
  /\ playoutOf exampleBuffer (u32 4294970290) = Some (102 * Second + 33333333)
  /\ exists p1 p2, playoutOf exampleBuffer (u32 4294967290) = Some p1
       /\ playoutOf exampleBuffer (u32 4294970290) = Some p2 /\ p1 <= p2.
Proof.
  split; [reflexivity|]. split; [reflexivity|].
  destruct (playout_follows_sender_clock exampleBuffer 4294967290 4294967290 4294970290)
    as (p1 & p2 & H1 & H2 & _ & H3 & _); [apply exampleBuffer_ok|reflexivity|lia|lia|lia|].
  exists p1, p2. auto.
Defined.

(** A packet 61 seconds of ticks after the anchor. *)
Lemma reanchor_keeps_schedule_witness :
  let p := mkPacket 3 (u32 (4294967290 + 5490000)) [65] in
  exists b' first, enqueue exampleBuffer p (mediaAt exampleBuffer (Timestamp p) + camTarget) = Some (b', first)
    /\ baseRTP b' = Timestamp p
    /\ Z.abs (mediaAt b' (u32 4294970290) - mediaAt exampleBuffer (u32 4294970290)) <= 1.
Proof.
  intros p. destruct (enqueue_total exampleBuffer p (mediaAt exampleBuffer (Timestamp p) + camTarget) exampleBuffer_ok)
    as (b' & first & E & _). exists b', first. split; [exact E|]. split.
  - revert E. vm_compute. intros E. injection E as <- _. reflexivity.
  - apply (reanchor_keeps_schedule exampleBuffer p b' first 4294967290 (4294967290 + 5490000) 4294970290);
      [apply exampleBuffer_ok|reflexivity|reflexivity|lia|lia|lia|exact E].
Defined.

Lemma SetTarget_shifts_uniformly_witness :
  queue (SetTarget exampleBuffer (5 * Second))
  = (shift_item (3 * Second) <$> queue exampleBuffer).
Proof.
  apply (SetTarget_shifts_uniformly exampleBuffer (5 * Second)); [apply exampleBuffer_ok|].
  unfold DynamicDelay.tenSeconds, Second. lia.
Defined.

Lemma jump_lands_witness :
  let p := mkPacket 3 4294967290 [101] in
  let now := 109 * Second in
  exists b' c' item, Push exampleBuffer pendingController p 0 0 now = Some (b', c', true)
    /\ queue b' = [item] /\ playAt item + (dynamicOffsetLocked b' c' now).2 = 111 * Second.
Proof.
  intros p now.
  destruct (jump_lands exampleBuffer pendingController
    (DynamicDelay.mkState zeroTime camTarget camTarget 0 zeroTime true) 0 p 0 0 now)
    as (b' & c' & item & E & Hq & _ & Hp & _); try reflexivity.
  - apply exampleBuffer_ok.
  - cbn. unfold camTarget, DynamicDelay.tenSeconds, Second, Millisecond. lia.
  - vm_compute. discriminate.
  - discriminate.
  - vm_compute. split; discriminate.
  - exists b', c', item. split; [exact E|]. split; [exact Hq|]. rewrite Hp. reflexivity.
Defined.

Lemma frame_fits_interval_witness :
  let b := exampleBuffer <| frameGap := 33333333 |> in
  let b' := startGroupLocked b 0 (102 * Second) in
  dueAt b (102 * Second) = 2 /\ groupGap b' = 13333333
  /\ dueAt b (102 * Second) * groupGap b' * 5 <= frameGap b' * 4.
Proof.
  intros b b'. split; [reflexivity|]. split; [reflexivity|].
  apply (frame_fits_interval b 0 (102 * Second)).
  - destruct exampleBuffer_ok. constructor; auto. cbn. unfold Second. lia.
  - unfold fits. cbn. lia.
Defined.

(** One second later by the sender's clock, half a million ticks later. *)
Lemma SenderReport_detects_reset_witness :
  let b := exampleBuffer <| senderNTP := 4294967296 |> <| senderRTP := 1000 |> in
  exists b', SenderReport b 501000 (2 * 4294967296) = Some b' /\ clockReset b' = true.
Proof.
  intros b. destruct (SenderReport_detects_reset b 501000 (2 * 4294967296)) as (b' & E & _ & H).
  - destruct exampleBuffer_ok. by constructor.
  - unfold is_u64. lia.
  - unfold is_u64. cbn. lia.
  - exists b'. split; [exact E|]. apply H; [lia|right; vm_compute; split; reflexivity|].
    right. split; [discriminate|]. right. vm_compute. reflexivity.
Defined.

End Buffer.
