(* ===== verification/Relay.v ===== *)
(** * The relay ([src/internal/relay/relay.go], [clock.go], [stats.go],
      [playback.go])

    [Relay] maps a camera to its live [Stream]; a stream holds the buffers of
    its tracks.  Both are shared by reference (a buffer keeps the pointer to its
    stream after the stream was dropped from the map), so the model is a store:
    streams and buffers are at references, and the map holds references.

    The locks are those of the code: the map's, one per stream and one per buffer.
    A goroutine is the list of the sections it still has to run ([call]); one that
    holds a stream's lock across several sections of buffers is a [holder], and
    [step] interleaves goroutines section by section.  A section of a buffer sees one
    state of the controller, whose own lock and atomic pointer are held only within
    the section.  Clock readings are arguments, those of different goroutines in no
    particular order.  Outbound
    tracks are objects of the WebRTC library: the result of building one is an
    argument.  Calls of the publisher's keyframe callback are logged with the time
    at which the request was let through. *)

From S2P Require Import Prelude GoFloat Keyframe Heap DynamicDelay Buffer.

Module Relay.
Import Buffer.

(** [webrtc.RTPCodecType] *)
Inductive codecType := Unknown | Audio | Video.

#[export] Instance codecType_eq_dec : EqDecision codecType.
Proof. solve_decision. Defined.

#[export] Instance codecType_countable : Countable codecType.
Proof.
  refine (inj_countable' (λ k, match k with Unknown => 0%nat | Audio => 1%nat | Video => 2%nat end)
            (λ n, match n with 0%nat => Unknown | 1%nat => Audio | _ => Video end) _).
  by intros [].
Defined.

Record Stream := mkStream {
  tracks : gmap codecType nat;        (* the outbound track of each kind *)
  buffers : list nat;
  delay : DynamicDelay.Controller;
  lastAdjust : time;
  streamRecoveryAt : time;
  recoveryShift : duration;
  senderBaseMS : F64.float64;
  senderBaseWall : time;
  streamLate : Z;
  streamDropped : Z;
  callback : option nat;              (* the publisher's [keyframe] function *)
  lastKeyframe : time
}.

#[export] Instance eta_Stream : Eta Stream := fun s =>
  mkStream (tracks s) (buffers s) (delay s) (lastAdjust s) (streamRecoveryAt s) (recoveryShift s)
    (senderBaseMS s) (senderBaseWall s) (streamLate s) (streamDropped s) (callback s) (lastKeyframe s).

(** [&Stream{tracks: ...}] *)
Definition newStream : Stream :=
  mkStream ∅ [] DynamicDelay.zeroController zeroTime zeroTime 0 (F64.of_Z 0) zeroTime 0 0 None zeroTime.

(** A call of a keyframe callback. *)
Record ask := mkAsk { askStream : nat; askCallback : nat; askTime : time }.

Record world := mkWorld {
  names : gmap string nat;            (* [Relay.streams] *)
  streams : gmap nat Stream;
  bufs : gmap nat Buffer;
  asks : list ask                     (* newest first *)
}.

#[export] Instance eta_world : Eta world := fun w => mkWorld (names w) (streams w) (bufs w) (asks w).

Inductive error := ErrBuildTrack | ErrNotPublishing.

Definition correctionInterval : duration := Second.
Definition keyframeInterval : duration := 500 * Millisecond.
Definition clockRecoveryWindow : duration := 30 * Second.

(** [New] *)
Definition New : world := mkWorld ∅ ∅ ∅ [].

Definition setStream (w : world) (r : nat) (s : Stream) : world := w <| streams := <[r := s]> (streams w) |>.

Definition setBuffer (w : world) (r : nat) (b : Buffer) : world := w <| bufs := <[r := b]> (bufs w) |>.

(** [askKeyframe]: [t0] is the reading of [time.Since], [t1] of [time.Now]. *)
Definition askKeyframe (w : world) (r : nat) (t0 t1 : time) : world :=
  match streams w !! r with
  | None => w
  | Some s =>
      match callback s with
      | None => w
      | Some f =>
          if tsub t0 (lastKeyframe s) <? keyframeInterval then w
          else (setStream w r (s <| lastKeyframe := t1 |>)) <| asks := mkAsk r f t1 :: asks w |>
      end
  end.

(** [Publish]; [track] is what [NewTrackLocalStaticRTP] returned, [fresh] a
    reference not in use. *)
Definition Publish (w : world) (ingestID : string) (kind : codecType) (track : option nat)
    (keyframe : option nat) (fresh : nat) : world * (nat + error) :=
  match track with
  | None => (w, inr ErrBuildTrack)
  | Some track =>
      let '(w, r) :=
        match names w !! ingestID with
        | Some r => (w, r)
        | None => ((setStream w fresh newStream) <| names := <[ingestID := fresh]> (names w) |>, fresh)
        end in
      match streams w !! r with
      | None => (w, inl track)
      | Some s =>
          let s := s <| tracks := <[kind := track]> (tracks s) |> in
          let s := if decide (kind = Video) then s <| callback := keyframe |> else s in
          (setStream w r s, inl track)
      end
  end.

(** [Subscribe]: the tracks, as the map holds them (the order is that of a map
    iteration). *)
Definition Subscribe (w : world) (ingestID : string) (t0 t1 : time)
  : world * (gmap codecType nat + error) :=
  match names w !! ingestID with
  | None => (w, inr ErrNotPublishing)
  | Some r =>
      let found := match streams w !! r with Some s => tracks s | None => ∅ end in
      if decide (found = ∅) then (w, inr ErrNotPublishing)
      else (askKeyframe w r t0 t1, inl found)
  end.

Definition Keyframe (w : world) (ingestID : string) (t0 t1 : time) : world :=
  match names w !! ingestID with
  | None => w
  | Some r => askKeyframe w r t0 t1
  end.

(** [Track] under the stream's lock. *)
Definition trackOn (w : world) (r buf : nat) : world :=
  match streams w !! r, bufs w !! buf with
  | Some s, Some b =>
      let b := b <| stream := Some r |> <| recoveryAt := streamRecoveryAt s |> in
      let b :=
        match DynamicDelay.state (delay s) with
        | Some st => b <| dynamic := Some r |> <| shift := DynamicDelay.Shift st |>
                       <| cutoff := DynamicDelay.Cutoff st |>
        | None => b
        end in
      setBuffer (setStream w r (s <| buffers := buffers s ++ [buf] |>)) buf b
  | _, _ => w
  end.

Definition Track (w : world) (ingestID : string) (buf : nat) : world :=
  match names w !! ingestID with None => w | Some r => trackOn w r buf end.

(** Whether a track is video, from its MIME type. *)
Definition isVideo (b : Buffer) : bool := HasPrefix (ToLower (mime b)) "video/".

(** [Untrack] under the stream's lock. *)
Definition untrackOn (w : world) (r buf : nat) : world :=
  match streams w !! r, bufs w !! buf with
  | Some s, Some b =>
      match list_find (eq buf) (buffers s) with
      | None => w
      | Some (idx, _) =>
          let s :=
            if isVideo b then
              let '(late, dropped) := Stats b in
              s <| streamLate := u64 (streamLate s + late) |>
                <| streamDropped := u64 (streamDropped s + dropped) |>
            else s in
          setStream w r (s <| buffers := delete idx (buffers s) |>)
      end
  | _, _ => w
  end.

Definition Untrack (w : world) (ingestID : string) (buf : nat) : world :=
  match names w !! ingestID with None => w | Some r => untrackOn w r buf end.

Definition Drop (w : world) (ingestID : string) : world := w <| names := delete ingestID (names w) |>.

(** ** The adaptive delay *)

(** The controller a buffer reads. *)
Definition ctl (w : world) (b : Buffer) : DynamicDelay.Controller :=
  match dynamic b ≫= λ r, streams w !! r with
  | Some s => delay s
  | None => DynamicDelay.zeroController
  end.

(** The second section of [ConfigureDelay] on a buffer of the stream [r], behind
    [SetTarget]. *)
Definition attachBuffer (r : nat) (c : DynamicDelay.Controller) (changed : bool) (b : Buffer) : Buffer :=
  let b := if changed then b <| peakLate := 0 |> else b in
  match DynamicDelay.state c with
  | Some st =>
      let b :=
        if decide (dynamic b = None)
        then b <| shift := DynamicDelay.Shift st |> <| cutoff := DynamicDelay.Cutoff st |>
        else b in
      b <| dynamic := Some r |>
  | None => b
  end.

(** Both sections, one right after the other. *)
Definition configureBuffer (r : nat) (c : DynamicDelay.Controller) (changed : bool)
    (target : duration) (b : Buffer) : Buffer := attachBuffer r c changed (SetTarget b target).

(** [f] on every buffer of a list of references. *)
Definition onBuffers (f : Buffer -> Buffer) (bs : gmap nat Buffer) (refs : list nat) : gmap nat Buffer :=
  fold_left (λ bs r, alter f r bs) refs bs.

(** [ConfigureDelay] when nothing comes between its sections. *)
Definition ConfigureDelay (w : world) (ingestID : string) (target : duration)
    (options : DynamicDelay.Options) (now : time) : world :=
  match names w !! ingestID with
  | None => w
  | Some r =>
      match streams w !! r with
      | None => w
      | Some s =>
          let c := DynamicDelay.Configure (delay s) target options now in
          let changed := negb (DynamicDelay.same_state (delay s) c) in
          (setStream w r (s <| delay := c |>))
            <| bufs := onBuffers (configureBuffer r c changed target) (bufs w) (buffers s) |>
      end
  end.

(** ** Clock corrections *)

(** The buffers of a list of references, in its order. *)
Definition lookupAll (bs : gmap nat Buffer) (refs : list nat) : list Buffer :=
  omap (λ r, bs !! r) refs.

(** The first loop of [alignSenderClocksLocked]: undo corrections that a report
    has shown to be timestamp jumps. *)
Definition undoStep (acc : gmap nat Buffer * time) (r : nat) : gmap nat Buffer * time :=
  let '(bs, wall) := acc in
  match bs !! r with
  | None => acc
  | Some b =>
      let '(b, rollback) := senderCorrectionLocked b in
      (<[r := b]> bs, tadd wall rollback)
  end.

(** Where the sender's timeline puts the anchor of [b]. *)
Definition senderAnchor (baseMS : F64.float64) (baseWall : time) (b : Buffer) : time :=
  let delta := durationOfMS (F64.sub (senderTimeMS b (baseRTP b)) baseMS) in
  tadd baseWall (dadd delta (shift b)).

(** [alignSenderClocksLocked]: the stream and the buffers after it, and whether
    sender clocks are in use. *)
Definition alignSenderClocksLocked (s : Stream) (bs : gmap nat Buffer)
  : Stream * gmap nat Buffer * bool :=
  if (length (buffers s) <? 2)%nat then (s, bs, false)
  else if existsb (λ b, negb (based b) || (senderNTP b =? 0)) (lookupAll bs (buffers s))
  then (s, bs, false)
  else
    let '(bs, wall) := fold_left undoStep (buffers s) (bs, senderBaseWall s) in
    let established := negb (IsZero wall) in
    let '(ms, wall) :=
      if established then (senderBaseMS s, wall)
      else
        match lookupAll bs (buffers s) with
        | anchor :: _ => (senderTimeMS anchor (baseRTP anchor), tadd (baseWall anchor) (dsub 0 (shift anchor)))
        | [] => (senderBaseMS s, wall)
        end in
    let bs := onBuffers (λ b, alignSenderClockLocked b (senderAnchor ms wall b) established) bs (buffers s) in
    (s <| senderBaseMS := ms |> <| senderBaseWall := wall |>, bs, true).

(** One round of the loop of [clockCorrectionLocked]; [n] numbers the buffer
    and [until n] is its reading of [time.Until]. *)
Record scan := mkScan { scanShift : duration; scanSource : option nat; scanFresh : bool; scanWaiting : bool }.

Definition scanStep (s : Stream) (bs : gmap nat Buffer) (until : nat -> time)
    (acc : scan) (entry : nat * nat) : scan :=
  let '(n, r) := entry in
  match bs !! r with
  | None => acc
  | Some b =>
      let excess := dsub (depthLocked b (until n)) (target b) in
      let acc :=
        if correctionMargin (target b) <? excess then
          let '(sh, src) := if scanShift acc <? excess then (excess, Some r) else (scanShift acc, scanSource acc) in
          mkScan sh src (scanFresh acc || (recoveryAt b =? streamRecoveryAt s)) (scanWaiting acc)
        else acc in
      mkScan (scanShift acc) (scanSource acc) (scanFresh acc) (scanWaiting acc || catchUp b)
  end.

Definition numbered (refs : list nat) : list (nat * nat) := zip (seq 0 (length refs)) refs.

(** [clockCorrectionLocked]; [None] is the panic of [newestLocked().pkt] on an
    empty queue. *)
Definition clockCorrectionLocked (s : Stream) (bs : gmap nat Buffer) (now : time) (senderClocks : bool)
    (until : nat -> time) : option (Stream * gmap nat Buffer * duration * bool) :=
  let fresh := senderClocks || (clockRecoveryWindow <=? tsub now (streamRecoveryAt s)) in
  let acc := fold_left (scanStep s bs until) (numbered (buffers s)) (mkScan 0 None fresh false) in
  if scanShift acc =? 0 then Some (s, bs, 0, scanWaiting acc)
  else
    bs ←
      (if senderClocks then
         r ← scanSource acc;
         b ← bs !! r;
         newest ← newestLocked b;
         let stamp := Timestamp (Heap.pkt newest) in
         Some (<[r := b <| correctionShift := dadd (correctionShift b) (scanShift acc) |>
                        <| correctionRTP := stamp |> <| correctionMS := senderTimeMS b stamp |>]> bs)
       else Some bs);
    let s :=
      if scanFresh acc then s <| streamRecoveryAt := now |> <| recoveryShift := scanShift acc |> else s in
    Some (s, bs, recoveryShift s, scanWaiting acc).

(** The last loop of [correctClocks], on one buffer; [u] is its reading of
    [time.Until]. *)
Definition recoverBuffer (s : Stream) (senderClocks : bool) (sh : duration) (u : time) (b : Buffer) : Buffer :=
  if (0 <? sh)
     && (senderClocks
         || (negb (recoveryAt b =? streamRecoveryAt s) && (minMargin <? dsub (depthLocked b u) (target b))))
  then (moveClockLocked b (dsub 0 sh) true) <| recoveryAt := streamRecoveryAt s |>
  else b.

(** [correctClocks] between its two loops, with all the stream's buffers locked; the
    readings are those of [time.Until]. *)
Definition correction (s : Stream) (bs : gmap nat Buffer) (now : time) (until : nat -> time)
  : option (Stream * gmap nat Buffer * bool * duration * bool) :=
  let '(s, bs, senderClocks) := alignSenderClocksLocked s bs in
  '(s, bs, sh, waiting) ← clockCorrectionLocked s bs now senderClocks until;
  let s := if (senderClocks : bool) then s <| senderBaseWall := tadd (senderBaseWall s) (dsub 0 sh) |> else s in
  Some (s, bs, senderClocks, sh, waiting).

(** ** Reads *)
Record Statistics := mkStatistics { Playout : option DynamicDelay.Status; Late : Z; Dropped : Z }.

Definition addStats (acc : Z * Z) (b : Buffer) : Z * Z :=
  if isVideo b then
    let '(late, dropped) := Stats b in (u64 (acc.1 + late), u64 (acc.2 + dropped))
  else acc.

(** [Relay.Stats] *)
Definition StatsOf (w : world) (ingestID : string) (now : time) : option Statistics :=
  match names w !! ingestID ≫= (λ r, streams w !! r) with
  | None => None
  | Some s =>
      let '(late, dropped) :=
        fold_left addStats (lookupAll (bufs w) (buffers s)) (streamLate s, streamDropped s) in
      Some (mkStatistics
        (if (0 <? length (buffers s))%nat then Some (DynamicDelay.StatusOf (delay s) now) else None)
        late dropped)
  end.

(** [dynamicdelay.Playback]: what [Relay.Playback] fills in. *)
Record PlaybackState := mkPlayback { Clocks : list Clock; CurrentDelayMS : F64.float64 }.

Definition Playback (w : world) (ingestID : string) (now : time) : option PlaybackState :=
  match names w !! ingestID ≫= (λ r, streams w !! r) with
  | None => Some (mkPlayback [] (F64.of_Z 0))
  | Some s =>
      let bs := lookupAll (bufs w) (buffers s) in
      let current :=
        match DynamicDelay.state (delay s) with
        | Some st => DynamicDelay.msOf (DynamicDelay.Delay st now)
        | None => match last bs with Some b => DynamicDelay.msOf (target b) | None => F64.of_Z 0 end
        end in
      let senderClocks := forallb (λ b, negb (senderNTP b =? 0)) bs in
      clocks ← mapM (λ b, playbackClockLocked b senderClocks) (filter (λ b, based b = true) bs);
      Some (mkPlayback clocks current)
  end.

(** ** Invariant *)

(** The controller's own copy of the last jump agrees with its curve. *)
Definition mirror (c : DynamicDelay.Controller) : Prop :=
  match DynamicDelay.state c with
  | Some st => DynamicDelay.Shift st = DynamicDelay.shift c /\ DynamicDelay.Cutoff st = DynamicDelay.cutoff c
  | None => True
  end.

(** A buffer that has seen the controller's last jump has applied its shift. *)
Definition synced (c : DynamicDelay.Controller) (b : Buffer) : Prop :=
  cutoff b = DynamicDelay.cutoff c -> shift b = DynamicDelay.shift c.

(** The store between two sections. *)
Record wf (w : world) : Prop := WF {
  wf_names : forall id r, names w !! id = Some r -> is_Some (streams w !! r);
  wf_stream : forall r s, streams w !! r = Some s ->
    mirror (delay s) /\ NoDup (buffers s)
    /\ forall i, i ∈ buffers s -> exists b, bufs w !! i = Some b /\ stream b = Some r;
  wf_buffer : forall i b, bufs w !! i = Some b ->
    buffer_ok b
    /\ (forall r, stream b = Some r -> is_Some (streams w !! r))
    /\ (forall r, dynamic b = Some r -> stream b = Some r
          /\ exists s, streams w !! r = Some s /\ synced (delay s) b)
}.

Definition putCtl (w : world) (b : Buffer) (c : DynamicDelay.Controller) : world :=
  match dynamic b with
  | Some r => w <| streams := alter (λ s, s <| delay := c |>) r (streams w) |>
  | None => w
  end.

(** Which keyframe callback a video publish registers. *)
Inductive event := EVideo (f : option nat) | ESilent.

(** ** The goroutines of the relay *)

(** What a goroutine is about to do to the stream [r], which it has looked up
    already: [askKeyframe]; the reading of the tracks in [Subscribe]; [Track];
    [Untrack]; [ConfigureDelay]; [adjustDelay] at its first look at the controller
    and at the lock; [correctClocks]. *)
Inductive call :=
  | CAsk (r : nat)
  | CTracks (r : nat)
  | CTrack (r buf : nat)
  | CUntrack (r buf : nat)
  | CConfigure (r : nat) (target : duration) (o : DynamicDelay.Options)
  | CAdjust (r : nat) (now : time)
  | CSample (r : nat) (now : time)
  | CClocks (r : nat).

Definition streamOf (c : call) : nat :=
  match c with
  | CAsk r | CTracks r | CTrack r _ | CUntrack r _ | CConfigure r _ _ | CAdjust r _ | CSample r _ | CClocks r => r
  end.

(** A goroutine that holds the lock of a stream, and takes those of its buffers.
    [adjustDelay]: the buffers still to be sampled, with the worst lateness so far.
    [ConfigureDelay]: the state read, the new settings in, the buffers still to be
    retargeted, one whose target is set.  [correctClocks]: the buffers locked so far
    and those still to be locked; the correction decided and the buffers still to be
    moved and unlocked.  (The last loop of [adjustDelay] wakes the readers, and changes
    nothing.) *)
Inductive holder :=
  | Sampling (now : time) (late : duration) (todo : list nat)
  | Configuring (target : duration) (o : DynamicDelay.Options) (now : time) (previous : DynamicDelay.Controller)
  | Configured (target : duration) (previous : DynamicDelay.Controller)
  | Retargeting (target : duration) (changed : bool) (todo : list nat)
  | Attaching (target : duration) (changed : bool) (buf : nat) (todo : list nat)
  | Gathering (now : time) (held todo : list nat)
  | Releasing (senderClocks : bool) (sh : duration) (waiting : bool) (todo : list nat).

(** The buffers whose locks it holds, and the one whose lock it takes next. *)
Definition heldBy (h : holder) : list nat :=
  match h with Gathering _ held _ => held | Releasing _ _ _ todo => todo | _ => [] end.

Definition wants (h : holder) : option nat :=
  match h with
  | Sampling _ _ (i :: _) | Retargeting _ _ (i :: _) | Attaching _ _ i _ | Gathering _ _ (i :: _) => Some i
  | _ => None
  end.

(** A call, once the stream's lock is free where it needs it: what is left to do, or
    the lock kept.  [t0] and [t1] are the clock readings. *)
Definition perform (w : world) (c : call) (t0 t1 : time) : world * (list call + holder) :=
  match streams w !! streamOf c with
  | None => (w, inl [])
  | Some s =>
      match c with
      | CAsk r => (askKeyframe w r t0 t1, inl [])
      | CTracks r => (w, inl (if decide (tracks s = ∅) then [] else [CAsk r]))
      | CTrack r buf => (trackOn w r buf, inl [])
      | CUntrack r buf => (untrackOn w r buf, inl [])
      | CConfigure r target o => (w, inr (Configuring target o t1 (delay s)))
      | CAdjust r now =>
          (w, inl (match DynamicDelay.state (delay s) with None => [] | Some _ => [CSample r now] end))
      | CSample r now =>
          if tsub now (lastAdjust s) <? correctionInterval then (w, inl [])
          else (setStream w r (s <| lastAdjust := now |>), inr (Sampling now 0 (buffers s)))
      | CClocks r => (w, inr (Gathering t1 [] (buffers s)))
      end
  end.

(** The next section of a goroutine that holds the lock of the stream [r]: it goes on,
    or it unlocks the stream and has something left to do.  [None] is a panic. *)
Definition advance (w : world) (r : nat) (h : holder) (u : time) (until : nat -> time)
  : option (world * (holder + list call)) :=
  s ← streams w !! r;
  match h with
  | Sampling now late (i :: todo) =>
      b ← bufs w !! i;
      let b := (dynamicOffsetLocked b (ctl w b) now).1 in
      Some (setBuffer w i (b <| peakLate := 0 |>), inl (Sampling now (Z.max late (peakLate b)) todo))
  | Sampling now late [] =>
      let '(c, st) := DynamicDelay.Step (delay s) now late in
      Some (setStream w r (s <| delay := c |>),
            inr (match st with Some st => if DynamicDelay.Pending st then [CAsk r] else [] | None => [] end))
  | Configuring target o now previous =>
      Some (setStream w r (s <| delay := DynamicDelay.Configure (delay s) target o now |>),
            inl (Configured target previous))
  | Configured target previous =>
      Some (w, inl (Retargeting target (negb (DynamicDelay.same_state previous (delay s))) (buffers s)))
  | Retargeting target changed (i :: todo) =>
      b ← bufs w !! i; Some (setBuffer w i (SetTarget b target), inl (Attaching target changed i todo))
  | Attaching target changed i todo =>
      b ← bufs w !! i;
      Some (setBuffer w i (attachBuffer r (delay s) changed b), inl (Retargeting target changed todo))
  | Retargeting _ _ [] => Some (w, inr [])
  | Gathering now held (i :: todo) =>
      b ← bufs w !! i;
      Some (setBuffer w i (dynamicOffsetLocked b (ctl w b) now).1, inl (Gathering now (held ++ [i]) todo))
  | Gathering now held [] =>
      '(s', bs, senderClocks, sh, waiting) ← correction s (bufs w) now until;
      Some ((setStream w r s') <| bufs := bs |>, inl (Releasing senderClocks sh waiting (buffers s)))
  | Releasing senderClocks sh waiting (i :: todo) =>
      b ← bufs w !! i;
      Some (setBuffer w i (recoverBuffer s senderClocks sh u b), inl (Releasing senderClocks sh waiting todo))
  | Releasing _ sh waiting [] => Some (w, inr (if (0 <? sh) || (waiting : bool) then [CAsk r] else []))
  end.

(** The store, the streams whose lock is kept with who keeps it and what that
    goroutine does afterwards, and the other goroutines. *)
Record system := mkSystem {
  store : world;
  busy : gmap nat (holder * list call);
  running : list (list call)
}.

#[export] Instance eta_system : Eta system := fun y => mkSystem (store y) (busy y) (running y).

Definition idle (w : world) : system := mkSystem w ∅ [].

(** Nobody holds the lock of a buffer across sections. *)
Definition free (y : system) (i : nat) : Prop := map_Forall (λ _ hk, i ∉ heldBy hk.1) (busy y).

#[export] Instance free_dec y i : Decision (free y i).
Proof. unfold free. apply _. Defined.

(** What a call needs before it can run: the stream's lock, but for the first look at
    the controller; and that of the buffer whose counters [Untrack] reads.  A buffer is
    tracked once, by the session that made it. *)
Definition allowed (y : system) (c : call) : Prop :=
  match c with CAdjust _ _ => True | _ => busy y !! streamOf c = None end
  /\ match c with
     | CTrack _ i => (stream <$> bufs (store y) !! i) = Some None
     | CUntrack _ i => free y i
     | _ => True
     end.

#[export] Instance allowed_dec y c : Decision (allowed y c).
Proof. unfold allowed. destruct c; apply _. Defined.

(** No jump of this camera had the clock reading [now]. *)
Definition unjumped (w : world) (b : Buffer) (now : time) : Prop :=
  DynamicDelay.cutoff (ctl w b) <> now
  /\ map_Forall (λ _ bj, dynamic bj = dynamic b -> cutoff bj <> now) (bufs w).

#[export] Instance unjumped_dec w b now : Decision (unjumped w b now).
Proof. unfold unjumped. apply _. Defined.

(** Steps of the goroutines.  The sections of [Publish] and of the buffers are
    steps of their own; the other methods look the stream up and become goroutines,
    and so does [Buffer.Correct]. *)
Inductive step : system -> event -> system -> Prop :=
  | S_publish y id kind track kf fresh :
      streams (store y) !! fresh = None ->
      (forall r, names (store y) !! id = Some r -> busy y !! r = None) ->
      step y (match kind, track with Video, Some _ => EVideo kf | _, _ => ESilent end)
        (y <| store := (Publish (store y) id kind track kf fresh).1 |>)
  | S_drop y id : step y ESilent (y <| store := Drop (store y) id |>)
  | S_newBuffer y i target rate m kf :
      bufs (store y) !! i = None -> 0 <= target <= DynamicDelay.tenSeconds -> 0 < rate < 4294967296 ->
      step y ESilent (y <| store := setBuffer (store y) i (NewBuffer target rate m kf) |>)
  | S_lookup y id r c :
      names (store y) !! id = Some r -> streamOf c = r ->
      match c with
      | CTracks _ | CAsk _ | CTrack _ _ | CUntrack _ _ => True
      | CConfigure _ target _ => 0 <= target <= DynamicDelay.tenSeconds
      | _ => False
      end ->
      step y ESilent (y <| running := running y ++ [[c]] |>)
  | S_correct y i b r now :
      bufs (store y) !! i = Some b -> stream b = Some r ->
      step y ESilent (y <| running := running y ++ [[CAdjust r now; CClocks r]] |>)
  | S_call y l c k l' t0 t1 w after :
      running y = l ++ (c :: k) :: l' -> allowed y c -> t0 <= t1 ->
      perform (store y) c t0 t1 = (w, inl after) ->
      step y ESilent (y <| store := w |> <| running := l ++ (after ++ k) :: l' |>)
  | S_lock y l c k l' t0 t1 w h :
      running y = l ++ (c :: k) :: l' -> allowed y c -> t0 <= t1 ->
      perform (store y) c t0 t1 = (w, inr h) ->
      step y ESilent (y <| store := w |> <| busy := <[streamOf c := (h, k)]> (busy y) |> <| running := l ++ l' |>)
  | S_section y r h k u until w h' :
      busy y !! r = Some (h, k) -> (forall i, wants h = Some i -> free y i) -> (forall n, 0 <= until n) ->
      advance (store y) r h u until = Some (w, inl h') ->
      step y ESilent (y <| store := w |> <| busy := <[r := (h', k)]> (busy y) |>)
  | S_unlock y r h k u until w after :
      busy y !! r = Some (h, k) -> (forall i, wants h = Some i -> free y i) -> (forall n, 0 <= until n) ->
      advance (store y) r h u until = Some (w, inr after) ->
      step y ESilent (y <| store := w |> <| busy := delete r (busy y) |> <| running := running y ++ [after ++ k] |>)
  | S_push y i b b' c' f p t0 t1 now :
      bufs (store y) !! i = Some b -> free y i ->
      Push b (ctl (store y) b) p t0 t1 now = Some (b', c', f) ->
      (c' <> ctl (store y) b -> unjumped (store y) b now) ->
      step y ESilent (y <| store := putCtl (setBuffer (store y) i b') b c' |>)
  | S_pop y i b b' t now :
      bufs (store y) !! i = Some b -> free y i -> fits b ->
      pop_turn b (ctl (store y) b) now = Some (b', t) ->
      step y ESilent (y <| store := setBuffer (store y) i b' |>)
  | S_report y i b b' ts ntp :
      bufs (store y) !! i = Some b -> free y i -> SenderReport b ts ntp = Some b' ->
      step y ESilent (y <| store := setBuffer (store y) i b' |>)
  | S_close y i b now :
      bufs (store y) !! i = Some b -> free y i ->
      step y ESilent (y <| store := setBuffer (store y) i (Close b now) |>).

(** The systems the relay can reach, with the events on the way, newest first. *)
Inductive reach : list event -> system -> Prop :=
  | R_new : reach [] (idle New)
  | R_step es y e y' : reach es y -> step y e y' -> reach (e :: es) y'.

(** ** Lemmas: the controller and one buffer *)
Lemma Configure_mirror c base o now :
  mirror c -> let c' := DynamicDelay.Configure c base o now in
  mirror c' /\ DynamicDelay.shift c' = DynamicDelay.shift c /\ DynamicDelay.cutoff c' = DynamicDelay.cutoff c.
Proof.
  unfold mirror, DynamicDelay.Configure. intros Hm. destruct (_ && _); [done|].
  cbn. destruct (DynamicDelay.state c); [done|]. by destruct (negb _).
Qed.

Lemma Step_mirror c now late :
  mirror c -> let c' := (DynamicDelay.Step c now late).1 in
  mirror c' /\ DynamicDelay.shift c' = DynamicDelay.shift c /\ DynamicDelay.cutoff c' = DynamicDelay.cutoff c.
Proof.
  unfold mirror, DynamicDelay.Step. intros Hm.
  destruct (DynamicDelay.state c) as [st|] eqn:E; simpl; rewrite ?E; [|done].
  destruct (_ || _); simpl; rewrite ?E; [done|]. destruct (negb _); [done|].
  destruct (DynamicDelay.updateGoal _ _ _ _) as [c1 ex] eqn:Eu. simpl.
  unfold DynamicDelay.updateGoal in Eu.
  repeat match type of Eu with context [let '(_, _) := ?x in _] => destruct x end.
  simplify_eq/=. done.
Qed.

Lemma JumpTo_mirror c now media :
  mirror c -> let c' := DynamicDelay.JumpTo c now media in
  mirror c' /\ (c' = c \/ DynamicDelay.cutoff c' = now).
Proof.
  unfold mirror, DynamicDelay.JumpTo. intros Hm.
  destruct (DynamicDelay.state c) as [st|] eqn:E; [|rewrite E; auto].
  destruct (negb _); [rewrite E; auto|]. split; [done|]. by right.
Qed.

(** A sample begun before the last jump is ignored. *)
Lemma sample_before_jump c now late :
  mirror c -> DynamicDelay.state c <> None -> now < DynamicDelay.cutoff c ->
  DynamicDelay.Step c now late = (c, DynamicDelay.state c).
Proof.
  unfold mirror, DynamicDelay.Step. destruct (DynamicDelay.state c) as [st|] eqn:E; [|done].
  intros [_ Ec] _ Hlt. unfold Before. rewrite (proj2 (Z.ltb_lt now _)); [done|congruence].
Qed.

(** The fields of a buffer that tie it to its stream and controller. *)
Definition place (b : Buffer) : option nat * option nat * time * duration :=
  (stream b, dynamic b, cutoff b, shift b).

Lemma enqueue_place b p t b' f : enqueue b p t = Some (b', f) -> place b' = place b.
Proof.
  unfold enqueue. destruct (Heap.push _ _) as [[q g]|]; [|done]. obind. intros [= <- _].
  by destruct (resetPending b), (_ <? _).
Qed.

Lemma staleReset_place b q t now o : place (staleResetPacketLocked b q t now o).1 = place b.
Proof. unfold staleResetPacketLocked. by cases_if. Qed.

(** [b'] is [b], or [b] with the last jump of [c] applied. *)
Definition seen (c : DynamicDelay.Controller) (b b' : Buffer) : Prop :=
  place b' = place b
  \/ dynamic b <> None
     /\ place b' = (stream b, dynamic b, DynamicDelay.cutoff c, DynamicDelay.shift c).

(** What [Push] may do to the place of a buffer and to the controller: apply the
    last jump, or take a pending one. *)
Definition pushed (b : Buffer) (c : DynamicDelay.Controller) (now : time)
    (b' : Buffer) (c' : DynamicDelay.Controller) : Prop :=
  c' = c /\ seen c b b'
  \/ c' <> c /\ mirror c' /\ DynamicDelay.cutoff c' = now /\ dynamic b <> None
     /\ place b' = (stream b, dynamic b, now, DynamicDelay.shift c').

Lemma seen_offset b c now : mirror c -> seen c b (dynamicOffsetLocked b c now).1.
Proof.
  intros Hm. unfold seen, mirror, dynamicOffsetLocked, place in *.
  destruct (dynamic b) eqn:E; simpl; rewrite ?E; auto.
  destruct (DynamicDelay.state c); simpl; rewrite ?E; auto.
  destruct (_ =? _); simpl; rewrite ?E; auto. right. destruct Hm as [<- <-]. by split.
Qed.

Lemma seen_trans c b1 b2 b3 : seen c b1 b2 -> seen c b2 b3 -> seen c b1 b3.
Proof.
  unfold seen, place. intros [[= E1 E2 E3 E4]|[Hd [= E1 E2 E3 E4]]] Hs;
    rewrite E1, E2, E3, E4 in Hs; tauto.
Qed.

Lemma seen_place c b b1 b2 : seen c b b1 -> place b2 = place b1 -> seen c b b2.
Proof. unfold seen. by intros H ->. Qed.

Lemma dynamicOffset_stream b c now : stream (dynamicOffsetLocked b c now).1 = stream b.
Proof.
  unfold dynamicOffsetLocked. destruct (dynamic b), (DynamicDelay.state c); try done. by destruct (_ =? _).
Qed.

Lemma jumpsAt_dynamic b c p : jumpsAt b c p = Some true -> dynamic b <> None
  /\ exists st, DynamicDelay.state c = Some st /\ DynamicDelay.Pending st = true.
Proof.
  unfold jumpsAt. destruct (_ && _) eqn:E; [|done]. bool_hyps. apply bool_decide_eq_true in H.
  destruct (DynamicDelay.state c) as [st|]; [|done]. destruct (DynamicDelay.Pending st) eqn:Ep; [|done].
  intros _. split; [done|]. by exists st.
Qed.

Lemma arrival_pushed b c p now b' c' t o stale :
  mirror c -> (c' <> c -> cutoff b <> now /\ DynamicDelay.cutoff c <> now) ->
  dynamicArrivalLocked b c p now = Some (b', c', t, o, stale) -> pushed b c now b' c'.
Proof.
  intros Hm Hne. unfold dynamicArrivalLocked. pose proof (seen_offset b c now Hm) as S1.
  destruct (dynamicOffsetLocked b c now) as [b1 o1]. simpl in S1.
  destruct (playoutOf b1 _) as [t1|]; [|done]. obind.
  set (r := if Before _ _ then _ else _).
  assert (Hr : place r.1 = place b1) by (subst r; destruct (Before _ _); [done|apply staleReset_place]).
  destruct r as [b2 st2]. simpl in Hr. assert (S2 : seen c b b2) by (by eapply seen_place).
  destruct st2; [intros [= <- <- _ _ _]; by left|].
  destruct (jumpsAt b2 c p) as [[]|] eqn:Ej; obind; [|intros [= <- <- _ _ _]; by left|done].
  apply jumpsAt_dynamic in Ej as [Hd (st & Hs & Hp)].
  set (c2 := DynamicDelay.JumpTo c now _).
  assert (Hc2 : exists st', DynamicDelay.state c2 = Some st' /\ DynamicDelay.Cutoff st' = now
            /\ DynamicDelay.Shift st' = DynamicDelay.shift c2 /\ DynamicDelay.cutoff c2 = now /\ c2 <> c).
  { unfold c2. unfold DynamicDelay.JumpTo. rewrite Hs, Hp. cbn. eexists. split_and!; [done..|].
    intros E%(f_equal DynamicDelay.addr). cbn in E. lia. }
  destruct Hc2 as (st' & Hs' & Hcut & Hsh & Hc2 & Hdiff).
  destruct (dynamic b2) as [n|] eqn:En; [|done].
  pose proof (offset_jumped b2 c2 st' n now En Hs') as Hoff.
  pose proof (dynamicOffset_stream b2 c2 now) as Est.
  destruct (dynamicOffsetLocked b2 c2 now) as [b3 o3]. simpl in *.
  destruct (playoutOf b3 _) as [t3|]; [|done]. obind. intros [= <- <- _ _ _]. right.
  destruct (Hne Hdiff) as [Hn1 Hn2]. destruct Hoff as (_ & _ & Ec & Es & _ & _ & _ & _ & Ed & _).
  { destruct S2 as [[= _ _ E _]|[_ [= _ _ E _]]]; congruence. }
  assert (Hsd : stream b2 = stream b /\ dynamic b2 = dynamic b)
    by (destruct S2 as [[= ????]|[_ [= ????]]]; done).
  destruct Hsd as [Hstr Hdyn]. split_and!.
  - done.
  - unfold mirror. rewrite Hs'. split; congruence.
  - done.
  - congruence.
  - unfold place. congruence.
Qed.

Lemma seen_pushed b c now b1 b2 c2 :
  seen c b b1 -> pushed b1 c now b2 c2 -> pushed b c now b2 c2.
Proof.
  intros S [[-> S2]|(Hdf & Hm & Hc & Hd & Hp)]; [left; split; [done|by eapply seen_trans]|].
  right. unfold place in *. destruct S as [[= E1 E2 _ _]|[_ [= E1 E2 _ _]]]; by rewrite E1, E2 in *.
Qed.

Lemma pushed_place b c now b1 b2 c2 :
  pushed b c now b1 c2 -> place b2 = place b1 -> pushed b c now b2 c2.
Proof. unfold pushed, seen. by intros H ->. Qed.

Lemma seen_anchor b c p t0 t1 : mirror c -> seen c b (anchor b c p t0 t1).
Proof.
  intros Hm. unfold anchor. destruct (based b); [by left|].
  pose proof (seen_offset b c t0 Hm) as S. destruct (dynamicOffsetLocked b c t0).
  by eapply seen_place.
Qed.

Lemma seen_cutoff c b b' now :
  seen c b b' -> cutoff b <> now -> DynamicDelay.cutoff c <> now -> cutoff b' <> now.
Proof. intros [[= _ _ -> _]|[_ [= _ _ -> _]]]; done. Qed.

Lemma Push_pushed b c p t0 t1 now b' c' f :
  mirror c -> (c' <> c -> cutoff b <> now /\ DynamicDelay.cutoff c <> now) ->
  Push b c p t0 t1 now = Some (b', c', f) -> pushed b c now b' c'.
Proof.
  intros Hm Hne. unfold Push. destruct (closed b); [intros [= <- <- _]; left; split; [done|by left]|].
  pose proof (seen_anchor b c p t0 t1 Hm) as S0. set (b0 := anchor b c p t0 t1) in *.
  assert (Hne0 : c' <> c -> cutoff b0 <> now /\ DynamicDelay.cutoff c <> now).
  { intros Hd. destruct (Hne Hd). split; [by eapply seen_cutoff|done]. }
  clearbody b0.
  destruct (dynamicArrivalLocked b0 c p now) as [[[[[b1 c1] t] o] stale]|] eqn:Ea; [|done]. obind.
  intros E. assert (c1 = c') as ->.
  { revert E. destruct stale; [congruence|]. set (b2 := if 0 <? _ then _ else _).
    destruct (if catchUp b2 then Keyframe.isKeyframe _ _ else _) as [key|]; [|done]. obind.
    destruct (_ && _); [congruence|]. destruct (enqueue _ _ _) as [[b4 g]|]; [|done]. obind.
    congruence. }
  revert E. apply arrival_pushed in Ea; [|done..]. apply (seen_pushed b c now b0) in Ea; [|done].
  destruct stale; [intros [= <- _]; by eapply pushed_place|].
  set (b2 := if 0 <? _ then _ else _).
  assert (P2 : place b2 = place b1) by (subst b2; by destruct (0 <? _)). clearbody b2.
  destruct (if catchUp b2 then Keyframe.isKeyframe _ _ else _) as [key|]; [|done]. obind.
  destruct (catchUp b2 && negb key); [intros [= <- _]; by eapply pushed_place|].
  set (b3 := if catchUp b2 then _ else _).
  assert (P3 : place b3 = place b2) by (subst b3; by destruct (catchUp b2)). clearbody b3.
  destruct (enqueue b3 p t) as [[b4 g]|] eqn:Ee; [|done]. obind. intros [= <- _].
  apply enqueue_place in Ee. eapply pushed_place; [done|]. congruence.
Qed.

Lemma pop_turn_seen b c now b' t : mirror c -> pop_turn b c now = Some (b', t) -> seen c b b'.
Proof.
  intros Hm. unfold pop_turn. destruct (_ && _); [intros [= <- _]; by left|].
  destruct (_ =? _)%nat; [intros [= <- _]; by left|].
  pose proof (seen_offset b c now Hm) as S. destruct (dynamicOffsetLocked b c now) as [b1 o]. simpl in S.
  destruct (length (queue b1) =? 0)%nat; [intros [= <- _]; done|].
  destruct (queue b1 !! 0%nat) as [head|] eqn:Eh; [|done]. obind.
  destruct (_ <=? 0); [|intros [= <- _]; done].
  destruct (paceHoldLocked b1 now _) as [[b2 hold]|] eqn:Ep; [|done]. obind.
  assert (P2 : place b2 = place b1).
  { unfold paceHoldLocked in Ep. rewrite Eh in Ep. revert Ep. obind.
    set (bg := if _ =? group _ then _ else _).
    assert (place bg = place b1) by (subst bg; unfold startGroupLocked; by cases_if). clearbody bg.
    destruct (_ <? _); intros [= <- _]; done. }
  destruct (0 <? hold); [intros [= <- _]; by eapply seen_place|].
  destruct (Heap.pop (queue b2)) as [[top q]|]; [|done]. obind. intros [= <- _].
  eapply seen_place; [done|]. rewrite <-P2. unfold chargePaceLocked. by cases_if.
Qed.

(** ** Lemmas: the store *)

(** A step of one buffer, its controller being the one the world gives it. *)
Definition ok_step (w : world) (b b' : Buffer) : Prop :=
  (buffer_ok b -> buffer_ok b') /\ seen (ctl w b) b b'.

Lemma ok_step_refl w b : ok_step w b b.
Proof. split; [done|by left]. Qed.

Lemma seen_dynamic c b b' : seen c b b' -> dynamic b' = dynamic b /\ stream b' = stream b.
Proof. intros [[= ????]|[_ [= ????]]]; done. Qed.

Lemma ok_step_trans w b1 b2 b3 : ok_step w b1 b2 -> ok_step w b2 b3 -> ok_step w b1 b3.
Proof.
  intros [O1 S1] [O2 S2]. split; [auto|]. eapply seen_trans; [exact S1|].
  replace (ctl w b1) with (ctl w b2); [done|].
  unfold ctl. by destruct (seen_dynamic _ _ _ S1) as [-> _].
Qed.

Lemma ok_step_place w b b' : (buffer_ok b -> buffer_ok b') -> place b' = place b -> ok_step w b b'.
Proof. split; [done|by left]. Qed.

(** Buffer stores that differ by steps of their buffers. *)
Definition maps_step (w : world) (bs bs' : gmap nat Buffer) : Prop :=
  forall i, match bs !! i, bs' !! i with
            | Some b, Some b' => ok_step w b b'
            | None, None => True
            | _, _ => False
            end.

Lemma maps_step_refl w bs : maps_step w bs bs.
Proof. intros i. destruct (bs !! i); auto using ok_step_refl. Qed.

Lemma maps_step_trans w bs1 bs2 bs3 : maps_step w bs1 bs2 -> maps_step w bs2 bs3 -> maps_step w bs1 bs3.
Proof.
  intros H1 H2 i. specialize (H1 i). specialize (H2 i).
  destruct (bs1 !! i), (bs2 !! i), (bs3 !! i); try done. by eapply ok_step_trans.
Qed.

Lemma maps_step_insert w bs i b b' :
  bs !! i = Some b -> ok_step w b b' -> maps_step w bs (<[i := b']> bs).
Proof.
  intros Hb Hs j. destruct (decide (i = j)) as [<-|].
  - by rewrite Hb, lookup_insert_eq.
  - rewrite lookup_insert_ne by done. destruct (bs !! j); auto using ok_step_refl.
Qed.

Lemma maps_step_alter w bs i g :
  (forall b, bs !! i = Some b -> ok_step w b (g b)) -> maps_step w bs (alter g i bs).
Proof.
  intros Hg j. destruct (decide (i = j)) as [<-|].
  - rewrite lookup_alter_eq. destruct (bs !! i) as [b|] eqn:E; simpl; auto.
  - rewrite lookup_alter_ne by done. destruct (bs !! j); auto using ok_step_refl.
Qed.

Lemma maps_step_dynamic w bs bs' i b' :
  maps_step w bs bs' -> bs' !! i = Some b' ->
  exists b, bs !! i = Some b /\ dynamic b' = dynamic b /\ stream b' = stream b.
Proof.
  intros H Hi. specialize (H i). rewrite Hi in H. destruct (bs !! i) as [b|]; [|done].
  exists b. split; [done|]. destruct H as [_ S]. by eapply seen_dynamic.
Qed.

(** A loop over references that steps each buffer. *)
Lemma maps_step_fold {A} w (f : gmap nat Buffer -> A -> gmap nat Buffer) l bs :
  (forall bs' x, x ∈ l -> maps_step w bs bs' -> maps_step w bs' (f bs' x)) ->
  maps_step w bs (fold_left f l bs).
Proof.
  intros Hf. assert (H : forall bs', maps_step w bs bs' -> maps_step w bs (fold_left f l bs')).
  { induction l as [|x l IH]; intros bs' Hs; [done|]. simpl. apply IH.
    - intros bs2 y Hy. apply Hf. by constructor.
    - eapply maps_step_trans; [done|]. apply Hf; [constructor|done]. }
  apply H, maps_step_refl.
Qed.

Lemma maps_step_on w f refs bs :
  (forall i b0 b, i ∈ refs -> bs !! i = Some b0 -> dynamic b = dynamic b0 -> ok_step w b (f b)) ->
  maps_step w bs (onBuffers f bs refs).
Proof.
  intros Hf. unfold onBuffers. apply maps_step_fold. intros bs' i Hi Hs.
  apply maps_step_alter. intros b Hb. destruct (maps_step_dynamic _ _ _ _ _ Hs Hb) as (b0 & H0 & E & _).
  by eapply Hf.
Qed.

(** A stream may change in what the invariant does not read. *)
Definition stream_step (s s' : Stream) : Prop :=
  NoDup (buffers s') /\ (forall i, i ∈ buffers s' -> i ∈ buffers s)
  /\ mirror (delay s') /\ DynamicDelay.cutoff (delay s') = DynamicDelay.cutoff (delay s)
  /\ DynamicDelay.shift (delay s') = DynamicDelay.shift (delay s).

Lemma ctl_attached w i b r :
  wf w -> bufs w !! i = Some b -> dynamic b = Some r ->
  exists s, streams w !! r = Some s /\ ctl w b = delay s /\ synced (delay s) b.
Proof.
  intros Hwf Hi Hd. destruct (wf_buffer _ Hwf i b Hi) as (_ & _ & H).
  destruct (H r Hd) as (_ & s & Hs & Hsy). exists s. split; [done|]. split; [|done].
  unfold ctl. rewrite Hd. simpl. by rewrite Hs.
Qed.

Lemma ok_step_wf w i b b' :
  wf w -> bufs w !! i = Some b -> ok_step w b b' ->
  buffer_ok b' /\ stream b' = stream b /\ dynamic b' = dynamic b
  /\ forall r s, dynamic b = Some r -> streams w !! r = Some s -> synced (delay s) b'.
Proof.
  intros Hwf Hi [Hok Hs]. destruct (wf_buffer _ Hwf i b Hi) as (Hb & _ & _).
  destruct (seen_dynamic _ _ _ Hs) as [Hd Hst]. split; [auto|].
  destruct Hs as [[= _ _ Ec Es]|[Hne [= _ _ Ec Es]]].
  - split_and!; auto. intros r s Hr Hsr.
    destruct (ctl_attached w i b r Hwf Hi Hr) as (s' & Hs' & _ & Hsy).
    assert (s' = s) as -> by congruence. unfold synced in *. by rewrite Ec, Es.
  - destruct (dynamic b) as [r|] eqn:Hr; [|done].
    destruct (ctl_attached w i b r Hwf Hi Hr) as (s & Hs & E & _). rewrite E in *.
    split_and!; auto. intros r' s' [= <-] Hs'. assert (s' = s) as -> by congruence.
    unfold synced. congruence.
Qed.

Lemma wf_update w w' :
  wf w -> (forall id r, names w' !! id = Some r -> names w !! id = Some r) ->
  (forall r, match streams w !! r, streams w' !! r with
             | Some s, Some s' => stream_step s s' | None, None => True | _, _ => False end) ->
  maps_step w (bufs w) (bufs w') -> wf w'.
Proof.
  intros Hwf Hn Hs Hb.
  assert (Hstr : forall r, is_Some (streams w !! r) -> is_Some (streams w' !! r)).
  { intros r [s E]. specialize (Hs r). rewrite E in Hs. destruct (streams w' !! r); [eauto|done]. }
  constructor.
  - intros id r H. apply Hstr. eapply (wf_names _ Hwf), Hn, H.
  - intros r s' E. specialize (Hs r). rewrite E in Hs. destruct (streams w !! r) as [s|] eqn:Es; [|done].
    destruct Hs as (Hnd & Hin & Hm & Hc & _). destruct (wf_stream _ Hwf r s Es) as (_ & _ & Hbuf).
    split_and!; auto. intros i Hi. destruct (Hbuf i (Hin i Hi)) as (b & Ei & Est).
    specialize (Hb i). rewrite Ei in Hb. destruct (bufs w' !! i) as [b'|]; [|done]. exists b'.
    split; [done|]. destruct (ok_step_wf w i b b' Hwf Ei Hb) as (_ & -> & _). done.
  - intros i b' Ei. pose proof (Hb i) as Hbi. rewrite Ei in Hbi.
    destruct (bufs w !! i) as [b|] eqn:E; [|done].
    destruct (ok_step_wf w i b b' Hwf E Hbi) as (Hok & Est & Ed & Hsy).
    destruct (wf_buffer _ Hwf i b E) as (_ & Hss & Hdd).
    split_and!; [done| |].
    + intros r Hr. apply Hstr, Hss. congruence.
    + intros r Hr. rewrite Ed in Hr. destruct (Hdd r Hr) as (Hsr & s & Hs0 & _).
      split; [congruence|]. specialize (Hs r). rewrite Hs0 in Hs.
      destruct (streams w' !! r) as [s'|] eqn:Es'; [|done]. exists s'. split; [done|].
      destruct Hs as (_ & _ & _ & Hc1 & Hs1). specialize (Hsy r s Hr Hs0).
      unfold synced in *. by rewrite Hc1, Hs1.
Qed.

Lemma stream_step_refl w r s : wf w -> streams w !! r = Some s -> stream_step s s.
Proof. intros Hwf E. destruct (wf_stream _ Hwf r s E) as (? & ? & _). by split_and!. Qed.

Lemma streams_same w :
  wf w -> forall r, match streams w !! r, streams w !! r with
             | Some s, Some s' => stream_step s s' | None, None => True | _, _ => False end.
Proof. intros Hwf r. destruct (streams w !! r) eqn:E; [by eapply stream_step_refl|done]. Qed.

Lemma streams_insert w r s s' :
  wf w -> streams w !! r = Some s -> stream_step s s' ->
  forall r', match streams w !! r', <[r := s']> (streams w) !! r' with
             | Some s, Some s' => stream_step s s' | None, None => True | _, _ => False end.
Proof.
  intros Hwf E Hs r'. destruct (decide (r = r')) as [<-|].
  - by rewrite E, lookup_insert_eq.
  - rewrite lookup_insert_ne by done. by eapply streams_same.
Qed.

(** ** Lemmas: the operations keep the invariant *)
Lemma wf_setStream w r s s' :
  wf w -> streams w !! r = Some s -> stream_step s s' -> wf (setStream w r s').
Proof.
  intros Hwf E Hs. by eapply wf_update; [exact Hwf| |by eapply streams_insert|apply maps_step_refl].
Qed.

Lemma wf_setBuffer w i b b' :
  wf w -> bufs w !! i = Some b -> ok_step w b b' -> wf (setBuffer w i b').
Proof.
  intros Hwf E Hs. by eapply wf_update; [exact Hwf| |exact (streams_same w Hwf)|by eapply maps_step_insert].
Qed.

Lemma wf_asks w l : wf w -> wf (w <| asks := l |>).
Proof. intros [? ? ?]. by constructor. Qed.

Lemma wf_ask w r t0 t1 : wf w -> wf (askKeyframe w r t0 t1).
Proof.
  intros Hwf. unfold askKeyframe. destruct (streams w !! r) as [s|] eqn:E; [|done].
  destruct (callback s); [|done]. destruct (_ <? _); [done|]. apply wf_asks.
  eapply wf_setStream; eauto. destruct (wf_stream _ Hwf r s E) as (? & ? & _). by split_and!.
Qed.

(** A new stream has no buffers and a controller at rest. *)
Lemma wf_newStream w r id :
  wf w -> streams w !! r = None ->
  wf ((setStream w r newStream) <| names := <[id := r]> (names w) |>).
Proof.
  intros Hwf Hr. constructor; cbn.
  - intros id' r' H. destruct (decide (r' = r)) as [->|Hne]; [by rewrite lookup_insert_eq|].
    rewrite lookup_insert_ne by done. destruct (decide (id' = id)) as [->|Hid].
    + rewrite lookup_insert_eq in H. congruence.
    + rewrite lookup_insert_ne in H by done. by eapply wf_names.
  - intros r' s. destruct (decide (r' = r)) as [->|Hne].
    + rewrite lookup_insert_eq. intros [= <-]. split_and!; [done|constructor|].
      intros i Hi. by apply elem_of_nil in Hi.
    + rewrite lookup_insert_ne by done. apply (wf_stream _ Hwf).
  - intros i b Hb. destruct (wf_buffer _ Hwf i b Hb) as (Hok & Hs & Hd).
    split_and!; auto.
    + intros r' Hr'. destruct (Hs r' Hr') as [s Es]. rewrite lookup_insert_ne by congruence. eauto.
    + intros r' Hr'. destruct (Hd r' Hr') as (? & s & Es & Hsy). split; [done|]. exists s.
      rewrite lookup_insert_ne by congruence. done.
Qed.

Lemma wf_Publish w id kind track kf fresh :
  wf w -> streams w !! fresh = None ->
  wf (Publish w id kind track kf fresh).1.
Proof.
  intros Hwf Hf. unfold Publish. destruct track as [track|]; [|done].
  set (e := match names w !! id with Some r => _ | None => _ end).
  assert (He : wf e.1).
  { subst e. destruct (names w !! id); [done|]. by apply wf_newStream. }
  destruct e as [w1 r]. simpl in He. destruct (streams w1 !! r) as [s|] eqn:E; [|done]. simpl.
  eapply wf_setStream; eauto. destruct (wf_stream _ He r s E) as (? & ? & _).
  destruct (decide _); by split_and!.
Qed.

Lemma wf_Drop w id : wf w -> wf (Drop w id).
Proof.
  intros Hwf. eapply wf_update; [exact Hwf| |exact (streams_same w Hwf)|apply maps_step_refl].
  cbn. intros id' r Hr. by apply lookup_delete_Some in Hr as [_ ?].
Qed.

Lemma wf_newBuffer w i target rate m kf :
  wf w -> bufs w !! i = None -> 0 <= target <= DynamicDelay.tenSeconds ->
  0 < rate < 4294967296 -> wf (setBuffer w i (NewBuffer target rate m kf)).
Proof.
  intros Hwf Hi Ht Hr. constructor; cbn.
  - apply (wf_names _ Hwf).
  - intros r s Hs. destruct (wf_stream _ Hwf r s Hs) as (? & ? & Hb). split_and!; auto.
    intros j Hj. destruct (Hb j Hj) as (b & Ej & ?). exists b. rewrite lookup_insert_ne by congruence. done.
  - intros j b. destruct (decide (i = j)) as [<-|].
    + rewrite lookup_insert_eq. intros [= <-]. split_and!; [by apply NewBuffer_ok|done|done].
    + rewrite lookup_insert_ne by done. apply (wf_buffer _ Hwf).
Qed.

Lemma wf_untrackOn w r i : wf w -> wf (untrackOn w r i).
Proof.
  intros Hwf. unfold untrackOn.
  destruct (streams w !! r) as [s|] eqn:Es; [|done]. destruct (bufs w !! i) as [b|]; [|done].
  destruct (list_find _ _) as [[idx j]|]; [|done]. eapply wf_setStream; eauto.
  destruct (wf_stream _ Hwf r s Es) as (Hm & Hnd & _).
  assert (Hd : NoDup (delete idx (buffers s)) /\ forall k, k ∈ delete idx (buffers s) -> k ∈ buffers s).
  { pose proof (sublist_delete (buffers s) idx). split; [by eapply sublist_NoDup|].
    intros k Hk. by eapply elem_of_sublist. }
  destruct Hd. destruct (isVideo b); by split_and!.
Qed.

Lemma lookup_onBuffers f refs bs i :
  NoDup refs -> onBuffers f bs refs !! i = if decide (i ∈ refs) then f <$> bs !! i else bs !! i.
Proof.
  unfold onBuffers. revert bs. induction refs as [|r refs IH]; intros bs Hnd; simpl; [done|].
  apply NoDup_cons in Hnd as [Hr Hnd]. rewrite IH by done. destruct (decide (i = r)) as [->|Hne].
  - rewrite decide_False by done. rewrite decide_True by constructor. by rewrite lookup_alter_eq.
  - rewrite lookup_alter_ne by done. destruct (decide (i ∈ refs)).
    + by rewrite decide_True by (by constructor).
    + rewrite decide_False; [done|]. rewrite elem_of_cons. tauto.
Qed.

(** A buffer joins the stream [r]: it is added to the list and may follow the
    stream's controller. *)
Lemma wf_trackOn w r i b :
  wf w -> bufs w !! i = Some b -> stream b = None -> wf (trackOn w r i).
Proof.
  intros Hwf Hb Hst. unfold trackOn.
  destruct (streams w !! r) as [s|] eqn:Es; [|done]. rewrite Hb.
  set (b' := match DynamicDelay.state (delay s) with Some st => _ | None => _ end).
  destruct (wf_stream _ Hwf r s Es) as (Hm & Hnd & Hin).
  destruct (wf_buffer _ Hwf i b Hb) as (Hok & _ & Hdyn).
  assert (Hd0 : dynamic b = None).
  { destruct (dynamic b) as [r'|] eqn:E; [|done]. destruct (Hdyn r' eq_refl). congruence. }
  assert (Hnew : buffer_ok b' /\ stream b' = Some r
            /\ forall r', dynamic b' = Some r' -> r' = r /\ synced (delay s) b').
  { subst b'. unfold mirror in Hm. destruct (DynamicDelay.state (delay s)) as [st|].
    - destruct Hm as [E1 E2]. split; [by destruct Hok|]. cbn. split; [done|].
      intros r' [= <-]. split; [done|]. unfold synced. cbn. congruence.
    - split; [by destruct Hok|]. cbn. split; [done|]. intros r' E. congruence. }
  clearbody b'. destruct Hnew as (Hok' & Hst' & Hd').
  assert (Hout : forall r' s', streams w !! r' = Some s' -> i ∉ buffers s').
  { intros r' s' Es' Hi. destruct (wf_stream _ Hwf r' s' Es') as (_ & _ & H).
    destruct (H i Hi) as (b0 & ? & ?). congruence. }
  constructor; cbn.
  - intros id' r' H. destruct (decide (r = r')) as [<-|]; [by rewrite lookup_insert_eq|].
    rewrite lookup_insert_ne by done. by eapply wf_names.
  - intros r' s'. destruct (decide (r = r')) as [<-|].
    + rewrite lookup_insert_eq. intros [= <-]. split_and!; auto.
      * cbn. apply NoDup_app. split_and!; [done| |apply NoDup_singleton].
        intros j Hj ->%list_elem_of_singleton. by eapply Hout.
      * cbn. intros j [Hj| ->%list_elem_of_singleton]%elem_of_app.
        -- rewrite lookup_insert_ne by (intros ->; by eapply Hout). by apply Hin.
        -- exists b'. by rewrite lookup_insert_eq.
    + rewrite lookup_insert_ne by done. intros Es'.
      destruct (wf_stream _ Hwf r' s' Es') as (? & ? & Hin'). split_and!; auto.
      intros j Hj. rewrite lookup_insert_ne by (intros ->; by eapply Hout). by apply Hin'.
  - assert (Hlk : forall r', is_Some (streams w !! r') ->
              is_Some (<[r := s <| buffers := buffers s ++ [i] |>]> (streams w) !! r')).
    { intros r' [s' E]. destruct (decide (r = r')) as [<-|]; [by rewrite lookup_insert_eq|].
      rewrite lookup_insert_ne by done. eauto. }
    intros j b0. destruct (decide (i = j)) as [<-|].
    + rewrite lookup_insert_eq. intros [= <-]. split_and!; auto.
      * intros r' E. apply Hlk. exists s. congruence.
      * intros r' E. destruct (Hd' r' E) as [-> Hsy]. split; [done|].
        eexists. rewrite lookup_insert_eq. split; [done|exact Hsy].
    + rewrite lookup_insert_ne by done. intros Hj.
      destruct (wf_buffer _ Hwf j b0 Hj) as (? & Hs & Hd). split_and!; auto.
      intros r' E. destruct (Hd r' E) as (? & s' & Es' & Hsy). split; [done|].
      destruct (decide (r = r')) as [<-|].
      * eexists. rewrite lookup_insert_eq. split; [done|]. assert (s' = s) as -> by congruence. exact Hsy.
      * exists s'. by rewrite lookup_insert_ne.
Qed.

Lemma attachBuffer_spec r c changed b :
  mirror c -> buffer_ok b ->
  let b' := attachBuffer r c changed b in
  buffer_ok b' /\ stream b' = stream b /\ Buffer.target b' = Buffer.target b
  /\ dynamic b' = (if decide (DynamicDelay.state c = None) then dynamic b else Some r)
  /\ (cutoff b' = cutoff b /\ shift b' = shift b /\ (dynamic b' = dynamic b \/ dynamic b <> None)
      \/ cutoff b' = DynamicDelay.cutoff c /\ shift b' = DynamicDelay.shift c).
Proof.
  intros Hm Hok. unfold attachBuffer, mirror in *.
  set (b2 := if changed then _ else _).
  assert (H2 : buffer_ok b2 /\ stream b2 = stream b /\ dynamic b2 = dynamic b /\ cutoff b2 = cutoff b
               /\ shift b2 = shift b /\ Buffer.target b2 = Buffer.target b).
  { subst b2. destruct changed; split_and!; auto. by destruct Hok. }
  destruct H2 as (Hok2 & F1 & F2 & F3 & F4 & F5). clearbody b2.
  destruct (DynamicDelay.state c) as [st|]; cbn.
  - destruct Hm as [E6 E7]. rewrite (decide_False (P := Some st = None)) by done.
    destruct (decide (dynamic b2 = None)); cbn;
      (split; [by destruct Hok2|]); (split; [done|]); (split; [done|]); (split; [done|]).
    + right. split; congruence.
    + left. split_and!; auto. right. congruence.
  - split_and!; auto.
Qed.

Lemma configureBuffer_spec r c changed target b :
  mirror c -> buffer_ok b -> 0 <= target <= DynamicDelay.tenSeconds ->
  let b' := configureBuffer r c changed target b in
  buffer_ok b' /\ stream b' = stream b /\ Buffer.target b' = target
  /\ dynamic b' = (if decide (DynamicDelay.state c = None) then dynamic b else Some r)
  /\ (cutoff b' = cutoff b /\ shift b' = shift b /\ (dynamic b' = dynamic b \/ dynamic b <> None)
      \/ cutoff b' = DynamicDelay.cutoff c /\ shift b' = DynamicDelay.shift c).
Proof.
  intros Hm Hok Ht. destruct (fine_SetTarget b target Ht Hok) as [Hok1 _].
  exact (attachBuffer_spec r c changed (SetTarget b target) Hm Hok1).
Qed.

Lemma configureBuffer_queue r c changed t b :
  queue (configureBuffer r c changed t b) = (Heap.shift_item (dsub t (Buffer.target b)) <$> queue b).
Proof.
  unfold configureBuffer, attachBuffer. destruct changed, (DynamicDelay.state c); try reflexivity;
    case_decide; reflexivity.
Qed.

Lemma wf_ConfigureDelay w id target o now :
  wf w -> 0 <= target <= DynamicDelay.tenSeconds -> wf (ConfigureDelay w id target o now).
Proof.
  intros Hwf Ht. unfold ConfigureDelay. destruct (names w !! id) as [r|]; [|done].
  destruct (streams w !! r) as [s|] eqn:Es; [|done].
  destruct (wf_stream _ Hwf r s Es) as (Hm & Hnd & Hin).
  destruct (Configure_mirror (delay s) target o now Hm) as (Hm' & Esh & Ecu).
  set (c := DynamicDelay.Configure (delay s) target o now) in *.
  set (changed := negb _). clearbody c changed.
  assert (Hlk : forall r', is_Some (streams w !! r') -> is_Some (<[r := s <| delay := c |>]> (streams w) !! r')).
  { intros r' [s' E]. destruct (decide (r = r')) as [<-|]; [by rewrite lookup_insert_eq|].
    rewrite lookup_insert_ne by done. eauto. }
  constructor; cbn.
  - intros id' r' H. apply Hlk. by eapply wf_names.
  - intros r' s' E.
    assert (Hs' : mirror (delay s') /\ NoDup (buffers s')
             /\ forall j, j ∈ buffers s' -> exists b, bufs w !! j = Some b /\ stream b = Some r').
    { destruct (decide (r = r')) as [<-|].
      - rewrite lookup_insert_eq in E. injection E as <-. cbn. by split_and!.
      - rewrite lookup_insert_ne in E by done. by apply (wf_stream _ Hwf). }
    destruct Hs' as (? & ? & Hin'). split_and!; auto. intros j Hj.
    destruct (Hin' j Hj) as (b & Eb & Est). rewrite lookup_onBuffers, Eb by done.
    destruct (decide _); cbn; [|eauto]. eexists. split; [done|].
    destruct (wf_buffer _ Hwf j b Eb) as (Hok & _).
    by destruct (configureBuffer_spec r c changed target b Hm' Hok Ht) as (_ & -> & _).
  - intros j b'. rewrite lookup_onBuffers by done. destruct (decide (j ∈ buffers s)) as [Hj|Hj].
    + destruct (Hin j Hj) as (b & Eb & Est). rewrite Eb. cbn. intros [= <-].
      destruct (wf_buffer _ Hwf j b Eb) as (Hok & Hsb & Hdb).
      destruct (configureBuffer_spec r c changed target b Hm' Hok Ht) as (Hok' & Est' & _ & Ed & Hor).
      split_and!; [done| |].
      * rewrite Est'. intros r' E. apply Hlk, Hsb, E.
      * intros r' E. rewrite Est'. assert (r' = r) as ->.
        { rewrite Ed in E. destruct (decide _); [|congruence]. destruct (Hdb r' E). congruence. }
        split; [done|]. eexists. rewrite lookup_insert_eq. split; [done|]. cbn. unfold synced.
        destruct Hor as [(E1 & E2 & Hd)|(E1 & E2)]; [|congruence]. rewrite E1, E2, Ecu, Esh.
        assert (Hdb' : dynamic b = Some r).
        { destruct Hd as [Hd|Hd]; [congruence|]. destruct (dynamic b) as [r0|] eqn:E0; [|done].
          destruct (Hdb r0 eq_refl). congruence. }
        destruct (Hdb r Hdb') as (_ & s0 & Es0 & Hsy). assert (s0 = s) as -> by congruence. exact Hsy.
    + intros Eb. destruct (wf_buffer _ Hwf j b' Eb) as (? & Hsb & Hdb). split_and!; auto.
      intros r' E. destruct (Hdb r' E) as (? & s0 & Es0 & Hsy). split; [done|].
      destruct (decide (r = r')) as [<-|].
      * eexists. rewrite lookup_insert_eq. split; [done|]. assert (s0 = s) as -> by congruence.
        unfold synced in *. cbn. by rewrite Ecu, Esh.
      * exists s0. by rewrite lookup_insert_ne.
Qed.

(** What the invariant reads of a stream is untouched by clock corrections. *)
Definition same_core (s s' : Stream) : Prop :=
  buffers s' = buffers s /\ delay s' = delay s /\ callback s' = callback s
  /\ lastKeyframe s' = lastKeyframe s.

Lemma ok_step_align w b base e : ok_step w b (alignSenderClockLocked b base e).
Proof.
  apply ok_step_place; [intros; by apply fine_align|]. unfold alignSenderClockLocked, moveClockLocked.
  by cases_if.
Qed.

Lemma ok_step_recover w s sc sh u b : ok_step w b (recoverBuffer s sc sh u b).
Proof.
  unfold recoverBuffer. destruct (_ && _); [|apply ok_step_refl].
  apply ok_step_place; [|unfold moveClockLocked; done]. intros Hok.
  destruct (fine_moveClock b (dsub 0 sh) true Hok) as [Hok' _].
  generalize dependent (moveClockLocked b (dsub 0 sh) true). intros b1 Hok1. by destruct Hok1.
Qed.

Lemma undo_fold w refs bs wall :
  maps_step w bs (fold_left undoStep refs (bs, wall)).1.
Proof.
  assert (H : forall bs', maps_step w bs bs' -> forall wl, maps_step w bs (fold_left undoStep refs (bs', wl)).1).
  { induction refs as [|i refs IH]; intros bs' Hs wl; [done|]. cbn [fold_left]. unfold undoStep at 2.
    destruct (bs' !! i) as [b|] eqn:Eb; [|by apply IH].
    pose proof (senderCorrection_quiet b) as Q.
    assert (P : place (senderCorrectionLocked b).1 = place b) by (unfold senderCorrectionLocked; by cases_if).
    destruct (senderCorrectionLocked b) as [b1 rb]. apply IH. eapply maps_step_trans; [exact Hs|].
    eapply maps_step_insert; [done|]. apply ok_step_place; [|done]. intros Hok. by eapply quiet_ok. }
  apply H, maps_step_refl.
Qed.

Lemma align_step w s bs :
  let '(s', bs', sc) := alignSenderClocksLocked s bs in same_core s s' /\ maps_step w bs bs'.
Proof.
  unfold alignSenderClocksLocked. destruct (_ <? _)%nat; [split; [done|apply maps_step_refl]|].
  destruct (existsb _ _); [split; [done|apply maps_step_refl]|].
  pose proof (undo_fold w (buffers s) bs (senderBaseWall s)) as H.
  destruct (fold_left undoStep _ _) as [bs1 wall]. simpl in H.
  destruct (if negb (IsZero wall) then _ else _) as [ms wall']. split; [done|].
  eapply maps_step_trans; [exact H|]. apply maps_step_on. intros. apply ok_step_align.
Qed.

Lemma correction_step w s bs now sc until s' bs' sh waiting :
  clockCorrectionLocked s bs now sc until = Some (s', bs', sh, waiting) ->
  same_core s s' /\ maps_step w bs bs'.
Proof.
  unfold clockCorrectionLocked. set (acc := fold_left _ _ _). clearbody acc.
  destruct (_ =? 0); [intros [= <- <- _ _]; split; [done|apply maps_step_refl]|].
  destruct sc.
  - destruct (scanSource acc) as [r|]; [|done]. obind. destruct (bs !! r) as [b|] eqn:Eb; [|done]. obind.
    destruct (newestLocked b) as [n|]; [|done]. obind. intros [= <- <- _ _].
    split; [by destruct (scanFresh acc)|]. eapply maps_step_insert; [done|].
    apply ok_step_place; [|done]. by intros [].
  - obind. intros [= <- <- _ _]. split; [by destruct (scanFresh acc)|apply maps_step_refl].
Qed.

Lemma correction_core w s bs now until s' bs' sc sh waiting :
  correction s bs now until = Some (s', bs', sc, sh, waiting) -> same_core s s' /\ maps_step w bs bs'.
Proof.
  unfold correction. pose proof (align_step w s bs) as H2.
  destruct (alignSenderClocksLocked s bs) as [[s2 bs2] sc2]. destruct H2 as [C2 H2].
  destruct (clockCorrectionLocked s2 bs2 now sc2 until) as [[[[s3 bs3] sh3] w3]|] eqn:Ec; [|done]. obind.
  apply (correction_step w) in Ec as [C3 H3]. intros [= <- <- <- _ _]. split; [|by eapply maps_step_trans].
  destruct C2 as (?&?&?&?), C3 as (?&?&?&?). destruct sc2; split_and!; cbn; congruence.
Qed.

Lemma ctl_mirror w i b : wf w -> bufs w !! i = Some b -> mirror (ctl w b).
Proof.
  intros Hwf Eb. destruct (dynamic b) as [r|] eqn:Ed.
  - destruct (ctl_attached w i b r Hwf Eb Ed) as (s & Es & -> & _).
    by destruct (wf_stream _ Hwf r s Es) as (? & _).
  - unfold ctl. by rewrite Ed.
Qed.

Lemma ok_step_offset w i b now :
  wf w -> bufs w !! i = Some b -> ok_step w b (dynamicOffsetLocked b (ctl w b) now).1.
Proof.
  intros Hwf Eb. split; [intros; by apply fine_dynamicOffset|]. apply seen_offset. by eapply ctl_mirror.
Qed.

(** A jump taken by one track of the stream [r]. *)
Lemma wf_jump w now i b b' c' r :
  wf w -> (forall j bj, bufs w !! j = Some bj -> dynamic bj = dynamic b -> cutoff bj <> now) ->
  bufs w !! i = Some b -> buffer_ok b' -> dynamic b = Some r ->
  mirror c' -> DynamicDelay.cutoff c' = now ->
  place b' = (stream b, dynamic b, now, DynamicDelay.shift c') ->
  wf (putCtl (setBuffer w i b') b c').
Proof.
  intros Hwf Hnew Eb Hok' Ed Hm Hcut [= E1 E2 E3 E4]. unfold putCtl. rewrite Ed.
  assert (Hlk : forall r', is_Some (streams w !! r') ->
            is_Some (alter (λ s, s <| delay := c' |>) r (streams w) !! r')).
  { intros r' [s E]. rewrite lookup_alter. destruct (decide _) as [->|]; [rewrite E|]; eauto. }
  destruct (wf_buffer _ Hwf i b Eb) as (_ & Hsb & Hdb). destruct (Hdb r Ed) as (Hst & s0 & Es0 & _).
  constructor; cbn.
  - intros id r' H. apply Hlk. by eapply wf_names.
  - intros r' s' E.
    assert (H : mirror (delay s') /\ NoDup (buffers s')
              /\ forall j, j ∈ buffers s' -> exists b, bufs w !! j = Some b /\ stream b = Some r').
    { rewrite lookup_alter in E. destruct (decide (r = r')) as [<-|].
      - rewrite Es0 in E. injection E as <-. by destruct (wf_stream _ Hwf r s0 Es0) as (_ & ? & ?).
      - by destruct (wf_stream _ Hwf r' s' E) as (? & ? & ?). }
    destruct H as (? & ? & Hin). split_and!; auto. intros j Hj. destruct (Hin j Hj) as (bj & Ej & Sj).
    destruct (decide (i = j)) as [<-|].
    + exists b'. rewrite lookup_insert_eq. split; [done|]. congruence.
    + exists bj. by rewrite lookup_insert_ne.
  - intros j bj. destruct (decide (i = j)) as [<-|].
    + rewrite lookup_insert_eq. intros [= <-]. split_and!; auto.
      * intros r' E. apply Hlk, Hsb. congruence.
      * intros r' E. assert (r' = r) as -> by congruence. split; [congruence|].
        eexists. rewrite lookup_alter_eq, Es0. split; [done|]. unfold synced. cbn. congruence.
    + rewrite lookup_insert_ne by done. intros Ej.
      destruct (wf_buffer _ Hwf j bj Ej) as (? & Hs & Hd). split_and!; auto.
      intros r' E. destruct (Hd r' E) as (? & s' & Es' & Hsy). split; [done|].
      destruct (decide (r = r')) as [<-|].
      * eexists. rewrite lookup_alter_eq, Es'. split; [done|]. unfold synced. cbn.
        intros Ec. destruct (Hnew j bj Ej); congruence.
      * exists s'. by rewrite lookup_alter_ne.
Qed.

Lemma wf_push w i b p t0 t1 now b' c' f :
  wf w -> bufs w !! i = Some b -> (c' <> ctl w b -> unjumped w b now) ->
  Push b (ctl w b) p t0 t1 now = Some (b', c', f) -> wf (putCtl (setBuffer w i b') b c').
Proof.
  intros Hwf Eb Hj E. pose proof (ctl_mirror w i b Hwf Eb) as Hm.
  destruct (wf_buffer _ Hwf i b Eb) as (Hok & _).
  destruct (Push_total b (ctl w b) p t0 t1 now Hok) as (b1 & c1 & f1 & E' & Hok' & _).
  rewrite E in E'. injection E' as <- <- <-.
  assert (Hsame : seen (ctl w b) b b' -> c' = ctl w b -> wf (putCtl (setBuffer w i b') b c')).
  { intros Hs ->. eapply (wf_update w).
    + done.
    + unfold putCtl. by destruct (dynamic b).
    + intros r. unfold putCtl. destruct (dynamic b) as [r0|] eqn:Ed; cbn; [|exact (streams_same w Hwf r)].
      rewrite lookup_alter. destruct (decide (r0 = r)) as [->|]; [|exact (streams_same w Hwf r)].
      destruct (ctl_attached w i b r Hwf Eb Ed) as (s & Es & -> & _). rewrite Es. cbn.
      destruct (wf_stream _ Hwf r s Es) as (? & ? & _). by split_and!.
    + unfold putCtl. destruct (dynamic b); cbn; (eapply maps_step_insert; [done|split; auto]). }
  apply Push_pushed in E; [|done|].
  2:{ intros Hd. destruct (Hj Hd) as [H1 H2]. split; [by eapply H2|done]. }
  destruct E as [[-> Hs]|(Hdf & Hm' & Hcut & Hd & Hp)]; [by apply Hsame|].
  destruct (Hj Hdf) as [_ Hnew]. destruct (dynamic b) as [r|] eqn:Ed; [|done].
  eapply wf_jump; eauto; by rewrite Ed.
Qed.

Lemma SenderReport_place b ts ntp b' : SenderReport b ts ntp = Some b' -> place b' = place b.
Proof.
  unfold SenderReport. destruct (_ || _); [by intros [= <-]|].
  destruct (ticksDuration _ _); [|done]. obind. intros [= <-]. by destruct (_ && _).
Qed.

(** ** Lemmas: the sections of the goroutines *)

(** A buffer replaced by one that is tied to the streams as the invariant says. *)
Lemma wf_replace w i b b' :
  wf w -> bufs w !! i = Some b -> buffer_ok b' -> stream b' = stream b ->
  (forall r, dynamic b' = Some r -> stream b = Some r /\ exists s, streams w !! r = Some s /\ synced (delay s) b') ->
  wf (setBuffer w i b').
Proof.
  intros Hwf Eb Hok Est Hd. destruct (wf_buffer _ Hwf i b Eb) as (_ & Hs & _). constructor; cbn.
  - apply (wf_names _ Hwf).
  - intros r s Es. destruct (wf_stream _ Hwf r s Es) as (? & ? & Hin). split_and!; auto. intros j Hj.
    destruct (Hin j Hj) as (bj & Ej & Sj). destruct (decide (i = j)) as [<-|].
    + exists b'. rewrite lookup_insert_eq. split; [done|]. congruence.
    + exists bj. by rewrite lookup_insert_ne.
  - intros j bj. destruct (decide (i = j)) as [<-|].
    + rewrite lookup_insert_eq. intros [= <-]. rewrite Est. by split_and!.
    + rewrite lookup_insert_ne by done. apply (wf_buffer _ Hwf).
Qed.

Lemma wf_attach w r s i b changed :
  wf w -> streams w !! r = Some s -> bufs w !! i = Some b -> stream b = Some r ->
  wf (setBuffer w i (attachBuffer r (delay s) changed b)).
Proof.
  intros Hwf Es Eb Est. destruct (wf_stream _ Hwf r s Es) as (Hm & _).
  destruct (wf_buffer _ Hwf i b Eb) as (Hok & _ & Hd).
  destruct (attachBuffer_spec r (delay s) changed b Hm Hok) as (Hok' & Est' & _ & Ed & Hor).
  apply (wf_replace w i b); [done..|]. intros r' E. assert (r' = r) as ->.
  { rewrite Ed in E. destruct (decide _); [|congruence]. destruct (Hd r' E). congruence. }
  split; [done|]. exists s. split; [done|].
  destruct Hor as [(E1 & E2 & Hor)|(E1 & E2)]; [|unfold synced; congruence].
  assert (Hb : dynamic b = Some r).
  { destruct Hor as [Hor|Hor]; [congruence|]. destruct (dynamic b) as [r0|] eqn:E0; [|done].
    destruct (Hd r0 eq_refl). congruence. }
  destruct (Hd r Hb) as (_ & s0 & Es0 & Hsy). assert (s0 = s) as -> by congruence.
  unfold synced in *. by rewrite E1, E2.
Qed.

Lemma wf_sample w i b now :
  wf w -> bufs w !! i = Some b ->
  wf (setBuffer w i ((dynamicOffsetLocked b (ctl w b) now).1 <| peakLate := 0 |>)).
Proof.
  intros Hwf Eb. eapply wf_setBuffer; eauto. pose proof (ok_step_offset w i b now Hwf Eb) as H.
  destruct (dynamicOffsetLocked b (ctl w b) now) as [b1 o1]. simpl in H.
  eapply ok_step_trans; [exact H|]. apply ok_step_place; [|done]. by intros [].
Qed.

(** What a goroutine that holds a stream's lock remembers fits the buffers of the
    stream; so do settings that wait for it. *)
Definition holding (bs : list nat) (h : holder) : Prop :=
  match h with
  | Configuring target _ _ _ | Configured target _ => 0 <= target <= DynamicDelay.tenSeconds
  | Retargeting target _ todo => 0 <= target <= DynamicDelay.tenSeconds /\ (forall i, i ∈ todo -> i ∈ bs)
  | Attaching target _ i todo =>
      0 <= target <= DynamicDelay.tenSeconds /\ (forall j, j ∈ i :: todo -> j ∈ bs)
  | Gathering _ held todo => held ++ todo = bs
  | Sampling _ _ todo | Releasing _ _ _ todo => forall i, i ∈ todo -> i ∈ bs
  end.

Definition call_ok (c : call) : Prop :=
  match c with CConfigure _ target _ => 0 <= target <= DynamicDelay.tenSeconds | _ => True end.

(** The sections a holder has left, on a stream with [n] buffers. *)
Definition remaining (n : nat) (h : holder) : nat :=
  match h with
  | Sampling _ _ todo => length todo
  | Configuring _ _ _ _ => 2 * n + 4
  | Configured _ _ => 2 * n + 3
  | Retargeting _ _ todo => 2 * length todo
  | Attaching _ _ _ todo => 2 * length todo + 1
  | Gathering _ _ todo => n + length todo + 1
  | Releasing _ _ _ todo => length todo
  end.

(** Nobody's stream goes, or loses or gains a buffer. *)
Definition kept (w w' : world) (r : nat) : Prop :=
  forall s, streams w !! r = Some s -> exists s', streams w' !! r = Some s' /\ buffers s' = buffers s.

Lemma kept_streams w w' r : streams w' = streams w -> kept w w' r.
Proof. intros E s Hs. exists s. by rewrite E. Qed.

Lemma kept_insert w w' r s0 s1 r' :
  streams w !! r = Some s0 -> buffers s1 = buffers s0 -> streams w' = <[r := s1]> (streams w) -> kept w w' r'.
Proof.
  intros E0 Eb Ew s Hs. rewrite Ew. destruct (decide (r = r')) as [<-|].
  - exists s1. rewrite lookup_insert_eq. split; [done|]. congruence.
  - exists s. by rewrite lookup_insert_ne.
Qed.

Lemma kept_other w w' r s1 r' : r' <> r -> streams w' = <[r := s1]> (streams w) -> kept w w' r'.
Proof. intros Hne Ew s Hs. exists s. by rewrite Ew, lookup_insert_ne. Qed.

Lemma kept_ask w r t0 t1 r' : kept w (askKeyframe w r t0 t1) r'.
Proof.
  unfold askKeyframe. destruct (streams w !! r) as [s|] eqn:E; [|by apply kept_streams].
  destruct (callback s); [|by apply kept_streams]. destruct (_ <? _); [by apply kept_streams|].
  by eapply kept_insert; [exact E| |reflexivity].
Qed.

Lemma kept_Publish w id kind track kf fresh r :
  streams w !! fresh = None -> kept w (Publish w id kind track kf fresh).1 r.
Proof.
  intros Hf. unfold Publish. destruct track as [track|]; [|by apply kept_streams].
  destruct (names w !! id) as [r0|].
  - destruct (streams w !! r0) as [s|] eqn:E; [|by apply kept_streams].
    eapply kept_insert; [exact E| |done]. by destruct (decide _).
  - cbn. rewrite lookup_insert_eq. intros s Hs. exists s. split; [|done]. cbn.
    by rewrite !lookup_insert_ne by congruence.
Qed.

(** The buffer a holder turns to next. *)
Lemma member w r s i :
  wf w -> streams w !! r = Some s -> i ∈ buffers s -> exists b, bufs w !! i = Some b /\ stream b = Some r.
Proof. intros Hwf Es Hi. destruct (wf_stream _ Hwf r s Es) as (_ & _ & H). by apply H. Qed.

Lemma wf_buffer_ok w : wf w -> forall i b, bufs w !! i = Some b -> buffer_ok b.
Proof. intros Hwf i b Eb. by destruct (wf_buffer _ Hwf i b Eb). Qed.

(** ** Lemmas: clock corrections never panic *)
Lemma newest_some b now :
  buffer_ok b -> 0 <= now -> correctionMargin (target b) < dsub (depthLocked b now) (target b) ->
  is_Some (newestLocked b).
Proof.
  intros Hok Hnow. unfold depthLocked. destruct (newestLocked b); [eauto|]. intros H. exfalso.
  pose proof (ok_target _ Hok) as Ht. unfold correctionMargin, hysteresis, minMargin in H.
  replace (Z.max 0 (tsub zeroTime now)) with 0 in H by (unfold tsub, zeroTime; lia).
  rewrite target_shift in H; [|done|]; unfold DynamicDelay.tenSeconds, Second, Millisecond in *; lia.
Qed.

Lemma scan_source s bs until refs acc :
  (forall i b, bs !! i = Some b -> buffer_ok b) -> (forall n, 0 <= until n) ->
  (scanShift acc = 0 \/ exists r b, scanSource acc = Some r /\ bs !! r = Some b /\ is_Some (newestLocked b)) ->
  let acc' := fold_left (scanStep s bs until) refs acc in
  scanShift acc' = 0 \/ exists r b, scanSource acc' = Some r /\ bs !! r = Some b /\ is_Some (newestLocked b).
Proof.
  intros Hok Hu. revert acc. induction refs as [|[n r] refs IH]; intros acc Hacc; [done|].
  cbn [fold_left]. apply IH. unfold scanStep. destruct (bs !! r) as [b|] eqn:Eb; [|done]. cbn.
  destruct (_ <? _) eqn:Em; [|done].
  destruct (scanShift acc <? _); cbn; [|done]. right. exists r, b. split_and!; auto.
  eapply (newest_some b (until n)); [by eapply Hok|done|lia].
Qed.

Lemma correction_total s bs now sc until :
  (forall i b, bs !! i = Some b -> buffer_ok b) -> (forall n, 0 <= until n) ->
  is_Some (clockCorrectionLocked s bs now sc until).
Proof.
  intros Hok Hu. unfold clockCorrectionLocked. set (acc0 := mkScan _ _ _ _).
  pose proof (scan_source s bs until (numbered (buffers s)) acc0 Hok Hu (or_introl eq_refl)) as H.
  simpl in H. destruct (fold_left _ _ _) as [sh src fr wt]. cbn in *.
  destruct (sh =? 0) eqn:E; [eauto|]. destruct sc; [|eauto].
  destruct H as [?|(r & b & -> & Eb & [n En])]; [lia|]. cbn. rewrite Eb. cbn. rewrite En. cbn. eauto.
Qed.

(** ** Lemmas: a holder never fails, and gets on *)

(** What a section of a holder does: the store stays consistent, no stream changes
    its buffers, and the holder has less to do or has unlocked the stream. *)
Definition advanced (w : world) (bs : list nat) (h : holder) (w' : world) (res : holder + list call) : Prop :=
  wf w' /\ (forall r, kept w w' r)
  /\ match res with
     | inl h' => holding bs h' /\ (remaining (length bs) h' < remaining (length bs) h)%nat
     | inr after => Forall call_ok after
     end.

Lemma advance_sample w r s now late todo u until :
  wf w -> streams w !! r = Some s -> holding (buffers s) (Sampling now late todo) ->
  exists w' res, advance w r (Sampling now late todo) u until = Some (w', res)
    /\ advanced w (buffers s) (Sampling now late todo) w' res.
Proof.
  intros Hwf Es Hh. unfold advance. rewrite Es. obind. destruct todo as [|i todo].
  - destruct (wf_stream _ Hwf r s Es) as (Hm & Hnd & _). destruct (Step_mirror (delay s) now late Hm) as (Hm' & Esh & Ecu).
    destruct (DynamicDelay.Step (delay s) now late) as [c st]. simpl in *. eexists _, _. split; [done|].
    split_and!; [|intros r'; by eapply kept_insert; [exact Es| |reflexivity]|].
    + eapply wf_setStream; eauto. by split_and!.
    + destruct st as [st|]; [destruct (DynamicDelay.Pending st)|]; repeat constructor.
  - destruct (member w r s i Hwf Es) as (b & Eb & _); [apply Hh; constructor|]. rewrite Eb. obind.
    eexists _, _. split; [done|]. split_and!; [by apply wf_sample|intros r'; by apply kept_streams| |cbn; lia].
    intros j Hj. apply Hh. by constructor.
Qed.

Lemma advance_configure w r s target o now previous u until :
  wf w -> streams w !! r = Some s -> holding (buffers s) (Configuring target o now previous) ->
  exists w' res, advance w r (Configuring target o now previous) u until = Some (w', res)
    /\ advanced w (buffers s) (Configuring target o now previous) w' res.
Proof.
  intros Hwf Es Hh. unfold advance. rewrite Es. obind. eexists _, _. split; [done|].
  destruct (wf_stream _ Hwf r s Es) as (Hm & Hnd & _).
  destruct (Configure_mirror (delay s) target o now Hm) as (Hm' & Esh & Ecu).
  split; [|split; [intros r'; by eapply kept_insert; [exact Es| |reflexivity]|split; [done|cbn; lia]]].
  eapply wf_setStream; eauto. by split_and!.
Qed.

Lemma advance_retarget w r s target changed todo u until :
  wf w -> streams w !! r = Some s -> holding (buffers s) (Retargeting target changed todo) ->
  exists w' res, advance w r (Retargeting target changed todo) u until = Some (w', res)
    /\ advanced w (buffers s) (Retargeting target changed todo) w' res.
Proof.
  intros Hwf Es [Ht Hh]. unfold advance. rewrite Es. obind. destruct todo as [|i todo].
  - eexists _, _. split; [done|]. split_and!; [done|intros r'; by apply kept_streams|constructor].
  - destruct (member w r s i Hwf Es) as (b & Eb & _); [apply Hh; constructor|]. rewrite Eb. obind.
    eexists _, _. split; [done|]. split; [|split; [intros r'; by apply kept_streams|split; [done|cbn; lia]]].
    eapply wf_setBuffer; eauto. apply ok_step_place; [|done]. intros Hok. by apply fine_SetTarget.
Qed.

Lemma advance_attach w r s target changed i todo u until :
  wf w -> streams w !! r = Some s -> holding (buffers s) (Attaching target changed i todo) ->
  exists w' res, advance w r (Attaching target changed i todo) u until = Some (w', res)
    /\ advanced w (buffers s) (Attaching target changed i todo) w' res.
Proof.
  intros Hwf Es [Ht Hh]. unfold advance. rewrite Es. obind.
  destruct (member w r s i Hwf Es) as (b & Eb & Est); [apply Hh; constructor|]. rewrite Eb. obind.
  eexists _, _. split; [done|].
  split; [by apply wf_attach|]. split; [intros r'; by apply kept_streams|]. split; [|cbn; lia].
  split; [done|]. intros j Hj. apply Hh. by constructor.
Qed.

Lemma correction_some s bs now until :
  (forall i b, bs !! i = Some b -> buffer_ok b) -> (forall n, 0 <= until n) ->
  is_Some (correction s bs now until).
Proof.
  intros Hok Hu. unfold correction. pose proof (align_step New s bs) as H.
  destruct (alignSenderClocksLocked s bs) as [[s2 bs2] sc]. destruct H as [_ H].
  destruct (correction_total s2 bs2 now sc until) as [[[[s3 bs3] sh] wt] ->]; [|done|obind; eauto].
  intros i b Eb. specialize (H i). rewrite Eb in H. destruct (bs !! i) as [b0|] eqn:E; [|done].
  destruct H as [H _]. eauto.
Qed.

Lemma advance_gather w r s now held todo u until :
  wf w -> streams w !! r = Some s -> holding (buffers s) (Gathering now held todo) -> (forall n, 0 <= until n) ->
  exists w' res, advance w r (Gathering now held todo) u until = Some (w', res)
    /\ advanced w (buffers s) (Gathering now held todo) w' res.
Proof.
  intros Hwf Es Hh Hu. cbn in Hh. unfold advance. rewrite Es. obind. destruct todo as [|i todo].
  - destruct (correction_some s (bufs w) now until (wf_buffer_ok w Hwf) Hu) as [[[[[s' bs] sc] sh] wt] Ec].
    rewrite Ec. obind. apply (correction_core w) in Ec as [(E1 & E2 & _) H]. eexists _, _. split; [done|].
    split_and!; [|intros r'; by eapply kept_insert; [exact Es| |reflexivity]|by cbn|cbn; lia].
    eapply wf_update; [exact Hwf|done| |exact H]. eapply streams_insert; eauto.
    destruct (wf_stream _ Hwf r s Es) as (? & ? & _). unfold stream_step. rewrite E1, E2. by split_and!.
  - destruct (member w r s i Hwf Es) as (b & Eb & _); [rewrite <-Hh; set_solver|]. rewrite Eb. obind.
    eexists _, _. split; [done|]. split_and!; [|intros r'; by apply kept_streams| |].
    + eapply wf_setBuffer; eauto. by eapply ok_step_offset.
    + cbn. by rewrite <-app_assoc.
    + rewrite <-Hh. cbn. rewrite !length_app. cbn. lia.
Qed.

Lemma advance_release w r s sc sh waiting todo u until :
  wf w -> streams w !! r = Some s -> holding (buffers s) (Releasing sc sh waiting todo) ->
  exists w' res, advance w r (Releasing sc sh waiting todo) u until = Some (w', res)
    /\ advanced w (buffers s) (Releasing sc sh waiting todo) w' res.
Proof.
  intros Hwf Es Hh. unfold advance. rewrite Es. obind. destruct todo as [|i todo].
  - eexists _, _. split; [done|]. split_and!; [done|intros r'; by apply kept_streams|].
    destruct (_ || _); repeat constructor.
  - destruct (member w r s i Hwf Es) as (b & Eb & _); [apply Hh; constructor|]. rewrite Eb. obind.
    eexists _, _. split; [done|]. split_and!; [|intros r'; by apply kept_streams| |cbn; lia].
    + eapply wf_setBuffer; eauto. apply ok_step_recover.
    + intros j Hj. apply Hh. by constructor.
Qed.

Lemma advance_total w r s h u until :
  wf w -> streams w !! r = Some s -> holding (buffers s) h -> (forall n, 0 <= until n) ->
  exists w' res, advance w r h u until = Some (w', res) /\ advanced w (buffers s) h w' res.
Proof.
  intros Hwf Es Hh Hu. destruct h.
  - by apply advance_sample.
  - by apply advance_configure.
  - unfold advance. rewrite Es. obind. eexists _, _. split; [done|].
    split; [done|]. split; [intros r'; by apply kept_streams|]. split; [by split|cbn; lia].
  - by apply advance_retarget.
  - by apply advance_attach.
  - by apply advance_gather.
  - by apply advance_release.
Qed.

(** ** Lemmas: sections that nothing interrupts *)

(** A holder run to its end. *)
Fixpoint settle (n : nat) (w : world) (r : nat) (h : holder) (u : time) (until : nat -> time)
  : option (world * list call) :=
  match n with
  | O => None
  | S n =>
      '(w, res) ← advance w r h u until;
      match res with inl h => settle n w r h u until | inr after => Some (w, after) end
  end.

Lemma settle_next n w r h u until w' h' :
  advance w r h u until = Some (w', inl h') -> settle (S n) w r h u until = settle n w' r h' u until.
Proof. cbn [settle]. by intros ->. Qed.

(** Both sections of a buffer. *)
Lemma settle_buffer n w r s target changed i b todo u until :
  streams w !! r = Some s -> bufs w !! i = Some b ->
  settle (S (S n)) w r (Retargeting target changed (i :: todo)) u until
  = settle n (setBuffer w i (configureBuffer r (delay s) changed target b)) r (Retargeting target changed todo) u until.
Proof.
  intros Es Eb. erewrite settle_next by (unfold advance; rewrite Es, Eb; reflexivity).
  erewrite settle_next; [|unfold advance; cbn; rewrite Es; cbn; rewrite lookup_insert_eq; reflexivity].
  unfold setBuffer. cbn. by rewrite insert_insert_eq.
Qed.

Lemma settle_retarget w r s target changed todo u until :
  streams w !! r = Some s -> (forall i, i ∈ todo -> is_Some (bufs w !! i)) ->
  settle (S (2 * length todo)) w r (Retargeting target changed todo) u until
  = Some (w <| bufs := onBuffers (configureBuffer r (delay s) changed target) (bufs w) todo |>, []).
Proof.
  revert w. induction todo as [|i todo IH]; intros w Es Hb.
  - cbn [settle]. unfold advance. rewrite Es. obind. by destruct w.
  - destruct (Hb i) as [b Eb]; [constructor|].
    replace (S (2 * length (i :: todo))) with (S (S (S (2 * length todo)))) by (cbn; lia).
    rewrite (settle_buffer _ w r s _ _ i b) by done.
    set (w1 := setBuffer w i _).
    assert (E1 : bufs w1 = alter (configureBuffer r (delay s) changed target) i (bufs w)).
    { apply map_eq. intros j. cbn. destruct (decide (i = j)) as [<-|].
      - by rewrite lookup_insert_eq, lookup_alter_eq, Eb.
      - by rewrite lookup_insert_ne, lookup_alter_ne. }
    rewrite (IH w1); [|done|].
    + unfold onBuffers. cbn [fold_left]. by rewrite <-E1.
    + intros j Hj. rewrite E1. destruct (decide (i = j)) as [<-|].
      * rewrite lookup_alter_eq, Eb. cbn. eauto.
      * rewrite lookup_alter_ne by done. apply Hb. by constructor.
Qed.

(** [ConfigureDelay] is what its sections do when nothing comes between them. *)
Lemma ConfigureDelay_settles w id r s target o now u until :
  wf w -> names w !! id = Some r -> streams w !! r = Some s ->
  settle (2 * length (buffers s) + 3) w r (Configuring target o now (delay s)) u until
  = Some (ConfigureDelay w id target o now, []).
Proof.
  intros Hwf En Es. unfold ConfigureDelay. rewrite En, Es.
  replace (2 * length (buffers s) + 3)%nat with (S (S (S (2 * length (buffers s))))) by lia.
  erewrite settle_next by (unfold advance; rewrite Es; reflexivity).
  erewrite settle_next by (unfold advance; cbn; rewrite lookup_insert_eq; reflexivity).
  cbn [buffers delay set_field]. rewrite (settle_retarget _ r (s <| delay := DynamicDelay.Configure (delay s) target o now |>));
    [reflexivity|cbn; by rewrite lookup_insert_eq|].
  intros i Hi. destruct (member w r s i Hwf Es Hi) as (b & Eb & _). exists b. exact Eb.
Qed.

(** ** Lemmas: every step keeps the system consistent *)
Record consistent (y : system) : Prop := Consistent {
  co_store : wf (store y);
  co_busy : forall r h k, busy y !! r = Some (h, k) ->
    Forall call_ok k /\ exists s, streams (store y) !! r = Some s /\ holding (buffers s) h;
  co_running : Forall (Forall call_ok) (running y)
}.

(** A change of the store alone. *)
Lemma consistent_store y w :
  consistent y -> wf w -> (forall r, is_Some (busy y !! r) -> kept (store y) w r) ->
  consistent (y <| store := w |>).
Proof.
  intros [H1 H2 H3] Hw Hk. constructor; cbn; auto. intros r h k E.
  destruct (H2 r h k E) as (Hc & s & Es & Hh). split; [done|].
  destruct (Hk r ltac:(eauto) s Es) as (s' & Es' & Eb). exists s'. by rewrite Eb.
Qed.

Lemma consistent_running y l : consistent y -> Forall (Forall call_ok) l -> consistent (y <| running := l |>).
Proof. intros [H1 H2 H3] Hl. by constructor. Qed.

(** A change of the store by which a lock is taken or kept, or given back. *)
Lemma consistent_busy y w r h k s :
  consistent y -> wf w -> (forall r, is_Some (busy y !! r) -> kept (store y) w r) ->
  streams w !! r = Some s -> holding (buffers s) h -> Forall call_ok k ->
  consistent (y <| store := w |> <| busy := <[r := (h, k)]> (busy y) |>).
Proof.
  intros Hy Hw Hkp Es Hh Hk. destruct (consistent_store y w Hy Hw Hkp) as [H1 H2 H3].
  constructor; cbn; auto. intros r' h' k'. destruct (decide (r = r')) as [<-|].
  - rewrite lookup_insert_eq. intros [= <- <-]. eauto.
  - rewrite lookup_insert_ne by done. apply H2.
Qed.

Lemma consistent_unlock y w r :
  consistent y -> wf w -> (forall r, is_Some (busy y !! r) -> kept (store y) w r) ->
  consistent (y <| store := w |> <| busy := delete r (busy y) |>).
Proof.
  intros Hy Hw Hkp. destruct (consistent_store y w Hy Hw Hkp) as [H1 H2 H3].
  constructor; cbn; auto. intros r' h k [_ E]%lookup_delete_Some. by apply (H2 r').
Qed.

(** A call that is allowed. *)
Lemma perform_ok y c t0 t1 w res :
  consistent y -> allowed y c -> call_ok c -> perform (store y) c t0 t1 = (w, res) ->
  wf w /\ (forall r, is_Some (busy y !! r) -> kept (store y) w r)
  /\ match res with
     | inl after => Forall call_ok after
     | inr h => exists s, streams w !! streamOf c = Some s /\ holding (buffers s) h
     end.
Proof.
  intros [Hwf _ _] [Hl Hb] Hc. unfold perform. destruct (streams (store y) !! streamOf c) as [s|] eqn:Es.
  2:{ intros [= <- <-]. split_and!; [done|intros; by apply kept_streams|constructor]. }
  assert (Hne : forall r, busy y !! streamOf c = None -> is_Some (busy y !! r) -> r <> streamOf c).
  { intros r H [x Hx] ->. congruence. }
  destruct c; cbn in *.
  - intros [= <- <-]. split_and!; [by apply wf_ask|intros; apply kept_ask|constructor].
  - intros [= <- <-]. split_and!; [done|intros; by apply kept_streams|]. destruct (decide _); repeat constructor.
  - destruct (bufs (store y) !! buf) as [b|] eqn:Eb; [|done]. injection Hb as Est. intros [= <- <-]. split_and!; [by eapply wf_trackOn| |constructor].
    intros r' Hr'. unfold trackOn. rewrite Es, Eb. eapply kept_other; [by apply Hne|done].
  - intros [= <- <-]. split_and!; [by apply wf_untrackOn| |constructor].
    intros r' Hr'. unfold untrackOn. rewrite Es. destruct (bufs (store y) !! buf); [|by apply kept_streams].
    destruct (list_find _ _) as [[idx j]|]; [|by apply kept_streams]. eapply kept_other; [by apply Hne|done].
  - intros [= <- <-]. split_and!; [done|intros; by apply kept_streams|]. by exists s.
  - intros [= <- <-]. split_and!; [done|intros; by apply kept_streams|].
    destruct (DynamicDelay.state _); repeat constructor.
  - destruct (_ <? _).
    + intros [= <- <-]. split_and!; [done|intros; by apply kept_streams|constructor].
    + destruct (wf_stream _ Hwf r s Es) as (? & ? & _). intros [= <- <-].
      split_and!; [eapply wf_setStream; eauto; by split_and!|intros; by eapply kept_insert; [exact Es| |reflexivity]|].
      eexists. cbn. rewrite lookup_insert_eq. split; [done|]. done.
  - intros [= <- <-]. split_and!; [done|intros; by apply kept_streams|]. by exists s.
Qed.

Lemma consistent_call y l c k l' :
  consistent y -> running y = l ++ (c :: k) :: l' ->
  Forall (Forall call_ok) l /\ call_ok c /\ Forall call_ok k /\ Forall (Forall call_ok) l'.
Proof.
  intros [_ _ H] E. rewrite E in H. apply Forall_app in H as [? H]. apply Forall_cons in H as [H ?].
  apply Forall_cons in H as [? ?]. done.
Qed.

Lemma wf_pop w i b now b' t :
  wf w -> bufs w !! i = Some b -> fits b -> pop_turn b (ctl w b) now = Some (b', t) -> wf (setBuffer w i b').
Proof.
  intros Hwf Eb Hf E. pose proof (ctl_mirror w i b Hwf Eb) as Hm.
  eapply wf_setBuffer; eauto. split; [|by eapply pop_turn_seen]. intros Hok.
  pose proof (pop_turn_spec b (ctl w b) now Hok) as H'. destruct (dynamicOffsetLocked _ _ _).
  destruct H' as (b1 & t1 & E1 & [? _] & _); [done|]. congruence.
Qed.

Lemma wf_report w i b ts ntp b' :
  wf w -> bufs w !! i = Some b -> SenderReport b ts ntp = Some b' -> wf (setBuffer w i b').
Proof.
  intros Hwf Eb E. destruct (wf_buffer _ Hwf i b Eb) as (Hok & _).
  eapply wf_setBuffer; eauto. destruct (SenderReport_total b ts ntp Hok) as (b1 & E1 & Q).
  assert (b1 = b') as -> by congruence. apply ok_step_place; [intros; by eapply quiet_ok|].
  by eapply SenderReport_place.
Qed.

Lemma kept_putCtl w i b b' c r : kept w (putCtl (setBuffer w i b') b c) r.
Proof.
  unfold putCtl. destruct (dynamic b) as [r0|]; [|by apply kept_streams]. intros s Hs. cbn.
  rewrite lookup_alter. destruct (decide (r0 = r)) as [->|]; [rewrite Hs|]; cbn; eauto.
Qed.

Lemma consistent_step y e y' : consistent y -> step y e y' -> consistent y'.
Proof.
  intros Hy. pose proof (co_store _ Hy) as Hwf. destruct 1.
  - apply consistent_store; [done|by apply wf_Publish|]. intros. by apply kept_Publish.
  - apply consistent_store; [done|by apply wf_Drop|]. intros. by apply kept_streams.
  - apply consistent_store; [done|by apply wf_newBuffer|]. intros. by apply kept_streams.
  - apply consistent_running; [done|]. apply Forall_app. split; [apply Hy|]. repeat constructor. by destruct c.
  - apply consistent_running; [done|]. apply Forall_app. split; [apply Hy|]. repeat constructor.
  - destruct (consistent_call _ _ _ _ _ Hy H) as (Hl & Hc & Hk & Hl').
    destruct (perform_ok _ _ _ _ _ _ Hy H0 Hc H2) as (Hw & Hkp & Ha).
    apply consistent_running; [by apply consistent_store|]. apply Forall_app. split; [done|].
    constructor; [|done]. by apply Forall_app.
  - destruct (consistent_call _ _ _ _ _ Hy H) as (Hl & Hc & Hk & Hl').
    destruct (perform_ok _ _ _ _ _ _ Hy H0 Hc H2) as (Hw & Hkp & s & Es & Hh).
    apply consistent_running; [|by apply Forall_app].
    by eapply consistent_busy.
  - destruct (co_busy _ Hy r h k H) as (Hk & s & Es & Hh).
    destruct (advance_total (store y) r s h u until) as (w' & res & E & Hw & Hkp & Hr); [done..|].
    rewrite H2 in E. injection E as <- <-. destruct Hr as [Hr _]. destruct (Hkp r s Es) as (s' & Es' & Eb).
    by eapply consistent_busy; [..|exact Es'|rewrite Eb|].
  - destruct (co_busy _ Hy r h k H) as (Hk & s & Es & Hh).
    destruct (advance_total (store y) r s h u until) as (w' & res & E & Hw & Hkp & Hr); [done..|].
    rewrite H2 in E. injection E as <- <-. apply consistent_running.
    + by apply consistent_unlock.
    + apply Forall_app. split; [apply Hy|]. constructor; [|done]. by apply Forall_app.
  - apply consistent_store; [done|by eapply wf_push|]. intros. apply kept_putCtl.
  - apply consistent_store; [done|by eapply wf_pop|]. intros. by apply kept_streams.
  - apply consistent_store; [done|by eapply wf_report|]. intros. by apply kept_streams.
  - apply consistent_store; [done| |intros; by apply kept_streams]. eapply wf_setBuffer; eauto.
    apply ok_step_place; [intros; by apply fine_Close|]. unfold Close. by cases_if.
Qed.

Lemma reach_consistent es y : reach es y -> consistent y.
Proof.
  induction 1 as [|es y e y' _ IH Hs]; [|by eapply consistent_step].
  constructor; cbn; [|by intros ??? ?%lookup_empty_Some|constructor].
  constructor; cbn; intros; by rewrite lookup_empty in *.
Qed.

Lemma wanted_member bs h i :
  holding bs h -> NoDup bs -> wants h = Some i -> i ∈ bs /\ i ∉ heldBy h.
Proof.
  intros Hh Hnd Hw. destruct h as [? ? [|j todo]| | |? ? [|j todo]|? ? j todo|? held [|j todo]|]; try done;
    injection Hw as ->; cbn in Hh |- *.
  - split; [apply Hh; constructor|apply not_elem_of_nil].
  - split; [apply Hh; constructor|apply not_elem_of_nil].
  - split; [apply Hh; constructor|apply not_elem_of_nil].
  - rewrite <-Hh in *. apply NoDup_app in Hnd as (_ & Hd & _). split; [set_solver|].
    intros Hi. apply (Hd i Hi). constructor.
Qed.

Lemma held_member bs h i : holding bs h -> i ∈ heldBy h -> i ∈ bs.
Proof.
  destruct h; cbn; intros Hh Hi; try (by apply not_elem_of_nil in Hi); [|by apply Hh].
  rewrite <-Hh. set_solver.
Qed.

(** A holder waits for no lock that another holder, or itself, keeps. *)
Lemma wanted_free y r h k i : consistent y -> busy y !! r = Some (h, k) -> wants h = Some i -> free y i.
Proof.
  intros Hy Hr Hw r' [h' k'] Hr' Hi. cbn in Hi. pose proof (co_store _ Hy) as Hwf.
  destruct (co_busy _ Hy r h k Hr) as (_ & s & Es & Hh).
  destruct (co_busy _ Hy r' h' k' Hr') as (_ & s' & Es' & Hh').
  destruct (wf_stream _ Hwf r s Es) as (_ & Hnd & Hin). destruct (wf_stream _ Hwf r' s' Es') as (_ & _ & Hin').
  destruct (wanted_member _ h i Hh Hnd Hw) as [H1 H2].
  destruct (Hin i H1) as (b & Eb & Hb). destruct (Hin' i (held_member _ _ _ Hh' Hi)) as (b' & Eb' & Hb').
  assert (r' = r) as -> by congruence. assert (h' = h) as -> by congruence. done.
Qed.

Lemma playbackClock_total b sc : buffer_ok b -> is_Some (playbackClockLocked b sc).
Proof.
  intros Hok. unfold playbackClockLocked. destruct (Cut _ _). destruct sc; [cbn; eauto|].
  rewrite playoutOf_exact by done. cbn. eauto.
Qed.

Lemma Playback_total w id now : wf w -> is_Some (Playback w id now).
Proof.
  intros Hwf. unfold Playback. destruct (names w !! id ≫= _) as [s|]; [|eauto].
  set (sc := forallb _ _). clearbody sc.
  assert (H : Forall buffer_ok (filter (λ b, based b = true) (lookupAll (bufs w) (buffers s)))).
  { apply Forall_forall. intros b [_ Hb]%list_elem_of_filter. unfold lookupAll in Hb.
    apply list_elem_of_omap in Hb as (i & _ & Ei). by destruct (wf_buffer _ Hwf i b Ei). }
  destruct (mapM_is_Some_2 (λ b, playbackClockLocked b sc)
              (filter (λ b, based b = true) (lookupAll (bufs w) (buffers s)))) as [l El].
  { eapply Forall_impl; [exact H|]. intros b Hb. by apply playbackClock_total. }
  rewrite El. cbn. eauto.
Qed.

(** ** Lemmas: keyframe requests *)

(** Requests to one publisher, newest first, are half a second apart. *)
Fixpoint spaced (l : list ask) : Prop :=
  match l with
  | [] => True
  | a :: l =>
      (forall a', a' ∈ l -> askStream a' = askStream a -> askTime a' + keyframeInterval <= askTime a)
      /\ spaced l
  end.

Record asks_ok (es : list event) (w : world) : Prop := AsksOK {
  ao_spaced : spaced (asks w);
  ao_last : forall a, a ∈ asks w ->
    exists s, streams w !! askStream a = Some s /\ askTime a <= lastKeyframe s;
  ao_video : forall a, a ∈ asks w -> EVideo (Some (askCallback a)) ∈ es;
  ao_callback : forall r s f, streams w !! r = Some s -> callback s = Some f -> EVideo (Some f) ∈ es
}.

(** A step that asks for nothing and registers nothing. *)
Definition silent (w w' : world) : Prop :=
  asks w' = asks w
  /\ forall r, match streams w !! r, streams w' !! r with
               | Some s, Some s' => callback s' = callback s /\ lastKeyframe s' = lastKeyframe s
               | None, None => True
               | None, Some s' => callback s' = None
               | Some _, None => False
               end.

Lemma silent_streams w w' : asks w' = asks w -> streams w' = streams w -> silent w w'.
Proof. intros E Es. split; [done|]. intros r. rewrite Es. by destruct (streams w !! r). Qed.

Lemma silent_setStream w r s s' w' :
  streams w !! r = Some s -> callback s' = callback s -> lastKeyframe s' = lastKeyframe s ->
  asks w' = asks w -> streams w' = <[r := s']> (streams w) -> silent w w'.
Proof.
  intros Es Ec El Ea Ew. split; [done|]. intros r'. rewrite Ew. destruct (decide (r = r')) as [<-|].
  - by rewrite Es, lookup_insert_eq.
  - rewrite lookup_insert_ne by done. by destruct (streams w !! r').
Qed.

Lemma asks_silent es e w w' : asks_ok es w -> silent w w' -> asks_ok (e :: es) w'.
Proof.
  intros [H1 H2 H3 H4] [Ea Es]. constructor; rewrite ?Ea.
  - done.
  - intros a Ha. destruct (H2 a Ha) as (s & E & Hle). specialize (Es (askStream a)). rewrite E in Es.
    destruct (streams w' !! askStream a) as [s'|]; [|done]. exists s'. split; [done|]. destruct Es as [_ ->]. done.
  - intros a Ha. constructor. by apply H3.
  - intros r s' f E Ef. specialize (Es r). rewrite E in Es. constructor.
    destruct (streams w !! r) as [s|] eqn:Ew; [|congruence]. destruct Es as [Ec _].
    eapply (H4 r s); congruence.
Qed.

Lemma asks_same es w w' : asks_ok es w -> silent w w' -> asks_ok es w'.
Proof.
  intros H Hs. destruct (asks_silent es ESilent w w' H Hs) as [H1 H2 H3 H4]. constructor; auto.
  - intros a Ha. by apply H3 in Ha as [?|?]%elem_of_cons.
  - intros r s f Es Ef. by apply (H4 r s f) in Es as [?|?]%elem_of_cons.
Qed.

Lemma asks_weaken es e w : asks_ok es w -> asks_ok (e :: es) w.
Proof. intros H. eapply asks_silent; [done|]. by apply silent_streams. Qed.

Lemma asks_ask es w r t0 t1 : asks_ok es w -> t0 <= t1 -> asks_ok es (askKeyframe w r t0 t1).
Proof.
  intros Hok Ht. unfold askKeyframe. destruct (streams w !! r) as [s|] eqn:Es; [|done].
  destruct (callback s) as [f|] eqn:Ef; [|done]. destruct (_ <? _) eqn:Ei; [done|].
  assert (Hlast : lastKeyframe s + keyframeInterval <= t1).
  { unfold tsub, keyframeInterval, Millisecond in *. lia. }
  destruct Hok as [H1 H2 H3 H4]. constructor; cbn.
  - split; [|done]. intros a Ha E. destruct (H2 a Ha) as (s' & Es' & Hle).
    assert (s' = s) as -> by congruence. lia.
  - intros a [->|Ha]%elem_of_cons; cbn.
    + exists (s <| lastKeyframe := t1 |>). rewrite lookup_insert_eq. done.
    + destruct (H2 a Ha) as (s' & Es' & Hle). destruct (decide (r = askStream a)) as [E|].
      * exists (s <| lastKeyframe := t1 |>). rewrite E, lookup_insert_eq. split; [done|]. cbn.
        assert (s' = s) as -> by congruence. unfold keyframeInterval, Millisecond in *. lia.
      * exists s'. by rewrite lookup_insert_ne.
  - intros a [->|Ha]%elem_of_cons; cbn; [by eapply H4|auto].
  - intros r' s' f'. destruct (decide (r = r')) as [<-|].
    + rewrite lookup_insert_eq. intros [= <-]. cbn. intros. by eapply (H4 r s).
    + rewrite lookup_insert_ne by done. apply H4.
Qed.

Lemma asks_Publish es w id kind track kf fresh :
  asks_ok es w -> streams w !! fresh = None ->
  asks_ok ((match kind, track with Video, Some _ => EVideo kf | _, _ => ESilent end) :: es)
    (Publish w id kind track kf fresh).1.
Proof.
  intros Hok Hf. unfold Publish. destruct track as [track|].
  2:{ destruct kind; by apply asks_weaken. }
  set (e := match names w !! id with Some r => _ | None => _ end).
  assert (He : asks_ok es e.1).
  { subst e. destruct (names w !! id); [done|]. cbn. destruct Hok as [H1 H2 H3 H4]. constructor; cbn; auto.
    - intros a Ha. destruct (H2 a Ha) as (s & Es & ?). exists s. rewrite lookup_insert_ne by congruence. done.
    - intros r s f. destruct (decide (fresh = r)) as [<-|].
      + rewrite lookup_insert_eq. by intros [= <-].
      + rewrite lookup_insert_ne by done. apply H4. }
  destruct e as [w1 r]. cbn in He. clear Hok w Hf.
  destruct (streams w1 !! r) as [s|] eqn:Es.
  2:{ destruct kind; by apply asks_weaken. }
  cbn. destruct (decide (kind = Video)) as [->|Hk].
  - destruct He as [H1 H2 H3 H4]. constructor; cbn; auto.
    + intros a Ha. destruct (H2 a Ha) as (s' & Es' & Hle). destruct (decide (r = askStream a)) as [E|].
      * eexists. rewrite E, lookup_insert_eq. split; [done|]. cbn. assert (s' = s) as -> by congruence. done.
      * exists s'. by rewrite lookup_insert_ne.
    + intros a Ha. constructor. auto.
    + intros r' s' f. destruct (decide (r = r')) as [<-|].
      * rewrite lookup_insert_eq. intros [= <-]. cbn. intros ->. constructor.
      * rewrite lookup_insert_ne by done. intros. constructor. by eapply H4.
  - eapply asks_silent; [done|].
    by apply (silent_setStream w1 r s (s <| tracks := <[kind := track]> (tracks s) |>)).
Qed.

Lemma silent_refl w : silent w w.
Proof. by apply silent_streams. Qed.

Lemma silent_trackOn w r i : silent w (trackOn w r i).
Proof.
  unfold trackOn. destruct (streams w !! r) as [s|] eqn:Es; [|apply silent_refl].
  destruct (bufs w !! i) as [b|]; [|apply silent_refl].
  by apply (silent_setStream w r s (s <| buffers := buffers s ++ [i] |>)).
Qed.

Lemma silent_untrackOn w r i : silent w (untrackOn w r i).
Proof.
  unfold untrackOn. destruct (streams w !! r) as [s|] eqn:Es; [|apply silent_refl].
  destruct (bufs w !! i) as [b|]; [|apply silent_refl].
  destruct (list_find _ _) as [[idx j]|]; [|apply silent_refl].
  eapply silent_setStream; [done| | |done|done]; by destruct (isVideo b).
Qed.

(** Of the calls only [askKeyframe] asks; the sections of a holder never do. *)
Lemma asks_perform es w c t0 t1 : asks_ok es w -> t0 <= t1 -> asks_ok es (perform w c t0 t1).1.
Proof.
  intros Hok Ht. unfold perform. destruct (streams w !! streamOf c) as [s|] eqn:Es; [|done].
  destruct c; try done.
  - by apply asks_ask.
  - apply (asks_same es w); [done|apply silent_trackOn].
  - apply (asks_same es w); [done|apply silent_untrackOn].
  - destruct (_ <? _); [done|]. apply (asks_same es w); [done|].
    by apply (silent_setStream w r s (s <| lastAdjust := now |>)).
Qed.

Lemma silent_advance w r h u until w' res : advance w r h u until = Some (w', res) -> silent w w'.
Proof.
  unfold advance. destruct (streams w !! r) as [s|] eqn:Es; [|done]. obind.
  destruct h as [now late [|i todo]|target o now previous| |? ? [|i todo]|? ? i ?|now held [|i todo]|sc sh wt [|i todo]];
    try (destruct (bufs w !! i) as [b|]; [|done]; obind); try (intros [= <- _]; by apply silent_streams).
  - destruct (DynamicDelay.Step (delay s) now late) as [c st]. intros [= <- _].
    by apply (silent_setStream w r s (s <| delay := c |>)).
  - intros [= <- _].
    by apply (silent_setStream w r s (s <| delay := DynamicDelay.Configure (delay s) target o now |>)).
  - destruct (correction s (bufs w) now until) as [[[[[s' bs] sc] sh] wt]|] eqn:Ec; [|done]. obind.
    apply (correction_core w) in Ec as [(_ & _ & E1 & E2) _]. intros [= <- _].
    by apply (silent_setStream w r s s').
Qed.

Lemma silent_putCtl w i b b' c : silent w (putCtl (setBuffer w i b') b c).
Proof.
  unfold putCtl. destruct (dynamic b) as [r|]; [|by apply silent_streams].
  split; [done|]. intros r'. cbn. rewrite lookup_alter. destruct (decide (r = r')) as [<-|].
  - by destruct (streams w !! r).
  - by destruct (streams w !! r').
Qed.

Lemma asks_step es y e y' : asks_ok es (store y) -> step y e y' -> asks_ok (e :: es) (store y').
Proof.
  intros Hok. destruct 1; cbn; try (eapply asks_silent; [done|by apply silent_streams]).
  - by apply asks_Publish.
  - apply asks_weaken. pose proof (asks_perform es (store y) c t0 t1 Hok H1) as H3. by rewrite H2 in H3.
  - apply asks_weaken. pose proof (asks_perform es (store y) c t0 t1 Hok H1) as H3. by rewrite H2 in H3.
  - eapply asks_silent; [done|]. by eapply silent_advance.
  - eapply asks_silent; [done|]. by eapply silent_advance.
  - eapply asks_silent; [done|]. apply silent_putCtl.
Qed.

Lemma asks_reach es y : reach es y -> asks_ok es (store y).
Proof.
  induction 1 as [|es y e y' _ IH Hs]; [|by eapply asks_step].
  constructor; cbn; try done; intros; by rewrite ?elem_of_nil, ?lookup_empty in *.
Qed.

(** ** Lemmas: alignment, corrections, statistics *)
Lemma align_anchor b base e :
  is_i64 (base - baseWall b) ->
  let b' := alignSenderClockLocked b base e in
  let off := clockReset b = true \/ 50 * Millisecond < Z.abs (base - baseWall b) in
  (off -> baseWall b' = base) /\ (~ off -> baseWall b' = baseWall b /\ Z.abs (base - baseWall b) <= 50 * Millisecond)
  /\ clockReset b' = false
  /\ (clockReset b = true -> queue b' = [] /\ catchUp b' = true
        /\ clockEpoch b' = u64 (clockEpoch b + 1) /\ resetPending b' = true)
  /\ forall ms wall, senderAnchor ms wall b' = senderAnchor ms wall b.
Proof.
  intros Hr. unfold alignSenderClockLocked. rewrite tsub_exact by done.
  destruct (_ && _) eqn:E.
  - bool_hyps. assert (Z.abs (base - baseWall b) <= 50 * Millisecond)
      by (unfold dabs, is_i64, Millisecond in *; cases_if; lia).
    split_and!; auto; [|congruence]. intros [?|?]; [congruence|lia].
  - destruct (clockReset b) eqn:Er; cbn [orb].
    + unfold moveClockLocked. cbn. split_and!; auto; unfold tadd; [lia|]. intros Hn. destruct Hn. by left.
    + set (r := e && _). clearbody r. assert (Hfar : 50 * Millisecond < Z.abs (base - baseWall b)).
      { bool_hyps. unfold dabs, is_i64, Millisecond in *. cases_if; lia. }
      unfold moveClockLocked. destruct r; cbn; rewrite Er;
        (split_and!; auto; unfold tadd; [lia|intros Hn; destruct Hn; by right|done]).
Qed.

Lemma undo_lookup refs bs wall i b' ms w0 :
  (fold_left undoStep refs (bs, wall)).1 !! i = Some b' ->
  exists b, bs !! i = Some b /\ senderAnchor ms w0 b' = senderAnchor ms w0 b
    /\ baseWall b' = baseWall b /\ clockReset b' = clockReset b /\ clockEpoch b' = clockEpoch b.
Proof.
  revert bs wall. induction refs as [|r refs IH]; intros bs wall; [cbn; eauto 10|].
  cbn [fold_left]. unfold undoStep at 2. destruct (bs !! r) as [b|] eqn:Eb; [|apply IH].
  destruct (senderCorrectionLocked b) as [b1 rb] eqn:E1. intros H.
  destruct (IH _ _ H) as (b2 & E2 & HA & HW & HR & HE). destruct (decide (r = i)) as [<-|].
  - rewrite lookup_insert_eq in E2. injection E2 as <-. exists b. split; [done|].
    assert (Hb : senderAnchor ms w0 b1 = senderAnchor ms w0 b /\ baseWall b1 = baseWall b
                 /\ clockReset b1 = clockReset b /\ clockEpoch b1 = clockEpoch b).
    { unfold senderCorrectionLocked in E1.
      repeat match type of E1 with (if ?x then _ else _) = _ => destruct x end; by injection E1 as <- _. }
    destruct Hb as (? & ? & ? & ?). split_and!; congruence.
  - rewrite lookup_insert_ne in E2 by done. eauto 10.
Qed.

Lemma addStats_comm acc a b : addStats (addStats acc a) b = addStats (addStats acc b) a.
Proof.
  unfold addStats, Stats. destruct (isVideo a), (isVideo b); cbn; try done.
  unfold u64. rewrite !Zplus_mod_idemp_l. f_equal; f_equal; lia.
Qed.

Lemma addStats_middle l1 l2 acc b :
  fold_left addStats (l1 ++ b :: l2) acc = fold_left addStats (l1 ++ l2) (addStats acc b).
Proof.
  revert acc. induction l1 as [|a l1 IH]; intros acc; [done|].
  cbn [fold_left app]. by rewrite IH, addStats_comm.
Qed.

Lemma lookupAll_app bs l1 l2 : lookupAll bs (l1 ++ l2) = lookupAll bs l1 ++ lookupAll bs l2.
Proof. apply omap_app. Qed.

(** ** Properties *)

(** C2: in every state the relay can reach, by any interleaving of publishes,
    subscriptions, tracking, settings, corrections and the packets, the reports and
    the closing of its buffers, at the granularity of the locks: the map holds live
    streams, a stream lists buffers that exist and name it as their stream, each once,
    every buffer satisfies its invariant and follows only its own stream's controller,
    whose last jump it has applied if it has seen it; a playback snapshot cannot panic;
    and a goroutine that holds the lock of a stream waits for no buffer that another
    holds across sections, its next section cannot panic, and leaves less to do or
    unlocks the stream.  A keyframe that jumps while a lateness sample is gathered wins:
    a sample whose clock reading is before the last jump does not touch the curve.
    The clock readings of different goroutines are in no order; taken for granted is
    only that no two jumps of a camera have the same reading, that the two readings of
    a keyframe request are in order and those of a correction not before the zero time,
    that delays are within ten seconds, clock rates positive and queues shorter than
    [2^63], that a buffer is tracked once, and that a section of a buffer sees one state
    of the controller. *)
Theorem relay_stays_consistent es y :
  reach es y ->
  wf (store y)
  /\ (forall id now, is_Some (Playback (store y) id now))
  /\ (forall r h k u until, busy y !! r = Some (h, k) -> (forall n, 0 <= until n) ->
        exists s w res, streams (store y) !! r = Some s
          /\ (forall i, wants h = Some i -> free y i)
          /\ advance (store y) r h u until = Some (w, res)
          /\ match res with
             | inl h' => (remaining (length (buffers s)) h' < remaining (length (buffers s)) h)%nat
             | inr _ => True
             end)
  /\ (forall r s now late k u until w res,
        busy y !! r = Some (Sampling now late [], k) -> streams (store y) !! r = Some s ->
        DynamicDelay.state (delay s) <> None -> now < DynamicDelay.cutoff (delay s) ->
        advance (store y) r (Sampling now late []) u until = Some (w, res) ->
        exists s', streams w !! r = Some s' /\ delay s' = delay s).
Proof.
  intros Hr. apply reach_consistent in Hr as Hy. pose proof (co_store _ Hy) as Hwf. split_and!.
  - done.
  - intros. by eapply Playback_total.
  - intros r h k u until Hb Hu. destruct (co_busy _ Hy r h k Hb) as (_ & s & Es & Hh).
    destruct (advance_total (store y) r s h u until Hwf Es Hh Hu) as (w & res & E & _ & _ & Hres).
    exists s, w, res. split_and!; [done| |done|].
    + intros i Hi. by eapply wanted_free.
    + destruct res; [apply Hres|done].
  - intros r s now late k u until w res _ Es Hst Hlt. unfold advance. rewrite Es. obind.
    rewrite sample_before_jump by (try done; by destruct (wf_stream _ Hwf r s Es)).
    intros [= <- _]. eexists. cbn. rewrite lookup_insert_eq. by split.
Qed.

(** C35: the publisher is asked for a keyframe at most every half second per
    stream, whoever asks (subscribers, viewers' requests, jumps, corrections),
    and always through a callback that a video publish registered, never one
    of an audio track. *)
Theorem keyframe_requests_throttled es y :
  reach es y ->
  spaced (asks (store y)) /\ forall a, a ∈ asks (store y) -> EVideo (Some (askCallback a)) ∈ es.
Proof. intros H. apply asks_reach in H as [H1 _ H3 _]. done. Qed.

(** C23: once all tracks of a camera have sent reports, aligning puts them on one
    timeline.  For a track whose distance from its place on the sender's timeline is
    within the range of a duration (292 years): a track whose sender's clock was
    reset, or that was more than 50 ms off, is moved exactly to where the sender's
    clock puts it relative to the shared base, and any other track, at most 50 ms off,
    is not moved; a reset is consumed, empties the queue of that track, makes it wait
    for a keyframe and opens a new epoch. *)
Theorem aligned_tracks_share_timeline s bs s' bs' i b b' :
  NoDup (buffers s) -> alignSenderClocksLocked s bs = (s', bs', true) ->
  i ∈ buffers s -> bs !! i = Some b -> bs' !! i = Some b' ->
  let place := senderAnchor (senderBaseMS s') (senderBaseWall s') in
  is_i64 (place b - baseWall b) ->
  let off := clockReset b = true \/ 50 * Millisecond < Z.abs (place b - baseWall b) in
  place b' = place b
  /\ (off -> baseWall b' = place b')
  /\ (~ off -> baseWall b' = baseWall b /\ Z.abs (baseWall b' - place b') <= 50 * Millisecond)
  /\ clockReset b' = false
  /\ (clockReset b = true -> queue b' = [] /\ catchUp b' = true /\ clockEpoch b' = u64 (clockEpoch b + 1)).
Proof.
  intros Hnd. unfold alignSenderClocksLocked. destruct (_ <? _)%nat; [by intros [= _ _ ?]|].
  destruct (existsb _ _); [by intros [= _ _ ?]|].
  destruct (fold_left undoStep _ _) as [bs1 wall] eqn:Ef.
  destruct (if negb (IsZero wall) then _ else _) as [ms wall'].
  intros [= <- <-] Hi Hb Hb'. cbn in *. intros Hr. rewrite lookup_onBuffers, decide_True in Hb' by done.
  destruct (bs1 !! i) as [b1|] eqn:E1; [|done]. cbn in Hb'. injection Hb' as <-.
  destruct (undo_lookup (buffers s) bs (senderBaseWall s) i b1 ms wall') as (b0 & E0 & HA & HW & HR & HE).
  { by rewrite Ef. }
  assert (b0 = b) as -> by congruence. rewrite <-HA, <-HW in Hr |- *. rewrite <-HR, <-HE.
  destruct (align_anchor b1 (senderAnchor ms wall' b1) (negb (IsZero wall)) Hr) as (H1 & H2 & H3 & H4 & H5).
  rewrite H5. split_and!; auto.
  - intros Hn. destruct (H2 Hn) as [-> ?]. split; [done|lia].
  - intros Hcr. destruct (H4 Hcr) as (? & ? & ? & _). done.
Qed.

(** What the scan of the buffers finds: the largest excess, if any is beyond its
    margin. *)
Lemma scan_max s bs until refs acc :
  let excess n b := dsub (depthLocked b (until n)) (target b) in
  let acc' := fold_left (scanStep s bs until) refs acc in
  0 <= scanShift acc ->
  scanShift acc <= scanShift acc'
  /\ (forall n i b, (n, i) ∈ refs -> bs !! i = Some b -> correctionMargin (target b) < excess n b ->
        excess n b <= scanShift acc')
  /\ (scanShift acc' = scanShift acc
      \/ exists n i b, (n, i) ∈ refs /\ bs !! i = Some b /\ correctionMargin (target b) < excess n b
           /\ scanShift acc' = excess n b)
  /\ (scanFresh acc = true -> scanFresh acc' = true).
Proof.
  intros excess. revert acc. induction refs as [|[n i] refs IH]; intros acc acc' H0.
  { split_and!; try (by auto); try (subst acc'; cbn; lia). intros ??? []%not_elem_of_nil. }
  subst acc'. cbn [fold_left]. set (acc1 := scanStep s bs until acc (n, i)).
  assert (H1 : scanShift acc <= scanShift acc1
    /\ (forall b, bs !! i = Some b -> correctionMargin (target b) < excess n b -> excess n b <= scanShift acc1)
    /\ (scanShift acc1 = scanShift acc \/ exists b, bs !! i = Some b
          /\ correctionMargin (target b) < excess n b /\ scanShift acc1 = excess n b)
    /\ (scanFresh acc = true -> scanFresh acc1 = true)).
  { subst acc1. unfold scanStep. destruct (bs !! i) as [b|] eqn:Eb.
    2:{ split_and!; auto; [lia|done]. }
    fold (excess n b). destruct (_ <? excess n b) eqn:Em; cbn.
    - destruct (scanShift acc <? excess n b) eqn:Es; cbn.
      + split_and!; [lia|by intros ? [= <-]; lia| |by intros ->]. right. exists b. split_and!; auto. lia.
      + split_and!; [lia|by intros ? [= <-]; lia|auto|by intros ->].
    - split_and!; [lia|intros ? [= <-]; lia|auto|done]. }
  clearbody acc1. destruct H1 as (A1 & A2 & A3 & A4).
  destruct (IH acc1 ltac:(lia)) as (B1 & B2 & B3 & B4). split_and!.
  - lia.
  - intros m j b [[= -> ->]|Hin]%elem_of_cons Hb Hm; [|by eapply B2].
    specialize (A2 b Hb Hm). lia.
  - destruct B3 as [B3|(m & j & b & Hin & Hb & Hm & E)].
    + rewrite B3. destruct A3 as [A3|(b & Hb & Hm & E)]; [auto|]. right.
      exists n, i, b. split_and!; auto. constructor.
    + right. exists m, j, b. split_and!; auto. by constructor.
  - auto.
Qed.

(** Without sender clocks, a correction measures the worst track and moves
    only the tracks that need it.  When no recent correction is being reused,
    the shift it returns is zero exactly when every track is within its margin,
    and otherwise the largest excess of a track beyond its margin; the last
    loop then moves a track that is deep and was not already moved back by that
    shift, empties it and makes it wait for a keyframe, and leaves a track that
    is within 250 ms of its target alone. *)
Theorem correction_moves_deep_tracks s bs now until s' bs' sh waiting :
  clockCorrectionLocked s bs now false until = Some (s', bs', sh, waiting) ->
  clockRecoveryWindow <= tsub now (streamRecoveryAt s) ->
  let excess n b := dsub (depthLocked b (until n)) (target b) in
  bs' = bs
  /\ (forall n i b, (n, i) ∈ numbered (buffers s) -> bs !! i = Some b -> buffer_ok b ->
        correctionMargin (target b) < excess n b -> excess n b <= sh /\ streamRecoveryAt s' = now)
  /\ (sh = 0 \/ exists n i b, (n, i) ∈ numbered (buffers s) /\ bs !! i = Some b
        /\ correctionMargin (target b) < excess n b /\ sh = excess n b)
  /\ (forall u b, 0 < sh -> is_i64 sh -> recoveryAt b <> streamRecoveryAt s' ->
        minMargin < dsub (depthLocked b u) (target b) ->
        let b' := recoverBuffer s' false sh u b in
        baseWall b' = baseWall b - sh /\ queue b' = [] /\ catchUp b' = true
        /\ recoveryAt b' = streamRecoveryAt s')
  /\ (forall u b, dsub (depthLocked b u) (target b) <= minMargin -> recoverBuffer s' false sh u b = b).
Proof.
  intros E Hfresh excess. unfold clockCorrectionLocked in E. cbn [orb] in E.
  rewrite (proj2 (Z.leb_le _ _) Hfresh) in E.
  destruct (scan_max s bs until (numbered (buffers s)) (mkScan 0 None true false)) as (H0 & H1 & H2 & H3);
    [done|]. cbn [scanShift scanFresh] in *.
  set (acc := fold_left _ _ _) in *. clearbody acc. specialize (H3 eq_refl).
  assert (Hend : forall u b, dsub (depthLocked b u) (target b) <= minMargin -> recoverBuffer s' false sh u b = b).
  { intros u b Hle. unfold recoverBuffer. cbn [orb].
    rewrite (proj2 (Z.ltb_ge minMargin _) Hle), andb_false_r, andb_false_r. done. }
  assert (Hmove : forall u b, 0 < sh -> is_i64 sh -> recoveryAt b <> streamRecoveryAt s' ->
        minMargin < dsub (depthLocked b u) (target b) ->
        let b' := recoverBuffer s' false sh u b in
        baseWall b' = baseWall b - sh /\ queue b' = [] /\ catchUp b' = true
        /\ recoveryAt b' = streamRecoveryAt s').
  { intros u b Hsh Hi Hne Hd. unfold recoverBuffer.
    rewrite (proj2 (Z.ltb_lt 0 sh) Hsh), (proj2 (Z.eqb_neq _ _) Hne), (proj2 (Z.ltb_lt _ _) Hd). cbn.
    split_and!; auto. unfold tadd, dsub. rewrite i64_small by (unfold is_i64 in *; lia). lia. }
  destruct (scanShift acc =? 0) eqn:Ez.
  - injection E as <- <- <- _. split_and!; auto. intros n i b Hin Hb Hok Hm.
    specialize (H1 n i b Hin Hb Hm). exfalso. unfold excess in *. pose proof (ok_target _ Hok).
    unfold correctionMargin, hysteresis, minMargin, Second, Millisecond in *. lia.
  - cbn in E. rewrite H3 in E. injection E as <- <- <- _. cbn. split_and!; auto.
    intros n i b Hin Hb _ Hm. split; [|done]. by eapply H1.
Qed.

(** Statistics survive a reconnect: when a track ends, its counters move
    into the stream's, so the late and dropped totals that are reported for the
    camera are the same before and after. *)
Theorem Untrack_keeps_totals w id i now :
  match StatsOf w id now, StatsOf (Untrack w id i) id now with
  | Some before, Some after => Late after = Late before /\ Dropped after = Dropped before
  | None, None => True
  | _, _ => False
  end.
Proof.
  unfold Untrack, StatsOf. destruct (names w !! id) as [r|] eqn:En; [|by rewrite En].
  unfold untrackOn. cbn.
  destruct (streams w !! r) as [s|] eqn:Es; [|by rewrite En; cbn; rewrite Es].
  assert (Hsame : match names w !! id ≫= (λ r, streams w !! r) with
                  | Some _ => True | None => False end) by (rewrite En; cbn; by rewrite Es).
  destruct (fold_left addStats _ _) as [l d] eqn:Ef.
  destruct (bufs w !! i) as [b|] eqn:Eb.
  2:{ rewrite En; cbn; rewrite Es, Ef. done. }
  destruct (list_find (eq i) (buffers s)) as [[idx j]|] eqn:Ei.
  2:{ rewrite En; cbn; rewrite Es, Ef. done. }
  apply list_find_Some in Ei as (Hl & <- & _). apply list_elem_of_split_length in Hl as (l1 & l2 & El & ->).
  set (s1 := (if isVideo b then _ else s) <| buffers := _ |>).
  assert (H1 : buffers s1 = l1 ++ l2
               /\ (streamLate s1, streamDropped s1) = addStats (streamLate s, streamDropped s) b).
  { subst s1. unfold addStats. destruct (isVideo b); (split; [|done]); cbn; by rewrite El, delete_middle. }
  clearbody s1. destruct H1 as [Hb1 Hst].
  change (names (setStream w r s1)) with (names w). rewrite En. obind.
  change (streams (setStream w r s1)) with (<[r := s1]> (streams w)).
  rewrite lookup_insert_eq, Hb1, Hst. change (bufs (setStream w r s1)) with (bufs w).
  rewrite El, lookupAll_app in Ef.
  change (lookupAll (bufs w) (i :: l2)) with
    (match bufs w !! i with Some b => b :: lookupAll (bufs w) l2 | None => lookupAll (bufs w) l2 end) in Ef.
  rewrite Eb, addStats_middle, <-lookupAll_app in Ef. by rewrite Ef.
Qed.

(** A change of delay reaches every buffer of the camera, and no other: each
    gets the new target with its queue shifted by the difference, and, when the
    camera's controller has a curve, follows the camera's controller with the last jump
    already applied; buffers of other cameras are untouched. *)
Theorem ConfigureDelay_reaches_tracks w id r s target o now i b :
  wf w -> 0 <= target <= DynamicDelay.tenSeconds ->
  names w !! id = Some r -> streams w !! r = Some s -> bufs w !! i = Some b ->
  let w' := ConfigureDelay w id target o now in
  (i ∈ buffers s -> exists b' s', bufs w' !! i = Some b' /\ streams w' !! r = Some s'
     /\ Buffer.target b' = target
     /\ queue b' = (Heap.shift_item (target - Buffer.target b) <$> queue b)
     /\ (DynamicDelay.state (delay s') <> None -> dynamic b' = Some r /\ synced (delay s') b'))
  /\ (i ∉ buffers s -> bufs w' !! i = Some b).
Proof.
  intros Hwf Ht En Es Eb. cbn zeta.
  pose proof (wf_ConfigureDelay w id target o now Hwf Ht) as Hwf'. revert Hwf'.
  unfold ConfigureDelay. rewrite En, Es. set (w' := set_field _ _). intros Hwf'.
  destruct (wf_stream _ Hwf r s Es) as (Hm & Hnd & _).
  destruct (Configure_mirror (delay s) target o now Hm) as (Hm' & _).
  destruct (wf_buffer _ Hwf i b Eb) as (Hok & _).
  assert (Hl : bufs w' !! i = if decide (i ∈ buffers s)
    then Some (configureBuffer r (DynamicDelay.Configure (delay s) target o now)
           (negb (DynamicDelay.same_state (delay s) (DynamicDelay.Configure (delay s) target o now))) target b)
    else Some b).
  { unfold w'. cbn. rewrite lookup_onBuffers, Eb by done. by destruct (decide _). }
  assert (Hs' : streams w' !! r = Some (s <| delay := DynamicDelay.Configure (delay s) target o now |>)).
  { unfold w'. cbn. by rewrite lookup_insert_eq. }
  clearbody w'. split; intros Hi.
  - rewrite decide_True in Hl by done. eexists _, _. split; [exact Hl|]. split; [exact Hs'|].
    set (c := DynamicDelay.Configure (delay s) target o now) in *.
    destruct (configureBuffer_spec r c (negb (DynamicDelay.same_state (delay s) c)) target b Hm' Hok Ht)
      as (_ & _ & Et & Ed & _).
    split; [done|]. split.
    + rewrite <-target_shift by done. apply configureBuffer_queue.
    + intros Hen. rewrite decide_False in Ed by done. split; [done|].
      destruct (wf_buffer _ Hwf' i _ Hl) as (_ & _ & Hd). destruct (Hd r Ed) as (_ & s1 & Es1 & Hsy).
      assert (s1 = s <| delay := c |>) as -> by congruence. exact Hsy.
  - by rewrite decide_False in Hl.
Qed.

(** ** Witnesses *)

(** A scheduler: the last goroutine makes its call, the holder of a stream its next
    section, a packet arrives, a method is called, a tick of the ticker. *)
Inductive move :=
  | Turn (t : time)
  | Next (r : nat) (t : time)
  | Arrive (i : nat) (p : Packet) (now : time)
  | Spawn (id : string) (c : call)
  | Tick (i : nat) (now : time).

Definition play (y : system) (m : move) : option system :=
  match m with
  | Turn t =>
      match last (running y) with
      | Some (c :: k) =>
          guard (allowed y c);;
          let l := take (pred (length (running y))) (running y) in
          match perform (store y) c t t with
          | (w, inl after) => Some (y <| store := w |> <| running := l ++ [after ++ k] |>)
          | (w, inr h) =>
              Some (y <| store := w |> <| busy := <[streamOf c := (h, k)]> (busy y) |> <| running := l ++ [] |>)
          end
      | _ => None
      end
  | Next r t =>
      guard (0 <= t);;
      '(h, k) ← busy y !! r;
      guard (Forall (free y) (option_list (wants h)));;
      '(w, res) ← advance (store y) r h t (λ _, t);
      match res with
      | inl h' => Some (y <| store := w |> <| busy := <[r := (h', k)]> (busy y) |>)
      | inr after =>
          Some (y <| store := w |> <| busy := delete r (busy y) |> <| running := running y ++ [after ++ k] |>)
      end
  | Arrive i p now =>
      b ← bufs (store y) !! i;
      guard (free y i /\ unjumped (store y) b now);;
      '(b', c', _) ← Push b (ctl (store y) b) p now now now;
      Some (y <| store := putCtl (setBuffer (store y) i b') b c' |>)
  | Spawn id c =>
      guard (names (store y) !! id = Some (streamOf c)
             /\ match c with
                | CTracks _ | CAsk _ | CTrack _ _ | CUntrack _ _ => true
                | CConfigure _ target _ => bool_decide (0 <= target <= DynamicDelay.tenSeconds)
                | _ => false
                end = true);;
      Some (y <| running := running y ++ [[c]] |>)
  | Tick i now =>
      b ← bufs (store y) !! i;
      r ← stream b;
      Some (y <| running := running y ++ [[CAdjust r now; CClocks r]] |>)
  end.

Definition replay (y : system) (ms : list move) : option system := foldl (λ y m, y ← y; play y m) (Some y) ms.

Lemma play_step y m y' : play y m = Some y' -> step y ESilent y'.
Proof.
  destruct m; cbn -[perform advance Push].
  - destruct (last (running y)) as [[|c k]|] eqn:El; try done. case_guard; [|done]. cbn -[perform].
    apply last_Some in El as [l El].
    assert (Et : take (pred (length (running y))) (running y) = l).
    { rewrite El, length_app. cbn. rewrite Nat.add_1_r. cbn. apply take_app_length. }
    rewrite Et. destruct (perform (store y) c t t) as [w [after|h]] eqn:Ep; intros [= <-].
    + by eapply (S_call y l c k [] t t); [|done|lia|].
    + by eapply (S_lock y l c k [] t t); [|done|lia|].
  - case_guard; [|done]. cbn -[advance]. destruct (busy y !! r) as [[h k]|] eqn:Eb; [|done]. cbn -[advance].
    case_guard as Hw; [|done]. cbn -[advance].
    assert (Hf : forall i, wants h = Some i -> free y i) by (intros i E; rewrite E in Hw; by inversion Hw).
    destruct (advance (store y) r h t (λ _, t)) as [[w [h'|after]]|] eqn:Ea; [| |done]; cbn; intros [= <-].
    + by eapply (S_section y r h k t (λ _, t)).
    + by eapply (S_unlock y r h k t (λ _, t)).
  - destruct (bufs (store y) !! i) as [b|] eqn:Eb; [|done]. cbn -[Push]. case_guard as Hg; [|done]. cbn -[Push].
    destruct (Push _ _ _ _ _ _) as [[[b' c'] f]|] eqn:Ep; [|done]. cbn. intros [= <-].
    destruct Hg. by eapply (S_push y i b b' c' f p now now now).
  - case_guard as Hg; [|done]. cbn. intros [= <-]. destruct Hg as [Hn Hc]. eapply S_lookup; [done|done|].
    destruct c; try done. by apply bool_decide_eq_true in Hc.
  - destruct (bufs (store y) !! i) as [b|] eqn:Eb; [|done]. cbn. destruct (stream b) as [r|] eqn:Er; [|done].
    cbn. intros [= <-]. by eapply S_correct.
Qed.

Lemma replay_reach ms es y y' :
  reach es y -> replay y ms = Some y' -> reach (replicate (length ms) ESilent ++ es) y'.
Proof.
  revert es y. induction ms as [|m ms IH]; intros es y Hr; unfold replay; cbn -[play replicate].
  - by intros [= <-].
  - destruct (play y m) as [y1|] eqn:E1.
    + intros E. apply play_step in E1. rewrite replicate_S_end, <-app_assoc. eapply IH; [|exact E]. by eapply R_step.
    + intros E. exfalso. clear -E. induction ms; [done|]. by apply IHms.
Qed.

(** A camera that publishes video, whose buffer is tracked, and a viewer. *)
Definition published : world := (Publish New "cam" Video (Some 7%nat) (Some 1%nat) 0).1.
Definition buffered : world := setBuffer published 0 (NewBuffer camTarget 90000 "video/H264" true).
Definition tracked : world := Track buffered "cam" 0.
Definition viewed : world := (Subscribe tracked "cam" (10 * Second) (10 * Second)).1.

Lemma buffered_reach : reach [ESilent; EVideo (Some 1%nat)] (idle buffered).
Proof.
  assert (R1 : reach [EVideo (Some 1%nat)] (idle published)).
  { eapply R_step; [exact R_new|].
    by apply (S_publish (idle New) "cam" Video (Some 7%nat) (Some 1%nat) 0). }
  eapply R_step; [exact R1|]. apply (S_newBuffer (idle published)); [reflexivity|by compute|by compute].
Qed.

(** The buffer is tracked, and a viewer subscribes. *)
Definition trackedSystem : system := default (idle New) (replay (idle buffered) [Spawn "cam" (CTrack 0 0); Turn 0]).

Definition viewedSystem : system :=
  default (idle New) (replay trackedSystem [Spawn "cam" (CTracks 0); Turn (10 * Second); Turn (10 * Second)]).

Lemma tracked_reach : exists es, reach es trackedSystem /\ store trackedSystem = tracked.
Proof.
  eexists. split; [|vm_compute; reflexivity].
  eapply (replay_reach [Spawn "cam" (CTrack 0 0); Turn 0]); [exact buffered_reach|vm_compute; reflexivity].
Qed.

Lemma viewed_reach : exists es, reach es viewedSystem /\ store viewedSystem = viewed.
Proof.
  destruct tracked_reach as (es & Hr & _). eexists. split; [|vm_compute; reflexivity].
  eapply (replay_reach [Spawn "cam" (CTracks 0); Turn (10 * Second); Turn (10 * Second)]);
    [exact Hr|vm_compute; reflexivity].
Qed.

(** The adaptive delay is enabled with a maximum of three seconds and jumps; a
    keyframe arrives, and twenty seconds later another of the same instant; a tick
    finds the lateness beyond the maximum, so that a jump is pending; more of the late
    media arrives, and the next tick samples it. *)
Definition sampling : list move :=
  [Spawn "cam" (CConfigure 0 camTarget (DynamicDelay.mkOptions true 3000 true 0 None));
   Turn (10 * Second); Next 0 (10 * Second); Next 0 (10 * Second); Next 0 (10 * Second); Next 0 (10 * Second);
   Next 0 (10 * Second);
   Arrive 0 (mkPacket 1 9000 [101]) (20 * Second); Arrive 0 (mkPacket 2 9000 [101]) (40 * Second);
   Tick 0 (41 * Second); Turn (41 * Second); Turn (41 * Second); Next 0 (41 * Second); Next 0 (41 * Second);
   Arrive 0 (mkPacket 3 9000 [97]) (42 * Second);
   Tick 0 (43 * Second); Turn (43 * Second); Turn (43 * Second); Next 0 (43 * Second)].

(** The jump is taken before that goroutine reaches [Step]. *)
Definition racing : system :=
  default (idle New) (replay trackedSystem (sampling ++ [Arrive 0 (mkPacket 4 1800000 [101]) (44 * Second)])).

Lemma racing_reach : exists es, reach es racing.
Proof.
  destruct tracked_reach as (es & Hr & _). eexists.
  eapply (replay_reach (sampling ++ [Arrive 0 (mkPacket 4 1800000 [101]) (44 * Second)])); [exact Hr|].
  vm_compute. reflexivity.
Qed.

Lemma relay_stays_consistent_witness :
  (exists k, busy racing !! 0%nat = Some (Sampling (43 * Second) (19950 * Millisecond) [], k))
  /\ wf (store racing) /\ is_Some (Playback (store racing) "cam" 0)
  /\ (exists s w res s', streams (store racing) !! 0%nat = Some s /\ DynamicDelay.cutoff (delay s) = 44 * Second
        /\ advance (store racing) 0 (Sampling (43 * Second) (19950 * Millisecond) []) 0 (λ _, 0) = Some (w, res)
        /\ streams w !! 0%nat = Some s' /\ delay s' = delay s).
Proof.
  destruct racing_reach as (es & Hy). destruct (relay_stays_consistent es racing Hy) as (H1 & H2 & H3 & H4).
  assert (Hb : exists k, busy racing !! 0%nat = Some (Sampling (43 * Second) (19950 * Millisecond) [], k)).
  { eexists. vm_compute. reflexivity. }
  split; [exact Hb|]. split; [exact H1|]. split; [apply H2|]. destruct Hb as [k Hb].
  destruct (H3 _ _ _ 0 (λ _, 0) Hb (λ _, Z.le_refl 0)) as (s & w & res & Es & _ & Ea & _).
  assert (Hs : exists s, streams (store racing) !! 0%nat = Some s /\ DynamicDelay.state (delay s) <> None
                /\ DynamicDelay.cutoff (delay s) = 44 * Second).
  { eexists. split; [vm_compute; reflexivity|]. split; [vm_compute; discriminate|vm_compute; reflexivity]. }
  destruct Hs as (s0 & Es0 & Hn & Hc). assert (s0 = s) as -> by congruence.
  destruct (H4 _ _ _ _ _ 0 (λ _, 0) w res Hb Es Hn) as (s' & Es' & Ed);
    [rewrite Hc; vm_compute; reflexivity|exact Ea|].
  exists s, w, res, s'. split; [exact Es|]. split; [exact Hc|]. split; [exact Ea|]. split; [exact Es'|exact Ed].
Defined.

Lemma keyframe_requests_throttled_witness :
  asks (store viewedSystem) = [mkAsk 0 1 (10 * Second)] /\ spaced (asks (store viewedSystem))
  /\ asks (Keyframe (store viewedSystem) "cam" (10 * Second + 1) (10 * Second + 2)) = asks (store viewedSystem).
Proof.
  destruct viewed_reach as (es & Hr & _). split; [vm_compute; reflexivity|]. split; [|vm_compute; reflexivity].
  apply (keyframe_requests_throttled es viewedSystem Hr).
Defined.

(** An audio and a video track whose reports place them two seconds apart from
    where they arrived. *)
Definition audioTrack : Buffer :=
  (NewBuffer camTarget 48000 "audio/opus" false)
    <| based := true |> <| baseRTP := 1000 |> <| baseWall := 1000 * Second |>
    <| senderNTP := 500 * 4294967296 |> <| senderRTP := 1000 |>.

Definition videoTrack : Buffer :=
  (NewBuffer camTarget 90000 "video/H264" true)
    <| based := true |> <| baseRTP := 7000 |> <| baseWall := 1003 * Second |>
    <| senderNTP := 501 * 4294967296 |> <| senderRTP := 7000 |>.

Definition twoTracks : Stream := newStream <| buffers := [0%nat; 1%nat] |>.

Definition twoBuffers : gmap nat Buffer := <[0%nat := audioTrack]> {[1%nat := videoTrack]}.

Definition aligned : Stream * gmap nat Buffer * bool := alignSenderClocksLocked twoTracks twoBuffers.

Lemma aligned_tracks_share_timeline_witness :
  exists b', aligned.1.2 !! 1%nat = Some b' /\ baseWall b' <> baseWall videoTrack
    /\ baseWall b' = senderAnchor (senderBaseMS aligned.1.1) (senderBaseWall aligned.1.1) b'.
Proof.
  assert (H : exists b', aligned.1.2 !! 1%nat = Some b' /\ baseWall b' = 1001 * Second).
  { eexists. split; vm_compute; reflexivity. }
  destruct H as (b' & Hb & Hw). exists b'. split; [exact Hb|]. split; [rewrite Hw; vm_compute; discriminate|].
  apply (aligned_tracks_share_timeline twoTracks twoBuffers aligned.1.1 aligned.1.2 1 videoTrack b').
  - apply (bool_decide_eq_true_1 _). reflexivity.
  - vm_compute. reflexivity.
  - right. left.
  - reflexivity.
  - exact Hb.
  - vm_compute. split; discriminate.
  - right. vm_compute. reflexivity.
Defined.

(** A track with ten seconds queued on a two-second target. *)
Definition deepTrack : Buffer :=
  videoTrack <| queue := [Heap.Buffered (mkPacket 1 0 []) (1110 * Second) 1] |>.

Lemma correction_moves_deep_tracks_witness :
  let s := newStream <| buffers := [0%nat] |> in
  let until := λ _ : nat, 1100 * Second in
  exists s' bs' waiting,
    clockCorrectionLocked s {[0%nat := deepTrack]} (1100 * Second) false until
      = Some (s', bs', 8 * Second, waiting)
    /\ let b' := recoverBuffer s' false (8 * Second) (1100 * Second) deepTrack in
       baseWall b' = 995 * Second /\ queue b' = [] /\ catchUp b' = true
       /\ recoveryAt b' = 1100 * Second.
Proof.
  intros s until. eexists _, _, _. split; [vm_compute; reflexivity|].
  eapply (correction_moves_deep_tracks s {[0%nat := deepTrack]} (1100 * Second) until);
    [vm_compute; reflexivity|vm_compute; discriminate|vm_compute; reflexivity|vm_compute; split; discriminate
    |vm_compute; discriminate|vm_compute; reflexivity].
Defined.

Lemma ConfigureDelay_reaches_tracks_witness :
  let w' := ConfigureDelay tracked "cam" (5 * Second) (DynamicDelay.mkOptions true 0 false 0 None) (20 * Second) in
  exists b', bufs w' !! 0%nat = Some b' /\ target b' = 5 * Second /\ dynamic b' = Some 0%nat.
Proof.
  intros w'.
  assert (Hs : exists s, streams tracked !! 0%nat = Some s /\ 0%nat ∈ buffers s).
  { eexists. split; [reflexivity|left]. }
  destruct Hs as (s & Hs & Hin).
  assert (Hb : exists b, bufs tracked !! 0%nat = Some b) by (eexists; reflexivity).
  destruct Hb as (b & Hb).
  assert (Hwf : wf tracked).
  { destruct tracked_reach as (es & Hr & <-). apply reach_consistent in Hr. apply Hr. }
  destruct (ConfigureDelay_reaches_tracks tracked "cam" 0 s (5 * Second)
    (DynamicDelay.mkOptions true 0 false 0 None) (20 * Second) 0 b Hwf) as (H & _).
  - unfold DynamicDelay.tenSeconds, Second. lia.
  - reflexivity.
  - exact Hs.
  - exact Hb.
  - destruct (H Hin) as (b' & s' & Eb & Es & Ht & _ & Hd). exists b'. split; [exact Eb|]. split; [exact Ht|].
    apply Hd. intros E. revert Es. vm_compute. intros [= <-]. discriminate.
Defined.

End Relay.
