(* ===== verification/PacketBuffer.v ===== *)
(** * The receive queue ([src/internal/ingest/packet_buffer.go])

    A growing ring of bytes holding datagrams, each behind a two-byte length.
    [Write], [readPacket], [Close] and [SetReadDeadline] run under the buffer's
    mutex and are one transition each; [Read] is one turn of its loop, which
    either answers or waits for a notification.  Slicing or indexing out of
    range, or a remainder by an empty ring, is a Go panic: the [None] of
    [option].

    The read deadline is a value of a library type: the model keeps the instant
    last set, and whether that deadline has passed is an argument of [Read]. *)

From S2P Require Import Prelude.

Module PacketBuffer.

Definition receiveBufferBytes : Z := 1000000.

Record packetBuffer := mkBuffer {
  data : list Z;
  head : nat;
  used : nat;
  closed : bool;
  wake : bool;        (* the one-slot channel holds a notification *)
  done : bool;        (* the channel [done] is closed *)
  deadline : time;    (* the instant last given to the deadline *)
  onPacket : bool     (* a callback is installed *)
}.

Definition newPacketBuffer : packetBuffer :=
  mkBuffer [] 0 0 false false false zeroTime false.

Inductive error := ErrClosedPipe | ErrShortBuffer | ErrFull | ErrEOF | ErrDeadlineExceeded.

(** [l[low:high]] *)
Definition slice (l : list Z) (low high : nat) : option (list Z) :=
  if (low <=? high)%nat && (high <=? length l)%nat
  then Some (take (high - low) (drop low l)) else None.

(** [copy(dst[off:], src)]: the new contents of [dst] and the number of bytes
    copied. *)
Definition copy_at (dst : list Z) (off : nat) (src : list Z) : option (list Z * nat) :=
  if (off <=? length dst)%nat then
    let n := Nat.min (length dst - off) (length src) in
    Some (take off dst ++ take n src ++ drop (off + n) dst, n)
  else None.

(** [l[i] = x] *)
Definition set_at (l : list Z) (i : nat) (x : Z) : option (list Z) :=
  if (i <? length l)%nat then Some (<[i:=x]> l) else None.

(** [a % n] *)
Definition rem (a n : nat) : option nat := if (n =? 0)%nat then None else Some (a mod n)%nat.

Definition sendWake (b : packetBuffer) : packetBuffer :=
  mkBuffer (data b) (head b) (used b) (closed b) true (done b) (deadline b) (onPacket b).

(** The reallocation of [Write]: a larger ring with the same contents from
    index zero. *)
Definition grow (b : packetBuffer) (size : nat) : option packetBuffer :=
  let len := length (data b) in
  let need := Z.of_nat (used b + size + 2) in
  let fresh := replicate (Z.to_nat (Z.min receiveBufferBytes
                 (Z.max 2048 (Z.max (2 * Z.of_nat len) need)))) 0 in
  let first := Nat.min (used b) (len - head b) in
  s1 ← slice (data b) (head b) (head b + first);
  '(fresh, _) ← copy_at fresh 0 s1;
  s2 ← slice (data b) 0 (used b - first);
  '(fresh, _) ← copy_at fresh first s2;
  Some (mkBuffer fresh 0 (used b) (closed b) (wake b) (done b) (deadline b) (onPacket b)).

(** The bytes [Write] puts behind the queued ones. *)
Definition append_frame (b : packetBuffer) (packet : list Z) : option packetBuffer :=
  let len := length (data b) in
  let size := Z.of_nat (length packet) in
  tail ← rem (head b + used b) len;
  d ← set_at (data b) tail (Z.land (Z.shiftr size 8) 255);
  tail1 ← rem (tail + 1) len;
  d ← set_at d tail1 (Z.land size 255);
  tail ← rem (tail + 2) len;
  '(d, n) ← copy_at d tail packet;
  rest ← slice packet n (length packet);
  '(d, _) ← copy_at d 0 rest;
  Some (mkBuffer d (head b) (used b + length packet + 2) (closed b) (wake b) (done b)
          (deadline b) (onPacket b)).

(** [Write]: the buffer after it, the count and error returned, and whether the
    callback saw the packet. *)
Definition Write (b : packetBuffer) (packet : list Z)
  : option (packetBuffer * (nat * option error) * bool) :=
  let size := length packet in
  if closed b then Some (b, (0%nat, Some ErrClosedPipe), false)
  else if (size =? 0)%nat then Some (b, (0%nat, None), false)
  else if 65535 <? Z.of_nat size then Some (b, (0%nat, Some ErrShortBuffer), false)
  else if receiveBufferBytes <? Z.of_nat (used b + size + 2) then
    Some (b, (0%nat, Some ErrFull), onPacket b)
  else
    b ← (if (length (data b) <? used b + size + 2)%nat then grow b size else Some b);
    b ← append_frame b packet;
    Some (sendWake b, (size, None), onPacket b).

(** [readPacket] into a slice of [room] bytes: the bytes written there. *)
Definition readPacket (b : packetBuffer) (room : nat)
  : option (packetBuffer * list Z * option error) :=
  let len := length (data b) in
  hi ← data b !! head b;
  h1 ← rem (head b + 1) len;
  lo ← data b !! h1;
  let size := Z.to_nat (Z.lor (Z.shiftl hi 8) lo) in
  start ← rem (head b + 2) len;
  let n := Nat.min size room in
  s1 ← slice (data b) start (Nat.min (start + n) len);
  s2 ← slice (data b) 0 (n - length s1);
  h ← rem (start + size) len;
  let b := mkBuffer (data b) h (used b - (size + 2)) (closed b) (wake b) (done b)
             (deadline b) (onPacket b) in
  let b := if (used b =? 0)%nat
           then mkBuffer (data b) 0 (used b) (closed b) (wake b) (done b) (deadline b) (onPacket b)
           else sendWake b in
  Some (b, s1 ++ s2, if (n <? size)%nat then Some ErrShortBuffer else None).

Inductive read_result :=
  | ReadDone (bytes : list Z) (err : option error)
  | ReadWait.

(** One turn of the loop of [Read]; [expired] says whether the deadline has
    passed.  [ReadWait] waits for [wake], [done] or the deadline. *)
Definition Read (b : packetBuffer) (room : nat) (expired : bool)
  : option (packetBuffer * read_result) :=
  if expired then Some (b, ReadDone [] (Some ErrDeadlineExceeded))
  else if (0 <? used b)%nat then
    '(b, bytes, err) ← readPacket b room; Some (b, ReadDone bytes err)
  else if closed b then Some (b, ReadDone [] (Some ErrEOF))
  else Some (b, ReadWait).

(** The select of [Read]: taking the notification out of the channel. *)
Definition takeWake (b : packetBuffer) : packetBuffer :=
  mkBuffer (data b) (head b) (used b) (closed b) false (done b) (deadline b) (onPacket b).

Definition Close (b : packetBuffer) : packetBuffer :=
  if closed b then b
  else mkBuffer (data b) (head b) (used b) true (wake b) true zeroTime (onPacket b).

Definition SetReadDeadline (b : packetBuffer) (t : time) : packetBuffer * option error :=
  if closed b then (b, Some ErrClosedPipe)
  else (mkBuffer (data b) (head b) (used b) (closed b) (wake b) (done b) t (onPacket b), None).

(** ** Specification: a bounded queue of datagrams *)

Definition frame (p : list Z) : list Z :=
  [Z.land (Z.shiftr (Z.of_nat (length p)) 8) 255; Z.land (Z.of_nat (length p)) 255] ++ p.

Definition frames (q : list (list Z)) : list Z := mjoin (frame <$> q).

(** The [i]-th byte after [head], for a ring of [len] slots. *)
Definition wrapi (len x : nat) : nat := if (x <? len)%nat then x else (x - len)%nat.

(** The ring holds exactly the frames of [q]. *)
Definition holds (b : packetBuffer) (q : list (list Z)) : Prop :=
  Z.of_nat (length (data b)) <= receiveBufferBytes
  /\ (used b <= length (data b))%nat
  /\ (head b < length (data b) \/ (data b = [] /\ head b = 0))%nat
  /\ length (frames q) = used b
  /\ (forall i, (i < used b)%nat ->
        data b !! wrapi (length (data b)) (head b + i) = frames q !! i)
  /\ Forall (λ p, 0 < Z.of_nat (length p) <= 65535) q.

(** ** Lemmas on slices *)
Lemma rem_wrapi a len : (0 < len)%nat -> (a < 2 * len)%nat -> rem a len = Some (wrapi len a).
Proof.
  intros Hl Ha. unfold rem, wrapi. rewrite (proj2 (Nat.eqb_neq _ _)) by lia. f_equal.
  destruct (a <? len)%nat eqn:E.
  - apply Nat.ltb_lt in E. by apply Nat.mod_small.
  - apply Nat.ltb_ge in E. replace a with (a - len + 1 * len)%nat at 1 by lia.
    rewrite Nat.Div0.mod_add. apply Nat.mod_small. lia.
Qed.

Lemma slice_some (l : list Z) low high :
  (low <= high)%nat -> (high <= length l)%nat ->
  slice l low high = Some (take (high - low) (drop low l)).
Proof.
  intros. unfold slice.
  by rewrite (proj2 (Nat.leb_le _ _)), (proj2 (Nat.leb_le _ _)) by lia.
Qed.

Lemma slice_lookup (l : list Z) low high i :
  (high <= length l)%nat -> (i < high - low)%nat ->
  take (high - low) (drop low l) !! i = l !! (low + i)%nat.
Proof. intros. rewrite lookup_take_lt by lia. by rewrite lookup_drop. Qed.

Lemma copy_at_some (dst : list Z) off src :
  (off <= length dst)%nat ->
  exists dst', copy_at dst off src = Some (dst', Nat.min (length dst - off) (length src))
    /\ length dst' = length dst
    /\ forall j, dst' !! j =
         if decide (off <= j < off + Nat.min (length dst - off) (length src))%nat
         then src !! (j - off)%nat else dst !! j.
Proof.
  intros Hoff. unfold copy_at. rewrite (proj2 (Nat.leb_le _ _)) by lia.
  set (n := Nat.min _ _). eexists. split; [reflexivity|].
  assert (Ht : length (take off dst) = off) by (rewrite length_take; lia).
  assert (Hs : length (take n src) = n) by (rewrite length_take; lia).
  split; [rewrite !length_app, Ht, Hs, length_drop; lia|].
  intros j. case_decide.
  - rewrite lookup_app_r by lia. rewrite lookup_app_l by lia. rewrite Ht.
    apply lookup_take_lt. lia.
  - destruct (decide (j < off)%nat).
    + rewrite lookup_app_l by lia. apply lookup_take_lt. lia.
    + rewrite lookup_app_r by lia. rewrite lookup_app_r by lia. rewrite Ht, Hs, lookup_drop.
      f_equal. lia.
Qed.

Lemma set_at_some (l : list Z) i x :
  (i < length l)%nat ->
  set_at l i x = Some (<[i:=x]> l).
Proof. intros. unfold set_at. by rewrite (proj2 (Nat.ltb_lt _ _)) by lia. Qed.

Lemma lookup_insert_decide (l : list Z) i j x :
  (i < length l)%nat -> <[i:=x]> l !! j = if decide (j = i) then Some x else l !! j.
Proof.
  intros. case_decide; subst; [by apply list_lookup_insert_eq|by apply list_lookup_insert_ne].
Qed.

Ltac wrap_cases :=
  unfold wrapi in *;
  repeat match goal with
  | |- context [if (?a <? ?b)%nat then _ else _] => destruct (Nat.ltb_spec a b)
  | H : context [if (?a <? ?b)%nat then _ else _] |- _ => destruct (Nat.ltb_spec a b)
  end.

(** Where the bytes of a frame of [k] payload bytes land in the ring. *)
Section geometry.
Context (len head used k t0 t1 t2 n i j : nat).
Hypothesis Hhead : (head < len)%nat.
Hypothesis Hroom : (used + k + 2 <= len)%nat.
Hypothesis Ht0 : t0 = wrapi len (head + used).
Hypothesis Ht1 : t1 = wrapi len (t0 + 1).
Hypothesis Ht2 : t2 = wrapi len (t0 + 2).
Hypothesis Hn : n = Nat.min (len - t2) k.
Hypothesis Hj : j = wrapi len (head + i).

Lemma geometry_old :
  (i < used)%nat -> j <> t0 /\ j <> t1 /\ ~ (t2 <= j < t2 + n)%nat /\ ~ (j < k - n)%nat.
Proof. intros. wrap_cases; lia. Qed.

Lemma geometry_length :
  i = used -> j = t0 /\ t0 <> t1 /\ ~ (t2 <= t0 < t2 + n)%nat /\ ~ (t0 < k - n)%nat.
Proof. intros. wrap_cases; lia. Qed.

Lemma geometry_length1 :
  i = (used + 1)%nat -> j = t1 /\ ~ (t2 <= t1 < t2 + n)%nat /\ ~ (t1 < k - n)%nat.
Proof. intros. wrap_cases; lia. Qed.

Lemma geometry_payload :
  (used + 2 <= i < used + k + 2)%nat ->
  (j < k - n /\ i - used - 2 = n + j)%nat
  \/ (~ (j < k - n) /\ t2 <= j < t2 + n /\ i - used - 2 = j - t2)%nat.
Proof. intros. wrap_cases; lia. Qed.

End geometry.

(** ** Frames *)
Lemma frames_cons p q : frames (p :: q) = frame p ++ frames q.
Proof. done. Qed.

Lemma frames_snoc q p : frames (q ++ [p]) = frames q ++ frame p.
Proof. unfold frames. rewrite fmap_app, join_app. simpl. by rewrite app_nil_r. Qed.

Lemma length_frame (p : list Z) : length (frame p) = (length p + 2)%nat.
Proof. unfold frame. rewrite length_app. simpl. lia. Qed.

Lemma frame_lookup (p : list Z) i :
  frame p !! i = match i with
                 | O => Some (Z.land (Z.shiftr (Z.of_nat (length p)) 8) 255)
                 | S O => Some (Z.land (Z.of_nat (length p)) 255)
                 | S (S i) => p !! i
                 end.
Proof. by destruct i as [|[|i]]. Qed.

Lemma frame_size (p : list Z) :
  Z.of_nat (length p) <= 65535 ->
  Z.to_nat (Z.lor (Z.shiftl (Z.land (Z.shiftr (Z.of_nat (length p)) 8) 255) 8)
              (Z.land (Z.of_nat (length p)) 255)) = length p.
Proof.
  intros H. change 255 with (Z.ones 8). rewrite !Z.land_ones by lia. change (2 ^ 8) with 256.
  fold (u8 (Z.shiftr (Z.of_nat (length p)) 8)). fold (u8 (Z.of_nat (length p))).
  rewrite lor_be16 by apply is_byte_u8. rewrite be16_put16 by (unfold is_u16; lia). lia.
Qed.

(** ** [Write] *)
Lemma append_frame_spec b (p : list Z) :
  (head b < length (data b))%nat -> (used b + length p + 2 <= length (data b))%nat ->
  exists d, append_frame b p
    = Some (mkBuffer d (head b) (used b + length p + 2) (closed b) (wake b) (done b)
              (deadline b) (onPacket b))
    /\ length d = length (data b)
    /\ forall i, (i < used b + length p + 2)%nat ->
         d !! wrapi (length (data b)) (head b + i)
         = if decide (i < used b)%nat then data b !! wrapi (length (data b)) (head b + i)
           else frame p !! (i - used b)%nat.
Proof.
  intros Hh Hu. unfold append_frame. remember (length (data b)) as len eqn:Hlen.
  rewrite (rem_wrapi (head b + used b)) by lia. obind.
  remember (wrapi len (head b + used b)) as t0 eqn:E0.
  assert (H0 : (t0 < len)%nat) by (wrap_cases; lia).
  rewrite set_at_some by lia. obind. rewrite (rem_wrapi (t0 + 1)) by lia. obind.
  remember (wrapi len (t0 + 1)) as t1 eqn:E1. assert (H1 : (t1 < len)%nat) by (wrap_cases; lia).
  rewrite set_at_some by (rewrite length_insert; lia). obind.
  rewrite (rem_wrapi (t0 + 2)) by lia. obind.
  remember (wrapi len (t0 + 2)) as t2 eqn:E2. assert (H2 : (t2 < len)%nat) by (wrap_cases; lia).
  set (d2 := <[t1:=_]> (<[t0:=_]> (data b))).
  assert (L2 : length d2 = len) by (unfold d2; by rewrite !length_insert).
  destruct (copy_at_some d2 t2 p) as (d3 & E3 & L3 & P3); [lia|]. rewrite E3. obind. rewrite L2 in *.
  remember (Nat.min (len - t2) (length p)) as n eqn:En.
  rewrite slice_some by lia. obind.
  destruct (copy_at_some d3 0 (take (length p - n) (drop n p))) as (d4 & E4 & L4 & P4); [lia|].
  rewrite E4. obind. exists d4. split; [done|]. split; [lia|].
  intros i Hi. rewrite P4, P3. unfold d2.
  rewrite lookup_insert_decide by (rewrite length_insert; lia). rewrite lookup_insert_decide by lia.
  rewrite length_take, length_drop, frame_lookup, L3. clear E3 E4 P3 P4 L4.
  remember (wrapi len (head b + i)) as j eqn:Ej.
  destruct (decide (i < used b)%nat) as [Hlt|Hge].
  - destruct (geometry_old len (head b) (used b) (length p) t0 t1 t2 n i j) as (? & ? & ? & ?); [done..|].
    by rewrite !decide_False by lia.
  - destruct (i - used b)%nat as [|[|k]] eqn:Ei.
    + destruct (geometry_length len (head b) (used b) (length p) t0 t1 t2 n i j) as (? & ? & ? & ?);
        [done..|lia|].
      by rewrite !decide_False, decide_True by lia.
    + destruct (geometry_length1 len (head b) (used b) (length p) t0 t1 t2 n i j) as (? & ? & ?);
        [done..|lia|].
      by rewrite !decide_False, decide_True by lia.
    + destruct (geometry_payload len (head b) (used b) (length p) t0 t1 t2 n i j)
        as [[? ?]|(? & ? & ?)]; [done..|lia| |].
      * rewrite decide_True by lia. rewrite slice_lookup by lia. f_equal. lia.
      * rewrite decide_False, decide_True by lia. f_equal. lia.
Qed.

Lemma grow_spec b q size :
  holds b q -> Z.of_nat (used b + size + 2) <= receiveBufferBytes ->
  exists d, grow b size
    = Some (mkBuffer d 0 (used b) (closed b) (wake b) (done b) (deadline b) (onPacket b))
    /\ (used b + size + 2 <= length d)%nat /\ Z.of_nat (length d) <= receiveBufferBytes
    /\ forall i, (i < used b)%nat ->
         d !! i = data b !! wrapi (length (data b)) (head b + i).
Proof.
  intros (Hmax & Hu & Hh & _) Hroom. unfold grow.
  set (fresh := replicate _ 0). assert (Lf : length fresh = Z.to_nat (Z.min receiveBufferBytes
    (Z.max 2048 (Z.max (2 * Z.of_nat (length (data b))) (Z.of_nat (used b + size + 2)))))).
  { unfold fresh. by rewrite length_replicate. }
  clearbody fresh. set (len := length (data b)) in *.
  assert (Hhead : (head b <= len)%nat) by (destruct Hh as [?|[_ E]]; lia).
  assert (Hfit : (used b + size + 2 <= length fresh)%nat) by lia.
  remember (Nat.min (used b) (len - head b)) as first eqn:Ef.
  rewrite (slice_some (data b) (head b)) by lia. obind.
  destruct (copy_at_some fresh 0 (take (head b + first - head b) (drop (head b) (data b))))
    as (d1 & E1 & L1 & P1); [lia|].
  rewrite E1. obind. rewrite slice_some by lia. obind.
  destruct (copy_at_some d1 first (take (used b - first - 0) (drop 0 (data b))))
    as (d2 & E2 & L2 & P2); [lia|].
  rewrite E2. obind. exists d2. split; [done|]. split; [lia|]. split; [lia|].
  intros i Hi. rewrite P2, P1. rewrite !length_take, !length_drop. fold len.
  unfold wrapi. destruct (Nat.ltb_spec (head b + i) len).
  - rewrite decide_False, decide_True by lia. rewrite slice_lookup by lia. f_equal. lia.
  - rewrite decide_True by lia. rewrite slice_lookup by lia. f_equal. lia.
Qed.

Lemma length_frames_snoc q p :
  length (frames (q ++ [p])) = (length (frames q) + (length p + 2))%nat.
Proof. by rewrite frames_snoc, length_app, length_frame. Qed.

Lemma holds_extend b q p d :
  holds b q -> Z.of_nat (length d) <= receiveBufferBytes -> (head b < length d)%nat ->
  (used b + length p + 2 <= length d)%nat -> 0 < Z.of_nat (length p) <= 65535 ->
  (forall i, (i < used b + length p + 2)%nat ->
     d !! wrapi (length d) (head b + i)
     = if decide (i < used b)%nat then frames q !! i else frame p !! (i - used b)%nat) ->
  forall c w dn t o,
  holds (mkBuffer d (head b) (used b + length p + 2) c w dn t o) (q ++ [p]).
Proof.
  intros (_ & _ & _ & Hlen & _ & Hq) Hmax Hh Hroom Hp Hd c w dn t o.
  unfold holds. simpl. split_and!; try done.
  - by left.
  - rewrite length_frames_snoc. lia.
  - intros i Hi. rewrite Hd by done. rewrite frames_snoc. case_decide.
    + by rewrite lookup_app_l by lia.
    + rewrite lookup_app_r by lia. by rewrite Hlen.
  - apply Forall_app. split; [done|]. by apply Forall_singleton.
Qed.

(** An accepted datagram is queued behind the others. *)
Lemma Write_accepts b q p :
  holds b q -> closed b = false -> 0 < Z.of_nat (length p) <= 65535 ->
  Z.of_nat (length (frames q) + length p + 2) <= receiveBufferBytes ->
  exists b', Write b p = Some (b', (length p, None), onPacket b)
    /\ holds b' (q ++ [p]) /\ closed b' = false /\ wake b' = true /\ done b' = done b
    /\ onPacket b' = onPacket b.
Proof.
  intros Hh Hc Hp Hroom. unfold Write. rewrite Hc.
  rewrite (proj2 (Nat.eqb_neq _ _)) by lia. rewrite (proj2 (Z.ltb_ge _ _)) by lia.
  assert (Hused : length (frames q) = used b) by apply Hh. rewrite Hused in Hroom.
  rewrite (proj2 (Z.ltb_ge _ _)) by lia.
  destruct (Nat.ltb_spec (length (data b)) (used b + length p + 2)) as [Hg|Hg].
  - destruct (grow_spec b q (length p) Hh Hroom) as (d & E & Hfit & Hmax & Hd). rewrite E. obind.
    destruct (append_frame_spec (mkBuffer d 0 (used b) (closed b) (wake b) (done b) (deadline b) (onPacket b)) p)
      as (d' & E' & L' & P'); [simpl; lia|simpl; lia|].
    rewrite E'. obind. eexists. split; [done|]. simpl in *. split; [|split_and!; done || by rewrite Hc].
    apply (holds_extend (mkBuffer d 0 (used b) (closed b) (wake b) (done b) (deadline b) (onPacket b)) q p d');
      simpl; rewrite ?L'; try done; try lia.
    + destruct Hh as (? & ? & ? & Hl & Hi & ?). unfold holds. simpl. split_and!; auto; try lia.
      intros i Hi'. unfold wrapi. rewrite (proj2 (Nat.ltb_lt _ _)) by lia. rewrite Hd by done. by apply Hi.
    + intros i Hi. rewrite P' by lia. case_decide; [|done].
      unfold wrapi. rewrite (proj2 (Nat.ltb_lt _ _)) by lia. rewrite Hd by done. by apply Hh.
  - obind. assert (head b < length (data b))%nat by (destruct Hh as (_ & _ & [?|[E _]] & _); [done|rewrite E in Hg; simpl in Hg; lia]).
    destruct (append_frame_spec b p) as (d' & E' & L' & P'); [done|lia|].
    rewrite E'. obind. eexists. split; [done|]. simpl. split; [|split_and!; done].
    apply (holds_extend b q p d'); rewrite ?L'; try done; try lia.
    + apply Hh.
    + intros i Hi. rewrite P' by lia. case_decide; [|done]. by apply Hh.
Qed.

(** ** [Read] *)
Lemma frames_head p q i :
  (i < length p + 2)%nat -> frames (p :: q) !! i = frame p !! i.
Proof. intros. rewrite frames_cons. apply lookup_app_l. rewrite length_frame. lia. Qed.

(** The oldest datagram, cut to the room there is, and the rest of the queue. *)
Lemma readPacket_spec b p q room :
  holds b (p :: q) ->
  exists b', readPacket b room
    = Some (b', take room p, if (Nat.min (length p) room <? length p)%nat then Some ErrShortBuffer else None)
    /\ holds b' q /\ closed b' = closed b /\ done b' = done b /\ onPacket b' = onPacket b
    /\ (q <> [] -> wake b' = true).
Proof.
  intros (Hmax & Hu & Hh & Hlen & Hd & Hq). apply Forall_cons in Hq as [Hp Hq].
  assert (Hfl : length (frames (p :: q)) = (length p + 2 + length (frames q))%nat).
  { rewrite frames_cons, length_app, length_frame. lia. }
  assert (Hhead : (head b < length (data b))%nat).
  { destruct Hh as [?|[E _]]; [done|]. rewrite E in Hu. simpl in Hu. lia. }
  unfold readPacket. remember (length (data b)) as len eqn:El.
  assert (E0 : data b !! head b = frame p !! 0%nat).
  { rewrite <-(frames_head p q) by lia. rewrite <-Hd by lia. rewrite Nat.add_0_r. f_equal.
    unfold wrapi. by rewrite (proj2 (Nat.ltb_lt _ _)). }
  rewrite E0, frame_lookup. obind. rewrite (rem_wrapi (head b + 1)) by lia. obind.
  rewrite Hd by lia. rewrite frames_head, frame_lookup by lia. obind.
  rewrite frame_size by lia. rewrite (rem_wrapi (head b + 2)) by lia. obind.
  remember (wrapi len (head b + 2)) as start eqn:Es. assert (Hs : (start < len)%nat) by (wrap_cases; lia).
  remember (Nat.min (length p) room) as n eqn:En.
  rewrite (slice_some (data b) start) by lia. obind.
  set (s1 := take _ _). assert (L1 : length s1 = (Nat.min (start + n) len - start)%nat).
  { unfold s1. rewrite length_take, length_drop. lia. }
  rewrite slice_some by lia. obind. rewrite (rem_wrapi (start + length p)) by lia. obind.
  assert (Hbytes : s1 ++ take (n - length s1 - 0) (drop 0 (data b)) = take room p).
  { apply list_eq. intros i. destruct (decide (i < n)%nat) as [Hi|Hi].
    - rewrite lookup_take_lt by lia.
      transitivity (frames (p :: q) !! (2 + i)%nat); [|by rewrite frames_head, frame_lookup by lia].
      rewrite <-Hd by lia. destruct (decide (i < length s1)%nat).
      + rewrite lookup_app_l by done. unfold s1. rewrite slice_lookup by lia. f_equal. wrap_cases; lia.
      + rewrite lookup_app_r by lia. rewrite slice_lookup by lia. f_equal. wrap_cases; lia.
    - rewrite !(proj2 (lookup_ge_None _ _)); [done|rewrite length_take; lia|].
      rewrite length_app, length_take, length_drop. lia. }
  rewrite Hbytes. clear Hbytes. set (u := (used b - (length p + 2))%nat).
  assert (Hu' : length (frames q) = u) by (unfold u; lia).
  eexists. split; [reflexivity|]. cbn [used]. destruct (Nat.eqb_spec u 0) as [Hz|Hz].
  - assert (q = []) as ->.
    { destruct q as [|x q]; [done|]. rewrite frames_cons, length_app, length_frame in Hu'. lia. }
    unfold holds. simpl. split_and!; try done; lia.
  - unfold holds. simpl. split_and!; try done; try lia.
    + left. rewrite <-El. wrap_cases; lia.
    + intros i Hi. rewrite <-El.
      replace (frames q !! i) with (frames (p :: q) !! (length p + 2 + i)%nat).
      * rewrite <-Hd by lia. f_equal. wrap_cases; lia.
      * rewrite frames_cons, lookup_app_r by (rewrite length_frame; lia). f_equal. rewrite length_frame. lia.
Qed.

(** ** Refinement: the ring implements a bounded queue of datagrams *)

(** The abstract queue: the datagrams, whether it is closed and whether
    arrivals are reported.  [cost] is what the limit counts. *)
Record queue := mkQueue { packets : list (list Z); qclosed : bool; reported : bool }.

Definition cost (q : list (list Z)) : Z :=
  foldr (λ p acc, Z.of_nat (length p) + 2 + acc) 0 q.

Inductive op := OWrite (packet : list Z) | ORead (room : nat) (expired : bool) | OClose
  | OSetReadDeadline (t : time).

Inductive answer :=
  | AWrite (n : nat) (err : option error) (seen : bool)
  | ARead (r : read_result)
  | ADone (err : option error).

Definition spec_op (s : queue) (o : op) : queue * answer :=
  match o with
  | OWrite p =>
      let size := Z.of_nat (length p) in
      if qclosed s then (s, AWrite 0 (Some ErrClosedPipe) false)
      else if size =? 0 then (s, AWrite 0 None false)
      else if 65535 <? size then (s, AWrite 0 (Some ErrShortBuffer) false)
      else if receiveBufferBytes <? cost (packets s) + size + 2
           then (s, AWrite 0 (Some ErrFull) (reported s))
      else (mkQueue (packets s ++ [p]) (qclosed s) (reported s), AWrite (length p) None (reported s))
  | ORead room expired =>
      if expired then (s, ARead (ReadDone [] (Some ErrDeadlineExceeded)))
      else match packets s with
           | p :: q => (mkQueue q (qclosed s) (reported s),
                        ARead (ReadDone (take room p)
                                 (if (room <? length p)%nat then Some ErrShortBuffer else None)))
           | [] => (s, ARead (if qclosed s then ReadDone [] (Some ErrEOF) else ReadWait))
           end
  | OClose => (mkQueue (packets s) true (reported s), ADone None)
  | OSetReadDeadline t => (s, ADone (if qclosed s then Some ErrClosedPipe else None))
  end.

Definition buffer_op (b : packetBuffer) (o : op) : option (packetBuffer * answer) :=
  match o with
  | OWrite p => '(b, (n, err), seen) ← Write b p; Some (b, AWrite n err seen)
  | ORead room expired => '(b, r) ← Read b room expired; Some (b, ARead r)
  | OClose => Some (Close b, ADone None)
  | OSetReadDeadline t => let '(b, err) := SetReadDeadline b t in Some (b, ADone err)
  end.

Fixpoint run_spec (s : queue) (ops : list op) : list answer :=
  match ops with
  | [] => []
  | o :: ops => let '(s, a) := spec_op s o in a :: run_spec s ops
  end.

Fixpoint run_buffer (b : packetBuffer) (ops : list op) : option (list answer) :=
  match ops with
  | [] => Some []
  | o :: ops => '(b, a) ← buffer_op b o; r ← run_buffer b ops; Some (a :: r)
  end.

Definition related (b : packetBuffer) (s : queue) : Prop :=
  holds b (packets s) /\ closed b = qclosed s /\ done b = closed b /\ onPacket b = reported s.

Lemma cost_frames q : Z.of_nat (length (frames q)) = cost q.
Proof.
  induction q as [|p q IH]; [done|]. rewrite frames_cons, length_app, length_frame. simpl. lia.
Qed.

Lemma cost_used b q : holds b q -> Z.of_nat (used b) = cost q.
Proof. intros (_ & _ & _ & <- & _). apply cost_frames. Qed.

Lemma used_zero b q : holds b q -> used b = 0%nat <-> q = [].
Proof.
  intros (_ & _ & _ & <- & _). split; [|by intros ->].
  destruct q; [done|]. rewrite frames_cons, length_app, length_frame. lia.
Qed.

Ltac rel := split_and?; unfold related; simpl; split_and?; try done; try congruence.

Lemma op_related b s o :
  related b s ->
  exists b', buffer_op b o = Some (b', snd (spec_op s o)) /\ related b' (fst (spec_op s o)).
Proof.
  intros (Hh & Hc & Hd & Ho). pose proof (cost_used b _ Hh) as Hused.
  destruct o as [p|room expired| |t]; simpl.
  - unfold Write. rewrite Hc. destruct (qclosed s) eqn:Eq; [exists b; rel|].
    destruct (Z.eqb_spec (Z.of_nat (length p)) 0) as [Hz|Hz].
    { rewrite (proj2 (Nat.eqb_eq _ _)) by lia. exists b. rel. }
    rewrite (proj2 (Nat.eqb_neq _ _)) by lia.
    destruct (Z.ltb_spec 65535 (Z.of_nat (length p))) as [Hbig|Hbig]; [exists b; rel|].
    replace (Z.of_nat (used b + length p + 2)) with (cost (packets s) + Z.of_nat (length p) + 2) by lia.
    destruct (Z.ltb_spec receiveBufferBytes (cost (packets s) + Z.of_nat (length p) + 2)) as [Hf|Hf].
    { exists b. rewrite Ho. rel. }
    destruct (Write_accepts b (packets s) p Hh) as (b' & E & Hh' & Hc' & _ & Hd' & Ho'); [congruence|lia|..].
    { pose proof (cost_frames (packets s)). lia. }
    exists b'. unfold Write in E. rewrite Hc, (proj2 (Nat.eqb_neq _ _)) in E by lia.
    rewrite (proj2 (Z.ltb_ge _ _)) in E by lia.
    rewrite (proj2 (Z.ltb_ge _ _)) in E by lia. rewrite E. rewrite <-Ho. split; [done|].
    unfold related. simpl. split_and!; auto; congruence.
  - unfold Read. destruct expired; [exists b; rel|].
    destruct (packets s) as [|p q] eqn:Ep.
    + assert (used b = 0%nat) as -> by (by apply (used_zero b [])). cbn. rewrite Hc.
      exists b. destruct (qclosed s) eqn:Eq; (split; [done|]); unfold related; rewrite Ep; rel.
    + assert (used b <> 0%nat) by (rewrite used_zero by exact Hh; done).
      rewrite (proj2 (Nat.ltb_lt _ _)) by lia.
      destruct (readPacket_spec b p q room Hh) as (b' & E & Hh' & Hc' & Hd' & Ho' & _).
      rewrite E. obind. exists b'. split; [|unfold related; simpl; split_and!; congruence].
      do 3 f_equal. destruct (Nat.ltb_spec room (length p)).
      * by rewrite (proj2 (Nat.ltb_lt _ _)) by lia.
      * by rewrite (proj2 (Nat.ltb_ge _ _)) by lia.
  - exists (Close b). split; [done|]. unfold Close. destruct (closed b) eqn:Ec.
    + unfold related. simpl. split_and!; congruence.
    + unfold related. simpl. split_and!; done.
  - unfold SetReadDeadline. rewrite Hc. destruct (qclosed s) eqn:Eq.
    + exists b. rel.
    + eexists. split; [done|]. unfold related. simpl. split_and!; try done; congruence.
Qed.

Lemma run_buffer_related ops b s :
  related b s -> run_buffer b ops = Some (run_spec s ops).
Proof.
  revert b s. induction ops as [|o ops IH]; intros b s Hr; [done|]. simpl.
  destruct (op_related b s o Hr) as (b' & E & Hr'). destruct (spec_op s o) as [s' a].
  rewrite E. obind. by rewrite (IH b' s').
Qed.

Lemma holds_new c w dn t o : holds (mkBuffer [] 0 0 c w dn t o) [].
Proof. unfold holds. simpl. split_and!; auto; unfold receiveBufferBytes; lia. Qed.

(** ** Readers and writers *)

(** A buffer with the calls of [Read] in progress: those that run a turn of the
    loop and those that wait in its select.  No deadline is set. *)
Record system := mkSystem { buf : packetBuffer; running : nat; waiting : nat }.

Inductive sys_step : system -> system -> Prop :=
  | sys_write b r w p b' res seen :
      Write b p = Some (b', res, seen) -> sys_step (mkSystem b r w) (mkSystem b' r w)
  | sys_close b r w : sys_step (mkSystem b r w) (mkSystem (Close b) r w)
  | sys_call b r w : sys_step (mkSystem b r w) (mkSystem b (S r) w)
  | sys_return b r w room b' bytes err :
      Read b room false = Some (b', ReadDone bytes err) ->
      sys_step (mkSystem b (S r) w) (mkSystem b' r w)
  | sys_block b r w room b' :
      Read b room false = Some (b', ReadWait) ->
      sys_step (mkSystem b (S r) w) (mkSystem b' r (S w))
  | sys_wake b r w :
      wake b = true -> sys_step (mkSystem b r (S w)) (mkSystem (takeWake b) (S r) w)
  | sys_done b r w :
      done b = true -> sys_step (mkSystem b r (S w)) (mkSystem b (S r) w).

Definition sys_init (cb : bool) : system :=
  mkSystem (mkBuffer [] 0 0 false false false zeroTime cb) 0 0.

(** Queued datagrams leave a notification or a running reader behind. *)
Definition sys_ok (s : system) : Prop :=
  exists q, related (buf s) q
    /\ (packets q <> [] -> (0 < waiting s)%nat -> wake (buf s) = true \/ (0 < running s)%nat).

Lemma holds_takeWake b q : holds b q -> holds (takeWake b) q.
Proof. done. Qed.

Lemma Read_turn b q room b' r :
  related b q -> Read b room false = Some (b', r) ->
  exists q', related b' q' /\ (packets q' <> [] -> wake b' = true).
Proof.
  intros Hr E. destruct (op_related b q (ORead room false) Hr) as (b1 & E1 & Hr1).
  cbn [buffer_op] in E1. rewrite E in E1. cbn [mbind option_bind] in E1. injection E1 as E1b E1r. subst b1.
  exists (fst (spec_op q (ORead room false))). split; [done|].
  destruct Hr as (Hh & _). simpl. unfold Read in E. destruct (packets q) as [|p l] eqn:Ep.
  - simpl. by rewrite Ep.
  - simpl. intros Hne. assert (used b <> 0%nat) by (rewrite used_zero by exact Hh; done).
      rewrite (proj2 (Nat.ltb_lt _ _)) in E by lia.
      destruct (readPacket_spec b p l room Hh) as (b2 & E2 & _ & _ & _ & _ & Hw). rewrite E2 in E.
      cbn [mbind option_bind] in E. injection E as <- <-. auto.
Qed.

Lemma Write_wakes b p b' res seen :
  Write b p = Some (b', res, seen) -> b' = b \/ wake b' = true.
Proof.
  unfold Write. destruct (closed b), (length p =? 0)%nat, (65535 <? Z.of_nat (length p)),
    (receiveBufferBytes <? Z.of_nat (used b + length p + 2));
    try (intros [= <- _ _]; by left).
  destruct (if (_ <? _)%nat then _ else _) as [b2|]; [|done]. obind.
  destruct (append_frame b2 p) as [b3|]; [|done]. obind. intros [= <- _ _]. by right.
Qed.

Lemma sys_step_ok s s' : sys_step s s' -> sys_ok s -> sys_ok s'.
Proof.
  intros Hs (q & Hr & Hi). destruct Hs as [b r w p b' res seen E|b r w|b r w|b r w room b' bytes err E|b r w room b' E|b r w Hw|b r w Hd]; simpl in *.
  - destruct (Write_wakes _ _ _ _ _ E) as [->|Hw]; [by exists q|].
    destruct (op_related b q (OWrite p) Hr) as (b1 & E1 & Hr1). cbn [buffer_op] in E1.
    rewrite E in E1. destruct res as [n e]. cbn [mbind option_bind] in E1. injection E1 as E1b E1a. subst b1.
    exists (fst (spec_op q (OWrite p))). auto.
  - exists (fst (spec_op q OClose)). destruct (op_related b q OClose Hr) as (b1 & E1 & Hr1).
    injection E1 as <-. split; [done|]. unfold Close. by destruct (closed b).
  - exists q. split; [done|]. simpl. lia.
  - destruct (Read_turn b q room b' _ Hr E) as (q' & Hr' & Hw). exists q'. simpl. auto.
  - destruct (Read_turn b q room b' _ Hr E) as (q' & Hr' & Hw). exists q'. simpl. auto.
  - exists q. destruct Hr as (? & ? & ? & ?). split; [by split_and!|]. simpl. lia.
  - exists q. split; [done|]. simpl. lia.
Qed.

Lemma sys_reach_ok cb s : rtc sys_step (sys_init cb) s -> sys_ok s.
Proof.
  intros H. remember (sys_init cb) as s0 eqn:E0.
  assert (H0 : sys_ok s0).
  { exists (mkQueue [] false cb). subst s0. simpl. split; [|done].
    split_and!; try done. apply holds_new. }
  clear E0. induction H; eauto using sys_step_ok.
Qed.

(** ** Properties *)

(** C8: the ring buffer implements a queue of datagrams limited to a million
    bytes: every sequence of writes, reads, closes and deadline changes gives
    the answers of the abstract queue (datagrams whole and in order, a short
    read discarding the rest of its datagram, the errors of each branch), with
    no index out of range through any growth or wrap-around. *)
Theorem packet_buffer_refines_queue (cb : bool) (ops : list op) :
  run_buffer (buf (sys_init cb)) ops = Some (run_spec (mkQueue [] false cb) ops).
Proof. apply run_buffer_related. split_and!; try done. apply holds_new. Qed.

(** C26: no notification is lost: in any interleaving of writes, closes and
    concurrent reads (no deadline set), when a datagram is queued or the buffer
    is closed and a reader waits, some reader can go on: one is running, or a
    notification or the closed channel is there to be received. *)
Theorem no_lost_wakeup (cb : bool) (s : system) :
  rtc sys_step (sys_init cb) s -> (0 < waiting s)%nat ->
  ((0 < used (buf s))%nat \/ closed (buf s) = true) ->
  (0 < running s)%nat \/ wake (buf s) = true \/ done (buf s) = true.
Proof.
  intros Hreach Hw Hq. destruct (sys_reach_ok cb s Hreach) as (q & (Hh & Hc & Hd & _) & Hi).
  destruct Hq as [Hu|Hcl]; [|right; right; congruence].
  assert (packets q <> []) as Hne.
  { intros E. rewrite E in Hh. assert (used (buf s) = 0%nat) by (by apply (used_zero _ [])). lia. }
  destruct (Hi Hne Hw); auto.
Qed.

Lemma no_lost_wakeup_witness :
  exists b, rtc sys_step (sys_init false) (mkSystem b 0 1)
    /\ used b = 3%nat
    /\ ((0 < 0)%nat \/ wake b = true \/ done b = true).
Proof.
  assert (Hreach : rtc sys_step (sys_init false)
    (mkSystem (default newPacketBuffer (fst ∘ fst <$> Write newPacketBuffer [7])) 0 1)).
  { eapply rtc_l; [apply sys_call|]. eapply rtc_l; [apply (sys_block _ _ _ 1); reflexivity|].
    eapply rtc_l; [|apply rtc_refl]. apply (sys_write _ _ _ [7] _ (1%nat, None) false). vm_compute. reflexivity. }
  eexists. split; [exact Hreach|]. split; [vm_compute; reflexivity|].
  apply (no_lost_wakeup false _ Hreach); simpl; [lia|].
  left. vm_compute. lia.
Defined.

End PacketBuffer.
