(* ===== verification/Config.v ===== *)
(** * The persisted configuration ([src/internal/config])

    [Config] is the only mutable state the daemon keeps on disk.  Every setter
    takes the write lock for its whole body, so it is one transition of the
    pair of the configuration in memory and the disk.  The disk is modelled at
    the level of the calls [saveLocked] makes: a main file and temporary files,
    each either a whole document or a partial write; a call may fail, and the
    daemon may die between any two of them.  A document is the [Config] value
    it encodes (the JSON codec is the identity on it).

    Random bytes come from [crypto/rand], an argument of the operations that
    mint keys. *)

From S2P Require Import Prelude DynamicDelay.
From stdpp Require Import pretty.
Local Open Scope Z_scope.

Module Config.

Definition DelayFloorMS : Z := 0.
Definition DelayDefaultMS : Z := 2000.
Definition DelayMaxMS : Z := 10000.
Definition CurrentVersion : Z := 1.
Definition DefaultMediaPort : Z := 7332.
Definition DefaultSignalPort : Z := 7331.
Definition DefaultUIPort : Z := 7330.
Definition DefaultControlPort : Z := 7333.

Definition CodecH264 : string := "h264".
Definition CodecH265 : string := "h265".
Definition CodecAV1 : string := "av1".

Definition AllCodecs : list string := [CodecH264; CodecH265; CodecAV1].

Definition CodecLabel (name : string) : string :=
  if String.eqb name CodecH264 then "H.264"
  else if String.eqb name CodecH265 then "H.265"
  else if String.eqb name CodecAV1 then "AV1"
  else "".

Definition CodecLabelOf (mimeType : string) : string :=
  match list_find (λ name, EqualFold mimeType ("video/" +:+ name) = true) AllCodecs with
  | Some (_, name) => CodecLabel name
  | None => ""
  end.

Record Ingest := mkIngest {
  Opts : DynamicDelay.Options;
  ID : string;
  Label : string;
  SenderKey : string;
  ReceiverKey : string;
  Codecs : list string;
  DelayMS : Z;
  SyncGroup : string
}.

(** The zero [Ingest]. *)
Definition zeroIngest : Ingest := mkIngest DynamicDelay.zeroOptions "" "" "" "" [] 0 "".

Record Cfg := mkCfg {
  Version : Z;
  PublicHost : string;
  SignalBind : string;
  ControlBind : string;
  ControlLAN : option bool;
  ControlRemote : option bool;
  TLSCert : string;
  TLSKey : string;
  PublicURL : string;
  ICEPublicIPs : list string;
  MediaPort : Z;
  SignalPort : Z;
  UIPort : Z;
  Autostart : bool;
  ControlToken : string;
  ControlPort : Z;
  FloorMS : option Z;
  Ingests : list Ingest
}.

(** The errors of [errors.go] and [control_token.go]. *)
Inductive error :=
  | ErrLocateConfig | ErrReadConfig | ErrParseConfig | ErrWriteConfig | ErrGenerateKey
  | ErrUnknownIngest | ErrBadKey | ErrDuplicateKey | ErrBadIngest | ErrFutureConfig
  | ErrTokenExists.

(** ** Field updates *)
Definition with_Ingests (c : Cfg) (l : list Ingest) : Cfg :=
  mkCfg (Version c) (PublicHost c) (SignalBind c) (ControlBind c) (ControlLAN c) (ControlRemote c)
    (TLSCert c) (TLSKey c) (PublicURL c) (ICEPublicIPs c) (MediaPort c) (SignalPort c) (UIPort c)
    (Autostart c) (ControlToken c) (ControlPort c) (FloorMS c) l.

Definition with_PublicHost (c : Cfg) (h : string) : Cfg :=
  mkCfg (Version c) h (SignalBind c) (ControlBind c) (ControlLAN c) (ControlRemote c)
    (TLSCert c) (TLSKey c) (PublicURL c) (ICEPublicIPs c) (MediaPort c) (SignalPort c) (UIPort c)
    (Autostart c) (ControlToken c) (ControlPort c) (FloorMS c) (Ingests c).

Definition with_Autostart (c : Cfg) (on : bool) : Cfg :=
  mkCfg (Version c) (PublicHost c) (SignalBind c) (ControlBind c) (ControlLAN c) (ControlRemote c)
    (TLSCert c) (TLSKey c) (PublicURL c) (ICEPublicIPs c) (MediaPort c) (SignalPort c) (UIPort c)
    on (ControlToken c) (ControlPort c) (FloorMS c) (Ingests c).

Definition with_ControlToken (c : Cfg) (t : string) : Cfg :=
  mkCfg (Version c) (PublicHost c) (SignalBind c) (ControlBind c) (ControlLAN c) (ControlRemote c)
    (TLSCert c) (TLSKey c) (PublicURL c) (ICEPublicIPs c) (MediaPort c) (SignalPort c) (UIPort c)
    (Autostart c) t (ControlPort c) (FloorMS c) (Ingests c).

Definition with_Control (c : Cfg) (lan remote : option bool) : Cfg :=
  mkCfg (Version c) (PublicHost c) (SignalBind c) (ControlBind c) lan remote
    (TLSCert c) (TLSKey c) (PublicURL c) (ICEPublicIPs c) (MediaPort c) (SignalPort c) (UIPort c)
    (Autostart c) (ControlToken c) (ControlPort c) (FloorMS c) (Ingests c).

Definition with_Opts (i : Ingest) (d : Z) (o : DynamicDelay.Options) : Ingest :=
  mkIngest o (ID i) (Label i) (SenderKey i) (ReceiverKey i) (Codecs i) d (SyncGroup i).

Definition with_SenderKey (i : Ingest) (k : string) : Ingest :=
  mkIngest (Opts i) (ID i) (Label i) k (ReceiverKey i) (Codecs i) (DelayMS i) (SyncGroup i).

Definition with_Codecs (i : Ingest) (cs : list string) : Ingest :=
  mkIngest (Opts i) (ID i) (Label i) (SenderKey i) (ReceiverKey i) cs (DelayMS i) (SyncGroup i).

Definition with_Label (i : Ingest) (l : string) : Ingest :=
  mkIngest (Opts i) (ID i) l (SenderKey i) (ReceiverKey i) (Codecs i) (DelayMS i) (SyncGroup i).

Definition with_SyncGroup (i : Ingest) (g : string) : Ingest :=
  mkIngest (Opts i) (ID i) (Label i) (SenderKey i) (ReceiverKey i) (Codecs i) (DelayMS i) g.

(** ** Keys ([keys.go]) *)
Definition SenderPrefix : string := "s_".
Definition ReceiverPrefix : string := "r_".
Definition keyBytes : nat := 16.

Definition hex_digit (n : Z) : Ascii.ascii :=
  Ascii.ascii_of_N (Z.to_N (if n <? 10 then 48 + n else 87 + n)).

(** [hex.EncodeToString] *)
Fixpoint EncodeToString (bs : list Z) : string :=
  match bs with
  | [] => ""
  | b :: bs => String (hex_digit (Z.shiftr b 4)) (String (hex_digit (Z.land b 15)) (EncodeToString bs))
  end.

(** The value of a hexadecimal digit, either case. *)
Definition hex_value (c : Ascii.ascii) : option Z :=
  let n := Z.of_N (Ascii.N_of_ascii c) in
  if (48 <=? n) && (n <=? 57) then Some (n - 48)
  else if (97 <=? n) && (n <=? 102) then Some (n - 87)
  else if (65 <=? n) && (n <=? 70) then Some (n - 55)
  else None.

(** [hex.DecodeString]: [None] for an odd length or a byte that is no digit. *)
Fixpoint DecodeString (s : string) : option (list Z) :=
  match s with
  | EmptyString => Some []
  | String a EmptyString => None
  | String a (String b r) =>
      x ← hex_value a; y ← hex_value b; l ← DecodeString r; Some (x * 16 + y :: l)
  end.

(** [newKey]; [bytes] is what the random source returned, [None] its failure. *)
Definition newKey (prefix : string) (bytes : option (list Z)) : string + error :=
  match bytes with
  | None => inr ErrGenerateKey
  | Some buf => inl (prefix +:+ EncodeToString buf)
  end.

(** [key[len(prefix):]] *)
Fixpoint string_drop (n : nat) (s : string) : string :=
  match n, s with
  | O, _ => s
  | S n, EmptyString => EmptyString
  | S n, String _ r => string_drop n r
  end.

Definition validKey (prefix key : string) : bool :=
  if negb (String.length key =? String.length prefix + 2 * keyBytes)%nat then false
  else if negb (HasPrefix key prefix) then false
  else
    match DecodeString (ToLower (string_drop (String.length prefix) key)) with
    | None => false
    | Some _ => String.eqb key (ToLower key)
    end.

(** ** Bounds *)
Definition clampFloor (floorMS : option Z) : Z :=
  match floorMS with
  | None => DelayFloorMS
  | Some f => Z.min DelayMaxMS (Z.max 0 f)
  end.

Definition clampDelay (c : Cfg) (delayMS : Z) : Z :=
  Z.min DelayMaxMS (Z.max (clampFloor (FloorMS c)) delayMS).

Definition keepCodecs (codecs : list string) : list string :=
  match filter (λ name, name ∈ codecs) AllCodecs with
  | [] => [CodecH264]
  | keep => keep
  end.

Definition portOr (p dflt : Z) : Z := if p =? 0 then dflt else p.

(** The camera loop of [normalise] and of [ReplaceIngests]. *)
Definition normaliseIngest (c : Cfg) (i : Ingest) : Ingest :=
  let d := clampDelay c (DelayMS i) in
  mkIngest (DynamicDelay.Normalize (Opts i) d) (ID i) (Label i) (SenderKey i) (ReceiverKey i)
    (keepCodecs (Codecs i)) d (SyncGroup i).

Definition normalise (c : Cfg) : Cfg :=
  let floor := match FloorMS c with None => None | Some f => Some (clampFloor (Some f)) end in
  let c := mkCfg CurrentVersion (PublicHost c) (SignalBind c) (ControlBind c) (ControlLAN c)
             (ControlRemote c) (TLSCert c) (TLSKey c) (PublicURL c) (ICEPublicIPs c)
             (portOr (MediaPort c) DefaultMediaPort) (portOr (SignalPort c) DefaultSignalPort)
             (portOr (UIPort c) DefaultUIPort) (Autostart c) (ControlToken c)
             (portOr (ControlPort c) DefaultControlPort) floor (Ingests c) in
  with_Ingests c (normaliseIngest c <$> Ingests c).

(** ** The disk and [saveLocked] *)
Inductive content := Whole (c : Cfg) | Partial.

Record disk := mkDisk {
  main : option content;           (* the file at [c.path] *)
  temps : gmap string content      (* the temporary files beside it *)
}.

(** Which of the calls of one save succeed, and the name [CreateTemp] picks. *)
Record calls := mkCalls {
  mkdirOK : bool; marshalOK : bool; tempOK : bool; writeOK : bool; syncOK : bool;
  closeOK : bool; renameOK : bool; removeOK : bool; tempName : string
}.

(** [saveLocked]: the disks between its calls, oldest first, then the final
    disk and the error.  The deferred [os.Remove] of the temporary file can fail
    too, and its error is discarded; after the rename it finds nothing to remove. *)
Definition saveLocked (c : Cfg) (d : disk) (k : calls) : list disk * disk * option error :=
  if negb (mkdirOK k) then ([d], d, Some ErrWriteConfig)
  else if negb (marshalOK k) then ([d], d, Some ErrWriteConfig)
  else if negb (tempOK k) then ([d], d, Some ErrWriteConfig)
  else
    let created := mkDisk (main d) (<[tempName k := Partial]> (temps d)) in
    let written := mkDisk (main d)
                     (<[tempName k := if writeOK k then Whole c else Partial]> (temps d)) in
    let removed := if removeOK k then mkDisk (main d) (delete (tempName k) (temps d)) else written in
    if negb (writeOK k && syncOK k) then ([d; created; written], removed, Some ErrWriteConfig)
    else if negb (closeOK k) then ([d; created; written], removed, Some ErrWriteConfig)
    else if negb (renameOK k) then ([d; created; written], removed, Some ErrWriteConfig)
    else
      let renamed := mkDisk (Some (Whole c)) (delete (tempName k) (temps d)) in
      ([d; created; written; renamed], renamed, None).

(** The configuration in memory and the disk. *)
Record world := mkWorld { cfg : Cfg; dsk : disk }.

(** [saveLocked] on the configuration in memory: the new disk and the error. *)
Definition save (c : Cfg) (d : disk) (k : calls) : disk * option error :=
  let '(_, d, err) := saveLocked c d k in (d, err).

(** ** Setters: the world after them and the error they return *)
Definition SetPublicHost (w : world) (k : calls) (host : string) : world * option error :=
  let c := cfg w in
  if String.eqb (PublicHost c) host then (w, None)
  else
    let previous := PublicHost c in
    let c := with_PublicHost c host in
    match save c (dsk w) k with
    | (d, Some e) => (mkWorld (with_PublicHost c previous) d, Some e)
    | (d, None) => (mkWorld c d, None)
    end.

Definition SetAutostart (w : world) (k : calls) (on : bool) : world * option error :=
  let previous := Autostart (cfg w) in
  let c := with_Autostart (cfg w) on in
  match save c (dsk w) k with
  | (d, Some e) => (mkWorld (with_Autostart c previous) d, Some e)
  | (d, None) => (mkWorld c d, None)
  end.

(** [AddIngest]; [r1], [r2] and [r3] are the three draws of random bytes. *)
Definition AddIngest (w : world) (k : calls) (label : string) (r1 r2 r3 : option (list Z))
  : world * (Ingest + error) :=
  match newKey SenderPrefix r1 with
  | inr e => (w, inr e)
  | inl senderKey =>
  match newKey ReceiverPrefix r2 with
  | inr e => (w, inr e)
  | inl receiverKey =>
  match newKey "" r3 with
  | inr e => (w, inr e)
  | inl id =>
      let c := cfg w in
      let fresh :=
        mkIngest (DynamicDelay.Normalize DynamicDelay.zeroOptions (clampDelay c DelayDefaultMS))
          id label senderKey receiverKey [CodecH264] (clampDelay c DelayDefaultMS) "" in
      let c := with_Ingests c (Ingests c ++ [fresh]) in
      match save c (dsk w) k with
      | (d, Some e) =>
          (mkWorld (with_Ingests c (take (length (Ingests c) - 1) (Ingests c))) d, inr e)
      | (d, None) => (mkWorld c d, inl (List.last (Ingests c) zeroIngest))
      end
  end end end.

(** One camera of [validateIngests], with the identifiers and keys seen so far. *)
Definition validateIngest (seen : gset string) (ing : Ingest) : gset string + error :=
  if String.eqb (ID ing) "" then inr ErrBadIngest
  else if decide (ID ing ∈ seen) then inr ErrBadIngest
  else
    let seen := {[ID ing]} ∪ seen in
    if negb (validKey SenderPrefix (SenderKey ing)) || negb (validKey ReceiverPrefix (ReceiverKey ing))
    then inr ErrBadKey
    else if decide (SenderKey ing ∈ seen) then inr ErrDuplicateKey
    else
      let seen := {[SenderKey ing]} ∪ seen in
      if decide (ReceiverKey ing ∈ seen) then inr ErrDuplicateKey
      else inl ({[ReceiverKey ing]} ∪ seen).

Fixpoint validate_from (seen : gset string) (l : list Ingest) : option error :=
  match l with
  | [] => None
  | ing :: l =>
      match validateIngest seen ing with
      | inr e => Some e
      | inl seen => validate_from seen l
      end
  end.

Definition validateIngests (l : list Ingest) : option error := validate_from ∅ l.

(** Whether the sessions of a camera must close when [next] is installed. *)
Definition isStale (next : list Ingest) (was : Ingest) : bool :=
  match list_find (λ i, ID i = ID was) next with
  | None => true
  | Some (_, now) =>
      negb (String.eqb (SenderKey now) (SenderKey was))
      || negb (String.eqb (ReceiverKey now) (ReceiverKey was))
      || negb (bool_decide (keepCodecs (Codecs now) = Codecs was))
  end.

Definition staleIngests (current next : list Ingest) : list string :=
  ID <$> filter (λ was, isStale next was = true) current.

Definition ReplaceIngests (w : world) (k : calls) (next : list Ingest)
  : world * (list string + error) :=
  match validateIngests next with
  | Some e => (w, inr e)
  | None =>
      let c := cfg w in
      let stale := staleIngests (Ingests c) next in
      let replacement := normaliseIngest c <$> next in
      let previous := Ingests c in
      let c := with_Ingests c replacement in
      match save c (dsk w) k with
      | (d, Some e) => (mkWorld (with_Ingests c previous) d, inr e)
      | (d, None) => (mkWorld c d, inl stale)
      end
  end.

Definition RemoveIngest (w : world) (k : calls) (id : string) : world * option error :=
  match list_find (λ i, ID i = id) (Ingests (cfg w)) with
  | None => (w, Some ErrUnknownIngest)
  | Some (idx, _) =>
      let previous := Ingests (cfg w) in
      let c := with_Ingests (cfg w) (delete idx previous) in
      match save c (dsk w) k with
      | (d, Some e) => (mkWorld (with_Ingests c previous) d, Some e)
      | (d, None) => (mkWorld c d, None)
      end
  end.

Definition update (w : world) (k : calls) (id : string) (change : Ingest -> Ingest)
  : world * option error :=
  match list_find (λ i, ID i = id) (Ingests (cfg w)) with
  | None => (w, Some ErrUnknownIngest)
  | Some (idx, previous) =>
      let c := with_Ingests (cfg w) (<[idx := change previous]> (Ingests (cfg w))) in
      match save c (dsk w) k with
      | (d, Some e) => (mkWorld (with_Ingests c (<[idx := previous]> (Ingests c))) d, Some e)
      | (d, None) => (mkWorld c d, None)
      end
  end.

Definition SetSyncGroup w k (id group : string) := update w k id (λ i, with_SyncGroup i group).

Definition SetLabel w k (id label : string) := update w k id (λ i, with_Label i label).

Definition SetCodecs w k (id : string) (codecs : list string) :=
  let keep := keepCodecs codecs in update w k id (λ i, with_Codecs i keep).

Definition SetDelay (w : world) k (id : string) (delayMS : Z) :=
  update w k id (λ i,
    let d := clampDelay (cfg w) delayMS in with_Opts i d (DynamicDelay.Normalize (Opts i) d)).

Definition SetDynamicDelay w k (id : string) (o : DynamicDelay.Options) :=
  update w k id (λ i, with_Opts i (DelayMS i) (DynamicDelay.Normalize o (DelayMS i))).

(** [ResetSenderKey]; [r] is the draw of random bytes. *)
Definition ResetSenderKey (w : world) (k : calls) (id : string) (r : option (list Z))
  : world * (Ingest + error) :=
  match list_find (λ i, ID i = id) (Ingests (cfg w)) with
  | None => (w, inr ErrUnknownIngest)
  | Some (idx, ing) =>
      match newKey SenderPrefix r with
      | inr e => (w, inr e)
      | inl key =>
          let previous := SenderKey ing in
          let c := with_Ingests (cfg w) (<[idx := with_SenderKey ing key]> (Ingests (cfg w))) in
          match save c (dsk w) k with
          | (d, Some e) =>
              (mkWorld (with_Ingests c
                 (alter (λ i, with_SenderKey i previous) idx (Ingests c))) d, inr e)
          | (d, None) => (mkWorld c d, inl (with_SenderKey ing key))
          end
      end
  end.

Definition CreateControlToken (w : world) (k : calls) (r : option (list Z))
  : world * (string + error) :=
  if negb (String.eqb (ControlToken (cfg w)) "") then (w, inr ErrTokenExists)
  else
    match r with
    | None => (w, inr ErrGenerateKey)
    | Some secret =>
        let c := with_ControlToken (cfg w) (EncodeToString secret) in
        match save c (dsk w) k with
        | (d, Some e) => (mkWorld (with_ControlToken c "") d, inr e)
        | (d, None) => (mkWorld c d, inl (ControlToken c))
        end
    end.

Definition SetControlAccess (w : world) (k : calls) (scope : string) (on : bool)
  : world * option error :=
  let c := cfg w in
  let previousLAN := ControlLAN c in
  let previousRemote := ControlRemote c in
  let run (c : Cfg) :=
    match save c (dsk w) k with
    | (d, Some e) => (mkWorld (with_Control c previousLAN previousRemote) d, Some e)
    | (d, None) => (mkWorld c d, None)
    end in
  if String.eqb scope "lan" then run (with_Control c (Some on) (ControlRemote c))
  else if String.eqb scope "remote" then run (with_Control c (ControlLAN c) (Some on))
  else (w, Some ErrParseConfig).

(** ** [Load] *)

(** What [os.UserConfigDir], [os.ReadFile] and [json.Unmarshal] answer. *)
Inductive read_result := ReadNotExist | ReadError | ReadBadJSON | ReadDoc (c : Cfg).

Definition defaultCfg : Cfg :=
  mkCfg CurrentVersion "" "" "" None None "" "" "" [] DefaultMediaPort DefaultSignalPort
    DefaultUIPort false "" 0 None [].

(** The configuration in memory (when there is one), the disk and the error. *)
Definition Load (dirOK : bool) (r : read_result) (d : disk) (k : calls)
  : option Cfg * disk * option error :=
  if negb dirOK then (None, d, Some ErrLocateConfig)
  else
    match r with
    | ReadNotExist => let '(d, err) := save defaultCfg d k in (Some defaultCfg, d, err)
    | ReadError => (None, d, Some ErrReadConfig)
    | ReadBadJSON => (None, d, Some ErrParseConfig)
    | ReadDoc c =>
        if CurrentVersion <? Version c then (None, d, Some ErrFutureConfig)
        else (Some (normalise c), d, None)
    end.

(** ** Reads *)
Definition EffectiveDelay (c : Cfg) (id : string) : Z :=
  let '(own, group) :=
    match list_find (λ i, ID i = id) (Ingests c) with
    | Some (_, i) => (DelayMS i, SyncGroup i)
    | None => (0, "")
    end in
  if String.eqb group "" then own
  else
    fold_left (λ own i,
      if String.eqb (SyncGroup i) group && (own <? DelayMS i) then DelayMS i else own)
      (Ingests c) own.

Definition GroupPeers (c : Cfg) (id : string) : list string :=
  let group :=
    match list_find (λ i, ID i = id) (Ingests c) with
    | Some (_, i) => SyncGroup i
    | None => ""
    end in
  if String.eqb group "" then [id]
  else ID <$> filter (λ i, SyncGroup i = group) (Ingests c).

Definition DelayOptions (c : Cfg) (id : string) : DynamicDelay.Options :=
  match list_find (λ i, ID i = id) (Ingests c) with
  | Some (_, i) =>
      let o := DynamicDelay.Normalize (Opts i) (DelayMS i) in
      DynamicDelay.mkOptions (DynamicDelay.Enabled o && String.eqb (SyncGroup i) "")
        (DynamicDelay.MaximumMS o) (DynamicDelay.Jump o) (DynamicDelay.CatchUpMSPerSecond o)
        (DynamicDelay.AutoCatchUp o)
  | None => DynamicDelay.zeroOptions
  end.

Inductive Role := RoleNone | RoleSender | RoleReceiver.

(** One round of the loop of [Resolve]; [constantEqual] is equality. *)
Definition resolve_step (key : string) (acc : Ingest * Role) (ing : Ingest) : Ingest * Role :=
  let acc := if String.eqb key (SenderKey ing) then (ing, RoleSender) else acc in
  if String.eqb key (ReceiverKey ing) then (ing, RoleReceiver) else acc.

Definition Resolve (c : Cfg) (key : string) : Ingest * Role :=
  fold_left (resolve_step key) (Ingests c) (zeroIngest, RoleNone).

Definition Floor (c : Cfg) : Z := clampFloor (FloorMS c).
Definition Host (c : Cfg) : string := PublicHost c.
Definition Token (c : Cfg) : string := ControlToken c.
Definition ListIngests (c : Cfg) : list Ingest := Ingests c.
Definition IngestIDs (c : Cfg) : list string := ID <$> Ingests c.

Definition LANControlEnabled (c : Cfg) : bool :=
  match ControlLAN c with None => true | Some b => b end.

Definition RemoteControlEnabled (c : Cfg) : bool :=
  match ControlRemote c with
  | Some b => b
  | None => negb (String.eqb (ControlToken c) "")
  end.

(** ** The operations as one type *)
Inductive op :=
  | OSetPublicHost (host : string)
  | OSetAutostart (on : bool)
  | OAddIngest (label : string) (r1 r2 r3 : option (list Z))
  | OReplaceIngests (next : list Ingest)
  | ORemoveIngest (id : string)
  | OSetSyncGroup (id group : string)
  | OSetLabel (id label : string)
  | OSetCodecs (id : string) (codecs : list string)
  | OSetDelay (id : string) (delayMS : Z)
  | OSetDynamicDelay (id : string) (o : DynamicDelay.Options)
  | OResetSenderKey (id : string) (r : option (list Z))
  | OCreateControlToken (r : option (list Z))
  | OSetControlAccess (scope : string) (on : bool).

Definition failed {A} (r : A + error) : option error :=
  match r with inl _ => None | inr e => Some e end.

Definition apply_op (w : world) (k : calls) (o : op) : world * option error :=
  match o with
  | OSetPublicHost h => SetPublicHost w k h
  | OSetAutostart on => SetAutostart w k on
  | OAddIngest l r1 r2 r3 => let '(w, r) := AddIngest w k l r1 r2 r3 in (w, failed r)
  | OReplaceIngests next => let '(w, r) := ReplaceIngests w k next in (w, failed r)
  | ORemoveIngest id => RemoveIngest w k id
  | OSetSyncGroup id g => SetSyncGroup w k id g
  | OSetLabel id l => SetLabel w k id l
  | OSetCodecs id cs => SetCodecs w k id cs
  | OSetDelay id d => SetDelay w k id d
  | OSetDynamicDelay id o => SetDynamicDelay w k id o
  | OResetSenderKey id r => let '(w, r) := ResetSenderKey w k id r in (w, failed r)
  | OCreateControlToken r => let '(w, r) := CreateControlToken w k r in (w, failed r)
  | OSetControlAccess s on => SetControlAccess w k s on
  end.

(** A camera whose settings are within the limits of the deployment: its delay
    in range, its policy normalised, its codecs a non-empty selection of
    [AllCodecs] in preference order. *)
Definition ingest_ok (c : Cfg) (i : Ingest) : Prop :=
  clampFloor (FloorMS c) <= DelayMS i <= DelayMaxMS
  /\ DynamicDelay.Normalize (Opts i) (DelayMS i) = Opts i
  /\ Codecs i <> [] /\ Codecs i = filter (λ name, name ∈ Codecs i) AllCodecs.

Definition cfg_ok (c : Cfg) : Prop :=
  Version c = CurrentVersion
  /\ MediaPort c <> 0 /\ SignalPort c <> 0 /\ UIPort c <> 0
  /\ match FloorMS c with None => True | Some f => 0 <= f <= DelayMaxMS end
  /\ Forall (ingest_ok c) (Ingests c).

(** Every key of a list of cameras. *)
Definition keys (l : list Ingest) : list string := l ≫= λ i, [SenderKey i; ReceiverKey i].

(** A key no one else has: what [validateIngests] asks of a list. *)
Definition list_ok (l : list Ingest) : Prop :=
  NoDup (ID <$> l) /\ NoDup (keys l)
  /\ Forall (λ i, ID i <> "" /\ validKey SenderPrefix (SenderKey i) = true
                  /\ validKey ReceiverPrefix (ReceiverKey i) = true) l.

(** ** Saving *)

(** The temporary files after a save are those before it; only a save that failed
    and could not remove its own temporary file leaves that one behind. *)
Definition clean (k : calls) (err : option error) (before after : gmap string content) : Prop :=
  after = before
  \/ (exists e, err = Some e) /\ removeOK k = false /\ exists rest, after = <[tempName k := rest]> before.

Lemma save_spec c d k d' err :
  save c d k = (d', err) ->
  (err = None /\ main d' = Some (Whole c) \/ (exists e, err = Some e) /\ main d' = main d)
  /\ (temps d !! tempName k = None -> clean k err (temps d) (temps d')).
Proof.
  unfold save, saveLocked, clean. intros E.
  destruct (mkdirOK k), (marshalOK k), (tempOK k), (writeOK k), (syncOK k), (closeOK k), (renameOK k), (removeOK k);
    simplify_eq/=; split; eauto; intros; rewrite ?delete_id by done; first [by left|right; split_and!; eauto].
Qed.

(** What a setter promises: an error leaves the configuration and the file as
    they were; a success either changed nothing or wrote the configuration now
    in memory; the temporary files are [clean] either way. *)
Definition saved (k : calls) (w w' : world) (err : option error) : Prop :=
  match err with
  | Some _ => cfg w' = cfg w /\ main (dsk w') = main (dsk w)
  | None => w' = w \/ main (dsk w') = Some (Whole (cfg w'))
  end
  /\ (temps (dsk w) !! tempName k = None -> clean k err (temps (dsk w)) (temps (dsk w'))).

Lemma saved_same k w err : saved k w w err.
Proof. split; [destruct err; auto|by left]. Qed.

(** The shape of every setter: try [c], and put [rollback] back on an error. *)
Lemma saved_commit k w c rollback d err :
  save c (dsk w) k = (d, err) -> rollback = cfg w ->
  saved k w (mkWorld (match err with None => c | Some _ => rollback end) d) err.
Proof.
  intros E ->. apply save_spec in E as [[[-> ?]|[[e ->] ?]] Ht]; split; simpl; auto.
Qed.

#[local] Hint Resolve saved_same : go.

Lemma with_Ingests_back c l : with_Ingests (with_Ingests c l) (Ingests c) = c.
Proof. by destruct c. Qed.

Lemma with_SenderKey_id i k : with_SenderKey (with_SenderKey i k) (SenderKey i) = i.
Proof. by destruct i. Qed.

Ltac commit w :=
  let E := fresh "E" in
  match goal with
  | |- context [save ?c (dsk w) ?k] => destruct (save c (dsk w) k) as [? [?|]] eqn:E
  end; (eapply saved_commit in E; [exact E|]); try reflexivity; try (by destruct (cfg w)).

Lemma SetPublicHost_saved w k h :
  let '(w', err) := SetPublicHost w k h in saved k w w' err.
Proof. unfold SetPublicHost. cases_if; auto with go. commit w. Qed.

Lemma SetAutostart_saved w k on :
  let '(w', err) := SetAutostart w k on in saved k w w' err.
Proof. unfold SetAutostart. commit w. Qed.

Lemma AddIngest_saved w k l r1 r2 r3 :
  let '(w', r) := AddIngest w k l r1 r2 r3 in saved k w w' (failed r).
Proof.
  unfold AddIngest. destruct r1, r2, r3; cbn -[save]; auto with go.
  commit w; cbn; rewrite length_app, Nat.add_sub, take_app_length; apply with_Ingests_back.
Qed.

Lemma ReplaceIngests_saved w k next :
  let '(w', r) := ReplaceIngests w k next in saved k w w' (failed r).
Proof. unfold ReplaceIngests. destruct (validateIngests next); auto with go. commit w. Qed.

Lemma RemoveIngest_saved w k id :
  let '(w', err) := RemoveIngest w k id in saved k w w' err.
Proof.
  unfold RemoveIngest. destruct (list_find _ _) as [[idx i]|]; auto with go. commit w.
Qed.

Lemma update_saved w k id change :
  let '(w', err) := update w k id change in saved k w w' err.
Proof.
  unfold update. destruct (list_find _ _) as [[idx i]|] eqn:F; auto with go.
  apply list_find_Some in F as (Hi & _ & _). commit w; cbn.
  rewrite list_insert_insert_eq, (list_insert_id _ idx i) by done. apply with_Ingests_back.
Qed.

Lemma ResetSenderKey_saved w k id r :
  let '(w', res) := ResetSenderKey w k id r in saved k w w' (failed res).
Proof.
  unfold ResetSenderKey. destruct (list_find _ _) as [[idx i]|] eqn:F; auto with go.
  apply list_find_Some in F as (Hi & _ & _). destruct r; cbn -[save]; auto with go.
  commit w; cbn. erewrite (list_alter_ext _ (λ _, i)); [|intros x Hx|reflexivity].
  - rewrite <-list_insert_alter, list_insert_insert_eq, (list_insert_id _ idx i) by done.
    apply with_Ingests_back.
  - rewrite list_lookup_insert_eq in Hx by (by eapply lookup_lt_Some).
    simplify_eq. apply with_SenderKey_id.
Qed.

Lemma CreateControlToken_saved w k r :
  let '(w', res) := CreateControlToken w k r in saved k w w' (failed res).
Proof.
  unfold CreateControlToken. destruct (negb _) eqn:Ht; auto with go. bool_hyps.
  destruct r; cbn -[save]; auto with go. commit w; destruct (cfg w); cbn in *; by subst.
Qed.

Lemma SetControlAccess_saved w k s on :
  let '(w', err) := SetControlAccess w k s on in saved k w w' err.
Proof. unfold SetControlAccess. cases_if; auto with go; commit w. Qed.

(** ** The invariant *)
Lemma clampFloor_range f : 0 <= clampFloor f <= DelayMaxMS.
Proof. unfold clampFloor, DelayFloorMS, DelayMaxMS. destruct f; lia. Qed.

Lemma clampFloor_idem f : clampFloor (Some (clampFloor f)) = clampFloor f.
Proof. pose proof (clampFloor_range f). cbn. unfold DelayMaxMS in *. lia. Qed.

Lemma clampDelay_range c d : clampFloor (FloorMS c) <= clampDelay c d <= DelayMaxMS.
Proof. pose proof (clampFloor_range (FloorMS c)). unfold clampDelay. lia. Qed.

Lemma clampDelay_id c d : clampFloor (FloorMS c) <= d <= DelayMaxMS -> clampDelay c d = d.
Proof. unfold clampDelay. lia. Qed.

(** The selections of codecs a camera can have. *)
Definition codec_sets : list (list string) :=
  [[CodecH264]; [CodecH265]; [CodecAV1]; [CodecH264; CodecH265]; [CodecH264; CodecAV1];
   [CodecH265; CodecAV1]; AllCodecs].

Lemma keepCodecs_set cs : keepCodecs cs ∈ codec_sets.
Proof.
  unfold keepCodecs, AllCodecs. rewrite !filter_cons, filter_nil.
  repeat case_decide; unfold codec_sets; set_solver.
Qed.

Lemma keepCodecs_facts cs :
  keepCodecs cs <> [] /\ keepCodecs cs = filter (λ name, name ∈ keepCodecs cs) AllCodecs.
Proof.
  generalize (keepCodecs_set cs). generalize (keepCodecs cs) as k. apply Forall_forall.
  repeat constructor; done.
Qed.

(** [keepCodecs] keeps exactly the codecs that are asked for and known, and
    [H.264] when there are none. *)
Lemma keepCodecs_keeps cs name :
  name ∈ keepCodecs cs <->
  name ∈ AllCodecs /\ name ∈ cs
  \/ name = CodecH264 /\ (forall other, other ∈ AllCodecs -> other ∉ cs).
Proof.
  unfold keepCodecs. destruct (filter _ _) as [|a l] eqn:E.
  - rewrite list_elem_of_singleton. split.
    + intros ->. right. split; [done|]. intros other Ho Hcs.
      assert (other ∈ filter (λ n, n ∈ cs) AllCodecs) as H by (by apply list_elem_of_filter).
      rewrite E in H. by apply elem_of_nil in H.
    + intros [[Ha Hc]|[? _]]; [|done].
      assert (name ∈ filter (λ n, n ∈ cs) AllCodecs) as H by (by apply list_elem_of_filter).
      rewrite E in H. by apply elem_of_nil in H.
  - rewrite <-E, list_elem_of_filter. split; [tauto|].
    intros [?|[_ Hno]]; [tauto|].
    assert (a ∈ filter (λ n, n ∈ cs) AllCodecs) as Ha by (rewrite E; constructor).
    apply list_elem_of_filter in Ha as [Ha1 Ha2]. by destruct (Hno a Ha2).
Qed.

Lemma normaliseIngest_ok c c' i :
  FloorMS c' = FloorMS c -> ingest_ok c' (normaliseIngest c i).
Proof.
  intros E. unfold ingest_ok. rewrite E. split_and!; simpl; try apply keepCodecs_facts.
  - apply clampDelay_range.
  - apply clampDelay_range.
  - apply DynamicDelay.Normalize_idem.
Qed.

Lemma cfg_ok_with_Ingests c l : cfg_ok c -> Forall (ingest_ok c) l -> cfg_ok (with_Ingests c l).
Proof. unfold cfg_ok. intros (?&?&?&?&?&_) ?. by split_and!. Qed.

Lemma portOr_nonzero p d : d <> 0 -> portOr p d <> 0.
Proof. unfold portOr. intros. destruct (p =? 0) eqn:E; lia. Qed.

Lemma normalise_ok c : cfg_ok (normalise c).
Proof.
  unfold cfg_ok, normalise. simpl. split_and!; try (by apply portOr_nonzero); try done.
  - destruct (FloorMS c) as [f|]; [|done]. apply (clampFloor_range (Some f)).
  - apply Forall_fmap, Forall_true. intros i. by apply normaliseIngest_ok.
Qed.

Lemma keepCodecs_id i c : ingest_ok c i -> keepCodecs (Codecs i) = Codecs i.
Proof. intros (_ & _ & Hne & E). unfold keepCodecs. rewrite <-E. by destruct (Codecs i). Qed.

Lemma normaliseIngest_id c c' i :
  FloorMS c' = FloorMS c -> ingest_ok c i -> normaliseIngest c' i = i.
Proof.
  intros E Hok. pose proof (keepCodecs_id i c Hok) as Hk. destruct Hok as (Hd & Hn & _).
  unfold normaliseIngest. rewrite Hk, clampDelay_id by (by rewrite E). rewrite Hn. by destruct i.
Qed.

Lemma normalise_id c : cfg_ok c -> ControlPort c <> 0 -> normalise c = c.
Proof.
  intros (Hv & Hm & Hs & Hu & Hf & Hi) Hc. unfold normalise, portOr.
  rewrite !(proj2 (Z.eqb_neq _ _)) by done.
  assert (Hfloor : match FloorMS c with None => None | Some f => Some (clampFloor (Some f)) end
                   = FloorMS c).
  { destruct (FloorMS c); [|done]. cbn in *. unfold DelayMaxMS in *. f_equal. lia. }
  rewrite Hfloor, <-Hv. cbn [Ingests]. replace (_ <$> Ingests c) with (Ingests c); [by destruct c|].
  rewrite <-(list_fmap_id (Ingests c)) at 1. apply Forall_fmap_ext_1.
  eapply Forall_impl; [exact Hi|]. intros i Hok. symmetry. by apply (normaliseIngest_id c).
Qed.

(** The configuration a setter leaves: the one before it, or an [attempt]. *)
Definition leaves (w w' : world) (err : option error) (attempt : Cfg -> Prop) : Prop :=
  cfg w' = cfg w \/ err = None /\ attempt (cfg w').

Lemma update_leaves w k id change :
  let '(w', err) := update w k id change in
  leaves w w' err (λ c, exists idx i, Ingests (cfg w) !! idx = Some i /\ ID i = id
    /\ c = with_Ingests (cfg w) (<[idx := change i]> (Ingests (cfg w)))).
Proof.
  pose proof (update_saved w k id change) as H. unfold update in *.
  destruct (list_find _ _) as [[idx i]|] eqn:F; [|by left].
  destruct (save _ (dsk w) k) as [d [e|]]; [by left; apply H|].
  apply list_find_Some in F as (? & ? & _). right. split; [done|]. by exists idx, i.
Qed.

Lemma update_cfg_ok w k id change :
  (forall i, ingest_ok (cfg w) i -> ingest_ok (cfg w) (change i)) ->
  cfg_ok (cfg w) -> cfg_ok (cfg (update w k id change).1).
Proof.
  intros Hc Hok. pose proof (update_leaves w k id change) as H.
  destruct (update w k id change) as [w' err]. simpl.
  destruct H as [->|[_ (idx & i & Hi & _ & ->)]]; [done|].
  apply cfg_ok_with_Ingests; [done|]. destruct Hok as (_&_&_&_&_&Hall).
  apply Forall_insert; [done|]. apply Hc. by eapply Forall_lookup_1.
Qed.

(** Setters that touch no field the invariant reads. *)
Lemma cfg_ok_same_fields c c' :
  Version c' = Version c -> MediaPort c' = MediaPort c -> SignalPort c' = SignalPort c ->
  UIPort c' = UIPort c -> FloorMS c' = FloorMS c -> Ingests c' = Ingests c ->
  cfg_ok c -> cfg_ok c'.
Proof. unfold cfg_ok, ingest_ok. by intros -> -> -> -> -> ->. Qed.

Lemma fresh_ingest_ok c id label s r :
  ingest_ok c (mkIngest (DynamicDelay.Normalize DynamicDelay.zeroOptions (clampDelay c DelayDefaultMS))
                 id label s r [CodecH264] (clampDelay c DelayDefaultMS) "").
Proof.
  unfold ingest_ok. simpl. split_and!; try apply clampDelay_range; try done.
  apply DynamicDelay.Normalize_idem.
Qed.

Lemma AddIngest_cfg_ok w k l r1 r2 r3 :
  cfg_ok (cfg w) -> cfg_ok (cfg (AddIngest w k l r1 r2 r3).1).
Proof.
  intros Hok. pose proof (AddIngest_saved w k l r1 r2 r3) as H.
  unfold AddIngest in *. destruct r1, r2, r3; try exact Hok.
  cbn -[save clampDelay DynamicDelay.Normalize] in *.
  destruct (save _ (dsk w) k) as [d [e|]]; [destruct H as [[E _] _]; simpl in *; by rewrite E|].
  apply cfg_ok_with_Ingests; [done|]. destruct Hok as (_&_&_&_&_&Hall).
  apply Forall_app. split; [done|]. constructor; [apply fresh_ingest_ok|constructor].
Qed.

Lemma ReplaceIngests_cfg_ok w k next :
  cfg_ok (cfg w) -> cfg_ok (cfg (ReplaceIngests w k next).1).
Proof.
  intros Hok. unfold ReplaceIngests. destruct (validateIngests next); [done|].
  destruct (save _ (dsk w) k) as [d [e|]]; simpl.
  - by rewrite with_Ingests_back.
  - apply cfg_ok_with_Ingests; [done|]. apply Forall_fmap, Forall_true.
    intros i. by apply normaliseIngest_ok.
Qed.

Lemma RemoveIngest_cfg_ok w k id : cfg_ok (cfg w) -> cfg_ok (cfg (RemoveIngest w k id).1).
Proof.
  intros Hok. unfold RemoveIngest. destruct (list_find _ _) as [[idx i]|]; [|done].
  destruct (save _ (dsk w) k) as [d [e|]]; simpl; [by rewrite with_Ingests_back|].
  apply cfg_ok_with_Ingests; [done|]. by apply Forall_delete, Hok.
Qed.

Lemma ResetSenderKey_cfg_ok w k id r : cfg_ok (cfg w) -> cfg_ok (cfg (ResetSenderKey w k id r).1).
Proof.
  intros Hok. pose proof (ResetSenderKey_saved w k id r) as H. unfold ResetSenderKey in *.
  destruct (list_find _ _) as [[idx i]|] eqn:F; [|done].
  destruct r; [|done]. cbn -[save] in *.
  destruct (save _ (dsk w) k) as [d [e|]]; [destruct H as [[E _] _]; simpl in *; by rewrite E|].
  apply list_find_Some in F as (Hi & _). apply cfg_ok_with_Ingests; [done|].
  destruct Hok as (_&_&_&_&_&Hall). apply Forall_insert; [done|].
  exact (Forall_lookup_1 _ _ _ _ Hall Hi).
Qed.

Ltac same_fields w :=
  destruct (save _ (dsk w) _) as [? [?|]]; simpl; by eapply cfg_ok_same_fields.

Lemma apply_op_cfg_ok w k o : cfg_ok (cfg w) -> cfg_ok (cfg (apply_op w k o).1).
Proof.
  intros Hok. destruct o; cbn [apply_op].
  - unfold SetPublicHost. destruct (String.eqb _ _); [done|]. same_fields w.
  - unfold SetAutostart. same_fields w.
  - pose proof (AddIngest_cfg_ok w k label r1 r2 r3 Hok). by destruct (AddIngest _ _ _ _ _ _).
  - pose proof (ReplaceIngests_cfg_ok w k next Hok). by destruct (ReplaceIngests _ _ _).
  - by apply RemoveIngest_cfg_ok.
  - apply update_cfg_ok; [|done]. by intros i.
  - apply update_cfg_ok; [|done]. by intros i.
  - apply update_cfg_ok; [|done]. intros i. unfold ingest_ok. simpl.
    pose proof (keepCodecs_facts codecs). tauto.
  - apply update_cfg_ok; [|done]. intros i (_&_&?). unfold ingest_ok. simpl.
    split_and!; try apply clampDelay_range; try apply DynamicDelay.Normalize_idem; tauto.
  - apply update_cfg_ok; [|done]. intros i (?&_&?). unfold ingest_ok. simpl.
    split_and!; try apply DynamicDelay.Normalize_idem; tauto.
  - pose proof (ResetSenderKey_cfg_ok w k id r Hok). by destruct (ResetSenderKey _ _ _ _).
  - unfold CreateControlToken. destruct (negb _); [done|]. destruct r; [|done].
    same_fields w.
  - unfold SetControlAccess. cases_if; [same_fields w|same_fields w|done].
Qed.

(** A run of setters, each with its own fate of the save. *)
Fixpoint apply_ops (w : world) (ops : list (calls * op)) : world :=
  match ops with
  | [] => w
  | (k, o) :: ops => apply_ops (apply_op w k o).1 ops
  end.

Lemma apply_ops_cfg_ok ops w : cfg_ok (cfg w) -> cfg_ok (cfg (apply_ops w ops)).
Proof. revert w. induction ops as [|[k o] ops IH]; simpl; auto using apply_op_cfg_ok. Qed.

Lemma Load_cfg_ok dirOK r d k c d' err : Load dirOK r d k = (Some c, d', err) -> cfg_ok c.
Proof.
  unfold Load. destruct dirOK; [|done]. destruct r as [| | |doc]; simpl; [|done|done|].
  - destruct (save _ _ _). intros [= <- _ _]. unfold cfg_ok. simpl. by split_and!.
  - destruct (_ <? _); [done|]. intros [= <- _ _]. apply normalise_ok.
Qed.

(** ** Keys *)
Lemma hex_digit_value n : 0 <= n < 16 ->
  hex_value (hex_digit n) = Some n /\ lower_ascii (hex_digit n) = hex_digit n.
Proof.
  intros. assert (n ∈ seqZ 0 16) as Hn by (apply elem_of_seqZ; lia).
  clear H. revert n Hn. apply Forall_forall. vm_compute. repeat constructor.
Qed.

Lemma hex_value_digit a x :
  hex_value a = Some x -> lower_ascii a = a -> 0 <= x < 16 /\ hex_digit x = a.
Proof.
  destruct a as [[] [] [] [] [] [] [] []]; vm_compute; intros [= <-]; (discriminate || by split).
Qed.

Lemma byte_halves b : is_byte b ->
  0 <= Z.shiftr b 4 < 16 /\ 0 <= Z.land b 15 < 16 /\ Z.shiftr b 4 * 16 + Z.land b 15 = b.
Proof.
  unfold is_byte. intros. rewrite Z.shiftr_div_pow2 by lia. change 15 with (Z.ones 4).
  rewrite Z.land_ones by lia. change (2 ^ 4) with 16. Z.div_mod_to_equations. lia.
Qed.

Lemma halves_byte x y : 0 <= x < 16 -> 0 <= y < 16 ->
  is_byte (x * 16 + y) /\ Z.shiftr (x * 16 + y) 4 = x /\ Z.land (x * 16 + y) 15 = y.
Proof.
  unfold is_byte. intros. rewrite Z.shiftr_div_pow2 by lia. change 15 with (Z.ones 4).
  rewrite Z.land_ones by lia. change (2 ^ 4) with 16. Z.div_mod_to_equations. lia.
Qed.

Lemma Encode_facts bs : Forall is_byte bs ->
  DecodeString (EncodeToString bs) = Some bs
  /\ ToLower (EncodeToString bs) = EncodeToString bs
  /\ String.length (EncodeToString bs) = (2 * length bs)%nat.
Proof.
  induction 1 as [|b bs Hb _ (IHd & IHl & IHn)]; [done|].
  destruct (byte_halves b Hb) as (H1 & H2 & H3). cbn [EncodeToString DecodeString ToLower].
  destruct (hex_digit_value _ H1) as [-> ->]. destruct (hex_digit_value _ H2) as [-> ->].
  rewrite IHd, IHl. obind. rewrite H3. split_and!; [done|done|]. simpl. lia.
Qed.

(** Induction two characters at a time, as [hex.DecodeString] reads them. *)
Lemma string_ind2 (P : string -> Prop) :
  P "" -> (forall a, P (String a "")) -> (forall a b s, P s -> P (String a (String b s))) ->
  forall s, P s.
Proof.
  intros H0 H1 H2. assert (forall s, P s /\ forall a, P (String a s)) as H; [|apply H].
  induction s as [|b s [IH1 IH2]]; auto.
Qed.

Lemma Decode_Encode s bs : DecodeString s = Some bs -> ToLower s = s ->
  Forall is_byte bs /\ EncodeToString bs = s.
Proof.
  revert bs. induction s as [|a|a b s IH] using string_ind2; intros bs; cbn [DecodeString].
  - intros [= <-] _. split; [constructor|done].
  - done.
  - destruct (hex_value a) as [x|] eqn:Ea; [|done]. destruct (hex_value b) as [y|] eqn:Eb; [|done].
    destruct (DecodeString s) as [l|]; [|done]. obind. intros [= <-] [= La Lb Ls].
    destruct (hex_value_digit a x Ea La) as [Hx Dx]. destruct (hex_value_digit b y Eb Lb) as [Hy Dy].
    destruct (halves_byte x y Hx Hy) as (Hb & E1 & E2). destruct (IH l eq_refl Ls) as [Hl El].
    split; [by constructor|]. cbn [EncodeToString]. by rewrite E1, E2, Dx, Dy, El.
Qed.

Lemma ToLower_app p s : ToLower (p +:+ s) = ToLower p +:+ ToLower s.
Proof. induction p as [|a p IH]; [done|]. rewrite string_app_cons. cbn. by rewrite IH. Qed.

Lemma string_drop_app p s : string_drop (String.length p) (p +:+ s) = s.
Proof. induction p as [|a p IH]; [by destruct s|]. rewrite string_app_cons. cbn. by rewrite IH. Qed.

Lemma string_length_app p s : String.length (p +:+ s) = (String.length p + String.length s)%nat.
Proof. induction p as [|a p IH]; [done|]. rewrite string_app_cons. cbn. by rewrite IH. Qed.

Lemma string_app_inj p s t : p +:+ s = p +:+ t -> s = t.
Proof. induction p as [|a p IH]; [done|]. rewrite !string_app_cons. intros [= E]. auto. Qed.

Lemma validKey_iff p key : ToLower p = p ->
  validKey p key = true <->
  exists bs, Forall is_byte bs /\ length bs = keyBytes /\ newKey p (Some bs) = inl key.
Proof.
  intros Hp. unfold validKey, newKey. split.
  - destruct (_ =? _)%nat eqn:Hlen; [|done]. apply Nat.eqb_eq in Hlen. cbn [negb].
    destruct (HasPrefix key p) eqn:Hpre; [|done]. cbn [negb].
    apply HasPrefix_spec in Hpre as [s ->]. rewrite string_drop_app.
    destruct (DecodeString _) as [bs|] eqn:Hd; [|done].
    intros Heq. apply String.eqb_eq in Heq. rewrite ToLower_app, Hp in Heq.
    apply string_app_inj in Heq. rewrite <-Heq in Hd.
    destruct (Decode_Encode s bs Hd (eq_sym Heq)) as [Hb He].
    exists bs. split_and!; [done| |by rewrite He].
    rewrite string_length_app, <-He in Hlen. pose proof (Encode_facts bs Hb) as (_ & _ & Hn). lia.
  - intros (bs & Hb & Hl & [= <-]). destruct (Encode_facts bs Hb) as (Hd & Hlow & Hn).
    rewrite string_length_app, Hn, Hl, Nat.eqb_refl. cbn [negb].
    rewrite HasPrefix_app. cbn [negb]. rewrite string_drop_app, Hlow, Hd, ToLower_app, Hp, Hlow.
    apply String.eqb_refl.
Qed.

(** ** Resolving keys *)
Lemma resolve_miss key l acc : key ∉ keys l -> fold_left (resolve_step key) l acc = acc.
Proof.
  revert acc. induction l as [|i l IH]; intros acc Hk; [done|].
  cbn in Hk. rewrite !not_elem_of_cons in Hk. destruct Hk as (Hs & Hr & Hk).
  cbn [fold_left]. unfold resolve_step at 2.
  rewrite (proj2 (String.eqb_neq _ _) Hs), (proj2 (String.eqb_neq _ _) Hr). auto.
Qed.

Lemma keys_app l l' : keys (l ++ l') = keys l ++ keys l'.
Proof. apply bind_app. Qed.

Lemma keys_cons i l : keys (i :: l) = SenderKey i :: ReceiverKey i :: keys l.
Proof. done. Qed.

Lemma Resolve_hit c i role key :
  NoDup (keys (Ingests c)) -> i ∈ Ingests c ->
  (role = RoleSender /\ key = SenderKey i \/ role = RoleReceiver /\ key = ReceiverKey i) ->
  Resolve c key = (i, role).
Proof.
  intros Hnd Hi Hkey. apply list_elem_of_split in Hi as (l1 & l2 & E). unfold Resolve.
  rewrite E in *. rewrite keys_app in Hnd. apply NoDup_app in Hnd as (_ & H1 & H2).
  cbn in H2. rewrite !NoDup_cons, not_elem_of_cons in H2. destruct H2 as ((Hsr & Hs) & Hr & _).
  assert (key ∉ keys l1) by (intros Hin; apply (H1 _ Hin); cbn; rewrite !elem_of_cons;
      destruct Hkey as [[_ ->]|[_ ->]]; auto).
  rewrite fold_left_app, (resolve_miss _ l1) by done. cbn [fold_left].
  rewrite resolve_miss by (by destruct Hkey as [[_ ->]|[_ ->]]).
  unfold resolve_step. destruct Hkey as [[-> ->]|[-> ->]]; rewrite ?String.eqb_refl; [|done].
  by rewrite (proj2 (String.eqb_neq _ _) Hsr).
Qed.

Lemma elem_of_keys key l :
  key ∈ keys l <-> exists i, i ∈ l /\ (key = SenderKey i \/ key = ReceiverKey i).
Proof.
  unfold keys. rewrite list_elem_of_bind. split.
  - intros (i & Hk & Hi). exists i. split; [done|]. set_solver.
  - intros (i & Hi & Hk). exists i. split; [set_solver|done].
Qed.

Lemma validateIngest_spec seen i seen' :
  validateIngest seen i = inl seen' ->
  ID i <> "" /\ validKey SenderPrefix (SenderKey i) = true
  /\ validKey ReceiverPrefix (ReceiverKey i) = true
  /\ NoDup [ID i; SenderKey i; ReceiverKey i]
  /\ (forall k, k ∈ [ID i; SenderKey i; ReceiverKey i] -> k ∉ seen)
  /\ seen' = {[ReceiverKey i]} ∪ ({[SenderKey i]} ∪ ({[ID i]} ∪ seen)).
Proof.
  unfold validateIngest. destruct (String.eqb _ _) eqn:Hid; [done|].
  destruct (decide (ID i ∈ seen)); [done|]. destruct (negb _ || negb _) eqn:Hv; [done|].
  destruct (decide (SenderKey i ∈ _)); [done|]. destruct (decide (ReceiverKey i ∈ _)); [done|].
  intros [= <-]. bool_hyps. rewrite !NoDup_cons. split_and!; auto; try set_solver.
  apply NoDup_nil_2.
Qed.

Lemma validate_from_ok l seen :
  validate_from seen l = None ->
  list_ok l /\ (forall i k, i ∈ l -> k ∈ [ID i; SenderKey i; ReceiverKey i] -> k ∉ seen).
Proof.
  revert seen. induction l as [|i l IH]; intros seen; cbn [validate_from].
  { intros _. split; [split_and!; constructor|set_solver]. }
  destruct (validateIngest seen i) as [seen'|] eqn:Hi; [|done]. intros Hl.
  apply validateIngest_spec in Hi as (Hid & Hs & Hr & Hnd & Hout & ->).
  destruct (IH _ Hl) as ((Hids & Hkeys & Hall) & Hseen).
  assert (Hnew : forall j k k', j ∈ l -> k ∈ [ID j; SenderKey j; ReceiverKey j] ->
            k' ∈ [ID i; SenderKey i; ReceiverKey i] -> k <> k').
  { intros j k k' Hj Hk Hk' ->. apply (Hseen j k' Hj Hk). set_solver. }
  split; [split_and!|].
  - cbn. apply NoDup_cons. split; [|done]. intros (j & E & Hj)%list_elem_of_fmap.
    by apply (Hnew j (ID i) (ID i) Hj); [rewrite E; set_solver|set_solver|].
  - assert (Hk : forall k', k' ∈ [SenderKey i; ReceiverKey i] -> k' ∉ keys l).
    { intros k' Hk' (j & Hj & Hk)%elem_of_keys. apply (Hnew j k' k' Hj); [|set_solver|done].
      destruct Hk as [->| ->]; set_solver. }
    cbn. rewrite !NoDup_cons, not_elem_of_cons. rewrite !NoDup_cons in Hnd.
    split_and!; [set_solver|apply Hk; set_solver|apply Hk; set_solver|done].
  - by constructor.
  - intros j k [->|Hj]%elem_of_cons Hk; [by apply Hout|].
    intros Hin. apply (Hseen j k Hj Hk). set_solver.
Qed.

(** Normalising a camera leaves what identifies it alone. *)
Lemma list_ok_normalise c l : list_ok l -> list_ok (normaliseIngest c <$> l).
Proof.
  unfold list_ok. assert (keys (normaliseIngest c <$> l) = keys l) as ->.
  { induction l as [|i l IH]; [done|]. by rewrite fmap_cons, !keys_cons, IH. }
  rewrite <-list_fmap_compose, Forall_fmap. done.
Qed.

Lemma ReplaceIngests_ok w k next w' stale :
  ReplaceIngests w k next = (w', inl stale) ->
  list_ok next /\ stale = staleIngests (Ingests (cfg w)) next
  /\ cfg w' = with_Ingests (cfg w) (normaliseIngest (cfg w) <$> next).
Proof.
  unfold ReplaceIngests. destruct (validateIngests next) eqn:Hv; [done|].
  destruct (save _ _ _) as [d [e|]]; [done|]. intros [= <- <-].
  split; [by apply (validate_from_ok next ∅)|done].
Qed.

Lemma validKey_nonempty p : validKey p "" = false.
Proof. unfold validKey. simpl. by rewrite Nat.add_comm. Qed.

Lemma NoDup_fmap_elem {A B} (f : A -> B) l x y :
  NoDup (f <$> l) -> x ∈ l -> y ∈ l -> f x = f y -> x = y.
Proof.
  intros Hnd Hx Hy E. apply list_elem_of_lookup in Hx as [i Hi]. apply list_elem_of_lookup in Hy as [j Hj].
  assert (i = j) as ->; [|congruence].
  apply (NoDup_lookup (f <$> l) i j (f x) Hnd); rewrite list_lookup_fmap, ?Hi, ?Hj; simpl; congruence.
Qed.

(** A camera is kept, as a session sees it, when it is not stale. *)
Lemma kept_iff c next was :
  NoDup (ID <$> next) ->
  isStale next was <> false <->
  ~ exists now, now ∈ normaliseIngest c <$> next /\ ID now = ID was
      /\ SenderKey now = SenderKey was /\ ReceiverKey now = ReceiverKey was
      /\ Codecs now = Codecs was.
Proof.
  intros Hnd. apply not_iff_compat. unfold isStale. destruct (list_find _ _) as [[n i]|] eqn:F.
  - apply list_find_Some in F as (Hi & E & _). apply list_elem_of_lookup_2 in Hi. split.
    + intros Hs. bool_hyps. apply bool_decide_eq_true in H0. exists (normaliseIngest c i).
      split_and!; auto. by apply list_elem_of_fmap_2.
    + intros (now & (i' & -> & Hi')%list_elem_of_fmap & E' & Es & Er & Ec). simpl in *.
      assert (i' = i) as -> by (apply (NoDup_fmap_elem ID next); auto; congruence).
      by rewrite Es, Er, Ec, !String.eqb_refl, bool_decide_true.
  - apply list_find_None in F. split; [done|].
    intros (now & (i' & -> & Hi')%list_elem_of_fmap & E' & _). simpl in *.
    rewrite Forall_forall in F. by destruct (F i').
Qed.

(** ** Sync groups *)
Lemma find_ID c i : NoDup (ID <$> Ingests c) -> i ∈ Ingests c ->
  exists n, list_find (λ j, ID j = ID i) (Ingests c) = Some (n, i).
Proof.
  intros Hnd Hi. destruct (list_find_elem_of (λ j, ID j = ID i) _ _ Hi eq_refl) as [[n j] F].
  exists n. rewrite F. apply list_find_Some in F as (Hj & E & _).
  apply list_elem_of_lookup_2 in Hj. do 2 f_equal. by apply (NoDup_fmap_elem ID (Ingests c)).
Qed.

Definition larger (group : string) (own : Z) (i : Ingest) : Z :=
  if String.eqb (SyncGroup i) group && (own <? DelayMS i) then DelayMS i else own.

Lemma fold_larger group l own :
  let r := fold_left (larger group) l own in
  own <= r
  /\ (forall j, j ∈ l -> SyncGroup j = group -> DelayMS j <= r)
  /\ (r = own \/ exists m, m ∈ l /\ SyncGroup m = group /\ r = DelayMS m).
Proof.
  revert own. induction l as [|i l IH]; intros own; simpl; [split_and!; [lia|set_solver|auto]|].
  destruct (IH (larger group own i)) as (H1 & H2 & H3).
  assert (own <= larger group own i) by (unfold larger; destruct (_ && _) eqn:E; bool_hyps; lia).
  split_and!; [lia| |].
  - intros j [->|Hj]%elem_of_cons Hg; [|auto]. etrans; [|exact H1]. unfold larger.
    rewrite Hg, String.eqb_refl. simpl. destruct (own <? DelayMS i) eqn:E; lia.
  - destruct H3 as [E|(m & Hm & Hg & E)].
    + rewrite E. unfold larger. destruct (_ && _) eqn:Eb; [|auto]. bool_hyps.
      right. exists i. split_and!; [constructor|done|done].
    + right. exists m. split_and!; [by constructor|done|done].
Qed.

Lemma EffectiveDelay_spec c i :
  NoDup (ID <$> Ingests c) -> i ∈ Ingests c ->
  (SyncGroup i = "" -> EffectiveDelay c (ID i) = DelayMS i)
  /\ (SyncGroup i <> "" -> forall j, j ∈ Ingests c -> SyncGroup j = SyncGroup i ->
        DelayMS j <= EffectiveDelay c (ID i))
  /\ exists m, m ∈ Ingests c /\ SyncGroup m = SyncGroup i /\ EffectiveDelay c (ID i) = DelayMS m.
Proof.
  intros Hnd Hi. destruct (find_ID c i Hnd Hi) as [n F]. unfold EffectiveDelay. rewrite F.
  destruct (String.eqb (SyncGroup i) "") eqn:E; bool_hyps.
  - split_and!; [done|done|by exists i].
  - destruct (fold_larger (SyncGroup i) (Ingests c) (DelayMS i)) as (H1 & H2 & H3).
    split_and!; [done|auto|]. destruct H3 as [H3|H3]; [exists i|exact H3].
    by split_and!.
Qed.

(** C9: every setter is a transaction.  When it returns an error (an invalid
    argument, an unknown camera, a failed draw of random bytes, or any call of
    the save failing) the configuration in memory is the one before and so is
    the file; when it succeeds it was a no-op or the file holds exactly the
    configuration now in memory.  The temporary file, which [CreateTemp] gives a
    name no other has, is gone afterwards, unless the save failed and removing
    the temporary file failed as well (an error the code discards): then that
    file, and no other, is left behind. *)
Theorem setters_transactional (w : world) (k : calls) (o : op) :
  let '(w', err) := apply_op w k o in saved k w w' err.
Proof.
  destruct o; cbn [apply_op].
  - apply SetPublicHost_saved.
  - apply SetAutostart_saved.
  - pose proof (AddIngest_saved w k label r1 r2 r3). by destruct (AddIngest _ _ _ _ _ _).
  - pose proof (ReplaceIngests_saved w k next). by destruct (ReplaceIngests _ _ _).
  - apply RemoveIngest_saved.
  - apply update_saved.
  - apply update_saved.
  - apply update_saved.
  - apply update_saved.
  - apply update_saved.
  - pose proof (ResetSenderKey_saved w k id r). by destruct (ResetSenderKey _ _ _ _).
  - pose proof (CreateControlToken_saved w k r). by destruct (CreateControlToken _ _ _).
  - apply SetControlAccess_saved.
Qed.

(** C24: whatever the file said and whatever setters then ran, with whatever
    saves failing, the configuration in memory is valid: schema version and
    ports set, the floor within 0..10000 ms, and every camera with a delay
    between the floor and 10000 ms, a normalised delay policy and a non-empty
    codec set in preference order; and loading it back from its own file
    changes nothing (once the control port has been set). *)
Theorem config_always_valid dirOK r d k c d' err (ops : list (calls * op)) :
  Load dirOK r d k = (Some c, d', err) ->
  let c' := cfg (apply_ops (mkWorld c d') ops) in
  cfg_ok c'
  /\ (ControlPort c' <> 0 -> Load true (ReadDoc c') d k = (Some c', d, None)).
Proof.
  intros HL c'. assert (Hok : cfg_ok c') by (apply apply_ops_cfg_ok; by eapply Load_cfg_ok).
  split; [done|]. intros Hport. unfold Load. rewrite normalise_id by done.
  by destruct Hok as (-> & _).
Qed.

(** C17: a crash between any two calls of a save leaves the file whole: at
    every moment it is the file before the save or exactly the configuration
    being saved, never a partial write. *)
Theorem save_crash_safe (c : Cfg) (d : disk) (k : calls) :
  let '(trace, final, err) := saveLocked c d k in
  Forall (λ d', main d' = main d \/ main d' = Some (Whole c)) (trace ++ [final])
  /\ (err = None <-> mkdirOK k && marshalOK k && tempOK k && writeOK k && syncOK k
                     && closeOK k && renameOK k = true).
Proof.
  unfold saveLocked.
  destruct (mkdirOK k), (marshalOK k), (tempOK k), (writeOK k), (syncOK k), (closeOK k), (renameOK k), (removeOK k);
    split; try (by repeat constructor; auto); split; done.
Qed.

(** After a list is installed, keys resolve exactly: a camera's sender key
    resolves to that camera as sender, its receiver key to it as receiver, and
    any other string, the empty one included, to no camera. *)
Theorem replaced_keys_resolve w k next w' stale :
  ReplaceIngests w k next = (w', inl stale) ->
  (forall i, i ∈ Ingests (cfg w') ->
     Resolve (cfg w') (SenderKey i) = (i, RoleSender)
     /\ Resolve (cfg w') (ReceiverKey i) = (i, RoleReceiver))
  /\ (forall key, (forall i, i ∈ Ingests (cfg w') -> key <> SenderKey i /\ key <> ReceiverKey i) ->
        Resolve (cfg w') key = (zeroIngest, RoleNone))
  /\ Resolve (cfg w') "" = (zeroIngest, RoleNone).
Proof.
  intros H. apply ReplaceIngests_ok in H as (Hok & _ & Hcfg).
  apply (list_ok_normalise (cfg w)) in Hok as (_ & Hnd & Hall).
  assert (Hmiss : forall key, (forall i, i ∈ Ingests (cfg w') -> key <> SenderKey i /\ key <> ReceiverKey i) ->
            Resolve (cfg w') key = (zeroIngest, RoleNone)).
  { intros key Hkey. apply resolve_miss. intros (i & Hi & Hk)%elem_of_keys.
    destruct (Hkey i Hi). tauto. }
  rewrite Hcfg in *. split; [|split; [done|]].
  - intros i Hi. split; (apply Resolve_hit; [done|done|tauto]).
  - apply Hmiss. intros i Hi. rewrite Forall_forall in Hall.
    destruct (Hall i Hi) as (_ & Hs & Hr).
    split; intros E; rewrite <-E, validKey_nonempty in *; discriminate.
Qed.

(** The cameras reported stale are exactly those that lost something a
    live session rests on: a camera is reported when, and only when, the new
    list has no camera with its identifier, both of its keys and its codecs.
    So no session outlives the key it was opened with, and no camera that was
    left alone is interrupted. *)
Theorem stale_cameras_exact w k next w' stale was :
  ReplaceIngests w k next = (w', inl stale) ->
  NoDup (ID <$> Ingests (cfg w)) -> was ∈ Ingests (cfg w) ->
  ID was ∈ stale <->
  ~ exists now, now ∈ Ingests (cfg w') /\ ID now = ID was /\ SenderKey now = SenderKey was
      /\ ReceiverKey now = ReceiverKey was /\ Codecs now = Codecs was.
Proof.
  intros H Hids Hwas. apply ReplaceIngests_ok in H as ((Hnext & _) & -> & Hcfg).
  rewrite Hcfg. cbn [Ingests with_Ingests]. rewrite <-(kept_iff (cfg w) next was Hnext).
  unfold staleIngests. rewrite list_elem_of_fmap. split.
  - intros (was' & E & [Hs Hin]%list_elem_of_filter).
    assert (was' = was) as ->; [|by rewrite Hs].
    by apply (NoDup_fmap_elem ID (Ingests (cfg w))).
  - intros Hs. exists was. split; [done|]. apply list_elem_of_filter. split; [|done].
    by destruct (isStale next was).
Qed.

(** A sync group plays out together: its members share one delay, the
    largest any of them asks for, and each is listed among the peers of the
    others, so a change of one retargets all; a camera outside a group has its
    own delay and is its only peer.  The delay stays within the limits. *)
Theorem sync_group_shares_delay (c : Cfg) (i j : Ingest) :
  cfg_ok c -> NoDup (ID <$> Ingests c) -> i ∈ Ingests c -> j ∈ Ingests c ->
  clampFloor (FloorMS c) <= EffectiveDelay c (ID i) <= DelayMaxMS
  /\ (SyncGroup i = "" -> EffectiveDelay c (ID i) = DelayMS i /\ GroupPeers c (ID i) = [ID i])
  /\ (SyncGroup i <> "" -> SyncGroup j = SyncGroup i ->
      EffectiveDelay c (ID j) = EffectiveDelay c (ID i)
      /\ DelayMS j <= EffectiveDelay c (ID i)
      /\ GroupPeers c (ID j) = GroupPeers c (ID i) /\ ID j ∈ GroupPeers c (ID i))
  /\ exists m, m ∈ Ingests c /\ SyncGroup m = SyncGroup i /\ EffectiveDelay c (ID i) = DelayMS m.
Proof.
  intros Hok Hnd Hi Hj. destruct (EffectiveDelay_spec c i Hnd Hi) as (Hown & Hmax & m & Hm & Hmg & Em).
  destruct (find_ID c i Hnd Hi) as [ni Fi]. destruct (find_ID c j Hnd Hj) as [nj Fj].
  split_and!.
  - rewrite Em. destruct Hok as (_&_&_&_&_&Hall). rewrite Forall_forall in Hall. by apply Hall.
  - rewrite Em. destruct Hok as (_&_&_&_&_&Hall). rewrite Forall_forall in Hall. by apply Hall.
  - intros E. split; [auto|]. unfold GroupPeers. by rewrite Fi, E.
  - intros Hg E. destruct (EffectiveDelay_spec c j Hnd Hj) as (_ & Hmax' & m' & Hm' & Hmg' & Em').
    assert (Hg' : SyncGroup j <> "") by congruence. split_and!.
    + apply Z.le_antisymm; [rewrite Em'|rewrite Em]; [apply Hmax|apply Hmax']; congruence.
    + by apply Hmax.
    + unfold GroupPeers. by rewrite Fi, Fj, E, (proj2 (String.eqb_neq _ _) Hg).
    + unfold GroupPeers. rewrite Fi.
      rewrite (proj2 (String.eqb_neq _ _) Hg). apply list_elem_of_fmap_2.
      by apply list_elem_of_filter.
  - eauto.
Qed.

(** A key is accepted exactly when it is one [newKey] makes: the prefix and
    the lower-case hexadecimal of sixteen bytes, and distinct bytes give
    distinct keys. *)
Theorem validKey_exact (p key : string) :
  p ∈ [SenderPrefix; ReceiverPrefix; ""] ->
  validKey p key = true <->
  exists! bs, Forall is_byte bs /\ length bs = keyBytes /\ newKey p (Some bs) = inl key.
Proof.
  intros Hp. assert (ToLower p = p) as Hlow.
  { rewrite !elem_of_cons in Hp. destruct Hp as [->|[->|[->|?%elem_of_nil]]]; done. }
  rewrite (validKey_iff p key Hlow). split.
  - intros (bs & Hb & Hl & Hk). exists bs. split; [done|]. intros bs' (Hb' & _ & Hk').
    rewrite <-Hk in Hk'. injection Hk' as E%string_app_inj.
    destruct (Encode_facts bs Hb) as [D _]. destruct (Encode_facts bs' Hb') as [D' _].
    rewrite E in D'. congruence.
  - intros (bs & Hbs & _). by exists bs.
Qed.

(** ** Witnesses *)

(** Saves that all succeed, an empty disk, and two cameras of one group. *)
Definition goodCalls : calls := mkCalls true true true true true true true true ".config-1.tmp".

Definition emptyDisk : disk := mkDisk None ∅.

Definition camera (n : Z) (id group : string) (delay : Z) : Ingest :=
  let key p b := p +:+ EncodeToString (replicate keyBytes b) in
  mkIngest DynamicDelay.zeroOptions id "cam" (key SenderPrefix n) (key ReceiverPrefix (n + 1))
    ["av1"; "h264"; "vp8"] delay group.

Definition twoCameras : list Ingest := [camera 16 "a" "stage" 2500; camera 32 "b" "stage" 99999].

Definition startWorld : world := mkWorld defaultCfg emptyDisk.

Definition twoWorld : world := (ReplaceIngests startWorld goodCalls twoCameras).1.

(** A save that fails and cannot remove its temporary file leaves it. *)
Example leftover_temporary_file :
  let k := mkCalls true true true true false true true false ".config-2.tmp" in
  let '(w', err) := SetAutostart startWorld k true in
  err = Some ErrWriteConfig /\ cfg w' = cfg startWorld /\ is_Some (temps (dsk w') !! ".config-2.tmp").
Proof. vm_compute. split_and!; [reflexivity|reflexivity|eauto]. Qed.

Lemma config_always_valid_witness :
  let ops := [(goodCalls, OReplaceIngests twoCameras);
              (goodCalls, OSetDelay "a" (-5));
              (mkCalls true true true true false true true true "t", ORemoveIngest "a")] in
  exists c, Load true ReadNotExist emptyDisk goodCalls
            = (Some c, mkDisk (Some (Whole c)) ∅, None)
    /\ cfg_ok (cfg (apply_ops (mkWorld c (mkDisk (Some (Whole c)) ∅)) ops))
    /\ (DelayMS <$> Ingests (cfg (apply_ops (mkWorld c (mkDisk (Some (Whole c)) ∅)) ops)))
       = [0; 10000].
Proof.
  intros ops. exists defaultCfg. split; [reflexivity|]. split; [|vm_compute; reflexivity].
  apply (config_always_valid true ReadNotExist emptyDisk goodCalls defaultCfg _ None ops).
  reflexivity.
Defined.

Lemma replaced_keys_resolve_witness :
  (Resolve (cfg twoWorld) "s_10101010101010101010101010101010").2 = RoleSender
  /\ (Resolve (cfg twoWorld) "r_21212121212121212121212121212121").2 = RoleReceiver
  /\ Resolve (cfg twoWorld) "" = (zeroIngest, RoleNone).
Proof.
  split; [vm_compute; reflexivity|]. split; [vm_compute; reflexivity|].
  apply (replaced_keys_resolve startWorld goodCalls twoCameras twoWorld []).
  vm_compute. reflexivity.
Defined.

(** Camera [a] keeps its keys and codecs, camera [b] loses its receiver key. *)
Definition nextCameras : list Ingest :=
  [camera 16 "a" "" 0;
   let b := camera 32 "b" "stage" 0 in
   mkIngest (Opts b) (ID b) (Label b) (SenderKey b) (ReceiverPrefix +:+ EncodeToString (replicate keyBytes 77))
     (Codecs b) 0 ""].

Lemma stale_cameras_exact_witness :
  (ReplaceIngests twoWorld goodCalls nextCameras).2 = inl ["b"]
  /\ exists was, was ∈ Ingests (cfg twoWorld) /\ ID was = "b" /\
  ~ exists now, now ∈ Ingests (cfg (ReplaceIngests twoWorld goodCalls nextCameras).1)
      /\ ID now = ID was /\ SenderKey now = SenderKey was
      /\ ReceiverKey now = ReceiverKey was /\ Codecs now = Codecs was.
Proof.
  split; [vm_compute; reflexivity|].
  exists (normaliseIngest defaultCfg (camera 32 "b" "stage" 99999)).
  split; [right; left|]. split; [reflexivity|].
  apply (stale_cameras_exact twoWorld goodCalls nextCameras _ ["b"]).
  - vm_compute. reflexivity.
  - apply (bool_decide_eq_true_1 _). vm_compute. reflexivity.
  - right. left.
  - left.
Defined.

Lemma sync_group_shares_delay_witness :
  EffectiveDelay (cfg twoWorld) "a" = 10000 /\ EffectiveDelay (cfg twoWorld) "b" = 10000
  /\ "b" ∈ GroupPeers (cfg twoWorld) "a".
Proof.
  assert (Hok : cfg_ok (cfg twoWorld)).
  { change twoWorld with (apply_ops startWorld [(goodCalls, OReplaceIngests twoCameras)]).
    apply apply_ops_cfg_ok, (Load_cfg_ok true ReadNotExist emptyDisk goodCalls _ (mkDisk (Some (Whole defaultCfg)) ∅) None).
    reflexivity. }
  split; [vm_compute; reflexivity|]. split; [vm_compute; reflexivity|].
  apply (sync_group_shares_delay (cfg twoWorld)
           (normaliseIngest defaultCfg (camera 16 "a" "stage" 2500))
           (normaliseIngest defaultCfg (camera 32 "b" "stage" 99999)) Hok).
  - apply (bool_decide_eq_true_1 _). vm_compute. reflexivity.
  - left.
  - right. left.
  - discriminate.
  - reflexivity.
Defined.

Lemma validKey_exact_witness :
  validKey SenderPrefix "s_000102030405060708090a0b0c0d0eff" = true
  /\ validKey SenderPrefix "s_000102030405060708090A0B0C0D0EFF" = false
  /\ exists! bs, Forall is_byte bs /\ length bs = keyBytes
       /\ newKey SenderPrefix (Some bs) = inl "s_000102030405060708090a0b0c0d0eff".
Proof.
  split; [vm_compute; reflexivity|]. split; [vm_compute; reflexivity|].
  apply (validKey_exact SenderPrefix); [left|vm_compute; reflexivity].
Defined.

(** A key some camera has resolves to a camera. *)
Lemma resolve_some key l acc :
  acc.2 <> RoleNone \/ key ∈ keys l -> (fold_left (resolve_step key) l acc).2 <> RoleNone.
Proof.
  revert acc. induction l as [|i l IH]; intros acc H; cbn [fold_left].
  { destruct H as [?|[]%not_elem_of_nil]. done. }
  apply IH. rewrite keys_cons, !elem_of_cons in H. unfold resolve_step.
  destruct (String.eqb_spec key (ReceiverKey i)); [by left|].
  destruct (String.eqb_spec key (SenderKey i)); [by left|]. tauto.
Qed.

(** Loading takes the keys of the file as they are.  A file of a known
    version loads into a valid configuration, and a string then resolves to a
    camera exactly when it is a key of some camera in the file: keys are not
    checked, so a camera written without a key is reached with the empty
    string. *)
Theorem loaded_keys_resolve_as_written file d k key :
  Version file <= CurrentVersion ->
  exists c, Load true (ReadDoc file) d k = (Some c, d, None) /\ cfg_ok c
    /\ ((Resolve c key).2 <> RoleNone <-> key ∈ keys (Ingests file)).
Proof.
  intros Hv. exists (normalise file). cbn [Load negb]. rewrite (proj2 (Z.ltb_ge _ _)) by done.
  split; [done|]. split; [apply normalise_ok|].
  assert (Hk : keys (Ingests (normalise file)) = keys (Ingests file)).
  { unfold normalise. cbn [Ingests with_Ingests]. generalize (Ingests file) at 2 3 as l.
    intros l. induction l as [|i l IH]; [done|]. rewrite fmap_cons, !keys_cons, IH. done. }
  rewrite <-Hk. unfold Resolve. split; [|intros ?; apply resolve_some; by right].
  intros Hr. destruct (decide (key ∈ keys (Ingests (normalise file)))) as [?|Hn]; [done|].
  by rewrite resolve_miss in Hr.
Qed.

Lemma loaded_keys_resolve_as_written_witness :
  let camera := mkIngest DynamicDelay.zeroOptions "a" "cam" "s_10101010101010101010101010101010" "" [] 0 "" in
  exists c, Load true (ReadDoc (with_Ingests defaultCfg [camera])) emptyDisk goodCalls = (Some c, emptyDisk, None)
    /\ cfg_ok c /\ (Resolve c "").2 <> RoleNone.
Proof.
  intros camera.
  destruct (loaded_keys_resolve_as_written (with_Ingests defaultCfg [camera]) emptyDisk goodCalls "") as (c & E & Hc & Hr).
  - vm_compute. discriminate.
  - exists c. split; [exact E|]. split; [exact Hc|]. apply Hr. right. left.
Defined.

End Config.
