(* ===== verification/Recovery.v ===== *)
(** * Packet recovery on the media socket
      ([src/internal/ingest/recovery.go], [recovery_mux.go], [delivery.go])

    Several sockets share one [recoveryState] behind one mutex; a method is one
    transition of the state and of the socket's own fields.  Addresses are their
    [String()].  Parameters stand for what is not in the repository: the STUN
    decoder (a decoded message, or none, is an argument), the rate limiter (its
    answer is an argument) and SHA-256.

    A Go map is iterated in an arbitrary order: where the order can be seen, it
    is an argument, a list of keys.  An index out of range is [None]. *)

From S2P Require Import Prelude.
From S2P Require Import Text.

Module Recovery.

Definition recoveryParityType : Z := 1.
Definition recoveryRequestType : Z := 2.
Definition recoveryHeaderSize : nat := 12.
Definition recoveryHistorySize : Z := 4096.
Definition recoveryGroupLimit : nat := 256.
Definition recoveryStreamLimit : nat := 256.
Definition recoveryRequestSize : nat := 32.
Definition recoveryRetry : duration := 50 * Millisecond.

Record recoveryPacketID := mkPid { pidRemote : string; pidSsrc : Z; pidSeq : Z }.
Record recoveryStreamID := mkSid { sidRemote : string; sidSsrc : Z }.
Record recoveryGroupID := mkGid { gidRemote : string; gidSsrc : Z; gidLast : Z }.
Record recoveryBindingID := mkBid { bidRemote : string; bidTransaction : list Z }.

#[export] Instance pid_eq_dec : EqDecision recoveryPacketID.
Proof. solve_decision. Defined.

#[export] Instance pid_countable : Countable recoveryPacketID.
Proof. by refine (inj_countable' (λ p, (pidRemote p, pidSsrc p, pidSeq p)) (λ '(a, b, c), mkPid a b c) _); intros []. Defined.

#[export] Instance sid_eq_dec : EqDecision recoveryStreamID.
Proof. solve_decision. Defined.

#[export] Instance sid_countable : Countable recoveryStreamID.
Proof. by refine (inj_countable' (λ p, (sidRemote p, sidSsrc p)) (λ '(a, b), mkSid a b) _); intros []. Defined.

#[export] Instance gid_eq_dec : EqDecision recoveryGroupID.
Proof. solve_decision. Defined.

#[export] Instance gid_countable : Countable recoveryGroupID.
Proof. by refine (inj_countable' (λ p, (gidRemote p, gidSsrc p, gidLast p)) (λ '(a, b, c), mkGid a b c) _); intros []. Defined.

#[export] Instance bid_eq_dec : EqDecision recoveryBindingID.
Proof. solve_decision. Defined.

#[export] Instance bid_countable : Countable recoveryBindingID.
Proof. by refine (inj_countable' (λ p, (bidRemote p, bidTransaction p)) (λ '(a, b), mkBid a b) _); intros []. Defined.

(** [addr] is [None] for the zero datagram. *)
Record recoveredDatagram := mkDatagram { dgData : list Z; dgAddr : option string; dgIdentity : string }.

Definition zeroDatagram : recoveredDatagram := mkDatagram [] None "".

Record recoveryStream := mkStream {
  highest : Z;
  based : bool;
  enabled : bool;
  missing : gmap Z time;
  lastTouched : time
}.

#[export] Instance eta_stream : Eta recoveryStream := fun s =>
  mkStream (highest s) (based s) (enabled s) (missing s) (lastTouched s).

Record recoveryEntry := mkEntry { entryId : recoveryPacketID; entryLength : Z }.

Record recoveryGroup := mkGroup { entries : list recoveryEntry; parity : list Z; groupRemote : string }.

Record deliveryBatch := mkBatch {
  batchIdentity : string;
  lastSent : time;
  tokens : list (list Z);          (* the array of eight tokens *)
  count : Z
}.

Record recoveryConn := mkConn {
  ready : list recoveredDatagram;
  pendingBindings : gmap recoveryBindingID string;
  identities : gmap string string;
  deliveries : gmap string deliveryBatch
}.

#[export] Instance eta_conn : Eta recoveryConn := fun c =>
  mkConn (ready c) (pendingBindings c) (identities c) (deliveries c).

Definition newConn : recoveryConn := mkConn [] ∅ ∅ ∅.

Record recoveryState := mkState {
  conns : list recoveryConn;
  active : option (gset string);
  packets : gmap recoveryPacketID (list Z);
  packetOrder : list recoveryPacketID;
  packetHead : nat;
  streams : gmap recoveryStreamID recoveryStream;
  groups : gmap recoveryGroupID recoveryGroup;
  groupOrder : list recoveryGroupID;
  groupHead : nat;
  packetsSince : Z
}.

#[export] Instance eta_state : Eta recoveryState := fun s =>
  mkState (conns s) (active s) (packets s) (packetOrder s) (packetHead s) (streams s) (groups s)
    (groupOrder s) (groupHead s) (packetsSince s).

Definition newRecoveryState : recoveryState := mkState [] None ∅ [] 0 ∅ ∅ [] 0 0.

(** [ListenUDP]: a wrapped socket joins the state. *)
Definition ListenUDP (s : recoveryState) : recoveryState := s <| conns := conns s ++ [newConn] |>.

(** The socket [i] replaced. *)
Definition setConn (s : recoveryState) (i : nat) (c : recoveryConn) : recoveryState :=
  s <| conns := <[i := c]> (conns s) |>.

(** ** Identities *)
Definition colon : Ascii.ascii := Ascii.ascii_of_nat 58.

(** The ufrag of an identity, [None] when it has no ICE form. *)
Definition ufragOf (identity : string) : option string :=
  username ← CutPrefix identity "ice:";
  let '(ufrag, rest) := Cut username colon in
  match rest with Some _ => Some ufrag | None => None end.

Definition activeIdentityLocked (s : recoveryState) (identity : string) : bool :=
  match active s with
  | None => true
  | Some act => match ufragOf identity with Some u => bool_decide (u ∈ act) | None => false end
  end.

Definition authenticatedIdentity (c : recoveryConn) (remote : string) : string :=
  match identities c !! remote with
  | Some u => if String.eqb u "" then "" else "ice:" +:+ u
  | None => ""
  end.

(** [identityLocked]; [local] is the socket's own address. *)
Definition identityLocked (c : recoveryConn) (local remote : string) : string :=
  match identities c !! remote with
  | Some u => if String.eqb u "" then local +:+ "|" +:+ remote else "ice:" +:+ u
  | None => local +:+ "|" +:+ remote
  end.

(** ** History *)

(** [for len(c.packets) > recoveryHistorySize { ... }]; the fuel is the number
    of entries in the order. *)
Fixpoint evictPackets (fuel : nat) (s : recoveryState) : option recoveryState :=
  if recoveryHistorySize <? Z.of_nat (size (packets s)) then
    match fuel with
    | O => None
    | S fuel =>
        id ← packetOrder s !! packetHead s;
        evictPackets fuel (s <| packets := delete id (packets s) |> <| packetHead := S (packetHead s) |>)
    end
  else Some s.

Definition storePacketLocked (s : recoveryState) (id : recoveryPacketID) (data : list Z) : option recoveryState :=
  match packets s !! id with
  | Some _ => Some s
  | None =>
      let s := s <| packets := <[id := data]> (packets s) |> <| packetOrder := packetOrder s ++ [id] |> in
      s ← evictPackets (length (packetOrder s)) s;
      Some (if recoveryHistorySize <=? Z.of_nat (packetHead s)
            then s <| packetOrder := drop (packetHead s) (packetOrder s) |> <| packetHead := 0%nat |>
            else s)
  end.

(** ** Streams *)

(** [trimOldestStreamLocked]; [order] is the order of the map iteration. *)
Definition oldestStep (ss : gmap recoveryStreamID recoveryStream)
    (acc : recoveryStreamID * time) (id : recoveryStreamID) : recoveryStreamID * time :=
  match ss !! id with
  | None => acc
  | Some st =>
      let '(oldestID, oldest) := acc in
      if IsZero oldest || Before (lastTouched st) oldest then (id, lastTouched st) else acc
  end.

Definition trimOldestStreamLocked (s : recoveryState) (order : list recoveryStreamID) : recoveryState :=
  let '(oldestID, _) := fold_left (oldestStep (streams s)) order (mkSid "" 0, zeroTime) in
  s <| streams := delete oldestID (streams s) |>.

Definition trimStreamsLocked (s : recoveryState) (now : time) : recoveryState :=
  s <| streams := filter (λ '(_, st), ~ (30 * Second < tsub now (lastTouched st))) (streams s) |>.

(** [streamLocked]: the state with the stream in it, and the stream. *)
Definition streamLocked (s : recoveryState) (id : recoveryStreamID) (now : time) (order : list recoveryStreamID)
  : recoveryState * recoveryStream :=
  match streams s !! id with
  | Some st => (s, st)
  | None =>
      let s := if (recoveryStreamLimit <=? size (streams s))%nat then trimOldestStreamLocked s order else s in
      let st := mkStream 0 false false ∅ now in
      (s <| streams := <[id := st]> (streams s) |>, st)
  end.

(** The last loop of [trackGapLocked], on the offsets from [start] below
    [delta]. *)
Definition addMissing (ps : gmap recoveryPacketID (list Z)) (id : recoveryPacketID) (top : Z)
    (ms : gmap Z time) (offset : Z) : gmap Z time :=
  let m := u16 (top + offset) in
  match ps !! mkPid (pidRemote id) (pidSsrc id) m with
  | Some _ => ms
  | None => match ms !! m with Some _ => ms | None => <[m := zeroTime]> ms end
  end.

Definition trackGapLocked (s : recoveryState) (id : recoveryPacketID) (st : recoveryStream) : recoveryStream :=
  let seq := pidSeq id in
  if negb (based st) then st <| highest := seq |> <| based := true |>
  else
    let delta := u16 (seq - highest st) in
    if (delta =? 0) || (32768 <=? delta) then st
    else
      let start := u16 (Z.max 1 (delta - recoveryHistorySize + 1)) in
      let ms :=
        if 1 <? delta
        then filter (λ '(m, _), ~ (recoveryHistorySize <= u16 (seq - m))) (missing st)
        else missing st in
      let ms := fold_left (addMissing (packets s) id (highest st)) (seqZ start (delta - start)) ms in
      st <| missing := ms |> <| highest := seq |>.

(** [dueRepairs]; [order] is the order of the map iteration.  The stream and
    the sequence numbers to ask for. *)
Fixpoint dueRepairs (st : recoveryStream) (now : time) (order : list Z) (due : list Z)
  : recoveryStream * list Z :=
  match order with
  | [] => (st, due)
  | m :: order =>
      match missing st !! m with
      | None => dueRepairs st now order due
      | Some requested =>
          let behind := u16 (highest st - m) in
          if based st && (recoveryHistorySize <=? behind) && (behind <? 32768)
          then dueRepairs (st <| missing := delete m (missing st) |>) now order due
          else if negb (IsZero requested) && (tsub now requested <? recoveryRetry)
          then dueRepairs st now order due
          else
            let st := st <| missing := <[m := now]> (missing st) |> in
            let due := due ++ [m] in
            if (length due =? recoveryRequestSize)%nat then (st, due)
            else dueRepairs st now order due
      end
  end.

(** ** Wire format *)
Definition magic : list Z := [87; 71; 82; 49].   (* "WGR1" *)

Definition hasRecoveryMagic (data : list Z) : bool :=
  (4 <=? length data)%nat && bool_decide (take 4 data = magic).

Definition makeRecoveryRequest (ssrc : Z) (seqs : list Z) : list Z :=
  match seqs with
  | [] => []
  | _ =>
      magic ++ [recoveryRequestType; u8 (Z.of_nat (length seqs)); 0; 0] ++ put32 ssrc
        ++ (seqs ≫= put16)
  end.

(** [binary.BigEndian.Uint16(data[off:off+2])] and [Uint32] *)
Definition get16 (data : list Z) (off : nat) : option Z :=
  a ← data !! off; b ← data !! S off; Some (be16 a b).

Definition get32 (data : list Z) (off : nat) : option Z :=
  a ← data !! off; b ← data !! S off; c ← data !! S (S off); d ← data !! S (S (S off)); Some (be32 a b c d).

(** The entries from [index] on; [Some None] refuses the datagram. *)
Fixpoint parseEntries (data : list Z) (remote : string) (ssrc : Z) (index n : nat) (maximum : Z)
  : option (option (list recoveryEntry * Z)) :=
  match n with
  | O => Some (Some ([], maximum))
  | S n =>
      let offset := (recoveryHeaderSize + index * 4)%nat in
      len ← get16 data (offset + 2);
      if len <? 12 then Some None
      else
        seq ← get16 data offset;
        rest ← parseEntries data remote ssrc (S index) n (Z.max maximum len);
        Some (match rest with
              | None => None
              | Some (es, m) => Some (mkEntry (mkPid remote ssrc seq) len :: es, m)
              end)
  end.

(** [parseRecoveryGroup]: [None] is a panic, [Some None] a refused datagram. *)
Definition parseRecoveryGroup (data : list Z) (remote : string)
  : option (option (recoveryGroup * recoveryGroupID)) :=
  if (length data <? recoveryHeaderSize)%nat then Some None
  else
    kind ← data !! 4%nat;
    if negb (kind =? recoveryParityType) then Some None
    else
      count ← data !! 5%nat;
      let entriesEnd := (recoveryHeaderSize + Z.to_nat count * 4)%nat in
      if (count <? 2) || (32 <? count) || (length data <? entriesEnd)%nat then Some None
      else
        ssrc ← get32 data 8;
        parsed ← parseEntries data remote ssrc 0 (Z.to_nat count) 0;
        match parsed with
        | None => Some None
        | Some (es, maximum) =>
            if (maximum =? 0) || negb (Z.of_nat (length data) =? Z.of_nat entriesEnd + maximum) then Some None
            else
              lastEntry ← last es;
              Some (Some (mkGroup es (drop entriesEnd data) remote,
                          mkGid remote ssrc (pidSeq (entryId lastEntry))))
        end.

Definition recoveryRTPPacketID (data : list Z) : option (option recoveryPacketID) :=
  if (length data <? 12)%nat then Some None
  else
    b0 ← data !! 0%nat;
    if negb (Z.land b0 192 =? 128) then Some None
    else
      b1 ← data !! 1%nat;
      if (192 <=? b1) && (b1 <=? 223) then Some None
      else
        ssrc ← get32 data 8;
        seq ← get16 data 2;
        Some (Some (mkPid "" ssrc seq)).

(** ** Recovering a packet from a parity group *)

(** [for index := range packet { data[index] ^= packet[index] }] *)
Fixpoint xorInto (data packet : list Z) : option (list Z) :=
  match packet, data with
  | [], _ => Some data
  | p :: packet, d :: data => rest ← xorInto data packet; Some (Z.lxor d p :: rest)
  | _ :: _, [] => None
  end.

Definition missingOf (s : recoveryState) (g : recoveryGroup) : list Z :=
  (pidSeq ∘ entryId) <$> filter (λ e, packets s !! entryId e = None) (entries g).

(** The loop that combines the parity with the packets at hand: the data and
    the entry wanted so far, or [Some None] on a length that does not match. *)
Fixpoint combine (ps : gmap recoveryPacketID (list Z)) (es : list recoveryEntry) (data : list Z)
    (wanted : recoveryEntry) : option (option (list Z * recoveryEntry)) :=
  match es with
  | [] => Some (Some (data, wanted))
  | e :: es =>
      match ps !! entryId e with
      | None => combine ps es data e
      | Some packet =>
          if negb (Z.of_nat (length packet) =? entryLength e) then Some None
          else data ← xorInto data packet; combine ps es data wanted
      end
  end.

Definition zeroEntry : recoveryEntry := mkEntry (mkPid "" 0 0) 0.

(** [recoverGroupLocked]: the state, the datagram and the missing numbers. *)
Definition recoverGroupLocked (s : recoveryState) (g : recoveryGroup)
  : option (recoveryState * recoveredDatagram * list Z) :=
  let ms := missingOf s g in
  if negb (length ms =? 1)%nat then Some (s, zeroDatagram, ms)
  else
    combined ← combine (packets s) (entries g) (parity g) zeroEntry;
    match combined with
    | None => Some (s, zeroDatagram, ms)
    | Some (data, wanted) =>
        if (length data <? Z.to_nat (entryLength wanted))%nat then None
        else
          let data := take (Z.to_nat (entryLength wanted)) data in
          s ← storePacketLocked s (entryId wanted) data;
          let sid := mkSid (pidRemote (entryId wanted)) (pidSsrc (entryId wanted)) in
          let s := s <| streams := alter (λ st, st <| missing := delete (pidSeq (entryId wanted)) (missing st) |>)
                                     sid (streams s) |> in
          Some (s, mkDatagram data (Some (groupRemote g)) (pidRemote (entryId wanted)), ms)
    end.

(** One round of the loop of [recoverPendingLocked], on the socket [i]. *)
Definition pendingStep (i : nat) (arrived : recoveryPacketID) (remote : string)
    (s : recoveryState) (id : recoveryGroupID) : option recoveryState :=
  match groups s !! id with
  | None => Some s
  | Some g =>
      if negb (existsb (λ e, bool_decide (entryId e = arrived)) (entries g)) then Some s
      else
        '(s, dg, ms) ← recoverGroupLocked s g;
        let s := if (length ms <=? 1)%nat then s <| groups := delete id (groups s) |> else s in
        Some (if (length ms =? 1)%nat && bool_decide (dgAddr dg <> None) then
                match conns s !! i with
                | Some c => setConn s i (c <| ready := ready c ++ [mkDatagram (dgData dg) (Some remote) (dgIdentity dg)] |>)
                | None => s
                end
              else s)
  end.

(** [f] on each key of a list, stopping at a panic. *)
Fixpoint foldM {A B} (f : A -> B -> option A) (l : list B) (a : A) : option A :=
  match l with
  | [] => Some a
  | x :: l => a ← f a x; foldM f l a
  end.

(** [recoverPendingLocked]; [order] is the order of the map iteration. *)
Definition recoverPendingLocked (s : recoveryState) (i : nat) (arrived : recoveryPacketID) (remote : string)
    (order : list recoveryGroupID) : option recoveryState :=
  foldM (pendingStep i arrived remote) order s.

(** ** Pending groups *)
Fixpoint evictGroups (fuel : nat) (s : recoveryState) : option recoveryState :=
  if (recoveryGroupLimit <? size (groups s))%nat then
    match fuel with
    | O => None
    | S fuel =>
        id ← groupOrder s !! groupHead s;
        evictGroups fuel (s <| groups := delete id (groups s) |> <| groupHead := S (groupHead s) |>)
    end
  else Some s.

(** The compaction of the order: outstanding groups, each once. *)
Fixpoint compactOrder (gs : gmap recoveryGroupID recoveryGroup) (seen : gset recoveryGroupID)
    (order : list recoveryGroupID) : list recoveryGroupID :=
  match order with
  | [] => []
  | id :: order =>
      if bool_decide (is_Some (gs !! id)) && negb (bool_decide (id ∈ seen))
      then id :: compactOrder gs ({[id]} ∪ seen) order
      else compactOrder gs seen order
  end.

Definition storeGroupLocked (s : recoveryState) (id : recoveryGroupID) (g : recoveryGroup) : option recoveryState :=
  let s :=
    if (2 * recoveryGroupLimit <=? length (groupOrder s))%nat
    then s <| groupOrder := compactOrder (groups s) ∅ (drop (groupHead s) (groupOrder s)) |>
           <| groupHead := 0%nat |>
    else s in
  let s :=
    match groups s !! id with
    | None => s <| groupOrder := groupOrder s ++ [id] |>
    | Some _ => s
    end in
  let s := s <| groups := <[id := g]> (groups s) |> in
  s ← evictGroups (length (groupOrder s)) s;
  Some (if (recoveryGroupLimit <=? groupHead s)%nat
        then s <| groupOrder := drop (groupHead s) (groupOrder s) |> <| groupHead := 0%nat |>
        else s).

(** ** Operations of a socket *)

(** The orders in which the maps of one call are iterated. *)
Record orders := mkOrders {
  oStreams : list recoveryStreamID; oGroups : list recoveryGroupID; oMissing : list Z
}.

(** [remember]: the state and the request to send.  [allow] is the answer of
    the rate limiter. *)
Definition remember (s : recoveryState) (i : nat) (id : recoveryPacketID) (data : list Z) (remote : string)
    (allow : bool) (now : time) (o : orders) : option (recoveryState * list Z) :=
  if negb (activeIdentityLocked s (pidRemote id)) then Some (s, [])
  else if negb ((Z.of_nat (length data) <=? 8192) && allow) then Some (s, [])
  else
    let sid := mkSid (pidRemote id) (pidSsrc id) in
    s ← storePacketLocked s id data;
    let '(s, st) := streamLocked s sid now (oStreams o) in
    let st := st <| lastTouched := now |> <| missing := delete (pidSeq id) (missing st) |> in
    let st := trackGapLocked s id st in
    let s := s <| streams := <[sid := st]> (streams s) |> in
    s ← recoverPendingLocked s i id remote (oGroups o);
    let s := s <| packetsSince := u64 (packetsSince s + 1) |> in
    let s := if packetsSince s mod recoveryHistorySize =? 0 then trimStreamsLocked s now else s in
    match streams s !! sid with
    | None => Some (s, [])
    | Some st =>
        if negb (enabled st) then Some (s, [])
        else
          let '(st, due) := dueRepairs st now (oMissing o) [] in
          Some (s <| streams := <[sid := st]> (streams s) |>, makeRecoveryRequest (pidSsrc id) due)
    end.

(** The cost [remember] charges the limiter with. *)
Definition rememberCost (s : recoveryState) (id : recoveryPacketID) : Z :=
  match streams s !! mkSid (pidRemote id) (pidSsrc id) with
  | None => 1
  | Some st =>
      let delta := u16 (pidSeq id - highest st) in
      if delta <? 32768 then 1 + Z.min delta recoveryHistorySize else 1
  end.

(** [consumeParity]: the state, the datagram recovered at once and the request
    to send. *)
Definition consumeParity (s : recoveryState) (i : nat) (local : string) (data : list Z) (remote : string)
    (allow : bool) (now : time) (o : orders)
  : option (recoveryState * option recoveredDatagram * list Z) :=
  if negb ((Z.of_nat (length data) <=? 8192) && allow) then Some (s, None, [])
  else
    parsed ← parseRecoveryGroup data remote;
    match parsed with
    | None => Some (s, None, [])
    | Some (g, gid) =>
        c ← conns s !! i;
        let identity := identityLocked c local remote in
        if negb (activeIdentityLocked s identity) then Some (s, None, [])
        else
          let gid := mkGid identity (gidSsrc gid) (gidLast gid) in
          let g := mkGroup ((λ e, mkEntry (mkPid identity (pidSsrc (entryId e)) (pidSeq (entryId e)))
                                    (entryLength e)) <$> entries g) (parity g) (groupRemote g) in
          let sid := mkSid identity (gidSsrc gid) in
          let '(s, st) := streamLocked s sid now (oStreams o) in
          let s := s <| streams := <[sid := st <| enabled := true |> <| lastTouched := now |>]> (streams s) |> in
          '(s, dg, ms) ← recoverGroupLocked s g;
          if (length ms =? 0)%nat then Some (s, None, [])
          else if (length ms =? 1)%nat then
            Some (s, if bool_decide (dgAddr dg <> None) then Some dg else None, [])
          else
            match streams s !! sid with
            | None => Some (s, None, [])
            | Some st =>
                let st := st <| missing := fold_left (λ m n, match m !! n with Some _ => m | None => <[n := zeroTime]> m end)
                                             ms (missing st) |> in
                let s := s <| streams := <[sid := st]> (streams s) |> in
                s ← storeGroupLocked s gid g;
                let '(st, due) := dueRepairs st now (oMissing o) [] in
                Some (s <| streams := <[sid := st]> (streams s) |>, None, makeRecoveryRequest (gidSsrc gid) due)
            end
    end.

Definition popReady (s : recoveryState) (i : nat) : recoveryState * option recoveredDatagram :=
  match conns s !! i with
  | Some c =>
      match ready c with
      | [] => (s, None)
      | d :: rest => (setConn s i (c <| ready := rest |>), Some d)
      end
  | None => (s, None)
  end.

(** A STUN message as the decoder gives it. *)
Inductive stunType := BindingRequest | BindingSuccess | OtherType.
Record stunMessage := mkStun { stType : stunType; stTransaction : list Z; stUsername : option string }.

Definition rememberBindingLocked (c : recoveryConn) (key : recoveryBindingID) (username : option string) : recoveryConn :=
  match username with
  | None => c
  | Some u =>
      if (513 <? Z.of_nat (String.length u)) then c
      else
        let p := if recoveryHistorySize <=? Z.of_nat (size (pendingBindings c)) then ∅ else pendingBindings c in
        c <| pendingBindings := match p !! key with Some _ => p | None => <[key := u]> p end |>
  end.

Definition confirmBindingLocked (s : recoveryState) (c : recoveryConn) (key : recoveryBindingID) : recoveryConn :=
  let username := default "" (pendingBindings c !! key) in
  let c := c <| pendingBindings := delete key (pendingBindings c) |> in
  if String.eqb username "" || negb (activeIdentityLocked s ("ice:" +:+ username)) then c
  else
    let ids := if recoveryHistorySize <=? Z.of_nat (size (identities c)) then ∅ else identities c in
    c <| identities := <[bidRemote key := username]> ids |>.

(** [observeBinding]; [message] is what the STUN decoder made of the datagram. *)
Definition observeBinding (s : recoveryState) (i : nat) (message : option stunMessage) (remote : string)
    (outgoing : bool) : recoveryState :=
  match message, conns s !! i with
  | Some m, Some c =>
      let key := mkBid remote (stTransaction m) in
      match stType m, outgoing with
      | BindingSuccess, true => setConn s i (confirmBindingLocked s c key)
      | BindingRequest, false => setConn s i (rememberBindingLocked c key (stUsername m))
      | _, _ => s
      end
  | _, _ => s
  end.

(** ** [delivery.go]: receipts *)
Definition flush (b : deliveryBatch) : deliveryBatch * list Z :=
  (mkBatch (batchIdentity b) (lastSent b) (tokens b) 0,
   magic ++ [3; count b; 0; 0] ++ mjoin (take (Z.to_nat (count b)) (tokens b))).

(** [deliveryReceipt]; [digest] is the SHA-256 of the datagram.  [None] is an
    index beyond the eight tokens. *)
Definition deliveryReceipt (s : recoveryState) (i : nat) (id : recoveryPacketID) (data digest : list Z)
    (remote : string) (now : time) : option (recoveryState * list Z) :=
  match streams s !! mkSid (pidRemote id) (pidSsrc id), conns s !! i with
  | Some st, Some c =>
      if negb (enabled st) || (8192 <? Z.of_nat (length data)) then Some (s, [])
      else
        let fresh := mkBatch (pidRemote id) zeroTime (replicate 8 (replicate 16 0)) 0 in
        let '(ds, b) :=
          match deliveries c !! remote with
          | Some b => if String.eqb (batchIdentity b) (pidRemote id) then (deliveries c, b)
                      else (if (recoveryStreamLimit <=? size (deliveries c))%nat then ∅ else deliveries c, fresh)
          | None => (if (recoveryStreamLimit <=? size (deliveries c))%nat then ∅ else deliveries c, fresh)
          end in
        if 8 <=? count b then None
        else
          let b := mkBatch (batchIdentity b) (lastSent b)
                     (<[Z.to_nat (count b) := take 16 digest]> (tokens b)) (u8 (count b + 1)) in
          if (count b <? 8) && (tsub now (lastSent b) <? 20 * Millisecond)
          then Some (setConn s i (c <| deliveries := <[remote := b]> ds |>), [])
          else
            let b := mkBatch (batchIdentity b) now (tokens b) (count b) in
            let '(b, receipt) := flush b in
            Some (setConn s i (c <| deliveries := <[remote := b]> ds |>), receipt)
  | _, _ => Some (s, [])
  end.

(** ** One round of the loop of [ReadFrom] *)
Inductive outcome := Give (data : list Z) (addr : option string) | Failed | Loop.

(** [bufLen] is the length of the caller's buffer; [read] is what the socket
    returned, the bytes read with their sender, or an error.  The messages sent
    on the way come back as a list.  The other arguments are what the calls of
    the round read: the limiter's answer, the clock, the map orders, the STUN
    decoder and SHA-256. *)
Definition ReadFrom (s : recoveryState) (i : nat) (local : string) (bufLen : nat)
    (read : option (list Z * string)) (allow : bool) (now t1 : time) (o : orders)
    (stun : option stunMessage) (sha256 : list Z -> list Z)
  : option (recoveryState * outcome * list (list Z)) :=
  match popReady s i with
  | (s, Some dg) => Some (s, Give (take bufLen (dgData dg)) (dgAddr dg), [])
  | (s, None) =>
      match read with
      | None => Some (s, Failed, [])
      | Some (data, remote) =>
          c ← conns s !! i;
          if hasRecoveryMagic data then
            if String.eqb (authenticatedIdentity c remote) "" then Some (s, Loop, [])
            else
              '(s, dg, request) ← consumeParity s i local data remote allow now o;
              Some (s, match dg with Some d => Give (take bufLen (dgData d)) (dgAddr d) | None => Loop end,
                    filter (λ m, m <> []) [request])
          else
            parsed ← recoveryRTPPacketID data;
            match parsed with
            | None => Some (observeBinding s i stun remote false, Give data (Some remote), [])
            | Some id =>
                let identity := authenticatedIdentity c remote in
                if String.eqb identity "" then Some (s, Give data (Some remote), [])
                else
                  let id := mkPid identity (pidSsrc id) (pidSeq id) in
                  '(s, request) ← remember s i id data remote allow now o;
                  '(s, receipt) ← deliveryReceipt s i id data (sha256 data) remote t1;
                  Some (s, Give data (Some remote), filter (λ m, m <> []) [request; receipt])
            end
      end
  end.

(** [WriteTo]: what leaves may confirm a binding. *)
Definition WriteTo (s : recoveryState) (i : nat) (stun : option stunMessage) (remote : string) : recoveryState :=
  observeBinding s i stun remote true.

(** ** [recovery_mux.go] *)
Definition newRecoveryMux (s : recoveryState) : recoveryState := s <| active := Some ∅ |>.

(** [GetConn]; [ok] is whether the mux underneath returned a connection. *)
Definition GetConn (s : recoveryState) (ufrag : string) (ok : bool) : recoveryState :=
  if ok then
    match active s with
    | Some act => s <| active := Some ({[ufrag]} ∪ act) |>
    | None => s
    end
  else s.

Definition RemoveConnByUfrag (s : recoveryState) (ufrag : string) : recoveryState :=
  let prefix := "ice:" +:+ ufrag +:+ ":" in
  let user := ufrag +:+ ":" in
  let keepConn c :=
    mkConn (filter (λ d, HasPrefix (dgIdentity d) prefix = false) (ready c))
      (filter (λ '(_, u), HasPrefix u user = false) (pendingBindings c))
      (filter (λ '(_, u), HasPrefix u user = false) (identities c))
      (filter (λ '(_, b), HasPrefix (batchIdentity b) prefix = false) (deliveries c)) in
  mkState (keepConn <$> conns s)
    (match active s with Some act => Some (act ∖ {[ufrag]}) | None => None end)
    (filter (λ '(id, _), HasPrefix (pidRemote id) prefix = false) (packets s))
    (filter (λ id, HasPrefix (pidRemote id) prefix = false) (drop (packetHead s) (packetOrder s))) 0
    (filter (λ '(id, _), HasPrefix (sidRemote id) prefix = false) (streams s))
    (filter (λ '(id, _), HasPrefix (gidRemote id) prefix = false) (groups s))
    (filter (λ id, HasPrefix (gidRemote id) prefix = false) (drop (groupHead s) (groupOrder s))) 0
    (packetsSince s).

(** ** Invariant *)

(** The live part of the order lists the stored packets, each once; both are
    bounded. *)
Definition packets_ok (s : recoveryState) : Prop :=
  NoDup (drop (packetHead s) (packetOrder s))
  /\ (forall id, id ∈ drop (packetHead s) (packetOrder s) <-> is_Some (packets s !! id))
  /\ (packetHead s <= length (packetOrder s))%nat
  /\ Z.of_nat (packetHead s) < recoveryHistorySize
  /\ Z.of_nat (size (packets s)) <= recoveryHistorySize.

(** A group whose entries fit its parity. *)
Definition group_wf (g : recoveryGroup) : Prop :=
  Forall (λ e, 12 <= entryLength e <= Z.of_nat (length (parity g))) (entries g).

(** Every outstanding group is in the live part of the order; completed ones may
    have left holes there. *)
Definition groups_ok (s : recoveryState) : Prop :=
  (forall id, is_Some (groups s !! id) -> id ∈ drop (groupHead s) (groupOrder s))
  /\ (groupHead s <= length (groupOrder s))%nat /\ (groupHead s < recoveryGroupLimit)%nat
  /\ (length (groupOrder s) <= 2 * recoveryGroupLimit)%nat
  /\ (size (groups s) <= recoveryGroupLimit)%nat
  /\ (forall id g, groups s !! id = Some g ->
        group_wf g /\ Forall (λ e, pidRemote (entryId e) = gidRemote id) (entries g)).

Definition streams_ok (s : recoveryState) : Prop := (size (streams s) <= recoveryStreamLimit)%nat.

Definition batch_ok (b : deliveryBatch) : Prop :=
  0 <= count b < 8 /\ length (tokens b) = 8%nat.

Definition conn_ok (c : recoveryConn) : Prop :=
  Z.of_nat (size (pendingBindings c)) <= recoveryHistorySize
  /\ Z.of_nat (size (identities c)) <= recoveryHistorySize
  /\ (size (deliveries c) <= recoveryStreamLimit)%nat
  /\ (forall k b, deliveries c !! k = Some b -> batch_ok b).

(** What a socket keeps belongs to active peers. *)
Record conn_active (s : recoveryState) (c : recoveryConn) : Prop := ConnActive {
  ca_ready : forall d, d ∈ ready c -> activeIdentityLocked s (dgIdentity d) = true;
  ca_identities : forall k u, identities c !! k = Some u ->
    u <> "" /\ activeIdentityLocked s ("ice:" +:+ u) = true;
  ca_deliveries : forall k b, deliveries c !! k = Some b -> activeIdentityLocked s (batchIdentity b) = true
}.

(** Nothing is kept for a peer that is not active. *)
Record active_ok (s : recoveryState) : Prop := ActiveOK {
  ac_packets : forall id, is_Some (packets s !! id) -> activeIdentityLocked s (pidRemote id) = true;
  ac_streams : forall id, is_Some (streams s !! id) -> activeIdentityLocked s (sidRemote id) = true;
  ac_groups : forall id, is_Some (groups s !! id) -> activeIdentityLocked s (gidRemote id) = true;
  ac_conns : Forall (conn_active s) (conns s)
}.

Record state_ok (s : recoveryState) : Prop := StateOK {
  so_packets : packets_ok s;
  so_groups : groups_ok s;
  so_streams : streams_ok s;
  so_conns : Forall conn_ok (conns s);
  so_active : active_ok s
}.

#[local] Arguments recoveryGroupLimit : simpl never.
#[local] Arguments recoveryStreamLimit : simpl never.
#[local] Arguments recoveryHistorySize : simpl never.
#[local] Arguments Nat.mul : simpl never.

(** ** Lemmas: the packet history *)
Lemma drop_cons_lookup {A} (l : list A) n x rest : drop n l = x :: rest -> l !! n = Some x /\ drop (S n) l = rest.
Proof.
  intros E. split.
  - rewrite <-(Nat.add_0_r n), <-lookup_drop, E. done.
  - replace (S n) with (n + 1)%nat by lia. rewrite <-drop_drop, E. done.
Qed.

Lemma evictPackets_stop fuel s :
  Z.of_nat (size (packets s)) <= recoveryHistorySize -> evictPackets fuel s = Some s.
Proof. intros H. destruct fuel; cbn [evictPackets]; by rewrite (proj2 (Z.ltb_ge _ _) H). Qed.

(** A map whose keys are the elements of a duplicate-free list. *)
Lemma size_keys {K A} `{Countable K} (m : gmap K A) (l : list K) :
  NoDup l -> (forall k, k ∈ l <-> is_Some (m !! k)) -> size m = length l.
Proof.
  intros Hnd Hk. rewrite <-(size_dom (D := gset K)), <-(size_list_to_set (C := gset K) l Hnd).
  f_equal. apply set_eq. intros k. by rewrite elem_of_dom, elem_of_list_to_set, Hk.
Qed.

Lemma evictPackets_spec fuel s :
  NoDup (drop (packetHead s) (packetOrder s)) ->
  (forall id, id ∈ drop (packetHead s) (packetOrder s) <-> is_Some (packets s !! id)) ->
  Z.of_nat (size (packets s)) <= recoveryHistorySize + 1 ->
  Z.of_nat (packetHead s) < recoveryHistorySize ->
  (packetHead s <= length (packetOrder s))%nat -> (0 < fuel)%nat ->
  exists n ps, evictPackets fuel s = Some (s <| packets := ps |> <| packetHead := n |>)
    /\ NoDup (drop n (packetOrder s))
    /\ (forall id, id ∈ drop n (packetOrder s) <-> is_Some (ps !! id))
    /\ Z.of_nat (size ps) <= recoveryHistorySize
    /\ (n <= length (packetOrder s))%nat /\ Z.of_nat n <= recoveryHistorySize
    /\ (forall id, is_Some (ps !! id) -> ps !! id = packets s !! id)
    /\ (n = packetHead s \/ n + 1 < length (packetOrder s))%nat.
Proof.
  intros Hnd Hdom Hsize Hhead Hlen Hfuel. pose proof (size_keys _ _ Hnd Hdom) as Hk.
  rewrite length_drop in Hk. destruct fuel as [|fuel]; [lia|]. cbn [evictPackets].
  destruct (_ <? _) eqn:E.
  - destruct (drop (packetHead s) (packetOrder s)) as [|id rest] eqn:Ed.
    { exfalso. assert (packets s = ∅) as Hempty.
      { apply map_empty. intros id. destruct (packets s !! id) eqn:El; [|done].
        assert (id ∈ ([] : list recoveryPacketID)) as []%not_elem_of_nil. apply Hdom. eauto. }
      rewrite Hempty, map_size_empty in E. discriminate E. }
    destruct (drop_cons_lookup _ _ _ _ Ed) as [El Er]. rewrite El. obind.
    assert (Hid : is_Some (packets s !! id)) by (apply Hdom; constructor).
    apply NoDup_cons in Hnd as [Hnid Hnd].
    assert (Hsz : size (delete id (packets s)) = pred (size (packets s))).
    { by rewrite map_size_delete_Some. }
    exists (S (packetHead s)), (delete id (packets s)). split.
    { apply evictPackets_stop. cbn. rewrite Hsz. lia. }
    rewrite Er. split_and!; auto.
    + intros id'. destruct (decide (id = id')) as [<-|Hne].
      * rewrite lookup_delete_eq. split; [done|]. by intros [? ?].
      * rewrite lookup_delete_ne by done. rewrite <-Hdom, elem_of_cons. naive_solver.
    + rewrite Hsz. lia.
    + apply lookup_lt_Some in El. lia.
    + lia.
    + intros id' Hs. destruct (decide (id = id')) as [<-|Hne].
      * rewrite lookup_delete_eq in Hs. by destruct Hs.
      * by rewrite lookup_delete_ne.
    + right. unfold recoveryHistorySize in *. lia.
  - exists (packetHead s), (packets s). split; [by destruct s|]. split_and!; auto; lia.
Qed.

(** [storePacketLocked] keeps the newest packets, the new one among them. *)
Lemma storePacket_spec s id data :
  packets_ok s ->
  exists n ps ord, storePacketLocked s id data
    = Some (s <| packets := ps |> <| packetHead := n |> <| packetOrder := ord |>)
    /\ packets_ok (s <| packets := ps |> <| packetHead := n |> <| packetOrder := ord |>)
    /\ (forall id', is_Some (ps !! id') -> id' = id \/ ps !! id' = packets s !! id')
    /\ ps !! id = match packets s !! id with Some d => Some d | None => Some data end.
Proof.
  intros (Hnd & Hdom & Hlen & Hhead & Hsize). unfold storePacketLocked.
  destruct (packets s !! id) as [d|] eqn:Eid.
  { exists (packetHead s), (packets s), (packetOrder s). split; [by destruct s|].
    split; [unfold packets_ok; by split_and!|]. auto. }
  set (s1 := s <| packets := <[id := data]> (packets s) |> <| packetOrder := packetOrder s ++ [id] |>).
  assert (Hd1 : drop (packetHead s1) (packetOrder s1) = drop (packetHead s) (packetOrder s) ++ [id]).
  { unfold s1. cbn. by rewrite drop_app_le. }
  assert (Hnid : id ∉ drop (packetHead s) (packetOrder s)).
  { rewrite Hdom, Eid. by intros [? ?]. }
  destruct (evictPackets_spec (length (packetOrder s1)) s1) as (n & ps & -> & En & Ed & Es & El & Eh & Ep & Ee).
  - rewrite Hd1. apply NoDup_app. split_and!; auto using NoDup_singleton.
    intros x Hx ->%list_elem_of_singleton. done.
  - rewrite Hd1. intros id'. unfold s1. cbn. rewrite elem_of_app, list_elem_of_singleton, Hdom.
    destruct (decide (id = id')) as [<-|Hne].
    + rewrite lookup_insert_eq. split; eauto.
    + rewrite lookup_insert_ne by done. naive_solver.
  - unfold s1. cbn. rewrite map_size_insert_None by done. lia.
  - done.
  - unfold s1. cbn. rewrite length_app. lia.
  - unfold s1. cbn. rewrite length_app. cbn. lia.
  - obind. assert (Hord : packetOrder s1 = packetOrder s ++ [id]) by done.
    assert (Hin : is_Some (ps !! id)).
    { apply Ed. rewrite Hord, drop_app_le; [apply elem_of_app; right; constructor|].
      rewrite Hord, length_app in Ee. cbn in Ee. destruct Ee as [->|?]; [exact Hlen|lia]. }
    assert (Hmap : forall id', is_Some (ps !! id') -> id' = id \/ ps !! id' = packets s !! id').
    { intros id' Hs. destruct (decide (id = id')) as [->|Hne]; [by left|]. right.
      rewrite Ep by done. unfold s1. cbn. by rewrite lookup_insert_ne. }
    assert (Hdata : ps !! id = Some data).
    { rewrite Ep by done. unfold s1. cbn. by rewrite lookup_insert_eq. }
    cbn. destruct (recoveryHistorySize <=? Z.of_nat n) eqn:Ec.
    + exists 0%nat, ps, (drop n (packetOrder s1)). split; [done|].
      split; [|done]. unfold packets_ok. cbn. rewrite drop_0. split_and!; auto; lia.
    + exists n, ps, (packetOrder s1). split; [done|]. split; [|done].
      unfold packets_ok. cbn. split_and!; auto. lia.
Qed.


(** ** Lemmas: the pending groups *)
Lemma compactOrder_spec gs order seen :
  NoDup (compactOrder gs seen order)
  /\ (forall id, id ∈ compactOrder gs seen order <-> id ∈ order /\ is_Some (gs !! id) /\ id ∉ seen).
Proof.
  revert seen. induction order as [|id order IH]; intros seen; cbn [compactOrder].
  { split; [constructor|]. intros id. rewrite elem_of_nil. tauto. }
  destruct (IH ({[id]} ∪ seen)) as [N1 E1]. destruct (IH seen) as [N2 E2].
  destruct (bool_decide (is_Some (gs !! id))) eqn:Hg; cbn [andb].
  - apply bool_decide_eq_true in Hg. destruct (bool_decide (id ∈ seen)) eqn:Hs; cbn [negb].
    + apply bool_decide_eq_true in Hs. split; [done|]. intros id'. rewrite E2, elem_of_cons.
      split; [tauto|]. intros ([->|?] & ? & ?); tauto.
    + apply bool_decide_eq_false in Hs. split.
      * apply NoDup_cons. split; [|done]. rewrite E1, elem_of_union, elem_of_singleton. tauto.
      * intros id'. rewrite !elem_of_cons, E1, elem_of_union, elem_of_singleton. split.
        -- intros [->|(? & ? & ?)]; tauto.
        -- intros (Hin & ? & ?). destruct (decide (id' = id)); tauto.
  - apply bool_decide_eq_false in Hg. split; [done|]. intros id'. rewrite E2, elem_of_cons.
    split; [tauto|]. intros ([->|?] & ? & ?); tauto.
Qed.

(** The keys of a map are within a list no shorter than it. *)
Lemma size_le_length {K A} `{Countable K} (m : gmap K A) (l : list K) :
  (forall k, is_Some (m !! k) -> k ∈ l) -> (size m <= length l)%nat.
Proof.
  intros Hk. rewrite <-(size_dom (D := gset K)).
  assert (E : size (list_to_set (remove_dups l) : gset K) = length (remove_dups l))
    by apply size_list_to_set, NoDup_remove_dups.
  assert (Hl : (length (remove_dups l) <= length l)%nat).
  { clear. induction l as [|x l IH]; cbn; [done|]. case_decide; cbn; lia. }
  rewrite <-E in Hl. etrans; [|exact Hl].
  apply subseteq_size. intros k. rewrite elem_of_dom, elem_of_list_to_set, elem_of_remove_dups. apply Hk.
Qed.

Lemma evictGroups_spec fuel s :
  (length (drop (groupHead s) (groupOrder s)) <= fuel)%nat ->
  (forall id, is_Some (groups s !! id) -> id ∈ drop (groupHead s) (groupOrder s)) ->
  (groupHead s <= length (groupOrder s))%nat ->
  exists n gs, evictGroups fuel s = Some (s <| groups := gs |> <| groupHead := n |>)
    /\ (forall id, is_Some (gs !! id) -> id ∈ drop n (groupOrder s))
    /\ (n <= length (groupOrder s))%nat /\ (size gs <= recoveryGroupLimit)%nat
    /\ (forall id g, gs !! id = Some g -> groups s !! id = Some g).
Proof.
  revert s. induction fuel as [|fuel IH]; intros s Hf Hk Hl.
  - assert (drop (groupHead s) (groupOrder s) = []) as E by (apply length_zero_iff_nil; lia).
    assert (Hsz : (size (groups s) <= 0)%nat).
    { apply (size_le_length _ []). intros id Hid. rewrite <-E. auto. }
    exists (groupHead s), (groups s). split; [|split_and!; auto; lia].
    cbn [evictGroups]. rewrite (proj2 (Nat.ltb_ge _ _)) by lia. by destruct s.
  - cbn [evictGroups]. destruct (_ <? _)%nat eqn:E.
    2:{ exists (groupHead s), (groups s). split; [by destruct s|].
        apply Nat.ltb_ge in E. split_and!; auto. }
    apply Nat.ltb_lt in E. destruct (drop (groupHead s) (groupOrder s)) as [|id rest] eqn:Ed.
    { assert (size (groups s) <= 0)%nat by (apply (size_le_length _ []); auto). lia. }
    destruct (drop_cons_lookup _ _ _ _ Ed) as [El Er]. rewrite El. obind.
    apply lookup_lt_Some in El.
    destruct (IH (s <| groups := delete id (groups s) |> <| groupHead := S (groupHead s) |>))
      as (n & gs & Ev & H1 & H2 & H3 & H4); cbn.
    + rewrite Er. cbn in Hf. lia.
    + rewrite Er. intros id' Hid'. destruct (decide (id = id')) as [<-|Hne].
      * rewrite lookup_delete_eq in Hid'. by destruct Hid'.
      * rewrite lookup_delete_ne in Hid' by done. apply Hk in Hid' as [?|?]%elem_of_cons; congruence.
    + lia.
    + exists n, gs. split; [exact Ev|]. cbn in *. split_and!; auto.
      intros id' g Hg. apply H4 in Hg. by apply lookup_delete_Some in Hg as [_ ?].
Qed.

(** The compaction drops no outstanding group and leaves room for one more. *)
Lemma compacted_order s :
  groups_ok s ->
  exists o h, (if (2 * recoveryGroupLimit <=? length (groupOrder s))%nat
               then s <| groupOrder := compactOrder (groups s) ∅ (drop (groupHead s) (groupOrder s)) |>
                      <| groupHead := 0%nat |>
               else s) = s <| groupOrder := o |> <| groupHead := h |>
    /\ (forall id, is_Some (groups s !! id) -> id ∈ drop h o) /\ (h <= length o)%nat
    /\ (length o < 2 * recoveryGroupLimit)%nat.
Proof.
  intros (Hk & Hl & Hh & Hlen & Hsz & Hwf). destruct (_ <=? _)%nat eqn:E.
  - exists (compactOrder (groups s) ∅ (drop (groupHead s) (groupOrder s))), 0%nat. split; [done|].
    destruct (compactOrder_spec (groups s) (drop (groupHead s) (groupOrder s)) ∅) as [Nc Ec].
    rewrite drop_0. split_and!.
    + intros id' Hid'. apply Ec. split_and!; auto. set_solver.
    + lia.
    + assert (size (groups s) = length (compactOrder (groups s) ∅ (drop (groupHead s) (groupOrder s)))).
      { apply size_keys; [done|]. intros id'. rewrite Ec. split; [tauto|]. intros Hid'.
        split_and!; auto. set_solver. }
      unfold recoveryGroupLimit in *. lia.
  - apply Nat.leb_gt in E. exists (groupOrder s), (groupHead s). split; [by destruct s|]. split_and!; auto.
Qed.

Lemma storeGroup_spec s id g :
  groups_ok s -> group_wf g -> Forall (λ e, pidRemote (entryId e) = gidRemote id) (entries g) ->
  exists n gs ord, storeGroupLocked s id g
    = Some (s <| groups := gs |> <| groupHead := n |> <| groupOrder := ord |>)
    /\ groups_ok (s <| groups := gs |> <| groupHead := n |> <| groupOrder := ord |>)
    /\ (forall id' g', gs !! id' = Some g' -> id' = id \/ groups s !! id' = Some g').
Proof.
  intros Hok Hg Hr. unfold storeGroupLocked. pose proof (compacted_order s Hok) as H1.
  destruct Hok as (Hk & Hl & Hh & Hlen & Hsz & Hwf). set (s1 := if (_ <=? _)%nat then _ else s) in *.
  clearbody s1. destruct H1 as (o & h & -> & Hk1 & Hl1 & Hlen1).
  set (s2 := match groups _ !! id with None => _ | Some _ => _ end).
  assert (H2 : exists o', s2 = s <| groupOrder := o' |> <| groupHead := h |>
    /\ (forall id', is_Some (<[id := g]> (groups s) !! id') -> id' ∈ drop h o')
    /\ (h <= length o')%nat /\ (length o' <= 2 * recoveryGroupLimit)%nat).
  { subst s2. cbn. destruct (groups s !! id) as [g0|] eqn:Eg.
    - exists o. split; [done|]. split_and!; auto; [|lia]. intros id' Hid'. apply Hk1.
      destruct (decide (id = id')) as [<-|]; [eauto|]. by rewrite lookup_insert_ne in Hid'.
    - exists (o ++ [id]). split; [done|]. rewrite length_app. cbn. split_and!; try lia.
      intros id' Hid'. rewrite drop_app_le by done. apply elem_of_app.
      destruct (decide (id = id')) as [<-|]; [right; constructor|]. left. apply Hk1.
      by rewrite lookup_insert_ne in Hid'. }
  clearbody s2. destruct H2 as (o' & -> & Hk2 & Hl2 & Hlen2).
  destruct (evictGroups_spec (length o')
    (s <| groupOrder := o' |> <| groupHead := h |> <| groups := <[id := g]> (groups s) |>))
    as (n & gs & Ev & E1 & E2 & E3 & E4); [cbn; rewrite length_drop; lia|done|done|].
  cbn in *. rewrite Ev. obind. cbn.
  assert (Hgs : forall id' g', gs !! id' = Some g' -> id' = id \/ groups s !! id' = Some g').
  { intros id' g' Hg'. apply E4 in Hg'. destruct (decide (id = id')) as [->|]; [by left|].
    rewrite lookup_insert_ne in Hg' by done. auto. }
  assert (Hgwf : forall id' g', gs !! id' = Some g' ->
            group_wf g' /\ Forall (λ e, pidRemote (entryId e) = gidRemote id') (entries g')).
  { intros id' g' Hg'. apply E4 in Hg'. destruct (decide (id = id')) as [<-|].
    - rewrite lookup_insert_eq in Hg'. by injection Hg' as <-.
    - rewrite lookup_insert_ne in Hg' by done. by apply Hwf. }
  destruct (_ <=? n)%nat eqn:Ec.
  - exists 0%nat, gs, (drop n o'). split; [done|]. split; [|done]. unfold groups_ok. cbn. rewrite drop_0.
    split_and!; auto; rewrite ?length_drop; unfold recoveryGroupLimit in *; lia.
  - apply Nat.leb_gt in Ec. exists n, gs, o'. split; [done|]. split; [|done]. unfold groups_ok. cbn.
    split_and!; auto.
Qed.

(** ** Lemmas: the invariant under updates *)

(** A good state with the same peers and sockets. *)
Definition evolves (s s' : recoveryState) : Prop :=
  state_ok s' /\ active s' = active s /\ length (conns s') = length (conns s).

Lemma evolves_refl s : state_ok s -> evolves s s.
Proof. intros. unfold evolves. by split_and!. Qed.

Lemma evolves_trans s s' s'' : evolves s s' -> evolves s' s'' -> evolves s s''.
Proof. intros (? & ? & ?) (? & ? & ?). unfold evolves. split_and!; [done|congruence..]. Qed.

Lemma evolves_active s s' i : evolves s s' -> activeIdentityLocked s' i = activeIdentityLocked s i.
Proof. intros (_ & E & _). unfold activeIdentityLocked. by rewrite E. Qed.

Lemma set_packets_ok s ps n ord :
  state_ok s -> packets_ok (s <| packets := ps |> <| packetHead := n |> <| packetOrder := ord |>) ->
  (forall id, is_Some (ps !! id) -> activeIdentityLocked s (pidRemote id) = true) ->
  evolves s (s <| packets := ps |> <| packetHead := n |> <| packetOrder := ord |>).
Proof.
  intros [Hp Hg Hs Hc [A1 A2 A3 A4]] Hp' Ha. unfold evolves. split_and!; [|done..].
  split; try done. split; try done. apply (Forall_impl _ _ _ A4). intros c []. by split.
Qed.

Lemma set_streams_ok s ss :
  state_ok s -> (size ss <= recoveryStreamLimit)%nat ->
  (forall id, is_Some (ss !! id) -> activeIdentityLocked s (sidRemote id) = true) ->
  evolves s (s <| streams := ss |>).
Proof.
  intros [Hp Hg Hs Hc [A1 A2 A3 A4]] Hss Ha. unfold evolves. split_and!; [|done..].
  split; try done. split; try done. apply (Forall_impl _ _ _ A4). intros c []. by split.
Qed.

Lemma set_groups_ok s gs n ord :
  state_ok s -> groups_ok (s <| groups := gs |> <| groupHead := n |> <| groupOrder := ord |>) ->
  (forall id, is_Some (gs !! id) -> activeIdentityLocked s (gidRemote id) = true) ->
  evolves s (s <| groups := gs |> <| groupHead := n |> <| groupOrder := ord |>).
Proof.
  intros [Hp Hg Hs Hc [A1 A2 A3 A4]] Hg' Ha. unfold evolves. split_and!; [|done..].
  split; try done. split; try done. apply (Forall_impl _ _ _ A4). intros c []. by split.
Qed.

Lemma setConn_ok s i c :
  state_ok s -> conn_ok c -> conn_active s c -> evolves s (setConn s i c).
Proof.
  intros [Hp Hg Hs Hc [A1 A2 A3 A4]] Hok Hca. unfold evolves. split_and!; [|done|cbn; by rewrite length_insert].
  split; try done; [by apply Forall_insert|]. split; try done. cbn.
  apply (Forall_insert _ _ i c); [|by destruct Hca].
  apply (Forall_impl _ _ _ A4). intros c' []. by split.
Qed.

Lemma conn_at s i c : state_ok s -> conns s !! i = Some c -> conn_ok c /\ conn_active s c.
Proof.
  intros [_ _ _ Hc [_ _ _ Ha]] E. split; [exact (Forall_lookup_1 _ _ _ _ Hc E)|].
  exact (Forall_lookup_1 _ _ _ _ Ha E).
Qed.

Lemma insert_stream_ok s sid st :
  state_ok s -> is_Some (streams s !! sid) -> evolves s (s <| streams := <[sid := st]> (streams s) |>).
Proof.
  intros Hs Hin. apply set_streams_ok; [done| |].
  - rewrite map_size_insert_Some by done. apply Hs.
  - intros id Hid. apply Hs. destruct (decide (sid = id)) as [<-|]; [done|]. by rewrite lookup_insert_ne in Hid.
Qed.

Lemma storePacket_ok s id data :
  state_ok s -> activeIdentityLocked s (pidRemote id) = true ->
  exists s', storePacketLocked s id data = Some s' /\ evolves s s' /\ streams s' = streams s /\ conns s' = conns s
    /\ packets s' !! id = match packets s !! id with Some d => Some d | None => Some data end.
Proof.
  intros Hs Ha. destruct (storePacket_spec s id data (so_packets _ Hs)) as (n & ps & ord & E & Hp & Hd & Hl).
  eexists. split; [exact E|]. split_and!; try done. apply set_packets_ok; auto.
  intros id' Hid'. destruct (Hd id' Hid') as [->|El]; [done|]. apply Hs. by rewrite <-El.
Qed.

Lemma storeGroup_ok s id g :
  state_ok s -> group_wf g -> Forall (λ e, pidRemote (entryId e) = gidRemote id) (entries g) ->
  activeIdentityLocked s (gidRemote id) = true ->
  exists s', storeGroupLocked s id g = Some s' /\ evolves s s' /\ streams s' = streams s.
Proof.
  intros Hs Hg Hr Ha. destruct (storeGroup_spec s id g (so_groups _ Hs) Hg Hr) as (n & gs & ord & E & Hok & Hd).
  eexists. split; [exact E|]. split; [|done]. apply set_groups_ok; auto.
  intros id' [g' Hg']. destruct (Hd id' g' Hg') as [->|El]; [done|]. apply Hs. eauto.
Qed.

(** ** Lemmas: streams *)
Lemma oldestStep_in ss order acc :
  (is_Some (ss !! acc.1) \/ IsZero acc.2 = true /\ exists id, id ∈ order /\ is_Some (ss !! id)) ->
  is_Some (ss !! (fold_left (oldestStep ss) order acc).1).
Proof.
  revert acc. induction order as [|id order IH]; intros [old t] H; cbn [fold_left].
  { destruct H as [?|[_ (id & []%not_elem_of_nil & _)]]. done. }
  apply IH. unfold oldestStep at 1 2. destruct (ss !! id) as [st|] eqn:E; cbn [fst snd] in *.
  - destruct H as [?|[-> _]]; cbn [orb]; [destruct (_ || _)|]; cbn; rewrite ?E; eauto.
  - destruct H as [?|[Hz (id' & [->|?]%elem_of_cons & Hs)]]; [by left| |].
    + rewrite E in Hs. by destruct Hs.
    + right. eauto.
Qed.

Lemma trimOldest_size s order :
  (forall id, is_Some (streams s !! id) -> id ∈ order) ->
  (size (streams (trimOldestStreamLocked s order)) <= pred (size (streams s)))%nat.
Proof.
  intros Hord. unfold trimOldestStreamLocked.
  pose proof (oldestStep_in (streams s) order (mkSid "" 0, zeroTime)) as Hin.
  destruct (fold_left _ _ _) as [old t] eqn:E. cbn in *.
  destruct (decide (streams s = ∅)) as [->|[id [st Hst]]%map_choose].
  { rewrite delete_empty, map_size_empty. lia. }
  rewrite map_size_delete_Some; [lia|]. apply Hin. right. split; [done|]. exists id. split; eauto.
Qed.

(** [streamLocked] makes room for the stream and returns the one it keeps. *)
Lemma streamLocked_ok s id now order :
  state_ok s -> activeIdentityLocked s (sidRemote id) = true ->
  (forall id, is_Some (streams s !! id) -> id ∈ order) ->
  evolves s (streamLocked s id now order).1
  /\ streams (streamLocked s id now order).1 !! id = Some (streamLocked s id now order).2
  /\ packets (streamLocked s id now order).1 = packets s.
Proof.
  intros Hs Ha Hord. unfold streamLocked. destruct (streams s !! id) as [st|] eqn:E; cbn [fst snd].
  { split_and!; auto using evolves_refl. }
  set (s1 := if (_ <=? _)%nat then _ else s).
  assert (H1 : evolves s s1 /\ (size (streams s1) < recoveryStreamLimit)%nat /\ streams s1 !! id = None
               /\ packets s1 = packets s).
  { subst s1. destruct (_ <=? _)%nat eqn:El.
    - apply Nat.leb_le in El. pose proof (trimOldest_size s order Hord) as Hsz. pose proof (so_streams _ Hs) as Hlim.
      unfold streams_ok in Hlim. unfold trimOldestStreamLocked in *. destruct (fold_left _ _ _) as [old t].
      cbn in *. split_and!; [|unfold recoveryStreamLimit in *; lia| |done].
      + apply set_streams_ok; [done|unfold recoveryStreamLimit in *; lia|]. intros id' Hid'. apply Hs.
        destruct (decide (old = id')) as [<-|]; [rewrite lookup_delete_eq in Hid'; by destruct Hid'|].
        by rewrite lookup_delete_ne in Hid'.
      + destruct (decide (old = id)) as [<-|]; [by rewrite lookup_delete_eq|by rewrite lookup_delete_ne].
    - apply Nat.leb_gt in El. auto using evolves_refl. }
  clearbody s1. destruct H1 as (He & Hsz & Hn & Hp). cbn. split_and!; [|apply lookup_insert_eq|done].
  apply (evolves_trans _ _ _ He). apply set_streams_ok; [apply He| |].
  - rewrite map_size_insert_None by done. lia.
  - intros id' Hid'. destruct (decide (id = id')) as [<-|]; [by rewrite (evolves_active _ _ _ He)|].
    rewrite lookup_insert_ne in Hid' by done. by apply He.
Qed.

Lemma trimStreams_ok s now : state_ok s -> evolves s (trimStreamsLocked s now).
Proof.
  intros Hs. apply set_streams_ok; [done| |].
  - pose proof (so_streams _ Hs). unfold streams_ok in *. etrans; [|eassumption].
    apply map_subseteq_size, map_filter_subseteq.
  - intros id [st [Hst _]%map_lookup_filter_Some]. apply Hs. eauto.
Qed.

Lemma alter_streams_ok s f sid : state_ok s -> evolves s (s <| streams := alter f sid (streams s) |>).
Proof.
  intros Hs. apply set_streams_ok; [done| |].
  - pose proof (so_streams _ Hs). unfold streams_ok in *.
    rewrite <-(size_dom (D := gset recoveryStreamID)), dom_alter_L, (size_dom (D := gset recoveryStreamID)). done.
  - intros id. rewrite lookup_alter_is_Some. apply Hs.
Qed.

(** ** Lemmas: recovering from parity *)
Lemma xorInto_total data packet :
  (length packet <= length data)%nat -> exists r, xorInto data packet = Some r /\ length r = length data.
Proof.
  revert data. induction packet as [|p packet IH]; intros data H; cbn; [exists data; by destruct data|].
  destruct data as [|d data]; cbn in H |- *; [lia|]. destruct (IH data) as (r & -> & Hr); [lia|].
  obind. eexists. split; [done|]. cbn. lia.
Qed.

Lemma combine_total ps es data w0 :
  Forall (λ e, 12 <= entryLength e <= Z.of_nat (length data)) es ->
  exists r, combine ps es data w0 = Some r
    /\ forall d w, r = Some (d, w) -> length d = length data
         /\ (w = w0 /\ filter (λ e, ps !! entryId e = None) es = [] \/ w ∈ es /\ ps !! entryId w = None).
Proof.
  revert data w0. induction es as [|e es IH]; intros data w0 H; cbn [combine].
  { eexists. split; [done|]. intros d w [= <- <-]. auto. }
  apply Forall_cons in H as [He Hes]. rewrite filter_cons. destruct (ps !! entryId e) as [packet|] eqn:E.
  - destruct (_ =? _) eqn:El; cbn [negb]; [|by exists None].
    destruct (xorInto_total data packet) as (r & -> & Hr); [lia|]. obind.
    destruct (IH r w0) as (r' & -> & Hw); [by rewrite Hr|]. eexists. split; [done|].
    intros d w ->. destruct (Hw _ _ eq_refl) as [Hd Hc]. split; [congruence|].
    rewrite decide_False by done. destruct Hc as [?|[? ?]]; [by left|]. right. split; [by constructor|done].
  - destruct (IH data e Hes) as (r' & -> & Hw). eexists. split; [done|].
    intros d w ->. destruct (Hw _ _ eq_refl) as [Hd Hc]. split; [done|]. right.
    destruct Hc as [[-> _]|[? ?]]; (split; [by constructor|done]).
Qed.

Lemma recoverGroup_ok s g r :
  state_ok s -> group_wf g -> Forall (λ e, pidRemote (entryId e) = r) (entries g) ->
  activeIdentityLocked s r = true ->
  exists s' dg, recoverGroupLocked s g = Some (s', dg, missingOf s g) /\ evolves s s'
    /\ (forall id, is_Some (streams s' !! id) <-> is_Some (streams s !! id))
    /\ (dgAddr dg <> None -> dgIdentity dg = r).
Proof.
  intros Hs Hg Hr Ha. unfold recoverGroupLocked. destruct (_ =? 1)%nat eqn:E; cbn [negb].
  2:{ exists s, zeroDatagram. split_and!; auto using evolves_refl. by intros []. }
  destruct (combine_total (packets s) (entries g) (parity g) zeroEntry Hg) as (res & -> & Hw). obind.
  destruct res as [[d w]|]; [|exists s, zeroDatagram; split_and!; auto using evolves_refl; by intros []].
  destruct (Hw _ _ eq_refl) as [Hd [[_ He]|[Hin Hm]]].
  { unfold missingOf in E. rewrite He in E. discriminate E. }
  pose proof (proj1 (Forall_forall _ _) Hg w Hin) as Hlen. pose proof (proj1 (Forall_forall _ _) Hr w Hin) as Hrw.
  cbn in Hlen, Hrw. rewrite (proj2 (Nat.ltb_ge _ _)) by lia.
  destruct (storePacket_ok s (entryId w) (take (Z.to_nat (entryLength w)) d) Hs) as (s1 & -> & He & Hst & _ & _);
    [by rewrite Hrw|]. obind.
  eexists _, _. split; [done|]. split_and!.
  - apply (evolves_trans _ _ _ He), alter_streams_ok, He.
  - intros id. cbn. rewrite lookup_alter_is_Some. by rewrite Hst.
  - by intros _.
Qed.

(** ** Lemmas: parsing *)
Lemma get16_total data off : (off + 1 < length data)%nat -> exists v, get16 data off = Some v.
Proof.
  intros H. unfold get16. destruct (lookup_lt_is_Some_2 data off) as [a ->]; [lia|].
  destruct (lookup_lt_is_Some_2 data (S off)) as [b ->]; [lia|]. obind. eauto.
Qed.

Lemma get32_total data off : (off + 3 < length data)%nat -> exists v, get32 data off = Some v.
Proof.
  intros H. unfold get32. destruct (lookup_lt_is_Some_2 data off) as [a ->]; [lia|].
  destruct (lookup_lt_is_Some_2 data (S off)) as [b ->]; [lia|].
  destruct (lookup_lt_is_Some_2 data (S (S off))) as [c ->]; [lia|].
  destruct (lookup_lt_is_Some_2 data (S (S (S off)))) as [d ->]; [lia|]. obind. eauto.
Qed.

Lemma parseEntries_total data remote ssrc n index maximum :
  (recoveryHeaderSize + (index + n) * 4 <= length data)%nat ->
  exists r, parseEntries data remote ssrc index n maximum = Some r
    /\ forall es m, r = Some (es, m) -> maximum <= m /\ length es = n
         /\ Forall (λ e, 12 <= entryLength e <= m) es.
Proof.
  revert index maximum. induction n as [|n IH]; intros index maximum H; cbn [parseEntries].
  { eexists. split; [done|]. intros es m [= <- <-]. split_and!; [lia|done|constructor]. }
  unfold recoveryHeaderSize in *. destruct (get16_total data (12 + index * 4 + 2)) as [len ->]; [lia|]. obind.
  destruct (len <? 12) eqn:E; [by exists None|].
  destruct (get16_total data (12 + index * 4)) as [sq ->]; [lia|]. obind.
  destruct (IH (S index) (Z.max maximum len)) as (r & -> & Hr); [lia|]. obind.
  eexists. split; [done|]. destruct r as [[es' m']|]; [|done]. intros es m [= <- <-].
  destruct (Hr _ _ eq_refl) as (Hm & <- & Hf). split_and!; [lia|done|].
  constructor; [|done]. cbn. lia.
Qed.

(** Parsing never indexes out of range, and an accepted group has entries that
    fit its parity. *)
Lemma parseRecoveryGroup_total data remote :
  exists r, parseRecoveryGroup data remote = Some r
    /\ forall g gid, r = Some (g, gid) -> group_wf g /\ entries g <> [].
Proof.
  unfold parseRecoveryGroup, recoveryHeaderSize. destruct (_ <? _)%nat eqn:El; [by exists None|].
  apply Nat.ltb_ge in El. destruct (lookup_lt_is_Some_2 data 4) as [kind ->]; [lia|]. obind.
  destruct (_ =? _); cbn [negb]; [|by exists None].
  destruct (lookup_lt_is_Some_2 data 5) as [cnt ->]; [lia|]. obind.
  destruct (_ || _) eqn:Ec; [by exists None|]. apply orb_false_iff in Ec as [Ec Ee].
  apply orb_false_iff in Ec as [Ec1 Ec2]. apply Nat.ltb_ge in Ee.
  destruct (get32_total data 8) as [ssrc ->]; [lia|]. obind.
  destruct (parseEntries_total data remote ssrc (Z.to_nat cnt) 0 0) as (r & -> & Hr);
    [unfold recoveryHeaderSize; lia|]. obind.
  destruct r as [[es m]|]; [|by exists None]. destruct (Hr _ _ eq_refl) as (Hm & Hlen & Hf).
  destruct (_ || _) eqn:Ed; [by exists None|]. apply orb_false_iff in Ed as [_ Ed].
  apply negb_false_iff, Z.eqb_eq in Ed.
  destruct (last es) as [le|] eqn:Ela.
  2:{ apply last_None in Ela as ->. cbn in Hlen. lia. }
  obind. eexists. split; [done|]. intros g gid [= <- <-]. split.
  - unfold group_wf. cbn. rewrite length_drop. apply (Forall_impl _ _ _ Hf). intros e He. lia.
  - cbn. intros ->. cbn in Hlen. lia.
Qed.

Lemma recoveryRTPPacketID_total data : exists r, recoveryRTPPacketID data = Some r.
Proof.
  unfold recoveryRTPPacketID. destruct (_ <? _)%nat eqn:El; [eauto|]. apply Nat.ltb_ge in El.
  destruct (lookup_lt_is_Some_2 data 0) as [b0 ->]; [lia|]. obind. destruct (_ =? _); cbn [negb]; [|eauto].
  destruct (lookup_lt_is_Some_2 data 1) as [b1 ->]; [lia|]. obind. destruct (_ && _); [eauto|].
  destruct (get32_total data 8) as [v ->]; [lia|]. obind.
  destruct (get16_total data 2) as [v' ->]; [lia|]. obind. eauto.
Qed.

(** ** Lemmas: the operations keep the invariant *)
Lemma pendingStep_ok i arrived remote s id :
  state_ok s ->
  exists s', pendingStep i arrived remote s id = Some s' /\ evolves s s'
    /\ (forall sid, is_Some (streams s' !! sid) <-> is_Some (streams s !! sid)).
Proof.
  intros Hs. unfold pendingStep. destruct (groups s !! id) as [g|] eqn:Eg; [|eauto using evolves_refl].
  destruct (existsb _ _); cbn [negb]; [|eauto using evolves_refl].
  pose proof Hs as [Hp (Hk & Hl & Hh & Hlen & Hsz & Hwf) Hst Hc Ha].
  destruct (Hwf _ _ Eg) as [Hg Hr].
  destruct (recoverGroup_ok s g (gidRemote id)) as (s1 & dg & -> & He & Hd & Hi); auto.
  { apply ac_groups; eauto. }
  obind. set (s2 := if (_ <=? 1)%nat then _ else s1).
  assert (H2 : evolves s s2 /\ streams s2 = streams s1).
  { subst s2. destruct (_ <=? 1)%nat; [|done]. split; [|done]. apply (evolves_trans _ _ _ He).
    destruct He as (Hs1 & _). pose proof (so_groups _ Hs1) as (Hk1 & Hl1 & Hh1 & Hlen1 & Hsz1 & Hwf1).
    assert (Hdel : forall id' g', delete id (groups s1) !! id' = Some g' -> groups s1 !! id' = Some g').
    { intros id' g' Hg'. by apply lookup_delete_Some in Hg' as [_ ?]. }
    replace (s1 <| groups := delete id (groups s1) |>) with
      (s1 <| groups := delete id (groups s1) |> <| groupHead := groupHead s1 |> <| groupOrder := groupOrder s1 |>)
      by by destruct s1.
    apply set_groups_ok; [done| |intros id' [g' Hg'%Hdel]; apply Hs1; eauto].
    unfold groups_ok. cbn. split_and!; auto.
    - intros id' [g' Hg'%Hdel]. eauto.
    - etrans; [|exact Hsz1]. apply map_subseteq_size, delete_subseteq. }
  clearbody s2. destruct H2 as [He2 Est].
  assert (Hdom : forall sid, is_Some (streams s2 !! sid) <-> is_Some (streams s !! sid)) by (rewrite Est; done).
  destruct (_ && _) eqn:Ec; [|eauto]. apply andb_true_iff in Ec as [_ Hadd%bool_decide_eq_true].
  destruct (conns s2 !! i) as [c|] eqn:Eci; [|eauto]. eexists. split; [done|]. split; [|done].
  apply (evolves_trans _ _ _ He2). destruct (conn_at _ _ _ (proj1 He2) Eci) as [(C1 & C2 & C3 & C4) [R1 R2 R3]].
  apply setConn_ok; [apply He2|by unfold conn_ok; split_and!|]. split; try done. cbn.
  intros d [?|Hd1]%elem_of_app; [auto|]. apply list_elem_of_singleton in Hd1 as ->. cbn. rewrite (Hi Hadd), (evolves_active _ _ _ He2).
  apply ac_groups; eauto.
Qed.

Lemma recoverPending_ok i arrived remote order s :
  state_ok s ->
  exists s', recoverPendingLocked s i arrived remote order = Some s' /\ evolves s s'
    /\ (forall sid, is_Some (streams s' !! sid) <-> is_Some (streams s !! sid)).
Proof.
  unfold recoverPendingLocked. revert s. induction order as [|id order IH]; intros s Hs; cbn [foldM].
  { eauto using evolves_refl. }
  destruct (pendingStep_ok i arrived remote s id Hs) as (s1 & -> & He & Hd). obind.
  destruct (IH s1 (proj1 He)) as (s2 & -> & He2 & Hd2). exists s2. split_and!; auto.
  - eauto using evolves_trans.
  - intros sid. by rewrite Hd2, Hd.
Qed.

(** The iteration over the streams visits every one of them. *)
Definition visits (s : recoveryState) (o : orders) : Prop :=
  forall id, is_Some (streams s !! id) -> id ∈ oStreams o.

Lemma remember_ok s i id data remote allow now o :
  state_ok s -> visits s o ->
  exists s' request, remember s i id data remote allow now o = Some (s', request) /\ evolves s s'.
Proof.
  intros Hs Ho. unfold remember. destruct (activeIdentityLocked _ _) eqn:Ha; cbn [negb]; [|eauto using evolves_refl].
  destruct (_ && _); cbn [negb]; [|eauto using evolves_refl].
  destruct (storePacket_ok s id data Hs Ha) as (s1 & -> & He1 & Hst & _ & _). obind.
  set (sid := mkSid (pidRemote id) (pidSsrc id)).
  pose proof (streamLocked_ok s1 sid now (oStreams o) (proj1 He1)) as Hstream.
  destruct (streamLocked s1 sid now (oStreams o)) as [s2 st]. cbn [fst snd] in Hstream.
  destruct Hstream as (He2 & Hin & _).
  { by rewrite (evolves_active _ _ _ He1). }
  { rewrite Hst. exact Ho. }
  match goal with |- context[<[sid := ?x]> (streams s2)] => set (st' := x) end.
  pose proof (insert_stream_ok s2 sid st' (proj1 He2) (ex_intro _ _ Hin)) as He3.
  match goal with |- context[recoverPendingLocked ?x _ _ _ _] => set (s3 := x) in * end.
  destruct (recoverPending_ok i id remote (oGroups o) s3 (proj1 He3)) as (s4 & -> & He4 & _). obind.
  assert (He : evolves s s4) by eauto using evolves_trans. clear - He.
  set (s5 := s4 <| packetsSince := _ |>).
  assert (He5 : evolves s s5).
  { apply (evolves_trans _ _ _ He). destruct He as [[? ? ? ? [? ? ? A]] _]. unfold evolves. split_and!; try done.
    split; try done. split; try done. apply (Forall_impl _ _ _ A). intros c []. by split. }
  set (s6 := if _ =? 0 then _ else s5).
  assert (He6 : evolves s s6).
  { subst s6. destruct (_ =? 0); [|done]. apply (evolves_trans _ _ _ He5), trimStreams_ok, He5. }
  clearbody s6. destruct (streams s6 !! sid) as [st6|] eqn:E6; [|eauto].
  destruct (enabled st6); cbn [negb]; [|eauto]. destruct (dueRepairs st6 now (oMissing o) []) as [st7 due].
  eexists _, _. split; [done|]. apply (evolves_trans _ _ _ He6), insert_stream_ok; [apply He6|eauto].
Qed.

Lemma consumeParity_ok s i local data remote allow now o :
  state_ok s -> visits s o -> is_Some (conns s !! i) ->
  exists s' dg request, consumeParity s i local data remote allow now o = Some (s', dg, request) /\ evolves s s'.
Proof.
  intros Hs Ho [c Hc]. unfold consumeParity. destruct (_ && _); cbn [negb]; [|eauto 6 using evolves_refl].
  destruct (parseRecoveryGroup_total data remote) as (r & -> & Hr). obind.
  destruct r as [[g gid]|]; [|eauto 6 using evolves_refl]. destruct (Hr _ _ eq_refl) as [Hwf _]. rewrite Hc. obind.
  set (identity := identityLocked c local remote).
  destruct (activeIdentityLocked s identity) eqn:Ha; cbn [negb]; [|eauto 6 using evolves_refl].
  set (gid' := mkGid identity _ _). set (g' := mkGroup _ _ _). cbn [gidSsrc gid'].
  assert (Hwf' : group_wf g').
  { unfold group_wf, g' in *. cbn. apply Forall_fmap. apply (Forall_impl _ _ _ Hwf). done. }
  assert (Hrem : Forall (λ e, pidRemote (entryId e) = identity) (entries g')).
  { unfold g'. cbn. apply Forall_fmap, Forall_forall. done. }
  set (sid := mkSid identity _).
  pose proof (streamLocked_ok s sid now (oStreams o) Hs Ha Ho) as Hstream.
  destruct (streamLocked s sid now (oStreams o)) as [s2 st]. cbn [fst snd] in Hstream.
  destruct Hstream as (He2 & Hin & _).
  match goal with |- context[<[sid := ?x]> (streams s2)] => set (st' := x) end.
  pose proof (insert_stream_ok s2 sid st' (proj1 He2) (ex_intro _ _ Hin)) as He3.
  match goal with |- context[recoverGroupLocked ?x _] => set (s3 := x) in * end.
  assert (E3 : evolves s s3) by eauto using evolves_trans.
  destruct (recoverGroup_ok s3 g' identity (proj1 E3) Hwf' Hrem) as (s4 & dg & -> & He4 & _).
  { by rewrite (evolves_active _ _ _ E3). }
  obind. assert (E4 : evolves s s4) by eauto using evolves_trans. clear He4 He3 He2.
  destruct (_ =? 0)%nat; [eauto 6|]. destruct (_ =? 1)%nat; [eauto 6|].
  destruct (streams s4 !! sid) as [st4|] eqn:Est; [|eauto 6].
  match goal with |- context[storeGroupLocked (s4 <| streams := <[sid := ?x]> (streams s4) |>)] => set (st5 := x) end.
  pose proof (insert_stream_ok s4 sid st5 (proj1 E4) (ex_intro _ _ Est)) as He5.
  set (s5 := s4 <| streams := _ |>) in *. assert (E5 : evolves s s5) by eauto using evolves_trans.
  destruct (storeGroup_ok s5 gid' g' (proj1 E5) Hwf' Hrem) as (s6 & -> & He6 & Hst6).
  { by rewrite (evolves_active _ _ _ E5). }
  obind. destruct (dueRepairs st5 now (oMissing o) []) as [st7 due]. eexists _, _, _. split; [done|].
  apply (evolves_trans _ _ _ E5), (evolves_trans _ _ _ He6), insert_stream_ok; [apply He6|].
  rewrite Hst6. unfold s5. cbn. rewrite lookup_insert_eq. eauto.
Qed.

Lemma map_size_insert_le {K A} `{Countable K} (m : gmap K A) k v : (size (<[k := v]> m) <= S (size m))%nat.
Proof.
  destruct (m !! k) eqn:E; [rewrite map_size_insert_Some by eauto|rewrite map_size_insert_None by done]; lia.
Qed.

(** A table that is emptied when it is full has room for one more. *)
Lemma room_after_clear {K A} `{Countable K} (m : gmap K A) (full : bool) (bound : nat) :
  (full = false -> (size m < bound)%nat) -> (0 < bound)%nat -> (size (if full then ∅ else m) < bound)%nat.
Proof. intros H1 H2. destruct full; [rewrite map_size_empty; lia|auto]. Qed.

Lemma observeBinding_ok s i m remote out : state_ok s -> evolves s (observeBinding s i m remote out).
Proof.
  intros Hs. unfold observeBinding. destruct m as [m|]; [|by apply evolves_refl].
  destruct (conns s !! i) as [c|] eqn:Ec; [|by apply evolves_refl].
  destruct (conn_at _ _ _ Hs Ec) as [(C1 & C2 & C3 & C4) [R1 R2 R3]].
  destruct (stType m), out; try by apply evolves_refl.
  - apply setConn_ok; [done| |]; unfold rememberBindingLocked; destruct (stUsername m) as [u|];
      try destruct (513 <? _); try (split; done); try (unfold conn_ok; by split_and!).
    unfold conn_ok. cbn. split_and!; auto. set (full := recoveryHistorySize <=? _).
    assert (Hroom : (size (if full then ∅ else pendingBindings c) < 4096)%nat).
    { apply room_after_clear; [|lia]. unfold full, recoveryHistorySize in *. lia. }
    set (p := if full then _ else _) in *. clearbody p. unfold recoveryHistorySize in *.
    destruct (p !! _); [lia|].
    pose proof (map_size_insert_le p (mkBid remote (stTransaction m)) u). lia.
  - apply setConn_ok; [done| |]; unfold confirmBindingLocked;
      set (u := default "" _); set (full := recoveryHistorySize <=? _);
      destruct (String.eqb u "" || _) eqn:Eu.
    + unfold conn_ok. cbn. split_and!; auto. etrans; [|exact C1]. apply inj_le, map_subseteq_size, delete_subseteq.
    + unfold conn_ok. cbn. split_and!; auto.
      * etrans; [|exact C1]. apply inj_le, map_subseteq_size, delete_subseteq.
      * assert (Hroom : (size (if full then ∅ else identities c) < 4096)%nat).
        { apply room_after_clear; [|lia]. unfold full, recoveryHistorySize in *. cbn in *. lia. }
        set (p := if full then _ else _) in *. clearbody p.
        pose proof (map_size_insert_le p remote u). unfold recoveryHistorySize in *. lia.
    + by split.
    + apply orb_false_iff in Eu as [Eu%String.eqb_neq Ea%negb_false_iff].
      split; try done. cbn. intros k u' Hk. destruct (decide (remote = k)) as [<-|].
      * rewrite lookup_insert_eq in Hk. injection Hk as <-. auto.
      * rewrite lookup_insert_ne in Hk by done. destruct full; [by rewrite lookup_empty in Hk|eauto].
Qed.

Lemma deliveryReceipt_ok s i id data digest remote now :
  state_ok s ->
  exists s' receipt, deliveryReceipt s i id data digest remote now = Some (s', receipt) /\ evolves s s'.
Proof.
  intros Hs. unfold deliveryReceipt. destruct (streams s !! _) as [st|] eqn:Est; [|eauto using evolves_refl].
  destruct (conns s !! i) as [c|] eqn:Ec; [|eauto using evolves_refl].
  destruct (_ || _); [eauto using evolves_refl|].
  destruct (conn_at _ _ _ Hs Ec) as [(C1 & C2 & C3 & C4) [R1 R2 R3]].
  assert (Ha : activeIdentityLocked s (pidRemote id) = true).
  { apply (ac_streams _ (so_active _ Hs) (mkSid (pidRemote id) (pidSsrc id))). eauto. }
  set (full := (recoveryStreamLimit <=? _)%nat). set (fresh := mkBatch _ _ _ _).
  match goal with |- context[match ?x with pair ds b => _ end] => set (picked := x) end.
  assert (Hp : batch_ok picked.2 /\ batchIdentity picked.2 = pidRemote id
            /\ (forall k b, picked.1 !! k = Some b -> deliveries c !! k = Some b)
            /\ (forall b, (size (<[remote := b]> picked.1) <= recoveryStreamLimit)%nat)).
  { assert (Hf : batch_ok fresh) by (split; [cbn; lia|done]).
    assert (Hfull : forall k b, (if full then ∅ else deliveries c) !! k = Some b -> deliveries c !! k = Some b).
    { intros k b. destruct full; [by rewrite lookup_empty|done]. }
    assert (Hroom : (size (if full then ∅ else deliveries c) < recoveryStreamLimit)%nat).
    { apply room_after_clear; [|unfold recoveryStreamLimit; lia]. unfold full. intros ?%Nat.leb_gt. lia. }
    assert (Hsz : forall b, (size (<[remote := b]> (if full then ∅ else deliveries c)) <= recoveryStreamLimit)%nat).
    { intros b. pose proof (map_size_insert_le (if full then ∅ else deliveries c) remote b). lia. }
    subst picked. destruct (deliveries c !! remote) as [b|] eqn:Eb; [|by split_and!].
    destruct (String.eqb_spec (batchIdentity b) (pidRemote id)); [|by split_and!].
    split_and!; try done; [by eapply C4|]. cbn. intros b'. by rewrite map_size_insert_Some. }
  destruct picked as [ds b]. cbn [fst snd] in Hp. destruct Hp as ((Hcnt & Htok) & Hid & Hds & Hsz).
  rewrite (proj2 (Z.leb_gt _ _)) by lia.
  assert (Hconn : forall b', batch_ok b' -> batchIdentity b' = pidRemote id ->
            evolves s (setConn s i (c <| deliveries := <[remote := b']> ds |>))).
  { intros b' Hb' Hi'. apply setConn_ok; [done| |].
    - unfold conn_ok. cbn. split_and!; auto. intros k b0 Hk. destruct (decide (remote = k)) as [<-|].
      + rewrite lookup_insert_eq in Hk. by injection Hk as <-.
      + rewrite lookup_insert_ne in Hk by done. eauto.
    - split; try done. cbn. intros k b0 Hk. destruct (decide (remote = k)) as [<-|].
      + rewrite lookup_insert_eq in Hk. injection Hk as <-. by rewrite Hi'.
      + rewrite lookup_insert_ne in Hk by done. eauto. }
  destruct (_ && _) eqn:Ewait; cbn [flush]; eexists _, _; (split; [done|]); apply Hconn; try done.
  - apply andb_true_iff in Ewait as [Ew _]. cbn in Ew. unfold u8 in *.
    rewrite Z.mod_small in * by lia. split; cbn; [lia|by rewrite length_insert].
  - split; cbn; [lia|by rewrite length_insert].
Qed.

Lemma popReady_ok s i : state_ok s -> evolves s (popReady s i).1.
Proof.
  intros Hs. unfold popReady. destruct (conns s !! i) as [c|] eqn:Ec; [|by apply evolves_refl].
  destruct (ready c) as [|d rest] eqn:Er; [by apply evolves_refl|].
  destruct (conn_at _ _ _ Hs Ec) as [(C1 & C2 & C3 & C4) [R1 R2 R3]].
  apply setConn_ok; [done|unfold conn_ok; by split_and!|]. split; try done.
  intros d' Hd'. apply R1. rewrite Er. by constructor.
Qed.

Lemma ListenUDP_ok s : state_ok s -> state_ok (ListenUDP s).
Proof.
  intros [Hp Hg Hs Hc [A1 A2 A3 A4]]. split; try done.
  - apply Forall_app. split; [done|]. constructor; [|constructor]. unfold conn_ok. cbn.
    rewrite !map_size_empty. split_and!; try (unfold recoveryHistorySize, recoveryStreamLimit; lia).
    intros k b Hk. by rewrite lookup_empty in Hk.
  - split; try done. apply Forall_app. split.
    + apply (Forall_impl _ _ _ A4). intros c []. by split.
    + constructor; [|constructor]. split; cbn.
      * intros d []%not_elem_of_nil.
      * intros k u Hk. by rewrite lookup_empty in Hk.
      * intros k b Hk. by rewrite lookup_empty in Hk.
Qed.

(** The invariant under a change of the active peers that keeps the ones in use. *)
Lemma active_mono s act :
  state_ok s -> (forall i, activeIdentityLocked s i = true -> activeIdentityLocked (s <| active := act |>) i = true) ->
  state_ok (s <| active := act |>).
Proof.
  intros [Hp Hg Hs Hc [A1 A2 A3 A4]] Hm. split; try done.
  split; [intros id Hid; by apply Hm, A1|intros id Hid; by apply Hm, A2|intros id Hid; by apply Hm, A3|].
  apply (Forall_impl _ _ _ A4). intros c [R1 R2 R3]. split; eauto.
  intros k u Hk. destruct (R2 k u Hk). auto.
Qed.

Lemma GetConn_ok s ufrag ok : state_ok s -> state_ok (GetConn s ufrag ok).
Proof.
  intros Hs. unfold GetConn. destruct ok; [|done]. destruct (active s) as [act|] eqn:Ea; [|done].
  apply active_mono; [done|]. intros i. unfold activeIdentityLocked. rewrite Ea. cbn.
  destruct (ufragOf i); [|done]. rewrite !bool_decide_eq_true, elem_of_union. tauto.
Qed.

(** ** Lemmas: removing a peer *)
Lemma Cut_Some s sep a b : Cut s sep = (a, Some b) -> s = a +:+ String sep b.
Proof.
  revert a. induction s as [|c s IH]; intros a; cbn; [done|].
  destruct (Ascii.eqb_spec c sep) as [->|].
  - intros [= <- <-]. done.
  - destruct (Cut s sep) as [a' b'] eqn:E. intros [= <- ->]. rewrite (IH a' eq_refl). done.
Qed.

(** An identity with the ufrag [u] starts with the prefix the removal of [u]
    looks for; so does its username. *)
Lemma ufragOf_prefix i u : ufragOf i = Some u -> HasPrefix i ("ice:" +:+ u +:+ ":") = true.
Proof.
  unfold ufragOf. destruct (CutPrefix i "ice:") as [r|] eqn:E; [|done]. obind. apply CutPrefix_app in E as ->.
  destruct (Cut r colon) as [a [b|]] eqn:Ec; [|done]. intros [= ->]. apply Cut_Some in Ec as ->.
  apply HasPrefix_spec. exists b. rewrite !Text.string_app_assoc. done.
Qed.

Lemma ufragOf_username_prefix r u : ufragOf ("ice:" +:+ r) = Some u -> HasPrefix r (u +:+ ":") = true.
Proof.
  unfold ufragOf. rewrite (proj2 (CutPrefix_app ("ice:" +:+ r) "ice:" r) eq_refl). obind.
  destruct (Cut r colon) as [a [b|]] eqn:Ec; [|done]. intros [= ->]. apply Cut_Some in Ec as ->.
  apply HasPrefix_spec. exists b. rewrite !Text.string_app_assoc. done.
Qed.

(** What the removal keeps was active and is not the removed peer's. *)
Lemma remove_keeps_active s ufrag i :
  activeIdentityLocked s i = true -> (forall u, ufragOf i = Some u -> u <> ufrag) ->
  activeIdentityLocked (RemoveConnByUfrag s ufrag) i = true.
Proof.
  unfold activeIdentityLocked. cbn. destruct (active s) as [act|]; [|done].
  destruct (ufragOf i) as [u|] eqn:E; [|done]. rewrite !bool_decide_eq_true, elem_of_difference, elem_of_singleton.
  eauto.
Qed.

Lemma kept_identity s ufrag i :
  activeIdentityLocked s i = true -> HasPrefix i ("ice:" +:+ ufrag +:+ ":") = false ->
  activeIdentityLocked (RemoveConnByUfrag s ufrag) i = true.
Proof.
  intros Ha Hp. apply remove_keeps_active; [done|]. intros u Hu ->. apply ufragOf_prefix in Hu. congruence.
Qed.

Lemma kept_username s ufrag r :
  activeIdentityLocked s ("ice:" +:+ r) = true -> HasPrefix r (ufrag +:+ ":") = false ->
  activeIdentityLocked (RemoveConnByUfrag s ufrag) ("ice:" +:+ r) = true.
Proof.
  intros Ha Hp. apply remove_keeps_active; [done|]. intros u Hu ->. apply ufragOf_username_prefix in Hu. congruence.
Qed.

Lemma filter_size_le {K A} `{Countable K} (P : K * A -> Prop) `{!forall x, Decision (P x)} (m : gmap K A) :
  (size (filter P m) <= size m)%nat.
Proof. apply map_subseteq_size, map_filter_subseteq. Qed.

Lemma remove_packets_ok s ufrag : packets_ok s -> packets_ok (RemoveConnByUfrag s ufrag).
Proof.
  intros (H1 & H2 & H3 & H4 & H5). unfold packets_ok. cbn [packets packetOrder packetHead RemoveConnByUfrag].
  rewrite drop_0. split_and!.
  - by apply NoDup_filter.
  - intros id. rewrite list_elem_of_filter, H2. split.
    + intros [Hp [d Hd]]. exists d. by apply map_lookup_filter_Some.
    + intros [d [Hd Hp]%map_lookup_filter_Some]. eauto.
  - lia.
  - unfold recoveryHistorySize. lia.
  - pose proof (filter_size_le (λ '(id, _), HasPrefix (pidRemote id) ("ice:" +:+ ufrag +:+ ":") = false) (packets s)). lia.
Qed.

Lemma remove_groups_ok s ufrag : groups_ok s -> groups_ok (RemoveConnByUfrag s ufrag).
Proof.
  intros (H1 & H2 & H3 & H4 & H5 & H6). unfold groups_ok. cbn [groups groupOrder groupHead RemoveConnByUfrag].
  rewrite drop_0. split_and!.
  - intros id [g [Hg Hp]%map_lookup_filter_Some]. rewrite list_elem_of_filter. eauto.
  - lia.
  - unfold recoveryGroupLimit. lia.
  - etrans; [apply length_filter|]. rewrite length_drop. lia.
  - etrans; [apply filter_size_le|done].
  - intros id g [Hg _]%map_lookup_filter_Some. by apply H6.
Qed.

Lemma RemoveConnByUfrag_ok s ufrag : state_ok s -> state_ok (RemoveConnByUfrag s ufrag).
Proof.
  intros [Hp Hg Hs Hc [A1 A2 A3 A4]]. split.
  - by apply remove_packets_ok.
  - by apply remove_groups_ok.
  - unfold streams_ok in *. cbn. etrans; [apply filter_size_le|done].
  - cbn. apply Forall_fmap. apply (Forall_impl _ _ _ Hc). intros c (C1 & C2 & C3 & C4). unfold conn_ok. cbn.
    split_and!; try (etrans; [try apply inj_le; apply filter_size_le|done]).
    intros k b [Hk _]%map_lookup_filter_Some. eauto.
  - split; cbn.
    + intros id [d [Hd ?]%map_lookup_filter_Some]. apply kept_identity; eauto.
    + intros id [d [Hd ?]%map_lookup_filter_Some]. apply kept_identity; eauto.
    + intros id [d [Hd ?]%map_lookup_filter_Some]. apply kept_identity; eauto.
    + apply Forall_fmap. apply (Forall_impl _ _ _ A4). intros c [R1 R2 R3]. split; cbn.
      * intros d [? ?]%list_elem_of_filter. apply kept_identity; eauto.
      * intros k u [Hk ?]%map_lookup_filter_Some. destruct (R2 k u Hk). split; [done|]. by apply kept_username.
      * intros k b [Hk ?]%map_lookup_filter_Some. apply kept_identity; eauto.
Qed.

(** ** Reachable states

    A method takes the mutex for one section at a time, so the sections of the
    sockets' readers and of the mux interleave in any order.  A section is
    labelled with the ufrag it registers, if it does. *)
Inductive section : option string -> recoveryState -> recoveryState -> Prop :=
| sec_listen s : section None s (ListenUDP s)
| sec_pop s i : section None s (popReady s i).1
| sec_remember s i id data remote allow now o s' request :
    visits s o -> remember s i id data remote allow now o = Some (s', request) -> section None s s'
| sec_parity s i local data remote allow now o s' dg request :
    visits s o -> consumeParity s i local data remote allow now o = Some (s', dg, request) -> section None s s'
| sec_receipt s i id data digest remote now s' receipt :
    deliveryReceipt s i id data digest remote now = Some (s', receipt) -> section None s s'
| sec_bind s i m remote outgoing : section None s (observeBinding s i m remote outgoing)
| sec_get s ufrag ok : section (Some ufrag) s (GetConn s ufrag ok)
| sec_remove s ufrag : section None s (RemoveConnByUfrag s ufrag).

(** Before the mux exists no ufrag is registered, so nothing is answered; the
    sockets may already be read. *)
Inductive boot : recoveryState -> Prop :=
| boot_new : boot newRecoveryState
| boot_listen s : boot s -> boot (ListenUDP s)
| boot_read s i local bufLen read allow now t1 o stun sha s' out sent :
    boot s -> ReadFrom s i local bufLen read allow now t1 o stun sha = Some (s', out, sent) -> boot s'.

Inductive reach : recoveryState -> Prop :=
| reach_mux s : boot s -> reach (newRecoveryMux s)
| reach_step l s s' : reach s -> section l s s' -> reach s'.

(** A booting state: only requests seen so far. *)
Definition silent (s : recoveryState) : Prop :=
  packets s = ∅ /\ packetOrder s = [] /\ packetHead s = 0%nat /\ streams s = ∅ /\ groups s = ∅
  /\ groupOrder s = [] /\ groupHead s = 0%nat
  /\ Forall (λ c, ready c = [] /\ identities c = ∅ /\ deliveries c = ∅
                 /\ Z.of_nat (size (pendingBindings c)) <= recoveryHistorySize) (conns s).

Lemma silent_conn s i c :
  silent s -> ready c = [] -> identities c = ∅ -> deliveries c = ∅ ->
  Z.of_nat (size (pendingBindings c)) <= recoveryHistorySize -> silent (setConn s i c).
Proof.
  intros (? & ? & ? & ? & ? & ? & ? & Hc) **. unfold silent. cbn. split_and!; auto. by apply Forall_insert.
Qed.

Lemma silent_read s i local bufLen read allow now t1 o stun sha s' out sent :
  silent s -> ReadFrom s i local bufLen read allow now t1 o stun sha = Some (s', out, sent) -> silent s'.
Proof.
  intros Hs. pose proof Hs as (_ & _ & _ & _ & _ & _ & _ & Hc). unfold ReadFrom, popReady.
  destruct (conns s !! i) as [c|] eqn:Ec.
  2:{ destruct read as [[data remote]|]; [rewrite Ec; obind; discriminate|]. by intros [= <- <- <-]. }
  destruct (Forall_lookup_1 _ _ _ _ Hc Ec) as (R & I & D & P). rewrite R.
  assert (Hid : forall remote, authenticatedIdentity c remote = "").
  { intros remote. unfold authenticatedIdentity. by rewrite I, lookup_empty. }
  destruct read as [[data remote]|]; [|by intros [= <- <- <-]]. rewrite Ec. obind. rewrite !Hid.
  destruct (hasRecoveryMagic data); [by intros [= <- <- <-]|].
  destruct (recoveryRTPPacketID data) as [[id|]|]; obind; [by intros [= <- <- <-]| |discriminate].
  intros [= <- <- <-]. unfold observeBinding. destruct stun as [m|]; [|done]. rewrite Ec.
  destruct (stType m); try done. unfold rememberBindingLocked.
  destruct (stUsername m) as [u|]; [|by apply silent_conn]. destruct (513 <? _); [by apply silent_conn|].
  apply silent_conn; try done. cbn.
  set (full := recoveryHistorySize <=? _).
  assert (Hroom : (size (if full then ∅ else pendingBindings c) < 4096)%nat).
  { apply room_after_clear; [|lia]. unfold full, recoveryHistorySize in *. lia. }
  set (p := if full then _ else _) in *. clearbody p. unfold recoveryHistorySize.
  destruct (p !! _); [lia|]. pose proof (map_size_insert_le p (mkBid remote (stTransaction m)) u). lia.
Qed.

Lemma boot_silent s : boot s -> silent s.
Proof.
  induction 1 as [|s _ IH|]; [| |by eapply silent_read].
  - unfold silent. by split_and!.
  - destruct IH as (? & ? & ? & ? & ? & ? & ? & Hc). unfold silent. cbn. split_and!; auto.
    apply Forall_app. split; [done|]. constructor; [|constructor]. split_and!; try done.
Qed.

Lemma silent_ok s : silent s -> state_ok (newRecoveryMux s).
Proof.
  intros (E1 & E2 & E3 & E4 & E5 & E6 & E7 & Hc). split.
  - unfold packets_ok. cbn. rewrite E1, E2, E3. cbn. split_and!; try (unfold recoveryHistorySize; lia); [constructor| |].
    + intros id. rewrite lookup_empty, elem_of_nil. split; [done|]. by intros [? ?].
    + rewrite map_size_empty. unfold recoveryHistorySize. lia.
  - unfold groups_ok. cbn. rewrite E5, E6, E7. cbn. rewrite map_size_empty.
    split_and!; try (unfold recoveryGroupLimit; lia).
    + intros id [? Hx]. by rewrite lookup_empty in Hx.
    + intros id g Hx. by rewrite lookup_empty in Hx.
  - unfold streams_ok. cbn. rewrite E4, map_size_empty. lia.
  - apply (Forall_impl _ _ _ Hc). intros c (R & I & D & P). unfold conn_ok. rewrite I, D, !map_size_empty.
    split_and!; try (unfold recoveryHistorySize, recoveryStreamLimit; lia); [done|].
    intros k b Hx. by rewrite lookup_empty in Hx.
  - split; cbn; rewrite ?E1, ?E4, ?E5; try (intros id [? Hx]; by rewrite lookup_empty in Hx).
    apply (Forall_impl _ _ _ Hc). intros c (R & I & D & P). split; rewrite ?R, ?I, ?D.
    + intros d []%not_elem_of_nil.
    + intros k u Hx. by rewrite lookup_empty in Hx.
    + intros k b Hx. by rewrite lookup_empty in Hx.
Qed.

(** A section other than a registration keeps the set of peers or shrinks it. *)
Lemma section_ok l s s' :
  state_ok s -> section l s s' ->
  state_ok s' /\ forall act u, active s = Some act -> u ∉ act -> l <> Some u ->
                   exists act', active s' = Some act' /\ u ∉ act'.
Proof.
  intros Hs Hstep.
  assert (Hev : evolves s s' -> state_ok s' /\ forall act u, active s = Some act -> u ∉ act -> l <> Some u ->
                   exists act', active s' = Some act' /\ u ∉ act').
  { intros (Hs' & Ha & _). split; [done|]. intros act u Hact Hu _. exists act. by rewrite Ha. }
  destruct Hstep as [s|s i|s i id data remote allow now o s' request Hv E|s i local data remote allow now o s' dg request Hv E
    |s i id data digest remote now s' receipt E|s i m remote outgoing|s ufrag ok|s ufrag].
  - split; [by apply ListenUDP_ok|]. eauto.
  - by apply Hev, popReady_ok.
  - destruct (remember_ok s i id data remote allow now o Hs Hv) as (s1 & r1 & E1 & He). apply Hev. congruence.
  - destruct (decide (is_Some (conns s !! i))) as [Hi|Hi].
    + destruct (consumeParity_ok s i local data remote allow now o Hs Hv Hi) as (s1 & d1 & r1 & E1 & He).
      apply Hev. congruence.
    + apply eq_None_not_Some in Hi. apply Hev. unfold consumeParity in E. destruct (negb _).
      { injection E as <- <- <-. by apply evolves_refl. }
      destruct (parseRecoveryGroup data remote) as [[[g gid]|]|]; cbn [mbind option_bind] in E; [|by injection E as <- <- <-; apply evolves_refl|done].
      rewrite Hi in E. done.
  - destruct (deliveryReceipt_ok s i id data digest remote now Hs) as (s1 & r1 & E1 & He). apply Hev. congruence.
  - by apply Hev, observeBinding_ok.
  - split; [by apply GetConn_ok|]. intros act u Hact Hu Hne. unfold GetConn. rewrite Hact.
    destruct ok; [|eauto]. exists ({[ufrag]} ∪ act). split; [done|]. rewrite elem_of_union, elem_of_singleton.
    intros [->|?]; congruence.
  - split; [by apply RemoveConnByUfrag_ok|]. intros act u Hact Hu _. cbn. rewrite Hact.
    exists (act ∖ {[ufrag]}). split; [done|]. rewrite elem_of_difference. tauto.
Qed.

Lemma reach_ok s : reach s -> state_ok s.
Proof.
  induction 1 as [s Hb|l s s' _ IH Hstep]; [by apply silent_ok, boot_silent|]. by apply (section_ok l s s').
Qed.

(** ** Parity, as the sender makes it

    A packet is its sequence number and its bytes; the parity datagram carries
    the exclusive or of the packets, each padded with zeros. *)
Definition byteAt (p : list Z) (j : nat) : Z := default 0 (p !! j).

Definition xors (ps : list (list Z)) (j : nat) : Z := foldr (λ p acc, Z.lxor (byteAt p j) acc) 0 ps.

Definition longest (ps : list (list Z)) : nat := foldr (λ p n, Nat.max (length p) n) 0%nat ps.

Definition parityOf (ps : list (list Z)) : list Z := xors ps <$> seq 0 (longest ps).

Definition entriesOf (remote : string) (ssrc : Z) (pkts : list (Z * list Z)) : list recoveryEntry :=
  (λ x, mkEntry (mkPid remote ssrc x.1) (Z.of_nat (length x.2))) <$> pkts.

Definition groupOf (identity : string) (ssrc : Z) (pkts : list (Z * list Z)) (addr : string) : recoveryGroup :=
  mkGroup (entriesOf identity ssrc pkts) (parityOf (snd <$> pkts)) addr.

Definition entryBytes (pkts : list (Z * list Z)) : list Z :=
  pkts ≫= (λ x, put16 x.1 ++ put16 (Z.of_nat (length x.2))).

Definition parityDatagram (ssrc : Z) (pkts : list (Z * list Z)) : list Z :=
  magic ++ [recoveryParityType; u8 (Z.of_nat (length pkts)); 0; 0] ++ put32 ssrc
    ++ entryBytes pkts ++ parityOf (snd <$> pkts).

(** A packet a parity group may cover. *)
Definition coverable (x : Z * list Z) : Prop := is_u16 x.1 /\ 12 <= Z.of_nat (length x.2) < 65536.

Lemma byteAt_ext (a b : list Z) : length a = length b -> (forall j, (j < length a)%nat -> byteAt a j = byteAt b j) -> a = b.
Proof.
  intros Hl Hb. apply list_eq. intros j. destruct (decide (j < length a)%nat) as [Hj|Hj].
  - specialize (Hb j Hj). unfold byteAt in Hb. destruct (lookup_lt_is_Some_2 a j Hj) as [x Hx].
    destruct (lookup_lt_is_Some_2 b j) as [y Hy]; [lia|]. rewrite Hx, Hy in *. cbn in Hb. congruence.
  - rewrite !lookup_ge_None_2 by lia. done.
Qed.

Lemma byteAt_take n p j : (j < n)%nat -> byteAt (take n p) j = byteAt p j.
Proof. intros. unfold byteAt. by rewrite lookup_take_lt. Qed.

Lemma xorInto_byte data packet r :
  xorInto data packet = Some r -> (length packet <= length data)%nat ->
  forall j, byteAt r j = Z.lxor (byteAt data j) (byteAt packet j).
Proof.
  revert packet r. induction data as [|d data IH]; intros [|q packet] r; cbn [xorInto]; try done.
  - intros [= <-] _ j. unfold byteAt. by rewrite !lookup_nil.
  - intros [= <-] _ j. unfold byteAt. rewrite lookup_nil. cbn. by rewrite Z.lxor_0_r.
  - destruct (xorInto data packet) as [r'|] eqn:E; obind; [|done]. intros [= <-] Hl [|j]; [done|].
    cbn in Hl. unfold byteAt in *. cbn. apply (IH packet r'); [done|lia].
Qed.

Lemma xors_cons p ps j : xors (p :: ps) j = Z.lxor (byteAt p j) (xors ps j).
Proof. done. Qed.

Lemma xors_app a b j : xors (a ++ b) j = Z.lxor (xors a j) (xors b j).
Proof.
  induction a as [|x a IH]; [by rewrite Z.lxor_0_l|]. cbn [app]. by rewrite !xors_cons, IH, Z.lxor_assoc.
Qed.

Lemma longest_le ps p : p ∈ ps -> (length p <= longest ps)%nat.
Proof. induction 1; unfold longest in *; cbn [foldr]; lia. Qed.

Lemma parityOf_length ps : length (parityOf ps) = longest ps.
Proof. unfold parityOf. by rewrite length_fmap, length_seq. Qed.

Lemma parityOf_byte ps j : (j < longest ps)%nat -> byteAt (parityOf ps) j = xors ps j.
Proof.
  intros Hj. unfold byteAt, parityOf. rewrite list_lookup_fmap.
  by rewrite lookup_seq_lt.
Qed.

(** The known packets of a group are combined into the data. *)
Lemma combine_known ps r ssrc pkts es data w :
  Forall (λ x, ps !! mkPid r ssrc x.1 = Some x.2 /\ (length x.2 <= length data)%nat) pkts ->
  exists data', length data' = length data
    /\ (forall j, byteAt data' j = Z.lxor (byteAt data j) (xors (snd <$> pkts) j))
    /\ combine ps (entriesOf r ssrc pkts ++ es) data w = combine ps es data' w.
Proof.
  revert data. induction pkts as [|x pkts IH]; intros data H.
  { exists data. split_and!; [done| |done]. intros j. cbn. by rewrite Z.lxor_0_r. }
  apply Forall_cons in H as [[Hx Hl] H]. change (entriesOf r ssrc (x :: pkts) ++ es)
    with (mkEntry (mkPid r ssrc x.1) (Z.of_nat (length x.2)) :: entriesOf r ssrc pkts ++ es).
  cbn [combine entryId entryLength]. rewrite Hx, Z.eqb_refl. cbn [negb].
  destruct (xorInto_total data x.2 Hl) as (d1 & E & Hd1). rewrite E. obind.
  destruct (IH d1) as (d2 & Hd2 & Hb & ->); [by rewrite Hd1|].
  exists d2. split_and!; [congruence| |done]. intros j.
  rewrite Hb, (xorInto_byte _ _ _ E Hl), fmap_cons, xors_cons. by rewrite Z.lxor_assoc.
Qed.

Lemma missing_known s r ssrc pkts :
  Forall (λ x, packets s !! mkPid r ssrc x.1 = Some x.2) pkts ->
  filter (λ e, packets s !! entryId e = None) (entriesOf r ssrc pkts) = [].
Proof.
  induction 1 as [|x pkts Hx _ IH]; [done|]. unfold entriesOf in *.
  rewrite fmap_cons, filter_cons, decide_False; [done|].
  cbn. by rewrite Hx.
Qed.

(** With all packets of a group but one at hand, what the loop computes is the
    missing packet. *)
Lemma recover_exact s r ssrc pre sq p post addr :
  packets s !! mkPid r ssrc sq = None ->
  Forall (λ x, packets s !! mkPid r ssrc x.1 = Some x.2) (pre ++ post) ->
  let g := groupOf r ssrc (pre ++ (sq, p) :: post) addr in
  missingOf s g = [sq]
  /\ exists d, combine (packets s) (entries g) (parity g) zeroEntry
        = Some (Some (d, mkEntry (mkPid r ssrc sq) (Z.of_nat (length p))))
      /\ (length p <= length d)%nat /\ take (length p) d = p.
Proof.
  intros Hn Hk g. apply Forall_app in Hk as [Hpre Hpost].
  set (all := snd <$> (pre ++ (sq, p) :: post)).
  assert (Hle : forall x, x ∈ pre ++ (sq, p) :: post -> (length x.2 <= length (parityOf all))%nat).
  { intros x Hx. rewrite parityOf_length. apply longest_le. unfold all. by apply list_elem_of_fmap_2. }
  assert (Hp : (length p <= length (parityOf all))%nat).
  { apply (Hle (sq, p)), elem_of_app. right. constructor. }
  split.
  { unfold missingOf, g, groupOf, entriesOf. cbn [entries]. rewrite fmap_app, filter_app, fmap_cons.
    pose proof (missing_known s r ssrc pre Hpre) as E1. pose proof (missing_known s r ssrc post Hpost) as E2.
    unfold entriesOf in E1, E2. rewrite E1, filter_cons, decide_True by done. by rewrite E2. }
  unfold g, groupOf. cbn [entries parity]. fold all. unfold entriesOf. rewrite fmap_app, fmap_cons.
  destruct (combine_known (packets s) r ssrc pre
    (mkEntry (mkPid r ssrc sq) (Z.of_nat (length p)) :: entriesOf r ssrc post) (parityOf all) zeroEntry)
    as (d1 & L1 & B1 & E1).
  { apply Forall_forall. intros x Hx. split; [exact (proj1 (Forall_forall _ _) Hpre x Hx)|]. apply Hle, elem_of_app. by left. }
  unfold entriesOf in E1. cbn [fst snd] in *. rewrite E1. cbn [combine entryId]. rewrite Hn.
  destruct (combine_known (packets s) r ssrc post [] d1 (mkEntry (mkPid r ssrc sq) (Z.of_nat (length p))))
    as (d2 & L2 & B2 & E2).
  { apply Forall_forall. intros x Hx. split; [exact (proj1 (Forall_forall _ _) Hpost x Hx)|].
    rewrite L1. apply Hle, elem_of_app. right. by constructor. }
  rewrite app_nil_r in E2. unfold entriesOf in E2. rewrite E2. exists d2. split; [done|]. split; [lia|].
  apply byteAt_ext; rewrite length_take; [lia|]. intros j Hj. rewrite byteAt_take, B2, B1 by lia.
  rewrite parityOf_byte by (rewrite <-parityOf_length; lia). unfold all.
  rewrite fmap_app, fmap_cons, xors_app, xors_cons. cbn [snd].
  apply Z.bits_inj'. intros n _. rewrite !Z.lxor_spec. by destruct (Z.testbit (xors _ _) n), (Z.testbit (byteAt _ _) n), (Z.testbit (xors _ _) n).
Qed.

Lemma get16_app pre v post : is_u16 v -> get16 (pre ++ put16 v ++ post) (length pre) = Some v.
Proof.
  intros Hv. unfold get16, put16. rewrite !(lookup_app_r pre) by lia.
  rewrite Nat.sub_diag. replace (S (length pre) - length pre)%nat with 1%nat by lia. cbn. by rewrite be16_put16.
Qed.

Lemma parseEntries_app remote ssrc pkts pre post index m :
  length pre = (recoveryHeaderSize + index * 4)%nat -> Forall coverable pkts -> 0 <= m ->
  parseEntries (pre ++ entryBytes pkts ++ post) remote ssrc index (length pkts) m
  = Some (Some (entriesOf remote ssrc pkts, Z.max m (Z.of_nat (longest (snd <$> pkts))))).
Proof.
  revert pre index m. induction pkts as [|x pkts IH]; intros pre index m Hpre Hc Hm.
  { cbn. do 3 f_equal. lia. }
  apply Forall_cons in Hc as [[Hx Hl] Hc]. cbn [length parseEntries].
  change (entryBytes (x :: pkts)) with ((put16 x.1 ++ put16 (Z.of_nat (length x.2))) ++ entryBytes pkts).
  rewrite <-Hpre.
  replace (pre ++ ((put16 x.1 ++ put16 (Z.of_nat (length x.2))) ++ entryBytes pkts) ++ post)
    with ((pre ++ put16 x.1) ++ put16 (Z.of_nat (length x.2)) ++ entryBytes pkts ++ post) at 1 by by rewrite <-!app_assoc.
  replace (length pre + 2)%nat with (length (pre ++ put16 x.1)) by (rewrite length_app; done).
  rewrite get16_app by (unfold is_u16; lia). obind. rewrite (proj2 (Z.ltb_ge _ _)) by lia.
  rewrite <-!app_assoc, get16_app by done. obind.
  replace (pre ++ put16 x.1 ++ put16 (Z.of_nat (length x.2)) ++ entryBytes pkts ++ post)
    with ((pre ++ put16 x.1 ++ put16 (Z.of_nat (length x.2))) ++ entryBytes pkts ++ post) by by rewrite <-!app_assoc.
  rewrite IH; [|rewrite !length_app; unfold recoveryHeaderSize in *; cbn [length put16]; lia|done|lia]. obind. rewrite fmap_cons. do 3 f_equal.
  change (longest (x.2 :: (snd <$> pkts))) with (Nat.max (length x.2) (longest (snd <$> pkts))). lia.
Qed.

Lemma entryBytes_length pkts : length (entryBytes pkts) = (length pkts * 4)%nat.
Proof.
  induction pkts as [|x pkts IH]; [done|].
  change (entryBytes (x :: pkts)) with ((put16 x.1 ++ put16 (Z.of_nat (length x.2))) ++ entryBytes pkts).
  rewrite length_app, IH. cbn. lia.
Qed.

(** Parsing gives back the group the sender encoded. *)
Lemma parse_parityDatagram ssrc pkts x remote :
  is_u32 ssrc -> (2 <= length pkts <= 32)%nat -> Forall coverable pkts -> last pkts = Some x ->
  parseRecoveryGroup (parityDatagram ssrc pkts) remote
  = Some (Some (groupOf remote ssrc pkts remote, mkGid remote ssrc x.1)).
Proof.
  intros Hs Hn Hc Hx. unfold parseRecoveryGroup.
  set (data := parityDatagram ssrc pkts).
  set (header := magic ++ [recoveryParityType; u8 (Z.of_nat (length pkts)); 0; 0] ++ put32 ssrc).
  assert (Hdata : data = header ++ entryBytes pkts ++ parityOf (snd <$> pkts)).
  { unfold data, parityDatagram, header. by rewrite <-!app_assoc. }
  assert (Hlen : length data = (12 + length pkts * 4 + longest (snd <$> pkts))%nat).
  { rewrite Hdata, !length_app, entryBytes_length, parityOf_length. cbn [length header]. cbn. lia. }
  unfold recoveryHeaderSize. rewrite (proj2 (Nat.ltb_ge _ _)) by lia.
  assert (Hcount : u8 (Z.of_nat (length pkts)) = Z.of_nat (length pkts)) by (unfold u8; apply Z.mod_small; lia).
  assert (E4 : data !! 4%nat = Some recoveryParityType) by done.
  assert (E5 : data !! 5%nat = Some (Z.of_nat (length pkts))) by (rewrite <-Hcount; done).
  rewrite E4. obind. rewrite Z.eqb_refl. cbn [negb]. rewrite E5. obind.
  rewrite (proj2 (Z.ltb_ge _ _)), (proj2 (Z.ltb_ge _ _)), (proj2 (Nat.ltb_ge _ _)) by lia. cbn [orb].
  assert (E8 : get32 data 8 = Some ssrc).
  { unfold get32. cbn. by rewrite be32_put32. }
  rewrite E8. obind. rewrite Nat2Z.id, Hdata, parseEntries_app by (done || lia). obind.
  assert (Hin : x ∈ pkts) by by apply last_Some_elem_of.
  assert (Hpos : (12 <= longest (snd <$> pkts))%nat).
  { pose proof (longest_le (snd <$> pkts) x.2 (list_elem_of_fmap_2 snd pkts x Hin)).
    destruct (proj1 (Forall_forall _ _) Hc x Hin) as [_ ?]. lia. }
  rewrite <-Hdata, Hlen, (proj2 (Z.eqb_neq _ _)) by lia.
  rewrite (proj2 (Z.eqb_eq _ _)) by lia. cbn [orb negb].
  assert (El : last (entriesOf remote ssrc pkts) = Some (mkEntry (mkPid remote ssrc x.1) (Z.of_nat (length x.2)))).
  { unfold entriesOf. by rewrite fmap_last, Hx. }
  rewrite El. obind.
  unfold groupOf. rewrite Hdata, app_assoc, drop_app_length'; [done|].
  rewrite length_app, entryBytes_length. done.
Qed.

(** ** Lemmas: gaps and repairs *)
Lemma addMissing_lookup ps id top l ms m :
  fold_left (addMissing ps id top) l ms !! m
  = match ms !! m with
    | Some t => Some t
    | None => if bool_decide (Exists (λ off, m = u16 (top + off)) l /\ ps !! mkPid (pidRemote id) (pidSsrc id) m = None)
              then Some zeroTime else None
    end.
Proof.
  revert ms. induction l as [|off l IH]; intros ms; cbn [fold_left].
  { destruct (ms !! m); [done|]. rewrite bool_decide_eq_false_2; [done|]. intros [Hx _]. by inversion Hx. }
  rewrite IH. unfold addMissing at 1. set (m0 := u16 (top + off)).
  destruct (decide (m = m0)) as [->|Hne].
  - destruct (ps !! mkPid _ _ m0) as [d|] eqn:Ep.
    + destruct (ms !! m0); [done|]. rewrite !bool_decide_eq_false_2; [done|by intros [_ ?]..].
    + destruct (ms !! m0) as [t|] eqn:Em; rewrite ?Em; [done|]. rewrite lookup_insert_eq.
      rewrite bool_decide_eq_true_2; [done|]. split; [by left|done].
  - assert (E : forall t, <[m0 := t]> ms !! m = ms !! m) by (intros; by rewrite lookup_insert_ne).
    assert (Hb : bool_decide (Exists (λ off, m = u16 (top + off)) (off :: l) /\ ps !! mkPid (pidRemote id) (pidSsrc id) m = None)
      = bool_decide (Exists (λ off, m = u16 (top + off)) l /\ ps !! mkPid (pidRemote id) (pidSsrc id) m = None)).
    { apply bool_decide_ext. rewrite Exists_cons. fold m0. tauto. }
    rewrite Hb. destruct (ps !! mkPid _ _ m0); [done|]. destruct (ms !! m0); [done|]. by rewrite E.
Qed.

(** The offsets of the loop are the numbers between the highest one seen and the
    new one that the sender still has. *)
Lemma gap_offsets top seq m :
  is_u16 top -> is_u16 seq -> is_u16 m -> 0 < u16 (seq - top) < 32768 ->
  let delta := u16 (seq - top) in
  let start := u16 (Z.max 1 (delta - recoveryHistorySize + 1)) in
  Exists (λ off, m = u16 (top + off)) (seqZ start (delta - start))
  <-> 0 < u16 (m - top) < delta /\ u16 (seq - m) < recoveryHistorySize.
Proof.
  intros Ht Hs Hm Hd delta start. unfold recoveryHistorySize in *.
  assert (Hst : start = Z.max 1 (delta - 4096 + 1)) by (unfold start, u16; apply Z.mod_small; lia).
  rewrite Exists_exists. setoid_rewrite elem_of_seqZ. rewrite Hst. unfold delta in *. clear start Hst delta. split.
  - intros (off & Hoff & ->). assert (E : u16 (u16 (top + off) - top) = off) by golia.
    rewrite E. split; [lia|]. golia.
  - intros [Hg Hw]. exists (u16 (m - top)). split; [|golia]. golia.
Qed.

(** The sender still has the packet, and it has not just been asked for. *)
Definition retained (st : recoveryStream) (m : Z) : Prop :=
  ~ (based st = true /\ recoveryHistorySize <= u16 (highest st - m) < 32768).

Definition eligible (st : recoveryStream) (now : time) (m : Z) : Prop :=
  retained st m /\ exists t, missing st !! m = Some t /\ (IsZero t = true \/ recoveryRetry <= tsub now t).

Lemma eligible_other st now m k v :
  m <> k -> eligible (st <| missing := partial_alter (λ _, v) k (missing st) |>) now m <-> eligible st now m.
Proof. intros H. unfold eligible, retained. cbn. by rewrite lookup_partial_alter_ne by done. Qed.

(** What one pass of [dueRepairs] adds to the request. *)
Record repairs (st : recoveryStream) (now : time) (order due : list Z) (st' : recoveryStream) (new : list Z) : Prop := {
  rp_sub : new `sublist_of` order;
  rp_eligible : Forall (eligible st now) new;
  rp_bound : (length (due ++ new) <= recoveryRequestSize)%nat;
  rp_all : (length (due ++ new) < recoveryRequestSize)%nat -> forall m, m ∈ order -> eligible st now m -> m ∈ new;
  rp_stamp : forall m, m ∈ new -> missing st' !! m = Some now;
  rp_rest : forall m, m ∉ new -> missing st' !! m = missing st !! m \/ missing st' !! m = None /\ ~ retained st m;
  rp_frame : highest st' = highest st /\ based st' = based st /\ enabled st' = enabled st
}.

Lemma repairs_skip st now m order due st' new :
  ~ eligible st now m -> repairs st now order due st' new -> repairs st now (m :: order) due st' new.
Proof.
  intros Hm [H1 H2 H3 H4 H5 H6 H7]. split; try done; [by constructor|].
  intros Hl k [->|Hk]%elem_of_cons Hk'; [done|auto].
Qed.

(** Dropping a number the sender no longer has. *)
Lemma repairs_drop st now m order due st' new :
  m ∉ order -> is_Some (missing st !! m) -> ~ retained st m ->
  repairs (st <| missing := delete m (missing st) |>) now order due st' new ->
  repairs st now (m :: order) due st' new.
Proof.
  intros Hm Hin Hr [H1 H2 H3 H4 H5 H6 H7].
  assert (Hne : forall k, k ∈ order -> k <> m) by (intros k Hk ->; done).
  assert (He : forall k, k ∈ order -> eligible (st <| missing := delete m (missing st) |>) now k <-> eligible st now k).
  { intros k Hk. apply (eligible_other st now k m None). auto. }
  assert (Hs : forall k, k ∈ new -> k ∈ order) by (intros k Hk; by eapply elem_of_sublist).
  split; try done; [by constructor| | |].
  - apply Forall_forall. intros k Hk. apply He; [auto|]. exact (proj1 (Forall_forall _ _) H2 k Hk).
  - intros Hl k [->|Hk]%elem_of_cons Hel; [by destruct Hel|]. by apply H4, He.
  - intros k Hk. cbn in H6. destruct (decide (k = m)) as [->|Hkm].
    + right. split; [|done]. destruct (H6 m Hk) as [->|[-> _]]; [apply lookup_delete_eq|done].
    + destruct (H6 k Hk) as [->|[? ?]]; [left; by apply lookup_delete_ne|by right].
Qed.

(** Asking for a number. *)
Lemma repairs_ask st now m order due st' new :
  m ∉ order -> eligible st now m ->
  repairs (st <| missing := <[m := now]> (missing st) |>) now order (due ++ [m]) st' new ->
  repairs st now (m :: order) due st' (m :: new).
Proof.
  intros Hm Hel [H1 H2 H3 H4 H5 H6 H7].
  assert (He : forall k, k ∈ order -> eligible (st <| missing := <[m := now]> (missing st) |>) now k <-> eligible st now k).
  { intros k Hk. apply (eligible_other st now k m (Some now)). by intros ->. }
  assert (Hs : forall k, k ∈ new -> k ∈ order) by (intros k Hk; by eapply elem_of_sublist).
  rewrite <-app_assoc in *. cbn [app] in *. split; try done; [by constructor| | | |].
  - constructor; [done|]. apply Forall_forall. intros k Hk. apply He; [auto|]. exact (proj1 (Forall_forall _ _) H2 k Hk).
  - intros Hl k [->|Hk]%elem_of_cons Hke; [by constructor|]. right. by apply H4, He.
  - intros k [->|Hk]%elem_of_cons; [|auto]. cbn in H6.
    assert (Hn : m ∉ new) by (intros Hx; by apply Hm, Hs).
    destruct (H6 m Hn) as [->|[_ Hr]]; [apply lookup_insert_eq|]. by destruct Hel.
  - intros k [Hkm Hk]%not_elem_of_cons. cbn in H6.
    destruct (H6 k Hk) as [->|[? ?]]; [left; by apply lookup_insert_ne|by right].
Qed.

Lemma dueRepairs_spec now order st due :
  NoDup order -> (length due < recoveryRequestSize)%nat ->
  exists new, (dueRepairs st now order due).2 = due ++ new
    /\ repairs st now order due (dueRepairs st now order due).1 new.
Proof.
  revert st due. induction order as [|m order IH]; intros st due Hnd Hl; cbn [dueRepairs].
  { exists []. rewrite app_nil_r. split; [done|]. split; try done; rewrite ?app_nil_r; try lia; auto.
    intros k []%not_elem_of_nil. }
  apply NoDup_cons in Hnd as [Hm Hnd]. destruct (missing st !! m) as [t|] eqn:Em.
  2:{ destruct (IH st due Hnd Hl) as (new & E & Hr). exists new. split; [done|]. apply repairs_skip; [|done].
      intros [_ (t & Ht & _)]. congruence. }
  destruct (_ && _ && _) eqn:Eold.
  { destruct (IH (st <| missing := delete m (missing st) |>) due Hnd Hl) as (new & E & Hr). exists new.
    split; [done|]. apply repairs_drop; [done|eauto| |done]. intros Hx. apply Hx.
    apply andb_true_iff in Eold as [[? ?]%andb_true_iff ?]. split; [done|lia]. }
  assert (Hret : retained st m).
  { intros [Hb Hx]. rewrite Hb in Eold. cbn in Eold. lia. }
  destruct (negb (IsZero t) && _) eqn:Erec.
  { destruct (IH st due Hnd Hl) as (new & E & Hr). exists new. split; [done|]. apply repairs_skip; [|done].
    apply andb_true_iff in Erec as [Hz%negb_true_iff Hlt]. intros [_ (t' & Ht & [?|?])]; [congruence|].
    assert (t' = t) by congruence. subst. lia. }
  assert (Hel : eligible st now m).
  { split; [done|]. exists t. split; [done|]. apply andb_false_iff in Erec as [Hz%negb_false_iff|?]; [by left|]. right. lia. }
  destruct (_ =? _)%nat eqn:Efull.
  - apply Nat.eqb_eq in Efull. exists [m]. split; [done|]. apply repairs_ask; [done..|].
    split; rewrite ?app_nil_r; try done; try lia; auto.
    + apply sublist_nil_l.
    + intros k []%not_elem_of_nil.
  - apply Nat.eqb_neq in Efull. rewrite length_app in Efull. cbn [length] in Efull.
    destruct (IH (st <| missing := <[m := now]> (missing st) |>) (due ++ [m]) Hnd) as (new & E & Hr).
    { rewrite length_app. cbn [length]. lia. }
    exists (m :: new). split; [by rewrite E, <-app_assoc|]. by apply repairs_ask.
Qed.

(** ** Lemmas: the request *)
Lemma get16_nth pre vs k v post :
  vs !! k = Some v -> is_u16 v -> get16 (pre ++ (vs ≫= put16) ++ post) (length pre + 2 * k) = Some v.
Proof.
  revert pre k. induction vs as [|w vs IH]; intros pre k Hk Hv; [done|].
  change ((w :: vs) ≫= put16) with (put16 w ++ (vs ≫= put16)). destruct k as [|k]; cbn in Hk.
  - injection Hk as ->. rewrite <-app_assoc, Nat.mul_0_r, Nat.add_0_r. by apply get16_app.
  - rewrite <-app_assoc, app_assoc. replace (length pre + 2 * S k)%nat with (length (pre ++ put16 w) + 2 * k)%nat.
    + by apply IH.
    + rewrite length_app. cbn [length put16]. lia.
Qed.

(** ** The batch of receipts a peer has open *)
Definition freshBatch (identity : string) : deliveryBatch := mkBatch identity zeroTime (replicate 8 (replicate 16 0)) 0.

Definition batchFor (c : recoveryConn) (remote identity : string) : deliveryBatch :=
  match deliveries c !! remote with
  | Some b => if String.eqb (batchIdentity b) identity then b else freshBatch identity
  | None => freshBatch identity
  end.

(** The tokens not yet acknowledged. *)
Definition pendingTokens (b : deliveryBatch) : list (list Z) := take (Z.to_nat (count b)) (tokens b).

Lemma batchFor_ok c remote identity : conn_ok c -> batch_ok (batchFor c remote identity).
Proof.
  intros (_ & _ & _ & Hb). unfold batchFor. assert (batch_ok (freshBatch identity)) by (split; [cbn; lia|done]).
  destruct (deliveries c !! remote) as [b|] eqn:E; [|done]. destruct (String.eqb _ _); [by eapply Hb|done].
Qed.

Lemma pending_push n (ts : list (list Z)) t :
  (n < length ts)%nat -> take (S n) (<[n := t]> ts) = take n ts ++ [t].
Proof.
  intros H. rewrite (take_S_r _ _ t) by by apply list_lookup_insert_eq. by rewrite take_insert_ge.
Qed.

(** ** Claims *)

(** C15: however the sockets' readers and the mux interleave, the memory of the
    recovery layer is bounded: at most 4096 packets, 256 streams and 256 groups;
    the order queues stay within twice that; each socket keeps at most 4096
    pending requests, 4096 identities and 256 receipt batches; and the queue of
    live packets lists exactly the packets stored, each once. *)
Theorem recovery_stays_bounded s :
  reach s ->
  Z.of_nat (size (packets s)) <= 4096 /\ Z.of_nat (length (packetOrder s)) < 8192
  /\ Z.of_nat (size (streams s)) <= 256 /\ Z.of_nat (size (groups s)) <= 256
  /\ Z.of_nat (length (groupOrder s)) <= 512
  /\ Forall (λ c, Z.of_nat (size (pendingBindings c)) <= 4096 /\ Z.of_nat (size (identities c)) <= 4096
                 /\ Z.of_nat (size (deliveries c)) <= 256) (conns s)
  /\ NoDup (drop (packetHead s) (packetOrder s))
  /\ (forall id, id ∈ drop (packetHead s) (packetOrder s) <-> is_Some (packets s !! id)).
Proof.
  intros [(P1 & P2 & P3 & P4 & P5) (_ & _ & _ & G4 & G5 & _) S C _]%reach_ok.
  pose proof (size_keys _ _ P1 P2) as Hk. rewrite length_drop in Hk.
  unfold streams_ok, recoveryHistorySize, recoveryStreamLimit, recoveryGroupLimit in *.
  split_and!; try lia; try done. apply (Forall_impl _ _ _ C). intros c (? & ? & ? & _).
  unfold recoveryHistorySize, recoveryStreamLimit in *. lia.
Qed.

(** The reading of one datagram is a sequence of sections. *)
Lemma ReadFrom_total s i local bufLen read allow now t1 o stun sha :
  reach s -> (i < length (conns s))%nat -> visits s o ->
  exists s' out sent, ReadFrom s i local bufLen read allow now t1 o stun sha = Some (s', out, sent) /\ reach s'.
Proof.
  intros Hr Hi Hv. pose proof (reach_ok _ Hr) as Hs. unfold ReadFrom.
  pose proof (reach_step _ _ _ Hr (sec_pop s i)) as Hr1.
  assert (Hpop : streams (popReady s i).1 = streams s /\ length (conns (popReady s i).1) = length (conns s)).
  { unfold popReady. destruct (conns s !! i) as [c|]; [|done]. destruct (ready c); [done|].
    cbn. by rewrite length_insert. }
  destruct (popReady s i) as [s1 [dg|]]; cbn [fst] in *; [by eexists _, _, _|].
  destruct Hpop as [Hst Hlen]. destruct read as [[data remote]|]; [|by eexists _, _, _].
  assert (Hv1 : visits s1 o) by (unfold visits; by rewrite Hst).
  destruct (lookup_lt_is_Some_2 (conns s1) i) as [c Hc]; [by rewrite Hlen|]. rewrite Hc. obind.
  pose proof (reach_ok _ Hr1) as Hs1. destruct (hasRecoveryMagic data).
  - destruct (String.eqb _ _); [by eexists _, _, _|].
    destruct (consumeParity_ok s1 i local data remote allow now o Hs1 Hv1 (ex_intro _ _ Hc)) as (s2 & dg & rq & E & _).
    rewrite E. obind. eexists _, _, _. split; [done|]. exact (reach_step _ _ _ Hr1 (sec_parity _ _ _ _ _ _ _ _ _ _ _ Hv1 E)).
  - destruct (recoveryRTPPacketID_total data) as [[id|] ->]; obind.
    2:{ eexists _, _, _. split; [done|]. exact (reach_step _ _ _ Hr1 (sec_bind _ _ _ _ _)). }
    destruct (String.eqb _ _); [by eexists _, _, _|].
    set (id' := mkPid _ _ _).
    destruct (remember_ok s1 i id' data remote allow now o Hs1 Hv1) as (s2 & rq & E & He). rewrite E. obind.
    destruct (deliveryReceipt_ok s2 i id' data (sha data) remote t1 (proj1 He)) as (s3 & rc & E3 & _). rewrite E3. obind.
    eexists _, _, _. split; [done|].
    exact (reach_step _ _ _ (reach_step _ _ _ Hr1 (sec_remember _ _ _ _ _ _ _ _ _ _ Hv1 E)) (sec_receipt _ _ _ _ _ _ _ _ _ E3)).
Qed.

(** C14: no datagram makes the recovery layer panic.  In every reachable state
    one round of reading returns for every byte string, sender, limiter answer
    and clock: no index is out of range while parsing, combining parity,
    evicting packets and groups, or filling a receipt. *)
Theorem reading_never_panics s i local bufLen read allow now t1 o stun sha :
  reach s -> (i < length (conns s))%nat -> visits s o ->
  exists s' out sent, ReadFrom s i local bufLen read allow now t1 o stun sha = Some (s', out, sent).
Proof.
  intros Hr Hi Hv. destruct (ReadFrom_total s i local bufLen read allow now t1 o stun sha Hr Hi Hv)
    as (s' & out & sent & E & _). eauto.
Qed.

(** Nothing in the state belongs to the peer. *)
Definition forgotten (ufrag : string) (s : recoveryState) : Prop :=
  (forall id, ufragOf (pidRemote id) = Some ufrag -> packets s !! id = None)
  /\ (forall id, ufragOf (sidRemote id) = Some ufrag -> streams s !! id = None)
  /\ (forall id, ufragOf (gidRemote id) = Some ufrag -> groups s !! id = None)
  /\ (forall i c, conns s !! i = Some c ->
        (forall d, d ∈ ready c -> ufragOf (dgIdentity d) <> Some ufrag)
        /\ (forall k b, deliveries c !! k = Some b -> ufragOf (batchIdentity b) <> Some ufrag)
        /\ (forall remote, ufragOf (authenticatedIdentity c remote) <> Some ufrag)).

Lemma inactive_forgotten s act ufrag : state_ok s -> active s = Some act -> ufrag ∉ act -> forgotten ufrag s.
Proof.
  intros Hs Ha Hn.
  assert (Hu : forall i, activeIdentityLocked s i = true -> ufragOf i <> Some ufrag).
  { intros i Hi Hx. unfold activeIdentityLocked in Hi. rewrite Ha, Hx in Hi. by apply bool_decide_eq_true in Hi. }
  pose proof Hs as [_ _ _ _ [A1 A2 A3 A4]]. unfold forgotten. split_and!.
  1-3: intros id Hid; apply eq_None_not_Some; intros Hx; eapply Hu; eauto.
  intros i c Hc. destruct (conn_at _ _ _ Hs Hc) as [_ [R1 R2 R3]]. split_and!; [eauto..|].
  intros remote. unfold authenticatedIdentity. destruct (identities c !! remote) as [u|] eqn:E; [|by intros [=]].
  destruct (String.eqb u ""); [by intros [=]|]. apply Hu. by destruct (R2 _ _ E).
Qed.

(** C7: a revoked peer leaves nothing behind.  After [RemoveConnByUfrag], and
    until the ufrag is registered again, no interleaving of the other sections
    keeps or creates a packet, stream, parity group, queued datagram, receipt
    batch or identity of the peer. *)
Theorem revoked_peer_forgotten s ufrag s' :
  reach s -> rtc (λ a b, exists l, l <> Some ufrag /\ section l a b) (RemoveConnByUfrag s ufrag) s' ->
  forgotten ufrag s'.
Proof.
  intros Hr Hrtc.
  assert (H : state_ok (RemoveConnByUfrag s ufrag)
    /\ exists act, active (RemoveConnByUfrag s ufrag) = Some act /\ ufrag ∉ act).
  { split; [by apply RemoveConnByUfrag_ok, reach_ok|]. cbn.
    assert (Ha : is_Some (active s)).
    { clear - Hr. induction Hr as [|l s s' Hr IH Hstep]; [by cbn|]. destruct IH as [act Ha].
      destruct (section_ok l s s' (reach_ok _ Hr) Hstep) as [_ Hsec].
      destruct (exist_fresh (act ∪ match l with Some u => {[u]} | None => ∅ end)) as [u Hu].
      apply not_elem_of_union in Hu as [Hu Hl]. destruct (Hsec act u Ha Hu) as (act' & -> & _); [|eauto].
      intros ->. apply Hl, elem_of_singleton. done. }
    destruct Ha as [act ->]. eexists. split; [done|]. rewrite elem_of_difference, elem_of_singleton. tauto. }
  clear Hr. induction Hrtc as [x|x y z (l & Hl & Hstep) _ IH].
  - destruct H as (Hs & act & Ha & Hn). by eapply inactive_forgotten.
  - apply IH. destruct H as (Hs & act & Ha & Hn). destruct (section_ok l x y Hs Hstep) as [Hy Hact]. eauto.
Qed.

Lemma relabel identity remote ssrc pkts :
  (λ e, mkEntry (mkPid identity (pidSsrc (entryId e)) (pidSeq (entryId e))) (entryLength e))
    <$> entriesOf remote ssrc pkts = entriesOf identity ssrc pkts.
Proof. unfold entriesOf. rewrite <-list_fmap_compose. done. Qed.

(** Recovering a group all of whose packets but one are stored. *)
Lemma recoverGroup_exact s r ssrc pre sq p post addr :
  state_ok s -> activeIdentityLocked s r = true -> packets s !! mkPid r ssrc sq = None ->
  Forall (λ x, packets s !! mkPid r ssrc x.1 = Some x.2) (pre ++ post) ->
  exists s', recoverGroupLocked s (groupOf r ssrc (pre ++ (sq, p) :: post) addr)
    = Some (s', mkDatagram p (Some addr) r, [sq]) /\ packets s' !! mkPid r ssrc sq = Some p
    /\ conns s' = conns s.
Proof.
  intros Hs Ha Hn Hk. destruct (recover_exact s r ssrc pre sq p post addr Hn Hk) as (Em & d & Ec & Hl & Ht).
  unfold recoverGroupLocked. rewrite Em. cbn [length Nat.eqb negb]. rewrite Ec. obind.
  cbn [entryLength entryId]. rewrite Nat2Z.id, (proj2 (Nat.ltb_ge _ _)) by lia. rewrite Ht.
  destruct (storePacket_ok s (mkPid r ssrc sq) p Hs Ha) as (s' & -> & _ & _ & Hcs & Hp). obind.
  eexists. split; [done|]. cbn. by rewrite Hp, Hn.
Qed.

(** Parity of a group that lacks one packet, in an undisturbed pass of [consumeParity]. *)
Lemma consumeParity_rebuilds s i c u local remote ssrc pre sq p post now o :
  state_ok s -> visits s o -> conns s !! i = Some c -> identities c !! remote = Some u ->
  is_u32 ssrc -> (2 <= length (pre ++ (sq, p) :: post) <= 32)%nat ->
  Forall coverable (pre ++ (sq, p) :: post) ->
  Z.of_nat (length (parityDatagram ssrc (pre ++ (sq, p) :: post))) <= 8192 ->
  packets s !! mkPid ("ice:" +:+ u) ssrc sq = None ->
  Forall (λ x, packets s !! mkPid ("ice:" +:+ u) ssrc x.1 = Some x.2) (pre ++ post) ->
  exists s', consumeParity s i local (parityDatagram ssrc (pre ++ (sq, p) :: post)) remote true now o
    = Some (s', Some (mkDatagram p (Some remote) ("ice:" +:+ u)), [])
    /\ packets s' !! mkPid ("ice:" +:+ u) ssrc sq = Some p.
Proof.
  intros Hs Hv Hc Hu Hss Hn Hcov Hsz Hmiss Hk.
  destruct (conn_at _ _ _ Hs Hc) as [_ [_ R2 _]]. destruct (R2 _ _ Hu) as [Hne Ha].
  unfold consumeParity. rewrite (proj2 (Z.leb_le _ _)) by done. cbn [andb negb].
  destruct (last (pre ++ (sq, p) :: post)) as [x|] eqn:Hlast.
  2:{ apply last_None in Hlast. by destruct pre. }
  rewrite (parse_parityDatagram _ _ _ _ Hss Hn Hcov Hlast). obind. rewrite Hc. obind.
  assert (Hid : identityLocked c local remote = "ice:" +:+ u).
  { unfold identityLocked. rewrite Hu. by destruct (String.eqb_spec u ""). }
  rewrite Hid, Ha. cbn [negb gidSsrc entries parity groupRemote groupOf]. rewrite relabel.
  set (sid := mkSid ("ice:" +:+ u) ssrc).
  pose proof (streamLocked_ok s sid now (oStreams o) Hs Ha Hv) as Hstream.
  destruct (streamLocked s sid now (oStreams o)) as [s2 st]. cbn [fst snd] in Hstream.
  destruct Hstream as (He2 & Hin & Hp2).
  match goal with |- context[<[sid := ?x]> (streams s2)] => set (st' := x) end.
  pose proof (insert_stream_ok s2 sid st' (proj1 He2) (ex_intro _ _ Hin)) as He3.
  match goal with |- context[recoverGroupLocked ?x _] => set (s3 := x) in * end.
  assert (Hp3 : packets s3 = packets s) by (unfold s3; cbn; done).
  destruct (recoverGroup_exact s3 ("ice:" +:+ u) ssrc pre sq p post remote (proj1 He3)) as (s4 & E4 & Hp4 & _).
  - rewrite (evolves_active _ _ _ He3), (evolves_active _ _ _ He2). done.
  - by rewrite Hp3.
  - by rewrite Hp3.
  - unfold groupOf in E4. rewrite E4. obind. cbn. by exists s4.
Qed.

(** A covered packet is no longer than the parity over it. *)
Lemma covered_fits ssrc pkts x : x ∈ pkts -> (length x.2 <= length (parityDatagram ssrc pkts))%nat.
Proof.
  intros Hx. assert (Hl : (length x.2 <= length (parityOf (snd <$> pkts)))%nat).
  { rewrite parityOf_length. by apply longest_le, list_elem_of_fmap_2. }
  unfold parityDatagram. rewrite !length_app. lia.
Qed.

(** C4: parity rebuilds exactly the lost packet.  The sender's parity over 2 to 32
    packets of at least 12 bytes is read from an authenticated peer, with nothing
    waiting to be handed out, and the round is not disturbed by another section.
    When it has at most 8192 bytes, fits the reader's buffer, the repair budget
    allows it, and all the packets but one are in the history, [ReadFrom] returns
    the lost packet, whole and byte for byte, from the address the parity came
    from, keeps it in the history and sends nothing.  When the budget refuses it or
    it is larger, it is dropped: nothing changes, nothing is sent and the socket is
    read again. *)
Theorem parity_rebuilds_missing s i c u local remote ssrc pre sq p post bufLen now t1 o stun sha256 :
  reach s -> visits s o -> conns s !! i = Some c -> ready c = [] -> identities c !! remote = Some u ->
  is_u32 ssrc -> (2 <= length (pre ++ (sq, p) :: post) <= 32)%nat ->
  Forall coverable (pre ++ (sq, p) :: post) ->
  let data := parityDatagram ssrc (pre ++ (sq, p) :: post) in
  let round allow := ReadFrom s i local bufLen (Some (data, remote)) allow now t1 o stun sha256 in
  ((length data <= bufLen)%nat -> Z.of_nat (length data) <= 8192 ->
   packets s !! mkPid ("ice:" +:+ u) ssrc sq = None ->
   Forall (λ x, packets s !! mkPid ("ice:" +:+ u) ssrc x.1 = Some x.2) (pre ++ post) ->
   exists s', round true = Some (s', Give p (Some remote), [])
     /\ packets s' !! mkPid ("ice:" +:+ u) ssrc sq = Some p)
  /\ (forall allow, allow = false \/ 8192 < Z.of_nat (length data) -> round allow = Some (s, Loop, [])).
Proof.
  intros Hr Hv Hc Hready Hu Hss Hn Hcov data round. pose proof (reach_ok _ Hr) as Hs.
  destruct (conn_at _ _ _ Hs Hc) as [_ [_ R2 _]]. destruct (R2 _ _ Hu) as [Hne _].
  assert (Hround : forall allow, round allow =
    ('(s, dg, request) ← consumeParity s i local data remote allow now o;
     Some (s, match dg with Some d => Give (take bufLen (dgData d)) (dgAddr d) | None => Loop end,
           filter (λ m, m <> []) [request]))).
  { intros allow. unfold round, ReadFrom, popReady. rewrite Hc, Hready, Hc. obind.
    assert (hasRecoveryMagic data = true) as -> by (unfold data, parityDatagram; reflexivity).
    unfold authenticatedIdentity. rewrite Hu. by destruct (String.eqb_spec u ""). }
  split.
  - intros Hbuf Hsz Hmiss Hk. rewrite Hround.
    destruct (consumeParity_rebuilds s i c u local remote ssrc pre sq p post now o) as (s' & E & Hp); auto.
    exists s'. unfold data. rewrite E. obind. cbn [dgData dgAddr]. split; [|done].
    rewrite take_ge; [done|]. pose proof (covered_fits ssrc (pre ++ (sq, p) :: post) (sq, p)) as Hfit.
    cbn [snd] in Hfit. fold data in Hfit. etrans; [apply Hfit; set_solver|exact Hbuf].
  - intros allow Hno. rewrite Hround. unfold consumeParity.
    destruct ((Z.of_nat (length data) <=? 8192) && allow) eqn:E; [|done].
    apply andb_true_iff in E as [? ->]. destruct Hno; [done|lia].
Qed.

(** A waiting parity group rebuilds its last packet as soon as the
    packet before it arrives.  When a group over some packets is waiting and the
    arrival of one of them leaves exactly one unknown, the group is completed:
    the unknown packet is queued for the reader of the socket, byte for byte and
    from the path of the arrival, it is in the history, and the group is gone. *)
Theorem waiting_group_completes s i c gid ssrc pre sq p post addr arrived remote :
  state_ok s -> conns s !! i = Some c ->
  groups s !! gid = Some (groupOf (gidRemote gid) ssrc (pre ++ (sq, p) :: post) addr) ->
  arrived ∈ fst <$> (pre ++ post) ->
  packets s !! mkPid (gidRemote gid) ssrc sq = None ->
  Forall (λ x, packets s !! mkPid (gidRemote gid) ssrc x.1 = Some x.2) (pre ++ post) ->
  exists s' c', pendingStep i (mkPid (gidRemote gid) ssrc arrived) remote s gid = Some s'
    /\ conns s' !! i = Some c' /\ ready c' = ready c ++ [mkDatagram p (Some remote) (gidRemote gid)]
    /\ packets s' !! mkPid (gidRemote gid) ssrc sq = Some p /\ groups s' !! gid = None.
Proof.
  intros Hs Hc Hg Harr Hmiss Hk. unfold pendingStep. rewrite Hg.
  assert (Hex : existsb (λ e, bool_decide (entryId e = mkPid (gidRemote gid) ssrc arrived))
            (entriesOf (gidRemote gid) ssrc (pre ++ (sq, p) :: post)) = true).
  { apply list_elem_of_fmap in Harr as (x & -> & Hx). apply existsb_exists.
    exists (mkEntry (mkPid (gidRemote gid) ssrc x.1) (Z.of_nat (length x.2))). split; [|by apply bool_decide_eq_true].
    apply list_elem_of_In. unfold entriesOf. apply list_elem_of_fmap. exists x. split; [done|].
    apply elem_of_app in Hx as [?|?]; apply elem_of_app; [by left|right; by constructor]. }
  change (entries (groupOf _ _ _ _)) with (entriesOf (gidRemote gid) ssrc (pre ++ (sq, p) :: post)).
  rewrite Hex. cbn [negb].
  assert (Ha : activeIdentityLocked s (gidRemote gid) = true) by (apply (ac_groups _ (so_active _ Hs)); eauto).
  destruct (recoverGroup_exact s (gidRemote gid) ssrc pre sq p post addr Hs Ha Hmiss Hk) as (s1 & E1 & Hp1 & Hc1).
  rewrite E1. obind. cbn [length Nat.leb Nat.eqb andb dgAddr]. rewrite bool_decide_eq_true_2 by done.
  cbn [conns setConn]. cbn. rewrite Hc1, Hc. eexists _, _. split; [done|]. cbn. rewrite Hc1. split_and!.
  - apply list_lookup_insert_eq. by apply lookup_lt_Some in Hc.
  - done.
  - done.
  - apply lookup_delete_eq.
Qed.

(** Gaps are tracked exactly.  When a newer packet arrives (within half the
    sequence space), a number is missing afterwards just when it was missing
    before and is still within the sender's history, or it lies between the
    highest number seen and the new one, within that history, and the packet is
    not stored; numbers already asked for keep the time of the request.  All
    comparisons wrap at 16 bits. *)
Theorem gap_tracked_exactly s id st m :
  based st = true -> is_u16 (pidSeq id) -> is_u16 (highest st) -> is_u16 m ->
  0 < u16 (pidSeq id - highest st) < 32768 ->
  let delta := u16 (pidSeq id - highest st) in
  let kept := delta = 1 \/ u16 (pidSeq id - m) < 4096 in
  let st' := trackGapLocked s id st in
  highest st' = pidSeq id
  /\ (forall t, missing st !! m = Some t -> kept -> missing st' !! m = Some t)
  /\ (is_Some (missing st' !! m) <->
        is_Some (missing st !! m) /\ kept
        \/ 0 < u16 (m - highest st) < delta /\ u16 (pidSeq id - m) < 4096
           /\ packets s !! mkPid (pidRemote id) (pidSsrc id) m = None).
Proof.
  intros Hb Hs Hh Hm Hd delta kept st'.
  set (ms := if 1 <? delta then filter (λ '(m, _), ~ (recoveryHistorySize <= u16 (pidSeq id - m))) (missing st)
             else missing st).
  set (start := u16 (Z.max 1 (delta - recoveryHistorySize + 1))).
  assert (Est : st' = st <| missing := fold_left (addMissing (packets s) id (highest st)) (seqZ start (delta - start)) ms |>
                         <| highest := pidSeq id |>).
  { unfold st', trackGapLocked. rewrite Hb, (proj2 (Z.eqb_neq _ _)), (proj2 (Z.leb_gt _ _)) by lia. done. }
  clearbody st'. subst st'.
  assert (Hms : forall t, ms !! m = Some t <-> missing st !! m = Some t /\ kept).
  { intros t. subst ms kept. destruct (1 <? delta) eqn:E.
    - rewrite map_lookup_filter_Some. unfold recoveryHistorySize. split; intros [? ?]; (split; [done|]); lia.
    - split; [|tauto]. intros ?. split; [done|]. left. lia. }
  clearbody ms. split; [done|]. cbn. rewrite addMissing_lookup.
  pose proof (gap_offsets (highest st) (pidSeq id) m Hh Hs Hm Hd) as Hoff. cbn zeta in Hoff. fold delta start in Hoff.
  split.
  - intros t Ht Hk. by rewrite (proj2 (Hms t) (conj Ht Hk)).
  - destruct (ms !! m) as [t|] eqn:Em.
    + destruct (proj1 (Hms t) eq_refl) as [Ht Hk]. split; [|eauto]. intros _. left. rewrite Ht. eauto.
    + assert (Hno : ~ (is_Some (missing st !! m) /\ kept)) by (intros [[t Ht] Hk]; by pose proof (proj2 (Hms t) (conj Ht Hk))).
      case_bool_decide as Hdec; rewrite Hoff in Hdec; unfold recoveryHistorySize in Hdec.
      * split; [|eauto]. intros _. right. tauto.
      * split; [by intros [? ?]|]. tauto.
Qed.

(** Repair requests are complete and paced.  With the map of missing numbers
    walked in any order, a request names at most 32 numbers, each once, only
    numbers that are missing, that the sender still has and that were never asked
    for or not in the last 50 ms; a request of fewer than 32 leaves none out; and
    a number asked for is not asked for again in the next 50 ms. *)
Theorem repairs_complete_and_paced st now order st' due :
  NoDup order -> (forall m, m ∈ order <-> is_Some (missing st !! m)) -> IsZero now = false ->
  dueRepairs st now order [] = (st', due) ->
  (length due <= 32)%nat /\ NoDup due
  /\ (forall m, m ∈ due -> eligible st now m)
  /\ ((length due < 32)%nat -> forall m, eligible st now m -> m ∈ due)
  /\ (forall m now' order', m ∈ due -> NoDup order' -> tsub now' now < 50 * Millisecond ->
         m ∉ (dueRepairs st' now' order' []).2).
Proof.
  intros Hnd Hord Hnow E.
  destruct (dueRepairs_spec now order st [] Hnd) as (new & E2 & [H1 H2 H3 H4 H5 H6 H7]); [unfold recoveryRequestSize; cbn; lia|].
  rewrite E in *. cbn [fst snd app] in *. subst new. split_and!; auto.
  - by eapply sublist_NoDup.
  - by apply Forall_forall.
  - intros Hl m Hm. apply H4; [done| |done]. apply Hord. destruct Hm as [_ (t & -> & _)]. eauto.
  - intros m now' order' Hm Hnd' Hlt Hin.
    destruct (dueRepairs_spec now' order' st' [] Hnd') as (new' & E' & [_ G2 _ _ _ _ _]); [unfold recoveryRequestSize; cbn; lia|].
    rewrite E' in Hin. cbn in Hin. destruct (proj1 (Forall_forall _ _) G2 m Hin) as [_ (t & Ht & Hc)].
    rewrite (H5 m Hm) in Ht. injection Ht as <-. unfold recoveryRetry in Hc. destruct Hc; [congruence|lia].
Qed.

(** The request on the wire.  A request for up to 32 numbers has the magic,
    the request type, the count, the SSRC and the numbers in order, big-endian,
    and nothing else. *)
Theorem request_decodes ssrc seqs :
  is_u32 ssrc -> Forall is_u16 seqs -> (1 <= length seqs <= 32)%nat ->
  let r := makeRecoveryRequest ssrc seqs in
  hasRecoveryMagic r = true /\ length r = (recoveryHeaderSize + 2 * length seqs)%nat
  /\ r !! 4%nat = Some recoveryRequestType /\ r !! 5%nat = Some (Z.of_nat (length seqs))
  /\ get32 r 8 = Some ssrc
  /\ forall k v, seqs !! k = Some v -> get16 r (recoveryHeaderSize + 2 * k) = Some v.
Proof.
  intros Hs Hv Hn. unfold makeRecoveryRequest. destruct seqs as [|v0 vs]; [cbn in Hn; lia|].
  set (seqs := v0 :: vs) in *. set (header := magic ++ [recoveryRequestType; u8 (Z.of_nat (length seqs)); 0; 0] ++ put32 ssrc).
  assert (Hr : magic ++ [recoveryRequestType; u8 (Z.of_nat (length seqs)); 0; 0] ++ put32 ssrc ++ (seqs ≫= put16)
    = header ++ (seqs ≫= put16)) by (unfold header; by rewrite <-!app_assoc).
  assert (Hcount : u8 (Z.of_nat (length seqs)) = Z.of_nat (length seqs)) by (unfold u8; apply Z.mod_small; lia).
  assert (Hbind : length (seqs ≫= put16) = (2 * length seqs)%nat).
  { clear. induction seqs as [|v l IH]; [done|]. change ((v :: l) ≫= put16) with (put16 v ++ (l ≫= put16)).
    rewrite length_app, IH. cbn [length put16]. lia. }
  cbn zeta. rewrite Hr. split_and!.
  - done.
  - rewrite length_app, Hbind. done.
  - done.
  - rewrite <-Hcount. done.
  - unfold get32. cbn. by rewrite be32_put32.
  - intros k v Hk. rewrite <-(app_nil_r (seqs ≫= put16)).
    apply (get16_nth header seqs k v []); [done|]. exact (Forall_lookup_1 _ _ _ _ Hv Hk).
Qed.

(** Receipts acknowledge every datagram once, in order.  On a stream with
    recovery enabled, an arrival adds the first 16 bytes of its digest to the open
    batch of the peer; the batch is sent, whole and in order of arrival, and
    starts again empty when it has eight tokens or the last receipt is 20 ms old,
    and is otherwise kept for the next arrival. *)
Theorem receipts_acknowledge_in_order s i c st id data digest remote now :
  reach s -> conns s !! i = Some c -> streams s !! mkSid (pidRemote id) (pidSsrc id) = Some st ->
  enabled st = true -> Z.of_nat (length data) <= 8192 ->
  let b := batchFor c remote (pidRemote id) in
  let acked := pendingTokens b ++ [take 16 digest] in
  let wait := (length acked <? 8)%nat && (tsub now (lastSent b) <? 20 * Millisecond) in
  exists s' c', deliveryReceipt s i id data digest remote now
      = Some (s', if wait then [] else magic ++ [3; Z.of_nat (length acked); 0; 0] ++ mjoin acked)
    /\ conns s' !! i = Some c'
    /\ pendingTokens (batchFor c' remote (pidRemote id)) = (if wait then acked else [])
    /\ lastSent (batchFor c' remote (pidRemote id)) = (if wait then lastSent b else now).
Proof.
  intros Hr Hc Hst Hen Hl b acked wait.
  destruct (conn_at _ _ _ (reach_ok _ Hr) Hc) as [Hok _].
  pose proof (batchFor_ok c remote (pidRemote id) Hok) as [Hcnt Htok]. fold b in Hcnt, Htok.
  unfold deliveryReceipt. rewrite Hst, Hc, Hen, (proj2 (Z.ltb_ge _ _)) by lia. cbn [negb orb].
  set (full := (recoveryStreamLimit <=? _)%nat). fold (freshBatch (pidRemote id)).
  match goal with |- context[match ?x with pair ds b => _ end] => set (picked := x) end.
  assert (Hp : exists ds, picked = (ds, b)).
  { subst picked b. unfold batchFor. destruct (deliveries c !! remote) as [b0|]; [|eauto].
    destruct (String.eqb _ _); eauto. }
  destruct Hp as [ds ->]. rewrite (proj2 (Z.leb_gt _ _)) by lia. cbn [count batchIdentity lastSent tokens].
  assert (Hbid : batchIdentity b = pidRemote id).
  { subst b. unfold batchFor. destruct (deliveries c !! remote) as [b0|]; [|done].
    destruct (String.eqb_spec (batchIdentity b0) (pidRemote id)); done. }
  assert (Hu8 : u8 (count b + 1) = count b + 1) by (unfold u8; apply Z.mod_small; lia).
  assert (Hacked : take (Z.to_nat (count b + 1)) (<[Z.to_nat (count b) := take 16 digest]> (tokens b)) = acked).
  { replace (Z.to_nat (count b + 1)) with (S (Z.to_nat (count b))) by lia. apply pending_push. lia. }
  assert (Hlen : Z.of_nat (length acked) = count b + 1).
  { unfold acked, pendingTokens. rewrite length_app, length_take. cbn [length]. lia. }
  assert (Hw : (u8 (count b + 1) <? 8) && (tsub now (lastSent b) <? 20 * Millisecond) = wait).
  { unfold wait. f_equal. rewrite Hu8, <-Hlen. apply eq_bool_prop_intro. rewrite !Is_true_true, Z.ltb_lt, Nat.ltb_lt. lia. }
  rewrite Hw. pose proof (lookup_lt_Some _ _ _ Hc) as Hi.
  assert (Hb' : forall b', batchIdentity b' = pidRemote id ->
            batchFor (c <| deliveries := <[remote := b']> ds |>) remote (pidRemote id) = b').
  { intros b' Hb'. unfold batchFor. cbn. rewrite lookup_insert_eq. by rewrite Hb', String.eqb_refl. }
  destruct wait; cbn [flush count tokens lastSent batchIdentity]; rewrite ?Hu8, ?Hacked, ?Hlen;
    eexists _, _; (split; [done|]); (split; [cbn; by apply list_lookup_insert_eq|]); rewrite Hb' by done; done.
Qed.

(** ** A run with one peer *)
Lemma visits_dom s gs ms : visits s (mkOrders (elements (dom (streams s))) gs ms).
Proof. intros id Hid. cbn. by apply elem_of_elements, elem_of_dom. Qed.

Lemma reach_read s i local bufLen read allow now t1 o stun sha s' out sent :
  reach s -> (i < length (conns s))%nat -> visits s o ->
  ReadFrom s i local bufLen read allow now t1 o stun sha = Some (s', out, sent) -> reach s'.
Proof.
  intros Hr Hi Hv E. destruct (ReadFrom_total s i local bufLen read allow now t1 o stun sha Hr Hi Hv)
    as (s1 & out1 & sent1 & E1 & Hr1). congruence.
Qed.

(** The peer [u:p] at [peerAddr] has been authenticated. *)
Definition peerAddr : string := "192.0.2.1:5000".

Definition demoPeer : recoveryState :=
  let s := GetConn (newRecoveryMux (ListenUDP newRecoveryState)) "u" true in
  let s := observeBinding s 0 (Some (mkStun BindingRequest [1; 2] (Some "u:p"))) peerAddr false in
  observeBinding s 0 (Some (mkStun BindingSuccess [1; 2] None)) peerAddr true.

Definition rtp (sq b : Z) : list Z := [128; 96; 0; sq; 0; 0; 0; 0; 0; 0; 0; 1; b].

Definition demoOrders (s : recoveryState) : orders :=
  mkOrders (elements (dom (streams s))) (elements (dom (groups s))) [2; 3].

Definition demoRead (s : recoveryState) (data : list Z) :=
  ReadFrom s 0 "198.51.100.1:8189" 1500 (Some (data, peerAddr)) true (5 * Second) (5 * Second) (demoOrders s) None (λ d, d).

Definition after {A B} (s : recoveryState) (r : option (recoveryState * A * B)) : recoveryState :=
  match r with Some (s', _, _) => s' | None => s end.

(** Packet 1 has arrived. *)
Definition demoHeard : recoveryState := after demoPeer (demoRead demoPeer (rtp 1 7)).

(** Then the parity over 1, 2 and 3: two packets are missing, the group waits. *)
Definition demoPackets : list (Z * list Z) := [(1, rtp 1 7); (2, rtp 2 8); (3, rtp 3 9)].

Definition demoWaiting : recoveryState := after demoHeard (demoRead demoHeard (parityDatagram 1 demoPackets)).

Lemma after_reach s data : reach s -> (0 < length (conns s))%nat -> reach (after s (demoRead s data)).
Proof.
  intros Hr Hi. destruct (demoRead s data) as [[[s' out] sent]|] eqn:E; [|done].
  exact (reach_read _ _ _ _ _ _ _ _ _ _ _ _ _ _ Hr Hi (visits_dom _ _ _) E).
Qed.

Lemma demoPeer_reach : reach demoPeer.
Proof.
  eapply reach_step; [|apply sec_bind]. eapply reach_step; [|apply sec_bind].
  eapply reach_step; [|apply sec_get]. apply reach_mux, boot_listen, boot_new.
Qed.

Lemma demoHeard_reach : reach demoHeard.
Proof. apply after_reach; [exact demoPeer_reach|vm_compute; lia]. Qed.

Lemma demoWaiting_reach : reach demoWaiting.
Proof. apply after_reach; [exact demoHeard_reach|vm_compute; lia]. Qed.

Lemma demoHeard_facts :
  exists c, conns demoHeard !! 0%nat = Some c /\ ready c = [] /\ identities c !! peerAddr = Some "u:p"
    /\ packets demoHeard !! mkPid ("ice:" +:+ "u:p") 1 2 = None
    /\ packets demoHeard !! mkPid ("ice:" +:+ "u:p") 1 1 = Some (rtp 1 7).
Proof.
  assert (E : (λ c, (ready c, identities c !! peerAddr)) <$> conns demoHeard !! 0%nat = Some ([], Some "u:p")) by (vm_compute; reflexivity).
  destruct (conns demoHeard !! 0%nat) as [c|]; [|discriminate E]. injection E as E0 E.
  exists c. split; [done|]. split; [done|]. split; [done|]. split; vm_compute; reflexivity.
Qed.

(** The arrival of packet 2, just stored. *)
Lemma demoWaiting_facts :
  exists s c, storePacketLocked demoWaiting (mkPid "ice:u:p" 1 2) (rtp 2 8) = Some s /\ state_ok s
    /\ conns s !! 0%nat = Some c /\ ready c = []
    /\ groups s !! mkGid "ice:u:p" 1 3 = Some (groupOf "ice:u:p" 1 demoPackets peerAddr)
    /\ packets s !! mkPid "ice:u:p" 1 1 = Some (rtp 1 7) /\ packets s !! mkPid "ice:u:p" 1 2 = Some (rtp 2 8)
    /\ packets s !! mkPid "ice:u:p" 1 3 = None.
Proof.
  destruct (storePacket_ok demoWaiting (mkPid "ice:u:p" 1 2) (rtp 2 8) (reach_ok _ demoWaiting_reach) eq_refl)
    as (s & E & [Hs _] & _).
  assert (F : forall A (f : recoveryState -> A) v,
    f <$> storePacketLocked demoWaiting (mkPid "ice:u:p" 1 2) (rtp 2 8) = Some v -> f s = v).
  { intros A f v Hv. rewrite E in Hv. by injection Hv. }
  assert (Ec : ready <$> conns s !! 0%nat = Some []).
  { apply (F _ (λ s, ready <$> conns s !! 0%nat)). vm_compute. reflexivity. }
  destruct (conns s !! 0%nat) as [c|] eqn:Es; [|discriminate Ec]. injection Ec as Ec.
  exists s, c. split_and!; [done..| | | |].
  - apply (F _ (λ s, groups s !! mkGid "ice:u:p" 1 3)). vm_compute. reflexivity.
  - apply (F _ (λ s, packets s !! mkPid "ice:u:p" 1 1)). vm_compute. reflexivity.
  - apply (F _ (λ s, packets s !! mkPid "ice:u:p" 1 2)). vm_compute. reflexivity.
  - apply (F _ (λ s, packets s !! mkPid "ice:u:p" 1 3)). vm_compute. reflexivity.
Qed.

Lemma demoWaiting_stream :
  exists st c, streams demoWaiting !! mkSid "ice:u:p" 1 = Some st /\ enabled st = true
    /\ conns demoWaiting !! 0%nat = Some c /\ batchFor c peerAddr "ice:u:p" = freshBatch "ice:u:p".
Proof.
  assert (E1 : enabled <$> streams demoWaiting !! mkSid "ice:u:p" 1 = Some true) by (vm_compute; reflexivity).
  assert (E2 : (λ c, batchFor c peerAddr "ice:u:p") <$> conns demoWaiting !! 0%nat
    = Some (mkBatch "ice:u:p" zeroTime (replicate 8 (replicate 16 0)) 0)) by (vm_compute; reflexivity).
  destruct (streams demoWaiting !! mkSid "ice:u:p" 1) as [st|]; [|discriminate E1].
  destruct (conns demoWaiting !! 0%nat) as [c|]; [|discriminate E2]. injection E1 as E1. injection E2 as E2.
  exists st, c. auto.
Qed.

(** ** Witnesses *)
Lemma recovery_stays_bounded_witness :
  size (packets demoWaiting) = 1%nat /\ size (groups demoWaiting) = 1%nat
  /\ Z.of_nat (size (packets demoWaiting)) <= 4096.
Proof. split; [reflexivity|]. split; [reflexivity|]. exact (proj1 (recovery_stays_bounded demoWaiting demoWaiting_reach)). Defined.

Lemma reading_never_panics_witness :
  exists s' out sent, ReadFrom demoWaiting 0 "l" 1500 (Some ([87; 71; 82; 49; 1; 32; 0; 0; 0; 0; 0; 1], peerAddr)) true
    (6 * Second) (6 * Second) (demoOrders demoWaiting) None (λ d, d) = Some (s', out, sent).
Proof. apply (reading_never_panics _ _ _ _ _ _ _ _ _ _ _ demoWaiting_reach); [vm_compute; lia|apply visits_dom]. Defined.

Lemma revoked_peer_forgotten_witness :
  size (packets demoWaiting) = 1%nat /\ forgotten "u" (RemoveConnByUfrag demoWaiting "u").
Proof. split; [reflexivity|]. apply (revoked_peer_forgotten demoWaiting "u" _ demoWaiting_reach). apply rtc_refl. Defined.

Lemma parity_rebuilds_missing_witness :
  let round allow := ReadFrom demoHeard 0 "l" 1500 (Some (parityDatagram 1 [(1, rtp 1 7); (2, rtp 2 8)], peerAddr)) allow
      (6 * Second) (6 * Second) (demoOrders demoHeard) None (λ d, d) in
  (exists s', round true = Some (s', Give (rtp 2 8) (Some peerAddr), [])
    /\ packets s' !! mkPid ("ice:" +:+ "u:p") 1 2 = Some (rtp 2 8))
  /\ round false = Some (demoHeard, Loop, []).
Proof.
  intros round. destruct demoHeard_facts as (c & H1 & H0 & H2 & H3 & H4).
  destruct (parity_rebuilds_missing demoHeard 0 c "u:p" "l" peerAddr 1
    [(1, rtp 1 7)] 2 (rtp 2 8) [] 1500 (6 * Second) (6 * Second) (demoOrders demoHeard) None (λ d, d)
    demoHeard_reach (visits_dom _ _ _) H1 H0 H2) as [Hgive Hdrop].
  - unfold is_u32. lia.
  - cbn. lia.
  - repeat constructor; cbn; lia.
  - split; [|apply Hdrop; left; reflexivity]. apply Hgive.
    + vm_compute. lia.
    + vm_compute. intuition congruence.
    + exact H3.
    + constructor; [exact H4|constructor].
Defined.

Lemma waiting_group_completes_witness :
  exists s s' c', storePacketLocked demoWaiting (mkPid "ice:u:p" 1 2) (rtp 2 8) = Some s
    /\ pendingStep 0 (mkPid "ice:u:p" 1 2) peerAddr s (mkGid "ice:u:p" 1 3) = Some s'
    /\ conns s' !! 0%nat = Some c' /\ ready c' = [mkDatagram (rtp 3 9) (Some peerAddr) "ice:u:p"].
Proof.
  destruct demoWaiting_facts as (s & c & E & Hs & Hc & Hr & Hg & H1 & H2 & H3).
  destruct (waiting_group_completes s 0 c (mkGid "ice:u:p" 1 3) 1
    [(1, rtp 1 7); (2, rtp 2 8)] 3 (rtp 3 9) [] peerAddr 2 peerAddr Hs Hc Hg) as (s' & c' & G1 & G2 & G3 & _).
  - cbn. right. left.
  - exact H3.
  - constructor; [exact H1|]. constructor; [exact H2|constructor].
  - exists s, s', c'. rewrite Hr in G3. split; [exact E|]. split; [exact G1|]. split; [exact G2|exact G3].
Defined.

Lemma gap_tracked_exactly_witness :
  missing (trackGapLocked demoPeer (mkPid "p" 1 2) (mkStream 65533 true true ∅ 0)) !! 65534 = Some zeroTime
  /\ is_Some (missing (trackGapLocked demoPeer (mkPid "p" 1 2) (mkStream 65533 true true ∅ 0)) !! 1).
Proof.
  split; [reflexivity|].
  apply (gap_tracked_exactly demoPeer (mkPid "p" 1 2) (mkStream 65533 true true ∅ 0) 1);
    try reflexivity; try (vm_compute; intuition congruence).
Defined.

Lemma repairs_complete_and_paced_witness :
  (dueRepairs (mkStream 10 true true {[ 7 := zeroTime; 8 := 5 * Second ]} 0) (5 * Second + 1) [7; 8] []).2 = [7]
  /\ NoDup (dueRepairs (mkStream 10 true true {[ 7 := zeroTime; 8 := 5 * Second ]} 0) (5 * Second + 1) [7; 8] []).2.
Proof.
  split; [reflexivity|].
  refine (proj1 (proj2 (repairs_complete_and_paced (mkStream 10 true true {[ 7 := zeroTime; 8 := 5 * Second ]} 0)
    (5 * Second + 1) [7; 8] _ _ _ _ eq_refl (surjective_pairing _)))).
  - repeat constructor; rewrite ?list_elem_of_singleton, ?elem_of_nil; by intros ?.
  - intros m. cbn. rewrite !elem_of_cons, elem_of_nil.
    destruct (decide (m = 7)) as [->|H7]; [split; [by eexists|by left]|].
    destruct (decide (m = 8)) as [->|H8]; [split; [by eexists|by right; left]|].
    rewrite lookup_insert_ne, lookup_singleton_ne by done. split; [intros [?|[?|[]]]; done|by intros [? ?]].
Defined.

Lemma request_decodes_witness :
  makeRecoveryRequest 258 [5; 65535] = [87; 71; 82; 49; 2; 2; 0; 0; 0; 0; 1; 2; 0; 5; 255; 255]
  /\ get16 (makeRecoveryRequest 258 [5; 65535]) 14 = Some 65535.
Proof.
  split; [reflexivity|]. apply (request_decodes 258 [5; 65535]) with (k := 1%nat); try reflexivity.
  - vm_compute. intuition congruence.
  - repeat constructor; vm_compute; intuition congruence.
  - cbn. lia.
Defined.

Lemma receipts_acknowledge_in_order_witness :
  exists s' c', deliveryReceipt demoWaiting 0 (mkPid "ice:u:p" 1 4) (rtp 4 1) (rtp 4 1) peerAddr (5 * Second)
      = Some (s', magic ++ [3; 1; 0; 0] ++ rtp 4 1)
    /\ conns s' !! 0%nat = Some c' /\ pendingTokens (batchFor c' peerAddr "ice:u:p") = [].
Proof.
  destruct demoWaiting_stream as (st & c & H1 & H2 & H3 & H4).
  destruct (receipts_acknowledge_in_order demoWaiting 0 c st
    (mkPid "ice:u:p" 1 4) (rtp 4 1) (rtp 4 1) peerAddr (5 * Second) demoWaiting_reach H3 H1 H2)
    as (s' & c' & E & G1 & G2 & _).
  - cbn. lia.
  - cbn [pidRemote] in E, G2. rewrite H4 in E, G2. exists s', c'. split; [exact E|]. split; [exact G1|exact G2].
Defined.

End Recovery.
