(* ===== verification/Peer.v ===== *)
(** * The SDP exchange ([src/internal/peer/peer.go])

    What WHIP and WHEP share.  SDP is parsed by the WebRTC library: an offer is
    what its parser made of it, for each media section the keys of its attributes
    in order, or [None].  The calls on a connection are its answers. *)

From S2P Require Import Prelude.

Module Peer.

Inductive error := ErrNegotiate.

Definition bothWays : string := "sendrecv".

Definition isDirection (key : string) : bool :=
  bool_decide (key ∈ ["sendonly"; "recvonly"; bothWays; "inactive"]).

(** The inner loop of [Direction]. *)
Definition facing (attributes : list string) : string :=
  fold_left (λ f key, if isDirection key then key else f) attributes bothWays.

Definition Direction (offer : option (list (list string))) (wanted : string) : error + bool :=
  match offer with
  | None => inl ErrNegotiate
  | Some media =>
      inr (existsb (λ attributes,
             String.eqb (facing attributes) wanted || String.eqb (facing attributes) bothWays) media)
  end.

(** What the connection answers to the calls of [Answer], in order: whether the
    offer and the answer were accepted, whether gathering ended before the timer,
    and the local description. *)
Record exchange := mkExchange {
  setRemoteOK : bool; createAnswerOK : bool; setLocalOK : bool; gathered : bool; localSDP : string
}.

Definition Answer (x : exchange) : error + string :=
  if negb (setRemoteOK x) then inl ErrNegotiate
  else if negb (createAnswerOK x) then inl ErrNegotiate
  else if negb (setLocalOK x) then inl ErrNegotiate
  else if negb (gathered x) then inl ErrNegotiate
  else inr (localSDP x).

(** [Discard]: the connections open afterwards, and the cause. *)
Definition Discard {E} (open : gset nat) (conn : nat) (cause : E) : gset nat * E := (open ∖ {[conn]}, cause).

(** ** Lemmas *)

(** The direction of a section is its last direction attribute. *)
Lemma facing_last attributes :
  facing attributes = default bothWays (last (filter (λ k, isDirection k = true) attributes)).
Proof.
  unfold facing. generalize bothWays as f. induction attributes as [|k l IH]; intros f; [done|].
  cbn [fold_left]. rewrite IH, filter_cons. destruct (isDirection k) eqn:E.
  - rewrite decide_True by done. rewrite last_cons. by destruct (last _).
  - by rewrite decide_False.
Qed.

(** An offer is refused just when every section names another direction. *)
Lemma Direction_refuses media wanted :
  Direction (Some media) wanted = inr false
  <-> Forall (λ attributes, facing attributes <> wanted /\ facing attributes <> bothWays) media.
Proof.
  cbn. induction media as [|m media IH]; cbn; [by split|].
  rewrite Forall_cons, <-IH. destruct (existsb _ media).
  - rewrite orb_true_r. split; [done|]. intros [_ ?]. done.
  - rewrite orb_false_r. destruct (String.eqb_spec (facing m) wanted), (String.eqb_spec (facing m) bothWays);
      cbn; split; try done; tauto.
Qed.

Lemma Answer_success x sdp : Answer x = inr sdp -> gathered x = true /\ sdp = localSDP x.
Proof.
  unfold Answer. destruct (setRemoteOK x), (createAnswerOK x), (setLocalOK x), (gathered x); cbn; try done.
  by intros [= <-].
Qed.

End Peer.
