(* ===== verification/Whep.v ===== *)
(** * Subscribers ([src/internal/egress/whep.go])

    A [*Session] is an address in [store].  A subscription runs in its handler's
    goroutine: it reserves a place, builds a connection outside the lock, commits
    under it and gives the reservation back; [phases] says how far each one is.
    [CloseIngest], [Teardown] and [Close] take sessions out of the table under the
    lock and close the connections after it: those still to be closed are in
    [closing].  Critical sections interleave in any order ([step]).

    Connections, their answers and resource identifiers come from outside.  A
    resource identifier is 128 random bits: [step] takes it to be unused. *)

From S2P Require Import Prelude.
From S2P Require Import Config.
From S2P Require Import Peer.
From S2P Require Import DynamicDelay.
From S2P Require Import Relay.

Module Whep.

Inductive error :=
  | ErrCapacity | ErrUnknownKey | ErrWrongRole | ErrNotReceiving | ErrOffline | ErrBadOffer | ErrNoSession
  | ErrNegotiate (e : Peer.error).

Record Session := mkSession { IngestID : string; Resource : string; peer : option nat }.

Record Server := mkServer {
  store : gmap nat Session;
  sessions : gmap string nat;
  pending : gmap nat bool;
  closed : bool;
  open : gset nat                (* the connections not yet closed *)
}.

#[export] Instance eta_server : Eta Server := fun s =>
  mkServer (store s) (sessions s) (pending s) (closed s) (open s).

Definition maxSubscribers : nat := 64.
Definition maxSubscribersPerIngest : nat := 8.

Definition NewServer : Server := mkServer ∅ ∅ ∅ false ∅.

(** [Playback]: the relay's clock with the camera's policy. *)
Definition Playback (cfg : Config.Cfg) (p : Relay.PlaybackState) (ingestID : string)
  : Relay.PlaybackState * DynamicDelay.Options * Z :=
  (p, Config.DelayOptions cfg ingestID, Config.EffectiveDelay cfg ingestID).

Definition onCamera (s : Server) (ingestID : string) (r : nat) : bool :=
  match store s !! r with Some session => String.eqb (IngestID session) ingestID | None => false end.

(** [reserve]; [fresh] is the address of the new session. *)
Definition reserve (s : Server) (ingestID : string) (fresh : nat) : Server * option nat :=
  let total := (size (sessions s) + size (pending s))%nat in
  let camera := (size (filter (λ '(r, _), onCamera s ingestID r = true) (pending s))
                 + size (filter (λ '(_, r), onCamera s ingestID r = true) (sessions s)))%nat in
  if closed s || (maxSubscribers <=? total)%nat || (maxSubscribersPerIngest <=? camera)%nat then (s, None)
  else (s <| store := <[fresh := mkSession ingestID "" None]> (store s) |>
          <| pending := <[fresh := true]> (pending s) |>, Some fresh).

(** [Subscribe] up to the reservation.  [resolved] is what [Config.Resolve] made
    of the key. *)
Definition Subscribe (s : Server) (resolved : Config.Ingest * Config.Role) (offer : option (list (list string)))
    (fresh : nat) : Server * (error + nat) :=
  match resolved.2 with
  | Config.RoleNone => (s, inl ErrUnknownKey)
  | Config.RoleSender => (s, inl ErrWrongRole)
  | Config.RoleReceiver =>
      match Peer.Direction offer "recvonly" with
      | inl _ => (s, inl ErrBadOffer)
      | inr false => (s, inl ErrNotReceiving)
      | inr true =>
          match reserve s (Config.ID resolved.1) fresh with
          | (s, None) => (s, inl ErrCapacity)
          | (s, Some r) => (s, inr r)
          end
      end
  end.

(** What the WebRTC library and the random source answer to [negotiate]. *)
Record answers := mkAnswers {
  newPeer : option nat; addTrackOK : list bool; exchange : Peer.exchange; resourceKey : option string
}.

Definition closePeer (s : Server) (p : nat) : Server := s <| open := open s ∖ {[p]} |>.

(** [negotiate] before its lock: the connection is built, answered and noted in
    the session, or closed again. *)
Definition prepare (s : Server) (r : nat) (x : answers) : Server * (error + string) :=
  match newPeer x with
  | None => (s, inl ErrBadOffer)
  | Some p =>
      let s := s <| open := {[p]} ∪ open s |> in
      if negb (forallb id (addTrackOK x)) then (closePeer s p, inl ErrBadOffer)
      else
        match Peer.Answer (exchange x) with
        | inl e => (closePeer s p, inl (ErrNegotiate e))
        | inr answer =>
            match resourceKey x with
            | None => (closePeer s p, inl ErrBadOffer)
            | Some resource =>
                (s <| store := alter (λ session, mkSession (IngestID session) resource (Some p)) r (store s) |>,
                 inr answer)
            end
        end
  end.

(** [negotiate] under its lock. *)
Definition commit (s : Server) (r : nat) : Server * (error + string) :=
  match store s !! r with
  | None => (s, inl ErrOffline)
  | Some session =>
      match pending s !! r with
      | Some true => (s <| sessions := <[Resource session := r]> (sessions s) |>, inr (Resource session))
      | _ => (match peer session with Some p => closePeer s p | None => s end, inl ErrOffline)
      end
  end.

Definition releaseReservation (s : Server) (r : nat) : Server := s <| pending := delete r (pending s) |>.

(** The connections of the sessions at these addresses. *)
Definition peersOf (s : Server) (rs : list nat) : list nat := rs ≫= (λ r, option_list (store s !! r ≫= peer)).

(** [CloseIngest]: the connections to close come back. *)
Definition CloseIngest (s : Server) (ingestID : string) : Server * list nat :=
  let s' := s <| pending := map_imap (λ r b, Some (if onCamera s ingestID r then false else b)) (pending s) |>
              <| sessions := filter (λ '(_, r), onCamera s ingestID r = false) (sessions s) |> in
  (s', peersOf s ((map_to_list (filter (λ '(_, r), onCamera s ingestID r = true) (sessions s))).*2)).

Definition Teardown (s : Server) (resource : string) : Server * (error + list nat) :=
  match sessions s !! resource with
  | None => (s, inl ErrNoSession)
  | Some r => (s <| sessions := delete resource (sessions s) |>, inr (peersOf s [r]))
  end.

Definition forget (s : Server) (resource : string) : Server := s <| sessions := delete resource (sessions s) |>.

Definition Close (s : Server) : Server * list nat :=
  (s <| closed := true |> <| pending := ((λ _, false) <$> pending s) |> <| sessions := ∅ |>,
   peersOf s ((map_to_list (sessions s)).*2)).

(** ** What viewers send back ([drainRTCP]) *)

(** A packet of a viewer, with the clock around the request it may cause. *)
Inductive feedback := PictureLossIndication | FullIntraRequest | OtherFeedback.

Fixpoint requests (w : Relay.world) (ingestID : string) (packets : list (feedback * time * time)) : Relay.world :=
  match packets with
  | [] => w
  | (OtherFeedback, _, _) :: rest => requests w ingestID rest
  | (_, t0, t1) :: rest => requests (Relay.Keyframe w ingestID t0 t1) ingestID rest
  end.

(** The loop up to the read that fails: a datagram decodes to packets or is skipped. *)
Fixpoint drainRTCP (w : Relay.world) (ingestID : string) (reads : list (option (list (feedback * time * time)))) : Relay.world :=
  match reads with
  | [] => w
  | None :: rest => drainRTCP w ingestID rest
  | Some packets :: rest => drainRTCP (requests w ingestID packets) ingestID rest
  end.

(** ** The goroutines *)
Inductive phase := Reserved | Prepared | Leaving.

Record world := mkWorld {
  srv : Server;
  phases : gmap nat phase;       (* the subscription that owns the session at this address *)
  closing : gset nat;            (* connections about to be closed *)
  dropped : gset nat             (* connections that failed and were forgotten *)
}.

#[export] Instance eta_world : Eta world := fun w => mkWorld (srv w) (phases w) (closing w) (dropped w).

Definition start : world := mkWorld NewServer ∅ ∅ ∅.

Inductive step : world -> world -> Prop :=
| W_subscribe w resolved offer fresh s' :
    store (srv w) !! fresh = None -> Subscribe (srv w) resolved offer fresh = (s', inr fresh) ->
    step w (w <| srv := s' |> <| phases := <[fresh := Reserved]> (phases w) |>)
| W_refused w resolved offer fresh s' e :
    Subscribe (srv w) resolved offer fresh = (s', inl e) -> step w (w <| srv := s' |>)
| W_offline w r :
    phases w !! r = Some Reserved -> step w (w <| phases := <[r := Leaving]> (phases w) |>)
| W_prepare w r x s' res :
    phases w !! r = Some Reserved ->
    (forall p, newPeer x = Some p ->
       (p ∉ open (srv w)) /\ (forall r session, store (srv w) !! r = Some session -> peer session <> Some p)) ->
    (forall k, resourceKey x = Some k -> forall r session, store (srv w) !! r = Some session -> Resource session <> k) ->
    prepare (srv w) r x = (s', res) ->
    step w (w <| srv := s' |> <| phases := <[r := match res with inr _ => Prepared | inl _ => Leaving end]> (phases w) |>)
| W_commit w r s' res :
    phases w !! r = Some Prepared -> commit (srv w) r = (s', res) ->
    step w (w <| srv := s' |> <| phases := <[r := Leaving]> (phases w) |>)
| W_release w r :
    phases w !! r = Some Leaving ->
    step w (w <| srv := releaseReservation (srv w) r |> <| phases := delete r (phases w) |>)
| W_closeIngest w ingestID s' ps :
    CloseIngest (srv w) ingestID = (s', ps) ->
    step w (w <| srv := s' |> <| closing := list_to_set ps ∪ closing w |>)
| W_teardown w resource s' ps :
    Teardown (srv w) resource = (s', inr ps) ->
    step w (w <| srv := s' |> <| closing := list_to_set ps ∪ closing w |>)
| W_failed w resource :
    step w (w <| srv := forget (srv w) resource |>
              <| dropped := list_to_set (peersOf (srv w) (option_list (sessions (srv w) !! resource))) ∪ dropped w |>)
| W_close w s' ps :
    Close (srv w) = (s', ps) -> step w (w <| srv := s' |> <| closing := list_to_set ps ∪ closing w |>)
| W_closePeer w p :
    p ∈ closing w -> step w (w <| srv := closePeer (srv w) p |> <| closing := closing w ∖ {[p]} |>).

Abbreviation reach := (rtc step start).

(** ** Invariant *)

(** The sessions that hold a place: in the table, or being negotiated. *)
Definition occupied (s : Server) : gset nat := dom (pending s) ∪ list_to_set ((map_to_list (sessions s)).*2).

Definition occupiedOn (s : Server) (ingestID : string) : gset nat :=
  filter (λ r, onCamera s ingestID r = true) (occupied s).

Record inv (w : world) : Prop := Inv {
  i_table : forall k r, sessions (srv w) !! k = Some r ->
    exists session, store (srv w) !! r = Some session /\ Resource session = k /\ is_Some (peer session)
      /\ phases w !! r <> Some Reserved;
  i_pending : forall r, is_Some (pending (srv w) !! r) <-> is_Some (phases w !! r);
  i_store : forall r, is_Some (phases w !! r) -> is_Some (store (srv w) !! r);
  i_unique : forall r r' x y, store (srv w) !! r = Some x -> store (srv w) !! r' = Some y ->
    is_Some (peer x) -> Resource x = Resource y -> is_Some (peer y) -> r = r';
  i_prepared : forall r, phases w !! r = Some Prepared ->
    exists session, store (srv w) !! r = Some session /\ is_Some (peer session);
  i_capacity : (size (occupied (srv w)) <= maxSubscribers)%nat
    /\ forall ingestID, (size (occupiedOn (srv w) ingestID) <= maxSubscribersPerIngest)%nat;
  i_open : forall p, p ∈ open (srv w) ->
    p ∈ closing w \/ p ∈ dropped w
    \/ exists r session, store (srv w) !! r = Some session /\ peer session = Some p
         /\ (phases w !! r = Some Prepared \/ exists k, sessions (srv w) !! k = Some r)
}.

Lemma elem_of_occupied s r :
  r ∈ occupied s <-> is_Some (pending s !! r) \/ exists k, sessions s !! k = Some r.
Proof.
  unfold occupied. rewrite elem_of_union, elem_of_dom, elem_of_list_to_set, list_elem_of_fmap. split.
  - intros [?|([k r'] & -> & H)]; [by left|right]. exists k. by apply elem_of_map_to_list in H.
  - intros [?|[k H]]; [by left|right]. exists (k, r). split; [done|]. by apply elem_of_map_to_list.
Qed.

(** Places are only given up when the occupants that remain are old ones. *)
Lemma capacity_mono s s' :
  (forall r, r ∈ occupied s' -> r ∈ occupied s) ->
  (forall r ingestID, r ∈ occupied s' -> onCamera s' ingestID r = onCamera s ingestID r) ->
  (size (occupied s) <= maxSubscribers)%nat
    /\ (forall ingestID, (size (occupiedOn s ingestID) <= maxSubscribersPerIngest)%nat) ->
  (size (occupied s') <= maxSubscribers)%nat
    /\ forall ingestID, (size (occupiedOn s' ingestID) <= maxSubscribersPerIngest)%nat.
Proof.
  intros Ho Hc [Ht Hi]. split.
  - etrans; [|exact Ht]. by apply subseteq_size.
  - intros ing. etrans; [|exact (Hi ing)]. apply subseteq_size. intros r. unfold occupiedOn.
    rewrite !elem_of_filter. intros [H1 H2]. rewrite <-Hc; auto.
Qed.

Lemma size_list_to_set_le (l : list nat) : (size (list_to_set l : gset nat) <= length l)%nat.
Proof.
  induction l as [|x l IH]; cbn; [by rewrite size_empty|].
  pose proof (size_union_alt {[x]} (list_to_set l : gset nat)) as H. rewrite H, size_singleton.
  assert (size ((list_to_set l : gset nat) ∖ {[x]}) <= size (list_to_set l : gset nat))%nat.
  { apply subseteq_size. set_solver. }
  lia.
Qed.

(** The places counted by [reserve] are no fewer than the occupants. *)
Lemma occupied_size s (P : nat -> Prop) `{!forall r, Decision (P r)} :
  (size (filter P (occupied s))
   <= size (filter (λ '(r, _), P r) (pending s)) + size (filter (λ '(_, r), P r) (sessions s)))%nat.
Proof.
  set (a := dom (filter (λ '(r, _), P r) (pending s)) : gset nat).
  set (b := list_to_set ((map_to_list (filter (λ '(_, r), P r) (sessions s))).*2) : gset nat).
  assert (Hs : filter P (occupied s) ⊆ a ∪ b).
  { intros r. rewrite elem_of_filter, elem_of_occupied, elem_of_union. intros [Hp [[v Hv]|[k Hk]]].
    - left. unfold a. apply elem_of_dom. exists v. by apply map_lookup_filter_Some.
    - right. unfold b. rewrite elem_of_list_to_set, list_elem_of_fmap. exists (k, r). split; [done|].
      apply elem_of_map_to_list. by apply map_lookup_filter_Some. }
  apply subseteq_size in Hs. etrans; [exact Hs|]. rewrite size_union_alt.
  assert (size (b ∖ a) <= size b)%nat by (apply subseteq_size; set_solver).
  pose proof (size_list_to_set_le ((map_to_list (filter (λ '(_, r), P r) (sessions s))).*2)) as Hb.
  rewrite length_fmap, length_map_to_list in Hb. unfold a at 1. rewrite size_dom. fold b in Hb. lia.
Qed.

Lemma onCamera_insert s fresh x ingestID r :
  r <> fresh -> onCamera (s <| store := <[fresh := x]> (store s) |>) ingestID r = onCamera s ingestID r.
Proof. intros H. unfold onCamera. cbn. by rewrite lookup_insert_ne. Qed.

Lemma reserve_spec s ingestID fresh s' r :
  reserve s ingestID fresh = (s', Some r) -> store s !! fresh = None ->
  (forall r, r ∈ occupied s -> is_Some (store s !! r)) ->
  (forall i, (size (occupiedOn s i) <= maxSubscribersPerIngest)%nat) ->
  r = fresh
  /\ s' = s <| store := <[fresh := mkSession ingestID "" None]> (store s) |>
            <| pending := <[fresh := true]> (pending s) |>
  /\ (size (occupied s') <= maxSubscribers)%nat
  /\ forall i, (size (occupiedOn s' i) <= maxSubscribersPerIngest)%nat.
Proof.
  unfold reserve. intros H Hf Hst Hold. destruct (_ || _) eqn:E; [done|]. injection H as <- <-.
  apply orb_false_iff in E as [E Ec%Nat.leb_gt]. apply orb_false_iff in E as [_ Et%Nat.leb_gt].
  split; [done|]. split; [done|]. set (s' := s <| store := _ |> <| pending := _ |>).
  assert (Hocc : occupied s' = {[fresh]} ∪ occupied s).
  { unfold occupied. cbn. rewrite dom_insert_L. set_solver. }
  assert (Hcam : forall i r, r ∈ occupied s -> onCamera s' i r = onCamera s i r).
  { intros i r Hr. apply (onCamera_insert s). intros ->. destruct (Hst _ Hr). congruence. }
  split.
  - rewrite Hocc, size_union_alt, size_singleton.
    pose proof (occupied_size s (λ _, True)) as Hsz.
    assert (Hid : filter (λ _, True) (occupied s) = occupied s) by (apply set_eq; intros; rewrite elem_of_filter; tauto).
    rewrite Hid in Hsz.
    assert (size (filter (λ '(r, _), True) (pending s)) <= size (pending s))%nat
      by (apply map_subseteq_size, map_filter_subseteq).
    assert (size (filter (λ '(_, r), True) (sessions s)) <= size (sessions s))%nat
      by (apply map_subseteq_size, map_filter_subseteq).
    assert (size (occupied s ∖ {[fresh]}) <= size (occupied s))%nat by (apply subseteq_size; set_solver). lia.
  - intros i. destruct (decide (i = ingestID)) as [->|Hne].
    + assert (Hsub : occupiedOn s' ingestID ⊆ {[fresh]} ∪ occupiedOn s ingestID).
      { intros r. unfold occupiedOn. rewrite elem_of_union, elem_of_singleton, !elem_of_filter, Hocc, elem_of_union, elem_of_singleton.
        intros [H1 [->|H2]]; [by left|right]. rewrite <-Hcam; auto. }
      apply subseteq_size in Hsub. rewrite size_union_alt, size_singleton in Hsub.
      pose proof (occupied_size s (λ r, onCamera s ingestID r = true)) as Hsz. fold (occupiedOn s ingestID) in Hsz.
      assert (size (occupiedOn s ingestID ∖ {[fresh]}) <= size (occupiedOn s ingestID))%nat
        by (apply subseteq_size; set_solver). lia.
    + etrans; [|exact (Hold i)]. apply subseteq_size. intros r. unfold occupiedOn.
      rewrite !elem_of_filter, Hocc, elem_of_union, elem_of_singleton. intros [H1 [->|H2]].
      * exfalso. unfold onCamera, s' in H1. cbn in H1. rewrite lookup_insert_eq in H1. cbn in H1.
        apply String.eqb_eq in H1. congruence.
      * rewrite <-Hcam; auto.
Qed.

(** The occupants of a good state have been allocated. *)
Lemma occupied_store w r : inv w -> r ∈ occupied (srv w) -> is_Some (store (srv w) !! r).
Proof.
  intros H. rewrite elem_of_occupied. intros [Hp|[k Hk]].
  - by apply (i_store w H), (i_pending w H).
  - destruct (i_table w H k r Hk) as (x & -> & _). eauto.
Qed.

Lemma elem_of_peersOf s rs p :
  p ∈ peersOf s rs <-> exists r session, r ∈ rs /\ store s !! r = Some session /\ peer session = Some p.
Proof.
  unfold peersOf. rewrite list_elem_of_bind. split.
  - intros (r & Hp & Hr). destruct (store s !! r) as [x|] eqn:E; cbn in Hp; [|by apply not_elem_of_nil in Hp].
    destruct (peer x) as [q|] eqn:Eq; cbn in Hp; [|by apply not_elem_of_nil in Hp].
    apply list_elem_of_singleton in Hp as ->. eauto.
  - intros (r & x & Hr & E & Ep). exists r. split; [|done]. rewrite E. cbn. rewrite Ep. by left.
Qed.

(** Taking sessions out of the table, their connections noted. *)
Lemma inv_remove w s' cl dr :
  inv w -> store s' = store (srv w) -> open s' = open (srv w) ->
  (forall k r, sessions s' !! k = Some r -> sessions (srv w) !! k = Some r) ->
  (forall r, is_Some (pending s' !! r) <-> is_Some (pending (srv w) !! r)) ->
  closing w ⊆ cl -> dropped w ⊆ dr ->
  (forall k r x p, sessions (srv w) !! k = Some r -> sessions s' !! k = None ->
     store (srv w) !! r = Some x -> peer x = Some p -> p ∈ cl ∪ dr) ->
  inv (mkWorld s' (phases w) cl dr).
Proof.
  intros [H1 H2 H3 H4 H5 H6 H7] Est Eop Hs Hp Hcl Hdr Hrm. split; cbn; rewrite ?Est, ?Eop; auto.
  - intros r. by rewrite Hp, H2.
  - apply (capacity_mono (srv w)); [| |done].
    + intros r. rewrite !elem_of_occupied, Hp. intros [?|[k Hk]]; eauto.
    + intros r i _. unfold onCamera. by rewrite Est.
  - intros p Hopen. destruct (H7 p Hopen) as [?|[?|(r & x & Hx & Hpeer & Hwhere)]]; [left; auto|right; left; auto|].
    destruct Hwhere as [?|[k Hk]]; [right; right; eauto 10|].
    destruct (sessions s' !! k) as [r'|] eqn:E.
    + right. right. exists r, x. pose proof (Hs _ _ E). assert (r' = r) as -> by congruence. eauto 6.
    + pose proof (Hrm _ _ _ _ Hk E Hx Hpeer) as Hin. apply elem_of_union in Hin. tauto.
Qed.

Lemma inv_subscribe w ingestID fresh s' :
  inv w -> store (srv w) !! fresh = None -> reserve (srv w) ingestID fresh = (s', Some fresh) ->
  inv (w <| srv := s' |> <| phases := <[fresh := Reserved]> (phases w) |>).
Proof.
  intros Hinv Hf Hr. destruct (reserve_spec _ _ _ _ _ Hr Hf (λ r, occupied_store w r Hinv) (proj2 (i_capacity w Hinv)))
    as (_ & -> & Hc1 & Hc2). destruct Hinv as [H1 H2 H3 H4 H5 H6 H7].
  assert (Hne : forall r x, store (srv w) !! r = Some x -> r <> fresh) by (intros r x Hx ->; congruence).
  split; cbn; try by split.
  - intros k r Hk. destruct (H1 k r Hk) as (x & Hx & Hres & Hpeer & Hph). exists x.
    rewrite !lookup_insert_ne by (by apply not_eq_sym, (Hne r x)). done.
  - intros r. rewrite !lookup_insert_is_Some, H2. done.
  - intros r. rewrite !lookup_insert_is_Some. intros [?|[? ?]]; [by left|right; auto].
  - intros r r' x y Hx Hy. destruct (decide (r = fresh)) as [->|], (decide (r' = fresh)) as [->|]; try done.
    + rewrite lookup_insert_eq in Hx. injection Hx as <-. by intros [? ?].
    + rewrite lookup_insert_eq in Hy. injection Hy as <-. by intros ? ? [? ?].
    + rewrite lookup_insert_ne in Hx, Hy by done. eauto.
  - intros r Hph. destruct (decide (r = fresh)) as [->|]; [by rewrite lookup_insert_eq in Hph|].
    rewrite lookup_insert_ne in Hph by done. rewrite lookup_insert_ne by done. auto.
  - intros p Hp. destruct (H7 p Hp) as [?|[?|(r & x & Hx & Hpeer & Hw)]]; [by left|by right; left|].
    right. right. exists r, x. rewrite !lookup_insert_ne by (by apply not_eq_sym, (Hne r x)). auto.
Qed.

Lemma phases_dom w r v : is_Some (phases w !! r) ->
  forall r', is_Some (<[r := v]> (phases w) !! r') <-> is_Some (phases w !! r').
Proof.
  intros Hr r'. rewrite lookup_insert_is_Some. split; [|destruct (decide (r = r')); auto].
  intros [<-|[_ ?]]; done.
Qed.

(** A subscription that gives up, its connection, if any, closed. *)
Lemma inv_leave w r op :
  inv w -> is_Some (phases w !! r) -> op ⊆ open (srv w) ->
  (phases w !! r = Some Prepared -> forall x p, store (srv w) !! r = Some x -> peer x = Some p -> p ∉ op) ->
  inv (w <| srv := (srv w) <| open := op |> |> <| phases := <[r := Leaving]> (phases w) |>).
Proof.
  intros [H1 H2 H3 H4 H5 H6 H7] Hr Hop Hp. split; cbn; auto.
  - intros k r' Hk. destruct (H1 k r' Hk) as (y & ? & ? & ? & ?). exists y. split_and!; auto.
    destruct (decide (r = r')) as [<-|]; [by rewrite lookup_insert_eq|by rewrite lookup_insert_ne].
  - intros r'. by rewrite phases_dom.
  - intros r' Hr'. apply H3. by apply (phases_dom w r Leaving).
  - intros r' Hr'. destruct (decide (r = r')) as [<-|]; [by rewrite lookup_insert_eq in Hr'|].
    rewrite lookup_insert_ne in Hr' by done. auto.
  - intros p Hin. destruct (H7 p) as [?|[?|(r' & y & Hy & Hpy & Hw)]]; auto. right. right. exists r', y.
    split; [done|]. split; [done|]. destruct Hw as [Hw|?]; [left|by right].
    rewrite lookup_insert_ne; [done|]. intros ->. by apply (Hp Hw y p).
Qed.

Lemma closed_again (p : nat) (op : gset nat) : ({[p]} ∪ op) ∖ {[p]} ⊆ op.
Proof. set_solver. Qed.

Lemma inv_prepare w r x s' res :
  inv w -> phases w !! r = Some Reserved ->
  (forall k, resourceKey x = Some k -> forall r session, store (srv w) !! r = Some session -> Resource session <> k) ->
  prepare (srv w) r x = (s', res) ->
  inv (w <| srv := s' |> <| phases := <[r := match res with inr _ => Prepared | inl _ => Leaving end]> (phases w) |>).
Proof.
  intros Hinv Hph Hfresh Hprep. unfold prepare in Hprep.
  assert (Hfail : forall op, op ⊆ open (srv w) ->
    inv (w <| srv := (srv w) <| open := op |> |> <| phases := <[r := Leaving]> (phases w) |>)).
  { intros op Hop. apply inv_leave; [done|eauto|done|congruence]. }
  destruct (newPeer x) as [p|].
  2:{ injection Hprep as <- <-. replace (srv w) with ((srv w) <| open := open (srv w) |>) by by destruct (srv w). by apply Hfail. }
  destruct (negb _); [injection Hprep as <- <-; apply Hfail, closed_again|].
  destruct (Peer.Answer _) as [e|a]; [injection Hprep as <- <-; apply Hfail, closed_again|].
  destruct (resourceKey x) as [k|] eqn:Ek; [|injection Hprep as <- <-; apply Hfail, closed_again].
  injection Hprep as <- <-. specialize (Hfresh k eq_refl). clear Hfail.
  destruct Hinv as [H1 H2 H3 H4 H5 H6 H7]. destruct (H3 r) as [y Hy]; [eauto|].
  assert (Hnot : forall k r', sessions (srv w) !! k = Some r' -> r <> r').
  { intros k' r' Hk ->. destruct (H1 k' r' Hk) as (? & _ & _ & _ & Hx). done. }
  split; cbn.
  - intros k' r' Hk. destruct (H1 k' r' Hk) as (z & ? & ? & ? & ?). exists z.
    rewrite lookup_alter_ne, lookup_insert_ne by eauto. done.
  - intros r'. rewrite phases_dom by eauto. apply H2.
  - intros r'. rewrite phases_dom by eauto. rewrite lookup_alter_is_Some. apply H3.
  - intros r1 r2 a1 a2. destruct (decide (r = r1)) as [<-|], (decide (r = r2)) as [<-|];
      rewrite ?lookup_alter_eq, ?lookup_alter_ne, ?Hy by done; cbn; try done; [| |eauto].
    + intros [= <-] Ha2 _. cbn. intros Hres. by destruct (Hfresh _ _ Ha2).
    + intros Ha1 [= <-] _. cbn. intros Hres. by destruct (Hfresh _ _ Ha1).
  - intros r'. destruct (decide (r = r')) as [<-|].
    + intros _. rewrite lookup_alter_eq, Hy. cbn. eauto.
    + rewrite lookup_insert_ne, lookup_alter_ne by done. apply H5.
  - apply (capacity_mono (srv w)); [intros r'; by rewrite !elem_of_occupied| |done].
    intros r' i _. unfold onCamera. cbn. destruct (decide (r = r')) as [<-|].
    + by rewrite lookup_alter_eq, Hy.
    + by rewrite lookup_alter_ne.
  - intros q [->%elem_of_singleton|Hq]%elem_of_union.
    + right. right. exists r, (mkSession (IngestID y) k (Some p)). rewrite lookup_alter_eq, lookup_insert_eq, Hy. auto.
    + destruct (H7 q Hq) as [?|[?|(r' & z & Hz & Hpz & Hw)]]; auto. right. right. exists r', z.
      assert (r <> r') by (intros ->; destruct Hw as [?|[? ?]]; [congruence|by eapply Hnot]).
      rewrite lookup_alter_ne, lookup_insert_ne by done. auto.
Qed.

Lemma inv_commit w r s' res :
  inv w -> phases w !! r = Some Prepared -> commit (srv w) r = (s', res) ->
  inv (w <| srv := s' |> <| phases := <[r := Leaving]> (phases w) |>).
Proof.
  intros Hinv Hph Hc. pose proof Hinv as [H1 H2 H3 H4 H5 H6 H7]. destruct (H5 r Hph) as (y & Hy & [p Hp]).
  unfold commit in Hc. rewrite Hy, Hp in Hc.
  assert (Hcancel : inv (w <| srv := closePeer (srv w) p |> <| phases := <[r := Leaving]> (phases w) |>)).
  { apply inv_leave; [done|eauto|set_solver|]. intros _ x q Hx Hq. assert (q = p) as -> by congruence. set_solver. }
  destruct (pending (srv w) !! r) as [[]|] eqn:Epend; injection Hc as <- <-; try done.
  clear Hcancel. split; cbn.
  - intros k r'. destruct (decide (Resource y = k)) as [<-|].
    + rewrite lookup_insert_eq. intros [= <-]. exists y. rewrite Hp, lookup_insert_eq. eauto.
    + rewrite lookup_insert_ne by done. intros Hk. destruct (H1 k r' Hk) as (z & ? & ? & ? & ?). exists z.
      split_and!; auto. destruct (decide (r = r')) as [<-|]; [by rewrite lookup_insert_eq|by rewrite lookup_insert_ne].
  - intros r'. rewrite phases_dom by eauto. apply H2.
  - intros r'. rewrite phases_dom by eauto. apply H3.
  - done.
  - intros r'. destruct (decide (r = r')) as [<-|]; [by rewrite lookup_insert_eq|].
    rewrite lookup_insert_ne by done. apply H5.
  - apply (capacity_mono (srv w)); [|done|done]. intros r'. rewrite !elem_of_occupied. cbn.
    intros [?|[k Hk]]; [by left|]. destruct (decide (Resource y = k)) as [<-|].
    + rewrite lookup_insert_eq in Hk. injection Hk as <-. left. eauto.
    + rewrite lookup_insert_ne in Hk by done. eauto.
  - intros q Hq. destruct (H7 q Hq) as [?|[?|(r' & z & Hz & Hpz & Hw)]]; auto. right. right. exists r', z.
    split; [done|]. split; [done|]. destruct (decide (r = r')) as [<-|Hne].
    + right. exists (Resource y). apply lookup_insert_eq.
    + destruct Hw as [Hw|[k Hk]]; [left; by rewrite lookup_insert_ne|right].
      exists k. destruct (decide (Resource y = k)) as [<-|]; [|by rewrite lookup_insert_ne].
      destruct (H1 _ _ Hk) as (z' & Hz' & Hres & Hz'p & _). exfalso. apply Hne.
      apply (H4 r r' y z' Hy Hz'); [rewrite Hp; eauto|done|done].
Qed.

Lemma inv_release w r :
  inv w -> phases w !! r = Some Leaving ->
  inv (w <| srv := releaseReservation (srv w) r |> <| phases := delete r (phases w) |>).
Proof.
  intros [H1 H2 H3 H4 H5 H6 H7] Hph. split; cbn.
  - intros k r' Hk. destruct (H1 k r' Hk) as (z & ? & ? & ? & ?). exists z. split_and!; auto.
    rewrite lookup_delete_Some. tauto.
  - intros r'. rewrite !lookup_delete_is_Some, H2. done.
  - intros r'. rewrite lookup_delete_is_Some. intros [_ ?]. auto.
  - done.
  - intros r' [_ ?]%lookup_delete_Some. auto.
  - apply (capacity_mono (srv w)); [|done|done]. intros r'. rewrite !elem_of_occupied. cbn.
    rewrite lookup_delete_is_Some. tauto.
  - intros q Hq. destruct (H7 q Hq) as [?|[?|(r' & z & Hz & Hpz & Hw)]]; auto. right. right. exists r', z.
    split; [done|]. split; [done|]. destruct Hw as [Hw|?]; [left|by right].
    rewrite lookup_delete_ne; [done|]. intros ->. congruence.
Qed.

Lemma inv_closePeer w p :
  inv w -> inv (w <| srv := closePeer (srv w) p |> <| closing := closing w ∖ {[p]} |>).
Proof.
  intros [H1 H2 H3 H4 H5 H6 H7]. split; cbn; auto. intros q [Hq Hne]%elem_of_difference.
  destruct (H7 q Hq) as [?|[?|?]]; auto. left. set_solver.
Qed.

Lemma inv_closeIngest w ingestID s' ps :
  inv w -> CloseIngest (srv w) ingestID = (s', ps) ->
  inv (w <| srv := s' |> <| closing := list_to_set ps ∪ closing w |>).
Proof.
  intros Hinv Hc. unfold CloseIngest in Hc. injection Hc as <- <-.
  apply (inv_remove w _ _ (dropped w)); cbn; try done; try apply union_subseteq_r.
  - by intros k r [? _]%map_lookup_filter_Some.
  - intros r. rewrite map_lookup_imap. destruct (pending (srv w) !! r); cbn; split; intros [? ?]; eauto; done.
  - intros k r x p Hk Hn Hx Hp. rewrite !elem_of_union. left. left. rewrite elem_of_list_to_set, elem_of_peersOf.
    exists r, x. split; [|done]. apply list_elem_of_fmap. exists (k, r). split; [done|].
    apply elem_of_map_to_list, map_lookup_filter_Some. split; [done|].
    destruct (onCamera (srv w) ingestID r) eqn:E; [done|]. exfalso.
    assert (filter (λ '(_, r), onCamera (srv w) ingestID r = false) (sessions (srv w)) !! k = Some r) as Hx'
      by (by apply map_lookup_filter_Some). congruence.
Qed.

Lemma inv_delete w resource cl dr :
  inv w -> closing w ⊆ cl -> dropped w ⊆ dr ->
  list_to_set (peersOf (srv w) (option_list (sessions (srv w) !! resource))) ⊆ cl ∪ dr ->
  inv (mkWorld (forget (srv w) resource) (phases w) cl dr).
Proof.
  intros Hinv Hcl Hdr Hps. apply (inv_remove w); cbn; try done.
  - by intros k r [_ ?]%lookup_delete_Some.
  - intros k r x p Hk Hn Hx Hp. apply Hps. rewrite elem_of_list_to_set, elem_of_peersOf.
    destruct (decide (resource = k)) as [->|]; [|rewrite lookup_delete_ne in Hn by done; congruence].
    exists r, x. rewrite Hk. split; [by left|done].
Qed.

Lemma step_inv w w' : inv w -> step w w' -> inv w'.
Proof.
  intros Hinv Hstep. destruct Hstep as [w rs offer fresh s' Hf E|w rs offer fresh s' e E|w r Hph|w r x s' res Hph _ Hk E
    |w r s' res Hph E|w r Hph|w ing s' ps E|w res s' ps E|w res|w s' ps E|w p Hp].
  - unfold Subscribe in E. destruct rs as [ing []]; cbn in E; try done.
    destruct (Peer.Direction offer _) as [|[]]; try done.
    destruct (reserve _ _ _) as [s1 [r|]] eqn:Er; [|done]. injection E as <- ->. by eapply inv_subscribe.
  - assert (s' = srv w) as ->; [|by destruct w].
    unfold Subscribe in E. destruct rs as [ing []]; cbn in E; try congruence.
    destruct (Peer.Direction offer _) as [|[]]; try congruence.
    unfold reserve in E. destruct (_ || _); congruence.
  - replace w with (w <| srv := (srv w) <| open := open (srv w) |> |>) at 2 by by destruct w as [[] ? ? ?].
    apply inv_leave; [done|eauto|done|congruence].
  - by eapply inv_prepare.
  - by eapply inv_commit.
  - by apply inv_release.
  - by eapply inv_closeIngest.
  - unfold Teardown in E. destruct (sessions (srv w) !! res) as [r|] eqn:Er; [|done]. injection E as <- <-.
    apply (inv_delete w res); [done|set_solver|done|]. rewrite Er. set_solver.
  - apply (inv_delete w res); [done|done|set_solver|set_solver].
  - unfold Close in E. injection E as <- <-. apply (inv_remove w _ _ (dropped w)); cbn; try done; try apply union_subseteq_r.
    + intros r. by rewrite lookup_fmap, fmap_is_Some.
    + intros k r x p Hk _ Hx Hp. rewrite !elem_of_union. left. left. rewrite elem_of_list_to_set, elem_of_peersOf.
      exists r, x. split; [|done]. apply list_elem_of_fmap. exists (k, r). split; [done|]. by apply elem_of_map_to_list.
  - by apply inv_closePeer.
Qed.

Lemma reach_inv w : reach w -> inv w.
Proof.
  intros H. cut (inv start -> inv w); [|induction H; eauto using step_inv].
  intros Hs. apply Hs. split; cbn; try (intros *; rewrite lookup_empty; done).
  - intros r. rewrite !lookup_empty. done.
  - assert (E : occupied NewServer = ∅) by reflexivity. unfold occupiedOn. rewrite E. split.
    + rewrite size_empty. unfold maxSubscribers. lia.
    + intros i. etrans; [apply (subseteq_size _ (∅ : gset nat)); set_solver|]. rewrite size_empty.
      unfold maxSubscribersPerIngest. lia.
  - intros p []%elem_of_empty.
Qed.

(** ** Lemmas: viewers' feedback *)

#[export] Instance feedback_eq_dec : EqDecision feedback.
Proof. solve_decision. Defined.

Definition decoded (reads : list (option (list (feedback * time * time)))) : list (feedback * time * time) := reads ≫= default [].

Lemma requests_app w id l l' : requests w id (l ++ l') = requests (requests w id l) id l'.
Proof. revert w. induction l as [|[[[] t0] t1] l IH]; intros w; cbn; auto. Qed.

Lemma drainRTCP_decoded w id reads : drainRTCP w id reads = requests w id (decoded reads).
Proof.
  revert w. induction reads as [|[packets|] reads IH]; intros w; cbn; [done| |apply IH]. rewrite IH. unfold decoded. cbn. by rewrite requests_app.
Qed.

(** A call of [Keyframe] is a look-up and a section, while nobody holds a stream. *)
Lemma keyframe_reach es y id t0 t1 :
  Relay.reach es y -> Relay.busy y = ∅ -> t0 <= t1 ->
  exists es' y', Relay.reach es' y' /\ Relay.busy y' = ∅
    /\ Relay.store y' = Relay.Keyframe (Relay.store y) id t0 t1.
Proof.
  intros Hr Hb Ht. unfold Relay.Keyframe. destruct (Relay.names (Relay.store y) !! id) as [r|] eqn:En; [|eauto].
  pose proof (Relay.R_step _ _ _ _ Hr (Relay.S_lookup y id r (Relay.CAsk r) En eq_refl I)) as R1.
  eexists _, _. split; [|split].
  - eapply Relay.R_step; [exact R1|].
    eapply (Relay.S_call _ (Relay.running y) (Relay.CAsk r) [] [] t0 t1 (Relay.askKeyframe (Relay.store y) r t0 t1) []);
      [done| |done|].
    + split; [cbn; by rewrite Hb|done].
    + unfold Relay.perform, Relay.askKeyframe. cbn. by destruct (Relay.streams (Relay.store y) !! r).
  - exact Hb.
  - done.
Qed.

(** What viewers send is for the relay a sequence of calls of [Keyframe], so all that
    holds of the states it reaches holds whatever they send; and a viewer causes no
    more requests than it asked for. *)
Lemma feedback_is_keyframes es y id reads :
  Relay.reach es y -> Relay.busy y = ∅ -> Forall (λ p, p.1.2 <= p.2) (decoded reads) ->
  (exists es' y', Relay.reach es' y' /\ Relay.store y' = drainRTCP (Relay.store y) id reads)
  /\ (length (Relay.asks (drainRTCP (Relay.store y) id reads))
        <= length (Relay.asks (Relay.store y)) + length (filter (λ p, p.1.1 <> OtherFeedback) (decoded reads)))%nat.
Proof.
  rewrite drainRTCP_decoded. generalize (decoded reads) as l. clear reads. intros l. revert es y.
  induction l as [|[[k t0] t1] l IH]; intros es y Hr Hb Ho; [cbn; split; [eauto|lia]|].
  apply Forall_cons in Ho as [Ht Ho].
  destruct (keyframe_reach es y id t0 t1 Hr Hb Ht) as (es' & y' & Hr' & Hb' & Ey).
  assert (Ha : (length (Relay.asks (Relay.store y')) <= S (length (Relay.asks (Relay.store y))))%nat).
  { rewrite Ey. unfold Relay.Keyframe, Relay.askKeyframe. repeat case_match; cbn; lia. }
  rewrite filter_cons. destruct k; cbn [requests fst].
  1,2: rewrite decide_True by done; destruct (IH _ _ Hr' Hb' Ho) as [? ?]; rewrite <-Ey; (split; [done|cbn; lia]).
  rewrite decide_False by (intros Hn; by apply Hn). by apply (IH es).
Qed.

(** ** Lemmas: cancelled subscriptions *)

(** The session is out of the table and cannot get back in. *)
Definition cancelled (ingestID : string) (s : Server) (r : nat) : Prop :=
  onCamera s ingestID r = true /\ (forall k, sessions s !! k <> Some r) /\ pending s !! r <> Some true.

Lemma reserve_cases s ingestID fresh :
  reserve s ingestID fresh = (s, None)
  \/ reserve s ingestID fresh = (s <| store := <[fresh := mkSession ingestID "" None]> (store s) |>
                                 <| pending := <[fresh := true]> (pending s) |>, Some fresh).
Proof. unfold reserve. destruct (_ || _); auto. Qed.

Lemma onCamera_ingest s s' r ingestID :
  (IngestID <$> store s' !! r) = (IngestID <$> store s !! r) -> onCamera s' ingestID r = onCamera s ingestID r.
Proof.
  unfold onCamera. destruct (store s !! r), (store s' !! r); cbn; intros E; try done. injection E as ->. done.
Qed.

Lemma prepare_frame s r x s' res :
  prepare s r x = (s', res) ->
  sessions s' = sessions s /\ pending s' = pending s
  /\ forall r', (IngestID <$> store s' !! r') = (IngestID <$> store s !! r').
Proof.
  unfold prepare. destruct (newPeer x) as [p|]; [|by intros [= <- <-]].
  destruct (negb _); [by intros [= <- <-]|]. destruct (Peer.Answer _); [by intros [= <- <-]|].
  destruct (resourceKey x); intros [= <- <-]; [|done]. split; [done|]. split; [done|]. intros r'. cbn.
  destruct (decide (r = r')) as [<-|]; [|by rewrite lookup_alter_ne]. rewrite lookup_alter_eq. by destruct (store s !! r).
Qed.

Lemma cancelled_mono ingestID s s' r :
  cancelled ingestID s r -> (IngestID <$> store s' !! r) = (IngestID <$> store s !! r) ->
  (forall k, sessions s' !! k = Some r -> sessions s !! k = Some r) ->
  (pending s' !! r = Some true -> pending s !! r = Some true) -> cancelled ingestID s' r.
Proof.
  intros (H1 & H2 & H3) Hst Hs Hp. split; [|split]; auto.
  - by rewrite (onCamera_ingest s s').
  - intros k Hk. by apply (H2 k), Hs.
Qed.

Lemma step_cancelled ingestID w w' r :
  cancelled ingestID (srv w) r -> step w w' -> cancelled ingestID (srv w') r.
Proof.
  intros Hc Hstep. pose proof Hc as (H1 & H2 & H3).
  destruct Hstep as [w rs offer fresh s' Hf E|w rs offer fresh s' e E|w r' Hph|w r' x s' res Hph _ _ E
    |w r' s' res Hph E|w r' Hph|w ing s' ps E|w res s' ps E|w res|w s' ps E|w p Hp]; cbn; try done.
  - unfold Subscribe in E. destruct rs as [ing []]; cbn in E; try done.
    destruct (Peer.Direction offer _) as [|[]]; try done.
    assert (r <> fresh) by (intros ->; unfold onCamera in H1; by rewrite Hf in H1).
    destruct (reserve_cases (srv w) (Config.ID ing) fresh) as [Er|Er]; rewrite Er in E; [done|].
    injection E as <-. apply (cancelled_mono _ (srv w)); cbn; auto; by rewrite lookup_insert_ne.
  - unfold Subscribe in E. destruct rs as [ing []]; cbn in E; try (injection E as <- <-; done).
    destruct (Peer.Direction offer _) as [|[]]; try (injection E as <- <-; done).
    destruct (reserve_cases (srv w) (Config.ID ing) fresh) as [Er|Er]; rewrite Er in E; [|done]. by injection E as <- <-.
  - destruct (prepare_frame _ _ _ _ _ E) as (Es & Ep & Hst). apply (cancelled_mono _ (srv w)); auto; congruence.
  - unfold commit in E. destruct (store (srv w) !! r') as [y|] eqn:Ey; [|by injection E as <- <-].
    destruct (pending (srv w) !! r') as [[]|] eqn:Ep; injection E as <- <-; try (by destruct (peer y)).
    apply (cancelled_mono _ (srv w)); cbn; auto. intros k. destruct (decide (Resource y = k)) as [<-|].
    + rewrite lookup_insert_eq. intros [= ->]. done.
    + by rewrite lookup_insert_ne.
  - apply (cancelled_mono _ (srv w)); cbn; auto. by intros [_ ?]%lookup_delete_Some.
  - unfold CloseIngest in E. injection E as <- <-. apply (cancelled_mono _ (srv w)); cbn; auto.
    + by intros k [? _]%map_lookup_filter_Some.
    + rewrite map_lookup_imap, bind_Some. intros (b & Hb & Hx). destruct (onCamera (srv w) ing r); congruence.
  - unfold Teardown in E. destruct (sessions (srv w) !! res); [|done]. injection E as <- <-.
    apply (cancelled_mono _ (srv w)); cbn; auto. by intros k [_ ?]%lookup_delete_Some.
  - apply (cancelled_mono _ (srv w)); cbn; auto. by intros k [_ ?]%lookup_delete_Some.
  - unfold Close in E. injection E as <- <-. apply (cancelled_mono _ (srv w)); cbn; auto.
    + intros k Hk. by rewrite lookup_empty in Hk.
    + rewrite lookup_fmap. by destruct (pending (srv w) !! r).
Qed.

(** A session keeps its camera. *)
Lemma step_ingest w w' r : step w w' -> is_Some (store (srv w) !! r) ->
  (IngestID <$> store (srv w') !! r) = (IngestID <$> store (srv w) !! r).
Proof.
  intros Hstep [x Hx]. destruct Hstep as [w rs offer fresh s' Hf E|w rs offer fresh s' e E|w r' Hph|w r' x' s' res Hph _ _ E
    |w r' s' res Hph E|w r' Hph|w ing s' ps E|w res s' ps E|w res|w s' ps E|w p Hp]; cbn; try done.
  - unfold Subscribe in E. destruct rs as [ing []]; cbn in E; try done.
    destruct (Peer.Direction offer _) as [|[]]; try done.
    destruct (reserve_cases (srv w) (Config.ID ing) fresh) as [Er|Er]; rewrite Er in E; [done|].
    injection E as <-. cbn. rewrite lookup_insert_ne; [done|]. intros ->. congruence.
  - unfold Subscribe in E. destruct rs as [ing []]; cbn in E; try (injection E as <- <-; done).
    destruct (Peer.Direction offer _) as [|[]]; try (injection E as <- <-; done).
    destruct (reserve_cases (srv w) (Config.ID ing) fresh) as [Er|Er]; rewrite Er in E; [|done]. by injection E as <- <-.
  - by destruct (prepare_frame _ _ _ _ _ E) as (_ & _ & ->).
  - unfold commit in E. destruct (store (srv w) !! r') as [y|]; [|by injection E as <- <-].
    destruct (pending (srv w) !! r') as [[]|]; injection E as <- <-; try done; by destruct (peer y).
  - by injection E as <- <-.
  - unfold Teardown in E. destruct (sessions (srv w) !! res); [|done]. by injection E as <- <-.
  - by injection E as <- <-.
Qed.

Lemma steps_ingest w w' r : rtc step w w' -> is_Some (store (srv w) !! r) ->
  (IngestID <$> store (srv w') !! r) = (IngestID <$> store (srv w) !! r).
Proof.
  induction 1 as [|w1 w2 w3 Hstep _ IH]; intros Hx; [done|]. pose proof (step_ingest _ _ r Hstep Hx) as E.
  rewrite IH; [done|]. apply (fmap_is_Some IngestID). rewrite E. by apply fmap_is_Some.
Qed.

(** A connection of a known session that is closed, or waits to be closed. *)
Definition shut (p : nat) (w : world) : Prop :=
  (p ∈ closing w \/ p ∉ open (srv w))
  /\ exists r session, store (srv w) !! r = Some session /\ peer session = Some p
       /\ phases w !! r <> Some Reserved.

Lemma shut_mono p w w' :
  shut p w -> open (srv w') ⊆ open (srv w) -> closing w ⊆ closing w' ->
  store (srv w') = store (srv w) ->
  (forall r, phases w' !! r = Some Reserved -> phases w !! r = Some Reserved) -> shut p w'.
Proof.
  intros (Hp & r & session & Hr & Hs & Hph) Ho Hc Hst Hphs. split; [set_solver|].
  exists r, session. rewrite Hst. split_and!; auto.
Qed.

Lemma insert_not_reserved {w : world} {r r' : nat} {x} :
  x <> Reserved -> <[r := x]> (phases w) !! r' = Some Reserved -> phases w !! r' = Some Reserved.
Proof. intros Hx. destruct (decide (r = r')) as [<-|]; [rewrite lookup_insert_eq; congruence|by rewrite lookup_insert_ne]. Qed.

(** What a connection being built changes. *)
Lemma prepare_shut s r x s' res :
  prepare s r x = (s', res) ->
  (store s' = store s \/ exists k q, newPeer x = Some q
     /\ store s' = alter (λ session, mkSession (IngestID session) k (Some q)) r (store s))
  /\ forall p, newPeer x <> Some p -> p ∈ open s' -> p ∈ open s.
Proof.
  unfold prepare. destruct (newPeer x) as [q|]; [|intros [= <- <-]; auto].
  assert (Hclose : forall p, Some q <> Some p -> p ∈ open (closePeer (s <| open := {[q]} ∪ open s |>) q) -> p ∈ open s).
  { intros p Hne. cbn. set_solver. }
  destruct (negb _); [intros [= <- <-]; auto|]. destruct (Peer.Answer _); [intros [= <- <-]; auto|].
  destruct (resourceKey x) as [k|]; intros [= <- <-]; [|auto].
  split; [right; eauto|]. intros p Hne. cbn. set_solver.
Qed.

Lemma step_shut p w w' : shut p w -> step w w' -> shut p w'.
Proof.
  intros Hc Hstep. destruct Hstep as [w rs offer fresh s' Hf E|w rs offer fresh s' e E|w r' Hph|w r' x s' res Hph Hnew _ E
    |w r' s' res Hph E|w r' Hph|w ing s' ps E|w res s' ps E|w res|w s' ps E|w q Hq].
  - pose proof Hc as (Hp & r & session & Hr & Hs & Hphr). unfold Subscribe in E.
    destruct rs as [ing []]; cbn in E; try done. destruct (Peer.Direction offer _) as [|[]]; try done.
    destruct (reserve_cases (srv w) (Config.ID ing) fresh) as [Er|Er]; rewrite Er in E; [done|].
    injection E as <-. split; [exact Hp|]. exists r, session. cbn.
    rewrite !lookup_insert_ne by congruence. done.
  - assert (s' = srv w) as ->; [|apply (shut_mono p w); done].
    unfold Subscribe in E. destruct rs as [ing []]; cbn in E; try (by injection E as <- <-).
    destruct (Peer.Direction offer _) as [|[]]; try (by injection E as <- <-).
    destruct (reserve_cases (srv w) (Config.ID ing) fresh) as [Er|Er]; rewrite Er in E; [|done]. by injection E as <- <-.
  - apply (shut_mono p w); try done. intros r. by apply insert_not_reserved.
  - destruct (prepare_shut _ _ _ _ _ E) as (Hst & Hop). pose proof Hc as (Hp & r & session & Hr & Hs & Hphr).
    assert (Hne : newPeer x <> Some p) by (intros Hn; by apply (proj2 (Hnew p Hn) r session)).
    assert (r <> r') by congruence. split; [destruct Hp as [|Hp]; [by left|right; by intros ?%Hop]|].
    exists r, session. cbn. rewrite lookup_insert_ne by congruence. split_and!; auto.
    destruct Hst as [->|(k & q & _ & ->)]; [done|by rewrite lookup_alter_ne].
  - assert (Hs' : store s' = store (srv w) /\ open s' ⊆ open (srv w)).
    { unfold commit in E. destruct (store (srv w) !! r') as [y|]; [|by injection E as <- <-].
      destruct (pending (srv w) !! r') as [[]|]; injection E as <- <-; try done; destruct (peer y); cbn; set_solver. }
    destruct Hs'. apply (shut_mono p w); try done. intros r. by apply insert_not_reserved.
  - apply (shut_mono p w); try done. cbn. by intros r [_ ?]%lookup_delete_Some.
  - injection E as <- <-. apply (shut_mono p w); try done. cbn. set_solver.
  - unfold Teardown in E. destruct (sessions (srv w) !! res); [|done]. injection E as <- <-.
    apply (shut_mono p w); try done. cbn. set_solver.
  - by apply (shut_mono p w).
  - injection E as <- <-. apply (shut_mono p w); try done. cbn. set_solver.
  - pose proof Hc as (Hp & Hrest). split; [|exact Hrest]. cbn.
    destruct (decide (p = q)) as [->|]; [right; set_solver|]. destruct Hp; [left|right]; set_solver.
Qed.

(** ** Claims *)

(** C28: however subscriptions, closings and failures interleave, no more than 64
    subscribers are attached, and no more than eight to one camera; a subscription
    being negotiated holds its place from the reservation on. *)
Theorem subscriber_capacity w :
  reach w ->
  (size (sessions (srv w)) <= 64)%nat /\ (size (occupied (srv w)) <= 64)%nat
  /\ forall ingestID, (size (filter (λ '(_, r), onCamera (srv w) ingestID r = true) (sessions (srv w))) <= 8)%nat
       /\ (size (occupiedOn (srv w) ingestID) <= 8)%nat.
Proof.
  intros Hr. destruct (reach_inv w Hr) as [H1 _ _ _ _ [H6 H7] _]. unfold maxSubscribers, maxSubscribersPerIngest in *.
  assert (Hinj : forall m : gmap string nat, (forall k r, m !! k = Some r -> sessions (srv w) !! k = Some r) ->
            size m = size (list_to_set ((map_to_list m).*2) : gset nat)).
  { intros m Hm. rewrite size_list_to_set, length_fmap; [by rewrite length_map_to_list|].
    apply (NoDup_fmap_2_strong snd); [|apply NoDup_map_to_list].
    intros [k r] [k' r'] Hk Hk'. cbn. intros ->. apply elem_of_map_to_list, Hm in Hk. apply elem_of_map_to_list, Hm in Hk'.
    destruct (H1 _ _ Hk) as (x & Hx & <- & _), (H1 _ _ Hk') as (y & Hy & <- & _). congruence. }
  split_and!; [|done|].
  - rewrite (Hinj (sessions (srv w))) by done. etrans; [|exact H6]. apply subseteq_size. unfold occupied. set_solver.
  - intros ing. split; [|apply H7]. etrans; [|exact (H7 ing)]. rewrite Hinj by (intros k r Hk; by apply map_lookup_filter_Some in Hk as [? _]).
    apply subseteq_size. intros r. rewrite elem_of_list_to_set, list_elem_of_fmap. intros ([k r'] & -> & Hk).
    apply elem_of_map_to_list, map_lookup_filter_Some in Hk as [Hk Hcam]. apply elem_of_filter. split; [done|].
    apply elem_of_occupied. eauto.
Qed.

(** C10: closing a camera ends every subscription to it, those still being
    negotiated included.  [CloseIngest] returns the connection of each session of
    the camera that it found in the table, to be closed, and from then on, whatever
    happens next, that connection is closed or still waits to be closed; and a
    session of that camera in the table was reserved after the closing. *)
Theorem closed_camera_keeps_no_subscriber w ingestID s' ps w' :
  reach w -> CloseIngest (srv w) ingestID = (s', ps) ->
  rtc step (w <| srv := s' |> <| closing := list_to_set ps ∪ closing w |>) w' ->
  (forall k r, sessions (srv w') !! k = Some r -> onCamera (srv w') ingestID r = true -> store (srv w) !! r = None)
  /\ (forall k r, sessions (srv w) !! k = Some r -> onCamera (srv w) ingestID r = true ->
      exists session p, store (srv w) !! r = Some session /\ peer session = Some p /\ p ∈ ps
        /\ (p ∈ closing w' \/ p ∉ open (srv w'))).
Proof.
  intros Hr Hc Hrun. set (w1 := w <| srv := s' |> <| closing := list_to_set ps ∪ closing w |>) in *.
  assert (Est : store (srv w1) = store (srv w)) by (by unfold CloseIngest in Hc; injection Hc as <- <-).
  split; intros k r Hk Hcam.
  - destruct (store (srv w) !! r) as [x|] eqn:Ex; [exfalso|done].
    assert (Hcam1 : onCamera (srv w) ingestID r = true).
    { rewrite <-Hcam. symmetry. apply onCamera_ingest. rewrite <-Est. apply steps_ingest; [done|]. rewrite Est. eauto. }
    assert (Hcan : cancelled ingestID (srv w1) r).
    { unfold CloseIngest in Hc. injection Hc as <- <-. split; [exact Hcam1|]. split; cbn.
      - intros k' [_ Hx]%map_lookup_filter_Some. congruence.
      - rewrite map_lookup_imap, Hcam1. by destruct (pending (srv w) !! r). }
    assert (Hend : cancelled ingestID (srv w') r).
    { clear - Hrun Hcan. clearbody w1. induction Hrun; eauto using step_cancelled. }
    destruct Hend as (_ & Hnot & _). by apply (Hnot k).
  - destruct (i_table w (reach_inv w Hr) _ _ Hk) as (session & Hs & _ & [p Hp] & Hph).
    exists session, p. assert (Hin : p ∈ ps).
    { unfold CloseIngest in Hc. injection Hc as <- <-. unfold peersOf. apply list_elem_of_bind. exists r. split.
      - rewrite Hs. cbn. rewrite Hp. cbn. apply list_elem_of_here.
      - apply list_elem_of_fmap. exists (k, r). split; [done|]. apply elem_of_map_to_list, map_lookup_filter_Some. done. }
    split_and!; auto. assert (Hsh : shut p w1).
    { split; [left; cbn; set_solver|]. exists r, session. by rewrite Est. }
    clear - Hrun Hsh. clearbody w1. induction Hrun; [apply Hsh|eauto using step_shut].
Qed.

(** No connection is lost sight of.  Every connection that is still open
    belongs to a session in the table, to a subscription that is being negotiated,
    to a closing under way, or to a subscriber whose connection failed; so when no
    closing or negotiation is under way and none has failed, the open connections
    are those in the table. *)
Theorem connections_accounted w p :
  reach w -> p ∈ open (srv w) ->
  p ∈ closing w \/ p ∈ dropped w
  \/ exists r session, store (srv w) !! r = Some session /\ peer session = Some p
       /\ (phases w !! r = Some Prepared \/ exists k, sessions (srv w) !! k = Some r).
Proof. intros Hr. apply (i_open w (reach_inv w Hr)). Qed.

(** ** A run: a subscriber attaches, the camera is closed, another one attaches *)
Definition demoIngest : Config.Ingest := Config.mkIngest DynamicDelay.zeroOptions "cam" "Cam" "s" "r" [] 0 "".

Definition demoAnswers (p : nat) (resource : string) : answers :=
  mkAnswers (Some p) [true] (Peer.mkExchange true true true true "answer") (Some resource).

Definition subscribed (w : world) (r : nat) : world :=
  w <| srv := (Subscribe (srv w) (demoIngest, Config.RoleReceiver) (Some [["recvonly"]]) r).1 |>
    <| phases := <[r := Reserved]> (phases w) |>.

Definition prepared (w : world) (r p : nat) (resource : string) : world :=
  w <| srv := (prepare (srv w) r (demoAnswers p resource)).1 |> <| phases := <[r := Prepared]> (phases w) |>.

Definition committed (w : world) (r : nat) : world :=
  w <| srv := (commit (srv w) r).1 |> <| phases := <[r := Leaving]> (phases w) |>.

Definition released (w : world) (r : nat) : world :=
  w <| srv := releaseReservation (srv w) r |> <| phases := delete r (phases w) |>.

Definition cameraClosed (w : world) : world :=
  w <| srv := (CloseIngest (srv w) "cam").1 |> <| closing := list_to_set (CloseIngest (srv w) "cam").2 ∪ closing w |>.

Definition demoPrepared : world := prepared (subscribed start 0) 0 7 "res".
Definition demoAttached : world := released (committed demoPrepared 0) 0.
Definition demoClosed : world := cameraClosed demoAttached.
Definition demoBack : world := committed (prepared (subscribed demoClosed 1) 1 8 "res2") 1.

Lemma prepared_step w r p resource :
  phases w !! r = Some Reserved ->
  forallb (λ x : nat * Session, negb (bool_decide (peer x.2 = Some p)) && negb (String.eqb (Resource x.2) resource))
    (map_to_list (store (srv w))) = true ->
  bool_decide (p ∈ open (srv w)) = false ->
  (exists a, (prepare (srv w) r (demoAnswers p resource)).2 = inr a) ->
  step w (prepared w r p resource).
Proof.
  intros Hph Hall Hop [a Ha]. rewrite forallb_forall in Hall.
  assert (Hx : forall r' x, store (srv w) !! r' = Some x -> peer x <> Some p /\ Resource x <> resource).
  { intros r' x Hx. specialize (Hall (r', x)). cbn in Hall.
    assert (Hin : In (r', x) (map_to_list (store (srv w)))) by (by apply list_elem_of_In, elem_of_map_to_list).
    apply Hall, andb_true_iff in Hin as [H1 H2]. apply negb_true_iff in H1, H2.
    apply bool_decide_eq_false in H1. by apply String.eqb_neq in H2. }
  destruct (prepare (srv w) r (demoAnswers p resource)) as [s' res] eqn:E. cbn in Ha. subst res.
  unfold prepared. rewrite E. apply (W_prepare w r (demoAnswers p resource) s' (inr a)); [done| | |done].
  - intros q [= <-]. split; [by apply bool_decide_eq_false in Hop|]. intros r' x ?. by apply (Hx r').
  - intros k [= <-] r' x ?. by apply (Hx r').
Qed.

Lemma demoPrepared_reach : reach demoPrepared.
Proof.
  eapply rtc_l; [apply (W_subscribe start (demoIngest, Config.RoleReceiver) (Some [["recvonly"]]) 0 (srv (subscribed start 0))); reflexivity|].
  eapply rtc_l; [|apply rtc_refl]. apply prepared_step; [reflexivity..|by eexists].
Qed.

Lemma demoAttached_reach : reach demoAttached.
Proof.
  eapply rtc_r; [|by apply (W_release _ 0)]. eapply rtc_r; [exact demoPrepared_reach|].
  apply (W_commit demoPrepared 0 (commit (srv demoPrepared) 0).1 (commit (srv demoPrepared) 0).2); [reflexivity|].
  apply surjective_pairing.
Qed.

Lemma demoBack_steps : rtc step demoClosed demoBack.
Proof.
  eapply rtc_l; [apply (W_subscribe demoClosed (demoIngest, Config.RoleReceiver) (Some [["recvonly"]]) 1 (srv (subscribed demoClosed 1))); reflexivity|].
  eapply rtc_l; [apply (prepared_step _ 1 8 "res2"); [reflexivity..|by eexists]|].
  eapply rtc_l; [|apply rtc_refl].
  set (w := prepared (subscribed demoClosed 1) 1 8 "res2").
  apply (W_commit w 1 (commit (srv w) 1).1 (commit (srv w) 1).2); [reflexivity|apply surjective_pairing].
Qed.

(** A subscriber whose connection fails is taken out of the table and its
    connection is not closed. *)
Lemma failed_connection_stays_open :
  exists w, reach w /\ phases w = ∅ /\ closing w = ∅ /\ sessions (srv w) = ∅ /\ 7%nat ∈ open (srv w).
Proof.
  eexists. split; [eapply rtc_r; [exact demoAttached_reach|apply (W_failed _ "res")]|].
  split_and!; reflexivity.
Qed.

(** ** Witnesses *)
Lemma subscriber_capacity_witness :
  size (sessions (srv demoAttached)) = 1%nat /\ (size (sessions (srv demoAttached)) <= 64)%nat.
Proof. split; [reflexivity|]. exact (proj1 (subscriber_capacity demoAttached demoAttached_reach)). Defined.

Lemma closed_camera_keeps_no_subscriber_witness :
  sessions (srv demoAttached) !! "res" = Some 0%nat /\ sessions (srv demoClosed) !! "res" = None
  /\ store (srv demoAttached) !! 1%nat = None
  /\ exists session p, store (srv demoAttached) !! 0%nat = Some session /\ peer session = Some p
       /\ p ∈ (CloseIngest (srv demoAttached) "cam").2 /\ (p ∈ closing demoBack \/ p ∉ open (srv demoBack)).
Proof.
  split; [reflexivity|]. split; [reflexivity|].
  destruct (closed_camera_keeps_no_subscriber demoAttached "cam" (CloseIngest (srv demoAttached) "cam").1
    (CloseIngest (srv demoAttached) "cam").2 demoBack demoAttached_reach) as [Hnone Hclosed].
  - apply surjective_pairing.
  - exact demoBack_steps.
  - split; [apply (Hnone "res2"); reflexivity|]. apply (Hclosed "res"); reflexivity.
Defined.

Lemma connections_accounted_witness :
  7%nat ∈ closing demoPrepared \/ 7%nat ∈ dropped demoPrepared
  \/ exists r session, store (srv demoPrepared) !! r = Some session /\ peer session = Some 7%nat
       /\ (phases demoPrepared !! r = Some Prepared \/ exists k, sessions (srv demoPrepared) !! k = Some r).
Proof.
  apply (connections_accounted demoPrepared 7 demoPrepared_reach).
  apply (bool_decide_eq_true_1 _). vm_compute. reflexivity.
Defined.

End Whep.
