(* ===== verification/Whip.v ===== *)
(** * Publishers ([src/internal/ingest/whip.go])

    One camera has at most one publisher.  A [*Session] is an address in [store].
    Goroutines (the handlers of requests, the callbacks of connections) run one
    critical section, or one call outside the lock, at a time: a goroutine is the
    list of actions it still has to take, [exec] takes the first, and [step]
    interleaves goroutines in any order.

    [sync.Once] in [stopSession]: the first caller runs the body, any other waits
    until it has returned.  The relay and the statistics are seen through what
    this component tells them: [relayed] has the session whose stream the relay
    holds for a camera, [shown] the session the statistics show as live.

    Connections, their answers and resource identifiers come from outside.  A
    resource identifier is 128 random bits: [step] takes it to be unused. *)

From S2P Require Import Prelude.
From S2P Require Import DynamicDelay.
From S2P Require Import Config.
From S2P Require Import Peer.

Module Whip.

Inductive error :=
  | ErrBuildAPI | ErrUnknownKey | ErrWrongRole | ErrNotSending | ErrBadOffer | ErrAlreadyLive | ErrNoSession
  | ErrMintResource | ErrNegotiate (e : Peer.error).

(** The body of [stopOnce.Do] after its first lock, call by call. *)
Inductive stage := SStats | SDrop | SCallback | SForget | SFinish.

(** [sync.Once]: not called yet, its body under way (with what it does next), over. *)
Inductive once := Idle | Running (next : stage) | Done.

Record Session := mkSession { Resource : string; IngestID : string; peer : nat; stopOnce : once; ended : bool }.

Record Server := mkServer {
  store : gmap nat Session;
  sessions : gmap string nat;
  byIngest : gmap string string;
  pending : gset string;
  closed : bool;
  open : gset nat;               (* the connections not yet closed *)
  relayed : gmap string nat;     (* whose stream the relay holds *)
  shown : gmap string nat        (* whom the statistics show as live *)
}.

#[export] Instance eta_server : Eta Server := fun s =>
  mkServer (store s) (sessions s) (byIngest s) (pending s) (closed s) (open s) (relayed s) (shown s).

Definition NewServer : Server := mkServer ∅ ∅ ∅ ∅ false ∅ ∅ ∅.

Definition currentLocked (s : Server) (r : nat) : bool :=
  match store s !! r with
  | None => false
  | Some x =>
      negb (ended x) && bool_decide (byIngest s !! IngestID x = Some (Resource x))
      && bool_decide (sessions s !! Resource x = Some r)
  end.

Definition closePeer (s : Server) (p : nat) : Server := s <| open := open s ∖ {[p]} |>.

Definition forget (s : Server) (resource : string) : Server :=
  match sessions s !! resource with
  | None => s
  | Some r =>
      let s :=
        match store s !! r with
        | Some x => if bool_decide (byIngest s !! IngestID x = Some resource)
                    then s <| byIngest := delete (IngestID x) (byIngest s) |> else s
        | None => s
        end in
      s <| sessions := delete resource (sessions s) |>
  end.

(** ** Goroutines *)

Inductive action :=
  (* [negotiate], for a camera *)
  | Negotiate (ing : string)
  | Clear (ing : string)
  | TearPrev (ing resource : string)
  | StopPrev (ing : string) (r : nat)
  | ClosePrev (ing : string) (r : nat)
  | Build (ing : string)
  | Install (ing : string) (p : nat)
  | Answer (ing : string) (r : nat)
  | StopFailed (ing : string) (r : nat)
  | DiscardFailed (ing : string) (r : nat)
  | CheckCurrent (ing : string) (r : nat)
  | Release (ing : string)
  (* [Teardown] *)
  | TearDown (resource : string)
  | Stop (r : nat)
  | ClosePeer (r : nat)
  (* inside [stopOnce.Do] *)
  | Cleanup (r : nat).

(** What the outside answers to an action: the state of a connection, the
    building of a new one (API, transceivers and the drawing of its resource
    included), the SDP exchange, an address for a new session and the resource it
    drew. *)
Record answers := mkAnswers {
  connected : bool; built : error + nat; exchange : Peer.exchange; fresh : nat; minted : string
}.

Definition setOnce (x : Session) (o : once) (e : bool) : Session :=
  mkSession (Resource x) (IngestID x) (peer x) o e.

(** A call of [stopSession]: [again] is the call itself, [next] what follows it. *)
Definition stopSession (s : Server) (r : nat) (again : action) (next : list action)
  : option (Server * list action) :=
  x ← store s !! r;
  match stopOnce x with
  | Idle =>
      let owned := currentLocked s r in
      Some (s <| store := <[r := setOnce x (Running (if owned then SStats else SForget)) true]> (store s) |>,
            [Cleanup r; again])
  | Running _ => None
  | Done => Some (s, next)
  end.

Definition cleanup (s : Server) (r : nat) : option (Server * list action) :=
  x ← store s !! r;
  let next (s : Server) (o : once) := s <| store := <[r := setOnce x o (ended x)]> (store s) |> in
  match stopOnce x with
  | Running SStats => Some (next (s <| shown := delete (IngestID x) (shown s) |>) (Running SDrop), [Cleanup r])
  | Running SDrop => Some (next (s <| relayed := delete (IngestID x) (relayed s) |>) (Running SCallback), [Cleanup r])
  | Running SCallback => Some (next s (Running SForget), [Cleanup r])
  | Running SForget => Some (next (forget s (Resource x)) (Running SFinish), [Cleanup r])
  | Running SFinish => Some (next s Done, [])
  | Idle | Done => None
  end.

(** [Teardown] once it has looked the resource up. *)
Definition Teardown (s : Server) (resource : string) : error + list action :=
  match sessions s !! resource with
  | None => inl ErrNoSession
  | Some r => inr [Stop r; ClosePeer r]
  end.

Definition clearPrevious (s : Server) (ing : string) (e : answers) : error + list action :=
  match byIngest s !! ing with
  | None => inr [Build ing]
  | Some resource =>
      match sessions s !! resource with
      | None => inr [Build ing]
      | Some r =>
          let stopping := match store s !! r with Some x => ended x | None => false end in
          if negb stopping && connected e then inl ErrAlreadyLive else inr [TearPrev ing resource]
      end
  end.

(** The session is installed and watched. *)
Definition install (s : Server) (ing : string) (p : nat) (resource : string) (r : nat) : Server :=
  s <| store := <[r := mkSession resource ing p Idle false]> (store s) |>
    <| sessions := <[resource := r]> (sessions s) |> <| byIngest := <[ing := resource]> (byIngest s) |>.

(** The first action of a goroutine: the new state, and the actions that take its
    place.  [None]: the goroutine waits. *)
Definition exec (s : Server) (a : action) (e : answers) : option (Server * list action) :=
  match a with
  | Negotiate ing =>
      if closed s || bool_decide (ing ∈ pending s) then Some (s, [])
      else Some (s <| pending := {[ing]} ∪ pending s |>, [Clear ing])
  | Clear ing =>
      match clearPrevious s ing e with
      | inl _ => Some (s, [Release ing])
      | inr next => Some (s, next)
      end
  | TearPrev ing resource =>
      match sessions s !! resource with
      | None => Some (s, [Build ing])
      | Some r => Some (s, [StopPrev ing r])
      end
  | StopPrev ing r => stopSession s r (StopPrev ing r) [ClosePrev ing r]
  | ClosePrev ing r => x ← store s !! r; Some (closePeer s (peer x), [Build ing])
  | Build ing =>
      match built e with
      | inl _ => Some (s, [Release ing])
      | inr p => Some (s <| open := {[p]} ∪ open s |>, [Install ing p])
      end
  | Install ing p =>
      if closed s then Some (closePeer s p, [Release ing])
      else Some (install s ing p (minted e) (fresh e), [Answer ing (fresh e)])
  | Answer ing r =>
      match Peer.Answer (exchange e) with
      | inl _ => Some (s, [StopFailed ing r])
      | inr _ => Some (s, [CheckCurrent ing r])
      end
  | StopFailed ing r => stopSession s r (StopFailed ing r) [DiscardFailed ing r]
  | DiscardFailed ing r => x ← store s !! r; Some (closePeer s (peer x), [Release ing])
  | CheckCurrent ing r =>
      if currentLocked s r then Some (s, [Release ing])
      else x ← store s !! r; Some (closePeer s (peer x), [Release ing])
  | Release ing => Some (s <| pending := pending s ∖ {[ing]} |>, [])
  | TearDown resource => Some (s, match Teardown s resource with inr next => next | inl _ => [] end)
  | Stop r => stopSession s r (Stop r) []
  | ClosePeer r => x ← store s !! r; Some (closePeer s (peer x), [])
  | Cleanup r => cleanup s r
  end.

(** [Publish] up to [negotiate].  [resolved] is what [Config.Resolve] made of the
    key. *)
Definition Publish (resolved : Config.Ingest * Config.Role) (offer : option (list (list string)))
  : error + list action :=
  match resolved.2 with
  | Config.RoleNone => inl ErrUnknownKey
  | Config.RoleReceiver => inl ErrWrongRole
  | Config.RoleSender =>
      match Peer.Direction offer "sendonly" with
      | inl _ => inl ErrBadOffer
      | inr false => inl ErrNotSending
      | inr true => inr [Negotiate (Config.ID resolved.1)]
      end
  end.

Definition CloseIngest (s : Server) (ingestID : string) : list action :=
  match byIngest s !! ingestID with
  | None => []
  | Some resource => [TearDown resource]
  end.

(** [Close]; [order] is the order of the map iteration. *)
Definition Close (s : Server) (order : list nat) : Server * list action :=
  (s <| closed := true |>, order ≫= (λ r, [Stop r; ClosePeer r])).

(** ** Callbacks of a connection *)
Inductive connectionState := Connected | Failed | Closed | OtherState.

(** [OnConnectionStateChange]: the state, and what the callback goes on to do. *)
Definition onStateChange (s : Server) (r : nat) (st : connectionState) : Server * list action :=
  match st with
  | Connected =>
      (match store s !! r with
       | Some x => if currentLocked s r then s <| shown := <[IngestID x := r]> (shown s) |> else s
       | None => s
       end, [])
  | Failed | Closed => (s, [Stop r])
  | OtherState => (s, [])
  end.

(** The section of [drain] that publishes the track. *)
Definition drain (s : Server) (r : nat) : Server :=
  match store s !! r with
  | Some x => if currentLocked s r then s <| relayed := <[IngestID x := r]> (relayed s) |> else s
  | None => s
  end.

(** ** Interleaving *)
Record world := mkWorld { srv : Server; threads : gmap nat (list action) }.

#[export] Instance eta_world : Eta world := fun w => mkWorld (srv w) (threads w).

Definition start : world := mkWorld NewServer ∅.

(** A goroutine goes on, or is over. *)
Inductive progress : world -> world -> Prop :=
| P_exec w t a rest e s' next :
    threads w !! t = Some (a :: rest) ->
    (forall ing p, a = Install ing p ->
       store (srv w) !! fresh e = None
       /\ forall r x, store (srv w) !! r = Some x -> Resource x <> minted e) ->
    exec (srv w) a e = Some (s', next) ->
    progress w (w <| srv := s' |> <| threads := <[t := next ++ rest]> (threads w) |>)
| P_end w t : threads w !! t = Some [] -> progress w (w <| threads := delete t (threads w) |>).

(** A request or a callback starts a goroutine. *)
Inductive step : world -> world -> Prop :=
| T_publish w t resolved offer acts :
    threads w !! t = None -> Publish resolved offer = inr acts ->
    step w (w <| threads := <[t := acts]> (threads w) |>)
| T_closeIngest w t ing :
    threads w !! t = None -> step w (w <| threads := <[t := CloseIngest (srv w) ing]> (threads w) |>)
| T_teardown w t resource :
    threads w !! t = None -> step w (w <| threads := <[t := [TearDown resource]]> (threads w) |>)
| T_close w t order s' acts :
    threads w !! t = None -> (forall r, r ∈ order <-> exists k, sessions (srv w) !! k = Some r) ->
    Close (srv w) order = (s', acts) -> step w (w <| srv := s' |> <| threads := <[t := acts]> (threads w) |>)
| T_callback w t r st s' acts :
    threads w !! t = None -> is_Some (store (srv w) !! r) -> onStateChange (srv w) r st = (s', acts) ->
    step w (w <| srv := s' |> <| threads := <[t := acts]> (threads w) |>)
| T_drain w r : step w (w <| srv := drain (srv w) r |>)
| T_progress w w' : progress w w' -> step w w'.

Abbreviation reach := (rtc step start).


(** ** The tables of the server *)

(** A session has its place in the tables until [forget]. *)
Definition holding (o : once) : bool := match o with Running SFinish | Done => false | _ => true end.

(** The relay may still have its stream, the statistics may still show it. *)
Definition streaming (o : once) : bool := match o with Idle | Running SStats | Running SDrop => true | _ => false end.
Definition visible (o : once) : bool := match o with Idle | Running SStats => true | _ => false end.
Definition idle (o : once) : bool := match o with Idle => true | _ => false end.

Record ok (s : Server) : Prop := {
  o_sessions : forall k r, sessions s !! k = Some r ->
    exists x, store s !! r = Some x /\ Resource x = k /\ holding (stopOnce x) = true
      /\ byIngest s !! IngestID x = Some k;
  o_byIngest : forall ing k, byIngest s !! ing = Some k ->
    exists r x, sessions s !! k = Some r /\ store s !! r = Some x /\ IngestID x = ing;
  o_resource : forall r r' x x', store s !! r = Some x -> store s !! r' = Some x' -> Resource x = Resource x' -> r = r';
  o_holding : forall r x, store s !! r = Some x ->
    ended x = negb (idle (stopOnce x)) /\ (holding (stopOnce x) = true -> sessions s !! Resource x = Some r);
  o_relayed : forall ing r, relayed s !! ing = Some r ->
    exists x, store s !! r = Some x /\ IngestID x = ing /\ streaming (stopOnce x) = true;
  o_shown : forall ing r, shown s !! ing = Some r ->
    exists x, store s !! r = Some x /\ IngestID x = ing /\ visible (stopOnce x) = true
}.

Lemma ok_same s s' :
  ok s -> store s' = store s -> sessions s' = sessions s -> byIngest s' = byIngest s ->
  relayed s' = relayed s -> shown s' = shown s -> ok s'.
Proof. intros [H1 H2 H3 H4 H5 H6] E1 E2 E3 E4 E5. split; rewrite ?E1, ?E2, ?E3, ?E4, ?E5; auto. Qed.

Lemma ok_owner s r x : ok s -> store s !! r = Some x -> holding (stopOnce x) = true ->
  sessions s !! Resource x = Some r /\ byIngest s !! IngestID x = Some (Resource x).
Proof.
  intros H Hx Hh. pose proof (proj2 (o_holding s H r x Hx) Hh) as Hs. split; [done|].
  destruct (o_sessions s H _ _ Hs) as (y & Hy & _ & _ & Hb). by assert (y = x) as -> by congruence.
Qed.

(** A session that has not been stopped is current, and conversely. *)
Lemma currentLocked_iff s r x : ok s -> store s !! r = Some x -> currentLocked s r = idle (stopOnce x).
Proof.
  intros H Hx. unfold currentLocked. rewrite Hx. destruct (o_holding s H r x Hx) as [-> _].
  destruct (stopOnce x) eqn:Eo; cbn; try done.
  destruct (ok_owner s r x H Hx) as [-> ->]; [by rewrite Eo|]. by rewrite !bool_decide_true.
Qed.

(** Moving one session on, its place in the tables kept. *)
Lemma ok_update s r x o e re sh :
  ok s -> store s !! r = Some x -> e = negb (idle o) -> holding o = holding (stopOnce x) ->
  (forall ing r', re !! ing = Some r' -> relayed s !! ing = Some r' /\ (r' = r -> streaming o = true)) ->
  (forall ing r', sh !! ing = Some r' -> shown s !! ing = Some r' /\ (r' = r -> visible o = true)) ->
  ok (s <| shown := sh |> <| relayed := re |> <| store := <[r := setOnce x o e]> (store s) |>).
Proof.
  intros [H1 H2 H3 H4 H5 H6] Hx He Hh Hre Hsh.
  assert (Hst : forall r' y, store s !! r' = Some y -> exists y', <[r := setOnce x o e]> (store s) !! r' = Some y'
            /\ Resource y' = Resource y /\ IngestID y' = IngestID y /\ (r' <> r -> stopOnce y' = stopOnce y)
            /\ (r' = r -> y' = setOnce x o e)).
  { intros r' y Hy. destruct (decide (r' = r)) as [->|].
    - rewrite lookup_insert_eq. assert (y = x) as -> by congruence. by eexists.
    - rewrite lookup_insert_ne by done. by exists y. }
  assert (Hback : forall r' y', <[r := setOnce x o e]> (store s) !! r' = Some y' ->
            exists y, store s !! r' = Some y /\ Resource y' = Resource y).
  { intros r' y'. destruct (decide (r' = r)) as [->|].
    - rewrite lookup_insert_eq. intros [= <-]. by exists x.
    - rewrite lookup_insert_ne by done. eauto. }
  split; cbn.
  - intros k r' Hk. destruct (H1 k r' Hk) as (y & Hy & Hr & Hho & Hb). destruct (Hst r' y Hy) as (y' & Hy' & Er & Ei & Eo & Es).
    exists y'. rewrite Er, Ei. split_and!; auto. destruct (decide (r' = r)) as [->|]; [|by rewrite Eo].
    rewrite Es by done. cbn. rewrite Hh. by assert (y = x) as <- by congruence.
  - intros ing k Hk. destruct (H2 ing k Hk) as (r' & y & Hs & Hy & Hi). destruct (Hst r' y Hy) as (y' & Hy' & Er & Ei & _).
    exists r', y'. by rewrite Ei.
  - intros r1 r2 y1 y2 Hy1 Hy2 Er. destruct (Hback _ _ Hy1) as (z1 & Hz1 & E1), (Hback _ _ Hy2) as (z2 & Hz2 & E2).
    apply (H3 r1 r2 z1 z2 Hz1 Hz2). congruence.
  - intros r' y'. destruct (decide (r' = r)) as [->|].
    + rewrite lookup_insert_eq. intros [= <-]. cbn. rewrite Hh. split; [done|]. by apply H4.
    + rewrite lookup_insert_ne by done. apply H4.
  - intros ing r' Hr'. destruct (Hre _ _ Hr') as [Hr Hs]. destruct (H5 _ _ Hr) as (y & Hy & Hi & Hstr).
    destruct (Hst r' y Hy) as (y' & Hy' & _ & Ei & Eo & Es). exists y'. rewrite Ei. split_and!; auto.
    destruct (decide (r' = r)) as [->|]; [rewrite Es by done; auto|by rewrite Eo].
  - intros ing r' Hr'. destruct (Hsh _ _ Hr') as [Hr Hs]. destruct (H6 _ _ Hr) as (y & Hy & Hi & Hstr).
    destruct (Hst r' y Hy) as (y' & Hy' & _ & Ei & Eo & Es). exists y'. rewrite Ei. split_and!; auto.
    destruct (decide (r' = r)) as [->|]; [rewrite Es by done; auto|by rewrite Eo].
Qed.

(** [forget] gives the place in the tables up. *)
Lemma forget_owned s r x : ok s -> store s !! r = Some x -> holding (stopOnce x) = true ->
  forget s (Resource x) =
    s <| byIngest := delete (IngestID x) (byIngest s) |> <| sessions := delete (Resource x) (sessions s) |>.
Proof.
  intros H Hx Hh. destruct (ok_owner s r x H Hx Hh) as [Hs Hb]. unfold forget. rewrite Hs, Hx. by rewrite bool_decide_true.
Qed.

Lemma ok_forget s r x o :
  ok s -> store s !! r = Some x -> holding (stopOnce x) = true -> streaming (stopOnce x) = false ->
  visible (stopOnce x) = false -> holding o = false ->
  ok ((forget s (Resource x)) <| store := <[r := setOnce x o true]> (store s) |>).
Proof.
  intros H Hx Hh Hns Hnv Ho. rewrite (forget_owned s r x) by done. destruct (ok_owner s r x H Hx Hh) as [Hs Hb].
  destruct H as [H1 H2 H3 H4 H5 H6].
  assert (Hother : forall k r', delete (Resource x) (sessions s) !! k = Some r' -> r' <> r /\ sessions s !! k = Some r').
  { intros k r' [Hk Hr]%lookup_delete_Some. split; [|done]. intros ->. destruct (H1 k r Hr) as (y & Hy & E & _). congruence. }
  split; cbn.
  - intros k r' Hk. destruct (Hother k r' Hk) as [Hne Hr]. destruct (H1 k r' Hr) as (y & Hy & E & Hho & Hby).
    exists y. rewrite lookup_insert_ne by done. split_and!; auto. rewrite lookup_delete_ne; [done|].
    intros Ei. rewrite <-Ei, Hb in Hby. injection Hby as Ek. rewrite <-Ek, Hs in Hr. congruence.
  - intros ing k [Hi Hk]%lookup_delete_Some. destruct (H2 ing k Hk) as (r' & y & Hs' & Hy & E).
    assert (r <> r') by (intros ->; congruence). exists r', y. rewrite lookup_insert_ne by done. split_and!; auto.
    rewrite lookup_delete_ne; [done|]. intros Ek. rewrite <-Ek, Hs in Hs'. congruence.
  - intros r1 r2 y1 y2. destruct (decide (r = r1)) as [<-|], (decide (r = r2)) as [<-|];
      rewrite ?lookup_insert_eq, ?lookup_insert_ne by done; try done; intros E1 E2; try injection E1 as <-;
      try injection E2 as <-; cbn; eauto.
  - intros r' y. destruct (decide (r = r')) as [<-|]; [rewrite lookup_insert_eq|rewrite lookup_insert_ne by done].
    + intros [= <-]. cbn. rewrite Ho. split; [by destruct o|done].
    + intros Hy. split; [by apply (H4 r')|]. intros Hho. rewrite lookup_delete_ne; [by apply (H4 r')|].
      intros E. pose proof (proj2 (H4 r' y Hy) Hho) as Hs'. rewrite <-E, Hs in Hs'. congruence.
  - intros ing r' Hr. destruct (H5 ing r' Hr) as (y & Hy & ? & ?). exists y.
    rewrite lookup_insert_ne; [done|]. intros ->. congruence.
  - intros ing r' Hr. destruct (H6 ing r' Hr) as (y & Hy & ? & ?). exists y.
    rewrite lookup_insert_ne; [done|]. intros ->. congruence.
Qed.

(** A camera without an owner takes a session with a new resource. *)
Lemma ok_install s ing p resource r :
  ok s -> byIngest s !! ing = None -> store s !! r = None ->
  (forall r' x, store s !! r' = Some x -> Resource x <> resource) -> ok (install s ing p resource r).
Proof.
  intros [H1 H2 H3 H4 H5 H6] Hby Hf Hres.
  assert (Hne : forall r' x, store s !! r' = Some x -> r <> r') by (intros r' x Hx ->; congruence).
  assert (Hsne : forall k r', sessions s !! k = Some r' -> resource <> k).
  { intros k r' Hk ->. destruct (H1 k r' Hk) as (x & Hx & E & _). by apply (Hres r' x). }
  split; cbn.
  - intros k r'. destruct (decide (resource = k)) as [<-|]; [rewrite lookup_insert_eq|rewrite lookup_insert_ne by done].
    + intros [= <-]. exists (mkSession resource ing p Idle false). cbn. by rewrite !lookup_insert_eq.
    + intros Hk. destruct (H1 k r' Hk) as (x & Hx & E & Hh & Hb). exists x.
      rewrite !lookup_insert_ne; eauto. intros ->. congruence.
  - intros ing' k. destruct (decide (ing = ing')) as [<-|]; [rewrite lookup_insert_eq|rewrite lookup_insert_ne by done].
    + intros [= <-]. exists r, (mkSession resource ing p Idle false). by rewrite !lookup_insert_eq.
    + intros Hk. destruct (H2 ing' k Hk) as (r' & x & Hs & Hx & E). exists r', x. rewrite !lookup_insert_ne; eauto.
  - intros r1 r2 y1 y2. destruct (decide (r = r1)) as [<-|], (decide (r = r2)) as [<-|];
      rewrite ?lookup_insert_eq, ?lookup_insert_ne by done; try done; intros E1 E2; try injection E1 as <-;
      try injection E2 as <-; cbn; eauto; intros E; exfalso; eapply Hres; eauto.
  - intros r' y. destruct (decide (r = r')) as [<-|]; [rewrite lookup_insert_eq|rewrite lookup_insert_ne by done].
    + intros [= <-]. cbn. by rewrite lookup_insert_eq.
    + intros Hy. destruct (H4 r' y Hy) as [He Hh]. split; [done|]. intros Hho. rewrite lookup_insert_ne; eauto.
  - intros i r' Hr. destruct (H5 i r' Hr) as (y & Hy & ? & ?). exists y. rewrite lookup_insert_ne; eauto.
  - intros i r' Hr. destruct (H6 i r' Hr) as (y & Hy & ? & ?). exists y. rewrite lookup_insert_ne; eauto.
Qed.

(** Publishing a track and showing a session as live, for the current session. *)
Lemma ok_drain s r : ok s -> ok (drain s r).
Proof.
  intros H. unfold drain. destruct (store s !! r) as [x|] eqn:Hx; [|done]. rewrite (currentLocked_iff s r x) by done.
  destruct (stopOnce x) eqn:Eo; cbn; try done. destruct H as [H1 H2 H3 H4 H5 H6]. split; cbn; auto.
  intros ing r'. destruct (decide (IngestID x = ing)) as [<-|]; [rewrite lookup_insert_eq|rewrite lookup_insert_ne by done; auto].
  intros [= <-]. exists x. by rewrite Eo.
Qed.

Lemma ok_onStateChange s r st s' acts : ok s -> onStateChange s r st = (s', acts) -> ok s'.
Proof.
  intros H. destruct st; cbn; try (intros [= <- <-]; done). intros [= <- <-].
  destruct (store s !! r) as [x|] eqn:Hx; [|done]. rewrite (currentLocked_iff s r x) by done.
  destruct (stopOnce x) eqn:Eo; cbn; try done. destruct H as [H1 H2 H3 H4 H5 H6]. split; cbn; auto.
  intros ing r'. destruct (decide (IngestID x = ing)) as [<-|]; [rewrite lookup_insert_eq|rewrite lookup_insert_ne by done; auto].
  intros [= <-]. exists x. by rewrite Eo.
Qed.

(** The relay and the statistics forget whoever they have for the camera. *)
Lemma ok_stopSession s r again next s' acts :
  ok s -> stopSession s r again next = Some (s', acts) -> ok s'.
Proof.
  intros H E. unfold stopSession in E. destruct (store s !! r) as [x|] eqn:Hx; cbn in E; [|done].
  destruct (stopOnce x) eqn:Eo; try congruence. injection E as <- _.
  rewrite (currentLocked_iff s r x), Eo by done. cbn. apply (ok_update s r x _ _ (relayed s) (shown s)); auto. by rewrite Eo.
Qed.

Lemma ok_cleanup s r s' acts : ok s -> cleanup s r = Some (s', acts) -> ok s'.
Proof.
  intros H E. unfold cleanup in E. destruct (store s !! r) as [x|] eqn:Hx; cbn in E; [|done].
  destruct (stopOnce x) as [|st|] eqn:Eo; try done.
  assert (He : ended x = true) by (by destruct (o_holding s H r x Hx) as [-> _]; rewrite Eo).
  assert (Hre : forall ing r', relayed s !! ing = Some r' -> r' = r -> ing = IngestID x /\ streaming (stopOnce x) = true).
  { intros ing r' Hr ->. destruct (o_relayed s H _ _ Hr) as (y & Hy & <- & ?). by assert (y = x) as -> by congruence. }
  assert (Hsh : forall ing r', shown s !! ing = Some r' -> r' = r -> ing = IngestID x /\ visible (stopOnce x) = true).
  { intros ing r' Hr ->. destruct (o_shown s H _ _ Hr) as (y & Hy & <- & ?). by assert (y = x) as -> by congruence. }
  rewrite Eo in Hre, Hsh. rewrite He in E. destruct st; injection E as <- _.
  - apply (ok_update s r x _ _ (relayed s) (delete (IngestID x) (shown s))); auto; [by rewrite Eo|].
    intros ing r' [Hne Hr]%lookup_delete_Some. split; [done|]. intros ->. by destruct (Hsh _ _ Hr eq_refl).
  - apply (ok_update s r x _ _ (delete (IngestID x) (relayed s)) (shown s)); auto; [by rewrite Eo| |].
    + intros ing r' [Hne Hr]%lookup_delete_Some. split; [done|]. intros ->. by destruct (Hre _ _ Hr eq_refl).
    + intros ing r' Hr. split; [done|]. intros ->. by destruct (Hsh _ _ Hr eq_refl).
  - apply (ok_update s r x _ _ (relayed s) (shown s)); auto; [by rewrite Eo| |].
    + intros ing r' Hr. split; [done|]. intros ->. by destruct (Hre _ _ Hr eq_refl).
    + intros ing r' Hr. split; [done|]. intros ->. by destruct (Hsh _ _ Hr eq_refl).
  - assert (Est : store (forget s (Resource x)) = store s) by (rewrite (forget_owned s r x); [done..|by rewrite Eo]).
    rewrite Est. apply ok_forget; auto; by rewrite Eo.
  - apply (ok_update s r x _ _ (relayed s) (shown s)); auto; [by rewrite Eo| |].
    + intros ing r' Hr. split; [done|]. intros ->. by destruct (Hre _ _ Hr eq_refl).
    + intros ing r' Hr. split; [done|]. intros ->. by destruct (Hsh _ _ Hr eq_refl).
Qed.

(** ** What a goroutine holds

    A negotiation holds its camera, the body of [stopOnce.Do] its session. *)
Definition tok (a : action) : option (string + nat) :=
  match a with
  | Negotiate _ | TearDown _ | Stop _ | ClosePeer _ => None
  | Cleanup r => Some (inr r)
  | Clear ing | TearPrev ing _ | StopPrev ing _ | ClosePrev ing _ | Build ing | Install ing _
  | Answer ing _ | StopFailed ing _ | DiscardFailed ing _ | CheckCurrent ing _ | Release ing => Some (inl ing)
  end.

Definition toks (acts : list action) : list (string + nat) := omap tok acts.

Definition due (s : Server) (k : string + nat) : Prop :=
  match k with
  | inl ing => ing ∈ pending s
  | inr r => exists x st, store s !! r = Some x /\ stopOnce x = Running st
  end.

Definition isCleanup (a : action) : bool := match a with Cleanup _ => true | _ => false end.

(** What holds of the server before each action of a goroutine. *)
Definition act_ok (s : Server) (a : action) : Prop :=
  match a with
  | TearPrev ing k => byIngest s !! ing = None \/ byIngest s !! ing = Some k
  | StopPrev ing r => exists x, store s !! r = Some x /\ (byIngest s !! ing = None \/ byIngest s !! ing = Some (Resource x))
  | ClosePrev ing r => is_Some (store s !! r) /\ byIngest s !! ing = None
  | Build ing | Install ing _ => byIngest s !! ing = None
  | Answer _ r | StopFailed _ r | DiscardFailed _ r | CheckCurrent _ r | Stop r | ClosePeer r | Cleanup r =>
      is_Some (store s !! r)
  | Negotiate _ | Clear _ | Release _ | TearDown _ => True
  end.

(** Sessions stay, under their resource. *)
Definition grows (s s' : Server) : Prop :=
  forall r x, store s !! r = Some x -> exists x', store s' !! r = Some x' /\ Resource x' = Resource x.

Lemma grows_refl s s' : store s' = store s -> grows s s'.
Proof. intros E r x Hx. exists x. by rewrite E. Qed.

Lemma grows_is_Some s s' r : grows s s' -> is_Some (store s !! r) -> is_Some (store s' !! r).
Proof. intros Hg [x Hx]. destruct (Hg r x Hx) as (x' & Hx' & _). eauto. Qed.

Lemma grows_setOnce s s' r x o e :
  store s !! r = Some x -> store s' = <[r := setOnce x o e]> (store s) -> grows s s'.
Proof.
  intros Hx E r' y Hy. rewrite E. destruct (decide (r = r')) as [<-|].
  - rewrite lookup_insert_eq. eexists. split; [done|]. cbn. congruence.
  - rewrite lookup_insert_ne by done. eauto.
Qed.

Lemma act_ok_mono s s' a :
  act_ok s a -> grows s s' ->
  (forall ing, tok a = Some (inl ing) -> byIngest s' !! ing = None \/ byIngest s' !! ing = byIngest s !! ing) ->
  act_ok s' a.
Proof.
  intros H Hg Hb.
  destruct a; cbn in *; eauto using grows_is_Some; try (specialize (Hb _ eq_refl)).
  - destruct Hb as [Hb|Hb]; [by left|]. by rewrite Hb.
  - destruct H as (x & Hx & H). destruct (Hg r x Hx) as (x' & Hx' & Er). exists x'. split; [done|]. rewrite Er.
    destruct Hb as [Hb|Hb]; [by left|]. by rewrite Hb.
  - destruct H as [H1 H2]. split; [by eapply grows_is_Some|]. destruct Hb as [Hb|Hb]; congruence.
  - destruct Hb as [Hb|Hb]; congruence.
  - destruct Hb as [Hb|Hb]; congruence.
Qed.

(** The effect of one action [a] that goes on with [next]. *)
Record effect (s : Server) (a : action) (s' : Server) (next : list action) : Prop := {
  e_ok : ok s';
  e_next : Forall (act_ok s') next;
  e_grows : grows s s';
  e_byIngest : forall ing, tok a <> Some (inl ing) -> byIngest s' !! ing = None \/ byIngest s' !! ing = byIngest s !! ing;
  e_nodup : NoDup (toks next);
  e_toks : forall k, k ∈ toks next -> tok a = Some k \/ ~ due s k;
  e_due : forall k, due s' k <-> (due s k /\ tok a <> Some k) \/ k ∈ toks next;
  e_head : forallb (negb ∘ isCleanup) (tail next) = true
}.

Lemma elem_of_toks k acts : k ∈ toks acts <-> exists a, a ∈ acts /\ tok a = Some k.
Proof. apply list_elem_of_omap. Qed.

Lemma effect_quiet s a s' next :
  ok s -> (forall k, tok a = Some k -> due s k) ->
  store s' = store s -> sessions s' = sessions s -> byIngest s' = byIngest s ->
  relayed s' = relayed s -> shown s' = shown s -> pending s' = pending s ->
  Forall (act_ok s) next -> toks next = option_list (tok a) -> forallb (negb ∘ isCleanup) (tail next) = true ->
  effect s a s' next.
Proof.
  intros H Hk E1 E2 E3 E4 E5 E6 Hn Ht Hh.
  assert (Hdue : forall k, due s' k <-> due s k) by (intros [ing|r]; cbn; by rewrite ?E1, ?E6).
  assert (Hin : forall k, k ∈ toks next <-> tok a = Some k).
  { intros k. rewrite Ht. destruct (tok a); cbn; rewrite ?elem_of_cons, ?elem_of_nil; naive_solver. }
  split; auto.
  - by eapply ok_same.
  - eapply Forall_impl; [exact Hn|]. intros b Hb. apply (act_ok_mono s); [done|by apply grows_refl|]. rewrite E3. auto.
  - by apply grows_refl.
  - rewrite E3. auto.
  - rewrite Ht. destruct (tok a); cbn; repeat constructor; set_solver.
  - intros k. rewrite Hin. auto.
  - intros k. rewrite Hdue, Hin. destruct (decide (tok a = Some k)); naive_solver.
Qed.

(** A call of [stopSession] by [a], which then goes on with [next]. *)
Lemma effect_stop s r a next s' acts :
  ok s -> act_ok s a -> (forall k, tok a = Some k -> due s k) -> tok a <> Some (inr r) -> isCleanup a = false ->
  stopSession s r a next = Some (s', acts) ->
  (forall x, store s !! r = Some x -> stopOnce x = Done -> Forall (act_ok s) next) ->
  toks next = option_list (tok a) -> forallb (negb ∘ isCleanup) (tail next) = true ->
  effect s a s' acts.
Proof.
  intros H Ha Hk Hr Hc E Hn Ht Hh. pose proof (ok_stopSession _ _ _ _ _ _ H E) as H'. unfold stopSession in E.
  destruct (store s !! r) as [x|] eqn:Hx; cbn in E; [|done].
  destruct (stopOnce x) eqn:Eo; try done; injection E as <- <-; [|apply effect_quiet; eauto].
  set (o := Running _) in *. set (s' := s <| store := _ |>) in *.
  assert (Hg : grows s s') by (eapply grows_setOnce; [exact Hx|reflexivity]).
  assert (Hnd : ~ due s (inr r)) by (intros (y & st & Hy & Ey); congruence).
  assert (Hdue : forall k, due s' k <-> due s k \/ k = inr r).
  { intros [ing|r']; cbn; [naive_solver|]. destruct (decide (r' = r)) as [->|].
    - rewrite lookup_insert_eq. split; [by right|]. intros _. by eexists _, _.
    - rewrite lookup_insert_ne by done. naive_solver. }
  assert (Hin : forall k, k ∈ toks [Cleanup r; a] <-> k = inr r \/ tok a = Some k).
  { intros k. unfold toks. cbn. destruct (tok a); cbn; set_solver. }
  split; auto.
  - constructor; [eapply grows_is_Some; [exact Hg|eauto]|]. constructor; [|done]. apply (act_ok_mono s); auto.
  - unfold toks. cbn. destruct (tok a) as [k|]; cbn; [|apply NoDup_singleton]. apply NoDup_cons_2; [set_solver|apply NoDup_singleton].
  - intros k. rewrite Hin. intros [->|?]; auto.
  - intros k. rewrite Hdue, Hin. destruct (decide (tok a = Some k)); naive_solver.
  - cbn. by rewrite Hc.
Qed.

Lemma ok_unowned s r x ing : ok s -> store s !! r = Some x -> holding (stopOnce x) = false -> byIngest s !! ing <> Some (Resource x).
Proof.
  intros H Hx Hh Hb. destruct (o_byIngest s H _ _ Hb) as (r' & y & Hs & _). destruct (o_sessions s H _ _ Hs) as (z & Hz & E & Hho & _).
  assert (r' = r) as -> by (by apply (o_resource s H r' r z x)). congruence.
Qed.

Lemma effect_cleanup s r s' acts :
  ok s -> is_Some (store s !! r) -> due s (inr r) -> cleanup s r = Some (s', acts) -> effect s (Cleanup r) s' acts.
Proof.
  intros H _ Hdue E. pose proof (ok_cleanup _ _ _ _ H E) as H'. unfold cleanup in E.
  destruct Hdue as (x & st & Hx & Eo). rewrite Hx in E. cbn in E. rewrite Eo in E.
  assert (Hst : exists o, store s' = <[r := setOnce x o (ended x)]> (store s) /\ pending s' = pending s
            /\ (acts = [Cleanup r] /\ (exists st', o = Running st') \/ acts = [] /\ o = Done)
            /\ forall ing, byIngest s' !! ing = None \/ byIngest s' !! ing = byIngest s !! ing).
  { destruct st; injection E as <- <-; eexists; (split; [reflexivity || idtac|]).
    all: try (split; [done|]; split; [eauto|]; by right).
    - rewrite (forget_owned s r x) by (done || by rewrite Eo). reflexivity.
    - rewrite (forget_owned s r x) by (done || by rewrite Eo). split; [done|]. split; [eauto|]. intros ing. cbn.
      destruct (decide (IngestID x = ing)) as [<-|]; [left; apply lookup_delete_eq|right; by apply lookup_delete_ne]. }
  clear E. destruct Hst as (o & Est & Ep & Hacts & Hby).
  assert (Hg : grows s s') by (eapply grows_setOnce; eauto).
  assert (Hother : forall k, k <> inr r -> (due s' k <-> due s k)).
  { intros [ing|r'] Hne; cbn; [by rewrite Ep|]. rewrite Est, lookup_insert_ne by congruence. done. }
  assert (Hself : due s' (inr r) <-> exists st', o = Running st').
  { cbn. rewrite Est, lookup_insert_eq. split; [intros (y & st' & [= <-] & Ey); eauto|]. intros [st' ->]. by eexists _, st'. }
  assert (Hin : forall k, k ∈ toks acts <-> k = inr r /\ exists st', o = Running st').
  { intros k. destruct Hacts as [(-> & st' & ->)|[-> ->]]; unfold toks; cbn; [|set_solver]. rewrite list_elem_of_singleton. naive_solver. }
  split; auto.
  - destruct Hacts as [[-> _]|[-> _]]; repeat constructor. eapply grows_is_Some; eauto.
  - destruct Hacts as [[-> _]|[-> _]]; [apply NoDup_singleton|apply NoDup_nil_2].
  - intros k Hk. apply Hin in Hk as [-> _]. by left.
  - intros k. destruct (decide (k = inr r)) as [->|Hne].
    + rewrite Hself, Hin. cbn. naive_solver.
    + rewrite Hother, Hin by done. cbn. naive_solver.
  - by destruct Hacts as [[-> _]|[-> _]].
Qed.

Lemma effect_install s ing p resource r :
  ok s -> byIngest s !! ing = None -> due s (inl ing) -> store s !! r = None ->
  (forall r' x, store s !! r' = Some x -> Resource x <> resource) ->
  effect s (Install ing p) (install s ing p resource r) [Answer ing r].
Proof.
  intros H Hb Hd Hf Hres. split.
  - by apply ok_install.
  - repeat constructor. cbn. by rewrite lookup_insert_eq.
  - intros r' x Hx. exists x. cbn. rewrite lookup_insert_ne by congruence. done.
  - intros i Hi. right. cbn. rewrite lookup_insert_ne; [done|]. intros ->. by destruct Hi.
  - apply NoDup_singleton.
  - intros k. unfold toks. cbn. rewrite list_elem_of_singleton. intros ->. by left.
  - intros k. unfold toks. cbn. rewrite list_elem_of_singleton. destruct k as [i|r']; cbn.
    + cbn in Hd. destruct (decide (i = ing)) as [->|]; [naive_solver|]. naive_solver.
    + destruct (decide (r' = r)) as [->|].
      * rewrite lookup_insert_eq. split; [intros (? & ? & [= <-] & ?); done|]. intros [[(? & ? & ? & ?) _]|?]; congruence.
      * rewrite lookup_insert_ne by done. split; [naive_solver|]. intros [[? _]|?]; [done|congruence].
  - done.
Qed.

Lemma effect_pending s a s' ps next :
  ok s -> s' = s <| pending := ps |> -> Forall (act_ok s) next -> NoDup (toks next) ->
  forallb (negb ∘ isCleanup) (tail next) = true ->
  (forall k, k ∈ toks next -> tok a = Some k \/ ~ due s k) ->
  (forall r, tok a <> Some (inr r)) -> (forall r, inr r ∉ toks next) ->
  (forall ing, ing ∈ ps <-> (ing ∈ pending s /\ tok a <> Some (inl ing)) \/ inl ing ∈ toks next) ->
  effect s a s' next.
Proof.
  intros H -> Hn Hd Hh Ht Ha1 Ha2 Hps. split; auto.
  - by eapply ok_same.
  - by apply grows_refl.
  - intros [ing|r]; cbn; [apply Hps|]. naive_solver.
Qed.

(** An action that leaves the tables alone. *)
Ltac quiet := apply effect_quiet; auto; repeat (apply Forall_cons_2 || apply Forall_nil_2); cbn; eauto.

Lemma exec_effect s a e s' next :
  ok s -> act_ok s a -> (forall k, tok a = Some k -> due s k) ->
  (forall ing p, a = Install ing p ->
     store s !! fresh e = None /\ forall r x, store s !! r = Some x -> Resource x <> minted e) ->
  exec s a e = Some (s', next) -> effect s a s' next.
Proof.
  intros H Ha Hk Hf E. destruct a as [ing|ing|ing k|ing r|ing r|ing|ing p|ing r|ing r|ing r|ing r|ing|k|r|r|r]; cbn in E, Ha.
  - destruct (closed s || bool_decide (ing ∈ pending s)) eqn:Ec; injection E as <- <-; [quiet|].
    apply orb_false_iff in Ec as [_ Ec%bool_decide_eq_false].
    eapply effect_pending; unfold toks; cbn; try done; try reflexivity; auto.
    + apply NoDup_singleton.
    + intros k ->%list_elem_of_singleton. by right.
    + intros r. by rewrite list_elem_of_singleton.
    + intros i. set_solver.
  - unfold clearPrevious in E. destruct (byIngest s !! ing) as [k|] eqn:Eb; [|injection E as <- <-; quiet].
    destruct (o_byIngest s H _ _ Eb) as (r & x & Hs & Hx & _). rewrite Hs in E.
    destruct (negb _ && _); injection E as <- <-; quiet.
  - destruct (sessions s !! k) as [r|] eqn:Es; injection E as <- <-; (apply effect_quiet; auto; constructor; [|done]).
    + destruct (o_sessions s H _ _ Es) as (x & Hx & <- & _). cbn. eauto.
    + destruct Ha as [?|Hb]; [done|]. destruct (o_byIngest s H _ _ Hb) as (r & x & Hs & _). congruence.
  - eapply effect_stop; eauto; try done. intros y Hy Eo. constructor; [|done]. destruct Ha as (x & Hx & [Hb|Hb]); cbn; [eauto|].
    exfalso. assert (y = x) as -> by congruence. eapply (ok_unowned s r x ing); eauto. by rewrite Eo.
  - destruct Ha as [[x Hx] Hb]. rewrite Hx in E. injection E as <- <-. quiet.
  - destruct (built e) as [?|p]; injection E as <- <-; quiet.
  - destruct (closed s); injection E as <- <-; [quiet|]. destruct (Hf _ _ eq_refl).
    apply effect_install; auto.
  - destruct (Peer.Answer _); injection E as <- <-; quiet.
  - eapply effect_stop; eauto; done.
  - destruct Ha as [x Hx]. rewrite Hx in E. injection E as <- <-. quiet.
  - destruct Ha as [x Hx]. rewrite Hx in E. destruct (currentLocked s r); injection E as <- <-; quiet.
  - injection E as <- <-. eapply effect_pending; unfold toks; cbn; try done; try reflexivity; auto.
    + apply NoDup_nil_2.
    + intros k ?%elem_of_nil. done.
    + intros r. apply not_elem_of_nil.
    + intros i. set_solver.
  - injection E as <- <-. unfold Teardown. destruct (sessions s !! k) as [r|] eqn:Es; quiet;
      destruct (o_sessions s H _ _ Es) as (x & Hx & _); eauto.
  - eapply effect_stop; eauto; done.
  - destruct Ha as [x Hx]. rewrite Hx in E. injection E as <- <-. quiet.
  - apply effect_cleanup; auto.
Qed.

(** ** The invariant of every run *)
Definition held (w : world) (k : string + nat) : Prop := exists t acts, threads w !! t = Some acts /\ k ∈ toks acts.

Record inv (w : world) : Prop := {
  i_ok : ok (srv w);
  i_act : forall t acts a, threads w !! t = Some acts -> a ∈ acts -> act_ok (srv w) a;
  i_nodup : forall t acts, threads w !! t = Some acts -> NoDup (toks acts);
  i_disj : forall t t' acts acts' k, threads w !! t = Some acts -> threads w !! t' = Some acts' ->
    k ∈ toks acts -> k ∈ toks acts' -> t = t';
  i_due : forall k, due (srv w) k <-> held w k;
  i_head : forall t acts, threads w !! t = Some acts -> forallb (negb ∘ isCleanup) (tail acts) = true
}.

Lemma toks_app l k : toks (l ++ k) = toks l ++ toks k.
Proof. apply omap_app. Qed.

Lemma toks_cons a l : toks (a :: l) = option_list (tok a) ++ toks l.
Proof. unfold toks. cbn. by destruct (tok a). Qed.

Lemma elem_of_option_list (o : option (string + nat)) k : k ∈ option_list o <-> o = Some k.
Proof. destruct o; cbn; rewrite ?elem_of_cons, ?elem_of_nil; naive_solver. Qed.

(** A goroutine takes its first action. *)
Section exec_one.
  Context (w : world) (t : nat) (a : action) (rest : list action) (s' : Server) (next : list action).
  Context (Hinv : inv w) (Ht : threads w !! t = Some (a :: rest)) (He : effect (srv w) a s' next).

Let w' : world := (w <| srv := s' |>) <| threads := <[t := next ++ rest]> (threads w) |>.

Lemma exec_new k : k ∈ toks next -> tok a = Some k \/ ~ held w k.
Proof. intros Hk. rewrite <-(i_due w Hinv). by apply (e_toks _ _ _ _ He). Qed.

(** What other goroutines hold is not held by this one. *)
Lemma exec_mine k : tok a = Some k ->
  ~ (k ∈ toks rest) /\ forall t' acts, threads w !! t' = Some acts -> k ∈ toks acts -> t' = t.
Proof.
  intros Hk. split.
  - pose proof (i_nodup w Hinv t _ Ht) as Hn. rewrite toks_cons, Hk in Hn. cbn in Hn. by apply NoDup_cons in Hn as [? _].
  - intros t' acts Hacts Hin. apply (i_disj w Hinv t' t acts (a :: rest) k Hacts Ht Hin). rewrite toks_cons, Hk. by left.
Qed.

Lemma exec_rest k : k ∈ toks rest -> held w k.
Proof. intros Hk. exists t, (a :: rest). split; [done|]. rewrite toks_cons, elem_of_app. by right. Qed.

Lemma exec_threads t' acts : threads w' !! t' = Some acts ->
  t' = t /\ acts = next ++ rest \/ t' <> t /\ threads w !! t' = Some acts.
Proof.
  cbn. destruct (decide (t = t')) as [<-|Hne]; [rewrite lookup_insert_eq; intros [= <-]|rewrite lookup_insert_ne by done]; auto.
Qed.

Lemma exec_act t' acts b : threads w' !! t' = Some acts -> b ∈ acts -> act_ok s' b.
Proof.
  destruct He as [E1 E2 E3 E4 E5 E6 E7 E8]. intros [[-> ->]|[Hne Hacts]]%exec_threads Hb.
  - apply elem_of_app in Hb as [Hb|Hb]; [rewrite Forall_forall in E2; auto|]. apply (act_ok_mono (srv w)); [|done|].
    + apply (i_act w Hinv t (a :: rest)); [done|]. by right.
    + intros ing Hing. apply E4. intros Hk. destruct (exec_mine _ Hk) as [Hno _]. apply Hno, elem_of_toks. eauto.
  - apply (act_ok_mono (srv w)); [by eapply (i_act w Hinv)|done|]. intros ing Hing. apply E4. intros Hk.
    destruct (exec_mine _ Hk) as [_ Ho]. apply Hne, (Ho t' acts); [done|]. apply elem_of_toks. eauto.
Qed.

Lemma exec_nodup t' acts : threads w' !! t' = Some acts -> NoDup (toks acts).
Proof.
  intros [[-> ->]|[Hne Hacts]]%exec_threads; [|by eapply (i_nodup w Hinv)].
  rewrite toks_app. apply NoDup_app. split_and!; [apply He| |].
  - intros k Hk Hr. destruct (exec_new k Hk) as [Hk'|Hk']; [by destruct (exec_mine k Hk')|]. auto using exec_rest.
  - pose proof (i_nodup w Hinv t _ Ht) as Hn. rewrite toks_cons in Hn. by apply NoDup_app in Hn as (_ & _ & ?).
Qed.

Lemma exec_others t' acts k :
  t' <> t -> threads w !! t' = Some acts -> k ∈ toks acts -> k ∉ toks (next ++ rest).
Proof.
  intros Hne Hacts Hk. rewrite toks_app, elem_of_app. intros [Hn|Hr].
  - destruct (exec_new k Hn) as [Hk'|Hk']; [destruct (exec_mine k Hk') as [_ Ho]; by apply Hne, (Ho t' acts)|].
    apply Hk'. by exists t', acts.
  - apply Hne. apply (i_disj w Hinv t' t acts (a :: rest) k); auto. rewrite toks_cons, elem_of_app. by right.
Qed.

Lemma exec_disj t1 t2 l1 l2 k :
  threads w' !! t1 = Some l1 -> threads w' !! t2 = Some l2 -> k ∈ toks l1 -> k ∈ toks l2 -> t1 = t2.
Proof.
  intros [[-> ->]|[N1 L1]]%exec_threads [[-> ->]|[N2 L2]]%exec_threads K1 K2; [done|..].
  - by destruct (exec_others t2 l2 k).
  - by destruct (exec_others t1 l1 k).
  - by apply (i_disj w Hinv t1 t2 l1 l2 k).
Qed.

Lemma exec_held k : due s' k <-> held w' k.
Proof.
  rewrite (e_due _ _ _ _ He k), (i_due w Hinv k). split.
  - intros [[(t' & acts & Hacts & Hk) Hna]|Hk].
    + destruct (decide (t = t')) as [<-|]; [|exists t', acts; cbn; by rewrite lookup_insert_ne].
      exists t, (next ++ rest). cbn. rewrite lookup_insert_eq. split; [done|]. rewrite toks_app, elem_of_app. right.
      assert (acts = a :: rest) as -> by congruence. rewrite toks_cons, elem_of_app, elem_of_option_list in Hk. tauto.
    + exists t, (next ++ rest). cbn. rewrite lookup_insert_eq, toks_app, elem_of_app. auto.
  - intros (t' & acts & [[-> ->]|[Hne Hacts]]%exec_threads & Hk).
    + rewrite toks_app, elem_of_app in Hk. destruct Hk as [Hk|Hk]; [by right|]. left. split; [by apply exec_rest|].
      intros Ha'. by destruct (exec_mine k Ha').
    + left. split; [by exists t', acts|]. intros Ha'. destruct (exec_mine k Ha') as [_ Ho]. by apply Hne, (Ho t' acts).
Qed.

Lemma exec_head t' acts : threads w' !! t' = Some acts -> forallb (negb ∘ isCleanup) (tail acts) = true.
Proof.
  intros [[-> ->]|[Hne Hacts]]%exec_threads; [|by eapply (i_head w Hinv)]. pose proof (i_head w Hinv t _ Ht) as Hh. cbn in Hh.
  destruct He as [_ _ _ _ _ _ _ E8]. destruct next as [|b l]; cbn in *; [destruct rest; cbn in *; by bool_hyps|].
  by rewrite forallb_app, E8, Hh.
Qed.

Lemma inv_exec : inv w'.
Proof. split; [apply He|apply exec_act|apply exec_nodup|apply exec_disj|apply exec_held|apply exec_head]. Qed.
End exec_one.

(** A goroutine starts, holding nothing. *)
Lemma inv_spawn w t s' acts :
  inv w -> threads w !! t = None -> ok s' -> store s' = store (srv w) -> byIngest s' = byIngest (srv w) ->
  pending s' = pending (srv w) -> Forall (λ a, tok a = None /\ act_ok s' a) acts ->
  inv ((w <| srv := s' |>) <| threads := <[t := acts]> (threads w) |>).
Proof.
  intros [H1 H2 H3 H4 H5 H6] Ht Hok Est Eby Ep Hacts. rewrite Forall_forall in Hacts.
  assert (Htoks : forall k, k ∉ toks acts).
  { intros k (a & Ha & Hk)%elem_of_toks. destruct (Hacts a Ha). congruence. }
  assert (Hlook : forall t' l, <[t := acts]> (threads w) !! t' = Some l -> t' = t /\ l = acts \/ t' <> t /\ threads w !! t' = Some l).
  { intros t' l. destruct (decide (t = t')) as [<-|]; [rewrite lookup_insert_eq; intros [= <-]|rewrite lookup_insert_ne by done]; auto. }
  split; cbn; auto.
  - intros t' l b [[-> ->]|[_ Hl]]%Hlook Hb; [by apply Hacts|]. apply (act_ok_mono (srv w)); [by eapply H2|by apply grows_refl|].
    rewrite Eby. auto.
  - intros t' l [[-> ->]|[_ Hl]]%Hlook; [|by eapply H3]. destruct (toks acts) as [|k l] eqn:E; [apply NoDup_nil_2|].
    exfalso. apply (Htoks k). by left.
  - intros t1 t2 l1 l2 k [[-> ->]|[_ L1]]%Hlook [[-> ->]|[_ L2]]%Hlook K1 K2; try (by destruct (Htoks k)). by eapply H4.
  - intros k. replace (due s' k) with (due (srv w) k) by (destruct k; cbn; by rewrite ?Est, ?Ep). rewrite H5. split.
    + intros (t' & l & Hl & Hk). exists t', l. cbn. rewrite lookup_insert_ne; [done|]. intros ->. congruence.
    + intros (t' & l & [[-> ->]|[_ Hl]]%Hlook & Hk); [by destruct (Htoks k)|]. by exists t', l.
  - intros t' l [[-> ->]|[_ Hl]]%Hlook; [|by eapply H6]. apply forallb_forall. intros b Hb%list_elem_of_In.
    destruct (Hacts b) as [Hb' _]; [destruct acts; [done|by right]|]. by destruct b.
Qed.

Lemma inv_frame w s' : inv w -> ok s' -> store s' = store (srv w) -> byIngest s' = byIngest (srv w) ->
  pending s' = pending (srv w) -> inv (w <| srv := s' |>).
Proof.
  intros [H1 H2 H3 H4 H5 H6] Hok Est Eby Ep. split; cbn; auto.
  - intros t acts a Ht Ha. apply (act_ok_mono (srv w)); [by eapply H2|by apply grows_refl|]. rewrite Eby. auto.
  - intros k. replace (due s' k) with (due (srv w) k) by (destruct k; cbn; by rewrite ?Est, ?Ep). apply H5.
Qed.

Lemma inv_end w t : inv w -> threads w !! t = Some [] -> inv (w <| threads := delete t (threads w) |>).
Proof.
  intros [H1 H2 H3 H4 H5 H6] Ht. split; cbn; auto.
  - intros t' acts a [_ ?]%lookup_delete_Some. by eapply H2.
  - intros t' acts [_ ?]%lookup_delete_Some. by eapply H3.
  - intros t1 t2 l1 l2 k [_ ?]%lookup_delete_Some [_ ?]%lookup_delete_Some. by eapply H4.
  - intros k. rewrite H5. split.
    + intros (t' & l & Hl & Hk). exists t', l. cbn. rewrite lookup_delete_ne; [done|]. intros ->. rewrite Ht in Hl. injection Hl as <-.
      by apply elem_of_nil in Hk.
    + intros (t' & l & Hl & Hk). cbn in Hl. apply lookup_delete_Some in Hl as [_ Hl]. by exists t', l.
  - intros t' acts [_ ?]%lookup_delete_Some. by eapply H6.
Qed.

Lemma progress_inv w w' : inv w -> progress w w' -> inv w'.
Proof.
  intros Hinv Hp. destruct Hp as [w t a rest e s' next Ht Hf E|w t Ht]; [|by apply inv_end].
  apply (inv_exec w t a rest); auto. eapply exec_effect; eauto; [apply Hinv|eapply i_act; eauto; by left|].
  intros k Hk. apply (i_due w Hinv). exists t, (a :: rest). rewrite toks_cons, Hk. split; [done|]. by left.
Qed.

Lemma whip_step_inv w w' : inv w -> step w w' -> inv w'.
Proof.
  intros Hinv Hstep. pose proof (i_ok w Hinv) as Hok.
  destruct Hstep as [w t rs offer acts Ht E|w t ing Ht|w t k Ht|w t order s' acts Ht Hord E|w t r st s' acts Ht Hr E|w r|
    w w' Hp].
  - apply (inv_spawn w t (srv w)); auto. unfold Publish in E. destruct rs as [ing []]; cbn in E; try done.
    destruct (Peer.Direction offer _) as [|[]]; try done. injection E as <-. by repeat constructor.
  - apply (inv_spawn w t (srv w)); auto. unfold CloseIngest. destruct (byIngest (srv w) !! ing); by repeat constructor.
  - apply (inv_spawn w t (srv w)); auto. by repeat constructor.
  - injection E as <- <-. apply inv_spawn; auto; [by eapply ok_same|]. apply Forall_forall. intros a (r & Ha & Hr)%list_elem_of_bind.
    apply Hord in Hr as [k Hk]. destruct (o_sessions _ Hok k r Hk) as (x & Hx & _).
    rewrite elem_of_cons, list_elem_of_singleton in Ha. destruct Ha as [->| ->]; cbn; eauto.
  - pose proof (ok_onStateChange _ _ _ _ _ Hok E) as Hok'. destruct Hr as [x Hx]. destruct st; cbn in E; injection E as <- <-;
      apply inv_spawn; auto; try (by destruct (store (srv w) !! r); cases_if); repeat constructor; cbn; eauto.
  - apply inv_frame; auto; [by apply ok_drain|..]; unfold drain; by destruct (store (srv w) !! r); cases_if.
  - by eapply progress_inv.
Qed.

Lemma whip_reach_inv w : reach w -> inv w.
Proof.
  intros Hr. remember start as w0 eqn:E. assert (inv w0) as H0.
  { subst. split; cbn; try (intros *; rewrite lookup_empty; done).
    - split; intros *; cbn; rewrite lookup_empty; done.
    - intros [ing|r]; cbn; (split; [|intros (t & acts & Ht & _); done]); [set_solver|]. intros (x & st & Hx & _). done. }
  clear E. induction Hr; eauto using whip_step_inv.
Qed.

(** ** Goroutines come to an end *)
Definition weigh {A} (f : A -> nat) (m : gmap nat A) : nat := sum_list_with f (map_to_list m).*2.

Lemma weigh_delete {A} (f : A -> nat) (m : gmap nat A) i x : m !! i = Some x -> weigh f m = (f x + weigh f (delete i m))%nat.
Proof.
  intros Hx. unfold weigh. rewrite <-(map_to_list_delete m i x Hx). done.
Qed.

Lemma weigh_insert {A} (f : A -> nat) (m : gmap nat A) i x : m !! i = None -> weigh f (<[i := x]> m) = (f x + weigh f m)%nat.
Proof. intros Hx. rewrite (weigh_delete f _ i x) by apply lookup_insert_eq. by rewrite delete_insert_id. Qed.

Lemma weigh_update {A} (f : A -> nat) (m : gmap nat A) i x y :
  m !! i = Some x -> (weigh f (<[i := y]> m) + f x = weigh f m + f y)%nat.
Proof.
  intros Hx. rewrite (weigh_delete f _ i y) by apply lookup_insert_eq. rewrite (weigh_delete f m i x) by done.
  rewrite delete_insert_eq. lia.
Qed.

(** What is left to do: of an action, of a goroutine, of stopping a session. *)
Definition cost (a : action) : nat :=
  match a with
  | Cleanup _ => 0
  | Release _ | Stop _ | ClosePeer _ => 1
  | CheckCurrent _ _ | DiscardFailed _ _ => 2
  | StopFailed _ _ | TearDown _ => 3
  | Answer _ _ => 4
  | Install _ _ => 12
  | Build _ => 13
  | ClosePrev _ _ => 14
  | StopPrev _ _ => 15
  | TearPrev _ _ => 16
  | Clear _ => 17
  | Negotiate _ => 18
  end.

Definition threadCost (acts : list action) : nat := S (sum_list_with cost acts).

Definition stopCost (x : Session) : nat :=
  match stopOnce x with
  | Idle => 6
  | Running SStats => 5
  | Running SDrop => 4
  | Running SCallback => 3
  | Running SForget => 2
  | Running SFinish => 1
  | Done => 0
  end.

Definition measure (w : world) : nat := (weigh threadCost (threads w) + weigh stopCost (store (srv w)))%nat.

Lemma stopSession_cost s r again next s' acts :
  stopSession s r again next = Some (s', acts) -> (sum_list_with cost next < cost again)%nat ->
  (sum_list_with cost acts + weigh stopCost (store s') < cost again + weigh stopCost (store s))%nat.
Proof.
  unfold stopSession. intros E Hn. destruct (store s !! r) as [x|] eqn:Hx; cbn in E; [|done].
  destruct (stopOnce x) eqn:Eo; try done; injection E as <- <-; [|lia]. cbn.
  pose proof (weigh_update stopCost (store s) r x (setOnce x (Running (if currentLocked s r then SStats else SForget)) true) Hx) as Hw.
  unfold stopCost at 2 4 in Hw. rewrite Eo in Hw. destruct (currentLocked s r); cbn in Hw |- *; lia.
Qed.

Lemma cleanup_cost s r s' acts :
  cleanup s r = Some (s', acts) ->
  (sum_list_with cost acts + weigh stopCost (store s') < weigh stopCost (store s))%nat.
Proof.
  unfold cleanup. intros E. destruct (store s !! r) as [x|] eqn:Hx; cbn in E; [|done].
  assert (Hst : exists o, store s' = <[r := setOnce x o (ended x)]> (store s) /\ sum_list_with cost acts = 0%nat
            /\ (stopCost (setOnce x o (ended x)) < stopCost x)%nat).
  { assert (Hf : store (forget s (Resource x)) = store s).
    { unfold forget. destruct (sessions s !! Resource x) as [r'|]; [|done]. destruct (store s !! r'); cbn; by cases_if. }
    unfold stopCost. destruct (stopOnce x) as [|[]|]; try done; injection E as <- <-; eexists;
      (split; [cbn; rewrite ?Hf; reflexivity|cbn; lia]). }
  destruct Hst as (o & -> & -> & Hlt). pose proof (weigh_update stopCost (store s) r x (setOnce x o (ended x)) Hx). lia.
Qed.

Lemma exec_cost s a e s' next :
  (forall ing p, a = Install ing p -> store s !! fresh e = None) ->
  exec s a e = Some (s', next) ->
  (sum_list_with cost next + weigh stopCost (store s') < cost a + weigh stopCost (store s))%nat.
Proof.
  intros Hf E. destruct a as [ing|ing|ing k|ing r|ing r|ing|ing p|ing r|ing r|ing r|ing r|ing|k|r|r|r]; cbn in E;
    try (eapply stopSession_cost; [exact E|cbn; lia]).
  - destruct (closed s || _); injection E as <- <-; cbn; lia.
  - destruct (clearPrevious s ing e) as [?|l] eqn:Ec; injection E as <- <-; cbn; [lia|]. unfold clearPrevious in Ec.
    destruct (byIngest s !! ing); [|injection Ec as <-; cbn; lia]. destruct (sessions s !! _); [|injection Ec as <-; cbn; lia].
    destruct (negb _ && _); [done|]. injection Ec as <-. cbn. lia.
  - destruct (sessions s !! k); injection E as <- <-; cbn; lia.
  - destruct (store s !! r); [|done]. injection E as <- <-. cbn. lia.
  - destruct (built e); injection E as <- <-; cbn; lia.
  - destruct (closed s); injection E as <- <-; cbn; [lia|]. rewrite (weigh_insert stopCost) by eauto. cbn. lia.
  - destruct (Peer.Answer _); injection E as <- <-; cbn; lia.
  - destruct (store s !! r); [|done]. injection E as <- <-. cbn. lia.
  - destruct (currentLocked s r); [|destruct (store s !! r); [|done]]; injection E as <- <-; cbn; lia.
  - injection E as <- <-. cbn. lia.
  - injection E as <- <-. unfold Teardown. destruct (sessions s !! k); cbn; lia.
  - destruct (store s !! r); [|done]. injection E as <- <-. cbn. lia.
  - apply cleanup_cost in E. cbn. lia.
Qed.

Lemma progress_measure w w' : progress w w' -> (measure w' < measure w)%nat.
Proof.
  intros Hp. destruct Hp as [w t a rest e s' next Ht Hf E|w t Ht]; unfold measure; cbn.
  - pose proof (exec_cost (srv w) a e s' next (λ ing p H, proj1 (Hf ing p H)) E) as Hc.
    pose proof (weigh_update threadCost (threads w) t (a :: rest) (next ++ rest) Ht) as Hw.
    unfold threadCost at 2 4 in Hw. rewrite sum_list_with_app in Hw. cbn in Hw. lia.
  - rewrite (weigh_delete threadCost (threads w) t []) by done. cbn. lia.
Qed.

Lemma stopSession_waits s r again next : is_Some (store s !! r) -> stopSession s r again next = None -> due s (inr r).
Proof.
  intros [x Hx]. unfold stopSession. rewrite Hx. cbn. destruct (stopOnce x) as [|st|] eqn:Eo; try done. intros _.
  exists x, st. done.
Qed.

(** A goroutine waits for nothing but the body of a [stopOnce.Do] under way. *)
Lemma exec_waits s a e :
  act_ok s a -> (forall k, tok a = Some k -> due s k) -> exec s a e = None -> exists r, due s (inr r).
Proof.
  intros Ha Hk E. destruct a as [ing|ing|ing k|ing r|ing r|ing|ing p|ing r|ing r|ing r|ing r|ing|k|r|r|r]; cbn in E, Ha; try done;
    try (by exists r; eapply stopSession_waits; eauto).
  - by destruct (closed s || _).
  - by destruct (clearPrevious s ing e).
  - by destruct (sessions s !! k).
  - exists r. destruct Ha as (x & Hx & _). eapply stopSession_waits; eauto.
  - destruct Ha as [[x Hx] _]. by rewrite Hx in E.
  - by destruct (built e).
  - by destruct (closed s).
  - by destruct (Peer.Answer _).
  - destruct Ha as [x Hx]. by rewrite Hx in E.
  - destruct Ha as [x Hx]. rewrite Hx in E. by destruct (currentLocked s r).
  - destruct Ha as [x Hx]. by rewrite Hx in E.
  - exists r. by apply Hk.
Qed.

(** That body is the first action of a goroutine, and waits for nothing. *)
Lemma cleanup_runs w r :
  inv w -> due (srv w) (inr r) ->
  exists t rest s' next, threads w !! t = Some (Cleanup r :: rest) /\ cleanup (srv w) r = Some (s', next).
Proof.
  intros H Hd. destruct (proj1 (i_due w H _) Hd) as (t & acts & Ht & (b & Hb & Etok)%elem_of_toks).
  assert (b = Cleanup r) as -> by (destruct b; cbn in Etok; congruence).
  pose proof (i_head w H t acts Ht) as Hh. destruct acts as [|a rest]; [by apply elem_of_nil in Hb|]. cbn in Hh.
  apply elem_of_cons in Hb as [<-|Hb].
  - destruct Hd as (x & st & Hx & Eo). destruct (cleanup (srv w) r) as [[s' next]|] eqn:Ec; [by exists t, rest, s', next|].
    unfold cleanup in Ec. rewrite Hx in Ec. cbn in Ec. rewrite Eo in Ec. by destruct st.
  - rewrite forallb_forall in Hh. apply list_elem_of_In, Hh in Hb. done.
Qed.

(** Some resource is unused. *)
Lemma unused_answers (s : Server) (e : answers) : exists e', connected e' = connected e /\ built e' = built e /\ exchange e' = exchange e
  /\ store s !! fresh e' = None /\ forall r x, store s !! r = Some x -> Resource x <> minted e'.
Proof.
  set (used := (map_to_list (store s)).*2).
  exists (mkAnswers (connected e) (built e) (exchange e) (infinite_fresh (map_to_list (store s)).*1) (infinite_fresh (Resource <$> used))).
  cbn. split_and!; try done.
  - apply not_elem_of_dom. intros Hin. apply (infinite_is_fresh (map_to_list (store s)).*1). apply elem_of_dom in Hin as [x Hx].
    apply list_elem_of_fmap. exists (infinite_fresh (map_to_list (store s)).*1, x). split; [done|]. by apply elem_of_map_to_list.
  - intros r x Hx E. apply (infinite_is_fresh (Resource <$> used)). apply list_elem_of_fmap. exists x. split; [done|].
    apply list_elem_of_fmap. exists (r, x). split; [done|]. by apply elem_of_map_to_list.
Qed.

(** While a goroutine is left, one can go on. *)
Lemma progress_available w t acts : inv w -> threads w !! t = Some acts -> red progress w.
Proof.
  intros H Ht. destruct acts as [|a rest]; [eexists; by apply (P_end w t)|].
  destruct (unused_answers (srv w) (mkAnswers false (inl ErrBuildAPI) (Peer.mkExchange true true true true "answer") 0 "")) as (e & _ & _ & _ & Hf1 & Hf2).
  destruct (exec (srv w) a e) as [[s' next]|] eqn:E; [eexists; by apply (P_exec w t a rest e s' next)|].
  destruct (exec_waits (srv w) a e) as [r Hd]; [apply (i_act w H t (a :: rest)); [done|by left]| |done|].
  - intros k Hk. apply (i_due w H). exists t, (a :: rest). rewrite toks_cons, Hk. split; [done|]. by left.
  - destruct (cleanup_runs w r H Hd) as (t' & rest' & s' & next & Ht' & Ec). eexists. by apply (P_exec w t' (Cleanup r) rest' e s' next).
Qed.

(** ** Claims *)

(** C5: a camera has one publisher at a time, and the relay and the dashboard only
    ever show that one.  However publications, replacements, closings and
    connection failures interleave, the session whose stream the relay holds for a
    camera, and the one shown as live, still own the camera in both tables (a
    session gives its place up only once the relay has dropped its stream), and no
    two sessions that have not given their place up are of one camera. *)
Theorem publisher_owns_camera w :
  reach w ->
  (forall ing r, relayed (srv w) !! ing = Some r \/ shown (srv w) !! ing = Some r ->
     exists x, store (srv w) !! r = Some x /\ IngestID x = ing /\ sessions (srv w) !! Resource x = Some r
       /\ byIngest (srv w) !! ing = Some (Resource x))
  /\ (forall r r' x x', store (srv w) !! r = Some x -> store (srv w) !! r' = Some x' -> IngestID x = IngestID x' ->
       holding (stopOnce x) = true -> holding (stopOnce x') = true -> r = r').
Proof.
  intros Hr. pose proof (i_ok w (whip_reach_inv w Hr)) as H. split.
  - intros ing r Hor.
    assert (exists x, store (srv w) !! r = Some x /\ IngestID x = ing /\ holding (stopOnce x) = true) as (x & Hx & <- & Hh).
    { destruct Hor as [Hre|Hsh]; [destruct (o_relayed _ H _ _ Hre) as (x & ? & ? & E)|destruct (o_shown _ H _ _ Hsh) as (x & ? & ? & E)];
        exists x; split_and!; auto; by destruct (stopOnce x) as [|[]|]. }
    exists x. by destruct (ok_owner _ r x H Hx Hh).
  - intros r r' x x' Hx Hx' Ei Hh Hh'. destruct (ok_owner _ r x H Hx Hh) as [_ Hb], (ok_owner _ r' x' H Hx' Hh') as [_ Hb'].
    apply (o_resource _ H r r' x x' Hx Hx'). rewrite Ei, Hb' in Hb. congruence.
Qed.

(** C19: a replacement starts clean.  When a negotiation is about to install its
    session, no session owns the camera, the relay holds no stream for it, the
    dashboard does not show it as live, and no other negotiation for it is under
    way. *)
Theorem replacement_starts_clean w t ing p rest :
  reach w -> threads w !! t = Some (Install ing p :: rest) ->
  byIngest (srv w) !! ing = None /\ relayed (srv w) !! ing = None /\ shown (srv w) !! ing = None
  /\ ing ∈ pending (srv w)
  /\ forall t' acts a, threads w !! t' = Some acts -> a ∈ acts -> tok a = Some (inl ing) -> t' = t.
Proof.
  intros Hr Ht. pose proof (whip_reach_inv w Hr) as H. pose proof (i_ok w H) as Hok.
  assert (Hb : byIngest (srv w) !! ing = None) by (apply (i_act w H t _ (Install ing p) Ht); by left).
  assert (Hno : forall r x, store (srv w) !! r = Some x -> IngestID x = ing -> holding (stopOnce x) = false).
  { intros r x Hx <-. destruct (holding (stopOnce x)) eqn:Hh; [|done]. destruct (ok_owner _ r x Hok Hx Hh). congruence. }
  assert (Hin : inl ing ∈ toks (Install ing p :: rest)) by (rewrite toks_cons; by left).
  split_and!; auto.
  - destruct (relayed (srv w) !! ing) as [r|] eqn:E; [|done]. destruct (o_relayed _ Hok _ _ E) as (x & Hx & Ei & Hs).
    pose proof (Hno r x Hx Ei). by destruct (stopOnce x) as [|[]|].
  - destruct (shown (srv w) !! ing) as [r|] eqn:E; [|done]. destruct (o_shown _ Hok _ _ E) as (x & Hx & Ei & Hs).
    pose proof (Hno r x Hx Ei). by destruct (stopOnce x) as [|[]|].
  - apply (i_due w H (inl ing)). by eexists _, _.
  - intros t' acts a Hacts Ha Hk. apply (i_disj w H t' t acts _ (inl ing) Hacts Ht); [|done]. apply elem_of_toks. eauto.
Qed.

(** C12: the server never locks up.  Left without new requests, goroutines run to
    their end in a bounded number of steps whatever the interleaving and whatever
    the connections answer: no run of [progress] is longer than [measure], and it
    can only stop when no goroutine is left.  Then no negotiation is pending, and
    every session is either untouched or completely stopped, out of both tables. *)
Theorem goroutines_finish w :
  reach w ->
  (forall n w', nsteps progress n w w' -> (n + measure w' <= measure w)%nat)
  /\ forall w', rtc progress w w' -> nf progress w' ->
       threads w' = ∅ /\ pending (srv w') = ∅
       /\ forall r x, store (srv w') !! r = Some x ->
            stopOnce x = Idle \/ stopOnce x = Done /\ sessions (srv w') !! Resource x = None
              /\ byIngest (srv w') !! IngestID x <> Some (Resource x).
Proof.
  intros Hr. split.
  - intros n w' Hn. clear Hr. induction Hn as [|n w1 w2 w3 Hp _ IH]; [lia|]. apply progress_measure in Hp. lia.
  - intros w' Hrun Hnf.
    assert (H : inv w').
    { pose proof (whip_reach_inv w Hr) as H. clear - H Hrun. induction Hrun; eauto using progress_inv. }
    assert (Hthreads : threads w' = ∅).
    { apply map_empty. intros t. destruct (threads w' !! t) as [acts|] eqn:Ht; [|done]. destruct Hnf. by eapply progress_available. }
    assert (Hdue : forall k, ~ due (srv w') k).
    { intros k (t & acts & Ht & _)%(i_due w' H). rewrite Hthreads in Ht. by rewrite lookup_empty in Ht. }
    split_and!; [done| |].
    + apply set_eq. intros ing. rewrite elem_of_empty. split; [apply (Hdue (inl ing))|done].
    + intros r x Hx. destruct (stopOnce x) as [|st|] eqn:Eo; [by left| |right; split; [done|]].
      * destruct (Hdue (inr r)). by exists x, st.
      * split; [|eapply ok_unowned; [apply H|exact Hx|by rewrite Eo]]. destruct (sessions (srv w') !! Resource x) as [r'|] eqn:Es; [|done].
        destruct (o_sessions _ (i_ok w' H) _ _ Es) as (y & Hy & Er & Hh & _).
        assert (r' = r) as -> by (by apply (o_resource _ (i_ok w' H) r' r y x)). assert (y = x) as -> by congruence. by rewrite Eo in Hh.
Qed.

(** Closing a camera does not reach a publication under negotiation.  Once
    [negotiate] has cleared the previous publisher, [CloseIngest] finds nothing to
    close, and the session is installed and current all the same. *)
Theorem closing_misses_negotiation w t ing p rest e :
  reach w -> threads w !! t = Some (Install ing p :: rest) -> closed (srv w) = false ->
  store (srv w) !! fresh e = None -> (forall r x, store (srv w) !! r = Some x -> Resource x <> minted e) ->
  CloseIngest (srv w) ing = []
  /\ exists s', exec (srv w) (Install ing p) e = Some (s', [Answer ing (fresh e)])
       /\ store s' !! fresh e = Some (mkSession (minted e) ing p Idle false) /\ currentLocked s' (fresh e) = true.
Proof.
  intros Hr Ht Hc Hf Hres. pose proof (whip_reach_inv w Hr) as H. pose proof (i_ok w H) as Hok.
  assert (Hb : byIngest (srv w) !! ing = None) by (apply (i_act w H t _ (Install ing p) Ht); by left).
  split; [unfold CloseIngest; by rewrite Hb|]. eexists. cbn. rewrite Hc. split; [done|].
  assert (Hnew : store (install (srv w) ing p (minted e) (fresh e)) !! fresh e = Some (mkSession (minted e) ing p Idle false))
    by apply lookup_insert_eq.
  split; [done|]. rewrite (currentLocked_iff _ _ _ (ok_install _ ing p (minted e) (fresh e) Hok Hb Hf Hres) Hnew). done.
Qed.

(** ** A run: a publisher connects, is heard, and is replaced *)
Definition demoIngest : Config.Ingest := Config.mkIngest DynamicDelay.zeroOptions "cam" "Cam" "s" "r" [] 0 "".

Definition demoAnswers (r : nat) (k : string) : answers :=
  mkAnswers false (inr r) (Peer.mkExchange true true true true "answer") r k.

Definition spawned (w : world) (t : nat) : world := w <| threads := <[t := [Negotiate "cam"]]> (threads w) |>.

(** Goroutine [t] takes its first action. *)
Definition taken (w : world) (t : nat) (e : answers) : world :=
  match threads w !! t with
  | Some (a :: rest) =>
      match exec (srv w) a e with
      | Some (s', next) => w <| srv := s' |> <| threads := <[t := next ++ rest]> (threads w) |>
      | None => w
      end
  | _ => w
  end.

Fixpoint takes (n : nat) (w : world) (t : nat) (e : answers) : world :=
  match n with O => w | S n => takes n (taken w t e) t e end.

Definition unused (w : world) (e : answers) : bool :=
  bool_decide (store (srv w) !! fresh e = None)
  && forallb (λ x : nat * Session, negb (String.eqb (Resource x.2) (minted e))) (map_to_list (store (srv w))).

Definition isInstall (w : world) (t : nat) : bool :=
  match threads w !! t with Some (Install _ _ :: _) => true | _ => false end.

Lemma unused_spec w e : unused w e = true ->
  store (srv w) !! fresh e = None /\ forall r x, store (srv w) !! r = Some x -> Resource x <> minted e.
Proof.
  unfold unused. rewrite andb_true_iff, bool_decide_eq_true, forallb_forall. intros [Hf Hall]. split; [done|].
  intros r x Hx. specialize (Hall (r, x)). cbn in Hall.
  assert (Hin : In (r, x) (map_to_list (store (srv w)))) by (by apply list_elem_of_In, elem_of_map_to_list).
  apply Hall in Hin. bool_hyps. done.
Qed.

Lemma taken_step w t e : negb (isInstall w t) || unused w e = true -> rtc step w (taken w t e).
Proof.
  unfold taken, isInstall. destruct (threads w !! t) as [[|a rest]|] eqn:Ht; try (by intros; apply rtc_refl).
  destruct (exec (srv w) a e) as [[s' next]|] eqn:E; intros Hu; [|apply rtc_refl].
  apply rtc_once, T_progress, (P_exec w t a rest e s' next); auto. intros ing p ->. by apply unused_spec.
Qed.

Fixpoint takes_ok (n : nat) (w : world) (t : nat) (e : answers) : bool :=
  match n with O => true | S n => (negb (isInstall w t) || unused w e) && takes_ok n (taken w t e) t e end.

Lemma takes_steps n w t e : takes_ok n w t e = true -> rtc step w (takes n w t e).
Proof.
  revert w. induction n as [|n IH]; intros w Hok; [apply rtc_refl|]. cbn in Hok. apply andb_true_iff in Hok as [H1 H2].
  etrans; [by apply (taken_step w t e)|]. by apply IH.
Qed.

Lemma spawned_step w t : threads w !! t = None -> step w (spawned w t).
Proof. intros Ht. by apply (T_publish w t (demoIngest, Config.RoleSender) (Some [["sendonly"]])). Qed.

(** About to install; published and heard; replaced after a new offer. *)
Definition demoBuilt : world := takes 3 (spawned start 0) 0 (demoAnswers 1 "one").
Definition demoOnAir : world :=
  let w := takes 4 demoBuilt 0 (demoAnswers 1 "one") in w <| srv := drain (srv w) 1 |>.
Definition demoTaken : world := takes 12 (spawned demoOnAir 1) 1 (demoAnswers 2 "two").

Lemma demoBuilt_reach : reach demoBuilt.
Proof. eapply rtc_l; [by apply (spawned_step start 0)|]. apply takes_steps. vm_compute. reflexivity. Qed.

Lemma demoOnAir_reach : reach demoOnAir.
Proof.
  eapply rtc_r; [|apply (T_drain _ 1)]. etrans; [exact demoBuilt_reach|]. apply takes_steps. vm_compute. reflexivity.
Qed.

Lemma demoTaken_reach : reach demoTaken.
Proof.
  etrans; [exact demoOnAir_reach|]. eapply rtc_l; [by apply (spawned_step demoOnAir 1)|].
  apply takes_steps. vm_compute. reflexivity.
Qed.

(** ** Witnesses *)
Lemma publisher_owns_camera_witness :
  exists x, store (srv demoOnAir) !! 1%nat = Some x /\ IngestID x = "cam"
    /\ sessions (srv demoOnAir) !! Resource x = Some 1%nat /\ byIngest (srv demoOnAir) !! "cam" = Some (Resource x).
Proof. apply (proj1 (publisher_owns_camera demoOnAir demoOnAir_reach)). left. vm_compute. reflexivity. Defined.

Lemma replacement_starts_clean_witness :
  relayed (srv demoOnAir) !! "cam" = Some 1%nat /\ relayed (srv demoTaken) !! "cam" = None.
Proof.
  split; [vm_compute; reflexivity|].
  apply (replacement_starts_clean demoTaken 1 "cam" 2 [] demoTaken_reach). vm_compute. reflexivity.
Defined.

Lemma goroutines_finish_witness :
  threads demoOnAir !! 0%nat = Some []
  /\ forall n w', nsteps progress n demoOnAir w' -> (n + measure w' <= 7)%nat.
Proof.
  split; [vm_compute; reflexivity|].
  exact (proj1 (goroutines_finish demoOnAir demoOnAir_reach)).
Defined.

Lemma closing_misses_negotiation_witness :
  CloseIngest (srv demoBuilt) "cam" = []
  /\ exists s', exec (srv demoBuilt) (Install "cam" 1) (demoAnswers 1 "one") = Some (s', [Answer "cam" 1])
       /\ store s' !! 1%nat = Some (mkSession "one" "cam" 1 Idle false) /\ currentLocked s' 1 = true.
Proof.
  apply (closing_misses_negotiation demoBuilt 0 "cam" 1 [] (demoAnswers 1 "one") demoBuilt_reach).
  - vm_compute. reflexivity.
  - reflexivity.
  - apply (unused_spec demoBuilt (demoAnswers 1 "one")). vm_compute. reflexivity.
  - apply (unused_spec demoBuilt (demoAnswers 1 "one")). vm_compute. reflexivity.
Defined.

End Whip.
