(* ===== verification/Stats.v ===== *)
(** * Ingest health ([src/internal/stats/stats.go])

    The registry is a map from cameras to counters.  What [relay.Relay.Stats]
    answers is the argument [hub]; the readings of the clock inside one call are
    one instant [now]. *)

From Corelib Require Import SpecFloat.
From Stdlib Require Import Sorted.
From S2P Require Import Prelude.
From S2P Require Import GoFloat.
From S2P Require Import DynamicDelay.
From S2P Require Import Relay.

Module Stats.

Definition window : duration := 5 * Second.
Definition sampleEvery : duration := 250 * Millisecond.
Definition adviceWindow : duration := 30 * Second.

Record sample := mkSample { at_ : time; bytes : Z }.

Record counter := mkCounter {
  samples : list sample;
  path : string;
  codec : string;
  pathsLive : Z;
  pathsTotal : Z;
  switches : Z;
  rtt : Z;
  lost : Z;
  started : time;
  live : bool;
  late : Z;
  dropped : Z;
  lastMoved : time;
  prevBad : Z;
  lastSkipped : time;
  prevSkipped : Z
}.

#[export] Instance eta_counter : Eta counter := fun c =>
  mkCounter (samples c) (path c) (codec c) (pathsLive c) (pathsTotal c) (switches c) (rtt c) (lost c) (started c)
    (live c) (late c) (dropped c) (lastMoved c) (prevBad c) (lastSkipped c) (prevSkipped c).

(** [&counter{}] *)
Definition zeroCounter : counter := mkCounter [] "" "" 0 0 0 0 0 0 false 0 0 0 0 0 0.

Abbreviation Registry := (gmap string counter).

Definition New : Registry := ∅.

Record Snapshot := mkSnapshot {
  Live : bool;
  Bitrate : Z;
  Late : Z;
  Dropped : Z;
  Since : Z;
  Advice : string;
  Path_ : string;
  Switches : Z;
  Codec_ : string;
  RTT : Z;
  Lost : Z;
  PathsLive : Z;
  PathsTotal : Z;
  Playout : option DynamicDelay.Status
}.

Definition zeroSnapshot : Snapshot := mkSnapshot false 0 0 0 0 "" "" 0 "" 0 0 0 0 None.

(** ** Operations of a counter *)
Definition observeBuffer (c : counter) (l d : Z) (now : time) : counter :=
  let c := c <| late := l |> <| dropped := d |> in
  let bad := u64 (l + d) in
  let c := if prevBad c <? bad then c <| prevBad := bad |> <| lastMoved := now |> else c in
  if prevSkipped c <? d then c <| prevSkipped := d |> <| lastSkipped := now |> else c.

(** The loop that drops samples older than the window. *)
Fixpoint expire (l : list sample) (cutoff : time) : list sample :=
  match l with
  | x :: ((_ :: _) as rest) => if Before (at_ x) cutoff then expire rest cutoff else l
  | _ => l
  end.

Definition observe (c : counter) (total : Z) (now : time) : counter :=
  if match last (samples c) with Some x => tsub now (at_ x) <? sampleEvery | None => false end then c
  else c <| samples := expire (samples c ++ [mkSample now total]) (tadd now (- window)) |>.

(** [Duration.Seconds] *)
Definition Seconds (d : duration) : F64.float64 :=
  F64.add (F64.of_Z (Z.quot d Second)) (F64.div (F64.of_Z (Z.rem d Second)) (F64.of_Z 1000000000)).

Definition bitrate (l : list sample) (now : time) : Z :=
  match l, last l with
  | first :: _ :: _, Some end_ =>
      if window <? tsub now (at_ end_) then 0
      else
        let seconds := Seconds (tsub (at_ end_) (at_ first)) in
        if SpecFloat.SFleb seconds (F64.of_Z 0) then 0
        else F64.to_i64 (F64.div (F64.div (F64.mul (F64.of_Z (u64 (bytes end_ - bytes first))) (F64.of_Z 8)) seconds)
                          (F64.of_Z 1000))
  | _, _ => 0
  end.

Definition advise (isLive : bool) (playout : option DynamicDelay.Status) (recent skipping : bool) : string :=
  if negb isLive || negb recent then ""
  else if match playout with Some st => DynamicDelay.StEnabled st | None => false end then
    if skipping then "The relay discarded packets during recovery."
    else "Packets have recently arrived after their slot."
  else if skipping then "Skipping to keyframes to keep up. Raise the delay for this camera."
  else "Packets are arriving after their slot. Raise the delay for this camera.".

(** ** Operations of the registry *)
Definition Publishing (r : Registry) (ingestID : string) (now : time) : Registry :=
  let fresh := zeroCounter <| started := now |> <| live := true |> in
  let fresh :=
    match r !! ingestID with
    | Some previous => fresh <| path := path previous |> <| switches := switches previous |> <| codec := codec previous |>
    | None => fresh
    end in
  <[ingestID := fresh]> r.

(** [Registry.playout]: the entry it leaves, and the status. *)
Definition playout (c : counter) (current : option Relay.Statistics) (now : time)
  : counter * option DynamicDelay.Status :=
  if live c then
    match current with
    | None => (c, None)
    | Some st => (observeBuffer c (Relay.Late st) (Relay.Dropped st) now, Relay.Playout st)
    end
  else (c, None).

Definition Stopped (hub : string -> option Relay.Statistics) (r : Registry) (ingestID : string) (now : time) : Registry :=
  match r !! ingestID with
  | None => r
  | Some entry => <[ingestID := (playout entry (hub ingestID) now).1 <| live := false |> <| samples := [] |>]> r
  end.

Definition entryOf (r : Registry) (ingestID : string) : counter := default zeroCounter (r !! ingestID).

Definition Path (r : Registry) (ingestID newPath : string) : Registry :=
  let entry := entryOf r ingestID in
  let entry :=
    if String.eqb (path entry) newPath then entry
    else
      (if negb (String.eqb (path entry) "") then entry <| switches := i64 (switches entry + 1) |> else entry)
        <| path := newPath |> in
  <[ingestID := entry]> r.

Definition Codec (r : Registry) (ingestID newCodec : string) : Registry :=
  <[ingestID := (entryOf r ingestID) <| codec := newCodec |>]> r.

Definition Pairs (r : Registry) (ingestID : string) (nlive total : Z) : Registry :=
  alter (λ entry, entry <| pathsLive := nlive |> <| pathsTotal := total |>) ingestID r.

Definition Link (r : Registry) (ingestID : string) (rttMS nlost : Z) : Registry :=
  alter (λ entry, entry <| rtt := rttMS |> <| lost := nlost |>) ingestID r.

Definition Observe (r : Registry) (ingestID : string) (total l d : Z) (now : time) : Registry :=
  alter (λ entry, observe (observeBuffer entry l d now) total now) ingestID r.

Definition ObserveBytes (r : Registry) (ingestID : string) (total : Z) (now : time) : Registry :=
  alter (λ entry, observe entry total now) ingestID r.

Definition Of (hub : string -> option Relay.Statistics) (r : Registry) (ingestID : string) (now : time)
  : Registry * Snapshot :=
  match r !! ingestID with
  | None => (r, zeroSnapshot)
  | Some entry =>
      let '(entry, status) := playout entry (hub ingestID) now in
      let since := if live entry then F64.to_i64 (Seconds (tsub now (started entry))) else 0 in
      let advice := advise (live entry) status (tsub now (lastMoved entry) <? adviceWindow)
                      (tsub now (lastSkipped entry) <? adviceWindow) in
      (<[ingestID := entry]> r,
       mkSnapshot (live entry) (bitrate (samples entry) now) (late entry) (dropped entry) since advice (path entry)
         (switches entry) (codec entry) (rtt entry) (lost entry) (pathsLive entry) (pathsTotal entry) status)
  end.

Fixpoint Report (hub : string -> option Relay.Statistics) (r : Registry) (ingestIDs : list string) (now : time)
  (out : gmap string Snapshot) : Registry * gmap string Snapshot :=
  match ingestIDs with
  | [] => (r, out)
  | id :: ids => let '(r, snap) := Of hub r id now in Report hub r ids now (<[id := snap]> out)
  end.

(** ** Histories *)
Inductive op :=
  | OPublishing (id : string) (now : time)
  | OStopped (id : string) (now : time) (current : option Relay.Statistics)
  | OPath (id newPath : string)
  | OCodec (id newCodec : string)
  | OPairs (id : string) (nlive total : Z)
  | OLink (id : string) (rttMS nlost : Z)
  | OObserve (id : string) (total l d : Z) (now : time)
  | OObserveBytes (id : string) (total : Z) (now : time)
  | OOf (id : string) (now : time) (current : option Relay.Statistics).

Definition perform (r : Registry) (o : op) : Registry :=
  match o with
  | OPublishing id now => Publishing r id now
  | OStopped id now current => Stopped (λ _, current) r id now
  | OPath id p => Path r id p
  | OCodec id c => Codec r id c
  | OPairs id l n => Pairs r id l n
  | OLink id ms n => Link r id ms n
  | OObserve id total l d now => Observe r id total l d now
  | OObserveBytes id total now => ObserveBytes r id total now
  | OOf id now current => (Of (λ _, current) r id now).1
  end.

Definition history (ops : list op) : Registry := fold_left perform ops New.

(** ** The sampling window *)
Definition spaced (x y : sample) : Prop := at_ x + sampleEvery <= at_ y.

Definition windowed (l : list sample) : Prop :=
  Sorted spaced l /\ forall x y, head l = Some x -> last l = Some y -> at_ y - at_ x <= window.

Lemma spaced_snoc l x : Sorted spaced l -> (forall y, last l = Some y -> spaced y x) -> Sorted spaced (l ++ [x]).
Proof.
  induction l as [|a l IH]; intros Hs Hl; [repeat constructor|]. apply Sorted_inv in Hs as [Hs Hh]. cbn. constructor.
  - apply IH; [done|]. intros y Hy. apply Hl. destruct l; [done|exact Hy].
  - destruct l as [|b l]; constructor; [by apply Hl|]. by inversion Hh.
Qed.

(** The loop keeps a suffix that starts inside the window. *)
Lemma expire_spec l cutoff :
  Sorted spaced l -> exists k, expire l cutoff = drop k l /\ last (expire l cutoff) = last l
    /\ Sorted spaced (expire l cutoff)
    /\ forall x, head (expire l cutoff) = Some x -> cutoff <= at_ x \/ last l = Some x.
Proof.
  induction l as [|a l IH]; intros Hs; [by exists 0%nat|]. destruct l as [|b l].
  { exists 0%nat. split_and!; try done. intros x [= <-]. by right. }
  cbn [expire]. unfold Before. destruct (Z.ltb_spec (at_ a) cutoff).
  - apply Sorted_inv in Hs as [Hs _]. destruct (IH Hs) as (k & Hk & Hl & Hs' & Hx). exists (S k). by split_and!.
  - exists 0%nat. split_and!; try done. intros x [= <-]. by left.
Qed.

Lemma observe_windowed c total now : windowed (samples c) -> windowed (samples (observe c total now)).
Proof.
  intros [Hs Hw]. unfold observe. destruct (match last (samples c) with Some _ => _ | _ => _ end) eqn:E; [done|]. cbn.
  assert (Hs' : Sorted spaced (samples c ++ [mkSample now total])).
  { apply spaced_snoc; [done|]. intros y Hy. rewrite Hy in E. apply Z.ltb_ge in E. unfold spaced. cbn.
    unfold tsub, sampleEvery, Millisecond in *. lia. }
  destruct (expire_spec _ (tadd now (- window)) Hs') as (k & _ & Hl & Hsort & Hx). split; [done|].
  intros x y Hhd Hlast. rewrite Hl, last_snoc in Hlast. injection Hlast as <-. cbn.
  destruct (Hx x Hhd) as [?|Hlast]; [unfold tadd in *; lia|]. rewrite last_snoc in Hlast. injection Hlast as <-.
  cbn. unfold window, Second. lia.
Qed.

Lemma windowed_nil : windowed [].
Proof. by split; [constructor|]. Qed.

Lemma observeBuffer_samples c l d now : samples (observeBuffer c l d now) = samples c.
Proof. unfold observeBuffer. cases_if; done. Qed.

Lemma playout_samples c current now : samples (playout c current now).1 = samples c.
Proof. unfold playout. destruct (live c), current; cbn; try done. apply observeBuffer_samples. Qed.

Definition all_windowed (r : Registry) : Prop := map_Forall (λ _ c, windowed (samples c)) r.

Lemma entryOf_windowed r id : all_windowed r -> windowed (samples (entryOf r id)).
Proof.
  intros H. unfold entryOf. destruct (r !! id) as [c|] eqn:E; cbn; [by apply (H id)|apply windowed_nil].
Qed.

Lemma alter_windowed r id f :
  all_windowed r -> (forall c, windowed (samples c) -> windowed (samples (f c))) -> all_windowed (alter f id r).
Proof.
  intros H Hf i c. rewrite lookup_alter_Some. intros [(-> & c' & Hc & ->)|[_ Hc]]; [|by apply (H i)]. by eapply Hf, (H i).
Qed.

Lemma perform_windowed r o : all_windowed r -> all_windowed (perform r o).
Proof.
  intros H. destruct o as [id now|id now current|id p|id k|id l n|id ms n|id total l d now|id total now|id now current]; cbn.
  - apply map_Forall_insert_2; [|done]. destruct (r !! id); apply windowed_nil.
  - unfold Stopped. destruct (r !! id); [|done]. apply map_Forall_insert_2; [apply windowed_nil|done].
  - apply map_Forall_insert_2; [|done]. pose proof (entryOf_windowed r id H). cases_if; done.
  - apply map_Forall_insert_2; [|done]. by apply (entryOf_windowed r id).
  - by apply alter_windowed.
  - by apply alter_windowed.
  - apply alter_windowed; [done|]. intros c Hc. apply observe_windowed. by rewrite observeBuffer_samples.
  - apply alter_windowed; [done|]. intros c Hc. by apply observe_windowed.
  - unfold Of. destruct (r !! id) as [c|] eqn:E; [|done]. pose proof (playout_samples c current now) as Hs.
    destruct (playout c current now) as [c' st]. cbn in *. apply map_Forall_insert_2; [|done]. rewrite Hs. by apply (H id).
Qed.

Lemma history_windowed ops : all_windowed (history ops).
Proof.
  unfold history. assert (Hn : all_windowed New) by apply map_Forall_empty. revert Hn. generalize New.
  induction ops as [|o ops IH]; intros r Hr; [done|]. apply IH. by apply perform_windowed.
Qed.

(** Spaced samples in a short window are few. *)
Lemma spaced_length l x y :
  Sorted spaced l -> head l = Some x -> last l = Some y -> (Z.of_nat (length l) - 1) * sampleEvery <= at_ y - at_ x.
Proof.
  revert x. induction l as [|a l IH]; intros x Hs Hh Hl; [done|]. injection Hh as <-. apply Sorted_inv in Hs as [Hs Hd].
  destruct l as [|b l]; [injection Hl as <-; cbn; lia|]. specialize (IH b Hs eq_refl Hl). inversion Hd; subst. unfold spaced in *.
  cbn [length] in *. unfold sampleEvery, Millisecond in *. lia.
Qed.

Lemma windowed_length l : windowed l -> (length l <= 21)%nat.
Proof.
  intros [Hs Hw]. destruct l as [|a l]; [cbn; lia|]. destruct (last (a :: l)) as [y|] eqn:Hl; [|by apply last_None in Hl].
  pose proof (spaced_length _ a y Hs eq_refl Hl). specialize (Hw a y eq_refl eq_refl).
  unfold sampleEvery, window, Millisecond, Second in *. lia.
Qed.

(** ** Path switches *)

(** The paths reported for a camera, in order. *)
Definition pathsOf (id : string) (ops : list op) : list string :=
  omap (λ o, match o with OPath i p => if String.eqb i id then Some p else None | _ => None end) ops.

(** How often a path differs from the one before it. *)
Definition changes (l : list string) : nat :=
  length (filter (λ pq : string * string, pq.1 <> pq.2) (zip l (tail l))).

Lemma changes_snoc l p :
  changes (l ++ [p]) = (changes l + match last l with Some q => if String.eqb q p then 0 else 1 | None => 0 end)%nat.
Proof.
  unfold changes. induction l as [|a l IH]; [done|]. destruct l as [|b l].
  - cbn. destruct (String.eqb_spec a p), (decide _); done.
  - change (last (a :: b :: l)) with (last (b :: l)).
    change (zip ((a :: b :: l) ++ [p]) (tail ((a :: b :: l) ++ [p]))) with ((a, b) :: zip ((b :: l) ++ [p]) (tail ((b :: l) ++ [p]))).
    change (zip (a :: b :: l) (tail (a :: b :: l))) with ((a, b) :: zip (b :: l) (tail (b :: l))).
    rewrite !filter_cons. destruct (decide _); cbn [length]; rewrite IH; lia.
Qed.

Lemma entryOf_insert r id c i : entryOf (<[id := c]> r) i = if String.eqb id i then c else entryOf r i.
Proof.
  unfold entryOf. destruct (String.eqb_spec id i) as [<-|]; [by rewrite lookup_insert_eq|by rewrite lookup_insert_ne].
Qed.

Lemma entryOf_alter r id f i :
  entryOf (alter f id r) i = if String.eqb id i && bool_decide (is_Some (r !! i)) then f (entryOf r i) else entryOf r i.
Proof.
  unfold entryOf. destruct (String.eqb_spec id i) as [<-|]; cbn; [rewrite lookup_alter_eq|by rewrite lookup_alter_ne].
  destruct (r !! id); cbn; done.
Qed.

Lemma observeBuffer_path c l d now :
  path (observeBuffer c l d now) = path c /\ switches (observeBuffer c l d now) = switches c.
Proof. unfold observeBuffer. cases_if; done. Qed.

Lemma observe_path c total now : path (observe c total now) = path c /\ switches (observe c total now) = switches c.
Proof. unfold observe. cases_if; done. Qed.

Lemma playout_path c current now :
  path (playout c current now).1 = path c /\ switches (playout c current now).1 = switches c.
Proof. unfold playout. destruct (live c), current; cbn; try done. apply observeBuffer_path. Qed.

(** No operation but [Path] touches the path, a reconnect included. *)
Lemma perform_path r o id :
  pathsOf id [o] = [] ->
  path (entryOf (perform r o) id) = path (entryOf r id) /\ switches (entryOf (perform r o) id) = switches (entryOf r id).
Proof.
  intros Ho. destruct o as [i now|i now current|i p|i k|i l n|i ms n|i total l d now|i total now|i now current]; cbn.
  - unfold Publishing. rewrite entryOf_insert. destruct (String.eqb_spec i id) as [->|]; [|done]. unfold entryOf. by destruct (r !! id).
  - unfold Stopped. destruct (r !! i) as [c|] eqn:E; [|done]. rewrite entryOf_insert. destruct (String.eqb_spec i id) as [->|]; [|done].
    cbn. unfold entryOf. rewrite E. apply playout_path.
  - unfold Path. rewrite entryOf_insert. cbn in Ho. by destruct (String.eqb i id).
  - unfold Codec. rewrite entryOf_insert. destruct (String.eqb_spec i id) as [->|]; done.
  - unfold Pairs. rewrite entryOf_alter. by cases_if.
  - unfold Link. rewrite entryOf_alter. by cases_if.
  - unfold Observe. rewrite entryOf_alter. cases_if; [|done]. destruct (observe_path (observeBuffer (entryOf r id) l d now) total now) as [-> ->].
    apply observeBuffer_path.
  - unfold ObserveBytes. rewrite entryOf_alter. cases_if; [|done]. apply observe_path.
  - unfold Of. destruct (r !! i) as [c|] eqn:E; [|done]. pose proof (playout_path c current now) as Hp.
    destruct (playout c current now) as [c' st]. cbn in *. rewrite entryOf_insert.
    destruct (String.eqb_spec i id) as [->|]; [|done]. unfold entryOf. by rewrite E.
Qed.

Lemma changes_le l : (changes l <= length l)%nat.
Proof.
  unfold changes. etrans; [apply length_filter|]. rewrite length_zip_with. lia.
Qed.

Lemma pathsOf_snoc id ops o : pathsOf id (ops ++ [o]) = pathsOf id ops ++ pathsOf id [o].
Proof. apply omap_app. Qed.

Lemma pathsOf_length id ops : (length (pathsOf id ops) <= length ops)%nat.
Proof. unfold pathsOf. induction ops as [|o ops IH]; cbn; [lia|]. destruct o; cbn; cases_if; cbn; lia. Qed.

(** ** Claims *)

(** The bitrate window stays small.  Whatever is observed, at whatever times,
    the samples of a camera are at least a quarter of a second apart, span at most
    five seconds and are at most 21. *)
Theorem samples_bounded ops id c :
  history ops !! id = Some c ->
  Sorted spaced (samples c) /\ (forall x y, head (samples c) = Some x -> last (samples c) = Some y -> at_ y - at_ x <= window)
  /\ (length (samples c) <= 21)%nat.
Proof.
  intros Hc. pose proof (history_windowed ops id c Hc) as Hw. split; [apply Hw|]. split; [apply Hw|by apply windowed_length].
Qed.

(** C36: the switch counter is the number of changes in the sequence of paths
    reported for the camera, the first path not being a change; reconnects, stops
    and everything else that happens to the camera or to others leave it alone. *)
Theorem switches_count_changes ops id :
  (forall p, p ∈ pathsOf id ops -> p <> "") -> Z.of_nat (length ops) < 2 ^ 63 ->
  switches (entryOf (history ops) id) = Z.of_nat (changes (pathsOf id ops))
  /\ path (entryOf (history ops) id) = default "" (last (pathsOf id ops)).
Proof.
  induction ops as [|o ops IH] using rev_ind; intros Hp Hlen; [done|].
  rewrite pathsOf_snoc in Hp |- *. rewrite length_app in Hlen. cbn in Hlen.
  destruct IH as [IH1 IH2]; [intros p Hin; apply Hp, elem_of_app; by left|lia|].
  unfold history in *. rewrite fold_left_app. cbn [fold_left].
  set (r := fold_left perform ops New) in *. destruct (pathsOf id [o]) as [|p l] eqn:Ep.
  { rewrite app_nil_r. destruct (perform_path r o id Ep) as [-> ->]. done. }
  destruct o as [| |i q| | | | | |]; try done. cbn in Ep. destruct (String.eqb_spec i id) as [->|]; [|done].
  injection Ep as -> <-. cbn [perform]. unfold Path. rewrite entryOf_insert, String.eqb_refl, changes_snoc, last_snoc. cbn [default].
  generalize dependent (entryOf r id). intros e IH1 IH2. rewrite IH2. pose proof (changes_le (pathsOf id ops)). pose proof (pathsOf_length id ops).
  destruct (last (pathsOf id ops)) as [q|] eqn:El; cbn.
  - assert (q <> "") by (apply Hp, elem_of_app; left; by apply last_Some_elem_of).
    destruct (String.eqb_spec q p) as [->|]; cbn; [rewrite IH1, IH2, ?El; split; [lia|done]|].
    destruct (String.eqb_spec q ""); [done|]. cbn. rewrite IH1, i64_small; [split; [lia|done]|]. unfold is_i64. lia.
  - destruct p as [|a p]; [destruct (Hp ""); [apply elem_of_app; right; by left|done]|]. cbn. rewrite IH1. split; [lia|done].
Qed.

(** A reconnect brings back trouble that was over.  A camera whose counters
    have not moved for thirty seconds shows no advice; the same camera, after its
    connection has gone to connected again, shows the advice although the counters
    of the buffer still have not moved. *)
Theorem reconnect_revives_old_trouble r id c st t now :
  r !! id = Some c -> live c = true -> prevBad c = u64 (Relay.Late st + Relay.Dropped st) ->
  0 < u64 (Relay.Late st + Relay.Dropped st) -> adviceWindow <= tsub now (lastMoved c) ->
  Advice (Of (λ _, Some st) r id now).2 = ""
  /\ Advice (Of (λ _, Some st) (Publishing r id t) id now).2 <> "".
Proof.
  intros Hc Hl Hb Hpos Hold. split.
  - unfold Of. rewrite Hc. unfold playout. rewrite Hl. unfold observeBuffer. cbn. rewrite Hb, Z.ltb_irrefl.
    assert (E : (tsub now (lastMoved c) <? adviceWindow) = false) by lia.
    unfold advise. cases_if; cbn in *; rewrite ?E in *; rewrite ?orb_true_r in *; done.
  - unfold Of, Publishing. rewrite lookup_insert_eq. unfold playout.
    rewrite Hc in *. cbn. unfold observeBuffer. cbn. apply Z.ltb_lt in Hpos. rewrite Hpos. cbn.
    assert (E : (tsub now now <? adviceWindow) = true) by (unfold tsub, adviceWindow, Second; lia). unfold advise.
    cases_if; cbn in *; rewrite ?E in *; done.
Qed.

(** ** A camera that streams, has trouble, changes path and recovers *)
Definition demoNow : time := 1000 * Second.
Definition demoTrouble : Relay.Statistics := Relay.mkStatistics None 3 0.

Definition demoOps : list op :=
  [OPath "cam" "wifi"; OPublishing "cam" demoNow; OObserveBytes "cam" 1000 demoNow;
   OObserveBytes "cam" 1500 (demoNow + 100 * Millisecond); OObserveBytes "cam" 2000 (demoNow + Second);
   OPath "cam" "5g"; OPath "cam" "5g"; OPath "other" "wifi"; OOf "cam" (demoNow + Second) (Some demoTrouble);
   OPublishing "cam" (demoNow + 2 * Second); OPath "cam" "wifi";
   OObserveBytes "cam" 125000 (demoNow + 2 * Second); OObserveBytes "cam" 250000 (demoNow + 3 * Second);
   OOf "cam" (demoNow + 3 * Second) (Some demoTrouble)].

(** One megabit in one second. *)
Example demo_bitrate : Bitrate (Of (λ _, None) (history demoOps) "cam" (demoNow + 3 * Second)).2 = 1000.
Proof. vm_compute. reflexivity. Qed.

Definition demoCounter : counter := entryOf (history demoOps) "cam".

Lemma samples_bounded_witness : length (samples demoCounter) = 2%nat /\ (length (samples demoCounter) <= 21)%nat.
Proof.
  split; [vm_compute; reflexivity|].
  apply (proj2 (samples_bounded demoOps "cam" demoCounter ltac:(vm_compute; reflexivity))).
Defined.

Lemma switches_count_changes_witness : switches demoCounter = 2 /\ path demoCounter = "wifi".
Proof.
  apply (switches_count_changes demoOps "cam"); [|vm_compute; reflexivity].
  intros p Hp. assert (E : pathsOf "cam" demoOps = ["wifi"; "5g"; "5g"; "wifi"]) by reflexivity. rewrite E in Hp.
  rewrite !elem_of_cons, elem_of_nil in Hp. intros ->. naive_solver.
Defined.

Lemma reconnect_revives_old_trouble_witness :
  Advice (Of (λ _, Some demoTrouble) (history demoOps) "cam" (demoNow + 60 * Second)).2 = ""
  /\ Advice (Of (λ _, Some demoTrouble) (Publishing (history demoOps) "cam" (demoNow + 60 * Second)) "cam" (demoNow + 60 * Second)).2 <> "".
Proof.
  apply (reconnect_revives_old_trouble (history demoOps) "cam" demoCounter demoTrouble); vm_compute; congruence.
Defined.

End Stats.
