(* ===== verification/Pipeline.v ===== *)
(** * From the network to the viewers ([drain] and [drainRTCP] of
    [ingest/whip.go], [Feed] of [relay/relay.go])

    A publisher's session has one set of goroutines per track: [drain] reads
    packets, counts their bytes and pushes them into the track's buffer; [drainRTCP]
    passes sender reports on; [Feed] takes packets out of the buffer and writes them
    to the viewers, beside a goroutine that corrects the clocks.  [turn] takes one
    goroutine of a track to its next step, [step] interleaves the tracks of a
    session, which share the byte counter, with the session's callbacks and its end.
    All of them write to the dashboard, and so do others.  Packets, reports, states
    of the connection and the fate of writes are what the WebRTC library answered. *)

From S2P Require Import Prelude.
From S2P Require Import Keyframe.
From S2P Require Import Heap.
From S2P Require Import DynamicDelay.
From S2P Require Import Buffer.
From S2P Require Import Relay.
From S2P Require Import Stats.
From stdpp Require Import relations.

Local Open Scope Z_scope.

Module Pipeline.

(** ** The goroutines of a track *)

(** [drain]: in [ReadRTP]; the bytes of a packet counted; the packet pushed and the
    dashboard not told yet; returned. *)
Inductive readerPhase := Reading | Counted (p : Packet) | Pushed | ReaderDone.

(** [Feed]: in [Pop]; in [WriteRTP]; returned. *)
Inductive feedPhase := Popping | Writing (p : Packet) | FeedDone.

(** [ctl] is the controller the tracks of the camera share, as this track sees it;
    [stop] is the channel [Feed] closes, [ticking] the goroutine that waits for it.
    [received] are the packets pushed while the buffer was open, [written] those given
    to the viewers' track, [failed] the errors reported. *)
Record track := mkTrack {
  video : bool;
  ssrc : Z;
  buf : Buffer.Buffer;
  ctl : DynamicDelay.Controller;
  reader : readerPhase;
  listening : bool;
  feeder : feedPhase;
  stop : bool;
  ticking : bool;
  received : list Packet;
  written : list Packet;
  failed : nat
}.

#[export] Instance eta_track : Eta track := fun t =>
  mkTrack (video t) (ssrc t) (buf t) (ctl t) (reader t) (listening t) (feeder t) (stop t) (ticking t) (received t) (written t) (failed t).

(** What [drain] starts once the buffer is tracked. *)
Definition newTrack (isVideo : bool) (s : Z) (b : Buffer.Buffer) (c : DynamicDelay.Controller) : track :=
  mkTrack isVideo s b c Reading true Popping false true [] [] 0.

(** An RTCP packet: a sender report with its SSRC and clocks, or another. *)
Inductive rtcp := SenderReport (reportSSRC rtpTime ntpTime : Z) | OtherPacket.

(** One round of [drainRTCP]. *)
Fixpoint drainRTCP (s : Z) (b : Buffer.Buffer) (packets : list rtcp) : option Buffer.Buffer :=
  match packets with
  | [] => Some b
  | SenderReport r t n :: rest =>
      if r =? s then b ← Buffer.SenderReport b t n; drainRTCP s b rest else drainRTCP s b rest
  | OtherPacket :: rest => drainRTCP s b rest
  end.

(** What the relay does to a buffer for the camera as a whole: new delays, clock
    corrections and alignments, the sampling of lateness, jumps of other tracks. *)
Definition relayOp (o : Buffer.op) : Prop :=
  match o with
  | Buffer.OSetTarget _ | Buffer.OCorrection | Buffer.OAlign _ _ | Buffer.OMove _ _ | Buffer.OSample _ | Buffer.OAttach _ _ _
  | Buffer.OControl _ => Buffer.valid o
  | _ => False
  end.

(** A call on the buffer; there is no room in memory for [2^63] packets. *)
Definition acts (t : track) (o : Buffer.op) (t' : track) (inn out : list Packet) : Prop :=
  Buffer.fits (buf t)
  /\ exists b c, Buffer.step (buf t) (ctl t) o = Some (b, c, inn, out) /\ t' = t <| buf := b |> <| ctl := c |>.

Definition afterPop (t : track) (b : Buffer.Buffer) (r : Buffer.turn) : track :=
  match r with
  | Buffer.Deliver p => t <| buf := b |> <| feeder := Writing p |>
  | Buffer.Ended => t <| buf := b |> <| feeder := FeedDone |> <| stop := true |>
  | _ => t <| buf := b |>
  end.

Inductive turn : track -> track -> Prop :=
  (* drain *)
  | T_push t p t0 t1 now t' inn out : reader t = Counted p -> acts t (Buffer.OPush p t0 t1 now) t' inn out ->
      turn t (t' <| reader := Pushed |> <| received := received t ++ inn |>)
  | T_end t now t' inn out : reader t = Reading -> acts t (Buffer.OClose now) t' inn out -> turn t (t' <| reader := ReaderDone |>)
  (* drainRTCP *)
  | T_rtcp t packets b : listening t = true -> drainRTCP (ssrc t) (buf t) packets = Some b -> turn t (t <| buf := b |>)
  | T_rtcpEnd t : listening t = true -> turn t (t <| listening := false |>)
  (* Feed *)
  | T_pop t now b r : feeder t = Popping -> Buffer.fits (buf t) -> Buffer.pop_turn (buf t) (ctl t) now = Some (b, r) -> turn t (afterPop t b r)
  | T_write t p (ok : bool) : feeder t = Writing p ->
      turn t (t <| feeder := Popping |> <| written := written t ++ [p] |> <| failed := (failed t + if ok then 0 else 1)%nat |>)
  | T_tick t o t' inn out : ticking t = true -> relayOp o -> acts t o t' inn out -> turn t t'
  | T_stop t : ticking t = true -> stop t = true -> turn t (t <| ticking := false |>)
  (* the relay, on behalf of other tracks and of the settings *)
  | T_relay t o t' inn out : relayOp o -> acts t o t' inn out -> turn t t'.

(** ** The session *)

(** [stopSession]: not begun; [ended] set by a session that owned its camera, the
    dashboard not told yet; past the dashboard. *)
Inductive stopper := Running | Ending | Ended.

(** [current]: the session owns its camera ([currentLocked]); [sum] is the exact
    number of bytes behind the counter, [log] what the session wrote to the
    dashboard, the newest first. *)
Record session := mkSession {
  ingest : string;
  bytes : Z;
  current : bool;
  stopping : stopper;
  registry : Stats.Registry;
  tracks : list track;
  sum : Z;
  log : list Stats.op
}.

#[export] Instance eta_session : Eta session := fun s =>
  mkSession (ingest s) (bytes s) (current s) (stopping s) (registry s) (tracks s) (sum s) (log s).

(** A write of the session to the dashboard. *)
Definition write (s : session) (o : Stats.op) : session :=
  s <| registry := Stats.perform (registry s) o |> <| log := o :: log s |>.

(** The sections under the server's lock that write only when the session is
    current. *)
Definition guarded (s : session) (ops : list Stats.op) : session :=
  if current s then fold_left write ops s else s.

(** The section of [drain] behind [Push]. *)
Definition observe (s : session) (t : track) (now : time) : session :=
  let total := bytes s in
  guarded s
    [if video t then let '(late, dropped) := Buffer.Stats (buf t) in Stats.OObserve (ingest s) total late dropped now
     else Stats.OObserveBytes (ingest s) total now].

(** The beginning of [drain], up to the relay: the codec of a video track. *)
Definition announce (s : session) (isVideo : bool) (label : string) : session :=
  guarded s (if isVideo then [Stats.OCodec (ingest s) label] else []).

(** The callbacks: the connection is established, the selected pair changes, and
    a round of [watchPairs]. *)
Definition connected (s : session) (now : time) : session := guarded s [Stats.OPublishing (ingest s) now].

Definition onPath (s : session) (path : string) : session := guarded s [Stats.OPath (ingest s) path].

Definition pairs (s : session) (live total rttMS lost : Z) : session :=
  guarded s [Stats.OPairs (ingest s) live total; Stats.OLink (ingest s) rttMS lost].

(** [stopSession], by its sections up to [Stats.Stopped]. *)
Definition endSession (s : session) : session :=
  s <| current := false |> <| stopping := if current s then Ending else Ended |>.

Definition tellStopped (s : session) (now : time) (hub : option Relay.Statistics) : session :=
  (write s (Stats.OStopped (ingest s) now hub)) <| stopping := Ended |>.

Definition setTrack (s : session) (i : nat) (t : track) : session := s <| tracks := <[i := t]> (tracks s) |>.

(** A track whose loop begins, its buffer new. *)
Definition started (t : track) : Prop :=
  exists isVideo s target rate mime askKeyframe c,
    0 <= target <= DynamicDelay.tenSeconds /\ 0 < rate < 4294967296
    /\ t = newTrack isVideo s (Buffer.NewBuffer target rate mime askKeyframe) c.

(** [S_refused] is a track the relay could not publish; [S_replaced] the loss of the
    camera to another session; [S_others] what everyone else does to the dashboard. *)
Inductive step : session -> session -> Prop :=
  | S_start s t label : current s = true -> started t ->
      step s ((announce s (video t) label) <| tracks := tracks s ++ [t] |>)
  | S_refused s isVideo label : step s (announce s isVideo label)
  | S_turn s i t t' : tracks s !! i = Some t -> turn t t' -> step s (setTrack s i t')
  | S_count s i t p size : tracks s !! i = Some t -> reader t = Reading -> 0 <= size ->
      step s ((setTrack s i (t <| reader := Counted p |>)) <| bytes := u64 (bytes s + size) |> <| sum := sum s + size |>)
  | S_observe s i t now : tracks s !! i = Some t -> reader t = Pushed ->
      step s (setTrack (observe s t now) i (t <| reader := Reading |>))
  | S_connected s now : step s (connected s now)
  | S_path s path : step s (onPath s path)
  | S_pairs s live total rttMS lost : step s (pairs s live total rttMS lost)
  | S_replaced s : step s (s <| current := false |>)
  | S_end s : stopping s = Running -> step s (endSession s)
  | S_stopped s now hub : stopping s = Ending -> step s (tellStopped s now hub)
  | S_others s o : step s (s <| registry := Stats.perform (registry s) o |>).

Definition opened (ing : string) (r : Stats.Registry) : session := mkSession ing 0 true Running r [] 0 [].

Definition reach (ing : string) (r : Stats.Registry) : session -> Prop := rtc step (opened ing r).

(** ** What calls do to [closed] *)
Lemma dynamicOffset_closed b c now : Buffer.closed (Buffer.dynamicOffsetLocked b c now).1 = Buffer.closed b.
Proof. unfold Buffer.dynamicOffsetLocked. destruct (Buffer.dynamic b), (DynamicDelay.state c); try done. cbn. by destruct (_ =? _). Qed.

Lemma dynamicArrival_closed b c p now b' c' playAt offset stale :
  Buffer.dynamicArrivalLocked b c p now = Some (b', c', playAt, offset, stale) -> Buffer.closed b' = Buffer.closed b.
Proof.
  unfold Buffer.dynamicArrivalLocked. pose proof (dynamicOffset_closed b c now) as H1. destruct (Buffer.dynamicOffsetLocked b c now) as [b1 o1]. cbn in H1.
  destruct (Buffer.playoutOf b1 _) as [pl|]; [|done]. obind.
  assert (H2 : forall b2 st, (if Before (tadd pl (dsub 0 (Buffer.target b1))) (Buffer.cutoff b1) then (b1, true)
    else Buffer.staleResetPacketLocked b1 (SequenceNumber p) pl now o1) = (b2, st) -> Buffer.closed b2 = Buffer.closed b).
  { intros b2 st. unfold Buffer.staleResetPacketLocked. cases_if; intros [= <- _]; done. }
  destruct (if Before _ _ then _ else _) as [b2 st]. specialize (H2 b2 st eq_refl). destruct st; [by intros [= <- _ _ _ _]|].
  destruct (Buffer.jumpsAt b2 c p) as [jump|]; [|done]. obind. destruct jump; [|by intros [= <- _ _ _ _]].
  set (c2 := DynamicDelay.JumpTo _ _ _). pose proof (dynamicOffset_closed b2 c2 now) as H3. destruct (Buffer.dynamicOffsetLocked b2 c2 now) as [b3 o3]. cbn in H3.
  destruct (Buffer.playoutOf b3 _); [|done]. obind. intros [= <- _ _ _ _]. congruence.
Qed.

Lemma Push_closed b c p t0 t1 now b' c' f : Buffer.Push b c p t0 t1 now = Some (b', c', f) -> Buffer.closed b' = Buffer.closed b.
Proof.
  unfold Buffer.Push. destruct (Buffer.closed b) eqn:Ec; [by intros [= <- _ _]|].
  assert (Ha : Buffer.closed (Buffer.anchor b c p t0 t1) = false).
  { unfold Buffer.anchor. destruct (Buffer.based b); [done|]. pose proof (dynamicOffset_closed b c t0) as H1. destruct (Buffer.dynamicOffsetLocked b c t0). cbn in *. congruence. }
  destruct (Buffer.dynamicArrivalLocked _ _ _ _) as [[[[[b1 c1] pl] off] stale]|] eqn:Ed; [|done]. obind. apply dynamicArrival_closed in Ed. rewrite Ha in Ed.
  destruct stale; [by intros [= <- _ _]|]. set (b2 := if 0 <? _ then _ else b1).
  assert (H2 : Buffer.closed b2 = false) by (subst b2; by destruct (0 <? _)). clearbody b2.
  destruct (if Buffer.catchUp b2 then Keyframe.isKeyframe _ _ else Some true) as [key|]; [|done]. obind. destruct (_ && _); [by intros [= <- _ _]|].
  set (b3 := if Buffer.catchUp b2 then _ else b2). assert (H3 : Buffer.closed b3 = false) by (subst b3; by destruct (Buffer.catchUp b2)). clearbody b3.
  unfold Buffer.enqueue. destruct (Heap.push _ _) as [[q first]|]; [|done]. obind. intros [= <- _ _]. by cases_if.
Qed.

Lemma pop_turn_closed b c now b' r : Buffer.pop_turn b c now = Some (b', r) -> Buffer.closed b' = Buffer.closed b.
Proof.
  unfold Buffer.pop_turn. destruct (_ && _); [by intros [= <- _]|]. destruct (_ =? _)%nat; [by intros [= <- _]|].
  pose proof (dynamicOffset_closed b c now) as H1. destruct (Buffer.dynamicOffsetLocked b c now) as [b1 o]. cbn in H1.
  destruct (_ =? _)%nat; [by intros [= <- _]|]. destruct (Buffer.queue b1 !! 0%nat) as [hd|] eqn:Eq; [|done]. obind. destruct (_ <=? 0); [|by intros [= <- _]].
  destruct (Buffer.paceHoldLocked b1 now _) as [[b2 hold]|] eqn:Eh; [|done]. obind.
  assert (H2 : Buffer.closed b2 = Buffer.closed b1).
  { unfold Buffer.paceHoldLocked in Eh. rewrite Eq in Eh. cbn [mbind option_bind] in Eh. unfold Buffer.startGroupLocked in Eh. revert Eh. cases_if; intros [= <- _]; cases_if; done. }
  destruct (0 <? hold); [intros [= <- _]; congruence|]. destruct (Heap.pop _) as [[top q]|]; [|done]. obind. intros [= <- _].
  unfold Buffer.chargePaceLocked. cases_if; cbn; congruence.
Qed.

Lemma SenderReport_closed b t n b' : Buffer.SenderReport b t n = Some b' -> Buffer.closed b' = Buffer.closed b.
Proof.
  unfold Buffer.SenderReport. destruct (_ || _); [by intros [= <-]|]. destruct (Buffer.ticksDuration _ _); [|done]. obind. intros [= <-]. by cases_if.
Qed.

Lemma relayOp_closed b c o b' c' inn out :
  relayOp o -> Buffer.step b c o = Some (b', c', inn, out) -> Buffer.closed b' = Buffer.closed b.
Proof.
  destruct o; try done; intros _; cbn [Buffer.step]; intros [= <- _ _ _]; try done.
  - unfold Buffer.senderCorrectionLocked. by cases_if.
  - unfold Buffer.alignSenderClockLocked, Buffer.moveClockLocked. by cases_if.
  - unfold Buffer.moveClockLocked. by destruct reset.
  - cbn. apply dynamicOffset_closed.
Qed.

Lemma relayOp_silent b c o b' c' inn out : relayOp o -> Buffer.step b c o = Some (b', c', inn, out) -> inn = [] /\ out = [] /\ Buffer.valid o.
Proof. destruct o; try done; cbn; intros Hv [= _ _ <- <-]; done. Qed.

Lemma drainRTCP_closed s packets b b' : drainRTCP s b packets = Some b' -> Buffer.closed b' = Buffer.closed b.
Proof.
  revert b. induction packets as [|[r t n|] packets IH]; intros b; cbn; [by intros [= <-]| |apply IH].
  destruct (r =? s); [|apply IH]. destruct (Buffer.SenderReport b t n) as [b1|] eqn:E; [|done]. obind. intros ->%IH. by apply SenderReport_closed in E.
Qed.

Lemma drainRTCP_fine s packets b b' :
  Buffer.buffer_ok b -> drainRTCP s b packets = Some b' -> Buffer.fine b b' [] [].
Proof.
  revert b. induction packets as [|[r t n|] packets IH]; intros b Hok; cbn; [intros [= <-]; by apply Buffer.fine_refl| |by apply IH].
  destruct (r =? s); [|by apply IH]. destruct (Buffer.SenderReport_total b t n Hok) as (b1 & E & Q). rewrite E. obind. intros Hrest.
  pose proof (Buffer.fine_quiet b b1 Hok Q) as F. apply (Buffer.fine_trans b b1 b' [] [] [] []); [done|]. apply IH; [apply F|done].
Qed.

(** ** The invariant of a track *)
Definition inflight (f : feedPhase) : list Packet := match f with Writing p => [p] | _ => [] end.

(** The packets received are those written, the one being written, those queued and
    those counted as dropped. *)
Definition ledger (rec wr fl : list Packet) (b : Buffer.Buffer) : Prop :=
  exists gone, rec ≡ₚ wr ++ fl ++ (Heap.pkt <$> Buffer.queue b) ++ gone /\ Buffer.dropped b = u64 (Z.of_nat (length gone)).

Lemma ledger_fine rec wr fl b b' inn out :
  ledger rec wr fl b -> Buffer.fine b b' inn out -> ledger (rec ++ inn) wr (fl ++ out) b'.
Proof.
  intros (gone & P & D) [_ (g & P' & D')]. exists (g ++ gone). split.
  - rewrite P. rewrite <-!app_assoc. do 2 apply Permutation_app_head. rewrite !app_assoc. rewrite (Permutation_app_comm _ inn), app_assoc.
    rewrite P'. by rewrite !app_assoc.
  - rewrite D', D, length_app. golia.
Qed.

Record track_ok (t : track) : Prop := {
  k_buf : Buffer.buffer_ok (buf t);
  k_ledger : ledger (received t) (written t) (inflight (feeder t)) (buf t);
  k_closed : Buffer.closed (buf t) = true <-> reader t = ReaderDone;
  k_stop : feeder t = FeedDone <-> stop t = true;
  k_done : feeder t = FeedDone -> Buffer.closed (buf t) = true /\ Buffer.queue (buf t) = [];
  k_tick : ticking t = false -> stop t = true
}.

Lemma started_ok t : started t -> track_ok t.
Proof.
  intros (v & s & target & rate & mime & k & c & Ht & Hr & ->). split; cbn; [by apply Buffer.NewBuffer_ok|by exists []|done|done|done|done].
Qed.

Lemma acts_fine t o t' inn out :
  track_ok t -> Buffer.valid o -> acts t o t' inn out ->
  Buffer.fine (buf t) (buf t') inn out /\ reader t' = reader t /\ feeder t' = feeder t /\ stop t' = stop t /\ ticking t' = ticking t
  /\ received t' = received t /\ written t' = written t.
Proof.
  intros Hok Hv (Hf & b & c & E & ->). destruct (Buffer.step_fine (buf t) (ctl t) o (k_buf _ Hok) Hf Hv) as (b1 & c1 & i & o1 & E1 & F & _).
  rewrite E in E1. injection E1 as <- <- <- <-. done.
Qed.

(** Nothing comes out of an empty queue that nothing goes into. *)
Lemma fine_empty b b' : Buffer.fine b b' [] [] -> Buffer.queue b = [] -> Buffer.queue b' = [].
Proof.
  intros [_ (g & P & _)] Hq. rewrite Hq in P. cbn in P. symmetry in P. apply Permutation_nil_r, app_eq_nil in P as [P _]. by apply fmap_nil_inv in P.
Qed.

(** A change of the buffer alone that leaves it open or closed. *)
Lemma quiet_turn t b c :
  track_ok t -> Buffer.fine (buf t) b [] [] -> Buffer.closed b = Buffer.closed (buf t) -> track_ok (t <| buf := b |> <| ctl := c |>).
Proof.
  intros [H1 H2 H3 H4 H5 H6] F Hc. pose proof (ledger_fine _ _ _ _ _ _ _ H2 F) as L. rewrite !app_nil_r in L.
  split; cbn; rewrite ?Hc; auto; [apply F|]. intros Hd. destruct (H5 Hd). split; [done|]. by eapply fine_empty.
Qed.

Lemma relay_turn t o t' inn out : track_ok t -> relayOp o -> acts t o t' inn out -> track_ok t'.
Proof.
  intros Hok Hr Ha. pose proof Ha as (Hf & b & c & E & ->). destruct (relayOp_silent _ _ _ _ _ _ _ Hr E) as (-> & -> & Hv).
  apply quiet_turn; [done|by apply (acts_fine _ _ _ _ _ Hok Hv Ha)|by apply (relayOp_closed _ _ _ _ _ _ _ Hr E)].
Qed.

Lemma pop_ok t now b r :
  track_ok t -> feeder t = Popping -> Buffer.fits (buf t) -> Buffer.pop_turn (buf t) (ctl t) now = Some (b, r) -> track_ok (afterPop t b r).
Proof.
  intros Hok Hf Hfit E. pose proof Hok as [H1 H2 H3 H4 H5 H6]. pose proof (pop_turn_closed _ _ _ _ _ E) as Hc.
  assert (Ha : acts t (Buffer.OPop now) (t <| buf := b |> <| ctl := ctl t |>) [] (match r with Buffer.Deliver p => [p] | _ => [] end)).
  { split; [done|]. exists b, (ctl t). split; [|done]. cbn [Buffer.step]. by rewrite E. }
  destruct (acts_fine t (Buffer.OPop now) _ _ _ Hok I Ha) as [F _]. cbn in F. pose proof (ledger_fine _ _ _ _ _ _ _ H2 F) as L. rewrite app_nil_r, Hf in L. cbn in L.
  pose proof (Buffer.pop_turn_spec (buf t) (ctl t) now H1 Hfit) as Hs. destruct (Buffer.dynamicOffsetLocked _ _ _). destruct Hs as (b1 & r1 & E1 & _ & Hs).
  rewrite E in E1. injection E1 as <- <-. rewrite Hf in H4, H5.
  destruct r; split; cbn; rewrite ?Hf, ?Hc; auto; try apply F; try done.
  - intros _. destruct Hs as [? Hq]. split; [done|]. by eapply fine_empty.
  - rewrite <-H4. done.
Qed.

Lemma turn_ok t t' : track_ok t -> turn t t' -> track_ok t'.
Proof.
  intros Hok T. pose proof Hok as [H1 H2 H3 H4 H5 H6].
  destruct T as [t p t0 t1 now t' inn out Hr Ha|t now t' inn out Hr Ha|t packets b Hl E|t Hl|t now b r Hf Hfit E|t p ok Hf|t o t' inn out Ht Hr Ha|t Ht Hs|t o t' inn out Hr Ha].
  - destruct (acts_fine t (Buffer.OPush p t0 t1 now) t' inn out Hok I Ha) as (F & E1 & E2 & E3 & E4 & E5 & E6).
    destruct Ha as (_ & b & c & E & ->). cbn [Buffer.step] in E. destruct (Buffer.Push _ _ _ _ _ _) as [[[b' c'] f]|] eqn:Ep; [|done].
    cbn [mbind option_bind] in E. injection E as <- <- Hinn <-. pose proof (Push_closed _ _ _ _ _ _ _ _ _ Ep) as Hc. cbn in *.
    pose proof (ledger_fine _ _ _ _ _ _ _ H2 F) as L. rewrite app_nil_r in L.
    assert (Hnd : feeder t <> FeedDone) by (intros Hd; destruct (H5 Hd) as [Hcl _]; apply H3 in Hcl; congruence).
    split; cbn; rewrite ?Hc; auto; [apply F|rewrite H3, Hr; done|done].
  - destruct (acts_fine t (Buffer.OClose now) t' inn out Hok I Ha) as (F & E1 & E2 & E3 & E4 & E5 & E6).
    destruct Ha as (_ & b & c & E & ->). cbn [Buffer.step] in E. injection E as <- <- <- <-. cbn in *.
    pose proof (ledger_fine _ _ _ _ _ _ _ H2 F) as L. rewrite !app_nil_r in L.
    assert (Hcl : Buffer.closed (Buffer.Close (buf t) now) = true) by (unfold Buffer.Close; by destruct (_ <? _)).
    split; cbn; rewrite ?Hcl; auto; [apply F|done|]. intros Hd. split; [done|]. destruct (H5 Hd). by eapply fine_empty.
  - apply (quiet_turn t b (ctl t)); [done|by eapply drainRTCP_fine|by eapply drainRTCP_closed].
  - by split.
  - by eapply pop_ok.
  - destruct H2 as (g & P & D). rewrite Hf in *. split; cbn; auto; try done; [|by rewrite <-H4; split].
    exists g. split; [|done]. rewrite P. cbn. by rewrite <-app_assoc.
  - by eapply relay_turn.
  - by split.
  - by eapply relay_turn.
Qed.

(** ** The invariant of a session *)

(** The totals a session reported, the newest first. *)
Definition totalOf (o : Stats.op) : option Z :=
  match o with
  | Stats.OObserve _ total _ _ _ => Some total
  | Stats.OObserveBytes _ total _ => Some total
  | _ => None
  end.

Definition totals (s : session) : list Z := omap totalOf (log s).

(** The camera a write is about, and whether it marks it stopped. *)
Definition aboutOf (o : Stats.op) : string :=
  match o with
  | Stats.OPublishing id _ | Stats.OStopped id _ _ | Stats.OPath id _ | Stats.OCodec id _ | Stats.OPairs id _ _
  | Stats.OLink id _ _ | Stats.OObserve id _ _ _ _ | Stats.OObserveBytes id _ _ | Stats.OOf id _ _ => id
  end.

Definition isStopped (o : Stats.op) : bool := match o with Stats.OStopped _ _ _ => true | _ => false end.

Record session_ok (s : session) : Prop := {
  n_tracks : Forall track_ok (tracks s);
  n_sum : 0 <= sum s;
  n_bytes : bytes s = u64 (sum s);
  n_totals : sum s < 18446744073709551616 -> StronglySorted Z.ge (totals s) /\ Forall (λ x, x <= sum s) (totals s);
  n_about : Forall (λ o, aboutOf o = ingest s) (log s);
  n_ended : stopping s <> Running -> current s = false;
  n_stopped : Forall (λ o, isStopped o = false) (if stopping s is Ended then tail (log s) else log s)
}.

Lemma setTrack_ok s i t t' :
  session_ok s -> tracks s !! i = Some t -> (track_ok t -> track_ok t') -> session_ok (setTrack s i t').
Proof.
  intros [H1 H2 H3 H4 H5 H6 H7] Hi Ht. split; cbn; auto. apply Forall_insert; [done|]. apply Ht. by eapply Forall_lookup_1.
Qed.

Lemma reader_ok t r : track_ok t -> reader t <> ReaderDone -> r <> ReaderDone -> track_ok (t <| reader := r |>).
Proof. intros [H1 H2 H3 H4 H5 H6] Hr Hr'. split; cbn; auto. rewrite H3. tauto. Qed.

(** Writes of a session that is running keep the invariant. *)
Lemma write_ok s o :
  session_ok s -> stopping s = Running -> aboutOf o = ingest s -> isStopped o = false ->
  (forall x, totalOf o = Some x -> x = bytes s) -> session_ok (write s o).
Proof.
  intros [H1 H2 H3 H4 H5 H6 H7] Hrun Ha Hst Ht. rewrite Hrun in H7. split; cbn; rewrite ?Hrun; auto; try done.
  intros Hlt. destruct (H4 Hlt) as [Hs Hall]. unfold totals in *. cbn. destruct (totalOf o) as [x|]; [|done].
  assert (E : bytes s = sum s) by (rewrite H3; apply u64_small; unfold is_u64; lia). rewrite (Ht x eq_refl), E.
  split; [|constructor; [lia|done]]. constructor; [done|]. eapply Forall_impl; [exact Hall|]. cbn. lia.
Qed.

Lemma guarded_ok s ops :
  session_ok s ->
  Forall (λ o, aboutOf o = ingest s /\ isStopped o = false /\ forall x, totalOf o = Some x -> x = bytes s) ops ->
  session_ok (guarded s ops).
Proof.
  unfold guarded. destruct (current s) eqn:Hc; [|done]. intros Hok.
  assert (Hrun : stopping s = Running).
  { destruct (stopping s) eqn:E; [done|..]; pose proof (n_ended s Hok); rewrite E in *; intuition congruence. }
  clear Hc. revert s Hok Hrun. induction ops as [|o ops IH]; intros s Hok Hrun Hall; [done|].
  apply Forall_cons in Hall as [(Ha & Hst & Ht) Hall]. cbn [fold_left]. apply IH; [by apply write_ok|done|done].
Qed.

Lemma guarded_frame s ops :
  tracks (guarded s ops) = tracks s /\ (current s = false -> guarded s ops = s).
Proof.
  unfold guarded. destruct (current s); [|done]. split; [|done]. revert s. induction ops as [|o ops IH]; intros s; [done|].
  cbn [fold_left]. by rewrite IH.
Qed.

Lemma observe_ok s t now : session_ok s -> session_ok (observe s t now).
Proof.
  intros Hok. unfold observe. apply guarded_ok; [done|]. apply Forall_singleton.
  destruct (video t); [destruct (Buffer.Stats _)|]; cbn; split_and!; try done; by intros x [= <-].
Qed.

Lemma announce_ok s v label : session_ok s -> session_ok (announce s v label).
Proof. intros Hok. apply guarded_ok; [done|]. destruct v; [apply Forall_singleton|]; done. Qed.

Lemma session_step s s' : session_ok s -> step s s' -> session_ok s'.
Proof.
  intros Hok S. destruct S as [s t label _ Hs|s v label|s i t t' Hi T|s i t p size Hi Hr Hsz|s i t now Hi Hr|s now|s path
    |s lv total ms lost|s|s Hrun|s now hub Hend|s o].
  - pose proof (announce_ok s (video t) label Hok) as [H1 H2 H3 H4 H5 H6 H7]. unfold announce in H1. rewrite (proj1 (guarded_frame _ _)) in H1.
    split; cbn; auto. apply Forall_app. split; [done|]. by apply Forall_singleton, started_ok.
  - by apply announce_ok.
  - eapply setTrack_ok; eauto using turn_ok.
  - destruct (setTrack_ok s i t (t <| reader := Counted p |>)) as [H1 H2 H3 H4 H5 H6 H7]; [done|done|intros; apply reader_ok; [done|congruence|done]|].
    cbn in H1, H2, H3, H4. split; cbn; [done|lia|rewrite H3; golia| |done|done|done]. intros Hlt. destruct H4 as [Hs Hall]; [lia|]. split; [done|].
    eapply Forall_impl; [exact Hall|]. cbn. lia.
  - eapply (setTrack_ok _ i t); [by apply observe_ok|unfold observe; by rewrite (proj1 (guarded_frame _ _))|].
    intros. apply reader_ok; [done|congruence|done].
  - apply guarded_ok; [done|]. by apply Forall_singleton.
  - apply guarded_ok; [done|]. by apply Forall_singleton.
  - apply guarded_ok; [done|]. by repeat constructor.
  - destruct Hok as [H1 H2 H3 H4 H5 H6 H7]. by split.
  - destruct Hok as [H1 H2 H3 H4 H5 H6 H7]. rewrite Hrun in H7. split; cbn; auto.
    destruct (current s); [done|]. destruct (log s); [done|]. by apply Forall_cons in H7 as [_ ?].
  - destruct Hok as [H1 H2 H3 H4 H5 H6 H7]. rewrite Hend in H7. split; cbn; auto. intros _. apply H6. by rewrite Hend.
  - destruct Hok as [H1 H2 H3 H4 H5 H6 H7]. by split.
Qed.

Lemma session_reach ing r s : reach ing r s -> session_ok s.
Proof.
  intros Hr. assert (H : session_ok (opened ing r)) by (split; cbn; try done; intros _; split; constructor).
  unfold reach in Hr. induction Hr; eauto using session_step.
Qed.

(** What a session that has lost its camera still does. *)
Lemma lost_step s s' :
  current s = false -> step s s' ->
  current s' = false /\ ingest s' = ingest s
  /\ (log s' = log s /\ (stopping s' = stopping s \/ stopping s = Running /\ stopping s' = Ended)
      \/ exists now hub, log s' = Stats.OStopped (ingest s) now hub :: log s /\ stopping s = Ending /\ stopping s' = Ended).
Proof.
  intros Hc S. destruct S as [s t label Hcur _|s v label|s i t t' Hi T|s i t p size Hi Hr Hsz|s i t now Hi Hr|s now|s path
    |s lv total ms lost|s|s Hrun|s now hub Hend|s o]; unfold observe, announce, connected, onPath, pairs, endSession;
    try rewrite (proj2 (guarded_frame _ _) Hc); cbn; rewrite ?Hc; eauto 10; congruence.
Qed.

(** ** Claims *)

(** C3: every packet of a publisher reaches the viewers once or is accounted for.  However
    the goroutines of a session's tracks interleave, with each other and with what the
    relay does to the buffers: the packets pushed into a track's open buffer are those
    written to its viewers, the one being written, those still queued and those
    counted as dropped, each once; [Feed] returns only behind a reader that has
    ended, when nothing is queued any more; and the correcting goroutine never stops
    before it. *)
Theorem pipeline_conserves ing r s i t :
  reach ing r s -> tracks s !! i = Some t ->
  (exists gone, received t ≡ₚ written t ++ inflight (feeder t) ++ (Heap.pkt <$> Buffer.queue (buf t)) ++ gone
     /\ Buffer.dropped (buf t) = u64 (Z.of_nat (length gone)))
  /\ (feeder t = FeedDone -> reader t = ReaderDone /\ Buffer.queue (buf t) = [] /\ stop t = true)
  /\ (ticking t = false -> feeder t = FeedDone).
Proof.
  intros Hr Hi. pose proof (n_tracks _ (session_reach _ _ _ Hr)) as Hall. destruct (Forall_lookup_1 _ _ _ _ Hall Hi) as [H1 H2 H3 H4 H5 H6].
  split_and!; [done| |].
  - intros Hd. destruct (H5 Hd) as [Hc Hq]. split_and!; [by apply H3|done|by apply H4].
  - intros Ht. apply H4. auto.
Qed.

(** C27: the dashboard's byte count never goes back, and a session that has lost its
    camera is silent.  Audio and video of a session add to one counter and report it
    under the lock: as long as fewer than [2^64] bytes have arrived, the totals the
    session reported are in order, whichever track reports, and none is more than
    what has arrived.  Everything the session writes to the dashboard (codec,
    publishing, path, pairs, link, totals, stopped) is about its own camera; a mark
    that the camera stopped is the last thing it writes; and once the session has
    lost its camera, whatever it and others then do, the only thing it still writes
    is that mark, at most once and only if it was itself ending. *)
Theorem totals_in_order ing r s :
  reach ing r s -> sum s < 18446744073709551616 ->
  StronglySorted Z.ge (totals s) /\ Forall (λ x, x <= bytes s) (totals s) /\ bytes s = sum s
  /\ Forall (λ o, aboutOf o = ingest s) (log s)
  /\ Forall (λ o, isStopped o = false) (tail (log s))
  /\ (current s = false -> forall s', rtc step s s' ->
       log s' = log s
       \/ stopping s = Ending /\ exists now hub, log s' = Stats.OStopped (ingest s) now hub :: log s).
Proof.
  intros Hr Hlt. destruct (session_reach _ _ _ Hr) as [_ H2 H3 H4 H5 H6 H7]. destruct (H4 Hlt) as [Hs Hall].
  assert (E : bytes s = sum s) by (rewrite H3; apply u64_small; unfold is_u64; lia). split_and!; [done|by rewrite E|done|done|..].
  { destruct (stopping s); [|..|done]; destruct (log s); try done; by apply Forall_cons in H7 as [_ ?]. }
  intros Hc s' Hrun. assert (Hgoal : current s' = false /\ (log s' = log s /\ (stopping s' = stopping s \/ stopping s' = Ended /\ stopping s = Running)
    \/ (stopping s = Ending /\ stopping s' = Ended) /\ exists now hub, log s' = Stats.OStopped (ingest s) now hub :: log s)).
  2:{ destruct Hgoal as [_ [[? _]|[[? _] ?]]]; auto. }
  clear - Hc Hrun. induction Hrun as [s|s1 s2 s3 S _ IH]; [auto|].
  destruct (lost_step _ _ Hc S) as (Hc2 & Ei & Hlog). destruct (IH Hc2) as (Hc3 & IHlog). split; [done|].
  destruct Hlog as [[E1 E2]|(now & hub & E1 & E2 & E3)].
  - rewrite E1, Ei in IHlog. destruct IHlog as [[E3 E4]|[[E3 E5] E4]].
    + left. split; [done|]. intuition congruence.
    + right. split; [|done]. intuition congruence.
  - rewrite E3 in IHlog. destruct IHlog as [[E4 [E5|[_ ?]]]|[[? _] _]]; try congruence.
    right. split; [split; congruence|]. exists now, hub. congruence.
Qed.

(** ** A session with one audio track that received one packet *)
Definition demoPacket : Packet := mkPacket 1 960 [1].

Definition demoBuffer : Buffer.Buffer := Buffer.NewBuffer (2 * Second) 48000 "audio/opus" false.

Definition demoStart : track := newTrack false 7 demoBuffer DynamicDelay.zeroController.

Definition demoPushed : track :=
  match Buffer.step demoBuffer DynamicDelay.zeroController (Buffer.OPush demoPacket 100 101 102) with
  | Some (b, c, inn, _) => demoStart <| buf := b |> <| ctl := c |> <| reader := Pushed |> <| received := inn |>
  | None => demoStart
  end.

Definition demoSession : session :=
  let published := Stats.Publishing Stats.New "cam" 90 in
  mkSession "cam" 60 true Running (Stats.ObserveBytes published "cam" 60 200) [demoPushed <| reader := Reading |>] 60
    [Stats.OObserveBytes "cam" 60 200; Stats.OPublishing "cam" 90].

Lemma demoSession_reach : reach "cam" Stats.New demoSession.
Proof.
  eapply rtc_l. { apply (S_connected _ 90). }
  eapply rtc_l. { apply (S_start _ demoStart ""); [reflexivity|]. exists false, 7, (2 * Second), 48000, "audio/opus", false, DynamicDelay.zeroController.
    split_and!; try reflexivity; unfold DynamicDelay.tenSeconds, Second; lia. }
  eapply rtc_l. { apply (S_count _ 0 demoStart demoPacket 60); [reflexivity|reflexivity|lia]. }
  eapply rtc_l. { eapply (S_turn _ 0 (demoStart <| reader := Counted demoPacket |>)); [reflexivity|].
    eapply (T_push _ demoPacket 100 101 102); [reflexivity|]. split; [unfold Buffer.fits; vm_compute; reflexivity|]. eexists _, _. split; [vm_compute; reflexivity|reflexivity]. }
  eapply rtc_l. { eapply (S_observe _ 0 demoPushed 200); [vm_compute; reflexivity|vm_compute; reflexivity]. }
  match goal with |- rtc step ?a ?b => replace a with b by (vm_compute; reflexivity) end. apply rtc_refl.
Qed.

Lemma pipeline_conserves_witness :
  let t := demoPushed <| reader := Reading |> in
  length (received t) = 1%nat
  /\ exists gone, received t ≡ₚ written t ++ inflight (feeder t) ++ (Heap.pkt <$> Buffer.queue (buf t)) ++ gone
       /\ Buffer.dropped (buf t) = u64 (Z.of_nat (length gone)).
Proof.
  split; [vm_compute; reflexivity|]. apply (pipeline_conserves "cam" Stats.New demoSession 0 _ demoSession_reach). reflexivity.
Defined.

(** The session is ending: one mark, and its callbacks are silent. *)
Lemma totals_in_order_witness :
  totals demoSession = [60]
  /\ let s := endSession demoSession in
     let s' := onPath (tellStopped (connected s 300) 301 None) "relayed" in
     stopping s = Ending
     /\ (log s' = log s \/ stopping s = Ending /\ exists now hub, log s' = Stats.OStopped (ingest s) now hub :: log s).
Proof.
  split; [reflexivity|]. intros s s'. split; [reflexivity|].
  apply (totals_in_order "cam" Stats.New s).
  - eapply rtc_r; [exact demoSession_reach|]. apply S_end. reflexivity.
  - vm_compute. reflexivity.
  - reflexivity.
  - eapply rtc_l; [apply (S_connected s 300)|]. eapply rtc_l; [apply (S_stopped _ 301 None); reflexivity|].
    apply rtc_once. apply S_path.
Defined.

End Pipeline.
