(* ===== verification/Guard.v ===== *)
(** * Request limits ([src/internal/listen/guard.go])

    The token buckets of [golang.org/x/time/rate] are the interface [Limiter]: a
    limiter is made with a rate and a burst, and [Allow] at an instant takes a
    token or refuses.  What the theorems need of it is stated where they need it.
    The channel [active] of capacity 32 is the number of requests inside. *)

From S2P Require Import Prelude.

Module Guard.

Class Limiter (L : Type) := {
  NewLimiter : Z -> Z -> L;
  Allow : L -> time -> L * bool
}.

Section guard.
Context {L : Type} {HL : Limiter L}.

Record clientLimit := mkClientLimit { limiter : L; seen : time }.

Record requestLimits := mkLimits {
  clients : gmap string clientLimit;
  global : L;
  lastSweep : time
}.

#[export] Instance eta_limits : Eta requestLimits := fun l => mkLimits (clients l) (global l) (lastSweep l).

(** What [Guard] builds before it returns the handler. *)
Definition newLimits (now : time) : requestLimits := mkLimits ∅ (NewLimiter 100 200) now.

Definition sweep (l : requestLimits) (now : time) : requestLimits :=
  if Minute <=? tsub now (lastSweep l)
  then l <| clients := filter (λ kv : string * clientLimit, (Minute <=? tsub now (seen kv.2)) = false) (clients l) |>
         <| lastSweep := now |>
  else l.

Definition allow (l : requestLimits) (host : string) (now : time) : requestLimits * bool :=
  let l := sweep l now in
  let entry :=
    match clients l !! host with
    | Some c => Some (limiter c)
    | None => if (size (clients l) <? 1024)%nat then Some (NewLimiter 10 20) else None
    end in
  match entry with
  | None => (l, false)
  | Some own =>
      let '(own, ok) := Allow own now in
      let l := l <| clients := <[host := mkClientLimit own now]> (clients l) |> in
      if ok then let '(g, ok) := Allow (global l) now in (l <| global := g |>, ok) else (l, false)
  end.

(** ** The handler *)
Record guard := mkGuard { limits : requestLimits; active : nat }.

Inductive outcome := BadAddress | Serving | TooManyRequests.

(** A request until it is handed on; [host] is what [net.SplitHostPort] found. *)
Definition handle (g : guard) (host : option string) (now : time) : guard * outcome :=
  match host with
  | None => (g, BadAddress)
  | Some h =>
      let '(l, ok) := allow (limits g) h now in
      if ok && (active g <? 32)%nat then (mkGuard l (S (active g)), Serving) else (mkGuard l (active g), TooManyRequests)
  end.

(** The request has been served. *)
Definition leave (g : guard) : guard := mkGuard (limits g) (pred (active g)).

Inductive event := Request (host : option string) (now : time) | Served.

Definition react (g : guard) (e : event) : guard :=
  match e with Request host now => (handle g host now).1 | Served => leave g end.

(** ** Lemmas *)
Lemma sweep_clients l now host c :
  clients (sweep l now) !! host = Some c -> clients l !! host = Some c.
Proof.
  unfold sweep. destruct (Minute <=? _); [|done]. cbn. by intros [? _]%map_lookup_filter_Some.
Qed.

Lemma sweep_size l now : (size (clients (sweep l now)) <= size (clients l))%nat.
Proof.
  rewrite <-!size_dom. apply subseteq_size. intros h [c Hc]%elem_of_dom. apply sweep_clients in Hc.
  apply elem_of_dom. eauto.
Qed.

(** A client is forgotten only after a minute without requests. *)
Lemma sweep_keeps l now host c :
  clients l !! host = Some c -> tsub now (seen c) < Minute -> clients (sweep l now) !! host = Some c.
Proof.
  intros Hc Hs. unfold sweep. destruct (Minute <=? tsub now (lastSweep l)); [|done]. cbn.
  apply map_lookup_filter_Some. split; [done|]. cbn. lia.
Qed.

Lemma allow_size l host now : (size (clients l) <= 1024)%nat -> (size (clients (allow l host now).1) <= 1024)%nat.
Proof.
  intros Hl. unfold allow. pose proof (sweep_size l now) as Hs. set (l' := sweep l now) in *.
  destruct (clients l' !! host) as [c|] eqn:E.
  - destruct (Allow (limiter c) now) as [own ok]. assert (Hsz : size (<[host := mkClientLimit own now]> (clients l')) = size (clients l'))
      by (rewrite map_size_insert, E; done).
    destruct ok; [destruct (Allow _ now)|]; cbn; rewrite Hsz; lia.
  - destruct (Nat.ltb_spec (size (clients l')) 1024); [|cbn; lia]. destruct (Allow (NewLimiter 10 20) now) as [own ok].
    assert (Hsz : size (<[host := mkClientLimit own now]> (clients l')) = S (size (clients l')))
      by (rewrite map_size_insert, E; done).
    destruct ok; [destruct (Allow _ now)|]; cbn; rewrite Hsz; lia.
Qed.

(** The limiter a request of [host] meets. *)
Definition ownLimiter (l : requestLimits) (host : string) : option L :=
  match clients l !! host with
  | Some c => Some (limiter c)
  | None => if (size (clients l) <? 1024)%nat then Some (NewLimiter 10 20) else None
  end.

(** ** Claims *)

(** However requests come and go, at most 32 are inside at a time and at most
    1024 clients are remembered. *)
Theorem guard_bounds events now0 :
  let g := fold_left react events (mkGuard (newLimits now0) 0) in
  (active g <= 32)%nat /\ (size (clients (limits g)) <= 1024)%nat.
Proof.
  cbn zeta. assert (H0 : forall g, (active g <= 32)%nat /\ (size (clients (limits g)) <= 1024)%nat ->
    let g := fold_left react events g in (active g <= 32)%nat /\ (size (clients (limits g)) <= 1024)%nat).
  { induction events as [|e events IH]; intros g [H1 H2]; [done|]. apply IH. destruct e as [[h|] now|]; [cbn|done|split; [unfold react, leave; cbn [active]; lia|done]].
    pose proof (allow_size (limits g) h now H2) as Hs. destruct (allow (limits g) h now) as [l ok]. cbn in Hs.
    destruct ok; cbn; [|done]. destruct (Nat.leb_spec (active g) 31); cbn; lia. }
  apply H0. cbn. rewrite map_size_empty. lia.
Qed.

(** One client cannot spend another's budget.  A request is decided by the
    client's own limiter first: when that refuses, the budget all clients share is
    untouched; and in every case the limiters of other clients are untouched and
    clients active in the last minute are remembered. *)
Theorem clients_isolated l host now l' ok :
  allow l host now = (l', ok) ->
  (ok = true <-> exists own, ownLimiter (sweep l now) host = Some own /\ (Allow own now).2 = true /\ (Allow (global l) now).2 = true)
  /\ (global l' = global l \/ exists own, ownLimiter (sweep l now) host = Some own /\ (Allow own now).2 = true
        /\ global l' = (Allow (global l) now).1)
  /\ forall other c, other <> host -> clients l !! other = Some c ->
       clients l' !! other = Some c \/ clients l' !! other = None /\ Minute <= tsub now (seen c).
Proof.
  intros E. assert (Hg : global (sweep l now) = global l) by (unfold sweep; by destruct (Minute <=? _)).
  assert (Hother : forall m own other c, other <> host -> clients l !! other = Some c ->
    m = clients (sweep l now) \/ m = <[host := mkClientLimit own now]> (clients (sweep l now)) ->
    m !! other = Some c \/ m !! other = None /\ Minute <= tsub now (seen c)).
  { intros m own other c Hne Hc Hm.
    assert (Em : m !! other = clients (sweep l now) !! other) by (destruct Hm as [->| ->]; [done|by rewrite lookup_insert_ne]).
    rewrite Em. destruct (Z.ltb_spec (tsub now (seen c)) Minute); [left; by apply sweep_keeps|].
    destruct (clients (sweep l now) !! other) as [c'|] eqn:Ec; [|by right]. left. apply sweep_clients in Ec. congruence. }
  unfold allow in E. fold (ownLimiter (sweep l now) host) in E. destruct (ownLimiter (sweep l now) host) as [own|] eqn:Eo.
  2:{ injection E as <- <-. split_and!; [split; [done|intros (? & ? & _); done]|by left|]. intros other c Hne Hc.
      apply (Hother _ (NewLimiter 10 20)); auto. }
  destruct (Allow own now) as [own' b] eqn:Ea. rewrite <-Hg. destruct b.
  - cbn in E. destruct (Allow (global (sweep l now)) now) as [g okg] eqn:Eg. injection E as <- <-. split_and!.
    + split; [intros ->; exists own; by rewrite Ea|]. intros (o & [= <-] & _ & ?). done.
    + right. exists own. by rewrite Ea.
    + intros other c Hne Hc. apply (Hother _ own'); auto.
  - injection E as <- <-. split_and!.
    + split; [done|]. intros (o & [= <-] & Hb & _). by rewrite Ea in Hb.
    + by left.
    + intros other c Hne Hc. apply (Hother _ own'); auto.
Qed.

End guard.

(** ** A limiter, and a run *)

(** A bucket of [burst] tokens that never refills. *)
Definition bucket : Limiter Z := {| NewLimiter := λ _ burst, burst; Allow := λ tokens _, (tokens - 1, 0 <? tokens) |}.

Definition demoLimits : requestLimits (L := Z) :=
  (allow (HL := bucket) (allow (HL := bucket) (newLimits (HL := bucket) 0) "a" Second).1 "b" (2 * Second)).1.

Lemma clients_isolated_witness :
  (clients demoLimits !! "a" = Some (mkClientLimit 19 Second))
  /\ (clients (allow (HL := bucket) demoLimits "b" (3 * Second)).1 !! "a" = Some (mkClientLimit 19 Second)
      \/ clients (allow (HL := bucket) demoLimits "b" (3 * Second)).1 !! "a" = None /\ Minute <= tsub (3 * Second) Second).
Proof.
  split; [vm_compute; reflexivity|].
  apply (proj2 (proj2 (clients_isolated (HL := bucket) demoLimits "b" (3 * Second) _ _ (surjective_pairing _))) "a" (mkClientLimit 19 Second));
    [done|vm_compute; reflexivity].
Defined.

End Guard.
