(* ===== verification/Daemon.v ===== *)
(** * The hooks between the settings and the running cameras
    ([src/cmd/wagastrim/main.go])

    [run] hands two closures to the settings page and to the control API:
    [revoke] closes the sessions of a camera, [retarget] gives a running camera
    its playout target.  [Hooks] is the interface the handlers are verified
    against: what can be seen of the running cameras, and what the hooks do to
    it.  What the servers do to the running cameras belongs to it as well: a
    publisher gets its camera, its tracks start, it ends; a subscriber gets its place
    and leaves.  [relayHooks] implements it with the relay and the cameras that the
    sessions of the two servers hold; the tables themselves are those of [Whip] and
    [Whep]. *)

From S2P Require Import Prelude.
From S2P Require Import DynamicDelay.
From S2P Require Import Buffer.
From S2P Require Import Relay.
From S2P Require Import Config.

Module Daemon.

(** What a running camera should play at, by the configuration: the target of its
    group and its own options, as the controller of its stream keeps them. *)
Definition told (c : Config.Cfg) (id : string) (delayMS : Z) : duration * DynamicDelay.Options :=
  let target := dmul delayMS Millisecond in
  (target, DynamicDelay.Normalize (Config.DelayOptions c id) (dquot target Millisecond)).

Definition wanted (c : Config.Cfg) (id : string) : duration * DynamicDelay.Options :=
  told c id (Config.EffectiveDelay c id).

(** A session of one of the servers: the camera as the key resolved to it, and
    whether the configuration still had it so when the session got its place.  The
    servers keep the former; the latter is a note of the model about the moment. *)
Record session := mkSess { cam : Config.Ingest; timely : bool }.

#[local] Existing Instance DynamicDelay.Options_eq_dec.

#[export] Instance Ingest_eq_dec : EqDecision Config.Ingest.
Proof. solve_decision. Defined.

#[export] Instance session_eq_dec : EqDecision session.
Proof. solve_decision. Defined.

(** A track as a publisher's connection announces it, and the local track the
    relay's library builds for it ([None] when it fails). *)
Record announced := mkAnnounced {
  kind : Relay.codecType; local : option nat; ask : option nat; clockRate : Z; mimeType : string
}.

Class Hooks (H : Type) := {
  good : H -> Prop;
  target : H -> string -> option (duration * DynamicDelay.Options);   (* of a running camera *)
  publisher : H -> string -> option session;
  watchers : H -> string -> list session;
  revoke : H -> string -> H;
  retarget : Config.Cfg -> H -> string -> Z -> H;
  stop : H -> string -> H;                             (* the publisher of a camera ends *)
  install : H -> session -> H;                         (* a publisher gets its camera *)
  goLive : Config.Cfg -> H -> string -> announced -> H;   (* a track of the publisher arrives *)
  watch : H -> session -> H;                           (* a subscriber gets its place *)
  unwatch : H -> session -> H;                         (* and leaves it *)
  runs : H -> H -> Prop                                (* media flows, the clock goes on *)
}.

Class HooksLaws (H : Type) {hooks : Hooks H} : Prop := {
  revoke_good h id : good h -> good (revoke h id);
  retarget_good c h id d : good h -> good (retarget c h id d);
  stop_good h id : good h -> good (stop h id);
  install_good h x : good h -> good (install h x);
  goLive_good c h id t : good h -> good (goLive c h id t);
  watch_good h x : good h -> good (watch h x);
  unwatch_good h x : good h -> good (unwatch h x);
  runs_good h h' : runs h h' -> good h -> good h';
  revoke_target h id i v : good h -> target (revoke h id) i = Some v -> target h i = Some v;
  revoke_publisher h id i : publisher (revoke h id) i = if String.eqb id i then None else publisher h i;
  revoke_watchers h id i : watchers (revoke h id) i = if String.eqb id i then [] else watchers h i;
  retarget_target c h id d i v : good h -> target (retarget c h id d) i = Some v ->
    if String.eqb id i then v = told c id d else target h i = Some v;
  retarget_publisher c h id d i : publisher (retarget c h id d) i = publisher h i;
  retarget_watchers c h id d i : watchers (retarget c h id d) i = watchers h i;
  stop_target h id i v : good h -> target (stop h id) i = Some v -> target h i = Some v;
  stop_publisher h id i : publisher (stop h id) i = if String.eqb id i then None else publisher h i;
  stop_watchers h id i x : x ∈ watchers (stop h id) i -> x ∈ watchers h i;
  install_target h x i : target (install h x) i = target h i;
  install_publisher h x i : publisher (install h x) i = if String.eqb (Config.ID (cam x)) i then Some x else publisher h i;
  install_watchers h x i : watchers (install h x) i = watchers h i;
  goLive_target c h id t i v : good h -> target (goLive c h id t) i = Some v ->
    (id = i /\ v = wanted c i) \/ target h i = Some v;
  goLive_publisher c h id t i : publisher (goLive c h id t) i = publisher h i;
  goLive_watchers c h id t i : watchers (goLive c h id t) i = watchers h i;
  watch_target h x i : target (watch h x) i = target h i;
  watch_publisher h x i : publisher (watch h x) i = publisher h i;
  watch_watchers h x i y : y ∈ watchers (watch h x) i -> y = x /\ Config.ID (cam x) = i \/ y ∈ watchers h i;
  unwatch_target h x i : target (unwatch h x) i = target h i;
  unwatch_publisher h x i : publisher (unwatch h x) i = publisher h i;
  unwatch_watchers h x i y : y ∈ watchers (unwatch h x) i -> y ∈ watchers h i;
  runs_target h h' i : good h -> runs h h' -> target h' i = target h i;
  runs_publisher h h' i : runs h h' -> publisher h' i = publisher h i;
  runs_watchers h h' i : runs h h' -> watchers h' i = watchers h i
}.

(** ** Listeners *)

(** [waitListeners]: the results as they come in, the error it returns, and whether
    it stopped the other listeners. *)
Definition waitListeners {E} (results : list (option E)) : option E * bool :=
  fold_left (λ '(first, stopped) err,
    match err with
    | Some e => (match first with None => Some e | Some _ => first end, true)
    | None => (first, stopped)
    end) results (None, false).

(** The error is the first one, and any error stops the others. *)
Lemma waitListeners_first {E} (results : list (option E)) :
  waitListeners results = (head (omap id results), bool_decide (omap id results <> [])).
Proof.
  unfold waitListeners. assert (Hgen : forall first stopped,
    fold_left (λ '(first, stopped) err, match err with
      | Some e => (match first with None => Some e | Some _ => first end, true) | None => (first, stopped) end) results (first, stopped)
    = (match first with None => head (omap id results) | Some _ => first end, stopped || bool_decide (omap id results <> []))).
  { induction results as [|[e|] results IH]; intros first stopped; cbn.
    - destruct first; by rewrite orb_false_r.
    - rewrite IH. destruct first; cbn; by rewrite orb_true_r.
    - rewrite IH. done. }
  by rewrite Hgen.
Qed.

(** ** The relay behind the hooks *)

(** The publishers that own a camera ([byIngest] of the ingest server), the
    subscribers that hold a place at the egress server, and what the clock shows. *)
Record hub := mkHub {
  relay : Relay.world;
  publishers : gmap string session;
  subscribers : list session;
  now : time
}.

#[export] Instance eta_hub : Eta hub := fun h => mkHub (relay h) (publishers h) (subscribers h) (now h).

(** Every name has a stream of its own. *)
Definition named (w : Relay.world) : Prop :=
  (forall id r, Relay.names w !! id = Some r -> is_Some (Relay.streams w !! r))
  /\ forall id id' r, Relay.names w !! id = Some r -> Relay.names w !! id' = Some r -> id = id'.

Definition hubTarget (w : Relay.world) (id : string) : option (duration * DynamicDelay.Options) :=
  r ← Relay.names w !! id; s ← Relay.streams w !! r;
  Some (DynamicDelay.base (Relay.delay s), DynamicDelay.options (Relay.delay s)).

(** [whep.CloseIngest] *)
Definition hubCloseViewers (h : hub) (id : string) : hub :=
  h <| subscribers := filter (λ x, Config.ID (cam x) <> id) (subscribers h) |>.

(** [Server.stopSession] of the session that owns a camera: the relay drops the
    stream and the subscribers are closed. *)
Definition hubStop (h : hub) (id : string) : hub :=
  match publishers h !! id with
  | Some _ =>
      hubCloseViewers (h <| relay := Relay.Drop (relay h) id |> <| publishers := delete id (publishers h) |>) id
  | None => h
  end.

(** [revoke]: [whip.CloseIngest], which stops the session it finds and no
    negotiation under way, then [whep.CloseIngest]. *)
Definition hubRevoke (h : hub) (id : string) : hub := hubCloseViewers (hubStop h id) id.

(** [retarget] *)
Definition hubRetarget (c : Config.Cfg) (h : hub) (id : string) (delayMS : Z) : hub :=
  h <| relay := Relay.ConfigureDelay (relay h) id (dmul delayMS Millisecond) (Config.DelayOptions c id) (now h) |>.

(** The end of [Server.negotiate]: the session gets the camera. *)
Definition hubInstall (h : hub) (x : session) : hub :=
  h <| publishers := <[Config.ID (cam x) := x]> (publishers h) |>.

(** [Server.drain] under its lock: the track is published, the stream configured
    and a buffer tracked. *)
Definition hubGoLive (c : Config.Cfg) (h : hub) (id : string) (t : announced) : hub :=
  match Relay.Publish (relay h) id (kind t) (local t) (ask t) (fresh (dom (Relay.streams (relay h)))) with
  | (w, inr _) => h <| relay := w |>
  | (w, inl _) =>
      let target := dmul (Config.EffectiveDelay c id) Millisecond in
      let w := Relay.ConfigureDelay w id target (Config.DelayOptions c id) (now h) in
      let buf := fresh (dom (Relay.bufs w)) in
      let w := Relay.setBuffer w buf (Buffer.NewBuffer target (clockRate t) (mimeType t) (bool_decide (is_Some (ask t)))) in
      h <| relay := Relay.Track w id buf |>
  end.

(** [Server.reserve] of the egress server, and a subscriber's end. *)
Definition hubWatch (h : hub) (x : session) : hub := h <| subscribers := x :: subscribers h |>.

Definition hubUnwatch (h : hub) (x : session) : hub :=
  h <| subscribers := match list_find (eq x) (subscribers h) with Some (i, _) => delete i (subscribers h) | None => subscribers h end |>.

(** What goes on in the relay between those: the streams of the names stay, and only
    [ConfigureDelay] changes what a stream was told. *)
Definition hubRuns (h h' : hub) : Prop :=
  publishers h' = publishers h /\ subscribers h' = subscribers h /\ now h <= now h'
  /\ Relay.names (relay h') = Relay.names (relay h)
  /\ forall r s, Relay.streams (relay h) !! r = Some s -> exists s', Relay.streams (relay h') !! r = Some s'
       /\ DynamicDelay.base (Relay.delay s') = DynamicDelay.base (Relay.delay s)
       /\ DynamicDelay.options (Relay.delay s') = DynamicDelay.options (Relay.delay s).

#[export] Instance relayHooks : Hooks hub := {|
  good h := named (relay h);
  target h := hubTarget (relay h);
  publisher h id := publishers h !! id;
  watchers h id := filter (λ x, Config.ID (cam x) = id) (subscribers h);
  revoke := hubRevoke;
  retarget := hubRetarget;
  stop := hubStop;
  install := hubInstall;
  goLive := hubGoLive;
  watch := hubWatch;
  unwatch := hubUnwatch;
  runs := hubRuns
|}.

(** [Configure] always leaves the new base and the normalized options. *)
Lemma Configure_told c newBase opts now :
  DynamicDelay.base (DynamicDelay.Configure c newBase opts now) = newBase
  /\ DynamicDelay.options (DynamicDelay.Configure c newBase opts now)
     = DynamicDelay.Normalize opts (dquot newBase Millisecond).
Proof.
  unfold DynamicDelay.Configure. destruct (_ && _) eqn:E; cbn.
  - apply andb_true_iff in E as [E _]. split; [lia|done].
  - destruct (DynamicDelay.state c); cbn; [done|]. by destruct (negb _).
Qed.

Lemma ConfigureDelay_names w id d o now : Relay.names (Relay.ConfigureDelay w id d o now) = Relay.names w.
Proof. unfold Relay.ConfigureDelay. destruct (Relay.names w !! id) as [r|]; [|done]. by destruct (Relay.streams w !! r). Qed.

Lemma ConfigureDelay_named w id d o now : named w -> named (Relay.ConfigureDelay w id d o now).
Proof.
  intros [H1 H2]. split; rewrite ConfigureDelay_names; [|done]. intros i r Hr. apply H1 in Hr. unfold Relay.ConfigureDelay.
  destruct (Relay.names w !! id) as [r'|]; [|done]. destruct (Relay.streams w !! r') as [s|] eqn:E; [|done]. cbn.
  rewrite lookup_insert_is_Some. destruct (decide (r' = r)); auto.
Qed.

Lemma ConfigureDelay_target w id d o now i v :
  named w -> hubTarget (Relay.ConfigureDelay w id d o now) i = Some v ->
  if String.eqb id i then v = (d, DynamicDelay.Normalize o (dquot d Millisecond)) else hubTarget w i = Some v.
Proof.
  intros [H1 H2]. unfold hubTarget. rewrite ConfigureDelay_names. destruct (Relay.names w !! i) as [r|] eqn:En; [|done]. cbn.
  unfold Relay.ConfigureDelay. destruct (String.eqb_spec id i) as [->|Hne].
  - rewrite En. destruct (H1 i r En) as [s Hs]. rewrite Hs. cbn. rewrite lookup_insert_eq. cbn. intros [= <-].
    destruct (Configure_told (Relay.delay s) d o now) as [-> ->]. done.
  - destruct (Relay.names w !! id) as [r'|] eqn:En'; [|done]. destruct (Relay.streams w !! r') as [s|]; [|done]. cbn.
    rewrite lookup_insert_ne; [done|]. intros ->. apply Hne. by apply (H2 id i r).
Qed.

(** The stream [Publish] finds or makes. *)
Lemma Publish_named w id k t f : named w -> named (Relay.Publish w id k t f (fresh (dom (Relay.streams w)))).1.
Proof.
  intros [H1 H2]. destruct t as [t|]; [|done]. unfold Relay.Publish. destruct (Relay.names w !! id) as [r|] eqn:En.
  - destruct (H1 id r En) as [s Hs]. rewrite Hs. cbn. split; cbn; [|done]. intros i r' Hr%H1. rewrite lookup_insert_is_Some.
    destruct (decide (r = r')); auto.
  - set (q := fresh _). assert (Hf : Relay.streams w !! q = None) by (apply not_elem_of_dom, is_fresh). cbn. rewrite lookup_insert_eq. cbn.
    assert (Hne : forall i r, Relay.names w !! i = Some r -> r <> q) by (intros i r Hr%H1 ->; rewrite Hf in Hr; by destruct Hr).
    split; cbn.
    + intros i r'. destruct (decide (id = i)) as [<-|]; [rewrite lookup_insert_eq; intros [= <-]; by rewrite lookup_insert_eq|].
      rewrite lookup_insert_ne by done. intros Hr. rewrite !lookup_insert_ne by (by apply not_eq_sym, (Hne i)). by apply (H1 i).
    + intros i i' r'. destruct (decide (id = i)) as [<-|], (decide (id = i')) as [<-|];
        rewrite ?lookup_insert_eq, ?lookup_insert_ne by done; try done; intros Ha Hb.
      * injection Ha as <-. by destruct (Hne i' q).
      * injection Hb as <-. by destruct (Hne i q).
      * by apply (H2 i i' r').
Qed.

Lemma Publish_target w id k t f i v :
  named w -> id <> i -> hubTarget (Relay.Publish w id k t f (fresh (dom (Relay.streams w)))).1 i = Some v ->
  hubTarget w i = Some v.
Proof.
  intros [H1 H2] Hne. destruct t as [t|]; [|done]. unfold hubTarget, Relay.Publish. destruct (Relay.names w !! id) as [r|] eqn:En.
  - destruct (H1 id r En) as [s Hs]. rewrite Hs. cbn. destruct (Relay.names w !! i) as [r'|] eqn:En'; cbn; [|done].
    rewrite lookup_insert_ne; [done|]. intros ->. by apply Hne, (H2 id i r').
  - set (q := fresh _). assert (Hf : Relay.streams w !! q = None) by (apply not_elem_of_dom, is_fresh). cbn. rewrite lookup_insert_eq. cbn.
    rewrite lookup_insert_ne by done. destruct (Relay.names w !! i) as [r'|] eqn:En'; cbn; [|done].
    rewrite !lookup_insert_ne; [done|..]; intros <-; destruct (H1 i q En'); congruence.
Qed.

(** Tracking a buffer leaves what the streams were told. *)
Lemma Track_told w buf b id :
  Relay.names (Relay.Track (Relay.setBuffer w buf b) id buf) = Relay.names w
  /\ (forall i, hubTarget (Relay.Track (Relay.setBuffer w buf b) id buf) i = hubTarget w i)
  /\ forall r, is_Some (Relay.streams w !! r) -> is_Some (Relay.streams (Relay.Track (Relay.setBuffer w buf b) id buf) !! r).
Proof.
  unfold Relay.Track, Relay.trackOn. cbn. destruct (Relay.names w !! id) as [r|]; [|done].
  destruct (Relay.streams w !! r) as [s|] eqn:Es; [|done]. rewrite lookup_insert_eq. cbn. split; [done|]. split.
  - intros i. unfold hubTarget. cbn. destruct (Relay.names w !! i) as [r'|]; [|done]. cbn.
    destruct (decide (r = r')) as [<-|]; [by rewrite lookup_insert_eq, Es|by rewrite lookup_insert_ne].
  - intros r' Hr'. rewrite lookup_insert_is_Some. destruct (decide (r = r')); auto.
Qed.

Lemma Track_named w buf b id : named w -> named (Relay.Track (Relay.setBuffer w buf b) id buf).
Proof.
  intros [H1 H2]. destruct (Track_told w buf b id) as (En & _ & Hs). split; rewrite En; [|done].
  intros i r Hr. by apply Hs, (H1 i).
Qed.

Lemma filter_camera_out id i (l : list session) :
  filter (λ x, Config.ID (cam x) = i) (filter (λ x, Config.ID (cam x) <> id) l)
  = if String.eqb id i then [] else filter (λ x, Config.ID (cam x) = i) l.
Proof.
  rewrite list_filter_filter. destruct (String.eqb_spec id i) as [<-|Hne].
  - induction l as [|x l IH]; [done|]. rewrite filter_cons. destruct (decide _) as [[]|]; [done|exact IH].
  - apply list_filter_iff. intros x. split; [by intros [? ?]|]. intros <-. split; [done|]. congruence.
Qed.

(** Stopping a publisher takes its camera and its stream's name away. *)
Lemma hubStop_spec h id :
  (named (relay h) -> named (relay (hubStop h id)))
  /\ (forall i v, hubTarget (relay (hubStop h id)) i = Some v -> hubTarget (relay h) i = Some v)
  /\ (forall i, publishers (hubStop h id) !! i = if String.eqb id i then None else publishers h !! i)
  /\ forall x, x ∈ subscribers (hubStop h id) -> x ∈ subscribers h.
Proof.
  unfold hubStop. destruct (publishers h !! id) as [y|] eqn:E; cbn.
  - split_and!.
    + intros [H1 H2]. split; cbn.
      * intros i r [_ Hr]%lookup_delete_Some. by apply (H1 i).
      * intros i i' r [_ Hr]%lookup_delete_Some [_ Hr']%lookup_delete_Some. by apply (H2 i i' r).
    + intros i v. unfold hubTarget. cbn. destruct (decide (id = i)) as [<-|]; [by rewrite lookup_delete_eq|by rewrite lookup_delete_ne].
    + intros i. destruct (String.eqb_spec id i) as [<-|]; [apply lookup_delete_eq|by apply lookup_delete_ne].
    + by intros x [_ ?]%list_elem_of_filter.
  - split_and!; try done. intros i. by destruct (String.eqb_spec id i) as [<-|].
Qed.

#[export] Instance relayHooksLaws : HooksLaws hub.
Proof.
  assert (Hfilter : forall i (l l' : list session), (forall x, x ∈ l' -> x ∈ l) ->
            forall x, x ∈ filter (λ x, Config.ID (cam x) = i) l' -> x ∈ filter (λ x, Config.ID (cam x) = i) l).
  { intros i l l' Hl x [? ?]%list_elem_of_filter. apply list_elem_of_filter. auto. }
  split; cbn.
  - intros h id. apply hubStop_spec.
  - intros c h id d H. by apply ConfigureDelay_named.
  - intros h id. apply hubStop_spec.
  - done.
  - intros c h id t H. unfold hubGoLive. pose proof (Publish_named (relay h) id (kind t) (local t) (ask t) H) as Hp.
    destruct (Relay.Publish _ _ _ _ _ _) as [w [x|e]]; [|done]. by apply Track_named, ConfigureDelay_named.
  - done.
  - done.
  - intros h h' (_ & _ & _ & En & Hs) [H1 H2]. split; rewrite En; [|done]. intros i r [s Hr]%H1. destruct (Hs r s Hr) as (s' & -> & _). eauto.
  - intros h id i v _. apply hubStop_spec.
  - intros h id i. apply hubStop_spec.
  - intros h id i. rewrite filter_camera_out. destruct (String.eqb_spec id i) as [|Hne]; [done|]. unfold hubStop.
    destruct (publishers h !! id); [|done]. cbn. rewrite filter_camera_out. by apply String.eqb_neq in Hne as ->.
  - intros c h id d i v H. apply ConfigureDelay_target, H.
  - done.
  - done.
  - intros h id i v _. apply hubStop_spec.
  - intros h id i. apply hubStop_spec.
  - intros h id i. apply Hfilter, hubStop_spec.
  - done.
  - intros h x i. destruct (String.eqb_spec (Config.ID (cam x)) i) as [<-|]; [apply lookup_insert_eq|by apply lookup_insert_ne].
  - done.
  - intros c h id t i v H. unfold hubGoLive. pose proof (Publish_named (relay h) id (kind t) (local t) (ask t) H) as Hp.
    pose proof (Publish_target (relay h) id (kind t) (local t) (ask t) i v H) as Ht.
    destruct (local t) as [tr|] eqn:El; [|intros Hv; by right].
    destruct (Relay.Publish _ _ _ (Some tr) _ _) as [w [x|e]] eqn:E.
    + intros Hv.
      assert (Hv' : hubTarget (Relay.ConfigureDelay w id (dmul (Config.EffectiveDelay c id) Millisecond)
                                 (Config.DelayOptions c id) (now h)) i = Some v)
        by (rewrite <-Hv; symmetry; apply (proj1 (proj2 (Track_told _ _ _ _)))).
      apply ConfigureDelay_target in Hv'; [|done].
      destruct (String.eqb_spec id i) as [<-|Hne]; [by left|right; by apply Ht].
    + unfold Relay.Publish in E. destruct (match Relay.names (relay h) !! id with Some _ => _ | None => _ end) as [w1 r].
      by destruct (Relay.streams w1 !! r).
  - intros c h id t i. unfold hubGoLive. by destruct (Relay.Publish _ _ _ _ _ _) as [w [x|e]].
  - intros c h id t i. unfold hubGoLive. by destruct (Relay.Publish _ _ _ _ _ _) as [w [x|e]].
  - done.
  - done.
  - intros h x i y. destruct (decide _); [|by right]. intros [->|?]%elem_of_cons; auto.
  - done.
  - done.
  - intros h x i. apply Hfilter. cbn. intros y. destruct (list_find _ _) as [[k z]|]; [|done].
    intros Hy. eapply elem_of_sublist; [exact Hy|apply sublist_delete].
  - intros h h' i [H1 _] (_ & _ & _ & En & Hs). unfold hubTarget. rewrite En. destruct (Relay.names (relay h) !! i) as [r|] eqn:Er; [|done].
    cbn. destruct (H1 i r Er) as [s Es]. rewrite Es. destruct (Hs r s Es) as (s' & -> & Eb & Eo). cbn. by rewrite Eb, Eo.
  - intros h h' i (-> & _). done.
  - intros h h' i (_ & -> & _). done.
Qed.

(** ** The configuration and the running cameras together *)

Record site (H : Type) := mkSite { conf : Config.world; cameras : H }.
Arguments mkSite {H} _ _.
Arguments conf {H} _.
Arguments cameras {H} _.

(** The loop of [ui.applyDelay] and of its callers. *)
Definition retargetAll {H} {hooks : Hooks H} (c : Config.Cfg) (h : H) (ids : list string) : H :=
  fold_left (λ h p, retarget c h p (Config.EffectiveDelay c p)) ids h.

(** The camera of an identifier: the first of the list. *)
Definition camera (l : list Config.Ingest) (id : string) : option Config.Ingest :=
  snd <$> list_find (λ i, Config.ID i = id) l.

Lemma camera_cons i l id : camera (i :: l) id = if String.eqb (Config.ID i) id then Some i else camera l id.
Proof.
  unfold camera. cbn. destruct (decide _) as [<-|Hne]; [by rewrite String.eqb_refl|].
  apply String.eqb_neq in Hne. rewrite Hne. by destruct (list_find _ l) as [[]|].
Qed.

#[global] Arguments camera : simpl never.

Lemma camera_Some l id i : camera l id = Some i -> i ∈ l /\ Config.ID i = id.
Proof.
  induction l as [|a l IH]; [done|]. rewrite camera_cons. destruct (String.eqb_spec (Config.ID a) id) as [<-|].
  - intros [= <-]. split; [by left|done].
  - intros [? ?]%IH. split; [by right|done].
Qed.

Lemma camera_is_Some l id : id ∈ Config.ID <$> l <-> is_Some (camera l id).
Proof.
  induction l as [|a l IH]; [split; [by intros ?%elem_of_nil|by intros [? ?]]|].
  rewrite camera_cons, fmap_cons, elem_of_cons, IH. destruct (String.eqb_spec (Config.ID a) id) as [<-|Hne].
  - split; [eauto|by left].
  - split; [intros [?|?]; [congruence|done]|by right].
Qed.

Lemma camera_unique l i : NoDup (Config.ID <$> l) -> i ∈ l -> camera l (Config.ID i) = Some i.
Proof.
  induction l as [|a l IH]; intros Hnd Hi; [by apply elem_of_nil in Hi|]. rewrite camera_cons.
  apply NoDup_cons in Hnd as [Hna Hnd]. apply elem_of_cons in Hi as [->|Hi]; [by rewrite String.eqb_refl|].
  destruct (String.eqb_spec (Config.ID a) (Config.ID i)) as [E|]; [|auto]. destruct Hna. rewrite E. by apply list_elem_of_fmap_2.
Qed.

(** One step of an insertion into a list. *)
Ltac list_insert_head :=
  repeat match goal with
  | |- context [<[0%nat := ?x]> (?a :: ?l)] => change (<[0%nat := x]> (a :: l)) with (x :: l)
  | |- context [<[S ?n := ?x]> (?a :: ?l)] => change (<[S n := x]> (a :: l)) with (a :: <[n := x]> l)
  end.

(** Changing one camera. *)
Lemma camera_insert l idx x x' id :
  l !! idx = Some x -> Config.ID x' = Config.ID x -> Config.ID x <> id -> camera (<[idx := x']> l) id = camera l id.
Proof.
  revert idx. induction l as [|a l IH]; intros idx Hx Hid Hne; [done|]. destruct idx as [|idx]; cbn in Hx; list_insert_head; rewrite !camera_cons.
  - injection Hx as ->. rewrite Hid. by apply String.eqb_neq in Hne as ->.
  - by rewrite (IH idx).
Qed.

Lemma camera_insert_cases l idx x x' id i :
  l !! idx = Some x -> Config.ID x' = Config.ID x -> camera l id = Some i ->
  exists i', camera (<[idx := x']> l) id = Some i' /\ (i' = i \/ i = x /\ i' = x').
Proof.
  revert idx. induction l as [|a l IH]; intros idx Hx Hid Hi; [done|]. rewrite camera_cons in Hi.
  destruct idx as [|idx]; cbn in Hx; list_insert_head; rewrite camera_cons.
  - injection Hx as ->. rewrite Hid. destruct (String.eqb (Config.ID x) id); [|eauto]. injection Hi as <-. eauto.
  - destruct (String.eqb (Config.ID a) id); [injection Hi as <-; eauto|]. by apply (IH idx).
Qed.

Lemma camera_insert_found l idx x x' :
  list_find (λ i, Config.ID i = Config.ID x) l = Some (idx, x) -> Config.ID x' = Config.ID x ->
  camera (<[idx := x']> l) (Config.ID x) = Some x'.
Proof.
  revert idx. induction l as [|a l IH]; intros idx Hf Hid; [done|]. cbn in Hf. destruct (decide _) as [Ha|Hne].
  - injection Hf as <- ->. list_insert_head. by rewrite camera_cons, Hid, String.eqb_refl.
  - destruct (list_find _ l) as [[n y]|] eqn:E; [|done]. cbn in Hf. injection Hf as <- ->. list_insert_head. rewrite camera_cons.
    apply String.eqb_neq in Hne as ->. by apply IH.
Qed.

(** [EffectiveDelay], [GroupPeers] and [DelayOptions] through [camera]. *)
Definition groupOf (c : Config.Cfg) (id : string) : string :=
  match camera (Config.Ingests c) id with Some i => Config.SyncGroup i | None => "" end.

Lemma EffectiveDelay_camera c id :
  Config.EffectiveDelay c id =
    match camera (Config.Ingests c) id with
    | Some i => if String.eqb (Config.SyncGroup i) "" then Config.DelayMS i
                else fold_left (Config.larger (Config.SyncGroup i)) (Config.Ingests c) (Config.DelayMS i)
    | None => 0
    end.
Proof. unfold Config.EffectiveDelay, camera. by destruct (list_find _ _) as [[]|]. Qed.

Lemma GroupPeers_camera c id :
  Config.GroupPeers c id =
    if String.eqb (groupOf c id) "" then [id]
    else Config.ID <$> filter (λ i, Config.SyncGroup i = groupOf c id) (Config.Ingests c).
Proof. unfold Config.GroupPeers, groupOf, camera. by destruct (list_find _ _) as [[]|]. Qed.

Lemma DelayOptions_camera c c' id :
  camera (Config.Ingests c') id = camera (Config.Ingests c) id -> Config.DelayOptions c' id = Config.DelayOptions c id.
Proof.
  unfold Config.DelayOptions, camera. destruct (list_find _ (Config.Ingests c')) as [[]|], (list_find _ (Config.Ingests c)) as [[]|];
    cbn; congruence.
Qed.

Lemma larger_insert g l idx x x' own :
  l !! idx = Some x -> Config.SyncGroup x <> g -> Config.SyncGroup x' <> g ->
  fold_left (Config.larger g) (<[idx := x']> l) own = fold_left (Config.larger g) l own.
Proof.
  revert idx own. induction l as [|a l IH]; intros idx own Hx Hg Hg'; [done|]. destruct idx as [|idx]; cbn in Hx; list_insert_head; cbn [fold_left]; [|by apply IH].
  injection Hx as ->. unfold Config.larger at 2 4. apply String.eqb_neq in Hg as ->. by apply String.eqb_neq in Hg' as ->.
Qed.

(** What is wanted of a camera depends on itself and on its group. *)
Lemma wanted_ext c c' id :
  camera (Config.Ingests c') id = camera (Config.Ingests c) id ->
  (forall own, groupOf c id <> "" ->
     fold_left (Config.larger (groupOf c id)) (Config.Ingests c') own = fold_left (Config.larger (groupOf c id)) (Config.Ingests c) own) ->
  wanted c' id = wanted c id.
Proof.
  intros Hcam Hfold. unfold wanted, told. rewrite (DelayOptions_camera c c' id Hcam).
  assert (Heff : Config.EffectiveDelay c' id = Config.EffectiveDelay c id); [|by rewrite Heff].
  rewrite !EffectiveDelay_camera, Hcam. unfold groupOf in Hfold. destruct (camera (Config.Ingests c) id) as [i|]; [|done].
  destruct (String.eqb_spec (Config.SyncGroup i) ""); [done|]. by apply Hfold.
Qed.

(** Changing one camera changes what is wanted of no camera outside the groups it
    was and is in. *)
Lemma wanted_insert c idx x x' id :
  Config.Ingests c !! idx = Some x -> Config.ID x' = Config.ID x -> Config.ID x <> id ->
  (groupOf c id <> "" -> Config.SyncGroup x <> groupOf c id /\ Config.SyncGroup x' <> groupOf c id) ->
  wanted (Config.with_Ingests c (<[idx := x']> (Config.Ingests c))) id = wanted c id.
Proof.
  intros Hx Hid Hne Hg. apply wanted_ext; [by apply (camera_insert _ idx x)|].
  intros own Hgne. destruct (Hg Hgne). by apply (larger_insert _ _ idx x).
Qed.

(** A new camera, in no group, comes last. *)
Lemma camera_snoc l x id :
  camera (l ++ [x]) id = match camera l id with Some i => Some i | None => if String.eqb (Config.ID x) id then Some x else None end.
Proof.
  induction l as [|a l IH]; [apply camera_cons|]. rewrite <-app_comm_cons, !camera_cons, IH. by destruct (String.eqb (Config.ID a) id).
Qed.

Lemma wanted_snoc c x id :
  Config.SyncGroup x = "" -> id ∈ Config.IngestIDs c ->
  wanted (Config.with_Ingests c (Config.Ingests c ++ [x])) id = wanted c id.
Proof.
  intros Hg [i Hi]%camera_is_Some. apply wanted_ext; cbn.
  - by rewrite camera_snoc, Hi.
  - intros own Hne. rewrite fold_left_app. cbn. unfold Config.larger at 1. rewrite Hg. apply not_eq_sym, String.eqb_neq in Hne.
    by rewrite Hne.
Qed.

(** A camera in no group is taken out. *)
Lemma camera_delete l idx x id : l !! idx = Some x -> Config.ID x <> id -> camera (delete idx l) id = camera l id.
Proof.
  revert idx. induction l as [|a l IH]; intros idx Hx Hne; [done|]. destruct idx as [|idx]; cbn in Hx.
  - injection Hx as ->. rewrite camera_cons. by apply String.eqb_neq in Hne as ->.
  - change (delete (S idx) (a :: l)) with (a :: delete idx l). by rewrite !camera_cons, (IH idx).
Qed.

Lemma larger_delete g l idx x own :
  l !! idx = Some x -> Config.SyncGroup x <> g ->
  fold_left (Config.larger g) (delete idx l) own = fold_left (Config.larger g) l own.
Proof.
  revert idx own. induction l as [|a l IH]; intros idx own Hx Hg; [done|]. destruct idx as [|idx]; cbn in Hx.
  - injection Hx as ->. cbn. unfold Config.larger at 3. by apply String.eqb_neq in Hg as ->.
  - change (delete (S idx) (a :: l)) with (a :: delete idx l). cbn [fold_left]. by apply IH.
Qed.

Lemma wanted_delete c idx x id :
  Config.Ingests c !! idx = Some x -> Config.ID x <> id -> Config.SyncGroup x = "" ->
  wanted (Config.with_Ingests c (delete idx (Config.Ingests c))) id = wanted c id.
Proof.
  intros Hx Hne Hg. apply wanted_ext; [by apply (camera_delete _ idx x)|]. intros own Hgne.
  apply (larger_delete _ _ idx x); [done|]. congruence.
Qed.

Lemma delete_IDs l idx (x : Config.Ingest) :
  NoDup (Config.ID <$> l) -> l !! idx = Some x ->
  NoDup (Config.ID <$> delete idx l) /\ forall id, id ∈ Config.ID <$> delete idx l -> id ∈ Config.ID <$> l /\ id <> Config.ID x.
Proof.
  intros Hnd Hx. rewrite (delete_take_drop l idx). rewrite <-(take_drop_middle l idx x Hx) in Hnd.
  assert (Hl : Config.ID <$> l = (Config.ID <$> take idx l) ++ Config.ID x :: (Config.ID <$> drop (S idx) l))
    by (by rewrite <-fmap_cons, <-fmap_app, take_drop_middle).
  rewrite fmap_app, fmap_cons in Hnd. rewrite fmap_app, Hl. apply NoDup_app in Hnd as (Ha & Hab & Hb).
  apply NoDup_cons in Hb as [Hxb Hb]. split.
  - apply NoDup_app. split_and!; [done| |done]. intros y Hy Hy'. apply (Hab y Hy). by right.
  - intros id. rewrite !elem_of_app, elem_of_cons. intros [Hid|Hid]; (split; [tauto|]); intros ->; [|done].
    apply (Hab _ Hid). by left.
Qed.

(** ** What the handlers keep true *)
Section invariants.
Context {H : Type} {hooks : Hooks H} {laws : HooksLaws H}.

(** Every running camera plays at what the configuration wants of it. *)
Definition in_sync (c : Config.Cfg) (h : H) : Prop :=
  forall id v, id ∈ Config.IngestIDs c -> target h id = Some v -> v = wanted c id.

(** A camera still has the key and the codecs a publisher was let in with, or the
    key of a subscriber. *)
Definition keepsSender (c : Config.Cfg) (ing : Config.Ingest) : bool :=
  match camera (Config.Ingests c) (Config.ID ing) with
  | Some i => bool_decide (Config.SenderKey i = Config.SenderKey ing /\ Config.Codecs i = Config.Codecs ing)
  | None => false
  end.

Definition keepsReceiver (c : Config.Cfg) (ing : Config.Ingest) : bool :=
  match camera (Config.Ingests c) (Config.ID ing) with
  | Some i => bool_decide (Config.ReceiverKey i = Config.ReceiverKey ing)
  | None => false
  end.

(** Every session that was let in with a key that was good when it got its place has
    a key that is still good, and a publisher the codecs the camera still has. *)
Definition let_in (c : Config.Cfg) (h : H) : Prop :=
  (forall id x, publisher h id = Some x -> timely x = true -> exists i, camera (Config.Ingests c) id = Some i
     /\ Config.SenderKey i = Config.SenderKey (cam x) /\ Config.Codecs i = Config.Codecs (cam x))
  /\ forall id x, x ∈ watchers h id -> timely x = true -> exists i, camera (Config.Ingests c) id = Some i
     /\ Config.ReceiverKey i = Config.ReceiverKey (cam x).

Definition unique (c : Config.Cfg) : Prop := NoDup (Config.IngestIDs c).

Lemma retargetAll_spec c h ids :
  good h ->
  good (retargetAll c h ids)
  /\ (forall id v, target (retargetAll c h ids) id = Some v ->
        if bool_decide (id ∈ ids) then v = wanted c id else target h id = Some v)
  /\ (forall id, publisher (retargetAll c h ids) id = publisher h id)
  /\ forall id, watchers (retargetAll c h ids) id = watchers h id.
Proof.
  revert h. induction ids as [|p ids IH]; intros h Hg; [split_and!; try done; intros id v; by rewrite bool_decide_false by set_solver|].
  destruct (IH (retarget c h p (Config.EffectiveDelay c p))) as (H1 & H2 & H3 & H4); [by apply retarget_good|].
  cbn. split_and!.
  - done.
  - intros id v Hv. apply H2 in Hv. destruct (bool_decide_reflect (id ∈ ids)) as [Hin|Hin].
    + by rewrite bool_decide_true by set_solver.
    + apply retarget_target in Hv; [|done]. destruct (String.eqb_spec p id) as [->|Hne].
      * by rewrite bool_decide_true by set_solver.
      * by rewrite bool_decide_false by set_solver.
  - intros id. by rewrite H3, retarget_publisher.
  - intros id. by rewrite H4, retarget_watchers.
Qed.

(** Cameras whose wish changed have to be among those retargeted. *)
Lemma in_sync_retarget c c' h ids :
  good h -> in_sync c h ->
  (forall id, id ∈ Config.IngestIDs c' -> id ∉ ids -> id ∈ Config.IngestIDs c /\ wanted c' id = wanted c id) ->
  in_sync c' (retargetAll c' h ids).
Proof.
  intros Hg Hs Hc id v Hid Hv. destruct (retargetAll_spec c' h ids Hg) as (_ & H2 & _). apply H2 in Hv.
  destruct (bool_decide_reflect (id ∈ ids)) as [|Hin]; [done|]. destruct (Hc id Hid Hin) as [Hid' ->]. by apply Hs.
Qed.

Lemma let_in_hub c h h' :
  let_in c h -> (forall id ing, publisher h' id = Some ing -> publisher h id = Some ing) ->
  (forall id ing, ing ∈ watchers h' id -> ing ∈ watchers h id) -> let_in c h'.
Proof. intros [H1 H2] Hp Hw. split; eauto. Qed.

Lemma let_in_retarget c c' h ids : good h -> let_in c' h -> let_in c' (retargetAll c h ids).
Proof.
  intros Hg Hl. destruct (retargetAll_spec c h ids Hg) as (_ & _ & H3 & H4).
  apply (let_in_hub c' h); [done|intros id ing; by rewrite H3|intros id ing; by rewrite H4].
Qed.

Lemma let_in_revoke c h id : let_in c h -> let_in c (revoke h id).
Proof.
  intros Hl. apply (let_in_hub c h); [done|..]; intros j ing.
  - rewrite revoke_publisher. by destruct (String.eqb id j).
  - rewrite revoke_watchers. destruct (String.eqb id j); [by intros ?%elem_of_nil|done].
Qed.

Lemma in_sync_revoke c h id : good h -> in_sync c h -> in_sync c (revoke h id).
Proof. intros Hg Hs j v Hj Hv. apply (Hs j v Hj). by eapply revoke_target. Qed.

(** ** One camera of the configuration is changed *)
Lemma insert_IDs c idx x x' :
  Config.Ingests c !! idx = Some x -> Config.ID x' = Config.ID x ->
  Config.IngestIDs (Config.with_Ingests c (<[idx := x']> (Config.Ingests c))) = Config.IngestIDs c.
Proof.
  intros Hx Hid. unfold Config.IngestIDs. cbn. rewrite list_fmap_insert, Hid. apply list_insert_id.
  by rewrite list_lookup_fmap, Hx.
Qed.

Lemma let_in_insert c idx x x' h :
  Config.Ingests c !! idx = Some x -> Config.ID x' = Config.ID x -> let_in c h ->
  (forall ing, publisher h (Config.ID x) = Some ing -> Config.SenderKey x' = Config.SenderKey x /\ Config.Codecs x' = Config.Codecs x) ->
  (forall ing, ing ∈ watchers h (Config.ID x) -> Config.ReceiverKey x' = Config.ReceiverKey x) ->
  let_in (Config.with_Ingests c (<[idx := x']> (Config.Ingests c))) h.
Proof.
  intros Hx Hid [H1 H2] Hp Hw. split; intros id ing Hing Htimely; cbn.
  - destruct (H1 id ing Hing Htimely) as (i & Hi & Es & Ec). destruct (camera_insert_cases _ idx x x' id i Hx Hid Hi) as (i' & Hi' & Hc).
    exists i'. split; [done|]. destruct Hc as [->|[-> ->]]; [done|]. destruct (camera_Some _ _ _ Hi) as [_ E].
    destruct (Hp ing) as [-> ->]; [by rewrite E|done].
  - destruct (H2 id ing Hing Htimely) as (i & Hi & Er). destruct (camera_insert_cases _ idx x x' id i Hx Hid Hi) as (i' & Hi' & Hc).
    exists i'. split; [done|]. destruct Hc as [->|[-> ->]]; [done|]. destruct (camera_Some _ _ _ Hi) as [_ E].
    rewrite (Hw ing); [done|]. by rewrite E.
Qed.

(** A change that touches neither delay, group nor policy. *)
Lemma wanted_insert_same c idx x x' id :
  Config.Ingests c !! idx = Some x -> Config.ID x' = Config.ID x -> Config.SyncGroup x' = Config.SyncGroup x ->
  Config.DelayMS x' = Config.DelayMS x -> Config.Opts x' = Config.Opts x ->
  wanted (Config.with_Ingests c (<[idx := x']> (Config.Ingests c))) id = wanted c id.
Proof.
  intros Hx Hid Hg Hd Ho. set (c' := Config.with_Ingests c _).
  assert (Hfold : forall g own, fold_left (Config.larger g) (Config.Ingests c') own = fold_left (Config.larger g) (Config.Ingests c) own).
  { intros g. cbn. clear - Hx Hg Hd. generalize dependent idx. induction (Config.Ingests c) as [|a l IH]; intros idx Hx own; [done|].
    destruct idx as [|idx]; cbn in Hx; list_insert_head; cbn [fold_left]; [|by apply IH]. injection Hx as ->.
    f_equal. unfold Config.larger. by rewrite Hg, Hd. }
  assert (Hcam : match camera (Config.Ingests c') id, camera (Config.Ingests c) id with
            | Some i', Some i => Config.SyncGroup i' = Config.SyncGroup i /\ Config.DelayMS i' = Config.DelayMS i /\ Config.Opts i' = Config.Opts i
            | None, None => True | _, _ => False end).
  { destruct (camera (Config.Ingests c) id) as [i|] eqn:E.
    - destruct (camera_insert_cases _ idx x x' id i Hx Hid E) as (i' & Hi' & Hc). change (Config.Ingests c') with (<[idx := x']> (Config.Ingests c)).
      rewrite Hi'. destruct Hc as [->|[-> ->]]; done.
    - destruct (camera (Config.Ingests c') id) as [i'|] eqn:E'; [|done]. assert (Hin : id ∈ Config.IngestIDs c') by (apply camera_is_Some; eauto).
      unfold c' in Hin. rewrite (insert_IDs c idx x x' Hx Hid) in Hin. apply camera_is_Some in Hin as [? ?]. congruence. }
  assert (He : Config.EffectiveDelay c' id = Config.EffectiveDelay c id).
  { rewrite !EffectiveDelay_camera. destruct (camera (Config.Ingests c') id), (camera (Config.Ingests c) id); try done.
    destruct Hcam as (-> & -> & _). by rewrite Hfold. }
  assert (Hopts : Config.DelayOptions c' id = Config.DelayOptions c id).
  { unfold Config.DelayOptions, camera in *. destruct (list_find _ (Config.Ingests c')) as [[]|], (list_find _ (Config.Ingests c)) as [[]|];
      cbn in *; try done. by destruct Hcam as (-> & -> & ->). }
  unfold wanted, told. by rewrite He, Hopts.
Qed.

Lemma in_sync_insert_same c idx x x' h :
  Config.Ingests c !! idx = Some x -> Config.ID x' = Config.ID x -> Config.SyncGroup x' = Config.SyncGroup x ->
  Config.DelayMS x' = Config.DelayMS x -> Config.Opts x' = Config.Opts x -> in_sync c h ->
  in_sync (Config.with_Ingests c (<[idx := x']> (Config.Ingests c))) h.
Proof.
  intros Hx Hid Hg Hd Ho Hs id v Hin Hv. rewrite (insert_IDs c idx x x') in Hin by done.
  rewrite (wanted_insert_same c idx x x') by done. by apply Hs.
Qed.

(** The cameras whose wish a change of camera [x] can touch: [x], the group it was
    in and the group it is in. *)
Lemma peers_cover c idx x x' id :
  list_find (λ i, Config.ID i = Config.ID x) (Config.Ingests c) = Some (idx, x) -> Config.ID x' = Config.ID x ->
  let c' := Config.with_Ingests c (<[idx := x']> (Config.Ingests c)) in
  id ∈ Config.IngestIDs c' -> id ∉ Config.GroupPeers c' (Config.ID x) ->
  (Config.SyncGroup x' = Config.SyncGroup x \/ id ∉ Config.GroupPeers c (Config.ID x)) ->
  id ∈ Config.IngestIDs c /\ wanted c' id = wanted c id.
Proof.
  intros Hf Hid c' Hin Hnew Hold. pose proof (list_find_Some (λ i, Config.ID i = Config.ID x) (Config.Ingests c) idx x) as [Hfs _].
  destruct (Hfs Hf) as (Hx & _ & _). pose proof Hin as Hin0. unfold c' in Hin. rewrite (insert_IDs c idx x x') in Hin by done. split; [done|].
  assert (Hg' : groupOf c' (Config.ID x) = Config.SyncGroup x') by (unfold groupOf; cbn; by rewrite (camera_insert_found _ idx x x')).
  assert (Hg : groupOf c (Config.ID x) = Config.SyncGroup x) by (unfold groupOf, camera; by rewrite Hf).
  rewrite GroupPeers_camera, Hg' in Hnew. rewrite GroupPeers_camera, Hg in Hold.
  assert (Hself : id <> Config.ID x).
  { intros ->. apply Hnew. destruct (String.eqb (Config.SyncGroup x') ""); [by left|]. apply list_elem_of_fmap. exists x'. split; [done|].
    apply list_elem_of_filter. split; [done|]. by apply (camera_Some _ (Config.ID x) x'), camera_insert_found. }
  apply (wanted_insert c idx x x'); auto. intros Hne. unfold groupOf in Hne |- *.
  destruct (camera (Config.Ingests c) id) as [i|] eqn:Ei; [|done]. destruct (camera_Some _ _ _ Ei) as [Hi Eid].
  assert (Hi' : i ∈ Config.Ingests c').
  { apply (camera_Some _ id i). cbn. by rewrite (camera_insert _ idx x x'). }
  assert (Hcov : forall l g, i ∈ l -> Config.SyncGroup i = g -> g <> "" -> id ∈ (if String.eqb g "" then [Config.ID x] else Config.ID <$> filter (λ i, Config.SyncGroup i = g) l)).
  { intros l g Hl <- Hgne. apply String.eqb_neq in Hgne as ->. rewrite <-Eid. apply list_elem_of_fmap_2, list_elem_of_filter. done. }
  split.
  - intros E. destruct Hold as [Eg|Hold]; [apply Hnew|apply Hold]; apply Hcov; try done; congruence.
  - intros E. apply Hnew, Hcov; try done; congruence.
Qed.

End invariants.

End Daemon.
