(* ===== verification/Transport.v ===== *)
(** * Links and transport ([src/internal/config/transport.go])

    [net/url.Parse] is seen through the parsed URL it returns. *)

From S2P Require Import Prelude.
From S2P Require Import DynamicDelay.
From S2P Require Import Config.
From S2P Require Import Text.
From stdpp Require Import pretty.
From Stdlib Require Import Ascii.

Module Transport.

(** ** What the code uses of packages [strings] and [net] *)
Fixpoint string_rev_app (s acc : string) : string :=
  match s with "" => acc | String a s => string_rev_app s (String a acc) end.

Definition string_rev (s : string) : string := string_rev_app s "".

(** [strings.TrimSuffix] *)
Fixpoint TrimSuffix (s suffix : string) : string :=
  if String.eqb s suffix then ""
  else match s with "" => "" | String a r => String a (TrimSuffix r suffix) end.

(** [strings.TrimLeft] and [strings.Trim] with a cutset of ASCII bytes. *)
Fixpoint TrimLeft (s : string) (cutset : list Ascii.ascii) : string :=
  match s with
  | "" => ""
  | String a r => if bool_decide (a ∈ cutset) then TrimLeft r cutset else s
  end.

Definition Trim (s : string) (cutset : list Ascii.ascii) : string :=
  string_rev (TrimLeft (string_rev (TrimLeft s cutset)) cutset).

Fixpoint containsByte (s : string) (c : Ascii.ascii) : bool :=
  match s with "" => false | String a r => Ascii.eqb a c || containsByte r c end.

(** [net.JoinHostPort] *)
Definition JoinHostPort (host port : string) : string :=
  if containsByte host ":"%char then "[" +:+ host +:+ "]:" +:+ port else host +:+ ":" +:+ port.

(** ** [transport.go] *)

(** A [url.URL], by the fields the code reads. *)
Record URL := mkURL { Scheme : string; UHost : string; hasUser : bool; RawQuery : string; Fragment : string; UPath : string }.

Definition httpsOrigin (parsed : option URL) : bool :=
  match parsed with
  | None => false
  | Some u =>
      String.eqb (Scheme u) "https" && negb (String.eqb (UHost u) "") && negb (hasUser u)
      && String.eqb (RawQuery u) "" && String.eqb (Fragment u) "" && (String.eqb (UPath u) "" || String.eqb (UPath u) "/")
  end.

(** [parse] is [url.Parse]. *)
Definition ValidateTransport (parse : string -> option URL) (c : Config.Cfg) : option Config.error :=
  if negb (Bool.eqb (String.eqb (Config.TLSCert c) "") (String.eqb (Config.TLSKey c) "")) then Some Config.ErrParseConfig
  else if negb (String.eqb (Config.PublicURL c) "") && negb (httpsOrigin (parse (Config.PublicURL c)))
  then Some Config.ErrParseConfig
  else None.

Definition SignalLinks (c : Config.Cfg) (host : string) : string * string :=
  if negb (String.eqb (Config.PublicURL c) "") then
    let base := TrimSuffix (Config.PublicURL c) "/" in
    ("whips" +:+ Text.TrimPrefix base "https" +:+ "/whip/", base +:+ "/player/")
  else
    let '(sender, receiver) :=
      if negb (String.eqb (Config.TLSCert c) "") && negb (String.eqb (Config.TLSKey c) "") then ("whips", "https") else ("whip", "http") in
    let authority := JoinHostPort (Trim host ["["%char; "]"%char]) (pretty (Config.SignalPort c)) in
    (sender +:+ "://" +:+ authority +:+ "/whip/", receiver +:+ "://" +:+ authority +:+ "/player/").

(** The links of one camera ([src/internal/control/provision.go]). *)
Record cameraLinks := mkLinks { Moblin : string; WHIP : string; WHEP : string; Player : string }.

Definition cameraResponse (c : Config.Cfg) (camera : Config.Ingest) : cameraLinks :=
  let host := Config.Host c in
  let host := if String.eqb host "" then "127.0.0.1" else host in
  let '(moblin, player) := SignalLinks c host in
  let base := TrimSuffix player "/player/" in
  mkLinks (moblin +:+ Config.SenderKey camera) (base +:+ "/whip/" +:+ Config.SenderKey camera)
    (base +:+ "/whep/" +:+ Config.ReceiverKey camera) (player +:+ Config.ReceiverKey camera).

(** ** Lemmas *)
Lemma TrimSuffix_app s suffix : suffix <> "" -> TrimSuffix (s +:+ suffix) suffix = s.
Proof.
  intros Hne. induction s as [|a s IH].
  - rewrite string_app_nil_l. assert (E : String.eqb suffix suffix = true) by apply String.eqb_refl.
    destruct suffix; [done|]. cbn [TrimSuffix]. by rewrite E.
  - rewrite string_app_cons. cbn [TrimSuffix]. destruct (String.eqb_spec (String a (s +:+ suffix)) suffix) as [E|_]; [|by rewrite IH].
    exfalso. apply (f_equal String.length) in E. cbn in E. rewrite Config.string_length_app in E. lia.
Qed.

(** The scheme a sender's link has in place of the player's. *)
Definition senderOf (receiver : string) : string := "whip" +:+ Text.TrimPrefix receiver "http".

(** The origin of a public URL written as [url.Parse] normalises its scheme. *)
Definition lowerOrigin (c : Config.Cfg) : Prop :=
  Config.PublicURL c = "" \/ exists rest, Config.PublicURL c = "https" +:+ rest.

Lemma TrimSuffix_https rest : exists rest', TrimSuffix ("https" +:+ rest) "/" = "https" +:+ rest'.
Proof.
  exists (TrimSuffix rest "/"). cbn. done.
Qed.

Lemma TrimPrefix_app p r : Text.TrimPrefix (p +:+ r) p = r.
Proof. unfold Text.TrimPrefix. assert (E : CutPrefix (p +:+ r) p = Some r) by (by apply CutPrefix_app). by rewrite E. Qed.

(** Where the listener for senders and viewers is reached from outside: the
    configured public URL, or the host and port with the scheme of its transport. *)
Definition originOf (c : Config.Cfg) : string :=
  if String.eqb (Config.PublicURL c) "" then
    (if String.eqb (Config.TLSCert c) "" || String.eqb (Config.TLSKey c) "" then "http" else "https")
    +:+ "://" +:+ JoinHostPort (Trim (if String.eqb (Config.Host c) "" then "127.0.0.1" else Config.Host c)
                                  ["["%char; "]"%char]) (pretty (Config.SignalPort c))
  else TrimSuffix (Config.PublicURL c) "/".

Lemma player_link c host :
  host = (if String.eqb (Config.Host c) "" then "127.0.0.1" else Config.Host c) ->
  (SignalLinks c host).2 = originOf c +:+ "/player/".
Proof.
  intros ->. unfold SignalLinks, originOf. destruct (String.eqb (Config.PublicURL c) ""); cbn [negb]; [|done].
  destruct (String.eqb (Config.TLSCert c) ""), (String.eqb (Config.TLSKey c) ""); cbn [negb andb orb snd];
    by rewrite !Text.string_app_assoc.
Qed.

Lemma phone_link c host :
  host = (if String.eqb (Config.Host c) "" then "127.0.0.1" else Config.Host c) -> lowerOrigin c ->
  (SignalLinks c host).1 = senderOf (originOf c) +:+ "/whip/" /\ exists rest, originOf c = "http" +:+ rest.
Proof.
  intros -> Hl. unfold SignalLinks, originOf, senderOf. destruct Hl as [->|(rest & ->)]; cbn [String.eqb negb].
  - generalize (JoinHostPort (Trim (if String.eqb (Config.Host c) "" then "127.0.0.1" else Config.Host c)
                                ["["%char; "]"%char]) (pretty (Config.SignalPort c))). intros authority.
    assert (Hs : forall r, Text.TrimPrefix ("https" +:+ r) "http" = "s" +:+ r)
      by (intros r; exact (TrimPrefix_app "http" ("s" +:+ r))).
    destruct (String.eqb (Config.TLSCert c) ""), (String.eqb (Config.TLSKey c) ""); cbn [negb andb orb fst];
      rewrite ?Hs, ?TrimPrefix_app, ?Text.string_app_assoc; (split; [done|]);
      first [by exists ("://" +:+ authority)|by exists ("s://" +:+ authority)].
  - assert (Hne : String.eqb ("https" +:+ rest) "" = false) by done. rewrite Hne. cbn [negb].
    destruct (TrimSuffix_https rest) as [rest' ->]. rewrite TrimPrefix_app. cbn [fst]. split; [done|].
    exists ("s" +:+ rest'). done.
Qed.

(** ** Claims *)

(** The links of a camera agree.  The WHIP, WHEP and player links are one
    origin with the path of their route and the key of their role, for any
    configuration.  The link for the phone is the WHIP link with its scheme
    rewritten ([http] to [whip], [https] to [whips]); for a public URL this needs
    its scheme written in lower case. *)
Theorem links_agree c camera :
  let l := cameraResponse c camera in
  WHIP l = originOf c +:+ "/whip/" +:+ Config.SenderKey camera
  /\ WHEP l = originOf c +:+ "/whep/" +:+ Config.ReceiverKey camera
  /\ Player l = originOf c +:+ "/player/" +:+ Config.ReceiverKey camera
  /\ (lowerOrigin c -> Moblin l = senderOf (WHIP l) /\ exists rest, WHIP l = "http" +:+ rest).
Proof.
  unfold cameraResponse. set (host := if String.eqb _ _ then _ else _).
  pose proof (player_link c host eq_refl) as Hp. pose proof (phone_link c host eq_refl) as Hm.
  destruct (SignalLinks c host) as [moblin player]. cbn in Hp, Hm |- *. subst player.
  rewrite TrimSuffix_app by done. split_and!; try done; [by rewrite Text.string_app_assoc|].
  intros Hl. destruct (Hm Hl) as [-> [rest E]]. rewrite E. unfold senderOf.
  rewrite !Text.string_app_assoc, !TrimPrefix_app. split; [done|eexists; reflexivity].
Qed.

(** ** Examples *)
Definition demoConfig (publicURL cert : string) : Config.Cfg :=
  Config.mkCfg 1 "fd00::1" "" "" None None cert cert publicURL [] 7332 7331 7330 false "" 0 None [].

Definition demoCamera : Config.Ingest := Config.mkIngest DynamicDelay.zeroOptions "cam" "Cam" "s_1" "r_1" [] 0 "".

Example demo_links :
  cameraResponse (demoConfig "" "") demoCamera =
    mkLinks "whip://[fd00::1]:7331/whip/s_1" "http://[fd00::1]:7331/whip/s_1" "http://[fd00::1]:7331/whep/r_1" "http://[fd00::1]:7331/player/r_1".
Proof. vm_compute. reflexivity. Qed.

(** A scheme in capitals passes [httpsOrigin], since [url.Parse] lowers it, and is
    not trimmed from the sender's link. *)
Example capital_scheme :
  ValidateTransport (λ _, Some (mkURL "https" "cam.example" false "" "" "")) (demoConfig "HTTPS://cam.example" "") = None
  /\ SignalLinks (demoConfig "HTTPS://cam.example" "") "" = ("whipsHTTPS://cam.example/whip/", "HTTPS://cam.example/player/").
Proof. vm_compute. done. Qed.

Example links_agree_lower :
  let l := cameraResponse (demoConfig "https://cam.example/" "") demoCamera in
  originOf (demoConfig "https://cam.example/" "") = "https://cam.example" /\ Moblin l = senderOf (WHIP l).
Proof.
  split; [vm_compute; reflexivity|].
  apply (links_agree (demoConfig "https://cam.example/" "") demoCamera). right. by exists "://cam.example/".
Qed.

End Transport.
