(* ===== verification/Settings.v ===== *)
(** * The settings page ([src/internal/ui/ui.go])

    A handler takes the configuration with the running cameras ([Daemon.site])
    and the decoded body, [None] for a body [decode] refuses, to the new state and
    the response.  Handlers are taken one after another.  The hooks are those of
    [Daemon.Hooks]; [calls] is the fate of the save, the random draws come with the
    request.  The platform's autostart and the STUN lookup are what they answered. *)

From S2P Require Import Prelude.
From S2P Require Import DynamicDelay.
From S2P Require Import Config.
From S2P Require Import Daemon.
From S2P Require Import Transport.
From stdpp Require Import pretty.

Module Settings.

Import Daemon.

Definition StatusOK : Z := 200.
Definition StatusCreated : Z := 201.
Definition StatusNoContent : Z := 204.
Definition StatusBadRequest : Z := 400.
Definition StatusNotFound : Z := 404.
Definition StatusConflict : Z := 409.
Definition StatusInternalServerError : Z := 500.

(** ** [loopbackOnly] *)

(** The headers of a request it reads; an absent header is the empty string. *)
Record headers := mkHeaders { Host : string; secFetchSite : string }.

Definition ours (port : Z) : list string :=
  ["127.0.0.1:" +:+ pretty port; "localhost:" +:+ pretty port; "[::1]:" +:+ pretty port].

(** Whether the request reaches the page's routes; it is answered 404 otherwise. *)
Definition loopbackOnly (port : Z) (req : headers) : bool :=
  let site := secFetchSite req in
  negb (negb (bool_decide (Host req ∈ ours port))
        || (negb (String.eqb site "") && negb (String.eqb site "same-origin") && negb (String.eqb site "none"))).

(** ** The page *)
Record codecChoice := mkChoice { Name : string; Label : string; On : bool; Caveat : string }.

Definition caveat (name : string) : string :=
  if String.eqb name Config.CodecH265 then
    "Needs OBS started with --enable-features=WebRtcAllowH265Receive. Its bundled Chromium is 133, which has the flag but not the default."
  else if String.eqb name Config.CodecAV1 then
    "No iPhone can encode AV1, so Moblin will never pick it. For a desktop or OBS publisher only."
  else "".

Definition codecChoices (on : list string) : list codecChoice :=
  (λ name, mkChoice name (Config.CodecLabel name) (bool_decide (name ∈ on)) (caveat name)) <$> Config.AllCodecs.

Record cameraView := mkView { Camera : Config.Ingest; Effective : Z; Choices : list codecChoice }.

Record pageData := mkPage {
  Views : list cameraView;
  SenderBase : string;
  ReceiverBase : string;
  SecureSignal : bool;
  LANControl : bool;
  RemoteControl : bool;
  ControlAvailable : bool;
  ControlConfigured : bool;
  Floor : Z
}.

Definition handlePage (c : Config.Cfg) (controlAtStart : bool) : pageData :=
  let host := Config.Host c in
  let host := if String.eqb host "" then "your-public-address" else host in
  let views := (λ cam, mkView cam (Config.EffectiveDelay c (Config.ID cam)) (codecChoices (Config.Codecs cam))) <$> Config.ListIngests c in
  let '(senderBase, receiverBase) := Transport.SignalLinks c host in
  mkPage views senderBase receiverBase (HasPrefix receiverBase "https://") (Config.LANControlEnabled c)
    (Config.RemoteControlEnabled c) controlAtStart (negb (String.eqb (Config.Token c) "")) (Config.Floor c).

Section handlers.
Context {H : Type} {hooks : Hooks H} {laws : HooksLaws H}.

Abbreviation site := (Daemon.site H).

Definition withConf (s : site) (w : Config.world) : site := mkSite w (cameras s).

(** A setter of the configuration, the running cameras left alone. *)
Definition configure (s : site) (r : Config.world * option Config.error) : site * option Config.error :=
  (withConf s r.1, r.2).

Definition mutate {T} (s : site) (body : option T) (run : T -> site * option Config.error) : site * Z :=
  match body with
  | None => (s, StatusBadRequest)
  | Some b =>
      match run b with
      | (s, Some _) => (s, StatusNotFound)
      | (s, None) => (s, StatusNoContent)
      end
  end.

(** [s.retarget] with the effective delay, for each of a list of cameras *)
Definition retargets (s : site) (ids : list string) : site :=
  mkSite (conf s) (retargetAll (Config.cfg (conf s)) (cameras s) ids).

Definition applyDelay (s : site) (id : string) : site := retargets s (Config.GroupPeers (Config.cfg (conf s)) id).

Definition revokes (s : site) (id : string) : site := mkSite (conf s) (revoke (cameras s) id).

Definition handleAdd (s : site) (k : Config.calls) (label : option string) (r1 r2 r3 : option (list Z)) : site * Z :=
  mutate s label (λ label, let '(w, r) := Config.AddIngest (conf s) k label r1 r2 r3 in (withConf s w, Config.failed r)).

Definition handleRemove (s : site) (k : Config.calls) (id : option string) : site * Z :=
  mutate s id (λ id,
    match configure s (Config.RemoveIngest (conf s) k id) with
    | (s, Some e) => (s, Some e)
    | (s, None) => (revokes s id, None)
    end).

(** The status of a failed key reset, on the page and on the control API. *)
Definition resetStatus (e : Config.error) : Z :=
  match e with Config.ErrUnknownIngest => StatusNotFound | _ => StatusInternalServerError end.

Definition handleResetKey (s : site) (k : Config.calls) (id : option string) (r : option (list Z)) : site * Z :=
  match id with
  | None | Some "" => (s, StatusBadRequest)
  | Some id =>
      match Config.ResetSenderKey (conf s) k id r with
      | (w, inr e) => (withConf s w, resetStatus e)
      | (w, inl camera) => (revokes (withConf s w) (Config.ID camera), StatusNoContent)
      end
  end.

Definition handleDelay (s : site) (k : Config.calls) (body : option (string * Z)) : site * Z :=
  mutate s body (λ '(id, delayMS),
    match configure s (Config.SetDelay (conf s) k id delayMS) with
    | (s, Some e) => (s, Some e)
    | (s, None) => (applyDelay s id, None)
    end).

Definition handleDynamicDelay (s : site) (k : Config.calls) (body : option (string * DynamicDelay.Options)) : site * Z :=
  mutate s body (λ '(id, options),
    match configure s (Config.SetDynamicDelay (conf s) k id options) with
    | (s, Some e) => (s, Some e)
    | (s, None) => (applyDelay s id, None)
    end).

Definition handleGroup (s : site) (k : Config.calls) (body : option (string * string)) : site * Z :=
  mutate s body (λ '(id, group),
    let former := Config.GroupPeers (Config.cfg (conf s)) id in
    match configure s (Config.SetSyncGroup (conf s) k id group) with
    | (s, Some e) => (s, Some e)
    | (s, None) => (applyDelay (retargets s former) id, None)
    end).

Definition handleLabel (s : site) (k : Config.calls) (body : option (string * string)) : site * Z :=
  mutate s body (λ '(id, label), configure s (Config.SetLabel (conf s) k id label)).

Definition handleCodecs (s : site) (k : Config.calls) (body : option (string * list string)) : site * Z :=
  mutate s body (λ '(id, codecs),
    match configure s (Config.SetCodecs (conf s) k id codecs) with
    | (s, Some e) => (s, Some e)
    | (s, None) => (revokes s id, None)
    end).

Definition handleCreateToken (s : site) (k : Config.calls) (r : option (list Z)) : site * (Z * option string) :=
  match Config.CreateControlToken (conf s) k r with
  | (w, inr Config.ErrTokenExists) => (withConf s w, (StatusConflict, None))
  | (w, inr _) => (withConf s w, (StatusInternalServerError, None))
  | (w, inl token) => (withConf s w, (StatusCreated, Some token))
  end.

(** [body] is [None] also for a document without [on]. *)
Definition handleControlAccess (s : site) (k : Config.calls) (scope : string) (body : option bool) : site * Z :=
  if negb (String.eqb scope "lan") && negb (String.eqb scope "remote") then (s, StatusNotFound)
  else
    match body with
    | None => (s, StatusBadRequest)
    | Some on =>
        match Config.SetControlAccess (conf s) k scope on with
        | (w, Some _) => (withConf s w, StatusInternalServerError)
        | (w, None) => (withConf s w, StatusNoContent)
        end
    end.

(** [acted]: whether the platform enabled or disabled it. *)
Definition handleSetAutostart (s : site) (k : Config.calls) (body : option bool) (acted : bool) : site * Z :=
  match body with
  | None => (s, StatusBadRequest)
  | Some on =>
      if negb acted then (s, StatusInternalServerError)
      else (withConf s (Config.SetAutostart (conf s) k on).1, StatusOK)
  end.

(** [found] is the public host of the report of [reach.Look]. *)
Definition handleReachability (s : site) (k : Config.calls) (found : string) : site * Z :=
  let c := Config.cfg (conf s) in
  if negb (String.eqb found "") && String.eqb (Config.TLSCert c) "" && String.eqb (Config.PublicURL c) ""
  then (withConf s (Config.SetPublicHost (conf s) k found).1, StatusOK)
  else (s, StatusOK).

(** ** Requests *)
Inductive request :=
  | RAdd (label : option string) (r1 r2 r3 : option (list Z))
  | RRemove (id : option string)
  | RResetKey (id : option string) (r : option (list Z))
  | RDelay (body : option (string * Z))
  | RDynamicDelay (body : option (string * DynamicDelay.Options))
  | RGroup (body : option (string * string))
  | RLabel (body : option (string * string))
  | RCodecs (body : option (string * list string))
  | RToken (r : option (list Z))
  | RAccess (scope : string) (body : option bool)
  | RAutostart (body : option bool) (acted : bool)
  | RReachability (found : string).

Definition serve (s : site) (k : Config.calls) (q : request) : site * Z :=
  match q with
  | RAdd l r1 r2 r3 => handleAdd s k l r1 r2 r3
  | RRemove id => handleRemove s k id
  | RResetKey id r => handleResetKey s k id r
  | RDelay b => handleDelay s k b
  | RDynamicDelay b => handleDynamicDelay s k b
  | RGroup b => handleGroup s k b
  | RLabel b => handleLabel s k b
  | RCodecs b => handleCodecs s k b
  | RToken r => let '(s, (st, _)) := handleCreateToken s k r in (s, st)
  | RAccess scope b => handleControlAccess s k scope b
  | RAutostart b acted => handleSetAutostart s k b acted
  | RReachability found => handleReachability s k found
  end.

(** ** The invariant *)
Record site_ok (c : Config.Cfg) (h : H) : Prop := {
  s_unique : unique c;
  s_good : good h;
  s_sync : in_sync c h;
  s_let_in : let_in c h
}.

(** A setter either fails, the configuration as before, or changes one camera. *)
Lemma update_cases w k id change w' err :
  Config.update w k id change = (w', err) ->
  (exists e, err = Some e) /\ Config.cfg w' = Config.cfg w
  \/ err = None /\ exists idx x, list_find (λ i, Config.ID i = Config.ID x) (Config.Ingests (Config.cfg w)) = Some (idx, x) /\ Config.ID x = id
       /\ Config.cfg w' = Config.with_Ingests (Config.cfg w) (<[idx := change x]> (Config.Ingests (Config.cfg w))).
Proof.
  intros E. pose proof (Config.update_saved w k id change) as Hs. rewrite E in Hs. destruct err as [e|]; [left; split; [eauto|by apply Hs]|].
  right. split; [done|]. unfold Config.update in E. destruct (list_find _ _) as [[idx x]|] eqn:F; [|done].
  destruct (Config.save _ _ _) as [d [e|]]; [done|]. injection E as <-. pose proof (list_find_Some (λ i, Config.ID i = id) (Config.Ingests (Config.cfg w)) idx x) as [Hx _].
  destruct (Hx F) as (_ & <- & _). by exists idx, x.
Qed.

(** Renaming a camera, its tokens, and the like. *)
Lemma ok_insert_same c h idx x x' :
  Config.Ingests c !! idx = Some x -> Config.ID x' = Config.ID x -> Config.SyncGroup x' = Config.SyncGroup x ->
  Config.DelayMS x' = Config.DelayMS x -> Config.Opts x' = Config.Opts x -> Config.ReceiverKey x' = Config.ReceiverKey x ->
  Config.SenderKey x' = Config.SenderKey x -> Config.Codecs x' = Config.Codecs x ->
  site_ok c h -> site_ok (Config.with_Ingests c (<[idx := x']> (Config.Ingests c))) h.
Proof.
  intros Hx Hid Hg Hd Ho Hr Hk Hc [H1 H2 H3 H4]. split; [|done| |].
  - unfold unique. by rewrite (insert_IDs c idx x x').
  - by apply (in_sync_insert_same c idx x x').
  - apply (let_in_insert c idx x x'); auto.
Qed.

(** Changing its key or codecs, its sessions revoked. *)
Lemma ok_insert_revoke c h idx x x' :
  Config.Ingests c !! idx = Some x -> Config.ID x' = Config.ID x -> Config.SyncGroup x' = Config.SyncGroup x ->
  Config.DelayMS x' = Config.DelayMS x -> Config.Opts x' = Config.Opts x ->
  site_ok c h -> site_ok (Config.with_Ingests c (<[idx := x']> (Config.Ingests c))) (revoke h (Config.ID x)).
Proof.
  intros Hx Hid Hg Hd Ho [H1 H2 H3 H4]. split.
  - unfold unique. by rewrite (insert_IDs c idx x x').
  - by apply revoke_good.
  - apply in_sync_revoke; [done|]. by apply (in_sync_insert_same c idx x x').
  - apply (let_in_insert c idx x x'); auto; [by apply let_in_revoke|..]; intros ing.
    + by rewrite revoke_publisher, String.eqb_refl.
    + rewrite revoke_watchers, String.eqb_refl. by intros ?%elem_of_nil.
Qed.

(** Changing its delay, policy or group, the cameras concerned retargeted. *)
Lemma ok_retarget c h idx x x' ids :
  list_find (λ i, Config.ID i = Config.ID x) (Config.Ingests c) = Some (idx, x) -> Config.ID x' = Config.ID x ->
  Config.ReceiverKey x' = Config.ReceiverKey x -> Config.SenderKey x' = Config.SenderKey x -> Config.Codecs x' = Config.Codecs x ->
  (forall id, id ∈ Config.GroupPeers (Config.with_Ingests c (<[idx := x']> (Config.Ingests c))) (Config.ID x) -> id ∈ ids) ->
  Config.SyncGroup x' = Config.SyncGroup x \/ (forall id, id ∈ Config.GroupPeers c (Config.ID x) -> id ∈ ids) ->
  site_ok c h ->
  site_ok (Config.with_Ingests c (<[idx := x']> (Config.Ingests c)))
    (retargetAll (Config.with_Ingests c (<[idx := x']> (Config.Ingests c))) h ids).
Proof.
  intros Hf Hid Hr Hk Hc Hnew Hold [H1 H2 H3 H4]. set (c' := Config.with_Ingests c _) in *.
  assert (Hx : Config.Ingests c !! idx = Some x) by (by apply list_find_Some in Hf as (? & _)).
  split.
  - unfold unique, c'. by rewrite (insert_IDs c idx x x').
  - by apply retargetAll_spec.
  - apply (in_sync_retarget c); [done|done|]. intros id Hin Hnot. apply (peers_cover c idx x x'); auto.
    destruct Hold as [?|Hold]; [by left|right; auto].
  - apply let_in_retarget; [done|]. apply (let_in_insert c idx x x'); auto.
Qed.

Lemma ok_cameras_same c c' h : Config.Ingests c' = Config.Ingests c -> site_ok c h -> site_ok c' h.
Proof.
  intros E [H1 H2 H3 H4]. split; unfold unique, in_sync, let_in, Config.IngestIDs, wanted, told, Config.EffectiveDelay, Config.DelayOptions in *;
    rewrite ?E; auto.
Qed.

Lemma ok_add c h x :
  site_ok c h -> Config.SyncGroup x = "" -> Config.ID x ∉ Config.IngestIDs c -> target h (Config.ID x) = None ->
  site_ok (Config.with_Ingests c (Config.Ingests c ++ [x])) h.
Proof.
  intros [H1 H2 H3 [H4 H5]] Hg Hnew Ht.
  assert (Eids : Config.IngestIDs (Config.with_Ingests c (Config.Ingests c ++ [x])) = Config.IngestIDs c ++ [Config.ID x])
    by (unfold Config.IngestIDs; cbn; by rewrite fmap_app).
  split; [|done| |].
  - unfold unique. rewrite Eids. apply NoDup_app. split_and!; [done| |apply NoDup_singleton]. intros id Hid ->%list_elem_of_singleton. done.
  - intros id v Hid Hv. rewrite Eids, elem_of_app, list_elem_of_singleton in Hid. destruct Hid as [Hid| ->]; [|congruence].
    rewrite wanted_snoc by done. by apply H3.
  - split; intros id y Hy Htimely; cbn; rewrite camera_snoc.
    + destruct (H4 id y Hy Htimely) as (i & -> & ?). eauto.
    + destruct (H5 id y Hy Htimely) as (i & -> & ?). eauto.
Qed.

Lemma ok_remove c h idx x :
  site_ok c h -> Config.Ingests c !! idx = Some x -> Config.SyncGroup x = "" ->
  site_ok (Config.with_Ingests c (delete idx (Config.Ingests c))) (revoke h (Config.ID x)).
Proof.
  intros [H1 H2 H3 H4] Hx Hg. destruct (delete_IDs _ idx x H1 Hx) as [Hnd Hids]. split.
  - done.
  - by apply revoke_good.
  - intros id v Hid Hv. destruct (Hids id Hid) as [Hin Hne]. rewrite (wanted_delete c idx x) by done.
    apply H3; [done|]. by eapply revoke_target.
  - destruct H4 as [H4 H5]. split; intros id ing; cbn.
    + rewrite revoke_publisher. destruct (String.eqb_spec (Config.ID x) id) as [|Hne]; [done|]. intros Hing Htimely.
      destruct (H4 id ing Hing Htimely) as (i & Hi & ?). exists i. by rewrite (camera_delete _ idx x).
    + rewrite revoke_watchers. destruct (String.eqb_spec (Config.ID x) id) as [|Hne]; [by intros ?%elem_of_nil|]. intros Hing Htimely.
      destruct (H5 id ing Hing Htimely) as (i & Hi & ?). exists i. by rewrite (camera_delete _ idx x).
Qed.

(** What the invariant needs of a request: a new identifier is unused, and a camera
    that is removed is in no sync group. *)
Definition fair (s : site) (q : request) : Prop :=
  match q with
  | RAdd _ _ _ r3 => forall id, Config.newKey "" r3 = inl id -> (id ∉ Config.IngestIDs (Config.cfg (conf s))) /\ target (cameras s) id = None
  | RRemove (Some id) => groupOf (Config.cfg (conf s)) id = ""
  | _ => True
  end.

Abbreviation ok s := (site_ok (Config.cfg (conf s)) (cameras s)).

Lemma update_ok (s : site) k id change w' err :
  ok s -> Config.update (conf s) k id change = (w', err) ->
  (exists e, err = Some e) /\ ok (withConf s w')
  \/ err = None /\ exists idx x, list_find (λ i, Config.ID i = Config.ID x) (Config.Ingests (Config.cfg (conf s))) = Some (idx, x)
       /\ Config.Ingests (Config.cfg (conf s)) !! idx = Some x /\ Config.ID x = id
       /\ Config.cfg w' = Config.with_Ingests (Config.cfg (conf s)) (<[idx := change x]> (Config.Ingests (Config.cfg (conf s)))).
Proof.
  intros Hok E. destruct (update_cases _ _ _ _ _ _ E) as [[He Hc]|(-> & idx & x & Hf & Hid & Hc)].
  - left. split; [done|]. cbn. by rewrite Hc.
  - right. split; [done|]. exists idx, x. split_and!; auto. pose proof (list_find_Some (λ i, Config.ID i = Config.ID x) (Config.Ingests (Config.cfg (conf s))) idx x) as [Hx _].
    by destruct (Hx Hf).
Qed.

Lemma handleDelay_ok s k b : ok s -> ok (handleDelay s k b).1.
Proof.
  intros Hok. destruct b as [[id d]|]; [|done]. unfold handleDelay, mutate, configure, Config.SetDelay.
  destruct (Config.update _ _ _ _) as [w' err] eqn:E. apply update_ok in E; [|done].
  destruct E as [[[e ->] H']|(-> & idx & x & Hf & Hx & <- & Hc)]; [done|]. cbn. rewrite Hc.
  apply (ok_retarget _ _ idx x _); auto.
Qed.

Lemma handleDynamicDelay_ok s k b : ok s -> ok (handleDynamicDelay s k b).1.
Proof.
  intros Hok. destruct b as [[id o]|]; [|done]. unfold handleDynamicDelay, mutate, configure, Config.SetDynamicDelay.
  destruct (Config.update _ _ _ _) as [w' err] eqn:E. apply update_ok in E; [|done].
  destruct E as [[[e ->] H']|(-> & idx & x & Hf & Hx & <- & Hc)]; [done|]. cbn. rewrite Hc.
  apply (ok_retarget _ _ idx x _); auto.
Qed.

Lemma retargetAll_app c (h : H) l l' : retargetAll c (retargetAll c h l) l' = retargetAll c h (l ++ l').
Proof. unfold retargetAll. by rewrite fold_left_app. Qed.

Lemma handleGroup_ok s k b : ok s -> ok (handleGroup s k b).1.
Proof.
  intros Hok. destruct b as [[id g]|]; [|done]. unfold handleGroup, mutate, configure, Config.SetSyncGroup.
  destruct (Config.update _ _ _ _) as [w' err] eqn:E. apply update_ok in E; [|done].
  destruct E as [[[e ->] H']|(-> & idx & x & Hf & Hx & <- & Hc)]; [done|]. cbn. rewrite Hc, retargetAll_app.
  apply (ok_retarget _ _ idx x _); auto.
  - intros id Hid. apply elem_of_app. by right.
  - right. intros id Hid. apply elem_of_app. by left.
Qed.

Lemma handleLabel_ok s k b : ok s -> ok (handleLabel s k b).1.
Proof.
  intros Hok. destruct b as [[id l]|]; [|done]. unfold handleLabel, mutate, configure, Config.SetLabel.
  destruct (Config.update _ _ _ _) as [w' err] eqn:E. apply update_ok in E; [|done].
  destruct E as [[[e ->] H']|(-> & idx & x & Hf & Hx & <- & Hc)]; [done|]. cbn. rewrite Hc. by apply (ok_insert_same _ _ idx x).
Qed.

Lemma handleCodecs_ok s k b : ok s -> ok (handleCodecs s k b).1.
Proof.
  intros Hok. destruct b as [[id l]|]; [|done]. unfold handleCodecs, mutate, configure, Config.SetCodecs.
  destruct (Config.update _ _ _ _) as [w' err] eqn:E. apply update_ok in E; [|done].
  destruct E as [[[e ->] H']|(-> & idx & x & Hf & Hx & <- & Hc)]; [done|]. cbn. rewrite Hc. by apply (ok_insert_revoke _ _ idx x).
Qed.

(** A key reset, wherever it was asked for. *)
Lemma ResetSenderKey_ok (s : site) k id r w' res :
  ok s -> Config.ResetSenderKey (conf s) k id r = (w', res) ->
  match res with inl camera => ok (revokes (withConf s w') (Config.ID camera)) | inr _ => ok (withConf s w') end.
Proof.
  intros Hok E. pose proof (Config.ResetSenderKey_saved (conf s) k id r) as Hs. rewrite E in Hs. unfold Config.ResetSenderKey in E.
  destruct res as [camera|e]; [|destruct Hs as [[Hc _] _]; cbn; by rewrite Hc].
  destruct (list_find _ _) as [[idx x]|] eqn:F; [|done]. destruct (Config.newKey _ r) as [key|]; [|done].
  destruct (Config.save _ _ _) as [d [e|]]; [done|]. injection E as <- <-. cbn.
  apply list_find_Some in F as (Hx & _ & _). by apply (ok_insert_revoke _ _ idx x).
Qed.

Lemma handleAdd_ok s k l r1 r2 r3 : ok s -> fair s (RAdd l r1 r2 r3) -> ok (handleAdd s k l r1 r2 r3).1.
Proof.
  intros Hok Hf. destruct l as [l|]; [|done]. unfold handleAdd, mutate.
  pose proof (Config.AddIngest_saved (conf s) k l r1 r2 r3) as Hs. destruct (Config.AddIngest _ _ _ _ _ _) as [w' res] eqn:E.
  destruct res as [i|e]; cbn; [|destruct Hs as [[Hc _] _]; cbn; by rewrite Hc].
  unfold Config.AddIngest in E. destruct (Config.newKey Config.SenderPrefix r1); [|done].
  destruct (Config.newKey Config.ReceiverPrefix r2); [|done]. cbn in Hf. destruct (Config.newKey "" r3) as [id|]; [|done].
  destruct (Hf id eq_refl) as [Hnew Ht]. destruct (Config.save _ _ _) as [d [e|]]; [done|]. injection E as <- _. cbn.
  by apply ok_add.
Qed.

Lemma handleRemove_ok s k id : ok s -> fair s (RRemove id) -> ok (handleRemove s k id).1.
Proof.
  intros Hok Hf. destruct id as [id|]; [|done]. unfold handleRemove, mutate, configure.
  pose proof (Config.RemoveIngest_saved (conf s) k id) as Hs. destruct (Config.RemoveIngest _ _ _) as [w' err] eqn:E.
  destruct err as [e|]; cbn; [destruct Hs as [[Hc _] _]; cbn; by rewrite Hc|].
  unfold Config.RemoveIngest in E. destruct (list_find _ _) as [[idx x]|] eqn:F; [|done].
  destruct (Config.save _ _ _) as [d [e|]]; [done|]. injection E as <-. cbn.
  pose proof F as F'. apply list_find_Some in F' as (Hx & <- & _). apply ok_remove; auto.
  cbn in Hf. unfold groupOf, camera in Hf. by rewrite F in Hf.
Qed.

Lemma handleResetKey_ok s k id r : ok s -> ok (handleResetKey s k id r).1.
Proof.
  intros Hok. unfold handleResetKey. destruct id as [[|a id]|]; try done.
  destruct (Config.ResetSenderKey _ _ _ _) as [w' res] eqn:E. pose proof (ResetSenderKey_ok s k _ r w' res Hok E).
  by destruct res.
Qed.

(** Every request of the page keeps the invariant. *)
Lemma serve_ok s k q : ok s -> fair s q -> ok (serve s k q).1.
Proof.
  intros Hok Hf. destruct q as [l r1 r2 r3|id|id r|b|b|b|b|b|r|scope b|b acted|found]; cbn [serve].
  - by apply handleAdd_ok.
  - by apply handleRemove_ok.
  - by apply handleResetKey_ok.
  - by apply handleDelay_ok.
  - by apply handleDynamicDelay_ok.
  - by apply handleGroup_ok.
  - by apply handleLabel_ok.
  - by apply handleCodecs_ok.
  - unfold handleCreateToken, Config.CreateControlToken. destruct (negb _); [done|]. destruct r; [|done].
    destruct (Config.save _ _ _) as [d [e|]]; cbn; [destruct e; cbn|]; (eapply ok_cameras_same; [|exact Hok]; done).
  - unfold handleControlAccess, Config.SetControlAccess. destruct (negb _ && _); [done|]. destruct b; [|done].
    cases_if; try done; destruct (Config.save _ _ _) as [d [e|]]; cbn; (eapply ok_cameras_same; [|exact Hok]; done).
  - unfold handleSetAutostart, Config.SetAutostart. destruct b; [|done]. destruct acted; [|done]. cbn.
    destruct (Config.save _ _ _) as [d' [e|]]; (eapply ok_cameras_same; [|exact Hok]; done).
  - unfold handleReachability, Config.SetPublicHost. destruct (_ && _ && _); [|done]. destruct (String.eqb _ _); [done|].
    cbn. destruct (Config.save _ _ _) as [d' [e|]]; (eapply ok_cameras_same; [|exact Hok]; done).
Qed.

End handlers.

End Settings.
