(* ===== verification/Autostart.v ===== *)
(** * Starting at login ([src/internal/autostart])

    Each platform keeps its login entry somewhere else: a systemd user unit, a
    LaunchAgent, a value of the registry's Run key.  The class [Login] is what the
    settings page uses of a platform, [LoginLaws] what it may rely on; the three
    sources are three instances.  What the operating system answers (directories,
    the path of the executable, the fate of each call) is an argument; a failed
    write leaves the file untouched or cut short, and a command of the service
    manager changes what it has active even when it fails. *)

From S2P Require Import Prelude.
From S2P Require Import Text.
From S2P Require Import Relay.
From S2P Require Import Config.
From S2P Require Import Daemon.
From S2P Require Import Settings.
From Stdlib Require Import Ascii.
From stdpp Require Import pretty.

Local Open Scope Z_scope.

Module Autostart.

(** ** [autostart.go] *)
Inductive error := ErrRegister | ErrUnregister | ErrLocateBinary.

Record State := mkState { On : bool; Stale : bool; Note : string }.

Definition off : State := mkState false false "".

(** [os.Executable], and [filepath.EvalSymlinks]. *)
Record process := mkProcess { executable : option string; evalSymlinks : string -> option string }.

Definition binaryPath (p : process) : option string :=
  match executable p with
  | None => None
  | Some path => Some (default path (evalSymlinks p path))
  end.

(** ** What the settings page uses of a platform *)

(** [W] is what the platform keeps, [A] what it answers during a call.  [entry] is
    the text registered for the user, [active] whether the service manager has the
    service enabled (Linux) or loaded (macOS); [legible] whether the process can read
    the entry, [barred] whether the place of the entry cannot be opened for a removal;
    [obeys] that the service manager does what it reports. *)
Class Login (W A : Type) := {
  Status : W -> A -> State;
  Enable : W -> A -> W * option error;
  Disable : W -> A -> W * option error;
  running : A -> option string;
  entry : W -> A -> option string;
  active : W -> A -> bool;
  legible : A -> bool;
  barred : A -> bool;
  obeys : A -> Prop
}.

Class LoginLaws (W A : Type) `{Login W A} := {
  status_exact w a :
    match entry w a with
    | None => On (Status w a) = false /\ Stale (Status w a) = false
    | Some text => On (Status w a) = legible a
        /\ Stale (Status w a)
           = legible a && match running a with None => true | Some b => negb (Text.Contains text b) end
    end;
  enable_registers w w' a : Enable w a = (w', None) ->
    exists text b, entry w' a = Some text /\ running a = Some b /\ Text.Contains text b = true
      /\ (obeys a -> active w' a = true);
  disable_removes w w' a : Disable w a = (w', None) ->
    if barred a then entry w' a = entry w a else entry w' a = None;
  disable_fails w w' a e : Disable w a = (w', Some e) -> entry w' a = entry w a;
  disable_stops w w' a e : obeys a -> Disable w a = (w', e) -> active w' a = true -> active w a = true
}.

(** ** Files and the service manager ([os], [exec_unix.go]) *)

(** The files of the user, and whether the service manager has the service. *)
Record disk := mkDisk { files : gmap string string; service : bool }.

#[export] Instance eta_disk : Eta disk := fun d => mkDisk (files d) (service d).

(** The fate of [os.WriteFile]: the file cannot be opened, or the write stops after
    [n] bytes, or it is written. *)
Inductive writing := Unopened | Cut (n : nat) | Written.

(** [home] is [os.UserConfigDir] on Linux and [os.UserHomeDir] on macOS; [manager]
    is what a command of the service manager answers, and whether it then has the
    service, given whether it had it. *)
Record unixCalls := mkCalls {
  home : option string;
  proc : process;
  uid : Z;
  readable : bool;
  mkdir : bool;
  write : writing;
  unlink : bool;
  manager : list string -> bool -> bool * bool
}.

Definition readFile (d : disk) (c : unixCalls) (path : string) : option string :=
  if readable c then files d !! path else None.

Definition writeFile (d : disk) (c : unixCalls) (path text : string) : disk * bool :=
  match write c with
  | Unopened => (d, false)
  | Cut n => (d <| files := <[path := String.substring 0 n text]> (files d) |>, false)
  | Written => (d <| files := <[path := text]> (files d) |>, true)
  end.

(** [os.Remove]: whether it worked or there was nothing to remove. *)
Definition remove (d : disk) (c : unixCalls) (path : string) : disk * bool :=
  match files d !! path with
  | None => (d, true)
  | Some _ => if unlink c then (d <| files := delete path (files d) |>, true) else (d, false)
  end.

Definition run (d : disk) (c : unixCalls) (args : list string) : disk * bool :=
  let '(ok, has) := manager c args (service d) in (d <| service := has |>, ok).

(** ** Linux ([autostart_linux.go]) *)
Definition unitName : string := "wagastrim.service".

Definition lingerNote : string :=
  "On a headless machine also run: loginctl enable-linger $USER. Without it a user service only starts when someone logs in.".

Definition unitPath (c : unixCalls) : option string :=
  match home c with None => None | Some dir => Some (Text.Join [dir; "systemd"; "user"; unitName]) end.

Definition unit (binary : string) : string :=
"[Unit]
Description=wagaStrim ingest
After=network-online.target

[Service]
ExecStart=" +:+ binary +:+ " -headless
Restart=on-failure
RestartSec=5

[Install]
WantedBy=default.target
".

Definition reload : list string := ["--user"; "daemon-reload"].
Definition enableNow : list string := ["--user"; "enable"; "--now"; unitName].
Definition disableNow : list string := ["--user"; "disable"; "--now"; unitName].

Definition linuxStatus (d : disk) (c : unixCalls) : State :=
  match unitPath c with
  | None => off
  | Some path =>
      match readFile d c path with
      | None => off
      | Some body =>
          match binaryPath (proc c) with
          | None => mkState true true lingerNote
          | Some want => mkState true (negb (Text.Contains body want)) lingerNote
          end
      end
  end.

Definition linuxEnable (d : disk) (c : unixCalls) : disk * option error :=
  match unitPath c with
  | None => (d, Some ErrRegister)
  | Some path =>
      match binaryPath (proc c) with
      | None => (d, Some ErrLocateBinary)
      | Some binary =>
          if negb (mkdir c) then (d, Some ErrRegister)
          else
            match writeFile d c path (unit binary) with
            | (d, false) => (d, Some ErrRegister)
            | (d, true) =>
                let d := (run d c reload).1 in
                match run d c enableNow with
                | (d, false) => (d, Some ErrRegister)
                | (d, true) => (d, None)
                end
            end
      end
  end.

Definition linuxDisable (d : disk) (c : unixCalls) : disk * option error :=
  match unitPath c with
  | None => (d, Some ErrRegister)
  | Some path =>
      let d := (run d c disableNow).1 in
      match remove d c path with
      | (d, false) => (d, Some ErrUnregister)
      | (d, true) => ((run d c reload).1, None)
      end
  end.

(** ** macOS ([autostart_darwin.go]) *)
Definition agentLabel : string := "tv.anyways.wagastrim".

Definition plistPath (c : unixCalls) : option string :=
  match home c with None => None | Some dir => Some (Text.Join [dir; "Library"; "LaunchAgents"; agentLabel +:+ ".plist"]) end.

Definition domain (c : unixCalls) : string := "gui/" +:+ pretty (uid c).

(** A double quote. *)
Definition quote : string := String "034" "".

Definition quoted (s : string) : string := quote +:+ s +:+ quote.

Definition plistHead : string :=
  "<?xml version=" +:+ quoted "1.0" +:+ " encoding=" +:+ quoted "UTF-8" +:+ "?>
<!DOCTYPE plist PUBLIC " +:+ quoted "-//Apple//DTD PLIST 1.0//EN" +:+ " " +:+ quoted "http://www.apple.com/DTDs/PropertyList-1.0.dtd" +:+ ">
<plist version=" +:+ quoted "1.0" +:+ ">
<dict>
  <key>Label</key><string>" +:+ agentLabel +:+ "</string>
  <key>ProgramArguments</key>
  <array><string>".

Definition plist (binary : string) : string :=
  plistHead +:+ binary +:+ "</string></array>
  <key>RunAtLoad</key><true/>
  <key>KeepAlive</key><true/>
</dict>
</plist>
".

Definition darwinStatus (d : disk) (c : unixCalls) : State :=
  match plistPath c with
  | None => off
  | Some path =>
      match readFile d c path with
      | None => off
      | Some body =>
          match binaryPath (proc c) with
          | None => mkState true true ""
          | Some want => mkState true (negb (Text.Contains body want)) ""
          end
      end
  end.

Definition darwinEnable (d : disk) (c : unixCalls) : disk * option error :=
  match plistPath c with
  | None => (d, Some ErrRegister)
  | Some path =>
      match binaryPath (proc c) with
      | None => (d, Some ErrLocateBinary)
      | Some binary =>
          if negb (mkdir c) then (d, Some ErrRegister)
          else
            match writeFile d c path (plist binary) with
            | (d, false) => (d, Some ErrRegister)
            | (d, true) =>
                let d := (run d c ["bootout"; domain c +:+ "/" +:+ agentLabel]).1 in
                match run d c ["bootstrap"; domain c; path] with
                | (d, false) => (d, Some ErrRegister)
                | (d, true) => (d, None)
                end
            end
      end
  end.

Definition darwinDisable (d : disk) (c : unixCalls) : disk * option error :=
  match plistPath c with
  | None => (d, Some ErrRegister)
  | Some path =>
      let d := (run d c ["bootout"; domain c +:+ "/" +:+ agentLabel]).1 in
      match remove d c path with
      | (d, false) => (d, Some ErrUnregister)
      | (d, true) => (d, None)
      end
  end.

(** ** Windows ([autostart_windows.go]) *)

(** The user's Run key: absent, or with the value of that name if it is set. *)
Record registry := mkRegistry { runKey : option (option string) }.

(** The fate of the registry calls: opening the key for reading, reading the value,
    creating the key, writing the value, opening it for writing, deleting. *)
Record registryCalls := mkRegCalls {
  process_ : process;
  openQuery : bool;
  getValue : bool;
  createKey : bool;
  setValue : bool;
  openSet : bool;
  deleteValue : bool
}.

Definition windowsStatus (r : registry) (c : registryCalls) : State :=
  match runKey r with
  | Some value =>
      if negb (openQuery c) then off
      else
        match (if getValue c then value else None) with
        | None => off
        | Some existing =>
            match binaryPath (process_ c) with
            | None => mkState true true ""
            | Some want => mkState true (negb (Text.Contains existing want)) ""
            end
        end
  | None => off
  end.

Definition windowsEnable (r : registry) (c : registryCalls) : registry * option error :=
  match binaryPath (process_ c) with
  | None => (r, Some ErrLocateBinary)
  | Some binary =>
      if negb (createKey c) then (r, Some ErrRegister)
      else
        let r := mkRegistry (Some (default None (runKey r))) in
        if setValue c then (mkRegistry (Some (Some (quoted binary))), None) else (r, Some ErrRegister)
  end.

(** A value that is not there makes [DeleteValue] fail with "cannot find". *)
Definition windowsDisable (r : registry) (c : registryCalls) : registry * option error :=
  match runKey r with
  | None => (r, None)
  | Some value =>
      if negb (openSet c) then (r, None)
      else
        match value with
        | None => (r, None)
        | Some _ => if deleteValue c then (mkRegistry (Some None), None) else (r, Some ErrUnregister)
        end
  end.

(** ** The three instances *)
#[export] Instance linuxLogin : Login disk unixCalls := {|
  Status := linuxStatus;
  Enable := linuxEnable;
  Disable := linuxDisable;
  running c := binaryPath (proc c);
  entry d c := unitPath c ≫= λ path, files d !! path;
  active d c := service d;
  legible c := readable c;
  barred c := false;
  obeys c := forall had,
    ((manager c enableNow had).1 = true -> (manager c enableNow had).2 = true)
    /\ ((manager c disableNow had).2 = true -> had = true) /\ (manager c reload had).2 = had
|}.

(** The LaunchAgents of a macOS user. *)
Record macDisk := mkMac { mac : disk }.

#[export] Instance darwinLogin : Login macDisk unixCalls := {|
  Status d := darwinStatus (mac d);
  Enable d c := let '(d, e) := darwinEnable (mac d) c in (mkMac d, e);
  Disable d c := let '(d, e) := darwinDisable (mac d) c in (mkMac d, e);
  running c := binaryPath (proc c);
  entry d c := plistPath c ≫= λ path, files (mac d) !! path;
  active d c := service (mac d);
  legible c := readable c;
  barred c := false;
  obeys c := forall had,
    (forall path, (manager c ["bootstrap"; domain c; path] had).1 = true -> (manager c ["bootstrap"; domain c; path] had).2 = true)
    /\ ((manager c ["bootout"; domain c +:+ "/" +:+ agentLabel] had).2 = true -> had = true)
|}.

#[export] Instance windowsLogin : Login registry registryCalls := {|
  Status := windowsStatus;
  Enable := windowsEnable;
  Disable := windowsDisable;
  running c := binaryPath (process_ c);
  entry r c := default None (runKey r);
  active r c := bool_decide (is_Some (default None (runKey r)));
  legible c := openQuery c && getValue c;
  barred c := negb (openSet c);
  obeys c := True
|}.

(** ** The page's handlers ([handleAutostart], [handleSetAutostart] of [ui.go]) *)
Section handlers.
Context {W A : Type} {login : Login W A} {H : Type}.

Definition handleAutostart (w : W) (a : A) : Z * State := (Settings.StatusOK, Status w a).

(** The platform is asked first; what the page stores and answers follows from
    whether it did as it was told. *)
Definition handleSetAutostart (s : Daemon.site H) (k : Config.calls) (body : option bool) (w : W) (a : A)
    : Daemon.site H * W * (Z * option State) :=
  match body with
  | None => (s, w, ((Settings.handleSetAutostart s k None false).2, None))
  | Some on =>
      let '(w, err) := if on then Enable w a else Disable w a in
      let '(s, status) := Settings.handleSetAutostart s k (Some on) (bool_decide (err = None)) in
      (s, w, (status, match err with None => Some (Status w a) | Some _ => None end))
  end.
End handlers.

(** ** The laws *)
#[export] Instance error_eq_dec : EqDecision error.
Proof. solve_decision. Defined.

Lemma unit_contains b : Text.Contains (unit b) b = true.
Proof. unfold unit. apply Text.Contains_app. Qed.

Lemma plist_contains b : Text.Contains (plist b) b = true.
Proof. unfold plist. apply Text.Contains_app. Qed.

Lemma quoted_contains b : Text.Contains (quoted b) b = true.
Proof. apply Text.Contains_app. Qed.

#[export] Hint Resolve unit_contains plist_contains quoted_contains : go.

Lemma remove_spec d c path d' done :
  remove d c path = (d', done) -> if done then files d' !! path = None else files d' = files d.
Proof.
  unfold remove. destruct (files d !! path) eqn:E; [destruct (unlink c)|]; intros [= <- <-]; cbn; by simplify_map_eq.
Qed.

Lemma run_files d c args : files (run d c args).1 = files d.
Proof. unfold run. by destruct (manager c args (service d)). Qed.

Lemma run_service d c args : service (run d c args).1 = (manager c args (service d)).2.
Proof. unfold run. by destruct (manager c args (service d)). Qed.

Lemma run_answers d c args d' ok : run d c args = (d', ok) -> ok = (manager c args (service d)).1.
Proof. unfold run. destruct (manager c args (service d)). by intros [= _ <-]. Qed.

Lemma remove_service d c path d' done : remove d c path = (d', done) -> service d' = service d.
Proof. unfold remove. destruct (files d !! path); [destruct (unlink c)|]; by intros [= <- _]. Qed.

(** What a status reads of a file. *)
Lemma status_of (d : disk) (c : unixCalls) (path : option string) (note : string) :
  let st := match path with
            | None => off
            | Some path =>
                match readFile d c path with
                | None => off
                | Some body =>
                    match binaryPath (proc c) with
                    | None => mkState true true note
                    | Some want => mkState true (negb (Text.Contains body want)) note
                    end
                end
            end in
  match (path ≫= λ path, files d !! path) with
  | None => On st = false /\ Stale st = false
  | Some text => On st = readable c
      /\ Stale st = readable c && match binaryPath (proc c) with None => true | Some b => negb (Text.Contains text b) end
  end.
Proof.
  cbn zeta. destruct path as [path|]; [|done]. cbn. unfold readFile.
  destruct (files d !! path), (readable c); try done. by destruct (binaryPath _).
Qed.

(** The platforms with files: the removal, whatever the service manager did before. *)
Lemma removal d c args path d' ok :
  remove (run d c args).1 c path = (d', ok) ->
  (if ok then files d' !! path = None else files d' = files d) /\ service d' = (manager c args (service d)).2.
Proof.
  intros E. split; [|by rewrite (remove_service _ _ _ _ _ E), run_service].
  apply remove_spec in E. by rewrite run_files in E.
Qed.

#[export] Instance linuxLaws : LoginLaws disk unixCalls.
Proof.
  split; cbn.
  - intros d c. apply status_of.
  - intros d d' c. unfold linuxEnable, writeFile. destruct (unitPath c) as [path|]; [|done].
    destruct (binaryPath _) as [b|]; [|done]. destruct (mkdir c); [|done]. destruct (write c); try done. cbn [negb].
    set (d1 := d <| files := _ |>). destruct (run _ c enableNow) as [d2 ok] eqn:E. destruct ok; [|done]. intros [= <-].
    pose proof (run_files (run d1 c reload).1 c enableNow) as Hf. pose proof (run_service (run d1 c reload).1 c enableNow) as Hs.
    apply run_answers in E as Hok. rewrite E, run_files in Hf. rewrite E in Hs. cbn in Hf, Hs.
    exists (unit b), b. cbn. rewrite Hf. cbn. rewrite lookup_insert_eq. split_and!; auto with go.
    intros Ho. rewrite Hs. by apply (proj1 (Ho _)).
  - intros d d' c. unfold linuxDisable. destruct (unitPath c) as [path|]; [|done].
    destruct (remove _ _ _) as [d1 ok] eqn:E. apply removal in E as [Hf _]. destruct ok; intros [= <-]. cbn.
    by rewrite run_files.
  - intros d d' c e. unfold linuxDisable. destruct (unitPath c) as [path|]; [|by intros [= <- _]].
    destruct (remove _ _ _) as [d1 ok] eqn:E. apply removal in E as [Hf _]. destruct ok; intros [= <- _]. cbn. by rewrite Hf.
  - intros d d' c e Ho. unfold linuxDisable. destruct (unitPath c) as [path|]; [|by intros [= <- _]].
    destruct (remove _ _ _) as [d1 ok] eqn:E. apply removal in E as [_ Hs]. intros Hd Ha.
    apply (proj1 (proj2 (Ho _))). rewrite <-Hs. destruct ok; injection Hd as <- _; [|done]. rewrite run_service in Ha. destruct (Ho (service d1)) as (_ & _ & Hr). congruence.
Qed.

#[export] Instance darwinLaws : LoginLaws macDisk unixCalls.
Proof.
  split; cbn.
  - intros [d] c. apply status_of.
  - intros [d] d' c. unfold darwinEnable, writeFile. cbn. destruct (plistPath c) as [path|]; [|done].
    destruct (binaryPath _) as [b|]; [|done]. destruct (mkdir c); [|done]. destruct (write c); try done. cbn [negb].
    set (d1 := d <| files := _ |>). set (out := (run d1 c _).1).
    destruct (run out c _) as [d2 ok] eqn:E. destruct ok; [|done]. intros [= <-].
    pose proof (run_files out c ["bootstrap"; domain c; path]) as Hf. pose proof (run_service out c ["bootstrap"; domain c; path]) as Hs.
    apply run_answers in E as Hok. rewrite E in Hf, Hs. assert (Ho2 : files out = files d1) by apply run_files. rewrite Ho2 in Hf. cbn in Hf, Hs.
    exists (plist b), b. cbn. rewrite Hf. cbn. rewrite lookup_insert_eq. split_and!; auto with go.
    intros Ho. rewrite Hs. by apply (proj1 (Ho _)).
  - intros [d] d' c. unfold darwinDisable. cbn. destruct (plistPath c) as [path|]; [|done].
    destruct (remove _ _ _) as [d1 ok] eqn:E. apply removal in E as [Hf _]. destruct ok; by intros [= <-].
  - intros [d] d' c e. unfold darwinDisable. cbn. destruct (plistPath c) as [path|]; [|by intros [= <- _]].
    destruct (remove _ _ _) as [d1 ok] eqn:E. apply removal in E as [Hf _]. destruct ok; intros [= <- _]. cbn. by rewrite Hf.
  - intros [d] d' c e Ho. unfold darwinDisable. cbn. destruct (plistPath c) as [path|]; [|by intros [= <- _]].
    destruct (remove _ _ _) as [d1 ok] eqn:E. apply removal in E as [_ Hs]. intros Hd Ha.
    apply (proj2 (Ho _)). rewrite <-Hs. destruct ok; by injection Hd as <- _.
Qed.

(** [go_login] follows a call to its end. *)
Ltac go_login :=
  repeat match goal with
  | H : context [match ?x with _ => _ end] |- _ => destruct x eqn:?; simplify_eq/=
  end.

#[export] Instance windowsLaws : LoginLaws registry registryCalls.
Proof.
  split; cbn.
  - intros [[v|]] c; cbn; [|done]. unfold windowsStatus. cbn. destruct v, (openQuery c), (getValue c); try done. by destruct (binaryPath _).
  - intros r r' c. unfold windowsEnable. intros E. go_login. eexists _, _. split; [done|]. eauto with go.
  - intros [[v|]] r' c; unfold windowsDisable; cbn; destruct (openSet c); cbn; intros E; go_login; by simplify_eq/=.
  - intros [[v|]] r' c e; unfold windowsDisable; cbn; intros E; go_login; done.
  - intros [[v|]] r' c e _ E Ha; apply bool_decide_eq_true in Ha; apply bool_decide_eq_true; unfold windowsDisable in E; cbn in *;
      go_login; simplify_eq/=; first [done|by destruct Ha].
Qed.

(** ** Claims, for every platform *)
Section claims.
Context {W A : Type} {login : Login W A} {laws : LoginLaws W A} {H : Type}.

(** C32: what the login toggle's answer means, on every platform.  When the page
    answers 200 to switching it on, the platform has an entry for the running binary
    (which the service manager has active, if it does what it reports), and the state
    shown is on and not stale provided the entry can be read.  When it answers 200 to
    switching it off, the entry is gone and the state shown is off, unless the place of
    the entry could not be opened (possible on Windows only): then the entry is as it
    was.  Any other answer is a 500 without a state: the configuration is as before, and
    a failed removal has left the entry (though the service manager may have let go of
    the service already); a failed registration may leave an entry.  Switching off
    never makes the service manager take the service up. *)
Theorem autostart_follows_request (s s' : Daemon.site H) k on w w' a status shown :
  handleSetAutostart s k (Some on) w a = (s', w', (status, shown)) ->
  (status = Settings.StatusOK /\ shown = Some (handleAutostart w' a).2
   /\ (on = true -> exists text b, entry w' a = Some text /\ running a = Some b /\ Text.Contains text b = true
         /\ (obeys a -> active w' a = true)
         /\ (legible a = true -> On (handleAutostart w' a).2 = true /\ Stale (handleAutostart w' a).2 = false))
   /\ (on = false -> if barred a then entry w' a = entry w a
                     else entry w' a = None /\ On (handleAutostart w' a).2 = false)
   \/ status = Settings.StatusInternalServerError /\ shown = None /\ s' = s /\ (on = false -> entry w' a = entry w a))
  /\ (on = false -> obeys a -> active w' a = true -> active w a = true).
Proof.
  unfold handleSetAutostart, handleAutostart, Settings.handleSetAutostart. cbn [snd].
  destruct (if on then Enable w a else Disable w a) as [w1 err] eqn:E. intros Heq.
  assert (w1 = w') as -> by (destruct err; cbn in Heq; by simplify_eq).
  split; [|intros -> Ho; by eapply disable_stops]. destruct err as [e|]; cbn in Heq; injection Heq as <- <- <-.
  - right. split_and!; auto. intros ->. by apply disable_fails in E.
  - left. pose proof (status_exact w' a) as Hs. split_and!; auto; intros ->.
    + destruct (enable_registers _ _ _ E) as (text & b & He & Hr & Ht & Ho). exists text, b. split_and!; auto.
      intros Hl. rewrite He, Hr, Ht, Hl in Hs. done.
    + apply disable_removes in E. destruct (barred a); [done|]. rewrite E in Hs. by destruct Hs.
Qed.

(** A move of the binary can go unnoticed.  The entry is compared by looking for the
    path of the running binary anywhere in it, so after registering one path, a
    process running from a path that is part of it is told that the entry is not
    stale, although it starts another file. *)
Theorem moved_binary_unnoticed w w' a a' registered current :
  Enable w a = (w', None) -> running a = Some registered -> running a' = Some current ->
  legible a' = true -> entry w' a' = entry w' a -> Text.Contains registered current = true -> registered <> current ->
  On (Status w' a') = true /\ Stale (Status w' a') = false.
Proof.
  intros E Hr Hr' Hc He Hin _. destruct (enable_registers _ _ _ E) as (text & b & Ht & Hb & Hcon & _). rewrite Hr in Hb. injection Hb as <-.
  pose proof (status_exact w' a') as Hs. rewrite He, Ht, Hr', Hc in Hs. destruct Hs as [H1 H2].
  by rewrite (Text.Contains_trans _ _ _ Hcon Hin) in H2.
Qed.
End claims.

(** ** Linux, concretely *)
Definition demoCalls (binary : string) : unixCalls :=
  mkCalls (Some "/home/u/.config") (mkProcess (Some binary) (λ _, None)) 1000 true true Written true (λ args _, (true, bool_decide (args = enableNow))).

Lemma moved_binary_unnoticed_witness :
  let w' := (linuxEnable (mkDisk ∅ false) (demoCalls "/opt/wagastrim-old")).1 in
  files w' !! "/home/u/.config/systemd/user/wagastrim.service" = Some (unit "/opt/wagastrim-old")
  /\ On (linuxStatus w' (demoCalls "/opt/wagastrim")) = true /\ Stale (linuxStatus w' (demoCalls "/opt/wagastrim")) = false.
Proof.
  split; [vm_compute; reflexivity|].
  apply (moved_binary_unnoticed (login := linuxLogin) (mkDisk ∅ false) _ (demoCalls "/opt/wagastrim-old") (demoCalls "/opt/wagastrim")
    "/opt/wagastrim-old" "/opt/wagastrim"); try reflexivity; done.
Defined.

Definition demoSite : Daemon.site Daemon.hub :=
  Daemon.mkSite Config.twoWorld (Daemon.mkHub (Relay.mkWorld ∅ ∅ ∅ []) ∅ [] (100 * Second)).

Lemma autostart_follows_request_witness :
  let r := handleSetAutostart demoSite Config.goodCalls (Some true) (mkDisk ∅ false) (demoCalls "/opt/wagastrim") in
  r.2.1 = Settings.StatusOK /\ On (handleAutostart r.1.2 (demoCalls "/opt/wagastrim")).2 = true.
Proof.
  destruct (autostart_follows_request (login := linuxLogin) demoSite _ Config.goodCalls true (mkDisk ∅ false) _ (demoCalls "/opt/wagastrim") _ _ eq_refl)
    as ([(Hs & _ & Hon & _)|(Hs & _)] & _).
  - destruct (Hon eq_refl) as (text & b & _ & _ & _ & _ & Hl). split; [assumption|]. apply Hl. reflexivity.
  - exfalso. revert Hs. vm_compute. discriminate.
Defined.

(** A Run key that cannot be opened for writing: the page answers 200 and the entry
    is still there and shown. *)
Lemma barred_removal_answered :
  let a := mkRegCalls (mkProcess (Some "/w") (λ _, None)) true true true true false true in
  let w := mkRegistry (Some (Some (quoted "/w"))) in
  let r := handleSetAutostart (login := windowsLogin) demoSite Config.goodCalls (Some false) w a in
  r.2 = (Settings.StatusOK, Some (mkState true false "")) /\ r.1.2 = w.
Proof. vm_compute. done. Qed.

(** A unit that the service manager refused to enable is shown as on: the file is
    written before [systemctl enable] runs and stays when that fails. *)
Lemma refused_unit_shown_on d c path b :
  unitPath c = Some path -> binaryPath (proc c) = Some b -> mkdir c = true -> write c = Written -> readable c = true ->
  (forall had, manager c enableNow had = (false, had)) ->
  (linuxEnable d c).2 = Some ErrRegister /\ linuxStatus (linuxEnable d c).1 c = mkState true false lingerNote.
Proof.
  intros Hp Hb Hm Hw Hr He. unfold linuxEnable, writeFile. rewrite Hp, Hb, Hm, Hw. cbn [negb].
  set (d1 := d <| files := _ |>). destruct (run (run d1 c reload).1 c enableNow) as [d2 ok] eqn:E.
  assert (Hf : files d2 !! path = Some (unit b)).
  { pose proof (run_files (run d1 c reload).1 c enableNow) as Hf. rewrite E, run_files in Hf. cbn in Hf. rewrite Hf.
    unfold d1. cbn. apply lookup_insert_eq. }
  apply run_answers in E. rewrite He in E. cbn in E. subst ok. split; [done|].
  unfold linuxStatus, readFile. cbn [fst]. by rewrite Hp, Hr, Hf, Hb, unit_contains.
Qed.

End Autostart.
