(* ===== verification/Reach.v ===== *)
(** * Where this machine can be reached ([src/internal/reach], with
    [ingest.ProbeSocketBuffer] and the page's [handleReachability] and [socketNote])

    A STUN exchange, the addresses of the interfaces and the socket calls are what
    the network and the kernel answered; an error of theirs is its text. *)

From S2P Require Import Prelude.
From S2P Require Import Text.
From S2P Require Import Address.
From S2P Require Import Config.
From S2P Require Import Relay.
From S2P Require Import Daemon.
From S2P Require Import Settings.
From stdpp Require Import pretty.

Local Open Scope Z_scope.

Module Reach.

(** ** [reach.go] *)
Inductive error := ErrNoSTUN | ErrNoAddress.

Definition message (e : error) : string :=
  match e with
  | ErrNoSTUN => "no STUN server answered"
  | ErrNoAddress => "STUN reply carried no address"
  end.

(** An error of this package: the package errors it wraps, and its text. *)
Record failure := mkFailure { wraps : list error; Error : string }.

Definition servers : list string := ["stun.l.google.com:19302"; "stun.cloudflare.com:3478"].

Record Report := mkReport {
  PublicHost : string;
  LANHosts : list string;
  MediaPort : Z;
  SignalPort : Z;
  SocketNote : string;
  Note : string;
  Err : string
}.

#[export] Instance eta_Report : Eta Report := fun r =>
  mkReport (PublicHost r) (LANHosts r) (MediaPort r) (SignalPort r) (SocketNote r) (Note r) (Err r).

(** How an exchange with a server went: the dial, the client or the transaction
    failed, the event carried an error or no address, or the mapped address came
    back. *)
Inductive exchange :=
  | DialFailed (e : string) | ClientFailed (e : string) | DoFailed (e : string)
  | EventFailed (e : string) | Unmapped (e : string) | Mapped (ip : string).

Definition wrap (e : error) (server text : string) : failure :=
  mkFailure [e] (message e +:+ ": " +:+ server +:+ ": " +:+ text).

Definition ask (server : string) (x : exchange) : string + failure :=
  match x with
  | DialFailed e | ClientFailed e | DoFailed e => inr (wrap ErrNoSTUN server e)
  | EventFailed e | Unmapped e => inr (wrap ErrNoAddress server e)
  | Mapped ip => inl ip
  end.

(** The servers still to ask, and the error of the one asked last. *)
Fixpoint discover_from (net : string -> exchange) (todo : list string) (last : option failure) : string + failure :=
  match todo with
  | server :: rest =>
      match ask server (net server) with
      | inr e => discover_from net rest (Some e)
      | inl host => inl host
      end
  | [] =>
      let last := default (mkFailure [ErrNoSTUN] (message ErrNoSTUN)) last in
      inr (mkFailure (ErrNoSTUN :: wraps last) (message ErrNoSTUN +:+ ": " +:+ Error last))
  end.

Definition discover (net : string -> exchange) : string + failure := discover_from net servers None.

(** [net.InterfaceAddrs]: an address with its mask, or one of another kind. *)
Inductive ifaceAddr := IPNet (ip : Address.Addr) | OtherAddr.

Definition lanAddresses (addrs : option (list ifaceAddr)) : list string :=
  match addrs with
  | None => []
  | Some addrs =>
      omap (λ addr,
        match addr with
        | OtherAddr => None
        | IPNet ip =>
            let ip := Address.Unmap ip in
            if Address.IsLoopback ip || Address.IsLinkLocalUnicast ip then None
            else match ip with Address.V4 a => Some (Address.dotted a) | Address.V6 _ => None end
        end) addrs
  end.

Definition foundNote : string :=
  "Public address found. Whether the two ports are forwarded cannot be checked from inside your own network, because a router can answer its own probe. The real test is your phone on cellular with Wi-Fi turned off.".

Definition missingNote : string :=
  "No public address yet. Streaming over the internet needs one; a phone on the same Wi-Fi can use a LAN address below.".

Definition Look (net : string -> exchange) (addrs : option (list ifaceAddr)) (mediaPort signalPort : Z) : Report :=
  let report := mkReport "" (lanAddresses addrs) mediaPort signalPort "" foundNote "" in
  match discover net with
  | inr e => report <| Err := Error e |> <| Note := missingNote |>
  | inl host => report <| PublicHost := host |>
  end.

(** ** [ProbeSocketBuffer] ([sockbuf_unix.go], [sockbuf_other.go]) *)

(** Whether each call of the probe worked, and the size read back. *)
Record socketCalls := mkSocket { listenUDP : bool; setReadBuffer : bool; syscallConn : bool; control : bool; rcvbuf : option Z }.

(** [None] is an error. *)
Definition ProbeSocketBuffer (c : socketCalls) : option Z :=
  if negb (listenUDP c) then None
  else if negb (setReadBuffer c) then None
  else if negb (syscallConn c) then None
  else if negb (control c) then None
  else rcvbuf c.

(** On platforms where the size is not read back. *)
Definition ProbeSocketBufferOther : option Z := Some 0.

(** ** [ui.go] *)
Definition want : Z := Z.shiftl 8 20.

Definition socketNote (granted : option Z) : string :=
  match granted with
  | None => ""
  | Some granted =>
      if granted =? 0 then ""
      else if want <=? granted then "Socket receive buffer " +:+ pretty (Z.shiftr granted 20) +:+ " MB, as requested."
      else "Socket receive buffer is " +:+ pretty (Z.shiftr granted 10) +:+ " KB, but " +:+ pretty (Z.shiftr want 20)
        +:+ " MB was requested. The kernel capped it, which drops packets under burst before this app sees them. Raise net.core.rmem_max on Linux or kern.ipc.maxsockbuf on macOS."
  end.

Definition handleReachability {H : Type} (s : Daemon.site H) (k : Config.calls) (net : string -> exchange)
    (addrs : option (list ifaceAddr)) (granted : option Z) : Daemon.site H * (Z * Report) :=
  let c := Config.cfg (Daemon.conf s) in
  let report := Look net addrs (Config.MediaPort c) (Config.SignalPort c) in
  let report := report <| SocketNote := socketNote granted |> in
  let '(s, status) := Settings.handleReachability s k (PublicHost report) in
  (s, (status, report)).

(** ** Lemmas *)

(** The host of the first server that answered with an address. *)
Definition answer (net : string -> exchange) (server : string) : option string :=
  match net server with Mapped ip => Some ip | _ => None end.

Lemma ask_answer net server : match ask server (net server) with inl h => answer net server = Some h | inr _ => answer net server = None end.
Proof. unfold ask, answer. by destruct (net server). Qed.

Lemma discover_from_first net todo last :
  match head (omap (answer net) todo) with
  | Some h => discover_from net todo last = inl h
  | None => exists e, discover_from net todo last = inr e /\ ErrNoSTUN ∈ wraps e /\ Error e <> ""
  end.
Proof.
  revert last. induction todo as [|server todo IH]; intros last.
  - eexists. split; [done|]. split; [by left|]. done.
  - cbn. pose proof (ask_answer net server) as Ha. destruct (ask server (net server)); rewrite Ha; [done|]. apply IH.
Qed.

(** When no server gave an address, the error says what the last one did. *)
Lemma discover_last net e :
  discover net = inr e -> ErrNoAddress ∈ wraps e <-> exists text, net "stun.cloudflare.com:3478" = EventFailed text \/ net "stun.cloudflare.com:3478" = Unmapped text.
Proof.
  unfold discover, servers. cbn [discover_from]. destruct (ask "stun.l.google.com:19302" _) as [|e1]; [done|]. unfold ask.
  destruct (net "stun.cloudflare.com:3478") as [t|t|t|t|t|ip]; intros [= <-]; cbn; rewrite !elem_of_cons, elem_of_nil.
  all: split; [intros [?|[?|[]]]|intros (text & [?|?])]; try done; eauto.
Qed.

Lemma lanAddresses_exact addrs h :
  h ∈ lanAddresses (Some addrs) <->
  exists ip a, IPNet ip ∈ addrs /\ Address.Unmap ip = Address.V4 a /\ Address.IsLoopback (Address.V4 a) = false
    /\ Address.IsLinkLocalUnicast (Address.V4 a) = false /\ h = Address.dotted a.
Proof.
  unfold lanAddresses. rewrite list_elem_of_omap. split.
  - intros ([ip|] & Hin & Hh); [|done]. destruct (Address.Unmap ip) as [a|a] eqn:E; destruct (_ || _) eqn:Ec; try done.
    apply orb_false_iff in Ec as [? ?]. injection Hh as <-. by exists ip, a.
  - intros (ip & a & Hin & Hu & Hl & Hk & ->). exists (IPNet ip). split; [done|]. rewrite Hu. cbn -[Address.dotted] in *. by rewrite Hl, Hk.
Qed.

Lemma SetPublicHost_config w k h :
  Config.cfg (Config.SetPublicHost w k h).1 = Config.cfg w
  \/ Config.cfg (Config.SetPublicHost w k h).1 = Config.with_PublicHost (Config.cfg w) h.
Proof.
  pose proof (Config.SetPublicHost_saved w k h) as Hs. unfold Config.SetPublicHost in *. destruct (String.eqb _ _); [by left|].
  destruct (Config.save _ _ _) as [d [e|]]; cbn in *; [left; by destruct Hs as [[? _] _]|by right].
Qed.

(** ** Claims *)

(** The reachability report says what was found and nothing else.  Its public host is
    the answer of the first STUN server that gave one; the note claims an address
    and the error is empty exactly when there is one.  A lookup changes the
    configuration at most by remembering the address it found, and only where
    neither a certificate nor a public URL fixes the links; running cameras are left
    alone. *)
Theorem reachability_honest {H : Type} (s s' : Daemon.site H) k net addrs granted status report :
  (forall server ip, net server = Mapped ip -> ip <> "") ->
  handleReachability s k net addrs granted = (s', (status, report)) ->
  let c := Config.cfg (Daemon.conf s) in
  PublicHost report = default "" (head (omap (answer net) servers))
  /\ (Err report = "" <-> PublicHost report <> "")
  /\ (Note report = foundNote <-> PublicHost report <> "")
  /\ (forall h, h ∈ LANHosts report <-> h ∈ lanAddresses addrs)
  /\ status = Settings.StatusOK /\ Daemon.cameras s' = Daemon.cameras s
  /\ (Config.cfg (Daemon.conf s') = c
      \/ PublicHost report <> "" /\ Config.TLSCert c = "" /\ Config.PublicURL c = ""
         /\ Config.cfg (Daemon.conf s') = Config.with_PublicHost c (PublicHost report)).
Proof.
  intros Hne E. cbn zeta. unfold handleReachability in E. set (report0 := Look _ _ _ _) in E.
  assert (Hlook : PublicHost report0 = default "" (head (omap (answer net) servers)) /\ (Err report0 = "" <-> PublicHost report0 <> "")
    /\ (Note report0 = foundNote <-> PublicHost report0 <> "") /\ LANHosts report0 = lanAddresses addrs).
  { subst report0. unfold Look, discover. pose proof (discover_from_first net servers None) as Hd. destruct (head _) as [h|] eqn:Eh.
    - rewrite Hd. cbn -[foundNote]. assert (h <> ""); [|done].
      assert (Hin : h ∈ omap (answer net) servers) by (apply head_Some_elem_of in Eh; done).
      apply list_elem_of_omap in Hin as (server & _ & Ha). unfold answer in Ha. destruct (net server) eqn:En; try done. injection Ha as <-. eauto.
    - destruct Hd as (e & -> & _ & Hd). cbn -[foundNote missingNote]. split_and!; try done. }
  unfold Settings.handleReachability in E. cbn [PublicHost set_field] in E. change (PublicHost (report0 <| SocketNote := _ |>)) with (PublicHost report0) in E.
  destruct Hlook as (H1 & H2 & H3 & H4).
  destruct (negb _ && _ && _) eqn:Ec; injection E as <- <- <-; cbn; split_and!; try done; try (by rewrite H4).
  - apply andb_true_iff in Ec as [[Ea%negb_true_iff%String.eqb_neq Eb%String.eqb_eq]%andb_true_iff Ed%String.eqb_eq].
    destruct (SetPublicHost_config (Daemon.conf s) k (PublicHost report0)) as [->| ->]; [by left|right; done].
  - by left.
Qed.

(** The note on the receive buffer is empty exactly when the size is not known. *)
Lemma socketNote_silent granted : socketNote granted = "" <-> granted = None \/ granted = Some 0.
Proof.
  destruct granted as [n|]; [|cbn; tauto]. unfold socketNote. destruct (Z.eqb_spec n 0) as [->|Hn]; [cbn; tauto|].
  split; [|intros [?|?]; congruence]. destruct (want <=? n); done.
Qed.

(** Linux doubles the size it grants, for its own bookkeeping, and reports the doubled
    value (socket(7)). *)
Definition linuxGrant (rmemMax requested : Z) : Z := 2 * Z.min requested rmemMax.

(** A limit of half the size asked for, or more, is not noticed. *)
Lemma linux_clamp_hidden rmemMax :
  Z.shiftr want 1 <= rmemMax < want ->
  socketNote (Some (linuxGrant rmemMax want)) = "Socket receive buffer " +:+ pretty (Z.shiftr (2 * rmemMax) 20) +:+ " MB, as requested.".
Proof.
  intros Hr. assert (E : want = 8388608) by reflexivity. rewrite E in Hr. change (Z.shiftr 8388608 1) with 4194304 in Hr.
  unfold socketNote, linuxGrant. rewrite E, Z.min_r by lia.
  destruct (Z.eqb_spec (2 * rmemMax) 0); [lia|]. by destruct (Z.leb_spec 8388608 (2 * rmemMax)); [|lia].
Qed.

Example linux_clamp_at_four : socketNote (Some (linuxGrant 4194304 want)) = "Socket receive buffer 8 MB, as requested.".
Proof. vm_compute. reflexivity. Qed.

Definition demoNet (server : string) : exchange :=
  if String.eqb server "stun.cloudflare.com:3478" then Mapped "203.0.113.7" else DoFailed "timeout".

Definition demoSite : Daemon.site Daemon.hub :=
  Daemon.mkSite Config.twoWorld (Daemon.mkHub (Relay.mkWorld ∅ ∅ ∅ []) ∅ [] (100 * Second)).

Lemma reachability_honest_witness :
  let r := handleReachability demoSite Config.goodCalls demoNet (Some [IPNet (Address.V4 2130706433); IPNet (Address.V4 3232235786)]) (Some 425984) in
  r.2.2.(PublicHost) = "203.0.113.7" /\ r.2.2.(LANHosts) = ["192.168.1.10"] /\ r.2.2.(Err) = "".
Proof.
  split; [vm_compute; reflexivity|]. split; [vm_compute; reflexivity|].
  refine (proj2 (proj1 (proj2 (reachability_honest demoSite _ Config.goodCalls demoNet
    (Some [IPNet (Address.V4 2130706433); IPNet (Address.V4 3232235786)]) (Some 425984) _ _ _ eq_refl))) _).
  - intros server ip. unfold demoNet. destruct (String.eqb _ _); [|discriminate]. intros [= <-]. discriminate.
  - vm_compute. discriminate.
Defined.

End Reach.
