(* ===== verification/Control.v ===== *)
(** * The control API ([src/internal/control])

    The listener of a deployment that owns the camera list.  A request carries the
    socket's peer address ([None] when [netip.ParseAddrPort] refuses it), its
    authorization header and its decoded body.  [moves] runs it beside the settings
    page and the two media servers: a request to publish or to subscribe resolves its
    key in one step and gets its place in a later one, with anything in between. *)

From S2P Require Import Prelude.
From S2P Require Import DynamicDelay.
From S2P Require Import Relay.
From S2P Require Import Config.
From S2P Require Import Stats.
From S2P Require Import Daemon.
From S2P Require Import Transport.
From S2P Require Import Settings.
From S2P Require Import Address.

Module Control.

Import Daemon.
Import Address.

(** ** [control.go] *)
Definition maxBodyBytes : Z := Z.shiftl 64 10.

Definition allowedAddress (c : Config.Cfg) (address : Addr) : bool :=
  let address := Unmap address in
  if IsLoopback address then true
  else if IsPrivate address || IsLinkLocalUnicast address then Config.LANControlEnabled c
  else IsGlobalUnicast address && Config.RemoteControlEnabled c.

(** Whether [authed] lets a request through to its handler. *)
Definition authed (c : Config.Cfg) (peer : option Addr) (authorization : string) : bool :=
  match peer with
  | None => false
  | Some address =>
      if negb (allowedAddress c address) then false
      else
        match CutPrefix authorization "Bearer " with
        | None => false
        | Some offered =>
            let token := Config.Token c in
            negb (String.eqb token "") && String.eqb offered token
        end
  end.

Section handlers.
Context {H : Type} {hooks : Hooks H} {laws : HooksLaws H}.

Abbreviation site := (Daemon.site H).

(** The bodies of the responses *)
Inductive reply :=
  | Text (s : string)
  | NoBody
  | Cameras (l : list (Config.Ingest * Transport.cameraLinks))
  | One (camera : Config.Ingest) (links : Transport.cameraLinks)
  | Report (m : gmap string Stats.Snapshot).

Abbreviation response := (Z * reply)%type.

Definition handleIngests (s : site) (k : Config.calls) (body : option (list Config.Ingest)) : site * response :=
  match body with
  | None => (s, (Settings.StatusBadRequest, Text "cannot read ingest list"))
  | Some l =>
      match Config.ReplaceIngests (conf s) k l with
      | (w, inr _) => (mkSite w (cameras s), (Settings.StatusBadRequest, Text "ingest list was refused"))
      | (w, inl stale) =>
          let h := fold_left revoke stale (cameras s) in
          let c := Config.cfg w in
          (mkSite w (retargetAll c h (Config.ID <$> Config.ListIngests c)), (Settings.StatusNoContent, NoBody))
      end
  end.

(** [runes] is [utf8.RuneCountInString] of the label without the space around it,
    [label] that label. *)
Definition handleCreate (s : site) (k : Config.calls) (body : option (string * Z)) (r1 r2 r3 : option (list Z)) : site * response :=
  match body with
  | None => (s, (Settings.StatusBadRequest, Text "expected a camera label"))
  | Some (label, runes) =>
      if String.eqb label "" || (48 <? runes)
      then (s, (Settings.StatusBadRequest, Text "label must contain 1 to 48 characters"))
      else
        match Config.AddIngest (conf s) k label r1 r2 r3 with
        | (w, inr _) => (mkSite w (cameras s), (Settings.StatusInternalServerError, Text "could not save camera"))
        | (w, inl camera) =>
            (mkSite w (cameras s), (Settings.StatusCreated, One camera (Transport.cameraResponse (Config.cfg w) camera)))
        end
  end.

Definition handleList (s : site) : response :=
  let c := Config.cfg (conf s) in
  (Settings.StatusOK, Cameras ((λ camera, (camera, Transport.cameraResponse c camera)) <$> Config.ListIngests c)).

Definition handleResetKey (s : site) (k : Config.calls) (id : string) (r : option (list Z)) : site * response :=
  match Config.ResetSenderKey (conf s) k id r with
  | (w, inr e) => (mkSite w (cameras s), (Settings.resetStatus e, Text "could not reset stream key"))
  | (w, inl camera) =>
      (mkSite w (revoke (cameras s) (Config.ID camera)), (Settings.StatusOK, One camera (Transport.cameraResponse (Config.cfg w) camera)))
  end.

Definition handleStats (s : site) (hub : string -> option Relay.Statistics) (counters : Stats.Registry) (now : time)
  : Stats.Registry * response :=
  let '(counters, m) := Stats.Report hub counters (Config.IngestIDs (Config.cfg (conf s))) now ∅ in
  (counters, (Settings.StatusOK, Report m)).

(** ** The routes *)
Inductive call :=
  | CIngests (body : option (list Config.Ingest))
  | CCreate (body : option (string * Z)) (r1 r2 r3 : option (list Z))
  | CList
  | CResetKey (id : string) (r : option (list Z))
  | CStats (hub : string -> option Relay.Statistics) (counters : Stats.Registry) (now : time).

Definition refused : response := (Settings.StatusNotFound, Text "not found").

(** The handler of a route. *)
Definition handler (s : site) (k : Config.calls) (q : call) : site * response :=
  match q with
  | CIngests b => handleIngests s k b
  | CCreate b r1 r2 r3 => handleCreate s k b r1 r2 r3
  | CList => (s, handleList s)
  | CResetKey id r => handleResetKey s k id r
  | CStats hub counters now => (s, (handleStats s hub counters now).2)
  end.

(** A request that the guard let in and that one of the five routes takes: the
    closure [authed] returns around the handler. *)
Definition control (s : site) (k : Config.calls) (peer : option Addr) (authorization : string) (q : call) : site * response :=
  if negb (authed (Config.cfg (conf s)) peer authorization) then (s, refused) else handler s k q.

(** What [http.ServeMux] answers on a path no route has. *)
Definition unknownRoute : response := (Settings.StatusNotFound, Text "404 page not found").

(** ** Lemmas *)
Lemma fold_revoke_spec (l : list string) (h : H) :
  good h ->
  good (fold_left revoke l h)
  /\ (forall id v, target (fold_left revoke l h) id = Some v -> target h id = Some v)
  /\ (forall id, publisher (fold_left revoke l h) id = if bool_decide (id ∈ l) then None else publisher h id)
  /\ forall id, watchers (fold_left revoke l h) id = if bool_decide (id ∈ l) then [] else watchers h id.
Proof.
  revert h. induction l as [|a l IH]; intros h Hg; [split_and!; try done; intros id; by rewrite bool_decide_false by set_solver|].
  destruct (IH (revoke h a)) as (H1 & H2 & H3 & H4); [by apply revoke_good|]. cbn. split_and!.
  - done.
  - intros id v Hv. eapply revoke_target; [done|]. by apply H2.
  - intros id. rewrite H3, revoke_publisher. destruct (bool_decide_reflect (id ∈ l)) as [Hin|Hin].
    + by rewrite bool_decide_true by set_solver.
    + destruct (String.eqb_spec a id) as [->|Hne]; [by rewrite bool_decide_true by set_solver|].
      by rewrite bool_decide_false by set_solver.
  - intros id. rewrite H4, revoke_watchers. destruct (bool_decide_reflect (id ∈ l)) as [Hin|Hin].
    + by rewrite bool_decide_true by set_solver.
    + destruct (String.eqb_spec a id) as [->|Hne]; [by rewrite bool_decide_true by set_solver|].
      by rewrite bool_decide_false by set_solver.
Qed.

Lemma camera_fmap (f : Config.Ingest -> Config.Ingest) l id :
  (forall i, Config.ID (f i) = Config.ID i) -> camera (f <$> l) id = f <$> camera l id.
Proof.
  intros Hf. induction l as [|a l IH]; [done|]. rewrite fmap_cons, !camera_cons, Hf, IH. by destruct (String.eqb _ _).
Qed.

(** A camera that is not stale keeps its keys and codecs. *)
Lemma kept_camera w k next w' stale id i :
  unique (Config.cfg w) -> Config.ReplaceIngests w k next = (w', inl stale) -> camera (Config.Ingests (Config.cfg w)) id = Some i ->
  id ∉ stale -> exists i', camera (Config.Ingests (Config.cfg w')) id = Some i' /\ Config.SenderKey i' = Config.SenderKey i
    /\ Config.ReceiverKey i' = Config.ReceiverKey i /\ Config.Codecs i' = Config.Codecs i.
Proof.
  intros Hu E Hi Hst. destruct (Config.ReplaceIngests_ok _ _ _ _ _ E) as ((Hnd & _) & -> & Hc). destruct (camera_Some _ _ _ Hi) as [Hin <-].
  assert (Hns : Config.isStale next i = false).
  { destruct (Config.isStale next i) eqn:Es; [|done]. destruct Hst. apply list_elem_of_fmap_2, list_elem_of_filter. done. }
  rewrite Hc. cbn. rewrite camera_fmap by done. unfold Config.isStale in Hns. unfold camera.
  destruct (list_find _ next) as [[n j]|]; [|done]. cbn. exists (Config.normaliseIngest (Config.cfg w) j). split; [done|].
  bool_hyps. cbn. split_and!; try done. by eapply bool_decide_eq_true_1.
Qed.

Abbreviation ok s := (Settings.site_ok (Config.cfg (conf s)) (cameras s)).

Lemma handleIngests_ok s k b : ok s -> ok (handleIngests s k b).1.
Proof.
  intros Hok. destruct b as [l|]; [|done]. unfold handleIngests. pose proof (Config.ReplaceIngests_saved (conf s) k l) as Hs.
  destruct (Config.ReplaceIngests (conf s) k l) as [w [stale|e]] eqn:E; [|destruct Hs as [[Hc _] _]; cbn; by rewrite Hc].
  destruct Hok as [H1 H2 H3 [H4 H5]]. destruct (fold_revoke_spec stale (cameras s) H2) as (G1 & G2 & G3 & G4).
  pose proof (Config.ReplaceIngests_ok _ _ _ _ _ E) as ((Hnd & _) & _ & Hc). cbn. split.
  - unfold unique, Config.IngestIDs. rewrite Hc. cbn. by rewrite <-list_fmap_compose.
  - by apply retargetAll_spec.
  - intros id v Hid Hv. destruct (retargetAll_spec (Config.cfg w) _ (Config.ID <$> Config.ListIngests (Config.cfg w)) G1) as (_ & R2 & _).
    apply R2 in Hv. by rewrite bool_decide_true in Hv.
  - apply let_in_retarget; [done|]. split; intros id ing.
    + rewrite G3. destruct (bool_decide_reflect (id ∈ stale)) as [|Hst]; [done|]. intros Hing Htimely.
      destruct (H4 id ing Hing Htimely) as (i & Hi & Es & Ec). destruct (kept_camera _ _ _ _ _ _ _ H1 E Hi Hst) as (i' & Hi' & E1 & _ & E3).
      exists i'. split_and!; congruence.
    + rewrite G4. destruct (bool_decide_reflect (id ∈ stale)) as [|Hst]; [by intros ?%elem_of_nil|]. intros Hing Htimely.
      destruct (H5 id ing Hing Htimely) as (i & Hi & Er). destruct (kept_camera _ _ _ _ _ _ _ H1 E Hi Hst) as (i' & Hi' & _ & E2 & _).
      exists i'. split_and!; congruence.
Qed.

(** A new identifier is unused. *)
Definition fairCall (s : site) (q : call) : Prop :=
  match q with
  | CCreate _ _ _ r3 => forall id, Config.newKey "" r3 = inl id -> (id ∉ Config.IngestIDs (Config.cfg (conf s))) /\ target (cameras s) id = None
  | _ => True
  end.

(** Both APIs add cameras and reset keys the same way. *)
Lemma handleCreate_as_page s k label runes r1 r2 r3 :
  String.eqb label "" || (48 <? runes) = false ->
  (handleCreate s k (Some (label, runes)) r1 r2 r3).1 = (Settings.handleAdd s k (Some label) r1 r2 r3).1.
Proof.
  intros Hl. unfold handleCreate, Settings.handleAdd, Settings.mutate. rewrite Hl.
  by destruct (Config.AddIngest (conf s) k label r1 r2 r3) as [w [i|e]].
Qed.

Lemma control_ok s k peer auth q : ok s -> fairCall s q -> ok (control s k peer auth q).1.
Proof.
  intros Hok Hf. unfold control, handler. destruct (negb _); [done|]. destruct q as [b|b r1 r2 r3| |id r|hub counters now]; try done.
  - by apply handleIngests_ok.
  - destruct b as [[label runes]|]; [|done]. destruct (String.eqb label "" || (48 <? runes)) eqn:El; [unfold handleCreate; by rewrite El|].
    rewrite handleCreate_as_page by done. by apply Settings.handleAdd_ok.
  - unfold handleResetKey. destruct (Config.ResetSenderKey _ _ _ _) as [w' res] eqn:E.
    pose proof (Settings.ResetSenderKey_ok s k _ r w' res Hok E). by destruct res.
Qed.

(** ** Runs of the daemon

    Requests on either listener, publishers and subscribers coming and going, and
    media flowing.  A request to publish or to subscribe resolves its key first and
    gets its place later, with other things happening in between: [flights] are the
    requests that have resolved their key and not got their place, each in a
    goroutine of its own, which no handler can reach. *)
Record state := mkState { site_ : site; flights : list (Config.Ingest * Config.Role) }.

Definition begin (s : site) : state := mkState s [].

Inductive moves : state -> state -> Prop :=
| M_page s f k q s' st : Settings.fair s q -> Settings.serve s k q = (s', st) -> moves (mkState s f) (mkState s' f)
| M_control s f k peer auth q s' res :
    fairCall s q -> control s k peer auth q = (s', res) -> moves (mkState s f) (mkState s' f)
| M_resolve s f key ing role :
    Config.Resolve (Config.cfg (conf s)) key = (ing, role) -> role <> Config.RoleNone ->
    moves (mkState s f) (mkState s ((ing, role) :: f))
| M_giveUp s f f' x : moves (mkState s (f ++ x :: f')) (mkState s (f ++ f'))
| M_stop s f id : moves (mkState s f) (mkState (mkSite (conf s) (stop (cameras s) id)) f)
| M_install s f f' ing :
    publisher (cameras s) (Config.ID ing) = None ->
    moves (mkState s (f ++ (ing, Config.RoleSender) :: f'))
          (mkState (mkSite (conf s) (install (cameras s) (mkSess ing (keepsSender (Config.cfg (conf s)) ing)))) (f ++ f'))
| M_track s f id t :
    is_Some (publisher (cameras s) id) ->
    moves (mkState s f) (mkState (mkSite (conf s) (goLive (Config.cfg (conf s)) (cameras s) id t)) f)
| M_reserve s f f' ing :
    moves (mkState s (f ++ (ing, Config.RoleReceiver) :: f'))
          (mkState (mkSite (conf s) (watch (cameras s) (mkSess ing (keepsReceiver (Config.cfg (conf s)) ing)))) (f ++ f'))
| M_unwatch s f x : moves (mkState s f) (mkState (mkSite (conf s) (unwatch (cameras s) x)) f)
| M_media s f h : runs (cameras s) h -> moves (mkState s f) (mkState (mkSite (conf s) h) f).

Lemma keepsSender_spec c ing :
  keepsSender c ing = true -> exists i, camera (Config.Ingests c) (Config.ID ing) = Some i
    /\ Config.SenderKey i = Config.SenderKey ing /\ Config.Codecs i = Config.Codecs ing.
Proof.
  unfold keepsSender. destruct (camera _ _) as [i|]; [|done]. intros [? ?]%bool_decide_eq_true_1. by exists i.
Qed.

Lemma keepsReceiver_spec c ing :
  keepsReceiver c ing = true -> exists i, camera (Config.Ingests c) (Config.ID ing) = Some i
    /\ Config.ReceiverKey i = Config.ReceiverKey ing.
Proof. unfold keepsReceiver. destruct (camera _ _) as [i|]; [|done]. intros ?%bool_decide_eq_true_1. by exists i. Qed.

(** The running cameras changed, the configuration did not. *)
Lemma ok_running c (h h' : H) :
  Settings.site_ok c h -> good h' ->
  (forall id v, id ∈ Config.IngestIDs c -> target h' id = Some v -> v = wanted c id \/ target h id = Some v) ->
  (forall id x, publisher h' id = Some x -> publisher h id = Some x \/ Config.ID (cam x) = id /\ timely x = keepsSender c (cam x)) ->
  (forall id x, x ∈ watchers h' id -> x ∈ watchers h id \/ Config.ID (cam x) = id /\ timely x = keepsReceiver c (cam x)) ->
  Settings.site_ok c h'.
Proof.
  intros [H1 H2 H3 [H4 H5]] Hg Ht Hp Hw. split; [done|done| |split].
  - intros id v Hid Hv. destruct (Ht id v Hid Hv) as [?|?]; [done|]. by apply H3.
  - intros id x Hx Htimely. destruct (Hp id x Hx) as [?|[<- E]]; [by apply H4|]. rewrite Htimely in E. by apply keepsSender_spec.
  - intros id x Hx Htimely. destruct (Hw id x Hx) as [?|[<- E]]; [by apply H5|]. rewrite Htimely in E. by apply keepsReceiver_spec.
Qed.

Lemma moves_ok s s' : ok (site_ s) -> moves s s' -> ok (site_ s').
Proof.
  intros Hok Hm. pose proof (Settings.s_good _ _ Hok) as Hg.
  destruct Hm as [s f k q s' st Hf E|s f k peer auth q s' res Hf E|s f key ing role E Hr|s f f' x|s f id|s f f' ing Hnone
    |s f id t Hpub|s f f' ing|s f x|s f h Hruns]; cbn [site_ conf cameras] in *; try done.
  - pose proof (Settings.serve_ok s k q Hok Hf) as Hs. by rewrite E in Hs.
  - pose proof (control_ok s k peer auth q Hok Hf) as Hs. by rewrite E in Hs.
  - apply (ok_running _ (cameras s)); [done|by apply stop_good|..].
    + intros i v _ Hv. right. by eapply stop_target.
    + intros i x. rewrite stop_publisher. destruct (String.eqb _ _); [done|by left].
    + intros i x Hx. left. by eapply stop_watchers.
  - apply (ok_running _ (cameras s)); [done|by apply install_good|..].
    + intros i v _. rewrite install_target. by right.
    + intros i x. rewrite install_publisher. cbn. destruct (String.eqb_spec (Config.ID ing) i) as [<-|]; [|by left].
      intros [= <-]. by right.
    + intros i x. rewrite install_watchers. by left.
  - apply (ok_running _ (cameras s)); [done|by apply goLive_good|..].
    + intros i v _ Hv. apply goLive_target in Hv as [[<- ->]|?]; [by left|by right|done].
    + intros i x. rewrite goLive_publisher. by left.
    + intros i x. rewrite goLive_watchers. by left.
  - apply (ok_running _ (cameras s)); [done|by apply watch_good|..].
    + intros i v _. rewrite watch_target. by right.
    + intros i x. rewrite watch_publisher. by left.
    + intros i x [[-> <-]|?]%watch_watchers; [by right|by left].
  - apply (ok_running _ (cameras s)); [done|by apply unwatch_good|..].
    + intros i v _. rewrite unwatch_target. by right.
    + intros i y. rewrite unwatch_publisher. by left.
    + intros i y ?%unwatch_watchers. by left.
  - apply (ok_running _ (cameras s)); [done|by eapply runs_good|..].
    + intros i v _. rewrite (runs_target _ h) by done. by right.
    + intros i x. rewrite (runs_publisher _ h) by done. by left.
    + intros i x. rewrite (runs_watchers _ h) by done. by left.
Qed.

Lemma runs_keep_ok r r' : ok (site_ r) -> rtc moves r r' -> ok (site_ r').
Proof. intros Hok Hrun. induction Hrun; eauto using moves_ok. Qed.

(** ** Claims *)


End handlers.

(** ** Who is let in *)
Lemma authed_iff c peer auth :
  authed c peer auth = true <->
  (exists a, peer = Some a /\ allowedAddress c a = true) /\ Config.Token c <> "" /\ auth = "Bearer " +:+ Config.Token c.
Proof.
  unfold authed. destruct peer as [a|]; [|split; [done|intros [(? & ? & _) _]; done]].
  destruct (allowedAddress c a) eqn:Ea; cbn; [|split; [done|intros [(? & [= <-] & ?) _]; congruence]].
  destruct (CutPrefix auth "Bearer ") as [offered|] eqn:Ec.
  - apply CutPrefix_app in Ec as ->. rewrite andb_true_iff, negb_true_iff. split.
    + intros [? ?]. bool_hyps. subst. split; [by exists a|done].
    + intros (_ & Ht & E). apply Config.string_app_inj in E. subst. by rewrite String.eqb_refl, (proj2 (String.eqb_neq _ _) Ht).
  - split; [done|]. intros (_ & _ & ->).
    assert (Hx : CutPrefix ("Bearer " +:+ Config.Token c) "Bearer " = Some (Config.Token c)) by (by apply CutPrefix_app).
    congruence.
Qed.

Lemma loopback_left c a :
  Config.LANControlEnabled c = false -> Config.RemoteControlEnabled c = false ->
  allowedAddress c a = IsLoopback (Unmap a).
Proof.
  intros Hl Hr. unfold allowedAddress. rewrite Hl, Hr. destruct (IsLoopback (Unmap a)); [done|].
  destruct (IsPrivate _ || _); [done|]. apply andb_false_r.
Qed.

Lemma mapped_alike c a :
  0 <= a < 2 ^ 32 -> allowedAddress c (V6 (65535 * 2 ^ 32 + a)) = allowedAddress c (V4 a).
Proof.
  intros Ha. unfold allowedAddress, Unmap. rewrite Z.shiftr_div_pow2 by lia.
  replace ((65535 * 2 ^ 32 + a) / 2 ^ 32) with 65535 by (Z.div_mod_to_equations; lia). cbn [Z.eqb].
  replace (Z.land (65535 * 2 ^ 32 + a) 4294967295) with a; [done|].
  change 4294967295 with (Z.ones 32). rewrite Z.land_ones by lia. rewrite Z.add_comm, Z_mod_plus_full, Z.mod_small; lia.
Qed.

(** The addresses that no host has, of either family and in either form. *)
Definition noHost (x : Addr) : Prop :=
  Unmap x = V4 0 \/ Unmap x = V4 (2 ^ 32 - 1) \/ Unmap x = V6 0 \/ IsMulticast (Unmap x) = true.

Lemma noHost_refused c x : noHost x -> allowedAddress c x = false.
Proof.
  intros Hx. unfold allowedAddress. unfold noHost in Hx. destruct (Unmap x) as [a|a]; clear x.
  - assert (Hcls : IsLoopback (V4 a) = false /\ IsPrivate (V4 a) = false /\ IsLinkLocalUnicast (V4 a) = false
                   /\ IsGlobalUnicast (V4 a) = false).
    { destruct Hx as [[= ->]|[[= ->]|[?|Hm]]]; [done|done|done|].
      unfold IsGlobalUnicast, IsLoopback, IsPrivate, IsLinkLocalUnicast, IsMulticast, prefix in *.
      rewrite !Z.shiftr_div_pow2 in * by lia. cbn [Z.sub] in *.
      apply Z.eqb_eq in Hm. repeat match goal with |- context [?x =? ?y] => destruct (Z.eqb_spec x y) end;
        cbn; try done; exfalso; revert Hm; Z.div_mod_to_equations; lia. }
    destruct Hcls as (-> & -> & -> & ->). done.
  - assert (Hcls : IsLoopback (V6 a) = false /\ IsPrivate (V6 a) = false /\ IsLinkLocalUnicast (V6 a) = false
                   /\ IsGlobalUnicast (V6 a) = false).
    { destruct Hx as [?|[?|[[= ->]|Hm]]]; [done|done|done|].
      unfold IsGlobalUnicast, IsLoopback, IsPrivate, IsLinkLocalUnicast, IsMulticast, prefix in *.
      rewrite !Z.shiftr_div_pow2 in * by lia.
      apply Z.eqb_eq in Hm. repeat match goal with |- context [?x =? ?y] => destruct (Z.eqb_spec x y) end;
        cbn; try done; exfalso; revert Hm; Z.div_mod_to_equations; lia. }
    destruct Hcls as (-> & -> & -> & ->). done.
Qed.

(** ** A run: two cameras of one sync group, the first one live *)
Definition demoHub : hub := mkHub (Relay.mkWorld ∅ ∅ ∅ []) ∅ [] (100 * Second).
Definition demoSite : Daemon.site hub := mkSite Config.twoWorld demoHub.

Definition demoKey : string := default "" (Config.SenderKey <$> camera (Config.Ingests (Config.cfg Config.twoWorld)) "a").
Definition demoIngest : Config.Ingest := (Config.Resolve (Config.cfg Config.twoWorld) demoKey).1.

(** Its publisher resolved the key, was installed, and its video track arrived. *)
Definition demoTrack : announced := mkAnnounced Relay.Video (Some 0%nat) None 90000 "video/H264".

Definition installed (s : Daemon.site hub) (ing : Config.Ingest) : Daemon.site hub :=
  mkSite (conf s) (install (cameras s) (mkSess ing (keepsSender (Config.cfg (conf s)) ing))).

Definition demoInstalled : Daemon.site hub := installed demoSite demoIngest.

Definition demoLive : Daemon.site hub :=
  mkSite Config.twoWorld (goLive (Config.cfg Config.twoWorld) (cameras demoInstalled) "a" demoTrack).

Lemma demoSite_ok : Settings.site_ok (Config.cfg (conf demoSite)) (cameras demoSite).
Proof.
  split.
  - unfold unique. apply (bool_decide_eq_true_1 _). vm_compute. reflexivity.
  - split; cbn; intros *; rewrite lookup_empty; done.
  - intros id v _ Hv. unfold target in Hv. cbn in Hv. unfold hubTarget in Hv. cbn in Hv. by rewrite lookup_empty in Hv.
  - split; intros id ing; cbn; [by rewrite lookup_empty|by intros ?%elem_of_nil].
Qed.

Lemma demoLive_moves : rtc moves (begin demoSite) (begin demoLive).
Proof.
  eapply rtc_l; [apply (M_resolve demoSite [] demoKey demoIngest Config.RoleSender); [vm_compute; reflexivity|done]|].
  eapply rtc_l; [apply (M_install demoSite [] [] demoIngest); vm_compute; reflexivity|].
  apply rtc_once, (M_track demoInstalled [] "a" demoTrack). vm_compute. eauto.
Qed.


(** A key reset while its publisher negotiates: the camera is closed, and the
    publisher is installed with the old key all the same. *)
Lemma negotiation_outlives_reset :
  exists (r : state) ing i, rtc moves (begin demoSite) r
    /\ publisher (cameras (site_ r)) "a" = Some (mkSess ing false)
    /\ camera (Config.Ingests (Config.cfg (conf (site_ r)))) "a" = Some i
    /\ Config.SenderKey i <> Config.SenderKey ing.
Proof.
  set (reset := (Settings.serve demoSite Config.goodCalls (Settings.RResetKey (Some "a") (Some (repeat 7 16)))).1).
  exists (begin (installed reset demoIngest)), demoIngest.
  eexists. split; [|split; [vm_compute; reflexivity|split; [vm_compute; reflexivity|vm_compute; discriminate]]].
  eapply rtc_l; [apply (M_resolve demoSite [] demoKey demoIngest Config.RoleSender); [vm_compute; reflexivity|done]|].
  eapply rtc_l; [apply (M_page demoSite _ Config.goodCalls (Settings.RResetKey (Some "a") (Some (repeat 7 16))) reset
                          (Settings.serve demoSite Config.goodCalls (Settings.RResetKey (Some "a") (Some (repeat 7 16)))).2); [done|apply surjective_pairing]|].
  apply rtc_once, (M_install reset [] [] demoIngest). vm_compute. reflexivity.
Qed.

(** C39: removing the slowest camera of a sync group on the settings page leaves
    the others at its delay.  From a state the daemon reaches, in which every
    running camera plays at what the configuration wants, the removal succeeds
    and a camera that is still configured and running plays at ten seconds where
    2.5 are wanted. *)
Theorem removal_leaves_group_behind :
  exists (s s' : Daemon.site hub) k,
    rtc moves (begin demoSite) (begin s)
    /\ Settings.site_ok (Config.cfg (conf s)) (cameras s)
    /\ Settings.serve s k (Settings.RRemove (Some "b")) = (s', Settings.StatusNoContent)
    /\ "a" ∈ Config.IngestIDs (Config.cfg (conf s'))
    /\ (fst <$> target (cameras s') "a") = Some (10 * Second)
    /\ (wanted (Config.cfg (conf s')) "a").1 = 2500 * Millisecond.
Proof.
  exists demoLive, (Settings.serve demoLive Config.goodCalls (Settings.RRemove (Some "b"))).1, Config.goodCalls.
  split; [exact demoLive_moves|].
  split; [exact (runs_keep_ok (begin demoSite) (begin demoLive) demoSite_ok demoLive_moves)|].
  split; [vm_compute; reflexivity|]. split; [apply (bool_decide_eq_true_1 _); vm_compute; reflexivity|].
  split; vm_compute; reflexivity.
Qed.

End Control.
