(* ===== verification/Signal.v ===== *)
(** * The public listener ([src/internal/signal/server.go])

    Requests that anyone on the internet can send.  WHIP and WHEP are two
    [endpoint]s: what runs an offer, how its errors are answered, and where its
    resources live.  The channel [negotiations] of capacity eight is the number of
    negotiations under way.  Space in a header is ASCII space. *)

From S2P Require Import Prelude.
From S2P Require Import GoFloat.
From S2P Require Import DynamicDelay.
From S2P Require Import Relay.
From S2P Require Import Config.
From S2P Require Import Text.
From S2P Require Import Peer.
From S2P Require Import Whep.
From S2P Require Import Whip.
From S2P Require Import Transport.
From S2P Require Import Settings.
From Stdlib Require Import Ascii.

Module Signal.

Definition maxOfferBytes : Z := Z.shiftl 256 10.

Definition StatusRequestEntityTooLarge : Z := 413.
Definition StatusTooManyRequests : Z := 429.
Definition StatusServiceUnavailable : Z := 503.

(** A response: its status, its body, and the [Location] of a created resource. *)
Inductive body := Text (s : string) | SDP (answer location : string) | Page | JSON (p : Relay.PlaybackState * DynamicDelay.Options * Z) | Script | Empty.

Abbreviation response := (Z * body)%type.

Definition notFound : response := (Settings.StatusNotFound, Text "not found").

(** ** Keys *)
Definition spaces : list ascii := ["009"; "010"; "011"; "012"; "013"; " "]%char.

(** [strings.TrimSpace] *)
Definition TrimSpace (s : string) : string := Transport.Trim s spaces.

(** [header[:len(scheme)]] and [header[len(scheme):]] *)
Fixpoint split_at (n : nat) (s : string) : string * string :=
  match n, s with
  | O, _ => ("", s)
  | S n, "" => ("", "")
  | S n, String a r => let '(x, y) := split_at n r in (String a x, y)
  end.

Definition scheme : string := "bearer ".

(** [pathKey] is the path's [{key}], empty on a route without one. *)
Definition keyFrom (pathKey authorization : string) : string :=
  if negb (String.eqb pathKey "") then pathKey
  else
    let header := TrimSpace authorization in
    if (String.length header <=? String.length scheme)%nat || negb (EqualFold (split_at (String.length scheme) header).1 scheme)
    then ""
    else TrimSpace (split_at (String.length scheme) header).2.

(** ** Endpoints *)
Record endpoint (E : Type) := mkEndpoint {
  run : string -> string -> E + string * string;   (* key and offer; the answer and its resource *)
  refuse : E -> response;
  resources : string
}.
Arguments mkEndpoint {E} _ _ _.
Arguments run {E} _ _ _.
Arguments refuse {E} _ _.
Arguments resources {E} _.

Definition rejectSubscribe (cause : Whep.error) : response :=
  match cause with
  | Whep.ErrCapacity => (StatusTooManyRequests, Text "subscriber limit reached")
  | Whep.ErrWrongRole =>
      (Settings.StatusBadRequest, Text "This is the sender link, which belongs in Moblin. OBS needs the receiver link.")
  | Whep.ErrNotReceiving =>
      (Settings.StatusBadRequest, Text "This endpoint serves media. A publisher should use the sender link instead.")
  | Whep.ErrOffline => (StatusServiceUnavailable, Text "That camera is not streaming yet.")
  | Whep.ErrUnknownKey => notFound
  | _ => (Settings.StatusBadRequest, Text "cannot negotiate")
  end.

Definition reject (cause : Whip.error) : response :=
  match cause with
  | Whip.ErrWrongRole =>
      (Settings.StatusBadRequest, Text "This is the receiver link, which belongs in OBS. Moblin needs the sender link.")
  | Whip.ErrNotSending =>
      (Settings.StatusBadRequest, Text "This endpoint publishes media. An OBS receiver should use the receiver link instead.")
  | Whip.ErrAlreadyLive => (Settings.StatusConflict, Text "That camera already has a publisher.")
  | Whip.ErrUnknownKey => notFound
  | _ => (Settings.StatusBadRequest, Text "cannot negotiate")
  end.

Definition whip (publish : string -> string -> Whip.error + string * string) : endpoint Whip.error :=
  mkEndpoint publish reject "/whip/resource/".

Definition whep (subscribe : string -> string -> Whep.error + string * string) : endpoint Whep.error :=
  mkEndpoint subscribe rejectSubscribe "/whep/resource/".

(** ** Handlers *)

(** [negotiate] up to the offer: the key it goes on with, and the slot taken. *)
Definition enter (c : Config.Cfg) (negotiating : nat) (pathKey authorization : string) : nat * (response + string) :=
  let key := keyFrom pathKey authorization in
  match (Config.Resolve c key).2 with
  | Config.RoleNone => (negotiating, inl notFound)
  | _ =>
      if (negotiating <? 8)%nat then (S negotiating, inr key)
      else (negotiating, inl (StatusTooManyRequests, Text "too many negotiations"))
  end.

(** The rest of [negotiate], which gives the slot back.  [offer] is [None] when it
    is longer than [maxOfferBytes] or cannot be read. *)
Definition finish {E} (ep : endpoint E) (negotiating : nat) (key : string) (offer : option string) : nat * response :=
  (pred negotiating,
   match offer with
   | None => (StatusRequestEntityTooLarge, Text "offer too large")
   | Some offer =>
       match run ep key offer with
       | inl e => refuse ep e
       | inr (answer, resource) => (Settings.StatusCreated, SDP answer (resources ep +:+ resource))
       end
   end).

(** A negotiation from beginning to end, nothing else in between. *)
Definition negotiate {E} (ep : endpoint E) (c : Config.Cfg) (negotiating : nat) (pathKey authorization : string) (offer : option string)
  : nat * response :=
  match enter c negotiating pathKey authorization with
  | (n, inl res) => (n, res)
  | (n, inr key) => finish ep n key offer
  end.

(** [release]; [ended] is whether the session was found and closed. *)
Definition release (ended : bool) : response :=
  if ended then (Settings.StatusNoContent, Empty) else notFound.

(** [closes]: whether the connection closed without an error. *)
Definition handleTeardown (s : Whip.Server) (resource : string) (closes : bool) : response :=
  release (match Whip.Teardown s resource with inr _ => closes | inl _ => false end).

Definition handleUnsubscribe (s : Whep.Server) (resource : string) (closes : bool) : response :=
  release (bool_decide (is_Some (Whep.sessions s !! resource)) && closes).

Definition isReceiver (c : Config.Cfg) (key : string) : bool :=
  match (Config.Resolve c key).2 with Config.RoleReceiver => true | _ => false end.

(** [page] and [script]: whether the embedded file could be read. *)
Definition handlePlayer (c : Config.Cfg) (key : string) (page : bool) : response :=
  if negb (isReceiver c key) then notFound else if page then (Settings.StatusOK, Page) else notFound.

Definition handlePlayback (c : Config.Cfg) (p : Relay.PlaybackState) (key : string) : response :=
  if negb (isReceiver c key) then notFound
  else (Settings.StatusOK, JSON (Whep.Playback c p (Config.ID (Config.Resolve c key).1))).

Definition handlePlaybackAsset (c : Config.Cfg) (key : string) (script : bool) : response :=
  if negb (isReceiver c key) then notFound else if script then (Settings.StatusOK, Script) else notFound.

(** ** Negotiations that overlap *)
Inductive event := Arrive (pathKey authorization : string) | Finish (key : string) (offer : option string).

Definition react {E} (ep : endpoint E) (c : Config.Cfg) (n : nat) (e : event) : nat :=
  match e with Arrive p a => (enter c n p a).1 | Finish key offer => (finish ep n key offer).1 end.

(** ** Trimming *)
Lemma rev_app_app s acc t : Transport.string_rev_app s (acc +:+ t) = Transport.string_rev_app s acc +:+ t.
Proof. revert acc. induction s as [|a s IH]; intros acc; [done|]. cbn. by rewrite <-string_app_cons, IH. Qed.

Lemma string_rev_cons a s : Transport.string_rev (String a s) = Transport.string_rev s +:+ String a "".
Proof. unfold Transport.string_rev. cbn. by rewrite <-(rev_app_app s "" (String a "")). Qed.

Lemma string_rev_app s t : Transport.string_rev (s +:+ t) = Transport.string_rev t +:+ Transport.string_rev s.
Proof.
  induction s as [|a s IH]; [by rewrite string_app_nil_l, Text.string_app_nil_r|].
  by rewrite string_app_cons, !string_rev_cons, IH, Text.string_app_assoc.
Qed.

Lemma string_rev_rev s : Transport.string_rev (Transport.string_rev s) = s.
Proof. induction s as [|a s IH]; [done|]. by rewrite string_rev_cons, string_rev_app, IH. Qed.

(** Text without spaces. *)
Fixpoint solid (s : string) : bool :=
  match s with "" => true | String a r => negb (bool_decide (a ∈ spaces)) && solid r end.

Lemma solid_app s t : solid (s +:+ t) = solid s && solid t.
Proof. induction s as [|a s IH]; [done|]. rewrite string_app_cons. cbn. by rewrite IH, andb_assoc. Qed.

Lemma solid_rev s : solid (Transport.string_rev s) = solid s.
Proof.
  induction s as [|a s IH]; [done|]. rewrite string_rev_cons, solid_app, IH. cbn. rewrite andb_true_r. apply andb_comm.
Qed.

(** Text that begins and ends in something that is no space is left alone. *)
Lemma TrimSpace_ends a s key :
  bool_decide (a ∈ spaces) = false -> solid key = true -> key <> "" -> TrimSpace (String a s +:+ key) = String a s +:+ key.
Proof.
  intros Ha Hs Hne. unfold TrimSpace, Transport.Trim. rewrite string_app_cons. cbn [Transport.TrimLeft]. rewrite Ha.
  rewrite <-string_app_cons, string_rev_app. rewrite <-solid_rev in Hs.
  destruct (Transport.string_rev key) as [|b r] eqn:E.
  { destruct Hne. by rewrite <-(string_rev_rev key), E. }
  cbn in Hs. apply andb_true_iff in Hs as [Hb _]. apply negb_true_iff in Hb. rewrite string_app_cons. cbn [Transport.TrimLeft]. rewrite Hb.
  rewrite <-string_app_cons, <-E, string_rev_app, !string_rev_rev. done.
Qed.

Lemma TrimSpace_solid key : solid key = true -> TrimSpace key = key.
Proof.
  intros Hs. unfold TrimSpace, Transport.Trim.
  assert (Hl : forall s, solid s = true -> Transport.TrimLeft s spaces = s).
  { intros [|a s]; [done|]. cbn. rewrite andb_true_iff, negb_true_iff. by intros [-> _]. }
  rewrite (Hl key) by done. rewrite Hl by (by rewrite solid_rev). apply string_rev_rev.
Qed.

Lemma split_at_app s t : split_at (String.length s) (s +:+ t) = (s, t).
Proof. induction s as [|a s IH]; [by destruct t|]. rewrite string_app_cons. cbn. by rewrite IH. Qed.

Lemma EqualFold_scheme s :
  EqualFold s scheme = true -> String.length s = 7%nat /\ exists a r, s = String a r /\ bool_decide (a ∈ spaces) = false.
Proof.
  unfold EqualFold. intros E. apply String.eqb_eq in E. assert (Hlen : forall t, String.length (ToLower t) = String.length t)
    by (induction t as [|a t IH]; cbn; [done|by rewrite IH]).
  split; [by rewrite <-Hlen, E|]. destruct s as [|a r]; [done|]. exists a, r. split; [done|]. apply bool_decide_eq_false. intros Hin.
  cbn in E. injection E as Ea _. unfold spaces in Hin. rewrite !elem_of_cons, elem_of_nil in Hin.
  destruct Hin as [->|[->|[->|[->|[->|[->|[]]]]]]]; done.
Qed.

Lemma Resolve_miss c key : key ∉ Config.keys (Config.Ingests c) -> Config.Resolve c key = (Config.zeroIngest, Config.RoleNone).
Proof. intros Hk. by apply Config.resolve_miss. Qed.

(** ** Claims *)

(** The two ways of giving a key are one.  A key in the path is taken whatever
    the header says; without it the same key in a bearer header, the scheme in any
    case, is taken as it is.  So both reach the same camera with the same answer. *)
Theorem two_ways_in {E} (ep : endpoint E) c n key bearer other offer :
  key <> "" -> solid key = true -> EqualFold bearer scheme = true ->
  keyFrom key other = key /\ keyFrom "" (bearer +:+ key) = key
  /\ negotiate ep c n key other offer = negotiate ep c n "" (bearer +:+ key) offer.
Proof.
  intros Hne Hs Hb.
  assert (H1 : keyFrom key other = key) by (unfold keyFrom; apply String.eqb_neq in Hne; by rewrite Hne).
  assert (H2 : keyFrom "" (bearer +:+ key) = key).
  { destruct (EqualFold_scheme bearer Hb) as (Hlen & a & r & -> & Ha). unfold keyFrom. rewrite String.eqb_refl. cbn [negb].
    rewrite TrimSpace_ends by done. change (String.length scheme) with 7%nat. rewrite <-Hlen, split_at_app. cbn [fst snd].
    rewrite Hb, TrimSpace_solid by done. rewrite Config.string_length_app, Hlen. destruct key as [|b key]; [done|]. done. }
  split_and!; auto. unfold negotiate, enter. by rewrite H1, H2.
Qed.

(** C29: who holds no key learns nothing.  A request whose key is no key of any
    camera, in the path or in the header, gets one and the same answer on all
    routes that take a key, whatever the offer, the connections, the cameras that
    are live and the negotiations under way, and takes no negotiation slot; a
    request to end a session that does not exist gets it too. *)
Theorem unknown_key_learns_nothing {E} (ep : endpoint E) c n pathKey auth offer key (p : Relay.PlaybackState) found publishers subscribers resource closes :
  keyFrom pathKey auth ∉ Config.keys (Config.Ingests c) -> key ∉ Config.keys (Config.Ingests c) ->
  Whip.sessions publishers !! resource = None -> Whep.sessions subscribers !! resource = None ->
  negotiate ep c n pathKey auth offer = (n, notFound)
  /\ handlePlayer c key found = notFound /\ handlePlayback c p key = notFound /\ handlePlaybackAsset c key found = notFound
  /\ handleTeardown publishers resource closes = notFound /\ handleUnsubscribe subscribers resource closes = notFound.
Proof.
  intros Hk Hk' Hp Hs. unfold negotiate, enter, handlePlayer, handlePlayback, handlePlaybackAsset, isReceiver.
  rewrite !(Resolve_miss c) by done. unfold handleTeardown, handleUnsubscribe, Whip.Teardown. rewrite Hp, Hs. done.
Qed.

(** At most eight offers are negotiated at a time. *)
Lemma negotiations_bounded {E} (ep : endpoint E) c events : (fold_left (react ep c) events 0 <= 8)%nat.
Proof.
  assert (Hgen : forall n, (n <= 8)%nat -> (fold_left (react ep c) events n <= 8)%nat); [|apply Hgen; lia].
  induction events as [|e events IH]; intros n Hn; [done|]. apply IH. destruct e as [p a|key offer]; unfold react, enter, finish; cbn [fst].
  - destruct (Config.Resolve c _).2; [done|..]; destruct (Nat.ltb_spec n 8); cbn [fst]; lia.
  - lia.
Qed.

(** ** Witnesses *)
Definition demoEndpoint : endpoint Whip.error := whip (λ key offer, inr ("answer", "res")).

Lemma two_ways_in_witness :
  keyFrom "s_12" "Bearer stale" = "s_12" /\ keyFrom "" "BEARER s_12" = "s_12"
  /\ negotiate demoEndpoint Config.defaultCfg 0 "s_12" "Bearer stale" None = negotiate demoEndpoint Config.defaultCfg 0 "" "BEARER s_12" None.
Proof. apply (two_ways_in demoEndpoint Config.defaultCfg 0 "s_12" "BEARER " "Bearer stale" None); [done|reflexivity..]. Defined.

Lemma unknown_key_learns_nothing_witness :
  (negotiate demoEndpoint (Config.cfg Config.twoWorld) 3 "s_12" "" (Some "offer")).2 = notFound
  /\ handlePlayer (Config.cfg Config.twoWorld) "r_12" true = notFound.
Proof.
  assert (Hk : forall k, k = "s_12" \/ k = "r_12" -> k ∉ Config.keys (Config.Ingests (Config.cfg Config.twoWorld))).
  { intros k Hk. apply (bool_decide_eq_false_1 _). destruct Hk as [->| ->]; vm_compute; reflexivity. }
  destruct (unknown_key_learns_nothing demoEndpoint (Config.cfg Config.twoWorld) 3 "s_12" "" (Some "offer") "r_12"
    (Relay.mkPlayback [] (F64.of_Z 0)) true Whip.NewServer Whep.NewServer "none" true) as (H1 & H2 & _).
  - apply Hk. by left.
  - apply Hk. by right.
  - reflexivity.
  - reflexivity.
  - rewrite H1. done.
Defined.

End Signal.
