(* ===== verification/Link.v ===== *)
(** * A publisher's link ([src/internal/ingest]: [arrival_feedback.go], [paths.go],
    [path_failover.go], [playout.go], the codecs and labels of [whip.go], and the
    address mappings of [engine.go])

    What Pion's packages parse, measure and record (RTP headers, ICE pairs and
    their statistics, the TWCC recorder) is what they answered.  A statistics
    report, a Go map, is a list in the order of its iteration. *)

From Corelib Require Import SpecFloat.
From S2P Require Import Prelude.
From S2P Require Import GoFloat.
From S2P Require Import DynamicDelay.
From S2P Require Import Config.
From S2P Require Import Relay.
From S2P Require Import Stats.
From S2P Require Import Text.
From S2P Require Import Address.
From S2P Require Import Transport.
From S2P Require Import Signal.
From stdpp Require Import pretty.
From Stdlib Require Import Ascii.

Local Open Scope Z_scope.

Module Link.

(** ** Arrival feedback ([arrival_feedback.go]) *)

(** One packet as [rtp.Header.Unmarshal] and [TransportCCExtension.Unmarshal] read
    it: its SSRC, and the transport sequence number under an extension id. *)
Record header := mkHeader { SSRC : Z; transportSequence : Z -> option Z }.

Record arrivalFeedback := mkArrival {
  closed : bool;
  claimed : bool;
  started : bool;
  start : time;
  streams : gmap Z Z;
  recorded : list (Z * Z * Z);   (* what the recorder was given, newest first: SSRC, sequence, microseconds *)
  senders : nat;                 (* goroutines that send feedback *)
  doneClosed : nat               (* how often [done] was closed *)
}.

#[export] Instance eta_arrival : Eta arrivalFeedback := fun f =>
  mkArrival (closed f) (claimed f) (started f) (start f) (streams f) (recorded f) (senders f) (doneClosed f).

Definition newArrivalFeedback (now : time) : arrivalFeedback := mkArrival false false false now ∅ [] 0 0.

(** [None]: the collector cannot be reused. *)
Definition NewInterceptor (f : arrivalFeedback) : option arrivalFeedback :=
  if claimed f || closed f then None else Some (f <| claimed := true |>).

Definition TransportCCURI : string := "http://www.ietf.org/id/draft-holmer-rmcat-transport-wide-cc-extensions-01".

(** The loop over the extensions of a stream, as pairs of a URI and an id. *)
Fixpoint extensionID (extensions : list (string * Z)) : option Z :=
  match extensions with
  | [] => None
  | (uri, id) :: rest =>
      if String.eqb uri TransportCCURI && (0 <? id) && (id <=? 255) then Some (u8 id) else extensionID rest
  end.

Definition BindRemoteStream (f : arrivalFeedback) (ssrc : Z) (extensions : list (string * Z)) : arrivalFeedback :=
  if closed f then f
  else match extensionID extensions with
       | Some id => f <| streams := <[ssrc := id]> (streams f) |>
       | None => f
       end.

Definition UnbindRemoteStream (f : arrivalFeedback) (ssrc : Z) : arrivalFeedback :=
  f <| streams := delete ssrc (streams f) |>.

(** [Duration.Microseconds] *)
Definition Microseconds (d : duration) : Z := Z.quot d Microsecond.

(** [packet] is [None] when the header does not parse. *)
Definition record (f : arrivalFeedback) (packet : option header) (arrival : time) : arrivalFeedback :=
  if closed f then f
  else
    match packet with
    | None => f
    | Some h =>
        let id := default 0 (streams f !! SSRC h) in
        if id =? 0 then f
        else
          match transportSequence h id with
          | None => f
          | Some seq => f <| recorded := (SSRC h, seq, Microseconds (tsub arrival (start f))) :: recorded f |>
          end
    end.

(** [feedback]; [build] is [recorder.BuildFeedbackPacket]. *)
Definition feedback {P} (f : arrivalFeedback) (build : list (Z * Z * Z) -> list P) : list P :=
  if closed f then [] else build (recorded f).

Definition BindRTCPWriter (f : arrivalFeedback) : arrivalFeedback :=
  if closed f || started f then f else f <| started := true |> <| senders := S (senders f) |>.

(** [Close] once [wg.Wait] has returned: the goroutines have seen [done]. *)
Definition Close (f : arrivalFeedback) : arrivalFeedback :=
  let f := if closed f then f else f <| closed := true |> <| streams := ∅ |> <| doneClosed := S (doneClosed f) |> in
  f <| senders := 0%nat |>.

Inductive arrivalOp :=
  | ANew | ABind (ssrc : Z) (extensions : list (string * Z)) | AUnbind (ssrc : Z)
  | ARecord (packet : option header) (arrival : time) | AWriter | AClose.

Definition arrivalStep (f : arrivalFeedback) (o : arrivalOp) : arrivalFeedback :=
  match o with
  | ANew => default f (NewInterceptor f)
  | ABind ssrc exts => BindRemoteStream f ssrc exts
  | AUnbind ssrc => UnbindRemoteStream f ssrc
  | ARecord p t => record f p t
  | AWriter => BindRTCPWriter f
  | AClose => Close f
  end.

(** ** Paths ([paths.go]) *)
Inductive statsEntry :=
  | PairStats (nominated succeeded : bool) (roundTripTime : F64.float64)
  | InboundStats (packetsLost : Z)
  | OtherStats.

Fixpoint roundTrip (report : list statsEntry) : Z :=
  match report with
  | [] => 0
  | PairStats true _ rtt :: _ => F64.to_i64 (F64.mul rtt (F64.of_Z 1000))
  | _ :: rest => roundTrip rest
  end.

Definition i32 (z : Z) : Z := (z + 2147483648) mod 4294967296 - 2147483648.

Definition addLost (lost : Z) (e : statsEntry) : Z :=
  match e with InboundStats n => if 0 <? n then i32 (lost + n) else lost | _ => lost end.

Definition packetsLost (report : list statsEntry) : Z := u64 (fold_left addLost report 0).

Definition countPair (acc : Z * Z) (e : statsEntry) : Z * Z :=
  match e with
  | PairStats _ ok _ => (if ok then acc.1 + 1 else acc.1, acc.2 + 1)
  | _ => acc
  end.

Definition countPairs (report : list statsEntry) : Z * Z := fold_left countPair report (0, 0).

(** One tick of [watchPairs] for the session of a camera. *)
Definition watchPairs (r : Stats.Registry) (current : bool) (ingestID : string) (report : list statsEntry) : Stats.Registry :=
  let '(nlive, total) := countPairs report in
  if current then Stats.Link (Stats.Pairs r ingestID nlive total) ingestID (roundTrip report) (packetsLost report) else r.

(** ** Failover ([path_failover.go]) *)
Record endpoints := mkEndpoints { localAddr : string; localPort : Z; remoteAddr : string; remotePort : Z }.

#[export] Instance endpoints_eq_dec : EqDecision endpoints.
Proof. solve_decision. Defined.

Definition pathSilence : duration := 2 * Second.

(** [selected] has both its candidates, or is [None]. *)
Definition matchesSelection (pair selected : option endpoints) : bool :=
  match pair, selected with
  | Some p, Some s =>
      String.eqb (localAddr p) (localAddr s) && (localPort p =? localPort s)
      && String.eqb (remoteAddr p) (remoteAddr s) && (remotePort p =? remotePort s)
  | _, _ => false
  end.

(** [observed] is the state of the handler; [rtt] the round trip time of [pair],
    [lastReceived] when the remote candidate of [observed] was last heard.  The
    result is the new [observed] and whether to switch. *)
Definition binding (observed selected pair : option endpoints) (rtt : F64.float64) (lastReceived now : time)
  : option endpoints * bool :=
  if matchesSelection pair selected then (pair, false)
  else if negb (matchesSelection observed selected) || bool_decide (pair = None) || SFleb rtt (F64.of_Z 0) then (observed, false)
  else if IsZero lastReceived || (tsub now lastReceived <? pathSilence) then (observed, false)
  else (observed, true).

(** ** Playout hint ([playout.go]) *)
Definition playoutDelayURI : string := "http://www.webrtc.org/experiments/rtp-hdrext/playout-delay".
Definition playoutFloor : Z := 30.
Definition playoutCeiling : Z := 100.

(** The id [BindLocalStream] stamps packets under; [None]: the stream is left alone. *)
Definition stampID (extensions : list (string * Z)) : option Z :=
  match list_find (λ e : string * Z, e.1 = playoutDelayURI) extensions with
  | Some (_, (_, id)) => if u8 id =? 0 then None else Some (u8 id)
  | None => None
  end.

(** ** Codecs ([whip.go]) *)
Record codecEntry := mkCodec { name : string; MimeType : string; ClockRate : Z; SDPFmtpLine : string; PayloadType : Z }.

Definition videoCodecs : list codecEntry :=
  [mkCodec Config.CodecH264 "video/H264" 90000 "level-asymmetry-allowed=1;packetization-mode=1;profile-level-id=42e01f" 96;
   mkCodec Config.CodecH265 "video/H265" 90000 "" 116;
   mkCodec Config.CodecAV1 "video/AV1" 90000 "" 45].

(** A registered codec and its retransmissions. *)
Definition registerVideo (entry : codecEntry) : list codecEntry :=
  [entry; mkCodec (name entry) "video/rtx" 90000 ("apt=" +:+ pretty (PayloadType entry)) (PayloadType entry + 1)].

Definition audioCodecs : list codecEntry :=
  [mkCodec "opus" "audio/opus" 48000 "" 111;
   mkCodec "aac" "audio/MPEG4-GENERIC" 48000
     "streamtype=5;profile-level-id=1;mode=AAC-hbr;config=1190;sizelength=13;indexlength=3;indexdeltalength=3" 112].

(** The codecs [registerCodecs] registers for a camera, Pion accepting all. *)
Definition registerCodecs (codecs : list string) : list codecEntry :=
  (filter (λ e, name e ∈ codecs) videoCodecs ≫= registerVideo) ++ audioCodecs.

(** ** Labels ([whip.go]) *)
Inductive candidateType := TypeHost | TypeSrflx | TypePrflx | TypeRelay | TypeUnknown.

(** [address] is what [netip.ParseAddr] made of it. *)
Definition isPrivate (address : option Address.Addr) : bool :=
  match address with
  | None => false
  | Some a => let a := Address.Unmap a in Address.IsPrivate a || Address.IsLoopback a || Address.IsLinkLocalUnicast a
  end.

Definition describePair (typ : candidateType) (remote : option Address.Addr) (protocol local : string) : string :=
  let kind :=
    match typ with
    | TypeRelay => "relayed"
    | TypeSrflx | TypePrflx => "through NAT"
    | TypeHost => if isPrivate remote then "local network" else "direct"
    | TypeUnknown => "direct"
    end in
  kind +:+ " over " +:+ protocol +:+ " via " +:+ local.

(** ** Public addresses ([engine.go]) *)

(** [isIP]: whether [net.ParseIP] accepts the text. *)
Definition validMapping (isIP : string -> bool) (mapping : string) : option (list string) :=
  let parts := Text.Split mapping "/"%char in
  if (length parts <=? 2)%nat && forallb (λ p, isIP (Signal.TrimSpace p)) parts then Some (Signal.TrimSpace <$> parts) else None.

Fixpoint publicICEAddresses (isIP : string -> bool) (mappings : list string) : option (list string) :=
  match mappings with
  | [] => Some []
  | m :: rest => parts ← validMapping isIP m; l ← publicICEAddresses isIP rest; Some (String.concat "/" parts :: l)
  end.

(** The external and local half of the rewrite rule of a mapping. *)
Definition rewriteRule (mapping : string) : string * string :=
  let '(external, local) := Cut mapping "/"%char in (external, default "" local).

(** ** Lemmas *)

(** What holds of a collector whatever is asked of it. *)
Record arrival_ok (f : arrivalFeedback) : Prop := {
  a_senders : (senders f <= (if started f then 1 else 0))%nat;
  a_done : doneClosed f = if closed f then 1%nat else 0%nat;
  a_closed : closed f = true -> senders f = 0%nat /\ streams f = ∅
}.

Lemma arrivalStep_ok f o : arrival_ok f -> arrival_ok (arrivalStep f o).
Proof.
  intros [H1 H2 H3]. destruct o as [|ssrc exts|ssrc|p t| |]; cbn.
  - unfold NewInterceptor. destruct (claimed f || closed f); by split.
  - unfold BindRemoteStream. destruct (closed f) eqn:Ec; [by split; rewrite ?Ec|]. destruct (extensionID exts); split; cbn; rewrite ?Ec; auto; done.
  - split; cbn; auto. intros Hc. destruct (H3 Hc) as [-> ->]. by rewrite delete_empty.
  - unfold record. destruct (closed f) eqn:Ec; [by split; rewrite ?Ec|]. destruct p as [h|]; [|by split; rewrite ?Ec].
    destruct (_ =? 0); [by split; rewrite ?Ec|]. destruct (transportSequence h _); split; cbn; rewrite ?Ec; auto; done.
  - unfold BindRTCPWriter. destruct (closed f) eqn:Ec; cbn; [by split; rewrite ?Ec|]. destruct (started f) eqn:Es; split; cbn; rewrite ?Ec, ?Es in *; auto; try done.
    lia.
  - unfold Close. destruct (closed f) eqn:Ec; split; cbn; rewrite ?Ec in *; auto.
    + destruct (started f); lia.
    + intros _. split; [done|]. by apply H3.
    + destruct (started f); lia.
Qed.

Lemma arrivalStep_closed f o : closed f = true -> closed (arrivalStep f o) = true /\ recorded (arrivalStep f o) = recorded f.
Proof.
  intros Hc. destruct o as [|ssrc exts|ssrc|p t| |]; cbn; unfold NewInterceptor, BindRemoteStream, record, BindRTCPWriter, Close; rewrite ?Hc, ?orb_true_r; done.
Qed.

(** The losses of a report, by definition. *)
Definition losses (report : list statsEntry) : Z :=
  foldr (λ e acc, match e with InboundStats n => Z.max 0 n + acc | _ => acc end) 0 report.

Lemma losses_cons e report :
  losses (e :: report) = match e with InboundStats n => Z.max 0 n | _ => 0 end + losses report.
Proof. by destruct e. Qed.

Lemma losses_nonneg report : 0 <= losses report.
Proof. induction report as [|e report IH]; [done|]. rewrite losses_cons. destruct e; lia. Qed.

Lemma packetsLost_from report acc :
  0 <= acc -> acc + losses report < 2147483648 -> fold_left addLost report acc = acc + losses report.
Proof.
  revert acc. induction report as [|e report IH]; intros acc Ha Hb; [cbn; lia|]. rewrite losses_cons in *. cbn [fold_left].
  pose proof (losses_nonneg report). destruct e as [| n|]; cbn [addLost]; [rewrite IH; lia| |rewrite IH; lia].
  destruct (Z.ltb_spec 0 n).
  - rewrite Z.max_r in * by lia. assert (E : i32 (acc + n) = acc + n) by (unfold i32; rewrite Z.mod_small; lia).
    rewrite E, IH by lia. lia.
  - rewrite Z.max_l in * by lia. rewrite IH by lia. lia.
Qed.

Lemma losses_perm report report' : Permutation report report' -> losses report = losses report'.
Proof.
  induction 1 as [|x l l' _ IH|x y l|]; rewrite ?losses_cons; try congruence. destruct x, y; lia.
Qed.

(** ** Claims *)

(** The arrival collector sends from one goroutine at most, closes its channel
    at most once however often it is closed, and once closed holds no stream, has
    no goroutine left and never records again. *)
Theorem arrival_lifecycle now ops ops' :
  let f := fold_left arrivalStep ops (newArrivalFeedback now) in
  (senders f <= 1)%nat /\ (doneClosed f <= 1)%nat
  /\ (closed f = true ->
      let f' := fold_left arrivalStep ops' f in
      closed f' = true /\ senders f' = 0%nat /\ streams f' = ∅ /\ recorded f' = recorded f).
Proof.
  assert (Hrun : forall ops f, arrival_ok f -> arrival_ok (fold_left arrivalStep ops f)).
  { clear. induction ops as [|o ops IH]; intros f Hf; [done|]. apply IH. by apply arrivalStep_ok. }
  assert (Hnew : arrival_ok (newArrivalFeedback now)) by (by split).
  cbn zeta. set (f := fold_left arrivalStep ops _). pose proof (Hrun ops _ Hnew) as Hf. fold f in Hf. clearbody f.
  split_and!; [destruct Hf as [H1 _ _]; destruct (started f); lia|destruct Hf as [_ -> _]; destruct (closed f); lia|].
  intros Hc. assert (Hend : closed (fold_left arrivalStep ops' f) = true /\ recorded (fold_left arrivalStep ops' f) = recorded f).
  { clear - Hc. revert f Hc. induction ops' as [|o ops' IH]; intros f Hc; [done|]. cbn. destruct (arrivalStep_closed f o Hc) as [Hc' Hr].
    destruct (IH _ Hc') as [? ->]. done. }
  destruct Hend as [He Hr]. split; [done|]. destruct (a_closed _ (Hrun ops' f Hf) He) as [? ?]. done.
Qed.

(** The return path moves only off a silent path.  A binding request makes the
    handler switch exactly when it came on another pair than the selected one, that
    pair has completed a round trip, the selected pair is the one last observed,
    and nothing has been heard on it for two seconds. *)
Theorem failover_needs_silence observed selected pair rtt lastReceived now :
  (binding observed selected pair rtt lastReceived now).2 = true <->
  pair <> None /\ matchesSelection pair selected = false /\ matchesSelection observed selected = true
  /\ SFleb rtt (F64.of_Z 0) = false /\ lastReceived <> 0 /\ pathSilence <= tsub now lastReceived.
Proof.
  unfold binding. generalize (SFleb rtt (F64.of_Z 0)) as stalled. intros stalled. destruct (matchesSelection pair selected) eqn:Em; [cbn; split; [done|intros (_ & ? & _); done]|].
  destruct (matchesSelection observed selected) eqn:Eo; cbn; [|split; [done|intros (_ & _ & ? & _); done]].
  destruct (bool_decide_reflect (pair = None)) as [->|Hp]; cbn; [split; [done|intros [? _]; done]|].
  destruct stalled; cbn; [split; [done|intros (_ & _ & _ & ? & _); done]|].
  unfold IsZero. destruct (Z.eqb_spec lastReceived 0), (Z.ltb_spec (tsub now lastReceived) pathSilence); cbn; split; try done; try lia.
Qed.

(** Whatever codecs a camera allows, no two registered codecs share a payload
    type, and every retransmission format names the codec registered just before
    it. *)
Theorem payload_types_distinct codecs :
  NoDup (PayloadType <$> registerCodecs codecs)
  /\ forall rtx, rtx ∈ registerCodecs codecs -> MimeType rtx = "video/rtx" ->
       exists entry, entry ∈ registerCodecs codecs /\ entry ∈ videoCodecs /\ name entry ∈ codecs
         /\ SDPFmtpLine rtx = "apt=" +:+ pretty (PayloadType entry) /\ PayloadType rtx = PayloadType entry + 1.
Proof.
  split.
  - unfold registerCodecs, videoCodecs. rewrite !filter_cons, filter_nil. cbn [name].
    repeat destruct (decide _); apply (bool_decide_eq_true_1 _); vm_compute; reflexivity.
  - intros rtx Hin Hm. unfold registerCodecs in Hin |- *. apply elem_of_app in Hin as [Hin|Hin].
    + apply list_elem_of_bind in Hin as (entry & Hrtx & [Hn Hv]%list_elem_of_filter). exists entry.
      unfold registerVideo in Hrtx. rewrite elem_of_cons, list_elem_of_singleton in Hrtx. destruct Hrtx as [->| ->].
      * exfalso. unfold videoCodecs in Hv. rewrite !elem_of_cons, elem_of_nil in Hv. destruct Hv as [->|[->|[->|[]]]]; done.
      * split_and!; try done. apply elem_of_app. left. apply list_elem_of_bind. exists entry. split; [by left|].
        by apply list_elem_of_filter.
    + exfalso. unfold audioCodecs in Hin. rewrite !elem_of_cons, elem_of_nil in Hin. destruct Hin as [->|[->|[]]]; done.
Qed.

(** The loss counter is exact while the losses fit 31 bits, in any order of the
    report; past that it wraps. *)
Lemma packetsLost_exact report report' :
  Permutation report report' -> losses report < 2147483648 -> packetsLost report' = losses report.
Proof.
  intros Hp Hl. unfold packetsLost. rewrite (losses_perm _ _ Hp) in Hl |- *. pose proof (losses_nonneg report').
  rewrite packetsLost_from by lia. rewrite u64_small; [lia|]. unfold is_u64. lia.
Qed.

Example packetsLost_wraps : packetsLost [InboundStats 2147483647; InboundStats 1] = 18446744071562067968.
Proof. vm_compute. reflexivity. Qed.

End Link.
