(* ===== verification/Engine.v ===== *)
(** * Building the media stack ([ingest/engine.go], [buildAPI] and the callbacks of
    [ingest/whip.go], [configureArrivalFeedback], [playout.go], [receiveBuffer])

    Constructing the WebRTC engine is a sequence of calls to the library, any of
    which may refuse.  [build] is a small error monad that writes the calls down:
    a construction is the calls it makes and, unless one was refused, its result.
    [accepts] is the library's answer to a call, and [isIP] is [net.ParseIP]. *)

From S2P Require Import Prelude.
From S2P Require Import Text.
From S2P Require Import Address.
From S2P Require Import Config.
From S2P Require Import PacketBuffer.
From S2P Require Import Stats.
From S2P Require Import Transport.
From S2P Require Import Signal.
From S2P Require Import Link.
From Stdlib Require Import Ascii.

Local Open Scope Z_scope.

Module Engine.

(** ** Calls *)
Inductive kind := Video | Audio.

Inductive call :=
  | RegisterCodec (entry : Link.codecEntry) (channels : Z) (feedback : list (string * string)) (k : kind)
  | ConfigureRTCPReports | ConfigureStatsInterceptor | ConfigureTWCCSender
  | RegisterFeedback (typ : string) (k : kind)
  | RegisterHeaderExtension (uri : string) (k : kind) (sendonly : bool)
  | NewGenerator (size : Z) | NewResponder (size : Z)
  | AddGenerator | AddResponder | AddArrival | AddPlayout.

(** The calls that can fail; the others only add to a list. *)
Definition fallible (c : call) : bool :=
  match c with RegisterFeedback _ _ | AddGenerator | AddResponder | AddArrival | AddPlayout => false | _ => true end.

Section stack.
Context (accepts : call -> bool).

(** The calls made, and the result unless one was refused. *)
Definition build (A : Type) : Type := list call * option A.

#[local] Instance build_ret : MRet build := λ A a, ([], Some a).

#[local] Instance build_bind : MBind build := λ A B f m,
  match m with
  | (calls, None) => (calls, None)
  | (calls, Some a) => let '(more, r) := f a in (calls ++ more, r)
  end.

Definition issue (c : call) : build unit :=
  ([c], if negb (fallible c) || accepts c then Some tt else None).

Fixpoint each {A} (f : A -> build unit) (l : list A) : build unit :=
  match l with
  | [] => mret tt
  | x :: l => f x ;; each f l
  end.

(** ** [whip.go] *)
Definition nackHistory : Z := 4096.

Definition transportCC : string := "transport-cc".

Definition videoFeedback : list (string * string) :=
  [("nack", ""); ("nack", "pli"); ("ccm", "fir"); (transportCC, "")].

(** [registerCodecs], call by call. *)
Definition registerCodecs (codecs : list string) : build unit :=
  each (λ entry,
    if bool_decide (Link.name entry ∈ codecs) then
      each (λ e, issue (RegisterCodec e 0 (if String.eqb (Link.MimeType e) "video/rtx" then [] else videoFeedback) Video)) (Link.registerVideo entry)
    else mret tt) Link.videoCodecs ;;
  each (λ e, issue (RegisterCodec e 2 [] Audio)) Link.audioCodecs.

Definition transportCCURI : string := "http://www.ietf.org/id/draft-holmer-rmcat-transport-wide-cc-extensions-01".

(** [arrival]: whether the publisher has a collector of its own. *)
Definition configureArrivalFeedback (arrival : bool) : build unit :=
  if negb arrival then issue ConfigureTWCCSender
  else
    each (λ k, issue (RegisterFeedback transportCC k) ;; issue (RegisterHeaderExtension transportCCURI k false)) [Video; Audio] ;;
    issue AddArrival.

Definition buildAPI (codecs : list string) (arrival : bool) : build unit :=
  registerCodecs codecs ;;
  issue ConfigureRTCPReports ;;
  issue ConfigureStatsInterceptor ;;
  configureArrivalFeedback arrival ;;
  issue (NewGenerator nackHistory) ;;
  issue AddGenerator ;;
  issue (NewResponder nackHistory) ;;
  issue AddResponder ;;
  issue (RegisterHeaderExtension Link.playoutDelayURI Video true) ;;
  issue AddPlayout.

End stack.

(** ** [engine.go] *)
Definition socketBuffer : Z := Z.shiftl 8 20.
Definition replayWindow : Z := 4096.

Inductive network := UDP4 | UDP6.
Inductive profile := AEAD_AES_128_GCM | AES128_CM_HMAC_SHA1_80.

(** [webrtc.ICEAddressRewriteRule]; the candidate type is host and the mode append. *)
Record rule := mkRule { External : list string; Local : string }.

(** The sockets of [ice.NewMultiUDPMuxFromPort] and the settings of the engine. *)
Record engine := mkEngine {
  port : Z;
  readBuffer : Z;
  writeBuffer : Z;
  networks : list network;
  ipFilter : Address.Addr -> bool;
  loopback : bool;
  rules : list rule;
  renomination : bool;
  replay : Z;
  multicastDNS : bool;
  profiles : list profile
}.

(** What the steps that can fail answered: the recovery network, the sockets, the
    rewrite rules, renomination. *)
Record engineCalls := mkEngineCalls { recoveryNet : bool; sockets : bool; rewriteOK : bool; renominationOK : bool }.

Definition linkLocalFilter (ip : Address.Addr) : bool := negb (Address.IsLinkLocalUnicast (Address.Unmap ip)).

(** [None] is [ErrBuildAPI]. *)
Definition NewSettingEngine (isIP : string -> bool) (k : engineCalls) (mediaPort : Z) (publicIPs : list string) : option engine :=
  match Link.publicICEAddresses isIP publicIPs with
  | None => None
  | Some externalIPs =>
      if negb (recoveryNet k) then None
      else if negb (sockets k) then None
      else
        let rules := (λ mapping, let '(external, local) := Link.rewriteRule mapping in mkRule [external] local) <$> externalIPs in
        if (0 <? Z.of_nat (length externalIPs)) && negb (rewriteOK k) then None
        else if negb (renominationOK k) then None
        else
          Some (mkEngine mediaPort socketBuffer socketBuffer [UDP4; UDP6] linkLocalFilter true rules true replayWindow false
                  [AEAD_AES_128_GCM; AES128_CM_HMAC_SHA1_80])
  end.

(** ** Receive buffers ([packet_buffer.go], [arrival_feedback.go]) *)
Inductive packetKind := RTPPacket | RTCPPacket.

(** The ring of [PacketBuffer], with the collector's hook or without; or the buffer
    of Pion with a size limit. *)
Inductive buffer := Ring (b : PacketBuffer.packetBuffer) (recorded : bool) | Pion (limit : Z).

Definition receiveBuffer (k : packetKind) : buffer :=
  match k with RTPPacket => Ring PacketBuffer.newPacketBuffer false | RTCPPacket => Pion 100000 end.

Definition arrivalBuffer (k : packetKind) : buffer :=
  match k with RTPPacket => Ring PacketBuffer.newPacketBuffer true | RTCPPacket => receiveBuffer RTCPPacket end.

(** ** The playout hint ([playout.go]) *)

(** A packet given to the writer that [BindLocalStream] returned.  [setExtension] and
    [write] are the header's and the next writer's; [None] is [ErrBuildAPI]. *)
Definition stampedWrite {Hd E : Type} (extensions : list (string * Z)) (payload : list Z) (setExtension : Hd -> Z -> list Z -> option Hd)
    (write : Hd -> E + Z) (header : Hd) : option (E + Z) :=
  match Link.stampID extensions with
  | None => Some (write header)
  | Some id => match setExtension header id payload with None => None | Some h => Some (write h) end
  end.

(** ** Path changes ([watchPath]) *)

(** The selected pair: none, without one of its candidates, or complete with the label
    [describePair] gives it. *)
Inductive selection := NoPair | HalfPair | Complete (label : string).

(** What a change does: [failover] is the pair the failover handler takes as selected,
    where the session has one; [current] is whether the session owns the camera.  The
    dashboard is told only of complete pairs. *)
Definition onSelectedPair (failover : option selection) (r : Stats.Registry) (ingestID : string) (current : bool) (pair : selection)
    : option selection * Stats.Registry :=
  let failover := match failover with Some _ => Some pair | None => None end in
  match pair with
  | Complete label => (failover, if current then Stats.Path r ingestID label else r)
  | _ => (failover, r)
  end.

(** ** The calls of a construction, in order *)

(** The stack as a list of calls: the codecs of [Link.registerCodecs], the reports,
    one way to feed arrivals back, the two halves of the retransmission, the hint. *)
Definition feedbackOf (e : Link.codecEntry) : list (string * string) :=
  if String.eqb (Link.MimeType e) "video/rtx" then [] else videoFeedback.

Definition codecCalls (codecs : list string) : list call :=
  ((λ e, RegisterCodec e 0 (feedbackOf e) Video) <$> (filter (λ e, Link.name e ∈ codecs) Link.videoCodecs ≫= Link.registerVideo))
  ++ ((λ e, RegisterCodec e 2 [] Audio) <$> Link.audioCodecs).

Definition feedbackCalls (arrival : bool) : list call :=
  if arrival then
    [RegisterFeedback transportCC Video; RegisterHeaderExtension transportCCURI Video false;
     RegisterFeedback transportCC Audio; RegisterHeaderExtension transportCCURI Audio false; AddArrival]
  else [ConfigureTWCCSender].

Definition plan (codecs : list string) (arrival : bool) : list call :=
  codecCalls codecs ++ [ConfigureRTCPReports; ConfigureStatsInterceptor] ++ feedbackCalls arrival
  ++ [NewGenerator nackHistory; AddGenerator; NewResponder nackHistory; AddResponder;
      RegisterHeaderExtension Link.playoutDelayURI Video true; AddPlayout].

(** What a list of calls builds: all of it, or what comes up to the first refusal. *)
Section planned.
Context (accepts : call -> bool).

#[local] Existing Instance build_ret.
#[local] Existing Instance build_bind.

Definition granted (c : call) : bool := negb (fallible c) || accepts c.

Fixpoint run_plan (l : list call) : build unit :=
  match l with
  | [] => mret tt
  | c :: l => issue accepts c ;; run_plan l
  end.

Lemma run_plan_app l l' : run_plan (l ++ l') = (run_plan l ;; run_plan l').
Proof.
  induction l as [|c l IH]; [cbn; by destruct (run_plan l')|].
  change (run_plan ((c :: l) ++ l')) with (issue accepts c ;; run_plan (l ++ l')). rewrite IH. cbn [run_plan].
  unfold mbind, build_bind, issue. destruct (negb (fallible c) || accepts c); [|done]. destruct (run_plan l) as [m [[]|]]; [|done].
  by destruct (run_plan l') as [m' r'].
Qed.

Lemma run_plan_one c : issue accepts c = run_plan [c].
Proof. unfold run_plan, issue, mbind, build_bind. by destruct (negb (fallible c) || accepts c). Qed.

Lemma each_plan {A} (f : A -> build unit) (g : A -> list call) l :
  (forall x, f x = run_plan (g x)) -> each f l = run_plan (l ≫= g).
Proof. intros H. induction l as [|x l IH]; [done|]. cbn [each]. rewrite bind_cons, run_plan_app, IH, H. done. Qed.

Lemma bind_singleton {A B} (f : A -> B) (l : list A) : l ≫= (λ x, [f x]) = f <$> l.
Proof. induction l as [|x l IH]; [done|]. by rewrite bind_cons, IH. Qed.

Lemma registerCodecs_plan codecs : registerCodecs accepts codecs = run_plan (codecCalls codecs).
Proof.
  unfold registerCodecs, codecCalls. rewrite run_plan_app.
  rewrite (each_plan _ (λ e, [RegisterCodec e 2 [] Audio]) Link.audioCodecs), bind_singleton by (intros; apply run_plan_one).
  rewrite (each_plan _ (λ entry, if bool_decide (Link.name entry ∈ codecs)
     then (λ e, RegisterCodec e 0 (feedbackOf e) Video) <$> Link.registerVideo entry else [])).
  - f_equal. f_equal. induction Link.videoCodecs as [|e l IH]; [done|]. rewrite bind_cons, filter_cons, IH.
    destruct (decide (Link.name e ∈ codecs)) as [Hin|Hn]; [rewrite bool_decide_true by done|by rewrite bool_decide_false by done].
    by rewrite bind_cons, fmap_app.
  - intros entry. destruct (bool_decide _); [|done]. rewrite <-bind_singleton. apply each_plan. intros e. apply run_plan_one.
Qed.

Lemma configureArrivalFeedback_plan arrival : configureArrivalFeedback accepts arrival = run_plan (feedbackCalls arrival).
Proof.
  unfold configureArrivalFeedback, feedbackCalls. destruct arrival; cbn [negb]; [|apply run_plan_one].
  rewrite (each_plan _ (λ k, [RegisterFeedback transportCC k; RegisterHeaderExtension transportCCURI k false])).
  - rewrite (run_plan_one AddArrival), <-run_plan_app. done.
  - intros k. by rewrite !run_plan_one, <-run_plan_app.
Qed.

Lemma buildAPI_plan codecs arrival : buildAPI accepts codecs arrival = run_plan (plan codecs arrival).
Proof.
  unfold buildAPI, plan. rewrite registerCodecs_plan, configureArrivalFeedback_plan. rewrite !run_plan_one, <-!run_plan_app. done.
Qed.

(** A list of calls either is made whole, or up to the first that was refused. *)
Lemma run_plan_outcome l :
  run_plan l = (l, Some tt) /\ Forall (λ c, granted c = true) l
  \/ exists before refused after, l = before ++ refused :: after /\ run_plan l = (before ++ [refused], None)
       /\ Forall (λ c, granted c = true) before /\ granted refused = false.
Proof.
  induction l as [|c l IH]; [left; by split|]. cbn [run_plan]. unfold mbind, build_bind, issue. fold (granted c).
  destruct (granted c) eqn:Ec; [|right; by exists [], c, l]. destruct IH as [[-> Hall]|(before & refused & after & -> & -> & Hb & Hr)].
  - left. split; [done|]. by constructor.
  - right. exists (c :: before), refused, after. split_and!; [done..|by constructor|done].
Qed.
End planned.

(** ** Addresses *)
Abbreviation slashless s := (Transport.containsByte s "/"%char = false).

Lemma containsByte_app s t c : Transport.containsByte (s +:+ t) c = Transport.containsByte s c || Transport.containsByte t c.
Proof. induction s as [|a s IH]; [done|]. rewrite string_app_cons. cbn. by rewrite IH, orb_assoc. Qed.

Lemma containsByte_rev s c : Transport.containsByte (Transport.string_rev s) c = Transport.containsByte s c.
Proof.
  induction s as [|a s IH]; [done|]. rewrite Signal.string_rev_cons, containsByte_app, IH. cbn. rewrite orb_false_r. apply orb_comm.
Qed.

Lemma TrimLeft_without s cut c : Transport.containsByte s c = false -> Transport.containsByte (Transport.TrimLeft s cut) c = false.
Proof.
  induction s as [|a s IH]; [done|]. cbn. intros H. destruct (bool_decide _); [|done]. apply orb_false_iff in H as [_ H]. auto.
Qed.

Lemma TrimSpace_without s c : Transport.containsByte s c = false -> Transport.containsByte (Signal.TrimSpace s) c = false.
Proof. intros H. unfold Signal.TrimSpace, Transport.Trim. by rewrite containsByte_rev; apply TrimLeft_without; rewrite containsByte_rev; apply TrimLeft_without. Qed.

Lemma Split_without s sep : Forall (λ p, Transport.containsByte p sep = false) (Text.Split s sep).
Proof.
  induction s as [|c s IH]; [by constructor|]. cbn [Text.Split]. destruct (Ascii.eqb c sep) eqn:E; [by constructor|].
  destruct (Text.Split s sep) as [|x l]; [constructor; [cbn; by rewrite E|done]|]. apply Forall_cons in IH as [Hx Hl].
  constructor; [cbn; by rewrite E|done].
Qed.

Lemma Cut_without s c : Transport.containsByte s c = false -> Cut s c = (s, None).
Proof. induction s as [|a s IH]; [done|]. cbn. intros [-> H]%orb_false_iff. by rewrite IH. Qed.

Lemma Cut_at s t c : Transport.containsByte s c = false -> Cut (s +:+ String c t) c = (s, Some t).
Proof.
  induction s as [|a s IH]; [intros _; change ("" +:+ String c t) with (String c t); cbn [Cut]; by rewrite Ascii.eqb_refl|].
  cbn [Transport.containsByte].
  intros [E H]%orb_false_iff. rewrite string_app_cons. cbn [Cut]. by rewrite E, IH.
Qed.

(** The address, or the pair of addresses, a mapping stands for. *)
Inductive mappingOf (isIP : string -> bool) (mapping : string) : string -> string -> Prop :=
  | OneAddress external :
      Signal.TrimSpace mapping = external -> slashless mapping -> isIP external = true -> mappingOf isIP mapping external ""
  | BothAddresses outer inner external local :
      mapping = outer +:+ "/" +:+ inner -> slashless outer -> slashless inner ->
      Signal.TrimSpace outer = external -> Signal.TrimSpace inner = local ->
      isIP external = true -> isIP local = true -> mappingOf isIP mapping external local.

(** A valid mapping survives being joined and cut again. *)
Lemma validMapping_rule isIP mapping parts :
  Link.validMapping isIP mapping = Some parts ->
  let '(external, local) := Link.rewriteRule (String.concat "/" parts) in mappingOf isIP mapping external local.
Proof.
  unfold Link.validMapping, Link.rewriteRule. pose proof (Text.concat_Split mapping "/"%char) as Hj. pose proof (Split_without mapping "/"%char) as Hw.
  pose proof (Text.Split_nonempty mapping "/"%char) as Hne.
  destruct (Text.Split mapping "/"%char) as [|x [|y [|]]]; cbn [length Nat.leb andb]; [done| | |done].
  - cbn in Hj. subst x. apply Forall_cons in Hw as [Hx _]. destruct (forallb _ _) eqn:Hv; [|done]. intros [= <-]. cbn in Hv |- *.
    rewrite andb_true_r in Hv. rewrite Cut_without by (by apply TrimSpace_without). by apply OneAddress.
  - cbn in Hj. apply Forall_cons in Hw as [Hx [Hy _]%Forall_cons]. destruct (forallb _ _) eqn:Hv; [|done]. intros [= <-]. cbn in Hv.
    apply andb_true_iff in Hv as [Hvx [Hvy _]%andb_true_iff].
    change (String.concat "/" _) with (Signal.TrimSpace x +:+ String "/" (Signal.TrimSpace y)).
    rewrite Cut_at by (by apply TrimSpace_without). by eapply (BothAddresses _ _ x y).
Qed.

Lemma publicICEAddresses_rules isIP mappings ips :
  Link.publicICEAddresses isIP mappings = Some ips ->
  Forall2 (λ m ip, let '(external, local) := Link.rewriteRule ip in mappingOf isIP m external local) mappings ips.
Proof.
  revert ips. induction mappings as [|m mappings IH]; cbn [Link.publicICEAddresses]; intros ips; [intros [= <-]; constructor|].
  intros (parts & Hv & (l & Hl & [= <-])%bind_Some)%bind_Some. constructor; [by apply validMapping_rule|auto].
Qed.

Lemma publicICEAddresses_refused isIP mappings :
  Link.publicICEAddresses isIP mappings = None <-> Exists (λ m, Link.validMapping isIP m = None) mappings.
Proof.
  induction mappings as [|m mappings IH]; cbn [Link.publicICEAddresses]; [split; [done|by intros ?%Exists_nil]|].
  rewrite Exists_cons. destruct (Link.validMapping isIP m) as [parts|]; [|split; [by left|done]].
  cbn [mbind option_bind]. destruct (Link.publicICEAddresses isIP mappings) as [l|]; cbn; split; try done.
  - intros [?|H%IH]; done.
  - intros _. right. by apply IH.
Qed.

(** The calls of the stack after its codecs. *)
Lemma plan_after codecs arrival c :
  (match c with RegisterCodec _ _ _ _ => False | _ => True end) -> c ∈ plan codecs arrival <-> c ∈ plan [] arrival.
Proof.
  assert (Hc : forall codecs, c ∈ codecCalls codecs -> match c with RegisterCodec _ _ _ _ => True | _ => False end).
  { intros l [(e & -> & _)%list_elem_of_fmap|(e & -> & _)%list_elem_of_fmap]%elem_of_app; done. }
  intros Ho. unfold plan. rewrite !(elem_of_app (codecCalls _)). pose proof (Hc codecs). pose proof (Hc []). destruct c; tauto.
Qed.

(** ** Claims *)

(** C30: building a media stack makes the calls of [plan] in order and stops at the first
    the library refuses, which is then the last call made: a stack is either complete
    or an error.  However the camera's codecs are chosen, a complete one registers
    each codec under a payload type of its own, has one way and only one to feed
    arrivals back (the collector of the session when there is one), and remembers as
    many packets on the way out as on the way in. *)
Theorem media_stack_complete accepts codecs arrival calls r :
  buildAPI accepts codecs arrival = (calls, r) ->
  match r with
  | Some _ =>
      calls = plan codecs arrival /\ Forall (λ c, granted accepts c = true) calls
      /\ NoDup (omap (λ c, match c with RegisterCodec e _ _ _ => Some (Link.PayloadType e) | _ => None end) calls)
      /\ (ConfigureTWCCSender ∈ calls <-> arrival = false) /\ (AddArrival ∈ calls <-> arrival = true)
      /\ (forall n m, NewGenerator n ∈ calls -> NewResponder m ∈ calls -> n = m)
  | None =>
      exists before refused after,
        plan codecs arrival = before ++ refused :: after /\ calls = before ++ [refused]
        /\ Forall (λ c, granted accepts c = true) before /\ fallible refused = true /\ accepts refused = false
  end.
Proof.
  rewrite buildAPI_plan. destruct (run_plan_outcome accepts (plan codecs arrival)) as [[-> Hall]|(before & refused & after & Hp & -> & Hb & Hr)];
    intros [= <- <-].
  - split_and!; [done..| | | |]; clear Hall.
    + unfold plan, codecCalls, Link.videoCodecs. rewrite !filter_cons, filter_nil. cbn [Link.name].
      destruct arrival; repeat destruct (decide _); apply (bool_decide_eq_true_1 _); vm_compute; reflexivity.
    + rewrite plan_after by done. destruct arrival; cbn; set_solver.
    + rewrite plan_after by done. destruct arrival; cbn; set_solver.
    + intros n m. rewrite !plan_after by done. destruct arrival; cbn; set_solver.
  - exists before, refused, after. unfold granted in Hr. apply orb_false_iff in Hr as [Hf Ha]. apply negb_false_iff in Hf. done.
Qed.

Lemma media_stack_complete_witness :
  (buildAPI (λ _, true) ["h264"] true).2 = Some tt /\ AddArrival ∈ (buildAPI (λ _, true) ["h264"] true).1.
Proof.
  split; [reflexivity|]. destruct (buildAPI (λ _, true) ["h264"] true) as [calls r] eqn:E.
  pose proof (media_stack_complete _ _ _ _ _ E) as H. assert (r = Some tt) as -> by (vm_compute in E; by injection E).
  destruct H as (_ & _ & _ & _ & Ha & _). by apply Ha.
Defined.

(** C34: the addresses the engine advertises are those of the configuration.  An engine
    is built exactly when every mapping is valid and every call of the library
    succeeds; it then has one rewrite rule per mapping, in order, with the external
    and the local address of the mapping, white space removed. *)
Theorem public_addresses_advertised isIP k mediaPort publicIPs :
  (NewSettingEngine isIP k mediaPort publicIPs = None <->
     Exists (λ m, Link.validMapping isIP m = None) publicIPs \/ recoveryNet k = false \/ sockets k = false
     \/ (publicIPs <> [] /\ rewriteOK k = false) \/ renominationOK k = false)
  /\ forall e, NewSettingEngine isIP k mediaPort publicIPs = Some e ->
       port e = mediaPort /\
       Forall2 (λ m r, exists external, External r = [external] /\ mappingOf isIP m external (Local r)) publicIPs (rules e).
Proof.
  unfold NewSettingEngine. destruct (Link.publicICEAddresses isIP publicIPs) as [ips|] eqn:E.
  - pose proof (publicICEAddresses_rules _ _ _ E) as Hr. assert (Hok : ~ Exists (λ m, Link.validMapping isIP m = None) publicIPs).
    { by rewrite <-publicICEAddresses_refused, E. }
    assert (Hn : (0 <? Z.of_nat (length ips)) = true <-> publicIPs <> []).
    { apply Forall2_length in Hr. destruct publicIPs, ips; cbn in *; split; try done; lia. }
    destruct k as [[] [] rw []]; cbn; try (split; [tauto|done]).
    + destruct (0 <? Z.of_nat (length ips)), rw; cbn; (split; [intuition congruence|]); try done; intros e [= <-]; (split; [done|]); cbn;
        rewrite Forall2_fmap_r; (eapply Forall2_impl; [exact Hr|]); intros m ip; cbn; destruct (Link.rewriteRule ip) as [ext loc]; eauto.
    + destruct (_ && _); (split; [tauto|done]).
  - split; [|done]. split; [|done]. intros _. left. by apply publicICEAddresses_refused in E.
Qed.

Lemma public_addresses_advertised_witness :
  let isIP := (λ s, String.eqb s "203.0.113.7" || String.eqb s "192.168.1.4") in
  exists e, NewSettingEngine isIP (mkEngineCalls true true true true) 8189 ["203.0.113.7 / 192.168.1.4"] = Some e
  /\ rules e = [mkRule ["203.0.113.7"] "192.168.1.4"] /\ port e = 8189.
Proof.
  set (isIP := λ s, _).
  assert (H : rules <$> NewSettingEngine isIP (mkEngineCalls true true true true) 8189 ["203.0.113.7 / 192.168.1.4"]
                = Some [mkRule ["203.0.113.7"] "192.168.1.4"]) by (vm_compute; reflexivity).
  apply fmap_Some in H as (e & E & Hr). exists e. split_and!; [done..|].
  by apply (public_addresses_advertised isIP (mkEngineCalls true true true true) 8189 ["203.0.113.7 / 192.168.1.4"]).
Defined.

End Engine.
