(* ===== verification/Lifecycle.v ===== *)
(** * Starting and stopping the daemon ([cmd/wagastrim/main.go],
    [listen/listen.go], [tray/])

    [run] starts two or three listeners, each a goroutine in [listen.Serve], a
    goroutine in [waitListeners] and, with a desktop, the tray; it returns when the
    listeners have, and then closes what it opened.  A state holds where each
    goroutine is and what the channels carry; [work] takes one goroutine to its next
    wait, in any order, and [step] adds the signals of the operating system.  What a
    server, a bind or a shutdown answers is the choice of the step. *)

From S2P Require Import Prelude.
From S2P Require Import Config.
From S2P Require Import Daemon.
From S2P Require Import Transport.
From stdpp Require Import relations.

Local Open Scope Z_scope.

Module Lifecycle.

(** ** [listen.Serve] *)

(** The error of a listener, by its name: it did not bind or stopped serving, or it
    did not drain in time. *)
Inductive error := ErrServe (name : string) | ErrShutdown (name : string).

(** Whether the server speaks TLS, from the optional certificate and key. *)
Definition secure (certificate : list string) : bool :=
  match certificate with
  | [cert; key] => negb (String.eqb cert "") || negb (String.eqb key "")
  | _ => false
  end.

(** Where a listener's goroutine is: before [Listen] returns, in the [select], in
    [Shutdown], about to send its result, or at its end. *)
Inductive phase := Binding | Serving | Draining | Returned (r : option error) | Sent.

(** What [srv.Serve] returned: [http.ErrServerClosed] or another error. *)
Inductive ending := ServerClosed | ServerFailed.

Definition bound (name : string) (ok : bool) : phase :=
  if ok then Serving else Returned (Some (ErrServe name)).

Definition ended (name : string) (e : ending) : phase :=
  match e with
  | ServerClosed => Returned None
  | ServerFailed => Returned (Some (ErrServe name))
  end.

Definition drained (name : string) (ok : bool) : phase :=
  Returned (if ok then None else Some (ErrShutdown name)).

(** ** [run] *)

(** What [run] closes when it returns, in the order of its deferred calls. *)
Inductive resource := Stop | Whep | Whip | Mux.

Definition defers : list resource := [Stop; Whep; Whip; Mux].

Inductive startError := ConfigError (e : Config.error) | UIError | EngineError | WhipError.

(** The listeners that are started: the control API only with a token. *)
Definition listeners (c : Config.Cfg) : list string :=
  ["settings"; "signaling"] ++ (if String.eqb (Config.Token c) "" then [] else ["control"]).

(** Up to the listeners: the error and what is closed on the way out, or the
    listeners to start.  [load] is what [config.Load] returned; the booleans are
    whether the interface, the media engine and the WHIP server were built. *)
Definition startup (parse : string -> option Transport.URL) (load : Config.Cfg + Config.error) (ui engine whip : bool)
    : (startError * list resource) + list string :=
  match load with
  | inr e => inl (ConfigError e, [])
  | inl c =>
      match Transport.ValidateTransport parse c with
      | Some e => inl (ConfigError e, [])
      | None =>
          if negb ui then inl (UIError, [])
          else if negb engine then inl (EngineError, [])
          else if negb whip then inl (WhipError, [Mux])
          else inr (listeners c)
      end
  end.

(** Where the main goroutine is: waiting for the context, in [tray.Run], waiting for
    [finished], running its deferred calls, or returned. *)
Inductive mainPhase :=
  | WaitDone | InTray | WaitFinished
  | Unwind (todo : list resource) (r : option error) | Exited (r : option error).

(** The goroutine that [onReady] of the tray starts. *)
Inductive trayPhase := Unstarted | Alive | Ended.

Record daemon := mkDaemon {
  done : bool;
  loops : list (string * phase);
  errs : list (option error);
  results : list (option error);
  waited : bool;
  finished : option (option error);
  main : mainPhase;
  tray : trayPhase;
  quit : bool;
  closed : list resource
}.

(** [done]: the context is cancelled; [errs] and [finished]: the channels; [results]:
    what [waitListeners] has received, and [waited] that it returned; [quit]:
    [systray.Quit] was called; [closed]: the deferred calls made. *)
#[export] Instance eta_daemon : Eta daemon := fun d =>
  mkDaemon (done d) (loops d) (errs d) (results d) (waited d) (finished d) (main d) (tray d) (quit d) (closed d).

(** A headless run, or a build without a tray, whose [Run] waits for the context
    too; or a desktop with a tray. *)
Inductive mode := Headless | Desktop.

Definition start (m : mode) (names : list string) : daemon :=
  mkDaemon false ((λ n, (n, Binding)) <$> names) [] [] false None
    (match m with Headless => WaitDone | Desktop => InTray end) Unstarted false [].

Definition setLoop (d : daemon) (i : nat) (name : string) (p : phase) : daemon :=
  d <| loops := <[i := (name, p)]> (loops d) |>.

(** One round of the loop of [waitListeners]. *)
Definition take (d : daemon) (r : option error) (rest : list (option error)) : daemon :=
  d <| errs := rest |> <| results := results d ++ [r] |> <| done := done d || bool_decide (is_Some r) |>.

Inductive work : daemon -> daemon -> Prop :=
  (* listen.Serve and the goroutine around it *)
  | W_bind d i name ok : loops d !! i = Some (name, Binding) -> work d (setLoop d i name (bound name ok))
  | W_ended d i name e : loops d !! i = Some (name, Serving) -> work d (setLoop d i name (ended name e))
  | W_cancel d i name : loops d !! i = Some (name, Serving) -> done d = true -> work d (setLoop d i name Draining)
  | W_drained d i name ok : loops d !! i = Some (name, Draining) -> work d (setLoop d i name (drained name ok))
  | W_send d i name r : loops d !! i = Some (name, Returned r) ->
      work d ((setLoop d i name Sent) <| errs := errs d ++ [r] |>)
  (* waitListeners and the goroutine around it *)
  | W_take d r rest : errs d = r :: rest -> (length (results d) < length (loops d))%nat -> work d (take d r rest)
  | W_finish d : length (results d) = length (loops d) -> waited d = false ->
      work d (d <| waited := true |> <| finished := Some (Daemon.waitListeners (results d)).1 |>)
  (* run *)
  | W_done d : main d = WaitDone -> done d = true -> work d (d <| main := WaitFinished |>)
  | W_result d r : main d = WaitFinished -> finished d = Some r ->
      work d (d <| main := Unwind defers r |> <| finished := None |>)
  | W_close d x rest r : main d = Unwind (x :: rest) r -> work d (d <| main := Unwind rest r |> <| closed := closed d ++ [x] |>)
  | W_exit d r : main d = Unwind [] r -> work d (d <| main := Exited r |>)
  (* tray.Run: the select of its goroutine, and the return of systray.Run *)
  | W_ready d : main d = InTray -> tray d = Unstarted -> work d (d <| tray := Alive |>)
  | W_quit d : tray d = Alive -> work d (d <| tray := Ended |> <| done := true |>)
  | W_trayDone d : tray d = Alive -> done d = true -> work d (d <| tray := Ended |> <| quit := true |>)
  | W_trayReturn d : main d = InTray -> quit d = true -> work d (d <| main := WaitFinished |>).

(** A signal cancels the context. *)
Inductive step (d d' : daemon) : Prop :=
  | S_work : work d d' -> step d d'
  | S_signal : done d = false -> d' = d <| done := true |> -> step d d'.

Definition reach (m : mode) (names : list string) : daemon -> Prop := rtc step (start m names).

(** ** [openBrowser] *)

(** [parsed] is the scheme, the host name and the text of the address as [url.Parse]
    reads it; the result is the command that is started. *)
Definition openBrowser (goos : string) (parsed : option (string * string * string)) (started : bool) : option (list string) :=
  match parsed with
  | None => None
  | Some (scheme, hostname, text) =>
      if negb (String.eqb scheme "http") || negb (String.eqb hostname "127.0.0.1") then None
      else
        let cmd :=
          if String.eqb goos "darwin" then ["open"; text]
          else if String.eqb goos "windows" then ["rundll32"; "url.dll,FileProtocolHandler"; text]
          else ["xdg-open"; text] in
        if started then Some cmd else None
  end.

(** ** Counting goroutines *)
#[export] Instance error_eq_dec : EqDecision error.
Proof. solve_decision. Defined.

#[export] Instance phase_eq_dec : EqDecision phase.
Proof. solve_decision. Defined.

Definition weigh (f : phase -> nat) (l : list (string * phase)) : nat := sum_list_with (λ x, f x.2) l.

#[global] Arguments weigh : simpl never.
#[local] Arguments Daemon.waitListeners : simpl never.

Lemma weigh_cons f x l : weigh f (x :: l) = (f x.2 + weigh f l)%nat.
Proof. done. Qed.

Lemma weigh_set f l i name p p' :
  l !! i = Some (name, p) -> (weigh f (<[i := (name, p')]> l) + f p = weigh f l + f p')%nat.
Proof.
  revert i. induction l as [|x l IH]; intros [|i] Hi; try done; cbn -[weigh] in *.
  - injection Hi as ->. rewrite !weigh_cons. cbn. lia.
  - apply IH in Hi. rewrite !weigh_cons. rewrite <-!Nat.add_assoc. f_equal. exact Hi.
Qed.

Definition isSent (p : phase) : nat := match p with Sent => 1 | _ => 0 end.

Lemma sent_bound l : (weigh isSent l <= length l)%nat.
Proof. induction l as [|[n p] l IH]; [done|]. rewrite weigh_cons. cbn [length]. destruct p; cbn; lia. Qed.

Lemma sent_all l : weigh isSent l = length l -> Forall (λ x, x.2 = Sent) l.
Proof.
  induction l as [|[n p] l IH]; intros Hl; [constructor|]. pose proof (sent_bound l) as Hb. rewrite weigh_cons in Hl. cbn [length] in Hl.
  destruct p; cbn in Hl; try lia. constructor; [done|]. apply IH. lia.
Qed.

(** What is left to do, goroutine by goroutine. *)
Definition phaseWork (p : phase) : nat :=
  match p with Binding => 5 | Serving => 4 | Draining => 3 | Returned _ => 2 | Sent => 0 end.

Definition mainWork (p : mainPhase) : nat :=
  match p with WaitDone | InTray => 8 | WaitFinished => 7 | Unwind todo _ => S (length todo) | Exited _ => 0 end.

Definition measure (d : daemon) : nat :=
  weigh phaseWork (loops d) + length (errs d) + (if waited d then 0 else 1) + mainWork (main d)
  + match tray d with Unstarted => 2 | Alive => 1 | Ended => 0 end.

Lemma work_measure d d' : work d d' -> (measure d' < measure d)%nat.
Proof.
  destruct 1; unfold measure; cbn; repeat match goal with
  | H : loops _ !! _ = Some (_, ?p) |- context [weigh phaseWork (<[_ := (_, ?q)]> _)] => pose proof (weigh_set phaseWork _ _ _ _ q H); clear H
  | H : errs _ = _ |- _ => rewrite H; clear H
  | H : main _ = _ |- _ => rewrite H; clear H
  | H : tray _ = _ |- _ => rewrite H; clear H
  | H : waited _ = _ |- _ => rewrite H; clear H
  end; cbn in *; rewrite ?length_app; cbn; try lia.
  - destruct ok; cbn in *; lia.
  - destruct e; cbn in *; lia.
Qed.

(** ** The invariant *)

(** The main goroutine against the channels: nothing is closed before
    [waitListeners] has returned. *)
Definition main_ok (d : daemon) : Prop :=
  match main d with
  | WaitDone | InTray | WaitFinished => closed d = []
  | Unwind todo r => closed d ++ todo = defers /\ waited d = true /\ r = (Daemon.waitListeners (results d)).1
  | Exited r => closed d = defers /\ waited d = true /\ r = (Daemon.waitListeners (results d)).1
  end.

Definition waiting (p : mainPhase) : Prop := match p with WaitDone | InTray => True | _ => False end.

Definition unwinding (p : mainPhase) : Prop := match p with Unwind _ _ | Exited _ => True | _ => False end.

Record inv (d : daemon) : Prop := {
  i_count : (length (results d) + length (errs d) = weigh isSent (loops d))%nat;
  i_waited : waited d = true -> length (results d) = length (loops d);
  i_finished : forall r, finished d = Some r -> waited d = true /\ r = (Daemon.waitListeners (results d)).1;
  i_main : main_ok d;
  i_taken : waited d = true -> finished d = None -> unwinding (main d);
  i_done : (Daemon.waitListeners (results d)).2 = true -> done d = true;
  i_quit : quit d = true -> tray d = Ended /\ done d = true;
  i_past : ~ waiting (main d) -> done d = true
}.

Lemma start_inv m names : inv (start m names).
Proof.
  split; cbn; try done; try by destruct m. induction names as [|n names IH]; [done|]. rewrite fmap_cons, weigh_cons. done.
Qed.

(** Two states with the same channels, [waitListeners] and main goroutine. *)
Lemma inv_loops d i name p p' :
  inv d -> loops d !! i = Some (name, p) -> isSent p = 0%nat -> isSent p' = 0%nat -> inv (setLoop d i name p').
Proof.
  intros [H1 H2 H3 H4 H5 H6 H7 Hp] Hi Hs Hs'. pose proof (weigh_set isSent _ _ _ _ p' Hi).
  split; cbn; rewrite ?length_insert; auto; lia.
Qed.

Lemma waitListeners_snoc (l : list (option error)) r :
  (Daemon.waitListeners (l ++ [r])).2 = (Daemon.waitListeners l).2 || bool_decide (is_Some r).
Proof.
  unfold Daemon.waitListeners. rewrite fold_left_app. cbn. destruct (fold_left _ l _) as [first stopped]. cbn.
  destruct r; cbn; [by rewrite orb_true_r|by rewrite orb_false_r].
Qed.

Lemma work_inv d d' : inv d -> work d d' -> inv d'.
Proof.
  intros H W. pose proof H as [H1 H2 H3 H4 H5 H6 H7 Hp]. unfold main_ok in H4.
  destruct W as [d i name ok Hi|d i name e Hi|d i name Hi Hd|d i name ok Hi|d i name r Hi|d r rest He Hl|d Hl Hw|d Hm Hd|d r Hm Hf
    |d x rest r Hm|d r Hm|d Hm Ht|d Ht|d Ht Hd|d Hm Hq].
  - apply (inv_loops _ _ _ Binding); auto. by destruct ok.
  - apply (inv_loops _ _ _ Serving); auto. by destruct e.
  - by apply (inv_loops _ _ _ Serving).
  - by apply (inv_loops _ _ _ Draining).
  - pose proof (weigh_set isSent _ _ _ _ Sent Hi) as Hw. cbn in Hw.
    split; cbn; rewrite ?length_insert, ?length_app; auto; cbn; lia.
  - assert (Hnw : waited d = false) by (destruct (waited d); [specialize (H2 eq_refl); lia|done]). rewrite He in H1. cbn in H1.
    split; cbn; rewrite ?length_app, ?waitListeners_snoc, ?orb_true_iff; cbn; try lia; try congruence.
    + intros r' Hr. destruct (H3 _ Hr). congruence.
    + unfold main_ok. cbn. destruct (main d); try done; destruct H4 as (_ & ? & _); congruence.
    + intros [?|?]; auto.
    + intros Hq. destruct (H7 Hq) as [? ?]. auto.
    + auto.
  - split; cbn; auto; [by intros r [= <-]|unfold main_ok; cbn; destruct (main d); try done; destruct H4 as (_ & ? & _); congruence|done].
  - rewrite Hm in *. split; cbn; auto.
  - destruct (H3 _ Hf) as [Hw ->]. rewrite Hm in *. split; cbn; auto; [done|]. unfold main_ok. cbn. by rewrite H4.
  - rewrite Hm in *. split; cbn; auto. unfold main_ok. cbn. by rewrite <-app_assoc.
  - rewrite Hm in *. split; cbn; auto. unfold main_ok. cbn. by rewrite app_nil_r in H4.
  - split; cbn; auto. intros Hq. destruct (H7 Hq). congruence.
  - split; cbn; auto.
  - split; cbn; auto.
  - destruct (H7 Hq). rewrite Hm in *. split; cbn; auto.
Qed.

Lemma daemon_step_inv d d' : inv d -> step d d' -> inv d'.
Proof.
  intros H [W|Hd ->]; [by eapply work_inv|]. destruct H as [H1 H2 H3 H4 H5 H6 H7 Hp].
  split; cbn; auto. intros Hq. by destruct (H7 Hq).
Qed.

Lemma daemon_reach_inv m names d : reach m names d -> inv d.
Proof.
  intros Hr. pose proof (start_inv m names) as H. unfold reach in Hr. induction Hr; eauto using daemon_step_inv.
Qed.

(** Every goroutine can go on, except a listener in service that nobody stops and
    the tray when its loop has ended without [systray.Quit]. *)
Lemma loop_work d i name p :
  loops d !! i = Some (name, p) -> p <> Sent -> (p = Serving -> done d = true) -> exists d', work d d'.
Proof.
  intros Hi Hs Hd. destruct p; [| | | |done].
  - exists (setLoop d i name (bound name true)). by apply W_bind.
  - exists (setLoop d i name Draining). apply W_cancel; auto.
  - exists (setLoop d i name (drained name true)). by apply W_drained.
  - eexists. by apply (W_send d i name r).
Qed.

Definition stuckInTray (d : daemon) : Prop := main d = InTray /\ tray d = Ended /\ quit d = false.

Lemma work_available d :
  inv d -> done d = true -> (exists d', work d d') \/ (exists r, main d = Exited r) \/ stuckInTray d.
Proof.
  intros [H1 H2 H3 H4 H5 H6 H7 Hp] Hd.
  destruct (decide (Exists (λ x, x.2 <> Sent) (loops d))) as [He|He].
  { apply Exists_exists in He as ([name p] & [i Hi]%list_elem_of_lookup & Hne). left. by eapply loop_work. }
  assert (Hall : weigh isSent (loops d) = length (loops d)).
  { rewrite <-Forall_Exists_neg in He. clear - He. induction He as [|[n p] l Hx _ IH]; [done|]. rewrite weigh_cons, IH. cbn [snd] in *. destruct p; try done; destruct Hx; done. }
  destruct (errs d) as [|r rest] eqn:Ee; cbn in H1; [|left; exists (take d r rest); apply W_take; [done|lia]].
  destruct (waited d) eqn:Ew; [|left; eexists; apply W_finish; [lia|done]].
  destruct (main d) as [| | |[|x rest] r|r] eqn:Em; eauto using work.
  - destruct (tray d) eqn:Et; [left; eexists; by apply W_ready|left; eexists; by apply W_trayDone|].
    destruct (quit d) eqn:Eq; [left; eexists; by apply W_trayReturn|right; right; by split_and!].
  - destruct (finished d) as [r|] eqn:Ef; [left; eexists; by apply W_result|]. by destruct (H5 eq_refl eq_refl).
Qed.

(** A listener that failed, at any point on the way of its error to [waitListeners]. *)
Definition hasFailed (d : daemon) : Prop :=
  (exists name e, (name, Returned (Some e)) ∈ loops d) \/ (exists e, Some e ∈ errs d) \/ (exists e, Some e ∈ results d).

Lemma waitListeners_stopped (l : list (option error)) e : Some e ∈ l -> (Daemon.waitListeners l).2 = true.
Proof.
  intros Hin. rewrite Daemon.waitListeners_first. cbn. apply bool_decide_eq_true. intros Hn.
  assert (Hx : e ∈ omap id l) by (apply list_elem_of_omap; by exists (Some e)). rewrite Hn in Hx. by apply elem_of_nil in Hx.
Qed.

(** Without a cancelled context, a state in which nothing can move has every
    listener in service or returned, and none failed. *)
Lemma quiet_serving d : inv d -> nf work d -> done d = false -> ~ hasFailed d /\ Forall (λ x, x.2 = Serving \/ x.2 = Sent) (loops d).
Proof.
  intros Hinv Hnf Hd. pose proof Hinv as [H1 H2 _ _ _ H6 _ _].
  assert (Hloops : Forall (λ x, x.2 = Serving \/ x.2 = Sent) (loops d)).
  { apply Forall_forall. intros [name p] [i Hi]%list_elem_of_lookup. cbn. destruct (decide (p = Sent)) as [->|Hs]; [by right|].
    destruct (decide (p = Serving)) as [->|Hp]; [by left|]. destruct Hnf. by eapply loop_work. }
  split; [|done]. intros [(name & e & Hin)|[[e Hin]|[e Hin]]].
  - rewrite Forall_forall in Hloops. apply Hloops in Hin. cbn in Hin. by destruct Hin.
  - destruct (errs d) as [|r rest] eqn:Ee; [by apply elem_of_nil in Hin|]. destruct Hnf. exists (take d r rest). apply W_take; [done|].
    pose proof (sent_bound (loops d)). cbn in H1. lia.
  - rewrite H6 in Hd; [done|]. by apply (waitListeners_stopped _ e).
Qed.

Lemma stuck_forever d d' : stuckInTray d -> step d d' -> stuckInTray d'.
Proof.
  intros (Hm & Ht & Hq) [W|_ ->]; [|done]. destruct W; try (by split_and!); unfold stuckInTray in *; cbn; split_and!; congruence.
Qed.

(** ** Claims *)

(** C11: the daemon closes its media only behind its listeners.  In every run, whichever
    listeners fail and whenever signals come: as soon as anything is closed every
    listener has returned and delivered its result; what is closed is closed in the
    order context, WHEP, WHIP, media socket; and when [run] returns all of it is
    closed and the error is the first one that arrived. *)
Theorem shutdown_drains_listeners m names d :
  reach m names d ->
  (exists rest, closed d ++ rest = defers)
  /\ (closed d <> [] -> Forall (λ x, x.2 = Sent) (loops d))
  /\ forall r, main d = Exited r -> closed d = defers /\ length (results d) = length (loops d) /\ r = head (omap id (results d)).
Proof.
  intros Hr. destruct (daemon_reach_inv _ _ _ Hr) as [H1 H2 _ H4 _ _ _ _].
  assert (Hall : waited d = true -> Forall (λ x, x.2 = Sent) (loops d)).
  { intros Hw. apply sent_all. pose proof (sent_bound (loops d)). specialize (H2 Hw). lia. }
  unfold main_ok in H4. rewrite !Daemon.waitListeners_first in H4. destruct (main d) as [| | |todo r|r]; cbn in H4.
  1-3: rewrite H4; split; [by exists defers|split; done].
  - destruct H4 as (Hc & Hw & ->). split_and!; eauto. done.
  - destruct H4 as (Hc & Hw & ->). split_and!; [exists []; by rewrite app_nil_r|auto|]. intros r' [= <-]. auto.
Qed.

(** C13: the daemon comes down whole.  Without a tray, goroutines run a bounded number of
    steps between two signals, and they can only come to rest in two ways: [run] has
    returned, with everything closed; or nobody cancelled the context, no listener
    has failed and [run] is still waiting.  So one failing listener, or one signal,
    brings down all of them. *)
Theorem shutdown_completes names d :
  reach Headless names d ->
  (forall n d', nsteps work n d d' -> (n + measure d' <= measure d)%nat)
  /\ forall d', rtc work d d' -> nf work d' ->
       (exists r, main d' = Exited r /\ closed d' = defers) \/ (done d' = false /\ ~ hasFailed d' /\ main d' = WaitDone).
Proof.
  intros Hr. split.
  - intros n d' Hn. clear Hr. induction Hn as [|n d1 d2 d3 Hw _ IH]; [lia|]. apply work_measure in Hw. lia.
  - intros d' Hrun Hnf.
    assert (Hr' : reach Headless names d') by (unfold reach in *; etrans; [exact Hr|]; eapply rtc_subrel; [|exact Hrun]; intros; by apply S_work).
    assert (Hmain : main d' <> InTray).
    { clear - Hr'. unfold reach in Hr'. remember (start Headless names) as s eqn:Es. assert (Hs : main s <> InTray) by (by subst). clear Es.
      induction Hr' as [|s s1 s2 Hs1 _ IH]; [done|]. apply IH. destruct Hs1 as [W| _ ->]; [|done]. destruct W; cbn; congruence. }
    pose proof (daemon_reach_inv _ _ _ Hr') as Hinv. destruct (done d') eqn:Hd.
    + left. destruct (work_available d' Hinv Hd) as [Hw|[[r Hm]|[Hm _]]]; [by destruct Hnf| |done].
      exists r. split; [done|]. pose proof (i_main _ Hinv) as Hok. unfold main_ok in Hok. rewrite Hm in Hok. by destruct Hok.
    + right. split; [done|]. split; [by apply quiet_serving|].
      pose proof (i_past _ Hinv) as Hp. destruct (main d') eqn:Em; try done; by rewrite Hp in Hd by auto.
Qed.

(** C40: quitting from the tray's menu does not end the program.  The goroutine of the
    menu cancels the context and returns without calling [systray.Quit], so a run
    reaches a state in which the context is cancelled and every listener has
    returned, and from there on [run] stays in [tray.Run] whatever happens. *)
Theorem menu_quit_hangs :
  exists d, reach Desktop ["settings"; "signaling"] d
    /\ done d = true /\ Forall (λ x, x.2 = Sent) (loops d) /\ finished d = Some None
    /\ forall d', rtc step d d' -> main d' = InTray /\ closed d' = [].
Proof.
  set (d0 := mkDaemon true [("settings", Sent); ("signaling", Sent)] [] [None; None] true (Some None) InTray Ended false []).
  assert (Hreach : reach Desktop ["settings"; "signaling"] d0).
  { unfold reach. apply (rtc_subrel work _); [by intros; apply S_work|].
    eapply rtc_l; [apply W_ready; reflexivity|]. eapply rtc_l; [apply (W_bind _ 0 "settings" true); reflexivity|].
    eapply rtc_l; [apply (W_bind _ 1 "signaling" true); reflexivity|]. eapply rtc_l; [apply W_quit; reflexivity|].
    eapply rtc_l; [apply (W_cancel _ 0 "settings"); reflexivity|]. eapply rtc_l; [apply (W_cancel _ 1 "signaling"); reflexivity|].
    eapply rtc_l; [apply (W_drained _ 0 "settings" true); reflexivity|]. eapply rtc_l; [apply (W_drained _ 1 "signaling" true); reflexivity|].
    eapply rtc_l; [apply (W_send _ 0 "settings" None); reflexivity|]. eapply rtc_l; [apply (W_send _ 1 "signaling" None); reflexivity|].
    eapply rtc_l; [apply (W_take _ None [None]); cbn; [reflexivity|lia]|]. eapply rtc_l; [apply (W_take _ None []); cbn; [reflexivity|lia]|].
    eapply rtc_l; [apply W_finish; reflexivity|]. apply rtc_refl. }
  exists d0. split_and!; [done|done|by repeat constructor|done|]. intros d' Hrun.
  assert (Hs : stuckInTray d') by (assert (Hs0 : stuckInTray d0) by done; clear Hreach; induction Hrun; eauto using stuck_forever).
  destruct Hs as [Hm _]. split; [done|]. assert (Hr : reach Desktop ["settings"; "signaling"] d') by (unfold reach in *; by etrans).
  pose proof (i_main _ (daemon_reach_inv _ _ _ Hr)) as Hok. unfold main_ok in Hok. by rewrite Hm in Hok.
Qed.

(** A start that fails closes the media socket exactly when it was opened. *)
Lemma startup_closes parse load ui engine whip e todo :
  startup parse load ui engine whip = inl (e, todo) -> (Mux ∈ todo <-> e = WhipError) /\ (e = WhipError -> engine = true).
Proof.
  unfold startup. destruct load as [c|]; [destruct (Transport.ValidateTransport parse c); [|destruct ui, engine, whip]|]; intros [= <- <-].
  all: split; [split|]; try done; rewrite ?elem_of_nil, ?elem_of_cons; try done; auto.
Qed.

(** Behind a validated transport the public listeners speak TLS exactly when a
    certificate is configured; the settings page never does. *)
Lemma validated_secure parse c :
  Transport.ValidateTransport parse c = None ->
  (secure [Config.TLSCert c; Config.TLSKey c] = true <-> Config.TLSCert c <> "" /\ Config.TLSKey c <> "") /\ secure [] = false.
Proof.
  unfold Transport.ValidateTransport, secure. destruct (String.eqb_spec (Config.TLSCert c) ""), (String.eqb_spec (Config.TLSKey c) ""); cbn; try done;
    intros _; split; try done; split; try done; tauto.
Qed.

(** ** A run in which binding the signalling port fails *)
Definition demoFailed : daemon :=
  mkDaemon true [("settings", Sent); ("signaling", Sent)] [] [Some (ErrServe "signaling"); None] true None
    (Exited (Some (ErrServe "signaling"))) Unstarted false defers.

Lemma demoFailed_reach : reach Headless ["settings"; "signaling"] demoFailed.
Proof.
  unfold reach. apply (rtc_subrel work _); [by intros; apply S_work|].
  eapply rtc_l; [apply (W_bind _ 0 "settings" true); reflexivity|]. eapply rtc_l; [apply (W_bind _ 1 "signaling" false); reflexivity|].
  eapply rtc_l; [apply (W_send _ 1 "signaling" (Some (ErrServe "signaling"))); reflexivity|].
  eapply rtc_l; [apply (W_take _ (Some (ErrServe "signaling")) []); cbn; [reflexivity|lia]|].
  eapply rtc_l; [apply (W_cancel _ 0 "settings"); reflexivity|]. eapply rtc_l; [apply (W_drained _ 0 "settings" true); reflexivity|].
  eapply rtc_l; [apply (W_send _ 0 "settings" None); reflexivity|]. eapply rtc_l; [apply (W_take _ None []); cbn; [reflexivity|lia]|].
  eapply rtc_l; [apply W_finish; reflexivity|]. eapply rtc_l; [apply W_done; reflexivity|]. eapply rtc_l; [eapply W_result; reflexivity|].
  do 4 (eapply rtc_l; [eapply W_close; reflexivity|]). eapply rtc_l; [eapply W_exit; reflexivity|]. apply rtc_refl.
Qed.

Lemma shutdown_drains_listeners_witness :
  main demoFailed = Exited (Some (ErrServe "signaling")) /\ Forall (λ x, x.2 = Sent) (loops demoFailed).
Proof. split; [reflexivity|]. apply (shutdown_drains_listeners _ _ _ demoFailed_reach). discriminate. Defined.

Lemma shutdown_completes_witness :
  measure (start Headless ["settings"; "signaling"]) = 21%nat
  /\ forall n d', nsteps work n (start Headless ["settings"; "signaling"]) d' -> (n + measure d' <= 21)%nat.
Proof. split; [reflexivity|]. exact (proj1 (shutdown_completes _ _ (rtc_refl _ _))). Defined.

End Lifecycle.
