(* ===== verification/Routes.v ===== *)
(** * The three listeners, route by route ([New] of [signal/server.go],
    [control/control.go] and [ui/ui.go])

    The route tables are those of the sources, pattern by pattern; a listener is the
    decision of [Mux.dispatch] followed by the handler.  [listen.Guard], which
    stands before two of them, is [Guard.handle]; [controlRequest] has it in front of
    the control listener. *)

From S2P Require Import Prelude.
From S2P Require Import Text.
From S2P Require Import Address.
From S2P Require Import Mux.
From S2P Require Import DynamicDelay.
From S2P Require Import Relay.
From S2P Require Import Config.
From S2P Require Import Stats.
From S2P Require Import Peer.
From S2P Require Import Whep.
From S2P Require Import Whip.
From S2P Require Import Daemon.
From S2P Require Import Transport.
From S2P Require Import Settings.
From S2P Require Import Control.
From S2P Require Import Guard.
From S2P Require Import Signal.
From Stdlib Require Import Ascii.

Local Open Scope Z_scope.

Module Routes.

Definition StatusMethodNotAllowed : Z := 405.

Definition at_ {H} (pattern : string) (h : H) : Mux.route H := Mux.mkRoute (Mux.parsePattern pattern) h.

(** ** The public listener *)
Inductive publicHandler := HPublish | HTeardown | HSubscribe | HUnsubscribe | HPlayer | HPlayback | HAsset.

Definition publicRoutes : list (Mux.route publicHandler) :=
  [at_ "POST /whip/{key}" HPublish;
   at_ "POST /whip" HPublish;
   at_ "DELETE /whip/resource/{resource}" HTeardown;
   at_ "POST /whep/{key}" HSubscribe;
   at_ "POST /whep" HSubscribe;
   at_ "DELETE /whep/resource/{resource}" HUnsubscribe;
   at_ "GET /player/{key}" HPlayer;
   at_ "GET /player/{key}/playback" HPlayback;
   at_ "GET /player/{key}/dynamic/player.js" HAsset].

(** What a listener answers: a response, the address of another path, or what
    [http.ServeMux] says of a method or a path it has no route for. *)
Inductive reply (A : Type) := Answer (a : A) | Moved (path : string) | BadMethod (allow : list string) | NoRoute.
Arguments Answer {A} _.
Arguments Moved {A} _.
Arguments BadMethod {A} _.
Arguments NoRoute {A}.

Definition route {H A} (table : list (Mux.route H)) (m path : string) (run : H -> list (string * string) -> A) : reply A :=
  match Mux.dispatch table m path with
  | Mux.Handle h values => Answer (run h values)
  | Mux.RedirectTo p => Moved p
  | Mux.MethodNotAllowed l => BadMethod l
  | Mux.NotFound => NoRoute
  end.

(** What the handlers reach: the two servers, the relay's playback state, and
    whether connections close and embedded files can be read. *)
Record backend := mkBackend {
  publish : string -> string -> Whip.error + string * string;
  subscribe : string -> string -> Whep.error + string * string;
  whipServer : Whip.Server;
  whepServer : Whep.Server;
  playback : Relay.PlaybackState;
  closes : bool;
  readable : bool
}.

(** A request of the public listener, [n] negotiations being under way. *)
Definition servePublic (b : backend) (c : Config.Cfg) (n : nat) (m path authorization : string) (offer : option string)
    : reply (nat * (Z * Signal.body)) :=
  route publicRoutes m path (λ h values,
    match h with
    | HPublish => Signal.negotiate (Signal.whip (publish b)) c n (Mux.PathValue values "key") authorization offer
    | HSubscribe => Signal.negotiate (Signal.whep (subscribe b)) c n (Mux.PathValue values "key") authorization offer
    | HTeardown => (n, Signal.handleTeardown (whipServer b) (Mux.PathValue values "resource") (closes b))
    | HUnsubscribe => (n, Signal.handleUnsubscribe (whepServer b) (Mux.PathValue values "resource") (closes b))
    | HPlayer => (n, Signal.handlePlayer c (Mux.PathValue values "key") (readable b))
    | HPlayback => (n, Signal.handlePlayback c (playback b) (Mux.PathValue values "key"))
    | HAsset => (n, Signal.handlePlaybackAsset c (Mux.PathValue values "key") (readable b))
    end).

(** ** The control listener *)
Inductive controlHandler := HIngests | HCreate | HList | HResetKey | HStats.

Definition controlRoutes : list (Mux.route controlHandler) :=
  [at_ "PUT /control/ingests" HIngests;
   at_ "POST /control/ingests" HCreate;
   at_ "GET /control/ingests" HList;
   at_ "POST /control/ingests/{id}/reset-key" HResetKey;
   at_ "GET /control/stats" HStats].

(** The body of a request as each handler would decode it, the random bytes it
    would draw, and what the statistics would read. *)
Record controlBody := mkControlBody {
  ingestList : option (list Config.Ingest);
  newCamera : option (string * Z);
  draws : option (list Z) * option (list Z) * option (list Z);
  hubStats : string -> option Relay.Statistics;
  counters : Stats.Registry;
  at_time : time
}.

Definition callOf (q : controlBody) (h : controlHandler) (values : list (string * string)) : Control.call :=
  let '(r1, r2, r3) := draws q in
  match h with
  | HIngests => Control.CIngests (ingestList q)
  | HCreate => Control.CCreate (newCamera q) r1 r2 r3
  | HList => Control.CList
  | HResetKey => Control.CResetKey (Mux.PathValue values "id") r1
  | HStats => Control.CStats (hubStats q) (counters q) (at_time q)
  end.

Definition serveControl {H : Type} {hooks : Daemon.Hooks H} (s : Daemon.site H) (k : Config.calls) (peer : option Address.Addr)
    (authorization m path : string) (q : controlBody) : reply (Daemon.site H * (Z * Control.reply)) :=
  route controlRoutes m path (λ h values, Control.control s k peer authorization (callOf q h values)).

(** A request of the control listener from its socket on: [listen.Guard], the routes,
    and the handler behind [authed].  [host] is what [net.SplitHostPort] finds in the
    peer's address and [peer] what [netip.ParseAddrPort] finds in it. *)
Inductive guarded (A : Type) := Turned (o : Guard.outcome) | Through (a : A).
Arguments Turned {A} o.
Arguments Through {A} a.

Definition controlRequest {L H : Type} {lim : Guard.Limiter L} {hooks : Daemon.Hooks H} (g : Guard.guard (L := L))
    (s : Daemon.site H) (k : Config.calls) (host : option string) (now : time) (peer : option Address.Addr)
    (authorization m path : string) (q : controlBody) : Guard.guard (L := L) * guarded (reply (Daemon.site H * (Z * Control.reply))) :=
  match Guard.handle g host now with
  | (g, Guard.Serving) => (Guard.leave g, Through (serveControl s k peer authorization m path q))
  | (g, o) => (g, Turned o)
  end.

(** The state after a request, whatever it was answered. *)
Definition stateAfter {S A : Type} (s : S) (r : reply (S * A)) : S :=
  match r with Answer (s', _) => s' | _ => s end.

(** ** The settings page *)
Inductive pageHandler :=
  | PHealth | PPage | PAdd | PRemove | PResetKey | PDelay | PDynamicDelay | PDynamicAssets | PStats | PGroup | PLabel | PCodecs
  | PReachability | PAutostart | PSetAutostart | PControlAccess | PCreateToken | PGuide
  | PPprofIndex | PPprofCmdline | PPprofProfile | PPprofSymbol | PPprofTrace | PStatic.

Definition pageRoutes : list (Mux.route pageHandler) :=
  [at_ "GET /healthz" PHealth;
   at_ "GET /{$}" PPage;
   at_ "POST /api/ingests" PAdd;
   at_ "POST /api/ingests/remove" PRemove;
   at_ "POST /api/ingests/reset-key" PResetKey;
   at_ "POST /api/ingests/delay" PDelay;
   at_ "POST /api/ingests/dynamic-delay" PDynamicDelay;
   at_ "GET /dynamic-delay/" PDynamicAssets;
   at_ "GET /api/stats" PStats;
   at_ "POST /api/ingests/group" PGroup;
   at_ "POST /api/ingests/label" PLabel;
   at_ "POST /api/ingests/codecs" PCodecs;
   at_ "GET /api/reachability" PReachability;
   at_ "GET /api/autostart" PAutostart;
   at_ "POST /api/autostart" PSetAutostart;
   at_ "POST /api/control/{scope}" PControlAccess;
   at_ "POST /api/control/token" PCreateToken;
   at_ "GET /api-guide" PGuide;
   at_ "GET /debug/pprof/" PPprofIndex;
   at_ "GET /debug/pprof/cmdline" PPprofCmdline;
   at_ "GET /debug/pprof/profile" PPprofProfile;
   at_ "GET /debug/pprof/symbol" PPprofSymbol;
   at_ "GET /debug/pprof/trace" PPprofTrace;
   at_ "GET /static/" PStatic].

(** The body of a request as each handler would decode it, the random bytes, what
    the platform did with autostart, and the address a lookup would find. *)
Record document := mkDocument {
  asLabel : option string;
  asID : option string;
  asDelay : option (string * Z);
  asDynamic : option (string * DynamicDelay.Options);
  asText : option (string * string);
  asCodecs : option (string * list string);
  asOn : option bool;
  random : option (list Z) * option (list Z) * option (list Z);
  acted : bool;
  found : string
}.

(** The handlers that can change something; the others only read. *)
Definition requestOf (doc : document) (h : pageHandler) (values : list (string * string)) : option Settings.request :=
  let '(r1, r2, r3) := random doc in
  match h with
  | PAdd => Some (Settings.RAdd (asLabel doc) r1 r2 r3)
  | PRemove => Some (Settings.RRemove (asID doc))
  | PResetKey => Some (Settings.RResetKey (asID doc) r1)
  | PDelay => Some (Settings.RDelay (asDelay doc))
  | PDynamicDelay => Some (Settings.RDynamicDelay (asDynamic doc))
  | PGroup => Some (Settings.RGroup (asText doc))
  | PLabel => Some (Settings.RLabel (asText doc))
  | PCodecs => Some (Settings.RCodecs (asCodecs doc))
  | PReachability => Some (Settings.RReachability (found doc))
  | PSetAutostart => Some (Settings.RAutostart (asOn doc) (acted doc))
  | PControlAccess => Some (Settings.RAccess (Mux.PathValue values "scope") (asOn doc))
  | PCreateToken => Some (Settings.RToken r1)
  | _ => None
  end.

(** A request of the settings listener: the guard on its headers, the route, the
    handler.  A reading handler answers 200. *)
Definition servePage {H : Type} {hooks : Daemon.Hooks H} (s : Daemon.site H) (k : Config.calls) (port : Z) (req : Settings.headers)
    (m path : string) (doc : document) : reply (Daemon.site H * Z) :=
  if negb (Settings.loopbackOnly port req) then Answer (s, Settings.StatusNotFound)
  else
    route pageRoutes m path (λ h values,
      match requestOf doc h values with
      | Some q => Settings.serve s k q
      | None => (s, Settings.StatusOK)
      end).

(** ** Keys in paths *)
Lemma hex_digit_plain n : 0 <= n < 16 -> Ascii.eqb (Config.hex_digit n) "/" = false /\ Ascii.eqb (Config.hex_digit n) "%" = false.
Proof.
  intros Hn. assert (Hall : Forall (λ n, Ascii.eqb (Config.hex_digit n) "/" = false /\ Ascii.eqb (Config.hex_digit n) "%" = false) (seqZ 0 16)).
  { repeat (apply Forall_cons; split; [by split|]). by apply Forall_nil. }
  rewrite Forall_forall in Hall. apply Hall, elem_of_seqZ. lia.
Qed.

Lemma Encode_plain bs : Forall is_byte bs -> Mux.plainChars (Config.EncodeToString bs) = true.
Proof.
  induction 1 as [|b bs Hb _ IH]; [done|]. destruct (Config.byte_halves b Hb) as (H1 & H2 & _).
  destruct (hex_digit_plain _ H1) as [A1 A2], (hex_digit_plain _ H2) as [B1 B2].
  cbn [Config.EncodeToString Mux.plainChars]. by rewrite A1, A2, B1, B2, IH.
Qed.

(** A key of a camera is a segment that means itself. *)
Lemma key_plain p key :
  p = Config.SenderPrefix \/ p = Config.ReceiverPrefix -> Config.validKey p key = true -> Mux.plain key = true.
Proof.
  intros Hp Hv. apply Config.validKey_iff in Hv as (bs & Hb & Hl & Hk); [|by destruct Hp; subst]. injection Hk as <-.
  pose proof (Encode_plain bs Hb) as He. unfold Mux.plain. rewrite Mux.plainChars_app, He. by destruct Hp as [-> | ->].
Qed.

Lemma plain_not_slash s : Mux.plain s = true -> String.eqb s "/" = false.
Proof. intros Hs. apply String.eqb_neq. intros ->. done. Qed.

(** ** Where the paths of a key lead *)
Section key_paths.
Context (key : string) (Hkey : Mux.plain key = true).

(** The descent for a concrete table and a plain key. *)
Ltac key_tree := let E := fresh in pose proof (plain_not_slash key Hkey) as E; vm_compute in E |- *; rewrite E; reflexivity.

Lemma key_route h pattern (prefix suffix : list string) m :
  m <> "CONNECT" -> forallb Mux.plain (prefix ++ key :: suffix) = true ->
  Mux.matchMethod publicRoutes m (prefix ++ key :: suffix) = Some (at_ pattern h, [key]) ->
  Mux.endsMulti (Mux.parsePattern pattern) = false -> Mux.wildcards (Mux.parsePattern pattern) = ["key"] ->
  Mux.dispatch publicRoutes m (Mux.joined (prefix ++ key :: suffix)) = Mux.Handle h [("key", key)].
Proof.
  intros Hm Hp Hf He Hw. rewrite (Mux.dispatch_plain _ _ _ (at_ pattern h) [key]); auto; [|by destruct prefix].
  cbn [at_ Mux.handler Mux.pat]. by rewrite Hw.
Qed.

Lemma publish_path : Mux.dispatch publicRoutes "POST" ("/whip/" +:+ key) = Mux.Handle HPublish [("key", key)].
Proof.
  replace ("/whip/" +:+ key) with (Mux.joined (["whip"] ++ [key])) by (cbn [Mux.joined app]; by rewrite Text.string_app_nil_r).
  apply (key_route HPublish "POST /whip/{key}"); try done; cbn -[String.eqb]; [by rewrite Hkey|]. by key_tree.
Qed.

Lemma subscribe_path : Mux.dispatch publicRoutes "POST" ("/whep/" +:+ key) = Mux.Handle HSubscribe [("key", key)].
Proof.
  replace ("/whep/" +:+ key) with (Mux.joined (["whep"] ++ [key])) by (cbn [Mux.joined app]; by rewrite Text.string_app_nil_r).
  apply (key_route HSubscribe "POST /whep/{key}"); try done; cbn -[String.eqb]; [by rewrite Hkey|]. by key_tree.
Qed.

Lemma player_path : Mux.dispatch publicRoutes "GET" ("/player/" +:+ key) = Mux.Handle HPlayer [("key", key)].
Proof.
  replace ("/player/" +:+ key) with (Mux.joined (["player"] ++ [key])) by (cbn [Mux.joined app]; by rewrite Text.string_app_nil_r).
  apply (key_route HPlayer "GET /player/{key}"); try done; cbn -[String.eqb]; [by rewrite Hkey|]. by key_tree.
Qed.

Lemma playback_path : Mux.dispatch publicRoutes "GET" ("/player/" +:+ key +:+ "/playback") = Mux.Handle HPlayback [("key", key)].
Proof.
  change ("/player/" +:+ key +:+ "/playback") with (Mux.joined (["player"] ++ key :: ["playback"])).
  apply (key_route HPlayback "GET /player/{key}/playback"); try done; cbn -[String.eqb]; [by rewrite Hkey|]. by key_tree.
Qed.

Lemma asset_path : Mux.dispatch publicRoutes "GET" ("/player/" +:+ key +:+ "/dynamic/player.js") = Mux.Handle HAsset [("key", key)].
Proof.
  change ("/player/" +:+ key +:+ "/dynamic/player.js") with (Mux.joined (["player"] ++ key :: ["dynamic"; "player.js"])).
  apply (key_route HAsset "GET /player/{key}/dynamic/player.js"); try done; cbn -[String.eqb]; [by rewrite Hkey|]. by key_tree.
Qed.
End key_paths.

(** ** Claims *)

(** C21: the links of a camera lead to that camera.  For a camera of a validated
    list, the WHIP, WHEP and player links the control API hands out are the origin of
    the listener followed by a path, whatever the transport settings; the listener
    routes each path to the handler it is for, with the key as it was written, and the
    key resolves to this camera in the right role.  The two requests the player page
    makes from its own address arrive as well.  The link for the phone is the WHIP
    link with its scheme rewritten ([http] to [whip]) when no public URL is set or
    its scheme is written in lower case; a public URL with a scheme in capitals,
    which the validation accepts, is not covered by this last part. *)
Theorem links_reach_camera c i :
  Config.list_ok (Config.Ingests c) -> i ∈ Config.Ingests c ->
  let s := Config.SenderKey i in let r := Config.ReceiverKey i in
  let links := Transport.cameraResponse c i in
  let origin := Transport.originOf c in
  Transport.WHIP links = origin +:+ "/whip/" +:+ s
  /\ Transport.WHEP links = origin +:+ "/whep/" +:+ r
  /\ Transport.Player links = origin +:+ "/player/" +:+ r
  /\ (Transport.lowerOrigin c ->
      Transport.Moblin links = Transport.senderOf (Transport.WHIP links)
      /\ exists rest, Transport.WHIP links = "http" +:+ rest)
  /\ Mux.dispatch publicRoutes "POST" ("/whip/" +:+ s) = Mux.Handle HPublish [("key", s)]
  /\ Mux.dispatch publicRoutes "POST" ("/whep/" +:+ r) = Mux.Handle HSubscribe [("key", r)]
  /\ Mux.dispatch publicRoutes "GET" ("/player/" +:+ r) = Mux.Handle HPlayer [("key", r)]
  /\ Mux.dispatch publicRoutes "GET" ("/player/" +:+ r +:+ "/playback") = Mux.Handle HPlayback [("key", r)]
  /\ Mux.dispatch publicRoutes "GET" ("/player/" +:+ r +:+ "/dynamic/player.js") = Mux.Handle HAsset [("key", r)]
  /\ (forall authorization, Config.Resolve c (Signal.keyFrom s authorization) = (i, Config.RoleSender)
      /\ Config.Resolve c (Signal.keyFrom r authorization) = (i, Config.RoleReceiver)).
Proof.
  intros (_ & Hnd & Hall) Hi. rewrite Forall_forall in Hall. destruct (Hall i Hi) as (_ & Hs & Hr). cbn zeta.
  apply key_plain in Hs; [|by left]. apply key_plain in Hr; [|by right].
  destruct (Transport.links_agree c i) as (Hwhip & Hwhep & Hplay & Hphone).
  split; [done|]. split; [done|]. split; [done|]. split; [done|].
  split_and!; [by apply publish_path|by apply subscribe_path|by apply player_path|by apply playback_path|by apply asset_path|].
  assert (Hne : forall key, Mux.plain key = true -> forall a, Signal.keyFrom key a = key).
  { intros key Hk a. unfold Signal.keyFrom. assert (String.eqb key "" = false) as ->; [|done]. apply String.eqb_neq. by intros ->. }
  intros a. rewrite !Hne by done. split; apply Config.Resolve_hit; auto.
Qed.

(** C20: who reaches a handler of the control listener.  The guard turns a request
    away (400 without a readable socket address, 429 when the client's or the common
    budget is spent or 32 requests are inside) and otherwise hands it to the routes;
    one that no route takes is answered without a handler.  A request that the guard
    and the routes let through reaches the handler of its route exactly when its
    socket's peer is an address the settings allow and its header is the bearer token,
    which must be set; every other one leaves the daemon as it was and gets one and
    the same answer.  With access from the network switched off only loopback is
    left, an IPv4 address is judged the same in its IPv6 form, and the unspecified,
    broadcast and multicast addresses of IPv4 and IPv6 are never allowed. *)
Theorem control_admission {L H : Type} {lim : Guard.Limiter L} {hooks : Daemon.Hooks H}
    (g : Guard.guard (L := L)) (s : Daemon.site H) k host now peer auth m path q :
  let c := Config.cfg (Daemon.conf s) in
  let answer := (controlRequest g s k host now peer auth m path q).2 in
  let admitted := exists h, host = Some h /\ (Guard.allow (Guard.limits g) h now).2 = true /\ (Guard.active g < 32)%nat in
  let trusted := (exists a, peer = Some a /\ Control.allowedAddress c a = true)
                 /\ Config.Token c <> "" /\ auth = "Bearer " +:+ Config.Token c in
  (~ admitted -> answer = Turned (match host with None => Guard.BadAddress | Some _ => Guard.TooManyRequests end))
  /\ (admitted -> forall h values, Mux.dispatch controlRoutes m path = Mux.Handle h values ->
        (trusted -> answer = Through (Answer (Control.handler s k (callOf q h values))))
        /\ (~ trusted -> answer = Through (Answer (s, Control.refused))))
  /\ (admitted -> (forall h values, Mux.dispatch controlRoutes m path <> Mux.Handle h values) ->
        exists r, answer = Through r /\ forall x, r <> Answer x)
  /\ (Config.LANControlEnabled c = false -> Config.RemoteControlEnabled c = false ->
        forall a, Control.allowedAddress c a = Address.IsLoopback (Address.Unmap a))
  /\ (forall a, 0 <= a < 2 ^ 32 -> Control.allowedAddress c (Address.V6 (65535 * 2 ^ 32 + a)) = Control.allowedAddress c (Address.V4 a))
  /\ (forall a, Address.Unmap a = Address.V4 0 \/ Address.Unmap a = Address.V4 (2 ^ 32 - 1) \/ Address.Unmap a = Address.V6 0
        \/ Address.IsMulticast (Address.Unmap a) = true -> Control.allowedAddress c a = false).
Proof.
  intros c answer admitted trusted.
  assert (Hg : admitted /\ answer = Through (serveControl s k peer auth m path q)
               \/ ~ admitted /\ answer = Turned (match host with None => Guard.BadAddress | Some _ => Guard.TooManyRequests end)).
  { unfold answer, admitted, controlRequest, Guard.handle. destruct host as [h|]; [|right; split; [by intros (? & ? & _)|done]].
    destruct (Guard.allow (Guard.limits g) h now) as [l ok] eqn:E.
    destruct ok, (Nat.ltb_spec (Guard.active g) 32) as [Hlt|Hge]; cbn [andb]; [left|right..]; (split; [|done]).
    - exists h. by rewrite E.
    - intros (? & [= <-] & _ & ?). lia.
    - intros (? & [= <-] & Hf & _). by rewrite E in Hf.
    - intros (? & [= <-] & Hf & _). by rewrite E in Hf. }
  split; [by destruct Hg as [[? _]|[_ ?]]|]. split; [|split; [|split_and!]].
  - intros Ha h values Hd. destruct Hg as [[_ ->]|[? _]]; [|done]. unfold serveControl, route. rewrite Hd.
    unfold Control.control. fold c. pose proof (Control.authed_iff c peer auth) as Hi. fold trusted in Hi.
    destruct (Control.authed c peer auth); cbn [negb]; (split; [|intros Hn]).
    + done.
    + exfalso. by apply Hn, Hi.
    + intros Ht. by apply Hi in Ht.
    + done.
  - intros Ha Hno. destruct Hg as [[_ ->]|[? _]]; [|done]. eexists. split; [reflexivity|]. intros x. unfold serveControl, route.
    destruct (Mux.dispatch controlRoutes m path) as [h values| | |] eqn:E; try done. by destruct (Hno h values).
  - intros. by apply Control.loopback_left.
  - intros. by apply Control.mapped_alike.
  - intros. by apply Control.noHost_refused.
Qed.

(** The first segment of every route of a table is one of the given literals. *)
Definition firstIn {H} (names : list string) (r : Mux.route H) : bool :=
  match Mux.segments (Mux.pat r) with Mux.Lit x :: _ => bool_decide (x ∈ names) | _ => false end.

Lemma first_covered {H} (table : list (Mux.route H)) names seg path r :
  forallb (firstIn names) table = true -> r ∈ table -> Mux.covers (Mux.segments (Mux.pat r)) (seg :: path) = true -> seg ∈ names.
Proof.
  intros Hall Hin Hc. rewrite forallb_forall in Hall. specialize (Hall r (proj1 (list_elem_of_In _ _) Hin)). unfold firstIn in Hall.
  destruct (Mux.segments (Mux.pat r)) as [|[x| | |] segs]; try done. cbn in Hc. apply andb_true_iff in Hc as [<-%String.eqb_eq _].
  by apply bool_decide_eq_true in Hall.
Qed.

Lemma not_handled {H} (table : list (Mux.route H)) names m path seg rest h values :
  forallb (firstIn names) table = true -> Mux.pathSegments path = seg :: rest -> seg ∉ names ->
  Mux.dispatch table m path <> Mux.Handle h values.
Proof.
  intros Hall Hseg Hn E. pose proof (Mux.dispatch_sound table m path) as Hd. rewrite E in Hd. destruct Hd as (r & _ & (Hin & Hc & _) & _).
  rewrite Hseg in Hc. apply Hn. by eapply first_covered.
Qed.

(** Profiling is on the settings listener and nowhere else.  No request of any
    method whose path lies under [/debug] reaches a handler of the public or of the
    control listener; on the settings listener it does, and there the guard refuses
    it to every page that is not its own. *)
Theorem profiling_stays_local m path rest :
  Mux.pathSegments path = "debug" :: rest ->
  (forall h values, Mux.dispatch publicRoutes m path <> Mux.Handle h values)
  /\ (forall h values, Mux.dispatch controlRoutes m path <> Mux.Handle h values)
  /\ Mux.dispatch pageRoutes "GET" "/debug/pprof/heap" = Mux.Handle PPprofIndex []
  /\ Mux.dispatch pageRoutes "GET" "/debug/pprof/profile" = Mux.Handle PPprofProfile []
  /\ forall (H : Type) (hooks : Daemon.Hooks H) (s : Daemon.site H) k port req doc,
       Settings.loopbackOnly port req = false -> servePage s k port req m path doc = Answer (s, Settings.StatusNotFound).
Proof.
  intros Hseg. split_and!.
  - intros h values. apply (not_handled publicRoutes ["whip"; "whep"; "player"] m path "debug" rest); [vm_compute; reflexivity|exact Hseg|].
    apply (bool_decide_eq_false_1 _). vm_compute. reflexivity.
  - intros h values. apply (not_handled controlRoutes ["control"] m path "debug" rest); [vm_compute; reflexivity|exact Hseg|].
    apply (bool_decide_eq_false_1 _). vm_compute. reflexivity.
  - vm_compute. reflexivity.
  - vm_compute. reflexivity.
  - intros H hooks s k port req doc Hl. unfold servePage. by rewrite Hl.
Qed.

Lemma profiling_stays_local_witness :
  Mux.pathSegments "/debug/pprof/heap" = ["debug"; "pprof"; "heap"]
  /\ forall h values, Mux.dispatch publicRoutes "GET" "/debug/pprof/heap" <> Mux.Handle h values.
Proof.
  split; [vm_compute; reflexivity|]. apply (profiling_stays_local "GET" "/debug/pprof/heap" ["pprof"; "heap"]). vm_compute. reflexivity.
Defined.

(** Who may not use the control API changes nothing, but learns its routes.  Without
    an allowed address or the token no request of any kind changes the state; yet
    a known path answers differently from an unknown one, and a known path with a
    wrong method answers with the methods it has. *)
Theorem control_port_tells_routes {H : Type} {hooks : Daemon.Hooks H} (s : Daemon.site H) k peer authorization q :
  Control.authed (Config.cfg (Daemon.conf s)) peer authorization = false ->
  (forall m path, stateAfter s (serveControl s k peer authorization m path q) = s)
  /\ serveControl s k peer authorization "GET" "/control/ingests" q = Answer (s, Control.refused)
  /\ serveControl s k peer authorization "GET" "/control/other" q = NoRoute
  /\ serveControl s k peer authorization "DELETE" "/control/ingests" q = BadMethod ["GET"; "HEAD"; "POST"; "PUT"]
  /\ Control.refused <> Control.unknownRoute.
Proof.
  intros Ha. assert (Hrun : forall call, Control.control s k peer authorization call = (s, Control.refused)) by (intros call; unfold Control.control; by rewrite Ha).
  assert (Hroute : forall m path, serveControl s k peer authorization m path q =
    match Mux.dispatch controlRoutes m path with
    | Mux.Handle _ _ => Answer (s, Control.refused) | Mux.RedirectTo p => Moved p | Mux.MethodNotAllowed l => BadMethod l | Mux.NotFound => NoRoute end).
  { intros m path. unfold serveControl, route. destruct (Mux.dispatch _ _ _); by rewrite ?Hrun. }
  split_and!; [|by rewrite Hroute; vm_compute..|done]. intros m path. rewrite Hroute. by destruct (Mux.dispatch _ _ _).
Qed.




(** ** Concretely *)
#[local] Existing Instance Daemon.relayHooks.

Definition demoCamera : Config.Ingest := default Config.zeroIngest (head (Config.Ingests (Config.cfg Config.twoWorld))).

Lemma links_reach_camera_witness :
  Config.SenderKey demoCamera = "s_10101010101010101010101010101010"
  /\ Mux.dispatch publicRoutes "POST" "/whip/s_10101010101010101010101010101010" = Mux.Handle HPublish [("key", "s_10101010101010101010101010101010")].
Proof.
  split; [vm_compute; reflexivity|].
  apply (links_reach_camera (Config.cfg Config.twoWorld) demoCamera).
  - split_and!; [apply (bool_decide_eq_true_1 _); vm_compute; reflexivity|apply (bool_decide_eq_true_1 _); vm_compute; reflexivity|].
    apply Forall_forall. apply Forall_forall. apply (bool_decide_eq_true_1 _). vm_compute. reflexivity.
  - apply (list_elem_of_lookup_2 _ 0). vm_compute. reflexivity.
Defined.

Definition tokenSite : Daemon.site Daemon.hub :=
  Daemon.mkSite (Config.mkWorld (Config.with_ControlToken (Config.cfg Config.twoWorld) "c_secret") (Config.dsk Config.twoWorld))
    (Daemon.cameras Control.demoSite).

(** A camera list asked for with the token from the same machine. *)
Lemma control_admission_witness :
  let q := mkControlBody None None (None, None, None) (λ _, None) (Stats.New) 0 in
  let g := Guard.mkGuard (Guard.newLimits (HL := Guard.bucket) 0) 0 in
  let c := Config.cfg (Daemon.conf tokenSite) in
  (controlRequest (lim := Guard.bucket) g tokenSite Config.goodCalls (Some "127.0.0.1") Second
     (Some (Address.V4 2130706433)) ("Bearer " +:+ Config.Token c) "GET" "/control/ingests" q).2
  = Through (Answer (tokenSite, Control.handleList tokenSite)).
Proof.
  intros q g c.
  apply (control_admission (lim := Guard.bucket) g tokenSite Config.goodCalls (Some "127.0.0.1") Second
           (Some (Address.V4 2130706433)) ("Bearer " +:+ Config.Token c) "GET" "/control/ingests" q) with (h := HList) (values := []).
  - exists "127.0.0.1". split_and!; [reflexivity|vm_compute; reflexivity|cbn; lia].
  - vm_compute. reflexivity.
  - split_and!; [exists (Address.V4 2130706433); split; [reflexivity|vm_compute; reflexivity]|vm_compute; discriminate|reflexivity].
Defined.

Lemma control_port_tells_routes_witness :
  let q := mkControlBody None None (None, None, None) (λ _, None) (Stats.New) 0 in
  Control.authed (Config.cfg (Daemon.conf Control.demoSite)) None "" = false
  /\ serveControl Control.demoSite Config.goodCalls None "" "GET" "/control/ingests" q = Answer (Control.demoSite, Control.refused).
Proof. split; [vm_compute; reflexivity|]. apply control_port_tells_routes. vm_compute. reflexivity. Defined.


End Routes.
