(* ===== verification/Tools.v ===== *)
(** * Build-time checks ([src/scripts/tools.go])

    The release check, the notices and the duplicate finder.  A directory is a tree
    of [node]s; [archive/tar] is seen through the members it returns, [go list]
    through the modules decoded from its output, [go/parser] and [go/printer] through
    the declarations of a file. *)

From S2P Require Import Prelude.
From S2P Require Import Text.
From stdpp Require Import strings sorting.
From Stdlib Require Import Ascii.

Set Warnings "-register-all".

Local Open Scope Z_scope.

Module Tools.

(** ** [filepath.WalkDir]

    Both callbacks skip directories by name and stop at the first error.  The walk is
    therefore the list of what the callback is shown below the root: the files that
    are not under a skipped directory, with the directories above them, and the
    directories that cannot be read. *)
Inductive node := File (name : string) | Dir (name : string) (children : option (list node)).

Inductive visit := Leaf (dirs : list string) (name : string) | Unreadable.

Fixpoint visits (skip : string -> bool) (dirs : list string) (n : node) : list visit :=
  match n with
  | File name => [Leaf dirs name]
  | Dir name children =>
      if skip name then []
      else match children with
           | None => [Unreadable]
           | Some l => (fix below (l : list node) := match l with [] => [] | n :: l => visits skip (dirs ++ [name]) n ++ below l end) l
           end
  end.

(** A root: its own name and what it holds, or nothing there. *)
Abbreviation root := (option (string * option (list node))).

Definition WalkDir (skip : string -> bool) (r : root) : list visit :=
  match r with
  | None => [Unreadable]
  | Some (name, children) =>
      if skip name then [] else match children with None => [Unreadable] | Some l => l ≫= visits skip [] end
  end.

(** [filepath.Rel] of the root and a path below it, in slashes *)
Definition Rel (dirs : list string) (name : string) : string := String.concat "/" (dirs ++ [name]).

(** [filepath.Dir] of such a path, split at slashes *)
Definition dirParts (dirs : list string) : list string := match dirs with [] => ["."] | _ => dirs end.

(** ** [licenseFiles] *)
Definition skipLicense (name : string) : bool := bool_decide (name ∈ [".git"; "target"; ".build"]).

Definition licensePrefixes : list string := ["LICENSE"; "LICENCE"; "NOTICE"; "COPYING"; "COPYRIGHT"].

Definition isLicense (dirs : list string) (name : string) : bool :=
  existsb (λ prefix, HasPrefix (Text.ToUpper name) prefix) licensePrefixes
  || existsb (λ part, EqualFold part "LICENSES" || EqualFold part "LICENCES") (dirParts dirs).

(** The files found, and whether the walk ended without error. *)
Fixpoint collect (vs : list visit) : list string * bool :=
  match vs with
  | [] => ([], true)
  | Unreadable :: _ => ([], false)
  | Leaf dirs name :: vs => let '(files, ok) := collect vs in (if isLicense dirs name then Rel dirs name :: files else files, ok)
  end.

Definition licenseFiles (r : root) : list string * bool :=
  let '(files, ok) := collect (WalkDir skipLicense r) in (merge_sort String.le files, ok).

(** ** [notices] *)
Record replacement := mkReplacement { RDir : string }.

Record module := mkModule { Path : string; Version : string; MDir : string; Main : bool; Replace : option replacement }.

Definition path_le (p q : module) : Prop := String.le (Path p) (Path q).

#[export] Instance path_le_dec p q : Decision (path_le p q).
Proof. unfold path_le. apply _. Defined.

Definition nl : string := String "010"%char "".
Definition cr : string := String "013"%char "".

Definition noticesTitle : string :=
  "THIRD-PARTY NOTICES" +:+ nl +:+ nl
  +:+ "Includes dependency and build-tool notices. Original license terms and copyright notices follow." +:+ nl.

(** Newlines as in a file read as text. *)
Definition textMode (text : string) : string := Text.ReplaceAll (Text.ReplaceAll text (cr +:+ nl) nl) cr nl.

Definition packageHeader (p : module) : string := nl +:+ "=== " +:+ Path p +:+ " " +:+ Version p +:+ " ===" +:+ nl.

Definition fileNotice (name text : string) : string := nl +:+ "--- " +:+ name +:+ " ---" +:+ nl +:+ textMode text +:+ nl.

Definition directoryOf (p : module) : string := match Replace p with Some r => RDir r | None => MDir p end.

Section notices.
(** The directories of the modules, and [os.ReadFile] of the file [name] of one. *)
Context (tree : string -> root) (ReadFile : string -> string -> option string).

Fixpoint fileNotices (directory : string) (names : list string) : option string :=
  match names with
  | [] => Some ""
  | name :: names => text ← ReadFile directory name; rest ← fileNotices directory names; Some (fileNotice name text +:+ rest)
  end.

Definition packageNotice (p : module) : option string :=
  let directory := directoryOf p in
  if String.eqb directory "" then None
  else match licenseFiles (tree directory) with
       | (_, false) => None
       | ([], true) => None
       | (files, true) => texts ← fileNotices directory files; Some (packageHeader p +:+ texts)
       end.

Fixpoint packageNotices (packages : list module) : option string :=
  match packages with
  | [] => Some ""
  | p :: packages => text ← packageNotice p; rest ← packageNotices packages; Some (text +:+ rest)
  end.

(** [listing]: what [go list] printed decodes to, and whether all of it decoded; or
    the command failed.  The result is what is written. *)
Definition notices (listing : option (list module * bool)) : option string :=
  match listing with
  | Some (modules, true) =>
      texts ← packageNotices (merge_sort path_le (filter (λ p, Main p = false) modules)); Some (noticesTitle +:+ texts)
  | _ => None
  end.
End notices.

(** ** [verifyArchive] *)
Inductive typeflag := TypeReg | TypeDir | TypeOther.

(** A member; its data is [None] when reading it fails. *)
Record member := mkMember { Name : string; Typeflag : typeflag; Size : Z; Data : option string }.

#[export] Instance typeflag_eq_dec : EqDecision typeflag.
Proof. solve_decision. Defined.

Inductive verdict := Accepted | Unexpected | LocalPath (name : string) | Broken.

Definition expectedNames (binary : string) : gset string := {[binary; "README.md"; "THIRD_PARTY_NOTICES.txt"; "LICENSE.txt"]}.

Definition leaks (prefixes : list string) (data : string) : bool :=
  existsb (λ prefix, negb (String.eqb prefix "") && Text.Contains data prefix) prefixes.

Definition memberName (m : member) : string := Text.TrimPrefix (Name m) "./".

(** The entry of the archive's own directory. *)
Definition rootEntry (m : member) : bool :=
  bool_decide (Typeflag m = TypeDir) && (String.eqb (memberName m) "" || String.eqb (memberName m) ".").

(** [ended]: the archive ends cleanly after the members. *)
Fixpoint scanMembers (prefixes : list string) (expected : gset string) (members : list member) (ended : bool) : verdict :=
  match members with
  | [] => if negb ended then Broken else if bool_decide (expected = ∅) then Accepted else Unexpected
  | m :: members =>
      if rootEntry m then scanMembers prefixes expected members ended
      else if bool_decide (Typeflag m <> TypeReg) || bool_decide (memberName m ∉ expected) || (Size m <=? 0) then Unexpected
      else match Data m with
           | None => Broken
           | Some data => if leaks prefixes data then LocalPath (Name m) else scanMembers prefixes (expected ∖ {[memberName m]}) members ended
           end
  end.

(** [archive]: the file opened and was compressed, with these members. *)
Definition verifyArchive (archive : option (list member * bool)) (binary : string) (prefixes : list string) : verdict :=
  match archive with None => Broken | Some (members, ended) => scanMembers prefixes (expectedNames binary) members ended end.

(** ** [duplicates] *)

(** A declaration: a function with the body as printed ([None] when printing fails), or
    one without a body. *)
Inductive decl := Func (name : string) (printed : option string) | OtherDecl.

Definition skipGit (name : string) : bool := String.eqb name ".git".

Definition normalized (body : string) : string := String.concat " " (Text.Fields body).

(** The bodies seen, with where each was first; what was printed; whether two agreed. *)
Record finder := mkFinder { seen : gmap string string; printed : list (string * string); clashes : bool }.

Definition sighting (s : finder) (body where_ : string) : finder :=
  if (String.length body <? 100)%nat then s
  else match seen s !! body with
       | Some first => mkFinder (seen s) (printed s ++ [(first, where_)]) true
       | None => mkFinder (<[body := where_]> (seen s)) (printed s) (clashes s)
       end.

Fixpoint declarations (relative : string) (ds : list decl) (s : finder) : option finder :=
  match ds with
  | [] => Some s
  | OtherDecl :: ds => declarations relative ds s
  | Func _ None :: _ => None
  | Func name (Some body) :: ds => declarations relative ds (sighting s (normalized body) (relative +:+ ":" +:+ name))
  end.

(** [ParseFile]: the declarations of the file, unless it does not parse. *)
Fixpoint search (ParseFile : string -> option (list decl)) (vs : list visit) (s : finder) : option finder :=
  match vs with
  | [] => Some s
  | Unreadable :: _ => None
  | Leaf dirs name :: vs =>
      let relative := Rel dirs name in
      if negb (Text.HasSuffix relative ".go") || Text.HasSuffix relative "_test.go" then search ParseFile vs s
      else ds ← ParseFile relative; s ← declarations relative ds s; search ParseFile vs s
  end.

Inductive report := WalkFailed | Clashes (pairs : list (string * string)) | NoDuplicates.

Definition duplicates (ParseFile : string -> option (list decl)) (r : root) : report :=
  match search ParseFile (WalkDir skipGit r) (mkFinder ∅ [] false) with
  | None => WalkFailed
  | Some s => if clashes s then Clashes (printed s) else NoDuplicates
  end.

(** ** [main] *)
Inductive command := Notices | Dupes | Verify (archive binary : string) | Usage.

(** [args] is [os.Args] without the program. *)
Definition commandOf (args : list string) : command :=
  match args with
  | [c] => if String.eqb c "notices" then Notices else if String.eqb c "dupes" then Dupes else Usage
  | [c; archive; binary] => if String.eqb c "verify" then Verify archive binary else Usage
  | _ => Usage
  end.

Section main.
Context (tree : string -> root) (ReadFile : string -> string -> option string) (ParseFile : string -> option (list decl)).
Context (listing : option (list module * bool)) (open : string -> option (list member * bool)).
Context (home wd : option string) (GOMODCACHE : string) (stdout : bool).

(** Whether a command ends without error; [stdout]: the output can be written. *)
Definition succeeds (c : command) : bool :=
  match c with
  | Notices => bool_decide (is_Some (notices tree ReadFile listing)) && stdout
  | Dupes => match duplicates ParseFile (tree ".") with NoDuplicates => stdout | _ => false end
  | Verify archive binary =>
      match home, wd with
      | Some home, Some wd => match verifyArchive (open archive) binary [home; wd; GOMODCACHE] with Accepted => true | _ => false end
      | _, _ => false
      end
  | Usage => false
  end.

Definition exitStatus (args : list string) : Z := if succeeds (commandOf args) then 0 else 1.
End main.

(** ** Lemmas: archives *)

(** A member that may be in a release. *)
Definition proper (prefixes : list string) (m : member) : Prop :=
  Typeflag m = TypeReg /\ 0 < Size m /\ exists data, Data m = Some data /\
  forall prefix, prefix ∈ prefixes -> prefix <> "" -> Text.Contains data prefix = false.

Lemma leaks_none prefixes data :
  leaks prefixes data = false <-> forall prefix, prefix ∈ prefixes -> prefix <> "" -> Text.Contains data prefix = false.
Proof.
  unfold leaks. rewrite <-not_true_iff_false, existsb_exists. split.
  - intros H prefix Hin Hne. apply not_true_iff_false. intros Hc. apply H. exists prefix. split; [by apply list_elem_of_In|].
    rewrite Hc, andb_true_r. apply negb_true_iff. by apply String.eqb_neq.
  - intros H (prefix & Hin%list_elem_of_In & [Hne Hc]%andb_true_iff). apply negb_true_iff, String.eqb_neq in Hne.
    rewrite H in Hc; done.
Qed.

Lemma scanMembers_exact prefixes expected members ended :
  scanMembers prefixes expected members ended = Accepted <->
  let kept := filter (λ m, rootEntry m = false) members in
  ended = true /\ Forall (proper prefixes) kept /\ NoDup (memberName <$> kept) /\ (forall n, n ∈ memberName <$> kept <-> n ∈ expected).
Proof.
  revert expected. induction members as [|m members IH]; intros expected; cbn [scanMembers].
  - rewrite filter_nil. destruct ended; cbn; [|split; [done|intros [? _]; done]].
    case_bool_decide as He; (split; [|]); try done.
    + intros _. subst. split_and!; [done|constructor|constructor|set_solver].
    + intros (_ & _ & _ & H). destruct He. set_solver.
  - rewrite filter_cons. destruct (rootEntry m) eqn:Er; [rewrite decide_False by done; apply IH|]. rewrite decide_True by done.
    cbn zeta. rewrite fmap_cons, Forall_cons, NoDup_cons. unfold proper at 1.
    destruct (bool_decide_reflect (Typeflag m <> TypeReg)) as [Ht|Ht]; cbn [orb]; [split; [done|tauto]|]. apply dec_stable in Ht.
    destruct (bool_decide_reflect (memberName m ∉ expected)) as [Hx|Hx]; cbn [orb].
    { split; [done|]. intros (_ & _ & _ & H). destruct Hx. apply H. by left. }
    apply dec_stable in Hx. destruct (Z.leb_spec (Size m) 0); [split; [done|]; intros (_ & [(_ & ? & _) _] & _); lia|].
    destruct (Data m) as [data|]; [|split; [done|]; intros (_ & [(_ & _ & ? & ? & _) _] & _); done].
    destruct (leaks prefixes data) eqn:El.
    { split; [done|]. intros (_ & [(_ & _ & ? & [= <-] & Hd) _] & _). apply leaks_none in Hd. congruence. }
    rewrite IH. rewrite leaks_none in El. cbn zeta. clear IH. split.
    + intros (He & Hp & Hn & Hm). split_and!; [done|done|done|by exists data|done|rewrite Hm; set_solver|done|].
      intros n. rewrite elem_of_cons, Hm, elem_of_difference, elem_of_singleton. destruct (decide (n = memberName m)); naive_solver.
    + intros (He & [_ Hp] & [Hni Hn] & Hm). split_and!; try done. intros n. rewrite elem_of_difference, elem_of_singleton, <-Hm, elem_of_cons.
      naive_solver.
Qed.

(** ** Lemmas: walks *)

(** A file of [l] that a walk reaches. *)
Inductive Reached (skip : string -> bool) : list node -> list string -> string -> Prop :=
  | R_here l name : File name ∈ l -> Reached skip l [] name
  | R_below l d l' ds name : Dir d (Some l') ∈ l -> skip d = false -> Reached skip l' ds name -> Reached skip l (d :: ds) name.

Section node_ind.
Context (P : node -> Prop) (HF : forall name, P (File name)) (HU : forall name, P (Dir name None)).
Context (HD : forall name l, Forall P l -> P (Dir name (Some l))).

Fixpoint node_induction (n : node) : P n :=
  match n with
  | File name => HF name
  | Dir name None => HU name
  | Dir name (Some l) =>
      HD name l ((fix all (l : list node) : Forall P l := match l with [] => Forall_nil_2 _ | n :: l => Forall_cons_2 _ n l (node_induction n) (all l) end) l)
  end.
End node_ind.

Lemma visits_Dir skip dirs name l :
  visits skip dirs (Dir name (Some l)) = if skip name then [] else l ≫= visits skip (dirs ++ [name]).
Proof. cbn. destruct (skip name); [done|]. induction l as [|n l IH]; [done|]. by rewrite bind_cons, <-IH. Qed.

Lemma visits_reached skip dirs n leaf name :
  Leaf leaf name ∈ visits skip dirs n <-> exists ds, leaf = dirs ++ ds /\ Reached skip [n] ds name.
Proof.
  revert dirs. induction n as [f|d|d l IH] using node_induction; intros dirs.
  - cbn. rewrite list_elem_of_singleton. split.
    + intros [= -> ->]. exists []. split; [by rewrite app_nil_r|]. constructor. by left.
    + intros (ds & -> & H). inversion H as [? ? Hin|? ? ? ? ? Hin]; subst; apply list_elem_of_singleton in Hin; [|done].
      injection Hin as ->. by rewrite app_nil_r.
  - cbn. split; [destruct (skip d); set_solver|]. intros (ds & -> & H).
    inversion H as [? ? Hin|? ? ? ? ? Hin]; subst; apply list_elem_of_singleton in Hin; done.
  - rewrite visits_Dir. rewrite Forall_forall in IH. split.
    + destruct (skip d) eqn:Es; [set_solver|]. intros (n & Hv & Hn)%list_elem_of_bind. apply IH in Hv as (ds & -> & Hr); [|done].
      exists (d :: ds). split; [by rewrite <-app_assoc|]. apply (R_below _ _ _ l); [by left|done|].
      inversion Hr as [? ? Hin|? ? ? ? ? Hin]; subst; apply list_elem_of_singleton in Hin; subst; [by constructor|by econstructor].
    + intros (ds & -> & H). inversion H as [? ? Hin|? ? l' ds' ? Hin Es Hr]; subst; apply list_elem_of_singleton in Hin; [done|].
      injection Hin as -> ->. rewrite Es. apply list_elem_of_bind.
      assert (exists n, n ∈ l /\ Reached skip [n] ds' name) as (n & Hn & Hr').
      { inversion Hr; subst; eexists; (split; [eassumption|]); [constructor; by left|]. eapply R_below; [by left|done..]. }
      exists n. split; [|done]. apply IH; [done|]. exists ds'. split; [by rewrite <-app_assoc|done].
Qed.

(** ** Lemmas: notices *)
Definition licenseOf (v : visit) : option string :=
  match v with Leaf dirs name => if isLicense dirs name then Some (Rel dirs name) else None | Unreadable => None end.

Lemma collect_exact vs files : collect vs = (files, true) -> files = omap licenseOf vs.
Proof.
  revert files. induction vs as [|[dirs name|] vs IH]; cbn; intros files; [by intros [= <-]| |done].
  destruct (collect vs) as [fs ok]. intros [= <- ->]. rewrite <-(IH fs eq_refl). by destruct (isLicense dirs name).
Qed.

Lemma licenseFiles_reached name l files f :
  skipLicense name = false -> licenseFiles (Some (name, Some l)) = (files, true) ->
  f ∈ files <-> exists ds n, Reached skipLicense l ds n /\ isLicense ds n = true /\ f = Rel ds n.
Proof.
  intros Hs. unfold licenseFiles, WalkDir. rewrite Hs. destruct (collect _) as [fs ok] eqn:E. intros [= <- ->].
  apply collect_exact in E as ->. rewrite merge_sort_Permutation, list_elem_of_omap. split.
  - intros (v & Hv & Hf). destruct v as [dirs n|]; [|done]. cbn in Hf. destruct (isLicense dirs n) eqn:El; [|done]. injection Hf as <-.
    apply list_elem_of_bind in Hv as (x & Hv & Hx). apply visits_reached in Hv as (ds & -> & Hr). exists ds, n. split_and!; [|done..].
    inversion Hr as [? ? Hin|? ? ? ? ? Hin]; subst; apply list_elem_of_singleton in Hin; subst; [by constructor|by econstructor].
  - intros (ds & n & Hr & El & ->). exists (Leaf ds n). cbn. rewrite El. split; [|done]. apply list_elem_of_bind.
    assert (exists x, x ∈ l /\ Reached skipLicense [x] ds n) as (x & Hx & Hr').
    { inversion Hr; subst; eexists; (split; [eassumption|]); [constructor; by left|]. eapply R_below; [by left|done..]. }
    exists x. split; [|done]. apply visits_reached. by exists ds.
Qed.

Lemma Contains_left a b sub : Text.Contains a sub = true -> Text.Contains (a +:+ b) sub = true.
Proof. intros H. eapply Text.Contains_trans; [|exact H]. apply Text.Contains_exact. by exists "", b. Qed.

Lemma Contains_right a b sub : Text.Contains b sub = true -> Text.Contains (a +:+ b) sub = true.
Proof. intros H. eapply Text.Contains_trans; [|exact H]. apply Text.Contains_exact. exists a, "". by rewrite Text.string_app_nil_r. Qed.

Lemma Contains_self s : Text.Contains s s = true.
Proof. apply Text.Contains_exact. exists "", "". by rewrite Text.string_app_nil_r. Qed.

#[local] Hint Resolve Contains_left Contains_right Contains_self : core.

Lemma fileNotices_all ReadFile directory names out name :
  fileNotices ReadFile directory names = Some out -> name ∈ names ->
  exists text, ReadFile directory name = Some text /\ Text.Contains out (fileNotice name text) = true.
Proof.
  revert out. induction names as [|n names IH]; cbn; intros out; [set_solver|].
  intros (text & Ht & (rest & Hr & [= <-])%bind_Some)%bind_Some [->|Hin]%elem_of_cons; [by eauto|].
  destruct (IH rest Hr Hin) as (t & ? & ?). eauto.
Qed.

(** What the notices owe a package: a license at least, and the text of each. *)
Definition attributed (tree : string -> root) (ReadFile : string -> string -> option string) (out : string) (p : module) : Prop :=
  Text.Contains out (packageHeader p) = true /\
  exists files, files <> [] /\ licenseFiles (tree (directoryOf p)) = (files, true) /\
    forall name, name ∈ files -> exists text, ReadFile (directoryOf p) name = Some text /\ Text.Contains out (fileNotice name text) = true.

Lemma packageNotice_attributed tree ReadFile p out : packageNotice tree ReadFile p = Some out -> attributed tree ReadFile out p.
Proof.
  unfold packageNotice, attributed. destruct (String.eqb (directoryOf p) ""); [done|]. destruct (licenseFiles _) as [[|f fs] []] eqn:E; try done.
  intros (texts & Ht & [= <-])%bind_Some. split; [by eauto|]. exists (f :: fs). split_and!; [done..|]. intros name Hn.
  destruct (fileNotices_all _ _ _ _ _ Ht Hn) as (t & ? & ?). eauto.
Qed.

Lemma attributed_mono tree ReadFile out out' p :
  Text.Contains out' out = true -> attributed tree ReadFile out p -> attributed tree ReadFile out' p.
Proof.
  intros Hc (Hh & files & Hne & Hf & Hall). split; [by eapply Text.Contains_trans|]. exists files. split_and!; [done..|].
  intros name Hn. destruct (Hall name Hn) as (t & ? & ?). exists t. split; [done|by eapply Text.Contains_trans].
Qed.

Lemma packageNotices_all tree ReadFile packages out p :
  packageNotices tree ReadFile packages = Some out -> p ∈ packages -> attributed tree ReadFile out p.
Proof.
  revert out. induction packages as [|q packages IH]; cbn; intros out; [set_solver|].
  intros (text & Ht & (rest & Hr & [= <-])%bind_Some)%bind_Some [->|Hin]%elem_of_cons.
  - eapply attributed_mono; [|by apply packageNotice_attributed]. auto.
  - eapply attributed_mono; [|by apply IH]. auto.
Qed.

(** ** Lemmas: duplicates *)

(** The bodies of a file and of a walk, with where they are. *)
Fixpoint bodiesIn (relative : string) (ds : list decl) : option (list (string * string)) :=
  match ds with
  | [] => Some []
  | OtherDecl :: ds => bodiesIn relative ds
  | Func _ None :: _ => None
  | Func name (Some body) :: ds => ((normalized body, relative +:+ ":" +:+ name) ::.) <$> bodiesIn relative ds
  end.

Fixpoint bodies (ParseFile : string -> option (list decl)) (vs : list visit) : option (list (string * string)) :=
  match vs with
  | [] => Some []
  | Unreadable :: _ => None
  | Leaf dirs name :: vs =>
      if negb (Text.HasSuffix (Rel dirs name) ".go") || Text.HasSuffix (Rel dirs name) "_test.go" then bodies ParseFile vs
      else ds ← ParseFile (Rel dirs name); l ← bodiesIn (Rel dirs name) ds; l' ← bodies ParseFile vs; Some (l ++ l')
  end.

Definition sightings (s : finder) (l : list (string * string)) : finder := fold_left (λ s p, sighting s p.1 p.2) l s.

Lemma declarations_bodies relative ds s : declarations relative ds s = sightings s <$> bodiesIn relative ds.
Proof.
  revert s. induction ds as [|[name [body|]|] ds IH]; intros s; cbn; [done| |done|done]. rewrite IH. by destruct (bodiesIn relative ds).
Qed.

Lemma search_bodies ParseFile vs s : search ParseFile vs s = sightings s <$> bodies ParseFile vs.
Proof.
  revert s. induction vs as [|[dirs name|] vs IH]; intros s; cbn; [done| |done]. destruct (_ || _); [done|].
  destruct (ParseFile _) as [ds|]; [|done]. cbn. rewrite declarations_bodies. destruct (bodiesIn _ ds) as [l|]; [|done]. cbn. rewrite IH.
  destruct (bodies ParseFile vs) as [l'|]; [|done]. cbn. unfold sightings. by rewrite fold_left_app.
Qed.

(** The bodies long enough to count. *)
Definition long (l : list (string * string)) : list string := filter (λ b, (100 <= String.length b)%nat) l.*1.

Lemma sightings_distinct l s :
  clashes (sightings s l) = false <-> clashes s = false /\ NoDup (long l) /\ (forall b, b ∈ long l -> seen s !! b = None).
Proof.
  revert s. induction l as [|[b w] l IH]; intros s.
  - split; [intros H; split_and!; [done|constructor|set_solver]|tauto].
  - change (sightings s ((b, w) :: l)) with (sightings (sighting s b w) l). rewrite IH. unfold long, sighting. rewrite fmap_cons, filter_cons. cbn [fst].
    destruct (Nat.ltb_spec (String.length b) 100); [by rewrite decide_False by lia|]. rewrite decide_True by lia. rewrite NoDup_cons.
    destruct (seen s !! b) as [first|] eqn:E; cbn; [split; [intros [? _]; done|]; intros (_ & _ & H'); specialize (H' b); set_solver|].
    split.
    + intros (? & Hn & Hf). split_and!; [done| |done|].
      * intros Hin%Hf. by rewrite lookup_insert_eq in Hin.
      * intros c [->|Hc]%elem_of_cons; [done|]. apply Hf in Hc. by apply lookup_insert_None in Hc as [? _].
    + intros (? & [Hn Hd] & Hf). split_and!; [done..|]. intros c Hc. apply lookup_insert_None. split; [set_solver|]. by intros ->.
Qed.

(** ** Claims *)

(** C33: a release is accepted only as it should be.  [verifyArchive] accepts exactly the
    archives that can be read to their end and that hold, beside the entry of their
    own directory, the binary, the README, the notices and the license, each once,
    each a regular file that is not empty, and none containing the home directory,
    the working directory or the module cache of the build. *)
Theorem release_exact archive binary prefixes :
  verifyArchive archive binary prefixes = Accepted <->
  exists members, archive = Some (members, true) /\
    let kept := filter (λ m, rootEntry m = false) members in
    Forall (proper prefixes) kept /\ NoDup (memberName <$> kept)
    /\ forall n, n ∈ memberName <$> kept <-> n ∈ [binary; "README.md"; "THIRD_PARTY_NOTICES.txt"; "LICENSE.txt"].
Proof.
  assert (Hn : forall n, n ∈ expectedNames binary <-> n ∈ [binary; "README.md"; "THIRD_PARTY_NOTICES.txt"; "LICENSE.txt"]).
  { unfold expectedNames. set_solver. }
  unfold verifyArchive. destruct archive as [[members ended]|]; [|split; [done|intros (? & ? & _); done]]. rewrite scanMembers_exact. cbn zeta.
  setoid_rewrite Hn. split; [intros (-> & ? & ? & ?); by exists members|]. intros (? & [= <- ->] & ? & ? & ?). done.
Qed.

(** No dependency ships without its license.  When the notices are written, every
    module but the main one has its header there, at least one license file was found
    for it, and the text of every license file found is there, in text newlines;
    those files are the ones below the module's directory, outside [.git], [target]
    and [.build], that are named as a license or lie under a directory of licenses. *)
Theorem notices_complete tree ReadFile modules ended out :
  notices tree ReadFile (Some (modules, ended)) = Some out ->
  ended = true /\ forall p, p ∈ modules -> Main p = false ->
    attributed tree ReadFile out p
    /\ forall name l ds n, tree (directoryOf p) = Some (name, Some l) -> skipLicense name = false ->
         Reached skipLicense l ds n -> isLicense ds n = true ->
         exists text, ReadFile (directoryOf p) (Rel ds n) = Some text /\ Text.Contains out (fileNotice (Rel ds n) text) = true.
Proof.
  unfold notices. destruct ended; [|done]. intros (texts & Ht & [= <-])%bind_Some. split; [done|]. intros p Hp Hm.
  assert (Ha : attributed tree ReadFile (noticesTitle +:+ texts) p).
  { eapply attributed_mono; [|eapply packageNotices_all; [exact Ht|]]; [auto|]. rewrite merge_sort_Permutation. by apply list_elem_of_filter. }
  split; [done|]. intros name l ds n Htree Hs Hr Hl. destruct Ha as (_ & files & _ & Hf & Hall). rewrite Htree in Hf.
  apply Hall. apply (licenseFiles_reached _ _ _ _ Hs Hf). by exists ds, n.
Qed.

Lemma notices_complete_witness :
  let m := mkModule "example.org/a" "v1" "/mod/a" false None in
  let tree := λ _ : string, Some ("a", Some [Dir "target" None; Dir "sub" (Some [File "NOTICE.txt"]); File "LICENSE"]) in
  exists out, notices tree (λ _ _, Some "text") (Some ([m], true)) = Some out
    /\ Text.Contains out (fileNotice "sub/NOTICE.txt" "text") = true.
Proof.
  set (m := mkModule _ _ _ _ _). set (tree := λ _ : string, _).
  destruct (notices tree (λ _ _, Some "text") (Some ([m], true))) as [out|] eqn:E; [|exfalso; vm_compute in E; done].
  exists out. split; [done|]. destruct (notices_complete tree (λ _ _, Some "text") [m] true out E) as [_ H].
  destruct (H m ltac:(by left) eq_refl) as [_ Hl].
  destruct (Hl "a" [Dir "target" None; Dir "sub" (Some [File "NOTICE.txt"]); File "LICENSE"] ["sub"] "NOTICE.txt") as (t & [= <-] & Ht); [done..| |done|done].
  eapply R_below; [right; by left|done|]. constructor. by left.
Defined.

(** The duplicate finder reports none exactly when the walk and the parsing succeed
    and no two function bodies of a hundred characters or more, white space aside,
    are the same. *)
Theorem duplicates_exact ParseFile r :
  duplicates ParseFile r = NoDuplicates <-> exists l, bodies ParseFile (WalkDir skipGit r) = Some l /\ NoDup (long l).
Proof.
  unfold duplicates. rewrite search_bodies. destruct (bodies ParseFile _) as [l|]; cbn [fmap option_fmap option_map]; [|split; [done|intros (? & ? & _); done]].
  pose proof (sightings_distinct l (mkFinder ∅ [] false)) as H. destruct (clashes _).
  - split; [done|]. intros (? & [= <-] & Hd). enough (true = false) by done. by apply H.
  - split; [|done]. intros _. exists l. split; [done|]. by apply H.
Qed.

(** ** Archives as in [tools_test.go] *)
Definition demoMember (data name : string) : member := mkMember name TypeReg (Z.of_nat (String.length data)) (Some data).

Definition demoNames : list string := ["./wagastrim"; "./README.md"; "./LICENSE.txt"; "./THIRD_PARTY_NOTICES.txt"].

Example archives :
  let good := demoMember "contents" <$> demoNames in
  let verify := λ members, verifyArchive (Some (members, true)) "wagastrim" [""; "/test/private"] in
  verify (mkMember "./" TypeDir 0 None :: good) = Accepted
  /\ verify (take 3 good) = Unexpected
  /\ verify (good ++ [demoMember "contents" "tools"]) = Unexpected
  /\ verify (good ++ [demoMember "contents" "wagastrim"]) = Unexpected
  /\ verify (demoMember "" "wagastrim" :: drop 1 good) = Unexpected
  /\ verify (demoMember "local /test/private/build path" "wagastrim" :: drop 1 good) = LocalPath "wagastrim"
  /\ verify (mkMember "wagastrim" TypeOther 0 (Some "") :: drop 1 good) = Unexpected.
Proof. vm_compute. split_and!; reflexivity. Qed.

Example license_files :
  licenseFiles (Some ("root", Some [Dir ".git" (Some [File "LICENSE"]); File "LICENSE"; Dir "LICENSES" (Some [File "MIT.txt"]);
    File "source.go"; Dir "sub" (Some [File "NOTICE.txt"]); Dir "target" (Some [File "LICENSE"])]))
  = (["LICENSE"; "LICENSES/MIT.txt"; "sub/NOTICE.txt"], true).
Proof. vm_compute. reflexivity. Qed.

End Tools.
